(* ===== verification/_CoqProject ===== *)
-Q . S2P
Prelude.v
Hoare.v
Json.v
Externals.v
Hash.v
SignedEnvelope.v
NativeLedger.v
NativeLedgerFacts.v
NativeUndo.v
Concrete.v
NativeLedgerTheorems.v
Block.v
BlockTheorems.v
Difficulty.v
NativeChain.v
NativeChainTheorems.v
Config.v
SharePool.v
RateLimiter.v
Validator.v
ShareAuthorization.v
BlockBuilder.v
FamilyManifest.v
Bounty.v
ReplayEvidence.v
Replay.v
Admission.v
Durability.v
ConcreteLines.v
BountyLedger.v
Stores.v
Runtime.v
RuntimeFacts.v
EventStores.v
Receipts.v
HttpRateLimit.v
P2pWire.v
P2pLifecycle.v
LenBound.v
SubmitGate.v
ShareVerifier.v
LocalNode.v
LocalSubmit.v
PeerSync.v
LocalBoot.v
LocalRoutes.v
ConcreteStores.v
RuntimeTheorems.v
Production.v
LocalNodeFacts.v
ServedNode.v
PeerFacts.v
RustMeter.v
RustMeterFacts.v
