(* ===== verification/Prelude.v ===== *)
(** * A verification development for Boole's protocol core

    (header written at the end of the file's construction) *)

From stdpp Require Export base gmap sets list strings.
From Stdlib Require Export Sorted.
From Stdlib Require Export NArith ZArith Lia Ascii.
From Stdlib Require String.
From Stdlib Require Export Strings.Byte.
From Stdlib Require Import DecimalString DecimalN DecimalFacts.

#[global] Open Scope N_scope.

(** ** Outcomes of Rust code

    [Ok] and [Err] are the constructors of [Result]; [Panic] is an abort of
    the process: the workspace builds with [overflow-checks = true] and
    [panic = "abort"], so an arithmetic overflow of a plain operator, a failed
    [expect] and an index out of range all end there. *)

Inductive outcome (E A : Type) : Type :=
| Ok (a : A)
| Err (e : E)
| Panic.
Arguments Ok {E A} a.
Arguments Err {E A} e.
Arguments Panic {E A}.

Definition obind {E A B} (m : outcome E A) (f : A -> outcome E B) : outcome E B :=
  match m with
  | Ok a => f a
  | Err e => Err e
  | Panic => Panic
  end.

Definition omap {E A B} (f : A -> B) (m : outcome E A) : outcome E B :=
  obind m (fun a => Ok (f a)).

Definition map_err {E F A} (f : E -> F) (m : outcome E A) : outcome F A :=
  match m with
  | Ok a => Ok a
  | Err e => Err (f e)
  | Panic => Panic
  end.

(** [Option::ok_or] and [Option::expect]. *)
Definition ok_or {E A} (o : option A) (e : E) : outcome E A :=
  match o with Some a => Ok a | None => Err e end.

Definition expect {E A} (o : option A) : outcome E A :=
  match o with Some a => Ok a | None => Panic end.

(** [anyhow::ensure!]. *)
Definition ensure {E} (b : bool) (e : E) : outcome E unit :=
  if b then Ok tt else Err e.

Definition is_ok {E A} (m : outcome E A) : bool :=
  match m with Ok _ => true | _ => false end.

Declare Scope rust_scope.
Delimit Scope rust_scope with rust.
Notation "'let*' x ':=' m 'in' k" := (obind m (fun x => k))
  (at level 200, x pattern, m at level 200, k at level 200,
   format "'[v' 'let*'  x  ':='  m  'in' '/' k ']'") : rust_scope.
Notation "'do*' m ';' k" := (obind m (fun _ => k))
  (at level 200, m at level 200, k at level 200,
   format "'[v' 'do*'  m ';' '/' k ']'") : rust_scope.
#[global] Open Scope rust_scope.

(** Code that mutates a state and may fail: the state it leaves behind is part
    of the result on every path. *)
Definition stm (S E A : Type) : Type := S -> S * outcome E A.

Definition sret {S E A} (a : A) : stm S E A := fun s => (s, Ok a).
Definition slift {S E A} (o : outcome E A) : stm S E A := fun s => (s, o).
Definition sget {S E} : stm S E S := fun s => (s, Ok s).
Definition smodify {S E} (f : S -> S) : stm S E unit := fun s => (f s, Ok tt).
Definition sbind {S E A B} (m : stm S E A) (f : A -> stm S E B) : stm S E B := fun s =>
  match m s with
  | (s', Ok a) => f a s'
  | (s', Err e) => (s', Err e)
  | (s', Panic) => (s', Panic)
  end.
Definition smap_err {S E F A} (f : E -> F) (m : stm S E A) : stm S F A := fun s =>
  let '(s', r) := m s in (s', map_err f r).

Notation "'let!' x ':=' m 'in' k" := (sbind m (fun x => k))
  (at level 200, x pattern, m at level 200, k at level 200,
   format "'[v' 'let!'  x  ':='  m  'in' '/' k ']'") : rust_scope.
Notation "'do!' m ';' k" := (sbind m (fun _ => k))
  (at level 200, m at level 200, k at level 200,
   format "'[v' 'do!'  m ';' '/' k ']'") : rust_scope.

(** [for a in l { f(a)?; }]. *)
Fixpoint sfor {S E A} (f : A -> stm S E unit) (l : list A) : stm S E unit :=
  match l with
  | [] => sret tt
  | a :: l' => do! f a; sfor f l'
  end.

(** A loop over a list that threads a state and stops at the first failure. *)
Fixpoint ofold {E S A} (f : S -> A -> outcome E S) (s : S) (l : list A) : outcome E S :=
  match l with
  | [] => Ok s
  | a :: l' => let* s' := f s a in ofold f s' l'
  end.

(** ** Machine integers

    Unsigned integers are [N]; the width appears where the source can
    overflow. *)

Definition u32_max : N := 2 ^ 32 - 1.
Definition u64_max : N := 2 ^ 64 - 1.
Definition u128_max : N := 2 ^ 128 - 1.
Definition usize_max : N := u64_max.

Definition checked_add (max a b : N) : option N :=
  if a + b <=? max then Some (a + b) else None.

Definition checked_sub (a b : N) : option N :=
  if b <=? a then Some (a - b) else None.

Definition checked_mul (max a b : N) : option N :=
  if a * b <=? max then Some (a * b) else None.

Definition saturating_mul (max a b : N) : N := N.min (a * b) max.

(** The plain operators, which abort on overflow. *)
Definition add_panic {E} (max a b : N) : outcome E N := expect (checked_add max a b).
Definition sub_panic {E} (a b : N) : outcome E N := expect (checked_sub a b).

Definition len {A} (l : list A) : N := N.of_nat (length l).

(** ** Bytes and strings

    A Rust [String] is its UTF-8 bytes, which is what [String.string] holds. *)

Definition as_bytes (s : string) : list byte := String.list_byte_of_string s.
Definition str_len (s : string) : N := N.of_nat (String.length s).

(** [s.bytes().all(p)]. *)
Fixpoint str_all (p : ascii -> bool) (s : string) : bool :=
  match s with
  | EmptyString => true
  | String c s' => p c && str_all p s'
  end.

Definition in_range (lo hi : N) (c : ascii) : bool :=
  (lo <=? N_of_ascii c) && (N_of_ascii c <=? hi).

Definition is_ascii_digit (c : ascii) : bool := in_range 48 57 c.
Definition is_ascii_lower (c : ascii) : bool := in_range 97 122 c.
Definition is_ascii_upper (c : ascii) : bool := in_range 65 90 c.
Definition is_ascii_alphanumeric (c : ascii) : bool :=
  is_ascii_digit c || is_ascii_lower c || is_ascii_upper c.
(** [b'0'..=b'9' | b'a'..=b'f']. *)
Definition is_lower_hex (c : ascii) : bool := is_ascii_digit c || in_range 97 102 c.
Definition is_ascii_hexdigit (c : ascii) : bool := is_lower_hex c || in_range 65 70 c.

Definition is_char (n : N) (c : ascii) : bool := N_of_ascii c =? n.

(** [str::is_empty], [str::starts_with] for one character. *)
Definition str_is_empty (s : string) : bool :=
  match s with EmptyString => true | _ => false end.
Definition starts_with_char (n : N) (s : string) : bool :=
  match s with EmptyString => false | String c _ => is_char n c end.

(** Decimal text of unsigned integers: [to_string] and [str::parse], which
    accepts one leading plus sign and leading zeros. *)
Definition to_decimal (n : N) : string := NilZero.string_of_uint (N.to_uint n).

Definition parse_digits (s : string) : option N :=
  if str_is_empty s then None else N.of_uint <$> NilEmpty.uint_of_string s.

Definition strip_plus (s : string) : string :=
  match s with
  | String c s' => if is_char 43 c then s' else s
  | EmptyString => s
  end.

Definition parse_uint (max : N) (s : string) : option N :=
  match parse_digits (strip_plus s) with
  | Some n => if n <=? max then Some n else None
  | None => None
  end.

(** ** Orders

    [Ord::cmp] of the types the code compares, with the laws of a total
    order. *)

Class RustOrd (A : Type) := rcmp : A -> A -> comparison.

Class RustOrdLaws (A : Type) `{RustOrd A} := {
  rcmp_eq_iff : forall a b : A, rcmp a b = Eq <-> a = b;
  rcmp_flip : forall a b : A, rcmp b a = CompOpp (rcmp a b);
  rcmp_lt_trans : forall a b c : A, rcmp a b = Lt -> rcmp b c = Lt -> rcmp a c = Lt
}.

Definition rle {A} `{RustOrd A} (a b : A) : bool :=
  match rcmp a b with Gt => false | _ => true end.
Definition rlt {A} `{RustOrd A} (a b : A) : bool :=
  match rcmp a b with Lt => true | _ => false end.

(** [Ordering::then_with]. *)
Definition cmp_then (c d : comparison) : comparison :=
  match c with Eq => d | _ => c end.

Fixpoint lex_cmp {A} (f : A -> A -> comparison) (l k : list A) : comparison :=
  match l, k with
  | [], [] => Eq
  | [], _ :: _ => Lt
  | _ :: _, [] => Gt
  | a :: l', b :: k' => cmp_then (f a b) (lex_cmp f l' k')
  end.

#[export] Instance byte_eq_decision : EqDecision byte := Byte.byte_eq_dec.
#[export] Instance N_ord : RustOrd N := N.compare.
#[export] Instance byte_ord : RustOrd byte := fun a b => N.compare (Byte.to_N a) (Byte.to_N b).
#[export] Instance list_ord {A} `{RustOrd A} : RustOrd (list A) := lex_cmp rcmp.
#[export] Instance string_ord : RustOrd string :=
  fun s t => lex_cmp rcmp (as_bytes s) (as_bytes t).

(** ** Stable sorting

    [slice::sort_by] is a stable sort; insertion from the right is the one
    whose result it must equal. *)

Section Sort.
Context {A : Type} (cmp : A -> A -> comparison).

Fixpoint sort_insert (x : A) (l : list A) : list A :=
  match l with
  | [] => [x]
  | y :: l' =>
      match cmp x y with
      | Gt => y :: sort_insert x l'
      | _ => x :: y :: l'
      end
  end.

Fixpoint sort_by (l : list A) : list A :=
  match l with
  | [] => []
  | x :: l' => sort_insert x (sort_by l')
  end.

End Sort.

(** ** Ordered maps

    A [BTreeMap] is a [gmap]; its iteration goes in ascending key order. *)

Definition btree_iter {K V} `{Countable K} `{RustOrd K} (m : gmap K V) : list (K * V) :=
  sort_by (fun x y => rcmp x.1 y.1) (map_to_list m).

(** [BTreeMap::first_key_value] and [BTreeMap::pop_first]. *)
Definition first_key_value {K V} `{Countable K} `{RustOrd K} (m : gmap K V) : option (K * V) :=
  head (btree_iter m).

(** Sum of the values of a map. *)
Definition map_sum {K} `{Countable K} (m : gmap K N) : N :=
  map_fold (fun _ v acc => v + acc) 0 m.

(** ** Proof automation *)

Create HintDb boole.

(** Turn boolean tests of the code into propositions. *)
Ltac breflect :=
  repeat match goal with
  | H : negb _ = true |- _ => apply negb_true_iff in H
  | H : negb _ = false |- _ => apply negb_false_iff in H
  | H : andb _ _ = true |- _ => apply andb_true_iff in H; destruct H
  | H : orb _ _ = false |- _ => apply orb_false_iff in H; destruct H
  | H : (_ <=? _) = true |- _ => apply N.leb_le in H
  | H : (_ <=? _) = false |- _ => apply N.leb_gt in H
  | H : (_ <? _) = true |- _ => apply N.ltb_lt in H
  | H : (_ <? _) = false |- _ => apply N.ltb_ge in H
  | H : (_ =? _) = true |- _ => apply N.eqb_eq in H
  | H : (_ =? _) = false |- _ => apply N.eqb_neq in H
  | H : String.eqb _ _ = true |- _ => apply String.eqb_eq in H
  | H : String.eqb _ _ = false |- _ => apply String.eqb_neq in H
  | H : bool_decide _ = true |- _ => apply bool_decide_eq_true in H
  | H : bool_decide _ = false |- _ => apply bool_decide_eq_false in H
  end.

(** Invert a run: every bind, error mapping and guard of the hypothesis is split
    at its first action, the actions that are such forms themselves likewise. *)
Ltac run_inv H :=
  repeat match type of H with
  | obind ?m _ = _ =>
      let E := fresh "E" in destruct m eqn:E; cbn [obind] in H; try discriminate H; run_inner E
  | map_err _ ?m = _ =>
      let E := fresh "E" in destruct m eqn:E; cbn [map_err] in H; try discriminate H; run_inner E
  | omap _ ?m = _ =>
      let E := fresh "E" in destruct m eqn:E; cbn [omap obind] in H; try discriminate H; run_inner E
  | ok_or ?m _ = _ =>
      let E := fresh "E" in destruct m eqn:E; cbn [ok_or] in H; try discriminate H
  | expect ?m = _ =>
      let E := fresh "E" in destruct m eqn:E; cbn [expect] in H; try discriminate H
  | ensure ?b _ = _ =>
      let E := fresh "E" in destruct b eqn:E; cbn [ensure] in H; try discriminate H
  | (if ?b then _ else _) = _ =>
      let E := fresh "E" in destruct b eqn:E; try discriminate H
  | match ?x with _ => _ end = _ =>
      let E := fresh "E" in destruct x eqn:E; try discriminate H
  end
with run_inner E :=
  try run_inv E;
  lazymatch type of E with
  | Ok _ = Ok _ => injection E as E; try (subst; idtac)
  | Err _ = Err _ => injection E as E; try (subst; idtac)
  | Panic = Panic => clear E
  | _ => idtac
  end.

(** ** Generic lemmas *)

Lemma checked_add_Some max a b n :
  checked_add max a b = Some n <-> n = a + b /\ a + b <= max.
Proof. unfold checked_add. destruct (N.leb_spec (a + b) max); split; naive_solver lia. Qed.

Lemma checked_add_None max a b : checked_add max a b = None <-> max < a + b.
Proof. unfold checked_add. destruct (N.leb_spec (a + b) max); split; naive_solver lia. Qed.

Lemma checked_sub_Some a b n : checked_sub a b = Some n <-> n = a - b /\ b <= a.
Proof. unfold checked_sub. destruct (N.leb_spec b a); split; naive_solver lia. Qed.

Lemma checked_sub_None a b : checked_sub a b = None <-> a < b.
Proof. unfold checked_sub. destruct (N.leb_spec b a); split; naive_solver lia. Qed.

Lemma checked_mul_Some max a b n :
  checked_mul max a b = Some n <-> n = a * b /\ a * b <= max.
Proof. unfold checked_mul. destruct (N.leb_spec (a * b) max); split; naive_solver lia. Qed.

Lemma checked_add_ok max a b : a + b <= max -> checked_add max a b = Some (a + b).
Proof. intros. by apply checked_add_Some. Qed.

Lemma checked_sub_ok a b : b <= a -> checked_sub a b = Some (a - b).
Proof. intros. by apply checked_sub_Some. Qed.

Lemma obind_Ok {E A B} (m : outcome E A) (f : A -> outcome E B) b :
  obind m f = Ok b <-> exists a, m = Ok a /\ f a = Ok b.
Proof. destruct m; naive_solver. Qed.

Lemma ok_or_Ok {E A} (o : option A) (e : E) a : ok_or o e = Ok a <-> o = Some a.
Proof. destruct o; naive_solver. Qed.

(** A run that succeeds has a result, and so has each of its parts. *)
Lemma is_ok_Ok {E A} (m : outcome E A) : is_ok m = true -> exists a, m = Ok a.
Proof. destruct m; eauto; done. Qed.

Lemma is_ok_bind {E A B} (m : outcome E A) (f : A -> outcome E B) :
  is_ok (obind m f) = true -> exists a, m = Ok a /\ is_ok (f a) = true.
Proof. destruct m; eauto; done. Qed.

Lemma sfor_app {S E A} (f : A -> stm S E unit) l1 l2 s : sfor f (l1 ++ l2) s = sbind (sfor f l1) (fun _ => sfor f l2) s.
Proof.
  revert s. induction l1 as [|x l1 IH]; intros s; [done|]. cbn [app sfor]. unfold sbind.
  destruct (f x s) as [s1 [u| |]]; [|done..]. rewrite IH. unfold sbind. by destruct (sfor f l1 s1) as [s2 [u'| |]].
Qed.

Lemma ofold_app {E S A} (f : S -> A -> outcome E S) s l k :
  ofold f s (l ++ k) = let* s' := ofold f s l in ofold f s' k.
Proof. revert s; induction l as [|a l IH]; intros s; cbn; [done|]. destruct (f s a); cbn; auto. Qed.

(** An invariant of every step of a loop holds after the loop. *)
Lemma ofold_inv {E S A} (P : S -> Prop) (f : S -> A -> outcome E S) l :
  (forall s a s', a ∈ l -> P s -> f s a = Ok s' -> P s') ->
  forall s s', P s -> ofold f s l = Ok s' -> P s'.
Proof.
  induction l as [|a l IH]; cbn; intros Hstep s s' Hs Hrun; [naive_solver|].
  destruct (f s a) as [s1| |] eqn:E1; cbn in Hrun; try discriminate.
  eapply (IH ltac:(intros; eapply Hstep; eauto; by right) s1 s'); [|done].
  eapply (Hstep s a s1); [by left|done|done].
Qed.

(** A loop all of whose steps succeed under an invariant succeeds. *)
Lemma ofold_total {E S A} (P : S -> Prop) (f : S -> A -> outcome E S) l :
  (forall s a, a ∈ l -> P s -> exists s', f s a = Ok s' /\ P s') ->
  forall s, P s -> exists s', ofold f s l = Ok s' /\ P s'.
Proof.
  induction l as [|a l IH]; cbn; intros Hstep s Hs; [eauto|].
  destruct (Hstep s a ltac:(by left) Hs) as (s1 & -> & H1); cbn.
  apply IH; [|done]. intros; apply Hstep; [by right|done].
Qed.

(** A loop none of whose steps panics under an invariant does not panic. *)
Lemma ofold_no_panic {E S A} (P : S -> Prop) (f : S -> A -> outcome E S) l :
  (forall s a, a ∈ l -> P s -> f s a <> Panic /\ (forall s', f s a = Ok s' -> P s')) ->
  forall s, P s -> ofold f s l <> Panic.
Proof.
  induction l as [|a l IH]; cbn; intros Hstep s Hs; [done|].
  destruct (Hstep s a ltac:(by left) Hs) as [Hp Hk].
  destruct (f s a) as [s1| |]; cbn; [|done|done].
  apply IH; [|auto]. intros; apply Hstep; [by right|done].
Qed.

(** *** Freedom from aborts

    The hints of the database [total] prove that a run does not abort; the
    tactic [total_tac] follows the structure of the run. *)

Lemma total_bind {E A B} (m : outcome E A) (f : A -> outcome E B) :
  m <> Panic -> (forall a, m = Ok a -> f a <> Panic) -> obind m f <> Panic.
Proof. destruct m; cbn; auto. Qed.

Lemma total_map_err {E F A} (f : E -> F) (m : outcome E A) : m <> Panic -> map_err f m <> Panic.
Proof. by destruct m. Qed.

Lemma total_ok_or {E A} (o : option A) (e : E) : ok_or o e <> Panic.
Proof. by destruct o. Qed.

Lemma total_ensure {E} b (e : E) : ensure b e <> Panic.
Proof. by destruct b. Qed.

Create HintDb total.
#[export] Hint Resolve total_map_err total_ok_or total_ensure : total.

Ltac total_tac :=
  repeat first
    [ progress intros
    | solve [eauto with total]
    | match goal with |- obind (Ok _) _ <> Panic => cbn [obind] end
    | match goal with |- obind _ _ <> Panic => apply total_bind end
    | match goal with |- match ?x with _ => _ end <> Panic => destruct x eqn:? end
    | discriminate ].

(** *** Orders *)

#[export] Instance N_ord_laws : RustOrdLaws N.
Proof.
  split; unfold rcmp, N_ord.
  - apply N.compare_eq_iff.
  - intros a b. apply N.compare_antisym.
  - intros a b c. rewrite !N.compare_lt_iff. lia.
Qed.

Lemma byte_to_N_inj (a b : byte) : Byte.to_N a = Byte.to_N b -> a = b.
Proof. intros H. apply (f_equal Byte.of_N) in H. rewrite !Byte.of_to_N in H. congruence. Qed.

#[export] Instance byte_ord_laws : RustOrdLaws byte.
Proof.
  split; unfold rcmp, byte_ord.
  - intros a b. rewrite N.compare_eq_iff. split; [apply byte_to_N_inj|congruence].
  - intros a b. apply N.compare_antisym.
  - intros a b c. rewrite !N.compare_lt_iff. lia.
Qed.

Lemma cmp_then_flip c d : cmp_then (CompOpp c) (CompOpp d) = CompOpp (cmp_then c d).
Proof. by destruct c, d. Qed.

Section OrdFacts.
Context {A : Type} `{RustOrdLaws A}.

Lemma rcmp_refl (a : A) : rcmp a a = Eq.
Proof. by apply rcmp_eq_iff. Qed.

Lemma rcmp_gt_lt (a b : A) : rcmp a b = Gt <-> rcmp b a = Lt.
Proof. rewrite (rcmp_flip a b). by destruct (rcmp a b). Qed.

Lemma rle_refl (a : A) : rle a a = true.
Proof. unfold rle. by rewrite rcmp_refl. Qed.

Lemma rle_trans (a b c : A) : rle a b = true -> rle b c = true -> rle a c = true.
Proof.
  unfold rle. destruct (rcmp a b) eqn:E1; [|intros _|done].
  - apply rcmp_eq_iff in E1 as ->. done.
  - destruct (rcmp b c) eqn:E2; [|intros _|done].
    + apply rcmp_eq_iff in E2 as <-. by rewrite E1.
    + by rewrite (rcmp_lt_trans _ _ _ E1 E2).
Qed.

Lemma rle_total (a b : A) : rle a b = true \/ rle b a = true.
Proof. unfold rle. rewrite (rcmp_flip a b). destruct (rcmp a b); auto. Qed.

Lemma rle_antisym (a b : A) : rle a b = true -> rle b a = true -> a = b.
Proof.
  unfold rle. rewrite (rcmp_flip a b).
  destruct (rcmp a b) eqn:E; cbn; try done. intros _ _. by apply rcmp_eq_iff.
Qed.

Lemma lex_cmp_refl (l : list A) : lex_cmp rcmp l l = Eq.
Proof. induction l; cbn; [done|]. by rewrite rcmp_refl. Qed.

Lemma lex_cmp_eq (l k : list A) : lex_cmp rcmp l k = Eq -> l = k.
Proof.
  revert k. induction l as [|a l IH]; intros [|b k]; cbn; try done.
  unfold cmp_then. destruct (rcmp a b) eqn:E; try done.
  apply rcmp_eq_iff in E as ->. intros E. by rewrite (IH _ E).
Qed.

Lemma lex_cmp_flip (l k : list A) : lex_cmp rcmp k l = CompOpp (lex_cmp rcmp l k).
Proof.
  revert k. induction l as [|a l IH]; intros [|b k]; cbn; try done.
  by rewrite (rcmp_flip a b), IH, cmp_then_flip.
Qed.

Lemma lex_cmp_trans (l k m : list A) :
  lex_cmp rcmp l k = Lt -> lex_cmp rcmp k m = Lt -> lex_cmp rcmp l m = Lt.
Proof.
  revert k m. induction l as [|a l IH]; intros [|b k] [|c m]; cbn; try done.
  unfold cmp_then. destruct (rcmp a b) eqn:E1; try done.
  - apply rcmp_eq_iff in E1 as ->. destruct (rcmp b c); try done. apply IH.
  - intros _. destruct (rcmp b c) eqn:E2; try done.
    + apply rcmp_eq_iff in E2 as <-. by rewrite E1.
    + by rewrite (rcmp_lt_trans _ _ _ E1 E2).
Qed.

End OrdFacts.

#[export] Instance list_ord_laws {A} `{RustOrdLaws A} : RustOrdLaws (list A).
Proof.
  split; unfold rcmp, list_ord.
  - intros a b; split; [apply lex_cmp_eq|intros ->; apply lex_cmp_refl].
  - intros a b; apply lex_cmp_flip.
  - intros a b c; apply lex_cmp_trans.
Qed.

Lemma as_bytes_inj s t : as_bytes s = as_bytes t -> s = t.
Proof.
  unfold as_bytes. intros E. apply (f_equal String.string_of_list_byte) in E.
  by rewrite !String.string_of_list_byte_of_string in E.
Qed.

#[export] Instance string_ord_laws : RustOrdLaws string.
Proof.
  split; unfold rcmp, string_ord.
  - intros a b; split; [|intros ->; apply lex_cmp_refl].
    intros E. by apply as_bytes_inj, lex_cmp_eq.
  - intros a b; apply lex_cmp_flip.
  - intros a b c; apply lex_cmp_trans.
Qed.

(** *** Sorting *)

Section SortFacts.
Context {A : Type} (cmp : A -> A -> comparison).

Lemma sort_insert_perm x l : sort_insert cmp x l ≡ₚ x :: l.
Proof.
  induction l as [|y l IH]; cbn; [done|].
  destruct (cmp x y); [done|done|]. rewrite IH. apply Permutation_swap.
Qed.

Lemma sort_by_perm l : sort_by cmp l ≡ₚ l.
Proof. induction l as [|x l IH]; cbn; [done|]. by rewrite sort_insert_perm, IH. Qed.

Lemma sort_by_elem_of x l : x ∈ sort_by cmp l <-> x ∈ l.
Proof. by rewrite sort_by_perm. Qed.

Lemma sort_by_length l : length (sort_by cmp l) = length l.
Proof. by rewrite sort_by_perm. Qed.

Definition cmp_le (a b : A) : Prop := cmp a b <> Gt.

Lemma sort_by_id l : StronglySorted cmp_le l -> sort_by cmp l = l.
Proof.
  induction 1 as [|x l Hs IH Hall]; cbn; [done|]. rewrite IH.
  destruct l as [|y l]; cbn; [done|].
  apply Forall_cons in Hall as [Hxy _]. unfold cmp_le in Hxy. by destruct (cmp x y).
Qed.

Context (Htot : forall a b, cmp_le a b \/ cmp_le b a).
Context (Htrans : forall a b c, cmp_le a b -> cmp_le b c -> cmp_le a c).

Lemma sort_insert_sorted x l :
  StronglySorted cmp_le l -> StronglySorted cmp_le (sort_insert cmp x l).
Proof using Htot Htrans.
  induction 1 as [|y l Hs IH Hall]; cbn; [by repeat constructor|].
  destruct (cmp x y) eqn:E.
  1,2: assert (cmp_le x y) by (unfold cmp_le; congruence);
       constructor; [by constructor|]; constructor; [done|];
       eapply Forall_impl; [exact Hall|]; eauto.
  constructor; [exact IH|]. rewrite sort_insert_perm. constructor; [|done].
  destruct (Htot x y) as [Hxy|Hyx]; [by contradict E|done].
Qed.

Lemma sort_by_sorted l : StronglySorted cmp_le (sort_by cmp l).
Proof using Htot Htrans. induction l; cbn; [constructor|]. by apply sort_insert_sorted. Qed.

End SortFacts.

(** Two sorted arrangements of the same elements are equal when the order
    separates distinct elements. *)
Lemma sorted_perm_unique {A} (R : A -> A -> Prop) (l k : list A) :
  (forall a b, a ∈ l -> b ∈ l -> R a b -> R b a -> a = b) ->
  StronglySorted R l -> StronglySorted R k -> l ≡ₚ k -> l = k.
Proof.
  intros Hanti Hl. revert k Hanti. induction Hl as [|x l Hl IH Hx]; intros k Hanti Hk Hp.
  { apply Permutation_nil_l in Hp. congruence. }
  destruct Hk as [|y k Hk Hy]; [by apply Permutation_nil_r in Hp|].
  assert (x = y) as ->.
  { assert (x ∈ y :: k) as [->|Hxk]%elem_of_cons by (rewrite <- Hp; by left); [done|].
    assert (y ∈ x :: l) as [->|Hyl]%elem_of_cons by (rewrite Hp; by left); [done|].
    apply Hanti; [by left|by right| |].
    - rewrite Forall_forall in Hx; auto.
    - rewrite Forall_forall in Hy; auto. }
  f_equal. apply IH; [|done|by apply Permutation_cons_inv in Hp].
  intros a b Ha Hb; apply Hanti; by right.
Qed.

(** *** Ordered maps *)

Section BTree.
Context {K V : Type} `{Countable K} `{!RustOrd K} `{!RustOrdLaws K}.
Implicit Types m : gmap K V.

Definition entry_le (x y : K * V) : Prop := cmp_le (fun x y => rcmp x.1 y.1) x y.

Lemma entry_le_rle x y : entry_le x y <-> rle x.1 y.1 = true.
Proof. unfold entry_le, cmp_le, rle. by destruct (rcmp x.1 y.1). Qed.

Lemma btree_iter_perm m : btree_iter m ≡ₚ map_to_list m.
Proof. apply sort_by_perm. Qed.

Lemma elem_of_btree_iter m k v : (k, v) ∈ btree_iter m <-> m !! k = Some v.
Proof. unfold btree_iter. rewrite sort_by_elem_of. apply elem_of_map_to_list. Qed.

Lemma btree_iter_length m : length (btree_iter m) = size m.
Proof. rewrite btree_iter_perm. apply length_map_to_list. Qed.

Lemma btree_iter_nodup_keys m : NoDup (btree_iter m).*1.
Proof. rewrite btree_iter_perm. apply NoDup_fst_map_to_list. Qed.

Lemma btree_iter_sorted m : StronglySorted entry_le (btree_iter m).
Proof using RustOrdLaws0.
  apply sort_by_sorted.
  - intros x y. destruct (rle_total x.1 y.1) as [E|E];
      [left|right]; by apply entry_le_rle.
  - intros x y z Hxy Hyz. apply entry_le_rle.
    eapply rle_trans; by apply entry_le_rle.
Qed.

(** The first entry is the least key with its value. *)
Lemma first_key_value_Some m k v :
  first_key_value m = Some (k, v) ->
  m !! k = Some v /\ forall k' v', m !! k' = Some v' -> rle k k' = true.
Proof using RustOrdLaws0.
  unfold first_key_value. intros Hh. pose proof (btree_iter_sorted m) as Hs.
  assert (forall k' v', m !! k' = Some v' -> (k', v') ∈ btree_iter m) as Hin
    by (intros; by apply elem_of_btree_iter).
  destruct (btree_iter m) as [|[k1 v1] l] eqn:E; cbn in Hh; [done|]. simplify_eq.
  split; [apply elem_of_btree_iter; rewrite E; by left|].
  intros k' v' [?|Hl]%Hin%elem_of_cons; simplify_eq; [apply rle_refl|].
  inversion Hs as [|? ? _ Hall]; subst. rewrite Forall_forall in Hall.
  specialize (Hall _ Hl). by apply entry_le_rle in Hall.
Qed.

Lemma first_key_value_None m : first_key_value m = None -> m = ∅.
Proof.
  unfold first_key_value. intros Hh. apply map_size_empty_inv.
  rewrite <- btree_iter_length. by destruct (btree_iter m).
Qed.

End BTree.

(** *** Sums over maps *)

Section MapSum.
Context {K : Type} `{Countable K}.
Implicit Types m : gmap K N.

Lemma map_sum_empty : map_sum (∅ : gmap K N) = 0.
Proof. apply map_fold_empty. Qed.

Lemma map_sum_insert_None m k v : m !! k = None -> map_sum (<[k:=v]> m) = v + map_sum m.
Proof. intros Hk. unfold map_sum. rewrite map_fold_insert_L; [done|intros; lia|done]. Qed.

Lemma map_sum_delete m k v : m !! k = Some v -> map_sum m = v + map_sum (delete k m).
Proof. intros Hk. unfold map_sum. rewrite (map_fold_delete_L _ _ k v m); [done|intros; lia|done]. Qed.

Lemma map_sum_insert m k v :
  map_sum (<[k:=v]> m) + default 0 (m !! k) = map_sum m + v.
Proof.
  destruct (m !! k) as [w|] eqn:E; cbn.
  - rewrite <- insert_delete_eq, map_sum_insert_None by apply lookup_delete_eq.
    rewrite (map_sum_delete m k w E). lia.
  - rewrite map_sum_insert_None by done. lia.
Qed.

Lemma map_sum_lookup_le m k : default 0 (m !! k) <= map_sum m.
Proof. destruct (m !! k) as [w|] eqn:E; cbn; [|lia]. rewrite (map_sum_delete m k w E). lia. Qed.

Lemma map_sum_lookup_le2 m k k' :
  k <> k' -> default 0 (m !! k) + default 0 (m !! k') <= map_sum m.
Proof.
  intros Hne. destruct (m !! k) as [w|] eqn:E; cbn.
  - rewrite (map_sum_delete m k w E).
    pose proof (map_sum_lookup_le (delete k m) k') as Hle.
    rewrite lookup_delete_ne in Hle by done. lia.
  - pose proof (map_sum_lookup_le m k'). lia.
Qed.

End MapSum.

(** *** Decimal text *)

Lemma uint_of_string_digits s :
  str_all is_ascii_digit s = true -> exists u, NilEmpty.uint_of_string s = Some u.
Proof.
  induction s as [|c s IH]; cbn; intros Hd; [eauto|].
  apply andb_true_iff in Hd as [Hc Hs]. destruct (IH Hs) as [u Hu]. rewrite Hu.
  destruct c as [[] [] [] [] [] [] [] []]; vm_compute in Hc; try discriminate; cbn; eauto.
Qed.

Lemma string_of_uint_digits u : str_all is_ascii_digit (NilEmpty.string_of_uint u) = true.
Proof. induction u; cbn; auto. Qed.

(** [unorm] leaves numerals without leading zeros alone. *)
Lemma unorm_canonical s u :
  NilEmpty.uint_of_string s = Some u ->
  str_is_empty s = false ->
  (1 <? str_len s) && starts_with_char 48 s = false ->
  Decimal.unorm u = u.
Proof.
  intros Hu Hne Hz. apply NilEmpty.sus in Hu as <-.
  destruct u as [|u|u|u|u|u|u|u|u|u|u]; try done.
  destruct u; try done; exfalso; revert Hz; unfold str_len; cbn -[N.of_nat];
    rewrite andb_true_r; intros Hz%N.ltb_ge; lia.
Qed.

Lemma to_uint_not_nil n : N.to_uint n <> Decimal.Nil.
Proof.
  intros E. pose proof (DecimalN.Unsigned.of_to n) as Hn. rewrite E in Hn. cbn in Hn.
  subst n. discriminate E.
Qed.

Lemma to_decimal_uint n : to_decimal n = NilEmpty.string_of_uint (N.to_uint n).
Proof.
  unfold to_decimal, NilZero.string_of_uint. pose proof (to_uint_not_nil n).
  by destruct (N.to_uint n).
Qed.

Lemma to_decimal_digits n : str_all is_ascii_digit (to_decimal n) = true.
Proof. rewrite to_decimal_uint. apply string_of_uint_digits. Qed.

Lemma to_decimal_nonempty n : str_is_empty (to_decimal n) = false.
Proof. rewrite to_decimal_uint. pose proof (to_uint_not_nil n). by destruct (N.to_uint n). Qed.

Lemma digits_strip_plus s : str_all is_ascii_digit s = true -> strip_plus s = s.
Proof.
  destruct s as [|c s]; cbn; [done|]. intros [Hc _]%andb_true_iff.
  unfold is_ascii_digit, in_range, is_char in *. breflect.
  destruct (N.eqb_spec (N_of_ascii c) 43); [lia|done].
Qed.

Lemma parse_digits_to_decimal n : parse_digits (to_decimal n) = Some n.
Proof.
  unfold parse_digits. rewrite to_decimal_nonempty, to_decimal_uint, NilEmpty.usu.
  cbn. by rewrite DecimalN.Unsigned.of_to.
Qed.

(** Printing then parsing an integer of the width gives it back. *)
Lemma parse_uint_to_decimal max n : n <= max -> parse_uint max (to_decimal n) = Some n.
Proof.
  intros Hn. unfold parse_uint.
  rewrite (digits_strip_plus _ (to_decimal_digits n)), parse_digits_to_decimal.
  by apply N.leb_le in Hn as ->.
Qed.

(** A digit string without a superfluous leading zero is the decimal text of
    the integer it denotes. *)
Lemma canonical_digits s :
  str_is_empty s = false ->
  (1 <? str_len s) && starts_with_char 48 s = false ->
  str_all is_ascii_digit s = true ->
  exists n, s = to_decimal n /\ parse_digits s = Some n.
Proof.
  intros Hne Hz Hd. destruct (uint_of_string_digits s Hd) as [u Hu].
  exists (N.of_uint u). split.
  - rewrite to_decimal_uint, DecimalN.Unsigned.to_of, (unorm_canonical s u Hu Hne Hz).
    by rewrite (NilEmpty.sus _ _ Hu).
  - unfold parse_digits. by rewrite Hne, Hu.
Qed.

Lemma to_decimal_no_leading_zero n :
  (1 <? str_len (to_decimal n)) && starts_with_char 48 (to_decimal n) = false.
Proof.
  rewrite to_decimal_uint. pose proof (DecimalN.Unsigned.to_of (N.to_uint n)) as Hn.
  rewrite DecimalN.Unsigned.of_to in Hn.
  destruct (N.to_uint n) as [|u|u|u|u|u|u|u|u|u|u]; cbn -[N.of_nat]; rewrite ?andb_false_r; try done.
  rewrite andb_true_r. cbn [Decimal.unorm] in Hn.
  destruct u as [|u|u|u|u|u|u|u|u|u|u]; [reflexivity| |discriminate Hn..].
  exfalso. clear -Hn. assert (forall d, Decimal.unorm d <> Decimal.D0 (Decimal.D0 u)) as Hno.
  { intros d. induction d; cbn; try discriminate. auto. }
  by apply (Hno u).
Qed.

Lemma to_decimal_inj m n : to_decimal m = to_decimal n -> m = n.
Proof.
  intros E. apply (f_equal parse_digits) in E. rewrite !parse_digits_to_decimal in E. congruence.
Qed.

Lemma tail_length {A} (l : list A) : length (tail l) = pred (length l).
Proof. by destruct l. Qed.

Lemma removelast_snoc {A} (l : list A) x : removelast (l ++ [x]) = l.
Proof. rewrite removelast_app by done. cbn. by rewrite List.app_nil_r. Qed.

Lemma map_injective {A B} (f : A -> B) :
  (forall x y, f x = f y -> x = y) -> forall l k, map f l = map f k -> l = k.
Proof.
  intros Hf l. induction l as [|x l IH]; intros [|y k] E; try discriminate E; [done|].
  injection E as E1 E2. f_equal; auto.
Qed.

(** *** Loops that write maps *)

(** Writing entries with distinct keys, one after the other. *)
Lemma fold_insert_lookup {K V} `{Countable K} (l : list (K * V)) (m : gmap K V) k :
  NoDup l.*1 ->
  fold_left (fun b '(k, v) => <[k := v]> b) l m !! k
  = match (list_to_map l : gmap K V) !! k with Some v => Some v | None => m !! k end.
Proof.
  revert m. induction l as [|[k' v'] l IH]; intros m Hnd; cbn; [by rewrite lookup_empty|].
  apply NoDup_cons in Hnd as [Hk' Hnd]. rewrite IH by done.
  destruct (decide (k' = k)) as [->|Hne].
  - rewrite lookup_insert_eq, lookup_insert_eq.
    rewrite (proj1 (not_elem_of_list_to_map l k)) by done. done.
  - by rewrite !lookup_insert_ne by done.
Qed.

Lemma btree_list_to_map {K V} `{Countable K} `{!RustOrd K} (m : gmap K V) :
  (list_to_map (btree_iter m) : gmap K V) = m.
Proof.
  transitivity (list_to_map (map_to_list m) : gmap K V); [|apply list_to_map_to_list].
  apply list_to_map_proper; [apply btree_iter_nodup_keys|apply btree_iter_perm].
Qed.

(** Writing all entries of one map over another is a left-biased union. *)
Lemma fold_btree_insert {K V} `{Countable K} `{!RustOrd K} (b m : gmap K V) :
  fold_left (fun b '(k, v) => <[k := v]> b) (btree_iter b) m = b ∪ m.
Proof.
  apply map_eq. intros k. rewrite fold_insert_lookup by apply btree_iter_nodup_keys.
  rewrite btree_list_to_map, lookup_union. by destruct (b !! k), (m !! k).
Qed.

Lemma btree_iter_inj {K V} `{Countable K} `{!RustOrd K} (m1 m2 : gmap K V) :
  btree_iter m1 = btree_iter m2 -> m1 = m2.
Proof. intros E. by rewrite <- (btree_list_to_map m1), E, btree_list_to_map. Qed.

(** A checked running sum succeeds exactly when the total fits. *)
Lemma fold_add_acc (l : list N) a : fold_right N.add a l = fold_right N.add 0 l + a.
Proof. induction l as [|x l IH]; cbn; [done|]. rewrite IH. lia. Qed.

Lemma map_sum_to_list {K} `{Countable K} (m : gmap K N) :
  map_sum m = fold_right N.add 0 (map_to_list m).*2.
Proof.
  unfold map_sum. rewrite map_fold_foldr. induction (map_to_list m) as [|[k v] l IH]; cbn; [done|].
  by rewrite IH.
Qed.

Lemma fold_add_perm (l k : list N) : l ≡ₚ k -> fold_right N.add 0 l = fold_right N.add 0 k.
Proof. induction 1; cbn; lia. Qed.

Lemma map_sum_btree {K} `{Countable K} `{!RustOrd K} (m : gmap K N) :
  map_sum m = fold_right N.add 0 (btree_iter m).*2.
Proof. rewrite map_sum_to_list. apply fold_add_perm. by rewrite btree_iter_perm. Qed.

(** ** Concatenated strings *)

Lemma str_app_length s t : String.length (s +:+ t) = (String.length s + String.length t)%nat.
Proof. induction s as [|a s IH]; [done|exact (f_equal S IH)]. Qed.

Lemma str_app_inj_r s t u : s +:+ u = t +:+ u -> s = t.
Proof.
  revert t. induction s as [|x s IH]; intros [|y t] E; [done| | |injection E as -> E; f_equal; by apply IH].
  all: apply (f_equal String.length) in E; rewrite !str_app_length in E; cbn in E; lia.
Qed.

(** ** Filtered lists *)

Lemma filter_length_le {A} (P Q : A -> Prop) `{!forall x, Decision (P x), !forall x, Decision (Q x)} l :
  (forall x, x ∈ l -> P x -> Q x) -> (length (filter P l) <= length (filter Q l))%nat.
Proof.
  induction l as [|x l IH]; intros Hpq; [done|]. rewrite !filter_cons.
  assert (length (filter P l) <= length (filter Q l))%nat by (apply IH; intros y ?; apply Hpq; by right).
  specialize (Hpq x ltac:(by left)). repeat case_decide; cbn; try lia. tauto.
Qed.

Lemma map_filter_nodup {A B} (f : A -> B) (P : A -> Prop) `{!forall x, Decision (P x)} l :
  NoDup (map f l) -> NoDup (map f (filter P l)).
Proof.
  induction l as [|x l IH]; intros Hn; [done|]. apply NoDup_cons in Hn as [Hx Hn].
  rewrite filter_cons. case_decide; [|by apply IH]. apply NoDup_cons. split; [|by apply IH].
  intros (y & Hy & [_ Hin]%list_elem_of_filter)%(list_elem_of_fmap f). apply Hx, (list_elem_of_fmap f). by exists y.
Qed.

(** ** Sorting by a key *)

#[export] Instance Z_ord : RustOrd Z := Z.compare.

#[export] Instance Z_ord_laws : RustOrdLaws Z.
Proof.
  split; unfold rcmp, Z_ord.
  - apply Z.compare_eq_iff.
  - intros a b. apply Z.compare_antisym.
  - intros a b c. rewrite !Z.compare_lt_iff. lia.
Qed.

#[export] Instance prod_ord {A B} `{RustOrd A, RustOrd B} : RustOrd (A * B) :=
  fun x y => cmp_then (rcmp x.1 y.1) (rcmp x.2 y.2).

#[export] Instance prod_ord_laws {A B} `{RustOrdLaws A, RustOrdLaws B} : RustOrdLaws (A * B).
Proof.
  split; unfold rcmp at 1, prod_ord; cbn [rcmp].
  - intros [a b] [a' b']. cbn. unfold cmp_then. destruct (rcmp a a') eqn:E; [|split; [done|]..].
    + apply rcmp_eq_iff in E as ->. rewrite rcmp_eq_iff. split; [by intros ->|by intros [= ->]].
    + intros [= -> ->]. by rewrite rcmp_refl in E.
    + intros [= -> ->]. by rewrite rcmp_refl in E.
  - intros [a b] [a' b']. change (cmp_then (rcmp a' a) (rcmp b' b) = CompOpp (cmp_then (rcmp a a') (rcmp b b'))).
    by rewrite (rcmp_flip a a'), (rcmp_flip b b'), cmp_then_flip.
  - intros [a b] [a' b'] [a'' b'']. change (rcmp (a', b') (a'', b'')) with (cmp_then (rcmp a' a'') (rcmp b' b'')).
    change (rcmp (a, b) (a'', b'')) with (cmp_then (rcmp a a'') (rcmp b b'')). cbn. unfold cmp_then.
    destruct (rcmp a a') eqn:E1; [| |done].
    + apply rcmp_eq_iff in E1 as ->. destruct (rcmp a' a''); [apply rcmp_lt_trans|done|done].
    + intros _. destruct (rcmp a' a'') eqn:E2; [|intros _|done].
      * apply rcmp_eq_iff in E2 as <-. by rewrite E1.
      * by rewrite (rcmp_lt_trans _ _ _ E1 E2).
Qed.

Section SortByKey.
Context {A K : Type} `{RustOrdLaws K} (key : A -> K).

Definition key_compare (a b : A) : comparison := rcmp (key a) (key b).
Definition key_le (a b : A) : Prop := rle (key a) (key b) = true.

Lemma key_le_cmp a b : cmp_le key_compare a b <-> key_le a b.
Proof. unfold cmp_le, key_le, rle, key_compare. by destruct (rcmp _ _). Qed.

Lemma sort_by_key_sorted (l : list A) : StronglySorted key_le (sort_by key_compare l).
Proof.
  assert (Hs : StronglySorted (cmp_le key_compare) (sort_by key_compare l)).
  { apply sort_by_sorted.
    - intros a b. rewrite !key_le_cmp. apply rle_total.
    - intros a b c. rewrite !key_le_cmp. apply rle_trans. }
  induction Hs as [|x k Hs IH Hall]; constructor; [done|].
  eapply Forall_impl; [done|]. intros y. by rewrite key_le_cmp.
Qed.

Lemma nodup_key_inj (l : list A) a b : NoDup (map key l) -> a ∈ l -> b ∈ l -> key a = key b -> a = b.
Proof.
  induction l as [|x l IH]; intros Hn Ha Hb E; [by apply elem_of_nil in Ha|].
  apply NoDup_cons in Hn as [Hx Hn].
  assert (Hno : forall y, y ∈ l -> key x <> key y) by
    (intros y Hy Hxy; apply Hx; rewrite Hxy; by apply (list_elem_of_fmap_2 key)).
  apply elem_of_cons in Ha as [->|Ha], Hb as [->|Hb]; [done| | |by apply IH].
  - by destruct (Hno b Hb).
  - by destruct (Hno a Ha).
Qed.

(** Sorting by a key that separates the elements forgets their order. *)
Lemma sort_by_key_perm (l k : list A) : NoDup (map key l) -> l ≡ₚ k ->
  sort_by key_compare l = sort_by key_compare k.
Proof.
  intros Hn Hp. apply (sorted_perm_unique key_le); [| | |by rewrite !sort_by_perm].
  - intros a b Ha Hb Hab Hba. rewrite sort_by_elem_of in Ha, Hb.
    apply (nodup_key_inj l); [done|done|done|]. by apply rle_antisym.
  - apply sort_by_key_sorted.
  - apply sort_by_key_sorted.
Qed.

End SortByKey.

Lemma sort_by_ext {A} (f g : A -> A -> comparison) l : (forall a b, f a b = g a b) -> sort_by f l = sort_by g l.
Proof.
  intros E. assert (Hi : forall x k, sort_insert f x k = sort_insert g x k).
  { intros x k. induction k as [|y k IH]; cbn; [done|]. rewrite E. by destruct (g x y); rewrite ?IH. }
  induction l as [|x l IH]; cbn; [done|]. by rewrite IH, Hi.
Qed.

(** ** Sublists, filters and permutations *)

Lemma sorted_take_top {A} (R : A -> A -> Prop) (l : list A) k s : StronglySorted R l -> s ∈ l -> s ∉ take k l ->
  length (take k l) = k /\ Forall (fun x => R x s) (take k l).
Proof.
  intros Hs. revert k. induction Hs as [|x l Hs IH Hx]; intros k Hin Hout; [by apply elem_of_nil in Hin|].
  destruct k as [|k]; cbn [take] in *; [split; [done|constructor]|].
  apply not_elem_of_cons in Hout as [Hne Hout]. apply elem_of_cons in Hin as [->|Hin]; [done|].
  destruct (IH k Hin Hout) as [H1 H2]. cbn [length]. split; [congruence|]. constructor; [|done].
  exact (proj1 (Forall_forall _ _) Hx s Hin).
Qed.

Lemma sorted_sublist {A} (R : A -> A -> Prop) (l k : list A) : l `sublist_of` k -> StronglySorted R k -> StronglySorted R l.
Proof.
  induction 1 as [|x l k Hl IH|x l k Hl IH]; intros Hs; [constructor|..]; apply StronglySorted_inv in Hs as [Hs Hx].
  - constructor; [by apply IH|]. apply Forall_forall. intros y Hy. apply (proj1 (Forall_forall _ _) Hx).
    eapply elem_of_submseteq; [exact Hy|by apply sublist_submseteq].
  - by apply IH.
Qed.

Lemma sublist_map {A B} (f : A -> B) (l k : list A) : l `sublist_of` k -> map f l `sublist_of` map f k.
Proof. induction 1; cbn; by constructor. Qed.

Lemma filter_sublist {A} (p : A -> bool) (l : list A) : List.filter p l `sublist_of` l.
Proof. induction l as [|x l IH]; cbn; [constructor|]. destruct (p x); by constructor. Qed.

Lemma filter_map_comm {A B} (f : A -> B) (p : B -> bool) (l : list A) :
  List.filter p (map f l) = map f (List.filter (fun x => p (f x)) l).
Proof. induction l as [|x l IH]; cbn; [done|]. rewrite IH. by destruct (p (f x)). Qed.

Lemma filter_perm {A} (p : A -> bool) (l k : list A) : l ≡ₚ k -> List.filter p l ≡ₚ List.filter p k.
Proof.
  induction 1 as [|x l k _ IH|x y l|l k m _ IH1 _ IH2]; cbn; [done| | |by etransitivity].
  - destruct (p x); by rewrite IH.
  - destruct (p x), (p y); try done. apply Permutation_swap.
Qed.

Lemma existsb_perm {A} (p : A -> bool) (l k : list A) : l ≡ₚ k -> existsb p l = existsb p k.
Proof.
  induction 1 as [|x l k _ IH|x y l|l k m _ IH1 _ IH2]; cbn; [done|by rewrite IH| |congruence].
  by destruct (p x), (p y).
Qed.

Lemma list_filter_elem {A} (p : A -> bool) (l : list A) x : x ∈ List.filter p l <-> x ∈ l /\ p x = true.
Proof. by rewrite !list_elem_of_In, filter_In. Qed.

Lemma filter_true_id {A} (l : list A) : List.filter (fun _ => true) l = l.
Proof. induction l as [|x l IH]; cbn; [done|]. by rewrite IH. Qed.

Lemma filter_filter_andb {A} (p q : A -> bool) (l : list A) :
  List.filter p (List.filter q l) = List.filter (fun x => q x && p x) l.
Proof. induction l as [|x l IH]; cbn; [done|]. destruct (q x); cbn; [destruct (p x)|]; by rewrite IH. Qed.

Lemma filter_none {A} (p : A -> bool) (l : list A) : (forall x, x ∈ l -> p x = false) -> List.filter p l = [].
Proof.
  induction l as [|x l IH]; intros H; [done|]. cbn. rewrite (H x) by (by left). apply IH. intros y Hy. apply H. by right.
Qed.

Lemma fold_perm_len {A} (l k : list (list A)) : l ≡ₚ k ->
  fold_right (fun x n => len x + n) 0 l = fold_right (fun x n => len x + n) 0 k.
Proof. induction 1; cbn [fold_right]; lia. Qed.

(** ** Errors a run can return *)

Definition errs {E A} (P : E -> Prop) (m : outcome E A) : Prop := forall e, m = Err e -> P e.

Lemma errs_ok_or {E A} (P : E -> Prop) (o : option A) e : P e -> errs P (ok_or o e).
Proof. intros He e'. by destruct o; intros [= <-]. Qed.

Lemma errs_ensure {E} (P : E -> Prop) b e : P e -> errs P (ensure b e).
Proof. intros He e'. by destruct b; intros [= <-]. Qed.

Lemma errs_bind {E A B} (P : E -> Prop) (m : outcome E A) (f : A -> outcome E B) :
  errs P m -> (forall a, errs P (f a)) -> errs P (obind m f).
Proof. intros Hm Hf e. destruct m; cbn [obind]; [apply Hf|intros [= <-]; by apply Hm|done]. Qed.

Lemma errs_Ok {E A} (P : E -> Prop) (a : A) : errs P (Ok a).
Proof. by intros e. Qed.

(** Split a run into its actions and close the guards. *)
Ltac errs_tac :=
  repeat first
    [ progress intros
    | apply errs_Ok
    | apply errs_ok_or; exact I
    | apply errs_ensure; exact I
    | apply errs_bind ].
