(* ===== verification/Hoare.v ===== *)
(** * Triples for the state-error monad

    [triple P m Q]: from a state that satisfies [P], the run of [m] ends in a
    result and a state that satisfy [Q], whatever the result is. [keeps P m] is
    the special case of an invariant. *)

From S2P Require Import Prelude.

Definition triple {S E A} (P : S -> Prop) (m : stm S E A) (Q : outcome E A -> S -> Prop) : Prop :=
  forall s, P s -> Q (m s).2 (m s).1.

Definition keeps {S E A} (P : S -> Prop) (m : stm S E A) : Prop := triple P m (fun _ => P).

Create HintDb keeps.

Section Triples.
Context {S E A B : Type}.

Lemma triple_run (P : S -> Prop) (m : stm S E A) Q s s' r : triple P m Q -> P s -> m s = (s', r) -> Q r s'.
Proof. intros H Hp Hm. specialize (H s Hp). by rewrite Hm in H. Qed.

Lemma triple_conseq (P P' : S -> Prop) (m : stm S E A) (Q Q' : outcome E A -> S -> Prop) :
  triple P' m Q' -> (forall s, P s -> P' s) -> (forall r s, Q' r s -> Q r s) -> triple P m Q.
Proof. intros H Hp Hq s Hs. apply Hq, H, Hp, Hs. Qed.

Lemma triple_bind (P : S -> Prop) (m : stm S E A) (f : A -> stm S E B) R Q :
  triple P m R -> (forall a, triple (R (Ok a)) (f a) Q) ->
  (forall s e, R (Err e) s -> Q (Err e) s) -> (forall s, R Panic s -> Q Panic s) -> triple P (sbind m f) Q.
Proof.
  intros Hm Hf He Hp s Hs. specialize (Hm s Hs). unfold sbind. destruct (m s) as [s1 [a|e|]]; cbn in *.
  - by apply Hf.
  - by apply He.
  - by apply Hp.
Qed.

Lemma sbind_Ok (m : stm S E A) (f : A -> stm S E B) s s' b : sbind m f s = (s', Ok b) ->
  exists s1 a, m s = (s1, Ok a) /\ f a s1 = (s', Ok b).
Proof. unfold sbind. destruct (m s) as [s1 [a|e|]]; [by exists s1, a|done|done]. Qed.

(** Reading the state. *)
Lemma triple_get (P : S -> Prop) (f : S -> stm S E B) Q :
  (forall s0, triple (fun s => P s /\ s = s0) (f s0) Q) -> triple P (sbind sget f) Q.
Proof. intros H s Hs. by apply (H s s). Qed.

Lemma keeps_ret (P : S -> Prop) (a : A) : keeps (E:=E) P (sret a).
Proof. by intros s. Qed.

Lemma keeps_lift (P : S -> Prop) (o : outcome E A) : keeps P (slift o).
Proof. by intros s. Qed.

Lemma keeps_get (P : S -> Prop) : keeps (E:=E) P sget.
Proof. by intros s. Qed.

Lemma keeps_modify (P : S -> Prop) (f : S -> S) : (forall s, P s -> P (f s)) -> keeps (E:=E) P (smodify f).
Proof. intros H s Hs. by apply H. Qed.

Lemma keeps_bind (P : S -> Prop) (m : stm S E A) (f : A -> stm S E B) :
  keeps P m -> (forall a, keeps P (f a)) -> keeps P (sbind m f).
Proof. intros Hm Hf. by apply (triple_bind P m f (fun _ => P)). Qed.

Lemma keeps_for (P : S -> Prop) (f : A -> stm S E unit) l : (forall a, keeps P (f a)) -> keeps P (sfor f l).
Proof.
  intros Hf. induction l as [|a l IH]; [by intros s|]. cbn [sfor]. intros s Hs. unfold sbind. specialize (Hf a s Hs).
  destruct (f a s) as [s1 [[]| |]]; cbn in *; [by apply IH|done|done].
Qed.

End Triples.

#[export] Hint Resolve keeps_ret keeps_lift keeps_get : keeps.

(** An invariant through a run: binds and case distinctions are split, the
    actions are found in the database. *)
Ltac keeps_step :=
  first
    [ match goal with |- keeps _ (sbind _ _) => apply keeps_bind; [|intros ?] end
    | apply keeps_for; intros ?
    | solve [eauto with keeps]
    | match goal with |- keeps _ (match ?x with _ => _ end) => destruct x end
    | match goal with |- keeps _ (let '_ := ?x in _) => destruct x end
    | apply keeps_bind; [|intros ?] ].
Ltac keeps_tac := repeat keeps_step.
