(* ===== verification/Json.v ===== *)
(** * JSON values and their canonical key order

    [serde_json::Value] as the code uses it, its accessors, and [sort_keys] of
    crates/boole-core/src/canonical_json.rs. An object is the list of its
    entries in iteration order; the keys of a map are distinct ([json_wf]).
    The theorems show that sorting keys is a canonical form: documents that
    differ in key order alone get the same form, and only those. *)

From S2P Require Import Prelude.

(** [serde_json::Number]: an unsigned 64-bit, a negative 64-bit or a float
    (held by its bits). *)
Inductive Number :=
| PosInt (n : N)
| NegInt (z : Z)
| Float (bits : N).

Inductive Value :=
| VNull
| VBool (b : bool)
| VNumber (n : Number)
| VString (s : string)
| VArray (l : list Value)
| VObject (m : list (string * Value)).

(** [Map::get]. *)
Fixpoint assoc {A} (key : string) (m : list (string * A)) : option A :=
  match m with
  | [] => None
  | (k, v) :: m' => if String.eqb k key then Some v else assoc key m'
  end.

(** [Value::get] with a string index. *)
Definition value_get (v : Value) (key : string) : option Value :=
  match v with VObject m => assoc key m | _ => None end.

Definition as_str (v : Value) : option string :=
  match v with VString s => Some s | _ => None end.

Definition is_object (v : Value) : bool :=
  match v with VObject _ => true | _ => false end.

Definition as_u64 (v : Value) : option N :=
  match v with VNumber (PosInt n) => Some n | _ => None end.

(** [Value::as_i64]: a [PosInt] above [i64::MAX] is not one. *)
Definition as_i64 (v : Value) : option Z :=
  match v with
  | VNumber (PosInt n) => if n <=? 2 ^ 63 - 1 then Some (Z.of_N n) else None
  | VNumber (NegInt z) => Some z
  | _ => None
  end.

Definition is_boolean (v : Value) : bool :=
  match v with VBool _ => true | _ => false end.

Definition key_cmp {A} (x y : string * A) : comparison := rcmp x.1 y.1.

(** [Map::insert]: the map is ordered by key. *)
Fixpoint map_insert (key : string) (value : Value) (m : list (string * Value)) : list (string * Value) :=
  match m with
  | [] => [(key, value)]
  | (k, v) :: m' =>
      if String.eqb k key then (key, value) :: m'
      else match rcmp key k with
           | Lt => (key, value) :: m
           | _ => (k, v) :: map_insert key value m'
           end
  end.

(** [map.entry(key).or_insert(value)]. *)
Definition or_insert (m : list (string * Value)) (entry : string * Value) : list (string * Value) :=
  match assoc entry.1 m with Some _ => m | None => map_insert entry.1 entry.2 m end.

(** [sort_keys] of canonical_json.rs. *)
Fixpoint sort_keys (value : Value) : Value :=
  match value with
  | VObject m =>
      VObject (sort_by key_cmp (map (fun '(k, v) => (k, sort_keys v)) m))
  | VArray items => VArray (map sort_keys items)
  | other => other
  end.

#[export] Instance number_eq_decision : EqDecision Number.
Proof. solve_decision. Defined.

#[export] Instance value_eq_decision : EqDecision Value.
Proof.
  refine (fix go v w := let _ : EqDecision Value := @go in
    match v, w with
    | VNull, VNull => left eq_refl
    | VBool b, VBool c => cast_if (decide (b = c))
    | VNumber m, VNumber n => cast_if (decide (m = n))
    | VString s, VString t => cast_if (decide (s = t))
    | VArray l, VArray k => cast_if (decide (l = k))
    | VObject l, VObject k => cast_if (decide (l = k))
    | _, _ => right _
    end); congruence.
Defined.

(** [PartialEq] of [Value]. *)
Fixpoint value_eqb (v w : Value) : bool :=
  match v, w with
  | VNull, VNull => true
  | VBool a, VBool b => Bool.eqb a b
  | VNumber a, VNumber b => bool_decide (a = b)
  | VString a, VString b => String.eqb a b
  | VArray l, VArray k =>
      (fix go l k := match l, k with
         | [], [] => true
         | x :: l', y :: k' => value_eqb x y && go l' k'
         | _, _ => false
         end) l k
  | VObject m, VObject k =>
      (fix go m k := match m, k with
         | [], [] => true
         | (a, x) :: m', (b, y) :: k' => String.eqb a b && value_eqb x y && go m' k'
         | _, _ => false
         end) m k
  | _, _ => false
  end.

(** The keys of every object are distinct. *)
Inductive json_wf : Value -> Prop :=
| wf_null : json_wf VNull
| wf_bool b : json_wf (VBool b)
| wf_number n : json_wf (VNumber n)
| wf_string s : json_wf (VString s)
| wf_array l : Forall json_wf l -> json_wf (VArray l)
| wf_object m : NoDup m.*1 -> Forall (fun e => json_wf e.2) m -> json_wf (VObject m).

(** Documents without floating-point numbers, whose printed text determines
    them; a [NegInt] is negative. *)
Inductive json_plain : Value -> Prop :=
| plain_null : json_plain VNull
| plain_bool b : json_plain (VBool b)
| plain_pos n : json_plain (VNumber (PosInt n))
| plain_neg z : (z < 0)%Z -> json_plain (VNumber (NegInt z))
| plain_string s : json_plain (VString s)
| plain_array l : Forall json_plain l -> json_plain (VArray l)
| plain_object m : Forall (fun e => json_plain e.2) m -> json_plain (VObject m).

(** The same document up to the order of object entries. *)
Inductive json_equiv : Value -> Value -> Prop :=
| eqv_null : json_equiv VNull VNull
| eqv_bool b : json_equiv (VBool b) (VBool b)
| eqv_number n : json_equiv (VNumber n) (VNumber n)
| eqv_string s : json_equiv (VString s) (VString s)
| eqv_array l k : Forall2 json_equiv l k -> json_equiv (VArray l) (VArray k)
| eqv_object m m' k :
    Forall2 (fun x y => x.1 = y.1 /\ json_equiv x.2 y.2) m m' -> m' ≡ₚ k ->
    json_equiv (VObject m) (VObject k).

(** ** Lemmas *)

(** Induction over values, through arrays and objects. *)
Section ValueInd.
Context (P : Value -> Prop).
Context (Hnull : P VNull) (Hbool : forall b, P (VBool b)) (Hnum : forall n, P (VNumber n)).
Context (Hstr : forall s, P (VString s)).
Context (Harr : forall l, Forall P l -> P (VArray l)).
Context (Hobj : forall m, Forall (fun e => P e.2) m -> P (VObject m)).

Fixpoint value_nested_ind (v : Value) : P v :=
  match v with
  | VNull => Hnull
  | VBool b => Hbool b
  | VNumber n => Hnum n
  | VString s => Hstr s
  | VArray l =>
      Harr l ((fix go l := match l return Forall P l with
                | [] => Forall_nil_2 P
                | x :: l' => Forall_cons_2 P x l' (value_nested_ind x) (go l')
                end) l)
  | VObject m =>
      Hobj m ((fix go m := match m return Forall (fun e => P e.2) m with
                | [] => Forall_nil_2 _
                | x :: m' => Forall_cons_2 (fun e => P e.2) x m' (value_nested_ind x.2) (go m')
                end) m)
  end.
End ValueInd.

Definition sort_entry (e : string * Value) : string * Value := (e.1, sort_keys e.2).

Lemma sort_keys_object m :
  sort_keys (VObject m) = VObject (sort_by key_cmp (map sort_entry m)).
Proof. cbn. do 2 f_equal. apply map_ext. by intros []. Qed.

Lemma key_le_total {A} (x y : string * A) : cmp_le key_cmp x y \/ cmp_le key_cmp y x.
Proof.
  unfold cmp_le, key_cmp. destruct (rle_total x.1 y.1) as [E|E]; revert E; unfold rle;
    destruct (rcmp x.1 y.1) eqn:E1, (rcmp y.1 x.1) eqn:E2; auto.
Qed.

Lemma key_le_trans {A} (x y z : string * A) :
  cmp_le key_cmp x y -> cmp_le key_cmp y z -> cmp_le key_cmp x z.
Proof.
  unfold cmp_le, key_cmp. intros H1 H2.
  assert (rle x.1 z.1 = true) as H3.
  { apply (rle_trans _ y.1); unfold rle; [by destruct (rcmp x.1 y.1)|by destruct (rcmp y.1 z.1)]. }
  unfold rle in H3. by destruct (rcmp x.1 z.1).
Qed.

Lemma key_sorted {A} (l : list (string * A)) : StronglySorted (cmp_le key_cmp) (sort_by key_cmp l).
Proof. apply sort_by_sorted; [apply key_le_total|apply key_le_trans]. Qed.

(** With distinct keys the sorted arrangement depends on the set of entries
    alone. *)
Lemma key_sort_perm {A} (l k : list (string * A)) :
  NoDup l.*1 -> l ≡ₚ k -> sort_by key_cmp l = sort_by key_cmp k.
Proof.
  intros Hnd Hp. apply (sorted_perm_unique (cmp_le key_cmp)); [|apply key_sorted..|].
  - intros a b Ha Hb Hab Hba. rewrite sort_by_elem_of in Ha, Hb.
    assert (a.1 = b.1) as Hk.
    { apply rle_antisym; unfold rle; [by destruct (rcmp a.1 b.1) eqn:E|by destruct (rcmp b.1 a.1) eqn:E]. }
    apply list_elem_of_lookup in Ha as [i Hi]. apply list_elem_of_lookup in Hb as [j Hj].
    assert (i = j) as ->; [|congruence].
    apply (NoDup_lookup l.*1 i j a.1); [done|by rewrite list_lookup_fmap, Hi|].
    rewrite list_lookup_fmap, Hj. cbn. congruence.
  - by rewrite !sort_by_perm.
Qed.

Lemma sort_entry_keys m : (map sort_entry m).*1 = m.*1.
Proof. induction m as [|e m IH]; cbn; [done|]. by f_equal. Qed.

Lemma value_eqb_eq v : forall w, value_eqb v w = true <-> v = w.
Proof.
  induction v as [|b|n|s|l IH|m IH] using value_nested_ind; intros w;
    destruct w as [|b'|n'|s'|k|k]; cbn [value_eqb]; try (split; [discriminate|congruence]).
  - done.
  - rewrite Bool.eqb_true_iff. split; congruence.
  - rewrite bool_decide_eq_true. split; congruence.
  - rewrite String.eqb_eq. split; congruence.
  - revert k. induction IH as [|x l Hx _ IHl]; intros [|y k]; try (split; [discriminate|congruence]); [done|].
    rewrite andb_true_iff, Hx, IHl. split; [intros [-> [= ->]]; done|intros [= -> ->]; done].
  - revert k. induction IH as [|[a x] m Hx _ IHm]; intros [|[b y] k]; try (split; [discriminate|congruence]); [done|].
    cbn in Hx. rewrite !andb_true_iff, String.eqb_eq, Hx, IHm.
    split; [intros [[-> ->] [= ->]]; done|intros [= -> -> ->]; done].
Qed.

Lemma sort_keys_wf v : json_wf v -> json_wf (sort_keys v).
Proof.
  induction v as [| | | |l IH|m IH] using value_nested_ind; intros Hwf; try done.
  - inversion Hwf as [| | | |? Hl|]; subst. cbn. constructor.
    rewrite Forall_forall in *. intros x [y [-> Hy]]%list_elem_of_fmap. auto.
  - inversion Hwf as [| | | | |? Hnd Hm]; subst. rewrite sort_keys_object. constructor.
    + rewrite sort_by_perm, sort_entry_keys. done.
    + rewrite sort_by_perm. rewrite Forall_forall in *.
      intros x [y [-> Hy]]%list_elem_of_fmap. cbn. auto.
Qed.

Lemma sort_keys_plain v : json_plain v -> json_plain (sort_keys v).
Proof.
  induction v as [| | | |l IH|m IH] using value_nested_ind; intros Hp; try done.
  - inversion Hp as [| | | | |? Hl|]; subst. cbn. constructor.
    rewrite Forall_forall in *. intros x [y [-> Hy]]%list_elem_of_fmap. auto.
  - inversion Hp as [| | | | | |? Hm]; subst. rewrite sort_keys_object. constructor.
    rewrite sort_by_perm. rewrite Forall_forall in *.
    intros x [y [-> Hy]]%list_elem_of_fmap. cbn. auto.
Qed.

(** Sorting the keys of a sorted document changes nothing. *)
Lemma sort_keys_idem v : json_wf v -> sort_keys (sort_keys v) = sort_keys v.
Proof.
  induction v as [| | | |l IH|m IH] using value_nested_ind; intros Hwf; try done.
  - inversion Hwf as [| | | |? Hl|]; subst. cbn. f_equal.
    induction l as [|x l IHl]; cbn; [done|].
    apply Forall_cons in IH as [Hx IH]. apply Forall_cons in Hl as [Hwx Hl].
    f_equal; [auto|]. apply IHl; [done|by constructor|done].
  - inversion Hwf as [| | | | |? Hnd Hm]; subst. rewrite sort_keys_object, sort_keys_object. f_equal.
    assert (map sort_entry (sort_by key_cmp (map sort_entry m)) = sort_by key_cmp (map sort_entry m)) as ->.
    { rewrite <- (map_id (sort_by key_cmp (map sort_entry m))) at 2. apply map_ext_in.
      intros e He. apply list_elem_of_In in He. rewrite sort_by_elem_of in He.
      apply list_elem_of_fmap in He as [e' [-> He']]. unfold sort_entry; cbn. f_equal.
      rewrite Forall_forall in IH, Hm. auto. }
    apply sort_by_id. apply key_sorted.
Qed.

Lemma sort_keys_same_equiv v : forall w, sort_keys v = sort_keys w -> json_equiv v w.
Proof.
  induction v as [| | | |l IH|m IH] using value_nested_ind; intros w E;
    destruct w as [| | | |k|k]; try discriminate E; cbn in E; simplify_eq; try by constructor.
  - constructor. revert k E. induction IH as [|x l Hx _ IHl]; intros [|y k] E; try discriminate E;
      cbn in E; [constructor|]. injection E as E1 E2. constructor; auto.
  - assert (Hp : map sort_entry m ≡ₚ map sort_entry k).
    { assert (sort_keys (VObject m) = sort_keys (VObject k)) as E' by (cbn; by f_equal).
      rewrite !sort_keys_object in E'. injection E' as E'.
      rewrite <- (sort_by_perm key_cmp (map sort_entry m)), E', sort_by_perm. done. }
    clear E. apply Permutation_map_inv in Hp as (k3 & Emk & Hk).
    apply (eqv_object m k3 k); [|by symmetry]. clear Hk.
    revert k3 Emk. induction IH as [|x m Hx _ IHm]; intros [|y k3] E; try discriminate E; [constructor|].
    injection E as E1 E2 E3. constructor; [|auto]. split; [done|auto].
Qed.

Lemma json_equiv_same_sort v : forall w, json_wf v -> json_equiv v w -> sort_keys v = sort_keys w.
Proof.
  induction v as [| | | |l IH|m IH] using value_nested_ind; intros w Hwf Hv;
    inversion Hv as [| | | |? k Hk|? m' k Hm Hp]; subst; try done.
  - inversion Hwf as [| | | |? Hl|]; subst. cbn. f_equal. clear Hwf Hv.
    induction Hk as [|x y l k Hxy _ IHk]; [done|].
    apply Forall_cons in IH as [Hx IH], Hl as [Hwx Hl]. cbn. f_equal; auto.
  - inversion Hwf as [| | | | |? Hnd Hws]; subst. rewrite !sort_keys_object. f_equal.
    assert (map sort_entry m = map sort_entry m') as Em.
    { clear Hwf Hv Hnd Hp. induction Hm as [|x y m m' [Hk1 Hk2] _ IHm]; [done|].
      apply Forall_cons in IH as [Hx IH], Hws as [Hwx Hws]. cbn.
      f_equal; [|auto]. unfold sort_entry. rewrite Hk1. f_equal. auto. }
    apply key_sort_perm; [by rewrite sort_entry_keys|]. rewrite Em. by apply Permutation_map.
Qed.
