(* ===== verification/Externals.v ===== *)
(** * Third-party crates

    The crates the protocol core calls and the repository does not hold: [hex],
    [blake3], [sha2], [ed25519_dalek], [num_bigint]'s text conversions and
    [serde_json]'s printer. They are the fields of the class [Externals], an
    argument of every definition that uses them; [ExternalsLaws] states the
    documented behaviour that some theorems rely on. [BigUint] arithmetic
    itself is arithmetic on [N]. *)

From S2P Require Import Prelude Json.
From Stdlib Require Import HexadecimalString HexadecimalN.

Class Externals := {
  (** [hex::encode], [hex::decode]. *)
  hex_encode : list byte -> string;
  hex_decode : string -> option (list byte);
  (** [blake3::hash] of the concatenation of the [update]s; SHA-256. *)
  blake3 : list byte -> list byte;
  sha256 : list byte -> list byte;
  (** [VerifyingKey::from_bytes(..).is_ok()], [Verifier::verify],
      [VerifyingKey::verify_strict]: key, message, signature. *)
  verifying_key_ok : list byte -> bool;
  ed25519_verify : list byte -> list byte -> list byte -> bool;
  ed25519_verify_strict : list byte -> list byte -> list byte -> bool;
  (** [SigningKey::from_bytes(seed)]: its verifying key's bytes and its
      signature of a message. *)
  signing_public : list byte -> list byte;
  ed25519_sign : list byte -> list byte -> list byte;
  (** [str::parse::<BigUint>], [BigUint::parse_bytes(_, 16)]. *)
  biguint_from_str : string -> option N;
  biguint_parse_hex : string -> option N;
  (** [serde_json::to_vec] of a [Value]. *)
  serde_to_vec : Value -> list byte;
  (** [serde_json::Number::to_string]. *)
  number_to_string : Number -> string
}.

(** [{:x}] and [{:064x}] of an unsigned integer. *)
Definition lower_hex (n : N) : string := NilZero.string_of_uint (N.to_hex_uint n).

Fixpoint repeat_char (c : ascii) (n : nat) : string :=
  match n with O => EmptyString | S n' => String c (repeat_char c n') end.

Definition pad_zeros (width : nat) (s : string) : string :=
  repeat_char "0" (width - String.length s) +:+ s.

Definition hex064 (n : N) : string := pad_zeros 64 (lower_hex n).

Class ExternalsLaws (X : Externals) : Prop := {
  hex_decode_encode : forall b, hex_decode (hex_encode b) = Some b;
  hex_encode_lower : forall b, str_all is_lower_hex (hex_encode b) = true;
  hex_encode_length : forall b, String.length (hex_encode b) = (2 * length b)%nat;
  hex_decode_lower : forall s n,
    str_all is_lower_hex s = true -> String.length s = (2 * n)%nat ->
    exists b, hex_decode s = Some b /\ length b = n /\ hex_encode b = s;
  blake3_length : forall b, length (blake3 b) = 32%nat;
  sha256_length : forall b, length (sha256 b) = 32%nat;
  signing_public_ok : forall seed,
    length (signing_public seed) = 32%nat /\ verifying_key_ok (signing_public seed) = true;
  ed25519_sign_length : forall seed m, length (ed25519_sign seed m) = 64%nat;
  ed25519_sign_verify : forall seed m,
    ed25519_verify (signing_public seed) m (ed25519_sign seed m) = true /\
    ed25519_verify_strict (signing_public seed) m (ed25519_sign seed m) = true;
  biguint_from_str_decimal : forall n, biguint_from_str (to_decimal n) = Some n;
  biguint_parse_hex064 : forall n, biguint_parse_hex (hex064 n) = Some n;
  number_to_string_decimal : forall n, number_to_string (PosInt n) = to_decimal n;
  serde_to_vec_inj : forall v w,
    json_plain v -> json_plain w -> serde_to_vec v = serde_to_vec w -> v = w
}.
