(* ===== verification/Hash.v ===== *)
(** * Digests, targets and scores

    crates/boole-core/src/hash.rs and [canonicalize] of canonical_json.rs. A
    digest ([Hex32], [Hex64]) is its bytes; [from_hex] accepts exactly the
    64-character (128-character) lowercase texts. Targets, scores and weights
    are [BigUint]s, here [N]. *)

From S2P Require Import Prelude Json Externals.

Notation Hex32 := (list byte) (only parsing).
Notation Hex64 := (list byte) (only parsing).

Definition DOMAIN_TICKET : list byte := as_bytes "ticket".
Definition DOMAIN_SHARE : list byte := as_bytes "share".
Definition DOMAIN_SUBMIT : list byte := as_bytes "submit".
Definition DOMAIN_TARGET : list byte := as_bytes "target".
Definition TARGET_SEED_J_INDEX_BOUND : N := 256.

Inductive HexError := InvalidShape | DecodeFailed.

Definition be_value (bs : list byte) : N :=
  fold_left (fun acc b => acc * 256 + Byte.to_N b) bs 0.

Definition two_to_256 : N := 2 ^ 256.

(** [u32::to_be_bytes]. *)
Definition byte_of (n : N) : byte :=
  match Byte.of_N (n mod 256) with Some b => b | None => x00 end.
Definition u32_be_bytes (n : N) : list byte :=
  [byte_of (n / 2 ^ 24); byte_of (n / 2 ^ 16); byte_of (n / 2 ^ 8); byte_of n].

(** [T::strip_prefix("0x").or_else(strip_prefix("0X")).unwrap_or(value)]. *)
Definition strip_hex_prefix (value : string) : string :=
  match value with
  | String c0 (String c1 rest) =>
      if is_char 48 c0 && (is_char 120 c1 || is_char 88 c1) then rest else value
  | _ => value
  end.

Section Hash.
Context {X : Externals}.

Definition hex_n_from_hex (n : nat) (value : string) : outcome HexError (list byte) :=
  if negb (Nat.eqb (String.length value) (2 * n)) || negb (str_all is_lower_hex value)
  then Err InvalidShape
  else match hex_decode value with
       | Some out => if Nat.eqb (length out) n then Ok out else Err DecodeFailed
       | None => Err DecodeFailed
       end.

(** [Hex32::from_hex] and [Hex64::from_hex]; [decode_to_slice] fails on a
    text of another length than the array. *)
Definition hex32_from_hex (value : string) : outcome HexError Hex32 := hex_n_from_hex 32 value.
Definition hex64_from_hex (value : string) : outcome HexError Hex64 := hex_n_from_hex 64 value.

Definition to_hex (h : list byte) : string := hex_encode h.

(** The digest test other modules apply as a predicate. *)
Definition is_hex32_text (value : string) : bool := is_ok (hex32_from_hex value).

Definition canonicalize (value : Value) : list byte := serde_to_vec (sort_keys value).

Definition h_protocol (domain : list byte) (parts : list (list byte)) : Hex32 :=
  blake3 (domain ++ concat parts).

Definition digest_to_biguint (d : Hex32) : N := be_value d.

Record TicketResult := mkTicketResult {
  tr_valid : bool;
  tr_hash_bytes : Hex32;
  tr_hash_int : N
}.

Definition ticket (c pk n : Hex32) (t_ticket : N) : TicketResult :=
  let hash_bytes := h_protocol DOMAIN_TICKET [c; pk; n] in
  let hash_int := digest_to_biguint hash_bytes in
  mkTicketResult (hash_int <? t_ticket) hash_bytes hash_int.

Definition target_seed (c pk n : Hex32) (j_index : N) : Hex32 :=
  h_protocol DOMAIN_TARGET [c; pk; n; u32_be_bytes j_index].

(** [(0..bound).find(p)]. *)
Fixpoint find_index (p : N -> bool) (start : N) (count : nat) : option N :=
  match count with
  | O => None
  | S count' => if p start then Some start else find_index p (start + 1) count'
  end.

Definition find_target_seed_j_index (c pk n : Hex32) (seed_hex : string) : option N :=
  match hex32_from_hex seed_hex with
  | Ok claimed =>
      find_index (fun j => bool_decide (target_seed c pk n j = claimed))
        0 (N.to_nat TARGET_SEED_J_INDEX_BOUND)
  | _ => None
  end.

Definition share_hash (c pk n j canon_hash : Hex32) : Hex32 :=
  h_protocol DOMAIN_SHARE [c; pk; n; j; canon_hash].

Definition share_score (share_hash_bytes : Hex32) : N :=
  two_to_256 / (digest_to_biguint share_hash_bytes + 1).

(** [difficulty_weight]; [None] is the [T must be > 0] error. *)
Definition difficulty_weight (t : N) : option N :=
  if t =? 0 then None else Some (two_to_256 / t).

Definition min_share_score (t_share multiplier_nanos : N) : option N :=
  match difficulty_weight t_share with
  | Some w => Some (w * multiplier_nanos / 1000000000)
  | None => None
  end.

Definition submission_pow_hash (c pk nonce_s canon_hash : Hex32) : Hex32 :=
  h_protocol DOMAIN_SUBMIT [c; pk; nonce_s; canon_hash].

Definition submission_pow_ok (c pk nonce_s canon_hash : Hex32) (t_submit : N) : bool * N :=
  let hash_int := digest_to_biguint (submission_pow_hash c pk nonce_s canon_hash) in
  (hash_int <? t_submit, hash_int).

Definition parse_biguint_hex (value : string) : option N :=
  biguint_parse_hex (strip_hex_prefix value).

End Hash.

(** ** Lemmas *)

Lemma hex_n_from_hex_total {X : Externals} n s : hex_n_from_hex n s <> Panic.
Proof. unfold hex_n_from_hex. total_tac. Qed.

Lemma hex32_from_hex_total {X : Externals} s : hex32_from_hex s <> Panic.
Proof. apply hex_n_from_hex_total. Qed.

Lemma hex64_from_hex_total {X : Externals} s : hex64_from_hex s <> Panic.
Proof. apply hex_n_from_hex_total. Qed.

#[export] Hint Resolve hex_n_from_hex_total hex32_from_hex_total hex64_from_hex_total : total.

(** *** Big-endian values *)

Lemma be_value_acc bs acc :
  fold_left (fun acc b => acc * 256 + Byte.to_N b) bs acc
  = acc * 256 ^ len bs + be_value bs.
Proof.
  unfold be_value, len. revert acc. induction bs as [|b bs IH]; intros acc; cbn [fold_left length].
  - rewrite N.pow_0_r. lia.
  - rewrite IH, (IH (0 * 256 + _)), Nat2N.inj_succ, N.pow_succ_r'. lia.
Qed.

Lemma be_value_cons b bs : be_value (b :: bs) = Byte.to_N b * 256 ^ len bs + be_value bs.
Proof. unfold be_value at 1. cbn [fold_left]. rewrite be_value_acc. lia. Qed.

Lemma byte_bound (b : byte) : Byte.to_N b < 256.
Proof. pose proof (Byte.to_N_bounded b). lia. Qed.

Lemma be_value_bound bs : be_value bs < 256 ^ len bs.
Proof.
  induction bs as [|b bs IH]; [reflexivity|].
  rewrite be_value_cons. unfold len in *. cbn [length].
  rewrite Nat2N.inj_succ, N.pow_succ_r'. pose proof (byte_bound b). nia.
Qed.

(** The array order of digests is the order of their big-endian values. *)
Lemma digest_order_numeric a b :
  length a = length b -> rcmp a b = (be_value a ?= be_value b).
Proof.
  unfold rcmp, list_ord. revert b. induction a as [|x a IH]; intros [|y b] Hl; try discriminate Hl; [done|].
  injection Hl as Hl. cbn [lex_cmp]. rewrite (IH b Hl), !be_value_cons.
  unfold rcmp, byte_ord. assert (len a = len b) as -> by (unfold len; congruence).
  pose proof (be_value_bound a) as Ha. pose proof (be_value_bound b) as Hb.
  replace (len a) with (len b) in Ha by (unfold len; congruence).
  unfold cmp_then. destruct (N.compare_spec (Byte.to_N x) (Byte.to_N y)) as [->|Hlt|Hgt].
  - symmetry. destruct (N.compare_spec (be_value a) (be_value b));
      [apply N.compare_eq_iff|apply N.compare_lt_iff|apply N.compare_gt_iff]; lia.
  - symmetry. apply N.compare_lt_iff. nia.
  - symmetry. apply N.compare_gt_iff. nia.
Qed.

(** *** Scores and weights *)

Lemma difficulty_weight_Some t w : difficulty_weight t = Some w <-> t <> 0 /\ w = two_to_256 / t.
Proof. unfold difficulty_weight. destruct (N.eqb_spec t 0); naive_solver. Qed.

Lemma difficulty_weight_antitone t t' w w' :
  t <= t' -> difficulty_weight t = Some w -> difficulty_weight t' = Some w' -> w' <= w.
Proof.
  rewrite !difficulty_weight_Some. intros Hle [Ht ->] [_ ->].
  apply N.div_le_compat_l. lia.
Qed.

Lemma difficulty_weight_pos t w : t <= two_to_256 -> difficulty_weight t = Some w -> 1 <= w.
Proof.
  rewrite difficulty_weight_Some. intros Hle [Ht ->].
  apply N.div_le_lower_bound; lia.
Qed.

Section HashFacts.
Context {X : Externals}.

Lemma find_index_Some p start count j :
  find_index p start count = Some j ->
  p j = true /\ start <= j < start + N.of_nat count /\ forall i, start <= i < j -> p i = false.
Proof.
  revert start. induction count as [|count IH]; intros start; cbn [find_index]; [done|].
  destruct (p start) eqn:E; intros Hj.
  - simplify_eq. repeat split; [done|lia|lia|]. intros; lia.
  - apply IH in Hj as (Hp & Hr & Hall). repeat split; [done|lia|lia|].
    intros i Hi. destruct (N.eq_dec i start) as [->|]; [done|]. apply Hall; lia.
Qed.

Lemma find_index_None p start count :
  find_index p start count = None -> forall i, start <= i < start + N.of_nat count -> p i = false.
Proof.
  revert start. induction count as [|count IH]; intros start; cbn [find_index]; [intros _ i; lia|].
  destruct (p start) eqn:E; intros Hj; [done|]. intros i Hi.
  destruct (N.eq_dec i start) as [->|]; [done|]. apply (IH (start + 1)); [done|lia].
Qed.

(** A seed is found exactly when the chain posed it. *)
Lemma find_target_seed_j_index_posed c pk n seed_hex :
  is_Some (find_target_seed_j_index c pk n seed_hex) <->
  exists claimed j, hex32_from_hex seed_hex = Ok claimed /\
    j < TARGET_SEED_J_INDEX_BOUND /\ target_seed c pk n j = claimed.
Proof.
  unfold find_target_seed_j_index. split.
  - intros [j Hj]. destruct (hex32_from_hex seed_hex) as [claimed| |] eqn:E; try done.
    apply find_index_Some in Hj as (Hp & Hr & _). breflect.
    exists claimed, j. rewrite N2Nat.id in Hr. repeat split; [lia|done].
  - intros (claimed & j & -> & Hj & Ht).
    destruct (find_index _ _ _) as [i|] eqn:E; [eauto|]. exfalso.
    pose proof (find_index_None _ _ _ E j) as Hn. rewrite N2Nat.id in Hn.
    specialize (Hn ltac:(lia)). breflect. contradiction.
Qed.

(** A share whose hash is below the share target clears the committed score
    floor. *)
Lemma share_score_clears_floor h t_share floor :
  digest_to_biguint h < t_share ->
  min_share_score t_share 1000000000 = Some floor ->
  floor <= share_score h.
Proof.
  unfold min_share_score, share_score. intros Hlt.
  destruct (difficulty_weight t_share) as [w|] eqn:E; [|done].
  apply difficulty_weight_Some in E as [Ht ->]. intros [= <-].
  rewrite N.div_mul by done. apply N.div_le_compat_l. lia.
Qed.

Context {L : ExternalsLaws X}.

Lemma hex_n_from_hex_Ok n s h :
  hex_n_from_hex n s = Ok h <-> to_hex h = s /\ length h = n.
Proof using L.
  unfold hex_n_from_hex, to_hex. split.
  - destruct (Nat.eqb_spec (String.length s) (2 * n)) as [Hl|]; [|done].
    destruct (str_all is_lower_hex s) eqn:Hx; [|done]. cbn.
    destruct (hex_decode_lower s n Hx Hl) as (b & -> & Hb & He).
    destruct (Nat.eqb_spec (length b) n); [|done]. naive_solver.
  - intros [<- <-]. rewrite hex_encode_length, hex_encode_lower, Nat.eqb_refl, hex_decode_encode.
    cbn. by rewrite Nat.eqb_refl.
Qed.

Lemma hex_n_from_hex_inj n s t h :
  hex_n_from_hex n s = Ok h -> hex_n_from_hex n t = Ok h -> s = t.
Proof using L. rewrite !hex_n_from_hex_Ok. naive_solver. Qed.

Lemma to_hex_inj a b : to_hex a = to_hex b -> a = b.
Proof using L.
  unfold to_hex. intros E. apply (f_equal hex_decode) in E. rewrite !hex_decode_encode in E. congruence.
Qed.

Lemma h_protocol_length d parts : length (h_protocol d parts) = 32%nat.
Proof using L. apply blake3_length. Qed.

End HashFacts.
