(* ===== verification/SignedEnvelope.v ===== *)
(** * Signed envelopes

    crates/boole-core/src/signed_envelope.rs: [boole.signed.v1] envelopes, the
    digest that binds the network, signing and the two verification routines.
    Key generation from the operating system's randomness is not modelled. *)

From S2P Require Import Prelude Json Externals Hash.

Definition SIGNED_ENVELOPE_SCHEMA : string := "boole.signed.v1".
Definition DIGEST_NETWORK_TAG : list byte := as_bytes "boole.signed.v1.network::".

Record SignedEnvelope := mkSignedEnvelope {
  env_schema : string;
  env_payload : Value;
  env_pk : string;
  env_signature : string;
  env_network_id : option string
}.

(** A key is its 32-byte seed. *)
Record SigningKeyV2 := mkSigningKeyV2 { sk_seed : list byte }.

(** The malformed-input errors: wrong length or shape of a hexadecimal field,
    and a key that is no curve point. *)
Inductive EnvelopeError :=
| BadHexLength (field : string)
| BadHexShape (field : string)
| BadPoint.

Section SignedEnvelope.
Context {X : Externals}.

Definition sha256_canonical (payload : Value) : list byte := sha256 (canonicalize payload).

Definition canonical_payload_hash_hex (payload : Value) : string :=
  hex_encode (sha256_canonical payload).

(** The bytes [digest_for] feeds to SHA-256. *)
Definition digest_preimage (payload : Value) (network_id : option string) : list byte :=
  match network_id with
  | None => canonicalize payload
  | Some network => DIGEST_NETWORK_TAG ++ as_bytes network ++ [x0a] ++ canonicalize payload
  end.

Definition digest_for (payload : Value) (network_id : option string) : list byte :=
  match network_id with
  | None => sha256_canonical payload
  | Some _ => sha256 (digest_preimage payload network_id)
  end.

Definition signing_digest_hex (payload : Value) (network_id : option string) : string :=
  hex_encode (digest_for payload network_id).

Definition decode_hex32 (input field : string) : outcome EnvelopeError (list byte) :=
  if negb (Nat.eqb (String.length input) 64) then Err (BadHexLength field)
  else map_err (fun _ => BadHexShape field) (hex32_from_hex input).

Definition decode_hex64 (input field : string) : outcome EnvelopeError (list byte) :=
  if negb (Nat.eqb (String.length input) 128) then Err (BadHexLength field)
  else map_err (fun _ => BadHexShape field) (hex64_from_hex input).

Definition verify_signature_with_network
    (pk_hex sig_hex : string) (payload : Value) (network_id : option string)
    : outcome EnvelopeError bool :=
  let* pk_bytes := decode_hex32 pk_hex "pk" in
  let* sig_bytes := decode_hex64 sig_hex "signature" in
  do* ensure (verifying_key_ok pk_bytes) BadPoint;
  Ok (ed25519_verify pk_bytes (digest_for payload network_id) sig_bytes).

Definition verify_signature (pk_hex sig_hex : string) (payload : Value)
    : outcome EnvelopeError bool :=
  verify_signature_with_network pk_hex sig_hex payload None.

Definition env_verify (e : SignedEnvelope) : outcome EnvelopeError bool :=
  verify_signature_with_network (env_pk e) (env_signature e) (env_payload e) (env_network_id e).

Definition env_verify_strict (e : SignedEnvelope) : outcome EnvelopeError bool :=
  let* pk_bytes := decode_hex32 (env_pk e) "pk" in
  let* sig_bytes := decode_hex64 (env_signature e) "signature" in
  do* ensure (verifying_key_ok pk_bytes) BadPoint;
  Ok (ed25519_verify_strict pk_bytes (digest_for (env_payload e) (env_network_id e)) sig_bytes).

Definition from_dev_id (id : string) : SigningKeyV2 :=
  mkSigningKeyV2 (blake3 (as_bytes "boole-keys-dev::" ++ as_bytes id)).

Definition from_seed_hex (seed_hex : string) : outcome EnvelopeError SigningKeyV2 :=
  let* bytes := decode_hex32 seed_hex "sk" in Ok (mkSigningKeyV2 bytes).

Definition pk_hex (k : SigningKeyV2) : string := hex_encode (signing_public (sk_seed k)).
Definition sk_seed_hex (k : SigningKeyV2) : string := hex_encode (sk_seed k).

Definition sign_for_network (k : SigningKeyV2) (payload : Value) (network_id : option string)
    : SignedEnvelope :=
  let digest := digest_for payload network_id in
  mkSignedEnvelope SIGNED_ENVELOPE_SCHEMA payload (pk_hex k)
    (hex_encode (ed25519_sign (sk_seed k) digest)) network_id.

Definition sign (k : SigningKeyV2) (payload : Value) : SignedEnvelope :=
  sign_for_network k payload None.

End SignedEnvelope.

(** ** Lemmas *)

Lemma decode_hex32_total {X : Externals} s f : decode_hex32 s f <> Panic.
Proof. unfold decode_hex32. total_tac. Qed.

Lemma decode_hex64_total {X : Externals} s f : decode_hex64 s f <> Panic.
Proof. unfold decode_hex64. total_tac. Qed.

#[export] Hint Resolve decode_hex32_total decode_hex64_total : total.

Lemma env_verify_strict_total {X : Externals} e : env_verify_strict e <> Panic.
Proof. unfold env_verify_strict. total_tac. Qed.

Lemma verify_signature_with_network_total {X : Externals} pk s v n :
  verify_signature_with_network pk s v n <> Panic.
Proof. unfold verify_signature_with_network. total_tac. Qed.

#[export] Hint Resolve env_verify_strict_total verify_signature_with_network_total : total.

Section SignedEnvelopeFacts.
Context {X : Externals} {L : ExternalsLaws X}.

Lemma decode_hex32_encode b field : length b = 32%nat -> decode_hex32 (hex_encode b) field = Ok b.
Proof using L.
  intros Hb. unfold decode_hex32. rewrite hex_encode_length, Hb. cbn.
  assert (hex32_from_hex (hex_encode b) = Ok b) as -> by by apply hex_n_from_hex_Ok.
  done.
Qed.

Lemma decode_hex64_encode b field : length b = 64%nat -> decode_hex64 (hex_encode b) field = Ok b.
Proof using L.
  intros Hb. unfold decode_hex64. rewrite hex_encode_length, Hb. cbn.
  assert (hex64_from_hex (hex_encode b) = Ok b) as -> by by apply hex_n_from_hex_Ok.
  done.
Qed.

Lemma sign_for_network_verifies k payload network_id :
  env_verify (sign_for_network k payload network_id) = Ok true /\
  env_verify_strict (sign_for_network k payload network_id) = Ok true.
Proof using L.
  destruct (signing_public_ok (sk_seed k)) as [Hl Hk].
  pose proof (ed25519_sign_length (sk_seed k)) as Hs.
  unfold env_verify, verify_signature_with_network, env_verify_strict, sign_for_network, pk_hex; cbn.
  rewrite !decode_hex32_encode, !decode_hex64_encode by done. cbn. rewrite Hk. cbn.
  destruct (ed25519_sign_verify (sk_seed k) (digest_for payload network_id)) as [-> ->]. done.
Qed.

(** For one payload, different network scopes hash different bytes. *)
Lemma digest_preimage_scope_inj payload n1 n2 :
  digest_preimage payload n1 = digest_preimage payload n2 -> n1 = n2.
Proof.
  destruct n1 as [a|], n2 as [b|]; cbn [digest_preimage]; intros E; [|exfalso..|done].
  - apply app_inv_head in E. rewrite !app_assoc in E. apply app_inv_tail in E.
    apply app_inv_tail in E. by rewrite (as_bytes_inj _ _ E).
  - apply (f_equal length) in E. rewrite !length_app in E. cbn in E. lia.
  - apply (f_equal length) in E. rewrite !length_app in E. cbn in E. lia.
Qed.

End SignedEnvelopeFacts.
