(* ===== verification/NativeLedger.v ===== *)
(** * The native-coin ledger

    crates/boole-core/src/native_ledger.rs: transfers, the emission schedule,
    the accounting state, its block transition with the recorded inverse, the
    offline audit and the pending view. A [BTreeMap] is a [gmap]; where the
    code iterates one, the model iterates [btree_iter]. The [&mut self] methods
    return the new ledger; an [Err] return drops the staged copy, as the
    callers' clones do. *)

From S2P Require Import Prelude Json Externals Hash SignedEnvelope.

Definition NATIVE_TRANSFER_SCHEMA : string := "boole.transfer.v1".

Inductive NativeLedgerError :=
| InvalidSchedule
| InvalidNetwork
| InvalidPublicKey
| UnexpectedHeight (expected actual : N)
| Overflow
| InvalidTransfer
| InvalidSignature
| WrongNetwork
| SenderMismatch
| ZeroAmount
| FeeBelowMinimum
| Expired
| UnexpectedNonce (expected actual : N)
| InsufficientBalance
| InconsistentAccounting.

Record NativeTransferPayload := mkPayload {
  p_schema : string;
  p_from : string;
  p_to : string;
  p_amount : string;
  p_fee : string;
  p_nonce : string;
  p_valid_before : string
}.

Record NativeTransferFields := mkFields {
  f_from : string;
  f_to : string;
  f_amount : N;
  f_fee : N;
  f_nonce : N;
  f_valid_before : N
}.

(** [serde_json::from_value::<NativeTransferPayload>] and [to_value], generated
    by the derive macros. *)
Class PayloadSerde := {
  payload_from_value : Value -> option NativeTransferPayload;
  payload_to_value : NativeTransferPayload -> Value
}.

(** [decimal::<T>], with the greatest value of [T]. *)
Definition decimal (max : N) (value : string) : outcome NativeLedgerError N :=
  if str_is_empty value
     || ((1 <? str_len value) && starts_with_char 48 value)
     || negb (str_all is_ascii_digit value)
  then Err InvalidTransfer
  else ok_or (parse_uint max value) InvalidTransfer.

Record EmissionSchedule := mkSchedule {
  es_total_supply : N;
  es_initial_reward : N;
  es_halving_epoch : N
}.

Definition schedule_new (total_supply initial_reward halving_epoch : N)
    : outcome NativeLedgerError EmissionSchedule :=
  if (total_supply =? 0) || (initial_reward =? 0) || (halving_epoch =? 0)
  then Err InvalidSchedule
  else Ok (mkSchedule total_supply initial_reward halving_epoch).

(** [EmissionSchedule::emission]; [height / 0] would abort, and [schedule_new]
    excludes it. *)
Definition emission (s : EmissionSchedule) (height issued : N) : outcome NativeLedgerError N :=
  if es_halving_epoch s =? 0 then Panic else
  let epoch := height / es_halving_epoch s in
  let reward := if epoch <? 128 then N.shiftr (es_initial_reward s) epoch else 0 in
  let* remaining := ok_or (checked_sub (es_total_supply s) issued) Overflow in
  Ok (N.min reward remaining).

Record NativeLedger := mkLedger {
  nl_network_id : string;
  nl_schedule : EmissionSchedule;
  nl_height : N;
  nl_issued : N;
  nl_balances : gmap string N;
  nl_next_nonces : gmap string N;
  nl_minimum_fee : N;
  nl_reward_maturity : N;
  nl_locked_balances : gmap string N;
  nl_pending_rewards : gmap N (string * N)
}.

(** Assignments to one field. *)
Definition set_balances (l : NativeLedger) (b : gmap string N) : NativeLedger :=
  mkLedger (nl_network_id l) (nl_schedule l) (nl_height l) (nl_issued l) b (nl_next_nonces l)
    (nl_minimum_fee l) (nl_reward_maturity l) (nl_locked_balances l) (nl_pending_rewards l).
Definition set_next_nonces (l : NativeLedger) (n : gmap string N) : NativeLedger :=
  mkLedger (nl_network_id l) (nl_schedule l) (nl_height l) (nl_issued l) (nl_balances l) n
    (nl_minimum_fee l) (nl_reward_maturity l) (nl_locked_balances l) (nl_pending_rewards l).
Definition set_locked_balances (l : NativeLedger) (k : gmap string N) : NativeLedger :=
  mkLedger (nl_network_id l) (nl_schedule l) (nl_height l) (nl_issued l) (nl_balances l)
    (nl_next_nonces l) (nl_minimum_fee l) (nl_reward_maturity l) k (nl_pending_rewards l).
Definition set_pending_rewards (l : NativeLedger) (p : gmap N (string * N)) : NativeLedger :=
  mkLedger (nl_network_id l) (nl_schedule l) (nl_height l) (nl_issued l) (nl_balances l)
    (nl_next_nonces l) (nl_minimum_fee l) (nl_reward_maturity l) (nl_locked_balances l) p.
Definition set_height_issued (l : NativeLedger) (h i : N) : NativeLedger :=
  mkLedger (nl_network_id l) (nl_schedule l) h i (nl_balances l)
    (nl_next_nonces l) (nl_minimum_fee l) (nl_reward_maturity l) (nl_locked_balances l)
    (nl_pending_rewards l).

Record NativeLedgerAudit := mkAudit {
  au_issued : N;
  au_supply_cap : N;
  au_total_balance : N;
  au_total_locked : N;
  au_total_spendable : N;
  au_balance_entries : N;
  au_nonce_entries : N;
  au_pending_reward_entries : N
}.

Record NativeLedgerUndo := mkUndo {
  un_height : N;
  un_issued : N;
  un_balances : gmap string (option N);
  un_next_nonces : gmap string (option N);
  un_locked_balances : gmap string (option N);
  un_pending_rewards : gmap N (option (string * N))
}.

Definition undo_new (l : NativeLedger) : NativeLedgerUndo :=
  mkUndo (nl_height l) (nl_issued l) ∅ ∅ ∅ ∅.

(** [entry(key).or_insert_with(|| old)]. *)
Definition or_insert {K V} `{Countable K} (m : gmap K V) (k : K) (v : V) : gmap K V :=
  match m !! k with Some _ => m | None => <[k := v]> m end.

Definition undo_balance (u : NativeLedgerUndo) (l : NativeLedger) (pk : string) : NativeLedgerUndo :=
  mkUndo (un_height u) (un_issued u) (or_insert (un_balances u) pk (nl_balances l !! pk))
    (un_next_nonces u) (un_locked_balances u) (un_pending_rewards u).
Definition undo_locked_balance (u : NativeLedgerUndo) (l : NativeLedger) (pk : string)
    : NativeLedgerUndo :=
  mkUndo (un_height u) (un_issued u) (un_balances u) (un_next_nonces u)
    (or_insert (un_locked_balances u) pk (nl_locked_balances l !! pk)) (un_pending_rewards u).
Definition undo_next_nonce (u : NativeLedgerUndo) (l : NativeLedger) (pk : string)
    : NativeLedgerUndo :=
  mkUndo (un_height u) (un_issued u) (un_balances u)
    (or_insert (un_next_nonces u) pk (nl_next_nonces l !! pk))
    (un_locked_balances u) (un_pending_rewards u).
Definition undo_pending (u : NativeLedgerUndo) (p : gmap N (option (string * N)))
    : NativeLedgerUndo :=
  mkUndo (un_height u) (un_issued u) (un_balances u) (un_next_nonces u) (un_locked_balances u) p.

Definition restore_entries {K V} `{Countable K} `{RustOrd K}
    (m : gmap K V) (old : gmap K (option V)) : gmap K V :=
  fold_left (fun m '(key, value) =>
    match value with
    | Some value => <[key := value]> m
    | None => delete key m
    end) (btree_iter old) m.

Record PreparedTransfer := mkPrepared {
  pt_balances : gmap string N;
  pt_sender : string;
  pt_next_nonce : N
}.

Record NativePendingView := mkPendingView {
  pv_ledger : NativeLedger;
  pv_height : N
}.

Definition is_network_char (c : ascii) : bool :=
  is_ascii_alphanumeric c || is_char 45 c || is_char 95 c || is_char 46 c.

Definition new_with_rules (network_id : string) (schedule : EmissionSchedule)
    (minimum_fee reward_maturity : N) : outcome NativeLedgerError NativeLedger :=
  if str_is_empty network_id || (128 <? str_len network_id)
     || negb (str_all is_network_char network_id)
  then Err InvalidNetwork
  else Ok (mkLedger network_id schedule 0 0 ∅ ∅ minimum_fee reward_maturity ∅ ∅).

Definition ledger_new (network_id : string) (schedule : EmissionSchedule)
    : outcome NativeLedgerError NativeLedger :=
  new_with_rules network_id schedule 0 0.

Definition balance (l : NativeLedger) (pk : string) : N := default 0 (nl_balances l !! pk).
Definition locked_balance (l : NativeLedger) (pk : string) : N :=
  default 0 (nl_locked_balances l !! pk).
(** A plain subtraction: it aborts if more is locked than owned. *)
Definition spendable_balance {E} (l : NativeLedger) (pk : string) : outcome E N :=
  sub_panic (balance l pk) (locked_balance l pk).
Definition next_nonce (l : NativeLedger) (pk : string) : N := default 0 (nl_next_nonces l !! pk).

(** [NativeLedger::audit]. *)
Definition audit_lock_step (l : NativeLedger) (expected_locks : gmap string N)
    (entry : N * (string * N)) : outcome NativeLedgerError (gmap string N) :=
  let '(unlock_height, (pk, amount)) := entry in
  if (unlock_height <=? nl_height l) || (amount =? 0)
     || negb match checked_sub unlock_height (nl_reward_maturity l) with
             | Some created => (0 <? created) && (created <=? nl_height l)
             | None => false
             end
  then Err InconsistentAccounting
  else
    let* expected := ok_or (checked_add u128_max (default 0 (expected_locks !! pk)) amount) Overflow in
    Ok (<[pk := expected]> expected_locks).

Definition audit_sum_step (sum balance : N) : outcome NativeLedgerError N :=
  ok_or (checked_add u128_max sum balance) Overflow.

Definition audit_locked_step (l : NativeLedger) (sum : N) (entry : string * N)
    : outcome NativeLedgerError N :=
  let '(pk, locked) := entry in
  if (locked =? 0) || (balance l pk <? locked) then Err InconsistentAccounting
  else ok_or (checked_add u128_max sum locked) Overflow.

Definition audit (l : NativeLedger) : outcome NativeLedgerError NativeLedgerAudit :=
  let* total_balance := ofold audit_sum_step 0 (btree_iter (nl_balances l)).*2 in
  if negb (total_balance =? nl_issued l) || (es_total_supply (nl_schedule l) <? nl_issued l)
  then Err InconsistentAccounting else
  let* expected_locks := ofold (audit_lock_step l) ∅ (btree_iter (nl_pending_rewards l)) in
  if negb (bool_decide (btree_iter (nl_locked_balances l) = btree_iter expected_locks))
  then Err InconsistentAccounting else
  let* total_locked := ofold (audit_locked_step l) 0 (btree_iter (nl_locked_balances l)) in
  let* total_spendable := ok_or (checked_sub total_balance total_locked) InconsistentAccounting in
  Ok (mkAudit (nl_issued l) (es_total_supply (nl_schedule l)) total_balance total_locked
        total_spendable (N.of_nat (size (nl_balances l))) (N.of_nat (size (nl_next_nonces l)))
        (N.of_nat (size (nl_pending_rewards l)))).

(** The loop of [unlock_rewards]; each turn removes an entry, so one more turn
    than there are entries is enough ([unlock_loop_fuel]). *)
Fixpoint unlock_loop (fuel : nat) (l : NativeLedger) (height : N)
    : outcome NativeLedgerError NativeLedger :=
  match fuel with
  | O => Panic
  | S fuel' =>
      match first_key_value (nl_pending_rewards l) with
      | Some (unlock_height, (pk, amount)) =>
          if unlock_height <=? height then
            let l1 := set_pending_rewards l (delete unlock_height (nl_pending_rewards l)) in
            let* remaining := ok_or (checked_sub (locked_balance l1 pk) amount) Overflow in
            let locked :=
              if remaining =? 0 then delete pk (nl_locked_balances l1)
              else <[pk := remaining]> (nl_locked_balances l1) in
            unlock_loop fuel' (set_locked_balances l1 locked) height
          else Ok l
      | None => Ok l
      end
  end.

Definition unlock_rewards (l : NativeLedger) (height : N) : outcome NativeLedgerError NativeLedger :=
  unlock_loop (S (size (nl_pending_rewards l))) l height.

Definition stage_credit (l : NativeLedger) (balances : gmap string N) (pk : string) (amount : N)
    : outcome NativeLedgerError (gmap string N) :=
  if negb (amount =? 0) then
    let* b := ok_or (checked_add u128_max (default (balance l pk) (balances !! pk)) amount) Overflow in
    Ok (<[pk := b]> balances)
  else Ok balances.

Definition commit_transfer (l : NativeLedger) (prepared : PreparedTransfer) : NativeLedger :=
  let l1 := set_balances l
    (fold_left (fun b '(pk, bal) => <[pk := bal]> b) (btree_iter (pt_balances prepared))
       (nl_balances l)) in
  set_next_nonces l1 (<[pt_sender prepared := pt_next_nonce prepared]> (nl_next_nonces l1)).

Definition credit (l : NativeLedger) (pk : string) (amount : N)
    : outcome NativeLedgerError NativeLedger :=
  if negb (amount =? 0) then
    let* b := ok_or (checked_add u128_max (balance l pk) amount) Overflow in
    Ok (set_balances l (<[pk := b]> (nl_balances l)))
  else Ok l.

Section NativeLedger.
Context {X : Externals} {P : PayloadSerde}.

Definition validate_native_transfer (envelope : SignedEnvelope) (network_id : string)
    (minimum_fee : N) : outcome NativeLedgerError NativeTransferFields :=
  do* ensure (String.eqb (env_schema envelope) SIGNED_ENVELOPE_SCHEMA) InvalidTransfer;
  do* ensure (bool_decide (env_network_id envelope = Some network_id)) WrongNetwork;
  let* payload := ok_or (payload_from_value (env_payload envelope)) InvalidTransfer in
  do* ensure (String.eqb (p_schema payload) NATIVE_TRANSFER_SCHEMA) InvalidTransfer;
  do* ensure (String.eqb (p_from payload) (env_pk envelope)) SenderMismatch;
  do* map_err (fun _ => InvalidPublicKey) (hex32_from_hex (p_from payload));
  do* map_err (fun _ => InvalidPublicKey) (hex32_from_hex (p_to payload));
  let* valid := map_err (fun _ => InvalidSignature) (env_verify_strict envelope) in
  do* ensure valid InvalidSignature;
  let* amount := decimal u128_max (p_amount payload) in
  let* fee := decimal u128_max (p_fee payload) in
  let* nonce := decimal u64_max (p_nonce payload) in
  let* valid_before := decimal u64_max (p_valid_before payload) in
  do* ensure (negb (amount =? 0)) ZeroAmount;
  do* ensure (negb (fee <? minimum_fee)) FeeBelowMinimum;
  Ok (mkFields (p_from payload) (p_to payload) amount fee nonce valid_before).

Definition prepare_transfer (l : NativeLedger) (height : N) (reward_pk : option string)
    (envelope : SignedEnvelope) : outcome NativeLedgerError PreparedTransfer :=
  let* payload := validate_native_transfer envelope (nl_network_id l) (nl_minimum_fee l) in
  do* ensure (negb (f_valid_before payload <? height)) Expired;
  let expected := next_nonce l (f_from payload) in
  do* ensure (f_nonce payload =? expected) (UnexpectedNonce expected (f_nonce payload));
  let* debit := ok_or (checked_add u128_max (f_amount payload) (f_fee payload)) Overflow in
  let* spendable := spendable_balance l (f_from payload) in
  do* ensure (negb (spendable <? debit)) InsufficientBalance;
  let* remaining := ok_or (checked_sub (balance l (f_from payload)) debit) InsufficientBalance in
  let* next := ok_or (checked_add u64_max (f_nonce payload) 1) Overflow in
  let balances := <[f_from payload := remaining]> ∅ in
  let* balances := stage_credit l balances (f_to payload) (f_amount payload) in
  let* balances :=
    match reward_pk with
    | Some reward_pk => stage_credit l balances reward_pk (f_fee payload)
    | None => Ok balances
    end in
  Ok (mkPrepared balances (f_from payload) next).

(** One turn of the transfer loop of [apply_block_inner]. *)
Definition apply_transfer (height : N) (reward_pk : string)
    (st : NativeLedger * NativeLedgerUndo) (transfer : SignedEnvelope)
    : outcome NativeLedgerError (NativeLedger * NativeLedgerUndo) :=
  let '(l, undo) := st in
  let* prepared := prepare_transfer l height (Some reward_pk) transfer in
  let undo := fold_left (fun u pk => undo_balance u l pk) (btree_iter (pt_balances prepared)).*1 undo in
  let undo := undo_next_nonce undo l (pt_sender prepared) in
  Ok (commit_transfer l prepared, undo).

(** [pending_rewards.range(..=height)]. *)
Definition matured (l : NativeLedger) (height : N) : list (N * (string * N)) :=
  filter (fun e => e.1 <= height) (btree_iter (nl_pending_rewards l)).

Definition record_matured (l : NativeLedger) (u : NativeLedgerUndo) (e : N * (string * N))
    : NativeLedgerUndo :=
  let '(unlock_height, (pk, amount)) := e in
  let u := undo_locked_balance u l pk in
  undo_pending u (<[unlock_height := Some (pk, amount)]> (un_pending_rewards u)).

(** The reward of [apply_block_inner]: credit, lock and count the emission. *)
Definition apply_reward (l : NativeLedger) (undo : NativeLedgerUndo) (height : N) (reward_pk : string)
    : outcome NativeLedgerError (NativeLedger * NativeLedgerUndo) :=
  let* em := emission (nl_schedule l) height (nl_issued l) in
  let undo := if negb (em =? 0) then undo_balance undo l reward_pk else undo in
  let* l := credit l reward_pk em in
  let* st :=
    if negb (em =? 0) && negb (nl_reward_maturity l =? 0) then
      let* unlock_height := ok_or (checked_add u64_max height (nl_reward_maturity l)) Overflow in
      let* locked := ok_or (checked_add u128_max (locked_balance l reward_pk) em) Overflow in
      let undo := undo_locked_balance undo l reward_pk in
      let undo := undo_pending undo
        (or_insert (un_pending_rewards undo) unlock_height (nl_pending_rewards l !! unlock_height)) in
      let l := set_locked_balances l (<[reward_pk := locked]> (nl_locked_balances l)) in
      let l := set_pending_rewards l (<[unlock_height := (reward_pk, em)]> (nl_pending_rewards l)) in
      Ok (l, undo)
    else Ok (l, undo) in
  let '(l, undo) := st in
  let* issued := ok_or (checked_add u128_max (nl_issued l) em) Overflow in
  Ok (set_height_issued l height issued, undo).

Definition apply_block_inner (l : NativeLedger) (height : N) (authenticated_reward_pk : string)
    (transfers : list SignedEnvelope) (undo : NativeLedgerUndo)
    : outcome NativeLedgerError (NativeLedger * NativeLedgerUndo) :=
  let* expected := ok_or (checked_add u64_max (nl_height l) 1) Overflow in
  do* ensure (height =? expected) (UnexpectedHeight expected height);
  do* map_err (fun _ => InvalidPublicKey) (hex32_from_hex authenticated_reward_pk);
  let undo := fold_left (record_matured l) (matured l height) undo in
  let* l := unlock_rewards l height in
  let* st := ofold (apply_transfer height authenticated_reward_pk) (l, undo) transfers in
  let '(l, undo) := st in
  apply_reward l undo height authenticated_reward_pk.

Definition prepare_block (l : NativeLedger) (height : N) (authenticated_reward_pk : string)
    (transfers : list SignedEnvelope)
    : outcome NativeLedgerError (NativeLedger * NativeLedgerUndo) :=
  apply_block_inner l height authenticated_reward_pk transfers (undo_new l).

Definition apply_block (l : NativeLedger) (height : N) (authenticated_reward_pk : string)
    (transfers : list SignedEnvelope) : outcome NativeLedgerError NativeLedger :=
  let* st := prepare_block l height authenticated_reward_pk transfers in
  let '(staged, _) := st in
  Ok staged.

Definition undo_block (l : NativeLedger) (undo : NativeLedgerUndo)
    : outcome NativeLedgerError NativeLedger :=
  let* expected := ok_or (checked_add u64_max (un_height undo) 1) Overflow in
  do* ensure (nl_height l =? expected) (UnexpectedHeight expected (nl_height l));
  let l := set_balances l (restore_entries (nl_balances l) (un_balances undo)) in
  let l := set_next_nonces l (restore_entries (nl_next_nonces l) (un_next_nonces undo)) in
  let l := set_locked_balances l (restore_entries (nl_locked_balances l) (un_locked_balances undo)) in
  let l := set_pending_rewards l (restore_entries (nl_pending_rewards l) (un_pending_rewards undo)) in
  Ok (set_height_issued l (un_height undo) (un_issued undo)).

Definition pending_view (l : NativeLedger) : outcome NativeLedgerError NativePendingView :=
  let* height := ok_or (checked_add u64_max (nl_height l) 1) Overflow in
  let* ledger := unlock_rewards l height in
  Ok (mkPendingView ledger height).

Definition view_prepare (v : NativePendingView) (envelope : SignedEnvelope)
    : outcome NativeLedgerError PreparedTransfer :=
  prepare_transfer (pv_ledger v) (pv_height v) None envelope.

Definition view_commit (v : NativePendingView) (prepared : PreparedTransfer) : NativePendingView :=
  mkPendingView (commit_transfer (pv_ledger v) prepared) (pv_height v).

Definition view_push (v : NativePendingView) (envelope : SignedEnvelope)
    : outcome NativeLedgerError NativePendingView :=
  let* prepared := view_prepare v envelope in
  Ok (view_commit v prepared).

Definition available_balance {E} (v : NativePendingView) (pk : string) : outcome E N :=
  spendable_balance (pv_ledger v) pk.

End NativeLedger.
