(* ===== verification/NativeLedgerFacts.v ===== *)
(** * The native ledger's invariant

    The well-formedness invariant of NativeLedger.v ([ledger_ok]), what each
    operation of the ledger does to the accounting, and that every operation
    preserves the invariant. The theorems of NativeLedgerTheorems.v are built
    from these lemmas. *)

From S2P Require Import Prelude Json Externals Hash SignedEnvelope NativeLedger.

(** ** Abstract accounting *)

(** What [pk] is still owed by the pending rewards. *)
Definition owed (p : gmap N (string * N)) (pk : string) : N :=
  map_fold (fun _ e acc => (if decide (e.1 = pk) then e.2 else 0) + acc) 0 p.

Definition nonzero (n : N) : option N := if n =? 0 then None else Some n.

Definition credit_map (b : gmap string N) (pk : string) (amount : N) : gmap string N :=
  if amount =? 0 then b else <[pk := default 0 (b !! pk) + amount]> b.

Definition debit_map (b : gmap string N) (pk : string) (amount : N) : gmap string N :=
  <[pk := default 0 (b !! pk) - amount]> b.

(** The effect of a transfer on the balances. *)
Definition transfer_map (b : gmap string N) (f : NativeTransferFields) (reward_pk : option string)
    : gmap string N :=
  let b := credit_map (debit_map b (f_from f) (f_amount f + f_fee f)) (f_to f) (f_amount f) in
  match reward_pk with Some pk => credit_map b pk (f_fee f) | None => b end.

Arguments transfer_map : simpl never.

(** The invariant: the parts that hold throughout a block transition, and the
    state of the pending rewards at a height. *)
Record core_ok (l : NativeLedger) : Prop := {
  ok_supply : es_total_supply (nl_schedule l) <= u128_max;
  ok_epoch : es_halving_epoch (nl_schedule l) <> 0;
  ok_height : nl_height l <= u64_max;
  ok_issued : nl_issued l <= es_total_supply (nl_schedule l);
  ok_conserved : map_sum (nl_balances l) = nl_issued l;
  ok_locks : forall pk, nl_locked_balances l !! pk = nonzero (owed (nl_pending_rewards l) pk);
  ok_locked_le : forall pk, locked_balance l pk <= balance l pk;
  ok_nonces : forall pk, next_nonce l pk <= u64_max
}.

(** Pending rewards unlock above [lo] and were created up to height [hi]. *)
Definition pending_ok (lo hi : N) (l : NativeLedger) : Prop :=
  forall k pk a, nl_pending_rewards l !! k = Some (pk, a) ->
    lo < k /\ k <= u64_max /\ a <> 0 /\ nl_reward_maturity l < k /\ k <= hi + nl_reward_maturity l.

Definition ledger_ok (l : NativeLedger) : Prop :=
  core_ok l /\ pending_ok (nl_height l) (nl_height l) l.

(** ** Lemmas on the accounting *)

Lemma owed_empty pk : owed ∅ pk = 0.
Proof. apply map_fold_empty. Qed.

Lemma owed_insert p k e pk : p !! k = None ->
  owed (<[k := e]> p) pk = (if decide (e.1 = pk) then e.2 else 0) + owed p pk.
Proof. intros Hk. unfold owed. rewrite map_fold_insert_L; [done|intros; lia|done]. Qed.

Lemma owed_delete p k e pk : p !! k = Some e ->
  owed p pk = (if decide (e.1 = pk) then e.2 else 0) + owed (delete k p) pk.
Proof. intros Hk. unfold owed. rewrite (map_fold_delete_L _ _ k e p); [done|intros; lia|done]. Qed.

Lemma owed_lookup_le p k pk a : p !! k = Some (pk, a) -> a <= owed p pk.
Proof. intros Hk. rewrite (owed_delete p k (pk, a) pk Hk). cbn. case_decide; [lia|done]. Qed.

Lemma default_nonzero n : default 0 (nonzero n) = n.
Proof. unfold nonzero. destruct (N.eqb_spec n 0); by subst. Qed.

Lemma credit_map_lookup b pk a x :
  default 0 (credit_map b pk a !! x) = default 0 (b !! x) + (if decide (x = pk) then a else 0).
Proof.
  unfold credit_map. destruct (N.eqb_spec a 0) as [->|Ha]; [case_decide; lia|].
  rewrite lookup_insert. repeat case_decide; subst; cbn; try done; lia.
Qed.

Lemma credit_map_sum b pk a : map_sum (credit_map b pk a) = map_sum b + a.
Proof.
  unfold credit_map. destruct (N.eqb_spec a 0) as [->|Ha]; [lia|].
  pose proof (map_sum_insert b pk (default 0 (b !! pk) + a)). lia.
Qed.

Lemma debit_map_lookup b pk a x :
  default 0 (debit_map b pk a !! x) = default 0 (b !! x) - (if decide (x = pk) then a else 0).
Proof.
  unfold debit_map. rewrite lookup_insert. repeat case_decide; subst; cbn; try done; lia.
Qed.

Lemma debit_map_sum b pk a : a <= default 0 (b !! pk) -> map_sum (debit_map b pk a) + a = map_sum b.
Proof.
  intros Ha. unfold debit_map. pose proof (map_sum_insert b pk (default 0 (b !! pk) - a)). lia.
Qed.

(** [stage_credit] and [credit] are [credit_map] on the balances they see. *)
Lemma stage_credit_Ok l b pk a b' :
  stage_credit l b pk a = Ok b' <->
  b' ∪ nl_balances l = credit_map (b ∪ nl_balances l) pk a /\
  b' = (if a =? 0 then b else <[pk := default 0 ((b ∪ nl_balances l) !! pk) + a]> b) /\
  (a <> 0 -> default 0 ((b ∪ nl_balances l) !! pk) + a <= u128_max).
Proof.
  unfold stage_credit, credit_map.
  assert (default (balance l pk) (b !! pk) = default 0 ((b ∪ nl_balances l) !! pk)) as ->.
  { rewrite lookup_union. unfold balance. by destruct (b !! pk), (nl_balances l !! pk). }
  destruct (N.eqb_spec a 0) as [->|Ha]; cbn.
  - split; [intros [= <-]; done|]. intros (_ & -> & _). done.
  - unfold checked_add. destruct (N.leb_spec (default 0 ((b ∪ nl_balances l) !! pk) + a) u128_max) as [Hle|Hgt]; cbn.
    + split; [|intros (_ & -> & _); done]. intros [= <-]. by rewrite insert_union_l.
    + split; [done|]. intros (_ & _ & Hle). specialize (Hle Ha). lia.
Qed.

Lemma credit_Ok l pk a l' :
  credit l pk a = Ok l' <->
  l' = set_balances l (credit_map (nl_balances l) pk a) /\ (a <> 0 -> balance l pk + a <= u128_max).
Proof.
  unfold credit, credit_map, balance. destruct (N.eqb_spec a 0) as [->|Ha]; cbn.
  - split; [intros [= <-]; by destruct l|]. intros (-> & _). by destruct l.
  - unfold checked_add. destruct (N.leb_spec (default 0 (nl_balances l !! pk) + a) u128_max) as [Hle|Hgt]; cbn.
    + split; [|intros (-> & _); done]. intros [= <-]. done.
    + split; [done|]. intros (_ & Hle). specialize (Hle Ha). lia.
Qed.

Lemma commit_transfer_balances l p :
  nl_balances (commit_transfer l p) = pt_balances p ∪ nl_balances l.
Proof. cbn. apply fold_btree_insert. Qed.

Lemma spendable_balance_Ok {E} l pk n :
  spendable_balance (E:=E) l pk = Ok n <->
  n = balance l pk - locked_balance l pk /\ locked_balance l pk <= balance l pk.
Proof.
  unfold spendable_balance, sub_panic, expect.
  destruct (checked_sub _ _) as [m|] eqn:Hc.
  - apply checked_sub_Some in Hc as [-> ?]. naive_solver.
  - apply checked_sub_None in Hc. split; [done|lia].
Qed.

(** *** Unlocking matured rewards *)

Definition locks_ok (l : NativeLedger) : Prop :=
  forall pk, nl_locked_balances l !! pk = nonzero (owed (nl_pending_rewards l) pk).

(** What unlocking leaves: the rewards above the height, and their locks. *)
Record unlocked (l l' : NativeLedger) (height : N) : Prop := {
  ul_pending : forall k, nl_pending_rewards l' !! k
    = if decide (k <= height) then None else nl_pending_rewards l !! k;
  ul_locks : locks_ok l';
  ul_locked_le : forall pk, locked_balance l' pk <= locked_balance l pk;
  ul_frame : l' = set_locked_balances (set_pending_rewards l (nl_pending_rewards l'))
                    (nl_locked_balances l')
}.

Lemma unlock_loop_spec fuel l height :
  (size (nl_pending_rewards l) < fuel)%nat -> locks_ok l ->
  exists l', unlock_loop fuel l height = Ok l' /\ unlocked l l' height.
Proof.
  revert l. induction fuel as [|fuel IH]; intros l Hf Hl; [lia|]. cbn [unlock_loop].
  destruct (first_key_value (nl_pending_rewards l)) as [[k [pk a]]|] eqn:E.
  2:{ apply first_key_value_None in E. exists l. split; [done|]. split; [|done|done|by destruct l].
      intros k. rewrite E, lookup_empty. by case_decide. }
  apply first_key_value_Some in E as [Hk Hmin].
  destruct (N.leb_spec k height) as [Hle|Hgt].
  2:{ exists l. split; [done|]. split; [|done|done|by destruct l]. intros k'. case_decide; [|done].
      destruct (nl_pending_rewards l !! k') as [v'|] eqn:E'; [|done].
      specialize (Hmin _ _ E'). unfold rle, rcmp, N_ord in Hmin.
      destruct (N.compare_spec k k'); [lia..|done]. }
  pose proof (owed_delete _ _ _ pk Hk) as Ho. cbn in Ho. case_decide; [|done].
  unfold locked_balance at 1; cbn. rewrite (Hl pk), default_nonzero, Ho.
  rewrite (proj2 (checked_sub_Some (a + owed (delete k (nl_pending_rewards l)) pk) a
    (owed (delete k (nl_pending_rewards l)) pk)) ltac:(lia)). cbn.
  set (lk := if owed (delete k (nl_pending_rewards l)) pk =? 0 then _ else _).
  assert (Hlk : forall x, lk !! x = nonzero (owed (delete k (nl_pending_rewards l)) x)).
  { intros x. unfold lk, nonzero. destruct (decide (x = pk)) as [->|Hx].
    - destruct (N.eqb_spec (owed (delete k (nl_pending_rewards l)) pk) 0);
        [by rewrite lookup_delete_eq|by rewrite lookup_insert_eq].
    - pose proof (owed_delete _ _ _ x Hk) as Hox. cbn in Hox. case_decide; [congruence|].
      transitivity (nl_locked_balances l !! x).
      + destruct (owed _ pk =? 0); [by rewrite lookup_delete_ne|by rewrite lookup_insert_ne].
      + rewrite (Hl x). unfold nonzero. by rewrite Hox. }
  destruct (IH (set_locked_balances (set_pending_rewards l (delete k (nl_pending_rewards l))) lk))
    as (l' & Hrun & [Hp Hlo Hle' Hfr]); [|exact Hlk|].
  { cbn. rewrite map_size_delete_Some by eauto. destruct (size _) eqn:Hs; [|lia].
    apply map_size_empty_inv in Hs. by rewrite Hs, lookup_empty in Hk. }
  exists l'. split; [exact Hrun|]. split; [|exact Hlo| |exact Hfr].
  - intros k'. rewrite Hp. cbn. case_decide; [done|]. apply lookup_delete_ne. naive_solver lia.
  - intros x. etransitivity; [apply Hle'|]. unfold locked_balance; cbn.
    rewrite Hlk, (Hl x), !default_nonzero.
    pose proof (owed_delete _ _ _ x Hk). lia.
Qed.

Lemma unlock_rewards_spec l height :
  locks_ok l -> exists l', unlock_rewards l height = Ok l' /\ unlocked l l' height.
Proof. apply unlock_loop_spec. lia. Qed.

(** The loop always has fuel left for its last test. *)
Lemma unlock_loop_fuel fuel l height :
  (size (nl_pending_rewards l) < fuel)%nat -> unlock_loop fuel l height <> Panic.
Proof.
  revert l. induction fuel as [|fuel IH]; intros l Hf; [lia|]. cbn [unlock_loop].
  destruct (first_key_value (nl_pending_rewards l)) as [[k [pk a]]|] eqn:E; [|done].
  destruct (k <=? height); [|done]. apply first_key_value_Some in E as [Hk _].
  destruct (checked_sub _ _); cbn; [|done]. apply IH. cbn.
  rewrite map_size_delete_Some by eauto. destruct (size _) eqn:Hs; [|lia].
  apply map_size_empty_inv in Hs. by rewrite Hs, lookup_empty in Hk.
Qed.

(** *** Transfers *)

(** The conditions under which a validated transfer can be applied. *)
Record transfer_fits (l : NativeLedger) (height : N) (f : NativeTransferFields) : Prop := {
  tf_live : height <= f_valid_before f;
  tf_nonce : f_nonce f = next_nonce l (f_from f);
  tf_debit : f_amount f + f_fee f <= u128_max;
  tf_locked : locked_balance l (f_from f) <= balance l (f_from f);
  tf_funds : f_amount f + f_fee f <= balance l (f_from f) - locked_balance l (f_from f);
  tf_next : f_nonce f + 1 <= u64_max
}.

Section Transfers.
Context {X : Externals} {P : PayloadSerde}.

Definition applied (l l' : NativeLedger) (f : NativeTransferFields) (reward_pk : option string) : Prop :=
  l' = set_next_nonces (set_balances l (transfer_map (nl_balances l) f reward_pk))
         (<[f_from f := f_nonce f + 1]> (nl_next_nonces l)).

Lemma debit_union l pk a :
  <[pk := balance l pk - a]> ∅ ∪ nl_balances l = debit_map (nl_balances l) pk a.
Proof. unfold debit_map, balance. by rewrite <- insert_union_l, (left_id_L ∅ (∪)). Qed.

Lemma prepare_transfer_Ok l height r e p :
  prepare_transfer l height r e = Ok p ->
  exists f, validate_native_transfer e (nl_network_id l) (nl_minimum_fee l) = Ok f /\
    transfer_fits l height f /\ pt_sender p = f_from f /\ applied l (commit_transfer l p) f r.
Proof.
  unfold prepare_transfer. intros Hp. run_inv Hp; breflect.
  all: match goal with H : checked_add u128_max _ _ = Some _ |- _ => apply checked_add_Some in H as [-> ?] end.
  all: match goal with H : spendable_balance _ _ = Ok _ |- _ => apply spendable_balance_Ok in H as [-> ?] end.
  all: match goal with H : checked_sub _ _ = Some _ |- _ => apply checked_sub_Some in H as [-> ?] end.
  all: match goal with H : checked_add u64_max _ _ = Some _ |- _ => apply checked_add_Some in H as [-> ?] end.
  all: match goal with H : stage_credit _ (<[_ := _]> ∅) _ _ = Ok _ |- _ =>
         apply stage_credit_Ok in H as (HA & _ & _) end.
  all: rewrite debit_union in HA; injection Hp as <-.
  all: eexists; split; [reflexivity|]; split; [by constructor|]; split; [done|].
  all: unfold applied, commit_transfer, transfer_map; cbn; rewrite fold_btree_insert; do 2 f_equal.
  2: exact HA.
  match goal with H : stage_credit _ _ _ _ = Ok _ |- _ => apply stage_credit_Ok in H as (HB & _ & _) end.
  by rewrite HB, HA.
Qed.

Lemma prepare_transfer_complete l height r e f :
  validate_native_transfer e (nl_network_id l) (nl_minimum_fee l) = Ok f ->
  transfer_fits l height f ->
  map_sum (nl_balances l) <= u128_max ->
  exists p, prepare_transfer l height r e = Ok p.
Proof.
  intros Hv [Hlive Hnonce Hdebit Hlock Hfunds Hnext] Hsum. unfold prepare_transfer. rewrite Hv. cbn.
  rewrite (proj2 (N.ltb_ge _ _) Hlive), Hnonce, N.eqb_refl. cbn.
  rewrite checked_add_ok by done. cbn.
  rewrite (proj2 (spendable_balance_Ok _ _ _) (conj eq_refl Hlock)). cbn.
  rewrite (proj2 (N.ltb_ge _ _) Hfunds). cbn.
  rewrite (checked_sub_ok (balance l (f_from f))) by lia. cbn.
  rewrite <- Hnonce, (checked_add_ok u64_max) by done. cbn.
  assert (Hd : map_sum (debit_map (nl_balances l) (f_from f) (f_amount f + f_fee f))
    + (f_amount f + f_fee f) = map_sum (nl_balances l)).
  { apply debit_map_sum. unfold balance in *. lia. }
  destruct (stage_credit l (<[f_from f := balance l (f_from f) - (f_amount f + f_fee f)]> ∅)
    (f_to f) (f_amount f)) as [b1|e1|] eqn:E1.
  2,3: exfalso.
  - cbn. destruct r as [rp|]; [|eauto].
    apply stage_credit_Ok in E1 as (H1 & _ & _). rewrite debit_union in H1.
    assert (exists b2, stage_credit l b1 rp (f_fee f) = Ok b2) as [b2 ->]; [|cbn; eauto].
    eexists. apply stage_credit_Ok. split; [|split; [reflexivity|]].
    + unfold credit_map. destruct (f_fee f =? 0); [done|]. by rewrite insert_union_l.
    + intros _. rewrite H1.
      pose proof (map_sum_lookup_le (credit_map (debit_map (nl_balances l) (f_from f)
        (f_amount f + f_fee f)) (f_to f) (f_amount f)) rp) as Hle.
      rewrite credit_map_sum in Hle. lia.
  - revert E1. unfold stage_credit. destruct (f_amount f =? 0); cbn; [done|].
    pose proof (map_sum_lookup_le (debit_map (nl_balances l) (f_from f) (f_amount f + f_fee f)) (f_to f)) as Hle.
    assert (default (balance l (f_to f)) ((<[f_from f := balance l (f_from f) - (f_amount f + f_fee f)]> ∅ : gmap string N) !! f_to f)
      = default 0 (debit_map (nl_balances l) (f_from f) (f_amount f + f_fee f) !! f_to f)) as ->.
    { unfold debit_map, balance. rewrite !lookup_insert. by case_decide. }
    unfold checked_add. destruct (N.leb_spec (default 0 (debit_map (nl_balances l) (f_from f) (f_amount f + f_fee f) !! f_to f) + f_amount f) u128_max); cbn; [done|lia].
  - revert E1. unfold stage_credit. destruct (f_amount f =? 0); cbn; [done|]. by destruct (checked_add _ _ _).
Qed.

Lemma validate_native_transfer_total e n m : validate_native_transfer e n m <> Panic.
Proof. unfold validate_native_transfer, decimal. total_tac. Qed.

Lemma prepare_transfer_total l height r e :
  (forall pk, locked_balance l pk <= balance l pk) -> prepare_transfer l height r e <> Panic.
Proof.
  intros Hl. unfold prepare_transfer, stage_credit.
  pose proof (validate_native_transfer_total e).
  assert (forall pk, spendable_balance (E:=NativeLedgerError) l pk <> Panic) as Hs.
  { intros pk E. unfold spendable_balance, sub_panic, expect in E.
    destruct (checked_sub _ _) eqn:Ec; [done|]. apply checked_sub_None in Ec. specialize (Hl pk). lia. }
  total_tac.
Qed.

End Transfers.

(** A transfer moves its amount and its fee and creates nothing. *)
Lemma transfer_map_sum b f r :
  f_amount f + f_fee f <= default 0 (b !! f_from f) ->
  map_sum (transfer_map b f r) + (if r then 0 else f_fee f) = map_sum b.
Proof.
  intros Hf. apply debit_map_sum in Hf. unfold transfer_map.
  destruct r; rewrite !credit_map_sum; lia.
Qed.

Lemma transfer_map_lookup b f r x :
  default 0 (transfer_map b f r !! x)
  = default 0 (b !! x) - (if decide (x = f_from f) then f_amount f + f_fee f else 0)
    + (if decide (x = f_to f) then f_amount f else 0)
    + (if decide (r = Some x) then f_fee f else 0).
Proof.
  unfold transfer_map. destruct r as [rp|].
  - rewrite !credit_map_lookup, debit_map_lookup. repeat case_decide; naive_solver.
  - rewrite !credit_map_lookup, debit_map_lookup. repeat case_decide; naive_solver lia.
Qed.

(** *** Preservation of the invariant *)

Lemma applied_core_ok l l' height f r :
  core_ok l -> transfer_fits l height f -> applied l l' f (Some r) -> core_ok l'.
Proof.
  intros [? ? ? ? Hc Hlk Hle Hn] [? ? ? ? Hfunds ?] ->.
  split; cbn; try done.
  - pose proof (transfer_map_sum (nl_balances l) f (Some r) ltac:(unfold balance in *; lia)) as Hs.
    cbn in Hs. lia.
  - intros pk. unfold balance, locked_balance in *; cbn.
    rewrite transfer_map_lookup. specialize (Hle pk). case_decide; subst; lia.
  - intros pk. unfold next_nonce; cbn. rewrite lookup_insert. case_decide; cbn; [done|apply Hn].
Qed.

Lemma unlocked_core_ok l l' height : core_ok l -> unlocked l l' height -> core_ok l'.
Proof.
  intros [? ? ? ? Hc Hlk Hle Hn] [Hp Hlo Hle' Hfr].
  destruct l' as [? ? ? ? ? ? ? ? lk' p']; cbn in Hfr; injection Hfr; intros; subst.
  split; cbn; try done.
  intros pk. specialize (Hle' pk). specialize (Hle pk). unfold balance in *; cbn in *. lia.
Qed.

Lemma unlocked_pending_ok l l' lo hi height :
  pending_ok lo hi l -> unlocked l l' height -> pending_ok height hi l'.
Proof.
  intros Hl [Hp _ _ Hfr] k pk a Hk. rewrite Hp in Hk. case_decide; [done|].
  apply Hl in Hk as (? & ? & ? & ? & ?).
  assert (nl_reward_maturity l' = nl_reward_maturity l) as -> by (by rewrite Hfr). lia.
Qed.

(** The emission is within what the schedule has left. *)
Lemma emission_Ok s height issued :
  es_halving_epoch s <> 0 -> issued <= es_total_supply s ->
  exists em, emission s height issued = Ok em /\ issued + em <= es_total_supply s.
Proof.
  intros He Hi. unfold emission. apply N.eqb_neq in He as ->.
  rewrite checked_sub_ok by done. cbn. eexists; split; [done|]. lia.
Qed.

(** *** The block reward *)

(** The ledger after the reward [em] of a block at [height]. *)
Definition rewarded (l : NativeLedger) (height : N) (pk : string) (em : N) : NativeLedger :=
  let lock := negb (em =? 0) && negb (nl_reward_maturity l =? 0) in
  mkLedger (nl_network_id l) (nl_schedule l) height (nl_issued l + em)
    (credit_map (nl_balances l) pk em) (nl_next_nonces l) (nl_minimum_fee l) (nl_reward_maturity l)
    (if lock then <[pk := locked_balance l pk + em]> (nl_locked_balances l)
     else nl_locked_balances l)
    (if lock then <[height + nl_reward_maturity l := (pk, em)]> (nl_pending_rewards l)
     else nl_pending_rewards l).

(** The reward can be locked: it needs no lock, or its unlock height fits. *)
Definition lockable (l : NativeLedger) (height em : N) : Prop :=
  em = 0 \/ nl_reward_maturity l = 0 \/ height + nl_reward_maturity l <= u64_max.

Lemma apply_reward_Ok l u height pk l' u' :
  apply_reward l u height pk = Ok (l', u') ->
  exists em, emission (nl_schedule l) height (nl_issued l) = Ok em /\
    lockable l height em /\ l' = rewarded l height pk em.
Proof.
  unfold apply_reward, rewarded, lockable. intros H. run_inv H.
  all: injection H as <- _.
  all: match goal with H : credit _ _ _ = Ok _ |- _ => apply credit_Ok in H as [-> _] end.
  all: repeat match goal with H : checked_add _ _ _ = Some _ |- _ => apply checked_add_Some in H as [-> ?] end.
  all: eexists; split; [reflexivity|].
  all: cbn in *; match goal with H : _ && _ = _ |- _ => rewrite H; rename H into Hb end.
  - split; [auto|done].
  - split; [|done]. apply andb_false_iff in Hb as [Hb|Hb]; breflect; auto.
Qed.

Lemma apply_reward_complete l u height pk em :
  core_ok l -> emission (nl_schedule l) height (nl_issued l) = Ok em -> lockable l height em ->
  exists u', apply_reward l u height pk = Ok (rewarded l height pk em, u').
Proof.
  intros [Hs He _ Hi Hc _ Hle _] Hem Hlk. unfold apply_reward.
  destruct (emission_Ok _ height _ He Hi) as (em' & Hem' & Hmax).
  assert (em' = em) as -> by congruence. rewrite Hem; cbn.
  assert (Hb : balance l pk + em <= u128_max).
  { pose proof (map_sum_lookup_le (nl_balances l) pk). unfold balance. lia. }
  rewrite (proj2 (credit_Ok l pk em _) (conj eq_refl (fun _ => Hb))); cbn.
  specialize (Hle pk). unfold rewarded.
  destruct (negb (em =? 0) && negb (nl_reward_maturity l =? 0)) eqn:Eb; cbn.
  - breflect. destruct Hlk as [?|[?|Hh]]; [done|done|].
    rewrite checked_add_ok by done; cbn.
    change (locked_balance (set_balances _ _) pk) with (locked_balance l pk).
    rewrite (checked_add_ok u128_max (locked_balance l pk) em) by lia; cbn.
    rewrite (checked_add_ok u128_max (nl_issued l) em) by lia; cbn. eauto.
  - rewrite (checked_add_ok u128_max (nl_issued l) em) by lia; cbn. eauto.
Qed.

Lemma rewarded_ok l height pk em :
  core_ok l -> height = nl_height l + 1 -> height <= u64_max ->
  pending_ok height (nl_height l) l ->
  emission (nl_schedule l) height (nl_issued l) = Ok em -> lockable l height em ->
  ledger_ok (rewarded l height pk em).
Proof.
  intros [Hs He Hh Hi Hc Hlk Hle Hn] -> Hmax Hp Hem Hlock.
  destruct (emission_Ok _ (nl_height l + 1) _ He Hi) as (em' & Hem' & Hcap).
  assert (em' = em) as -> by congruence. unfold rewarded.
  destruct (negb (em =? 0) && negb (nl_reward_maturity l =? 0)) eqn:Eb.
  - breflect. destruct Hlock as [?|[?|Hu]]; [done|done|].
    assert (Hfresh : nl_pending_rewards l !! (nl_height l + 1 + nl_reward_maturity l) = None).
    { destruct (nl_pending_rewards l !! _) as [[pk' a']|] eqn:E; [|done]. apply Hp in E. lia. }
    split; [split; cbn; try done|].
    + rewrite credit_map_sum. lia.
    + intros x. rewrite owed_insert by done; cbn. rewrite lookup_insert.
      unfold locked_balance. rewrite !Hlk, default_nonzero. repeat case_decide; subst; try done.
      unfold nonzero. destruct (N.eqb_spec (em + owed (nl_pending_rewards l) x) 0); [lia|]. f_equal; lia.
    + intros x. unfold balance, locked_balance in *; cbn. rewrite credit_map_lookup, lookup_insert.
      specialize (Hle x). repeat case_decide; subst; cbn; try done; lia.
    + intros k pk' a'; cbn. rewrite lookup_insert. case_decide; [|intros Hk%Hp; lia].
      intros [= <- <-]. subst k. lia.
  - split; [split; cbn; try done|].
    + rewrite credit_map_sum. lia.
    + intros x. unfold balance, locked_balance in *; cbn. rewrite credit_map_lookup. specialize (Hle x). lia.
    + intros k pk' a' Hk%Hp; cbn. lia.
Qed.

(** *** Blocks *)

(** [l'] differs from [l] in balances and nonces only. *)
Definition moved (l l' : NativeLedger) : Prop :=
  l' = set_next_nonces (set_balances l (nl_balances l')) (nl_next_nonces l').

Lemma moved_trans l1 l2 l3 : moved l1 l2 -> moved l2 l3 -> moved l1 l3.
Proof. unfold moved. intros -> ->. done. Qed.

Lemma moved_refl l : moved l l.
Proof. by destruct l. Qed.

Lemma applied_moved l l' f r : applied l l' f r -> moved l l'.
Proof. unfold applied, moved. by intros ->. Qed.

Section Blocks.
Context {X : Externals} {P : PayloadSerde}.

(** The transfers of a block, one after the other. *)
Inductive transfers_run (height : N) (r : string)
    : NativeLedger -> list SignedEnvelope -> NativeLedger -> Prop :=
| run_nil l : transfers_run height r l [] l
| run_cons l e f l1 ts l2 :
    validate_native_transfer e (nl_network_id l) (nl_minimum_fee l) = Ok f ->
    transfer_fits l height f -> applied l l1 f (Some r) ->
    transfers_run height r l1 ts l2 ->
    transfers_run height r l (e :: ts) l2.

Lemma apply_transfers_run height r ts l u l' u' :
  ofold (apply_transfer height r) (l, u) ts = Ok (l', u') -> transfers_run height r l ts l'.
Proof.
  revert l u. induction ts as [|e ts IH]; intros l u; cbn [ofold].
  { intros [= <- <-]. constructor. }
  unfold apply_transfer at 1.
  destruct (prepare_transfer l height (Some r) e) as [p| |] eqn:Ep; cbn [obind]; try done.
  intros Hrun. apply prepare_transfer_Ok in Ep as (f & Hv & Hf & _ & Ha).
  econstructor; eauto.
Qed.

Lemma transfers_run_moved height r l ts l' : transfers_run height r l ts l' -> moved l l'.
Proof. induction 1; [apply moved_refl|]. eauto using moved_trans, applied_moved. Qed.

Lemma transfers_run_core_ok height r l ts l' :
  transfers_run height r l ts l' -> core_ok l -> core_ok l'.
Proof. induction 1; eauto using applied_core_ok. Qed.

(** A run of the specification is a run of the code. *)
Lemma transfers_run_complete height r l ts l' u :
  transfers_run height r l ts l' -> core_ok l ->
  exists u', ofold (apply_transfer height r) (l, u) ts = Ok (l', u').
Proof.
  intros Hrun. revert u. induction Hrun as [l|l e f l1 ts l2 Hv Hf Ha Hrun IH]; intros u Hok; [by eexists|].
  cbn [ofold]. unfold apply_transfer at 1.
  destruct (prepare_transfer_complete l height (Some r) e f Hv Hf) as [p Hp].
  { destruct Hok. lia. }
  rewrite Hp. cbn [obind].
  apply prepare_transfer_Ok in Hp as (f' & Hv' & _ & _ & Ha').
  assert (f' = f) as -> by congruence.
  assert (commit_transfer l p = l1) as -> by (unfold applied in *; congruence).
  apply IH. eauto using applied_core_ok.
Qed.

(** What a block does, as the sequence unlock, transfers, reward. *)
Record block_applied (l : NativeLedger) (height : N) (pk : string) (ts : list SignedEnvelope)
    (l' : NativeLedger) : Prop := mkBlockApplied {
  ba_height : height = nl_height l + 1;
  ba_height_max : height <= u64_max;
  ba_key : is_hex32_text pk = true;
  ba_run : exists l1 l2 em, unlock_rewards l height = Ok l1 /\
    transfers_run height pk l1 ts l2 /\
    emission (nl_schedule l2) height (nl_issued l2) = Ok em /\
    lockable l2 height em /\ l' = rewarded l2 height pk em
}.

Lemma apply_block_inner_Ok l height pk ts u l' u' :
  apply_block_inner l height pk ts u = Ok (l', u') -> block_applied l height pk ts l'.
Proof.
  unfold apply_block_inner. intros H. run_inv H. breflect. subst.
  match goal with H : checked_add _ _ _ = Some _ |- _ => apply checked_add_Some in H as [-> ?] end.
  match goal with H : apply_reward _ _ _ _ = _ |- _ => apply apply_reward_Ok in H as (em & ? & ? & ->) end.
  match goal with H : ofold _ _ _ = _ |- _ => apply apply_transfers_run in H end.
  split; [done|done| |eauto 10].
  unfold is_hex32_text. by match goal with H : hex32_from_hex _ = Ok _ |- _ => rewrite H end.
Qed.

Lemma apply_block_Ok l height pk ts l' :
  apply_block l height pk ts = Ok l' -> block_applied l height pk ts l'.
Proof.
  unfold apply_block, prepare_block. intros H. run_inv H. injection H as <-.
  eauto using apply_block_inner_Ok.
Qed.

(** The block's parts under the invariant. *)
Lemma block_applied_inv l height pk ts l' :
  ledger_ok l -> block_applied l height pk ts l' ->
  exists l1 l2 em, unlock_rewards l height = Ok l1 /\ unlocked l l1 height /\
    transfers_run height pk l1 ts l2 /\ core_ok l1 /\ core_ok l2 /\
    nl_height l2 = nl_height l /\ nl_schedule l2 = nl_schedule l /\ nl_issued l2 = nl_issued l /\
    nl_reward_maturity l2 = nl_reward_maturity l /\ nl_locked_balances l2 = nl_locked_balances l1 /\
    nl_pending_rewards l2 = nl_pending_rewards l1 /\ pending_ok height (nl_height l) l2 /\
    emission (nl_schedule l2) height (nl_issued l2) = Ok em /\
    lockable l2 height em /\ l' = rewarded l2 height pk em.
Proof.
  intros [Hc Hp] [Hh Hmax Hk (l1 & l2 & em & Hu & Hts & Hem & Hlk & ->)].
  destruct (unlock_rewards_spec l height (ok_locks _ Hc)) as (l1' & Hu' & Hul).
  assert (l1' = l1) as -> by congruence.
  pose proof (transfers_run_moved _ _ _ _ _ Hts) as Hm.
  pose proof (unlocked_core_ok _ _ _ Hc Hul) as Hc1.
  pose proof (transfers_run_core_ok _ _ _ _ _ Hts Hc1) as Hc2.
  pose proof (unlocked_pending_ok _ _ _ _ _ Hp Hul) as Hp1.
  exists l1, l2, em.
  pose proof (ul_frame _ _ _ Hul) as Hfr.
  split_and!; try done; try (by rewrite Hm); try (by rewrite Hm; cbn; rewrite Hfr).
Qed.

Lemma block_applied_ok l height pk ts l' :
  ledger_ok l -> block_applied l height pk ts l' -> ledger_ok l'.
Proof.
  intros Hok Hb. pose proof Hb as [-> Hmax _ _].
  apply block_applied_inv in Hb as (l1 & l2 & em & _ & _ & _ & _ & Hc2 & Hh & _ & _ & _ & _ & _ & Hp & Hem & Hlk & ->); [|done].
  apply rewarded_ok; rewrite ?Hh; done.
Qed.

(** What a block leaves alone, and how it moves height and issuance. *)
Lemma block_applied_frame l height pk ts l' :
  ledger_ok l -> block_applied l height pk ts l' ->
  nl_schedule l' = nl_schedule l /\ nl_reward_maturity l' = nl_reward_maturity l /\
  nl_height l' = height /\
  exists em, emission (nl_schedule l) height (nl_issued l) = Ok em /\ nl_issued l' = nl_issued l + em.
Proof.
  intros Hok (l1 & l2 & em & _ & _ & _ & _ & _ & _ & Hs & Hi & Hm & _ & _ & _ & Hem & _ & ->)%block_applied_inv; [|done].
  rewrite Hs, Hi in Hem. cbn. split_and!; [done..|]. exists em. by rewrite Hi.
Qed.

(** Every run of the specification is taken by the code. *)
Lemma block_applied_complete l height pk ts l' :
  ledger_ok l -> block_applied l height pk ts l' -> apply_block l height pk ts = Ok l'.
Proof.
  intros Hok Hb. pose proof Hb as [Hh Hmax Hk _].
  apply block_applied_inv in Hb as (l1 & l2 & em & Hu & _ & Hts & Hc1 & Hc2 & _ & _ & _ & _ & _ & _ & _ & Hem & Hlk & ->); [|done].
  unfold apply_block, prepare_block, apply_block_inner.
  rewrite checked_add_ok by lia; cbn [ok_or obind]. rewrite Hh, N.eqb_refl. cbn [ensure obind].
  unfold is_hex32_text in Hk. destruct (hex32_from_hex pk) as [?| |]; try done. cbn [map_err obind].
  rewrite <- Hh, Hu; cbn [obind].
  destruct (transfers_run_complete height pk l1 ts l2
    (fold_left (record_matured l) (matured l height) (undo_new l)) Hts Hc1) as [u2 ->]. cbn [obind].
  destruct (apply_reward_complete l2 u2 height pk em Hc2 Hem Hlk) as [u3 ->]. done.
Qed.

Lemma apply_block_total l height pk ts : ledger_ok l -> apply_block l height pk ts <> Panic.
Proof.
  intros [Hc Hp]. unfold apply_block, prepare_block, apply_block_inner.
  destruct (unlock_rewards_spec l height (ok_locks _ Hc)) as (l1 & Hu & Hul). rewrite Hu.
  pose proof (unlocked_core_ok _ _ _ Hc Hul) as Hc1.
  set (u1 := fold_left _ _ _).
  assert (Hloop : ofold (apply_transfer height pk) (l1, u1) ts <> Panic).
  { apply (ofold_no_panic (fun st => core_ok st.1)); [|done].
    intros [l2 u2] e _ Hc2; cbn in Hc2. unfold apply_transfer.
    pose proof (prepare_transfer_total l2 height (Some pk) e (ok_locked_le _ Hc2)) as Hpt.
    destruct (prepare_transfer l2 height (Some pk) e) as [p| |] eqn:Ep; cbn; [|done|done].
    split; [done|]. intros s [= <-]; cbn. apply prepare_transfer_Ok in Ep as (f & _ & Hf & _ & Ha).
    eauto using applied_core_ok. }
  assert (Hrew : forall l2 u2, core_ok l2 -> apply_reward l2 u2 height pk <> Panic).
  { intros l2 u2 Hc2. unfold apply_reward, credit.
    destruct (emission_Ok _ height _ (ok_epoch _ Hc2) (ok_issued _ Hc2)) as (em & -> & _). total_tac. }
  apply total_bind; [|by intros [? ?]].
  total_tac. apply Hrew. eapply transfers_run_core_ok; [|exact Hc1].
  subst. eapply apply_transfers_run; eassumption.
Qed.

End Blocks.
