(* ===== verification/NativeUndo.v ===== *)
(** * Undoing a block of the native ledger

    [prepare_block] of native_ledger.rs records the old value of every entry
    before it is first overwritten; [undo_block] writes the recorded values
    back. The invariant [tracks] relates the ledger before the block, the
    ledger during it and the record; it holds through every step, and where it
    holds restoring gives the old ledger. *)

From S2P Require Import Prelude Json Externals Hash SignedEnvelope NativeLedger NativeLedgerFacts.

(** [old] holds the original value of every entry in which [m] differs from
    [m0]. *)
Definition covers {K V} `{Countable K} (old : gmap K (option V)) (m0 m : gmap K V) : Prop :=
  forall k, match old !! k with Some v => v = m0 !! k | None => m !! k = m0 !! k end.

Record tracks (u : NativeLedgerUndo) (l0 l : NativeLedger) : Prop := {
  tr_height : un_height u = nl_height l0;
  tr_issued : un_issued u = nl_issued l0;
  tr_network : nl_network_id l = nl_network_id l0;
  tr_schedule : nl_schedule l = nl_schedule l0;
  tr_fee : nl_minimum_fee l = nl_minimum_fee l0;
  tr_maturity : nl_reward_maturity l = nl_reward_maturity l0;
  tr_balances : covers (un_balances u) (nl_balances l0) (nl_balances l);
  tr_nonces : covers (un_next_nonces u) (nl_next_nonces l0) (nl_next_nonces l);
  tr_locked : covers (un_locked_balances u) (nl_locked_balances l0) (nl_locked_balances l);
  tr_pending : covers (un_pending_rewards u) (nl_pending_rewards l0) (nl_pending_rewards l)
}.

Section Covers.
Context {K V : Type} `{Countable K}.
Implicit Types (old : gmap K (option V)) (m : gmap K V).

Lemma covers_empty m : covers ∅ m m.
Proof. intros k. by rewrite lookup_empty. Qed.

Lemma covers_or_insert old m0 m k : covers old m0 m -> covers (or_insert old k (m !! k)) m0 m.
Proof.
  intros Hc k'. specialize (Hc k') as Hk'. unfold or_insert.
  destruct (old !! k) as [v|] eqn:E; [done|].
  rewrite lookup_insert. case_decide; [|done]. subst. by rewrite E in Hk'.
Qed.

Lemma covers_insert old m0 m k : covers old m0 m -> covers (<[k := m0 !! k]> old) m0 m.
Proof. intros Hc k'. rewrite lookup_insert. case_decide; [by subst|apply Hc]. Qed.

Lemma covers_change old m0 m m' :
  covers old m0 m -> (forall k, old !! k = None -> m' !! k = m !! k) -> covers old m0 m'.
Proof.
  intros Hc Hm k. specialize (Hc k). specialize (Hm k).
  destruct (old !! k); [done|]. by rewrite Hm.
Qed.

Lemma or_insert_dom old k v k' :
  or_insert old k v !! k' = None <-> k' <> k /\ old !! k' = None.
Proof.
  unfold or_insert. destruct (old !! k) eqn:E.
  - split; [intros Hn; split; congruence|tauto].
  - rewrite lookup_insert. case_decide; subst; naive_solver.
Qed.

Lemma restore_lookup `{!RustOrd K} (l : list (K * option V)) m k :
  NoDup l.*1 ->
  fold_left (fun m '(key, value) =>
    match value with Some value => <[key := value]> m | None => delete key m end) l m !! k
  = match (list_to_map l : gmap K (option V)) !! k with Some v => v | None => m !! k end.
Proof.
  revert m. induction l as [|[k' v'] l IH]; intros m Hnd; cbn; [by rewrite lookup_empty|].
  apply NoDup_cons in Hnd as [Hk' Hnd]. rewrite IH by done.
  destruct (decide (k' = k)) as [->|Hne].
  - rewrite lookup_insert_eq, (proj1 (not_elem_of_list_to_map l k)) by done.
    destruct v'; [apply lookup_insert_eq|apply lookup_delete_eq].
  - rewrite lookup_insert_ne by done. destruct (_ !! k); [done|].
    destruct v'; [by rewrite lookup_insert_ne|by rewrite lookup_delete_ne].
Qed.

Lemma restore_covers `{!RustOrd K} old m0 m : covers old m0 m -> restore_entries m old = m0.
Proof.
  intros Hc. apply map_eq. intros k. unfold restore_entries.
  rewrite restore_lookup by apply btree_iter_nodup_keys. rewrite btree_list_to_map.
  specialize (Hc k). by destruct (old !! k).
Qed.

End Covers.

#[export] Hint Resolve covers_empty covers_or_insert covers_insert : boole.

Lemma tracks_undo u l0 l :
  tracks u l0 l -> nl_height l0 + 1 <= u64_max -> nl_height l = nl_height l0 + 1 ->
  undo_block l u = Ok l0.
Proof.
  intros [Hh Hi ? ? ? ? Hb Hn Hl Hp] Hmax Heq. unfold undo_block.
  rewrite Hh, checked_add_ok by done. cbn [ok_or obind]. rewrite Heq, N.eqb_refl. cbn [ensure obind].
  unfold set_height_issued, set_pending_rewards, set_locked_balances, set_next_nonces, set_balances. cbn.
  rewrite (restore_covers _ _ _ Hb), (restore_covers _ _ _ Hn), (restore_covers _ _ _ Hl),
    (restore_covers _ _ _ Hp). destruct l0; cbn in *; congruence.
Qed.

(** ** Recording keeps the record exact *)

Lemma tracks_new l : tracks (undo_new l) l l.
Proof. split; cbn; auto with boole. Qed.

Lemma tracks_undo_balance u l0 l pk : tracks u l0 l -> tracks (undo_balance u l pk) l0 l.
Proof. intros []; split; cbn; auto with boole. Qed.

Lemma tracks_undo_balances pks u l0 l :
  tracks u l0 l ->
  tracks (fold_left (fun u pk => undo_balance u l pk) pks u) l0 l /\
  forall pk, un_balances (fold_left (fun u pk => undo_balance u l pk) pks u) !! pk = None ->
    pk ∉ pks.
Proof.
  assert (forall pks u pk, un_balances (fold_left (fun u pk => undo_balance u l pk) pks u) !! pk = None ->
    pk ∉ pks /\ un_balances u !! pk = None) as Hdom.
  { clear. intros pks. induction pks as [|k pks IH]; intros u pk; cbn; [set_solver|].
    intros [? Hn]%IH. cbn in Hn. apply or_insert_dom in Hn as [? ?]. set_solver. }
  intros Ht. split; [|intros pk Hn; apply (Hdom _ _ _ Hn)].
  clear Hdom. revert u Ht. induction pks as [|k pks IH]; intros u Ht; cbn; [done|].
  by apply IH, tracks_undo_balance.
Qed.

Lemma tracks_undo_next_nonce u l0 l pk : tracks u l0 l -> tracks (undo_next_nonce u l pk) l0 l.
Proof. intros []; split; cbn; auto with boole. Qed.

Lemma tracks_undo_locked u l0 l pk : tracks u l0 l -> tracks (undo_locked_balance u l pk) l0 l.
Proof. intros []; split; cbn; auto with boole. Qed.

Section Undo.
Context {X : Externals} {P : PayloadSerde}.

Lemma tracks_apply_transfer height r u l0 l e l' u' :
  tracks u l0 l -> apply_transfer height r (l, u) e = Ok (l', u') -> tracks u' l0 l'.
Proof.
  intros Ht H. unfold apply_transfer in H. run_inv H. injection H as <- <-.
  match goal with |- context [pt_balances ?p] => set (q := p) in * end.
  destruct (tracks_undo_balances (btree_iter (pt_balances q)).*1 u l0 l Ht) as [Ht1 Hdom].
  apply (tracks_undo_next_nonce _ _ _ (pt_sender q)) in Ht1.
  set (u1 := fold_left _ _ _) in *.
  destruct Ht1 as [? ? ? ? ? ? Hb Hn Hl Hp]. split; try done.
  - eapply covers_change; [exact Hb|]. intros pk Hpk.
    rewrite commit_transfer_balances, lookup_union_r; [done|].
    apply not_elem_of_dom. intros [v Hv]%elem_of_dom. apply (Hdom pk Hpk).
    apply list_elem_of_fmap. exists (pk, v). split; [done|]. by apply elem_of_btree_iter.
  - eapply covers_change; [exact Hn|]. cbn. intros pk Hpk.
    apply or_insert_dom in Hpk as [? _]. by rewrite lookup_insert_ne.
Qed.

Lemma tracks_transfers height r ts u l0 l l' u' :
  tracks u l0 l -> ofold (apply_transfer height r) (l, u) ts = Ok (l', u') -> tracks u' l0 l'.
Proof.
  intros Ht H.
  apply (ofold_inv (fun st => tracks st.2 l0 st.1) (apply_transfer height r) ts) in H; [done| |done].
  intros [l1 u1] e [l2 u2] _ Ht1 Hs. by eapply tracks_apply_transfer.
Qed.

Lemma tracks_credit u l0 l pk a l' :
  tracks u l0 l -> credit l pk a = Ok l' ->
  tracks (if negb (a =? 0) then undo_balance u l pk else u) l0 l'.
Proof.
  intros Ht [-> _]%credit_Ok. unfold credit_map.
  destruct (N.eqb_spec a 0) as [->|Ha]; cbn; [by destruct l|].
  apply (tracks_undo_balance _ _ _ pk) in Ht as []. split; try done; cbn.
  eapply covers_change; [done|]. cbn. intros x [? _]%or_insert_dom. by rewrite lookup_insert_ne.
Qed.

Lemma tracks_apply_reward height r u l0 l l' u' :
  tracks u l0 l -> apply_reward l u height r = Ok (l', u') -> tracks u' l0 l'.
Proof.
  intros Ht H. unfold apply_reward in H. run_inv H; injection H as <- <-.
  all: match goal with H : credit _ _ _ = Ok _ |- _ => apply (tracks_credit _ _ _ _ _ _ Ht) in H as Ht1 end.
  all: match goal with |- context [if ?b then ?x else ?y] => set (u1 := if b then x else y) in * end.
  - apply (tracks_undo_locked _ _ _ r) in Ht1 as []. split; try done; cbn.
    + eapply covers_change; [done|]. cbn. intros x [? _]%or_insert_dom. by rewrite lookup_insert_ne.
    + eapply covers_change; [by apply covers_or_insert|]. cbn.
      intros x [? _]%or_insert_dom. by rewrite lookup_insert_ne.
  - destruct Ht1. by split.
Qed.

(** Matured rewards: exactly their entries and their owners' locks change. *)
Lemma unlock_loop_changes fuel l height l' :
  unlock_loop fuel l height = Ok l' ->
  (forall k, nl_pending_rewards l' !! k = nl_pending_rewards l !! k \/
     exists e, k <= height /\ nl_pending_rewards l !! k = Some e) /\
  (forall pk, nl_locked_balances l' !! pk = nl_locked_balances l !! pk \/
     exists k a, k <= height /\ nl_pending_rewards l !! k = Some (pk, a)) /\
  l' = set_locked_balances (set_pending_rewards l (nl_pending_rewards l')) (nl_locked_balances l').
Proof.
  revert l. induction fuel as [|fuel IH]; intros l; cbn [unlock_loop]; [done|].
  destruct (first_key_value (nl_pending_rewards l)) as [[k [pk a]]|] eqn:E.
  2:{ intros [= <-]. split_and!; [by left..|by destruct l]. }
  destruct (N.leb_spec k height) as [Hle|Hgt].
  2:{ intros [= <-]. split_and!; [by left..|by destruct l]. }
  apply first_key_value_Some in E as [Hk _].
  destruct (checked_sub _ _) as [rem|]; cbn; [|done].
  intros (Hp & Hl & Hfr)%IH; cbn in *. split_and!; [| |exact Hfr].
  - intros k'. destruct (decide (k' = k)) as [->|Hne]; [eauto|].
    specialize (Hp k'). rewrite lookup_delete_ne in Hp by done. apply Hp.
  - intros pk'. destruct (decide (pk' = pk)) as [->|Hne]; [eauto|].
    destruct (Hl pk') as [->|(k' & a' & Hk' & Hl')].
    + left. case_match; [by rewrite lookup_delete_ne|by rewrite lookup_insert_ne].
    + right. exists k', a'. split; [done|]. by apply lookup_delete_Some in Hl' as [_ ?].
Qed.

Lemma tracks_matured l es u :
  (forall k e, (k, e) ∈ es -> nl_pending_rewards l !! k = Some e) ->
  tracks u l l ->
  tracks (fold_left (record_matured l) es u) l l /\
  (forall k, un_pending_rewards (fold_left (record_matured l) es u) !! k = None ->
     un_pending_rewards u !! k = None /\ forall e, (k, e) ∉ es) /\
  (forall pk, un_locked_balances (fold_left (record_matured l) es u) !! pk = None ->
     un_locked_balances u !! pk = None /\ forall k a, (k, (pk, a)) ∉ es).
Proof.
  revert u. induction es as [|[k0 [pk0 a0]] es IH]; intros u Hin Ht; cbn [fold_left].
  { split_and!; [done|..]; intros; split; [done|set_solver|done|set_solver]. }
  destruct (IH (record_matured l u (k0, (pk0, a0)))) as (Ht' & Hp & Hl).
  - intros k e He. apply Hin. by right.
  - cbn. apply (tracks_undo_locked _ _ _ pk0) in Ht as []. split; try done; cbn.
    rewrite <- (Hin k0 (pk0, a0)) by (by left). auto with boole.
  - split_and!; [done| |].
    + intros k (Hn & Hes)%Hp. cbn in Hn. apply lookup_insert_None in Hn as [? ?].
      split; [done|]. intros e [?|?]%elem_of_cons; [congruence|by apply (Hes e)].
    + intros pk (Hn & Hes)%Hl. cbn in Hn. apply or_insert_dom in Hn as [? ?].
      split; [done|]. intros k a [?|?]%elem_of_cons; [congruence|by apply (Hes k a)].
Qed.

Lemma matured_elem l height k e :
  (k, e) ∈ matured l height <-> k <= height /\ nl_pending_rewards l !! k = Some e.
Proof. unfold matured. rewrite list_elem_of_filter, elem_of_btree_iter. done. Qed.

Lemma tracks_unlock l height l1 :
  unlock_rewards l height = Ok l1 ->
  tracks (fold_left (record_matured l) (matured l height) (undo_new l)) l l1.
Proof.
  intros Hu. destruct (tracks_matured l (matured l height) (undo_new l)) as ([] & Hp & Hl).
  { intros k e [_ ?]%matured_elem. done. }
  { apply tracks_new. }
  apply unlock_loop_changes in Hu as (Hpc & Hlc & Hfr).
  set (u := fold_left _ _ _) in *.
  split; try done; try (by rewrite Hfr).
  - eapply covers_change; [done|]. intros pk (_ & Hno)%Hl.
    destruct (Hlc pk) as [?|(k & a & Hk)]; [done|]. exfalso. by apply (Hno k a), matured_elem.
  - eapply covers_change; [done|]. intros k (_ & Hno)%Hp.
    destruct (Hpc k) as [?|(e & Hk)]; [done|]. exfalso. by apply (Hno e), matured_elem.
Qed.

Lemma prepare_block_tracks l height pk ts l' u :
  prepare_block l height pk ts = Ok (l', u) -> tracks u l l'.
Proof.
  unfold prepare_block, apply_block_inner. intros H. run_inv H. subst.
  eapply tracks_apply_reward; [|done]. eapply tracks_transfers; [|done]. by apply tracks_unlock.
Qed.

End Undo.
