(* ===== verification/Concrete.v ===== *)
(** * A concrete instance of the third-party interface

    Functions that satisfy the laws of Externals.v, so that the theorems that
    assume them are seen to apply: real hexadecimal and number texts, an
    injective printer, and simple stand-ins for the hash functions and the
    signature scheme. Used by the witnesses alone; nothing here models code. *)

From Stdlib Require Import HexadecimalString HexadecimalN HexadecimalFacts.
From stdpp Require Import countable.
From S2P Require Import Prelude Json Externals Hash SignedEnvelope NativeLedger.

Open Scope N_scope.

(** ** Hexadecimal text *)

Definition nibble_char (n : N) : ascii :=
  if n <? 10 then ascii_of_N (48 + n) else ascii_of_N (87 + n).

Definition char_nibble (c : ascii) : option N :=
  let n := N_of_ascii c in
  if is_ascii_digit c then Some (n - 48)
  else if in_range 97 102 c then Some (n - 87)
  else if in_range 65 70 c then Some (n - 55)
  else None.

Fixpoint hex_enc (bs : list byte) : string :=
  match bs with
  | [] => EmptyString
  | b :: bs' => String (nibble_char (Byte.to_N b / 16))
                  (String (nibble_char (Byte.to_N b mod 16)) (hex_enc bs'))
  end.

Fixpoint hex_dec (s : string) : option (list byte) :=
  match s with
  | EmptyString => Some []
  | String c1 (String c2 s') =>
      match char_nibble c1, char_nibble c2, hex_dec s' with
      | Some a, Some b, Some l => Some (byte_of (16 * a + b) :: l)
      | _, _, _ => None
      end
  | _ => None
  end.

(** ** Hashing and signing stand-ins *)

Definition pad32 (bs : list byte) : list byte := firstn 32 (bs ++ replicate 32 x00).

Definition toy_public (seed : list byte) : list byte := pad32 (x03 :: seed).
Definition toy_sign (pk m : list byte) : list byte := pad32 pk ++ pad32 m.

(** ** An injective printer: every item carries its end *)

Fixpoint print_bits (p : positive) : list byte :=
  match p with xH => [x00] | xO p' => x01 :: print_bits p' | xI p' => x02 :: print_bits p' end.

Definition print_Z (z : Z) : list byte :=
  match z with Z0 => [x00] | Zpos p => x01 :: print_bits p | Zneg p => x02 :: print_bits p end.

Definition print_number (n : Number) : list byte :=
  match n with
  | PosInt n => x00 :: print_Z (Z.of_N n)
  | NegInt z => x01 :: print_Z z
  | Float b => x02 :: print_Z (Z.of_N b)
  end.

Fixpoint print_string (s : string) : list byte :=
  match s with
  | EmptyString => [x00]
  | String c s' => x01 :: byte_of_ascii c :: print_string s'
  end.

Fixpoint toy_print (v : Value) : list byte :=
  match v with
  | VNull => [x00]
  | VBool b => [if b then x01 else x02]
  | VNumber n => x03 :: print_number n
  | VString s => x04 :: print_string s
  | VArray l => x05 :: concat (map (fun v => x01 :: toy_print v) l) ++ [x00]
  | VObject m => x06 :: concat (map (fun '(k, v) => x01 :: print_string k ++ toy_print v) m) ++ [x00]
  end.

(** ** Number texts *)

Definition parse_hex (s : string) : option N :=
  if str_is_empty s then None else N.of_hex_uint <$> NilEmpty.uint_of_string s.

#[export] Instance concrete : Externals := {
  hex_encode := hex_enc;
  hex_decode := hex_dec;
  blake3 := fun b => pad32 (x00 :: x00 :: b);
  sha256 := fun b => pad32 b;
  verifying_key_ok := fun k => Nat.eqb (length k) 32;
  ed25519_verify := fun pk m s => bool_decide (s = toy_sign pk m);
  ed25519_verify_strict := fun pk m s => bool_decide (s = toy_sign pk m);
  signing_public := toy_public;
  ed25519_sign := fun seed m => toy_sign (toy_public seed) m;
  biguint_from_str := parse_digits;
  biguint_parse_hex := parse_hex;
  serde_to_vec := toy_print;
  number_to_string := fun n => match n with PosInt n => to_decimal n | _ => "-1" end
}.

(** ** The laws hold *)

Lemma pad32_length bs : length (pad32 bs) = 32%nat.
Proof. unfold pad32. rewrite length_firstn, length_app, length_replicate. lia. Qed.

Lemma hex_dec_enc bs : hex_dec (hex_enc bs) = Some bs.
Proof.
  induction bs as [|b bs IH]; [done|]. cbn [hex_enc hex_dec]. rewrite IH. by destruct b.
Qed.

Lemma hex_enc_lower bs : str_all is_lower_hex (hex_enc bs) = true.
Proof. induction bs as [|b bs IH]; [done|]. cbn [hex_enc str_all]. rewrite IH. by destruct b. Qed.

Lemma hex_enc_length bs : String.length (hex_enc bs) = (2 * length bs)%nat.
Proof. induction bs as [|b bs IH]; cbn [hex_enc String.length length]; lia. Qed.

Lemma lower_hex_pair c1 c2 :
  is_lower_hex c1 = true -> is_lower_hex c2 = true ->
  exists a b, char_nibble c1 = Some a /\ char_nibble c2 = Some b /\
    nibble_char (Byte.to_N (byte_of (16 * a + b)) / 16) = c1 /\
    nibble_char (Byte.to_N (byte_of (16 * a + b)) mod 16) = c2.
Proof.
  assert (forall c, is_lower_hex c = true -> exists n, n < 16 /\ char_nibble c = Some n /\ nibble_char n = c) as Hn.
  { intros c Hc. destruct c as [[] [] [] [] [] [] [] []]; vm_compute in Hc; try discriminate Hc;
      (eexists; split; [|split; reflexivity]; reflexivity). }
  intros (a & Ha & Ea & Ca)%Hn (b & Hb & Eb & Cb)%Hn. exists a, b.
  split_and!; [done|done| |]; unfold byte_of;
    rewrite (N.mod_small (16 * a + b)) by lia.
  all: destruct (Byte.of_N (16 * a + b)) as [x|] eqn:Ex;
    [|apply Byte.of_N_None_iff in Ex; lia].
  all: apply Byte.to_of_N in Ex; rewrite Ex, N.mul_comm.
  - rewrite N.div_add_l, N.div_small, N.add_0_r by lia. done.
  - rewrite N.add_comm, N.Div0.mod_add, N.mod_small by lia. done.
Qed.

Lemma hex_dec_lower s n :
  str_all is_lower_hex s = true -> String.length s = (2 * n)%nat ->
  exists b, hex_dec s = Some b /\ length b = n /\ hex_enc b = s.
Proof.
  revert s. induction n as [|n IH]; intros s Hs Hl.
  { destruct s; [by exists []|discriminate Hl]. }
  destruct s as [|c1 [|c2 s]]; cbn in Hl; try lia. cbn [str_all] in Hs. breflect.
  destruct (IH s) as (b & Hd & Hlb & He); [done|lia|].
  destruct (lower_hex_pair c1 c2) as (x & y & E1 & E2 & E3 & E4); [done..|].
  exists (byte_of (16 * x + y) :: b). cbn [hex_dec hex_enc length]. rewrite E1, E2, Hd, E3, E4, He. auto.
Qed.

(** No text is the beginning of another. *)
Lemma print_bits_prefix p : forall q r r',
  print_bits p ++ r = print_bits q ++ r' -> p = q /\ r = r'.
Proof.
  induction p as [p IH|p IH|]; intros [q|q|] r r' E; cbn in E; try discriminate E.
  - injection E as E. by destruct (IH _ _ _ E) as [-> ->].
  - injection E as E. by destruct (IH _ _ _ E) as [-> ->].
  - by injection E as ->.
Qed.

Lemma print_Z_prefix y z r r' : print_Z y ++ r = print_Z z ++ r' -> y = z /\ r = r'.
Proof.
  destruct y, z; cbn; intros E; try discriminate E; injection E as E; [by subst|..].
  all: by destruct (print_bits_prefix _ _ _ _ E) as [-> ->].
Qed.

Lemma print_number_prefix n m r r' : print_number n ++ r = print_number m ++ r' -> n = m /\ r = r'.
Proof.
  destruct n, m; cbn; intros E; try discriminate E; injection E as E;
    destruct (print_Z_prefix _ _ _ _ E) as [E1 ->].
  - by apply N2Z.inj in E1 as ->.
  - by subst.
  - by apply N2Z.inj in E1 as ->.
Qed.

Lemma print_string_prefix s : forall t r r',
  print_string s ++ r = print_string t ++ r' -> s = t /\ r = r'.
Proof.
  induction s as [|c s IH]; intros [|d t] r r' E; cbn in E; try discriminate E.
  - by injection E as ->.
  - injection E as E1 E. apply (f_equal ascii_of_byte) in E1. rewrite !ascii_of_byte_of_ascii in E1.
    by destruct (IH _ _ _ E) as [-> ->]; subst.
Qed.

Lemma toy_print_prefix v : forall w r r', toy_print v ++ r = toy_print w ++ r' -> v = w /\ r = r'.
Proof.
  induction v as [|b|n|s|l IH|m IH] using value_nested_ind; intros w r r' E;
    destruct w as [|b'|n'|s'|k|k]; cbn in E; try destruct b; try destruct b'; try discriminate E;
    injection E as E; try (by subst).
  - by destruct (print_number_prefix _ _ _ _ E) as [-> ->].
  - by destruct (print_string_prefix _ _ _ _ E) as [-> ->].
  - assert (l = k /\ r = r') as [-> ->]; [|done]. rewrite <- !app_assoc in E. cbn in E. revert k E.
    induction IH as [|x l Hx _ IHl]; intros [|y k] E; cbn in E; try discriminate E.
    + by injection E as ->.
    + rewrite <- !app_assoc in E. injection E as E.
      destruct (Hx _ _ _ E) as [-> E']. by destruct (IHl _ E') as [-> ->].
  - assert (m = k /\ r = r') as [-> ->]; [|done]. rewrite <- !app_assoc in E. cbn in E. revert k E.
    induction IH as [|[k1 x] m Hx _ IHm]; intros [|[k2 y] k] E; cbn in E; try discriminate E.
    + by injection E as ->.
    + rewrite <- !app_assoc in E. injection E as E.
      destruct (print_string_prefix _ _ _ _ E) as [-> E'].
      cbn in Hx. destruct (Hx _ _ _ E') as [-> E'']. by destruct (IHm _ E'') as [-> ->].
Qed.

(** Leading zeros do not change the value of a numeral. *)
Lemma parse_hex_zeros k s u :
  NilEmpty.uint_of_string s = Some u -> str_is_empty s = false ->
  parse_hex (repeat_char "0" k +:+ s) = Some (N.of_hex_uint u).
Proof.
  intros Hs Hne. unfold parse_hex.
  assert (str_is_empty (repeat_char "0" k +:+ s) = false) as -> by (by destruct k).
  assert (exists v, NilEmpty.uint_of_string (repeat_char "0" k +:+ s) = Some v /\
    N.of_hex_uint v = N.of_hex_uint u) as (v & -> & <-); [|done].
  clear Hne. induction k as [|k (v & IH & E)]; [by exists u|].
  change (repeat_char "0" (S k) +:+ s) with (String "0" (repeat_char "0" k +:+ s)).
  cbn [NilEmpty.uint_of_string]. rewrite IH. by eexists.
Qed.

Lemma lower_hex_uint n :
  NilEmpty.uint_of_string (lower_hex n) = Some (N.to_hex_uint n) /\ str_is_empty (lower_hex n) = false.
Proof.
  unfold lower_hex, NilZero.string_of_uint.
  assert (N.to_hex_uint n <> Hexadecimal.Nil) as Hn.
  { intros E. pose proof (HexadecimalN.Unsigned.of_to n) as Hn. rewrite E in Hn. cbn in Hn.
    subst n. discriminate E. }
  destruct (N.to_hex_uint n) eqn:E; try done; (split; [apply NilEmpty.usu|done]).
Qed.

#[export] Instance concrete_laws : ExternalsLaws concrete.
Proof.
  split.
  - exact hex_dec_enc.
  - exact hex_enc_lower.
  - exact hex_enc_length.
  - exact hex_dec_lower.
  - intros b. apply (pad32_length (x00 :: x00 :: b)).
  - exact pad32_length.
  - intros seed. split; [apply pad32_length|]. apply Nat.eqb_eq, pad32_length.
  - intros seed m. unfold ed25519_sign, concrete, toy_sign. by rewrite length_app, !pad32_length.
  - intros seed m. split; by apply bool_decide_eq_true_2.
  - exact parse_digits_to_decimal.
  - intros n. unfold hex064, pad_zeros; cbn [biguint_parse_hex concrete]. destruct (lower_hex_uint n) as [Hu Hne].
    rewrite (parse_hex_zeros _ _ _ Hu Hne). by rewrite HexadecimalN.Unsigned.of_to.
  - done.
  - intros v w _ _ E. apply (f_equal (fun l => l ++ [])) in E.
    by destruct (toy_print_prefix _ _ _ _ E).
Qed.

(** ** The derived conversions of a transfer payload *)

Definition payload_of_value (v : Value) : option NativeTransferPayload :=
  match v with
  | VObject [("schema", VString s); ("from", VString f); ("to", VString t); ("amount", VString a);
             ("fee", VString e); ("nonce", VString n); ("validBefore", VString b)] =>
      Some (mkPayload s f t a e n b)
  | _ => None
  end.

Definition value_of_payload (p : NativeTransferPayload) : Value :=
  VObject [("schema", VString (p_schema p)); ("from", VString (p_from p)); ("to", VString (p_to p));
           ("amount", VString (p_amount p)); ("fee", VString (p_fee p));
           ("nonce", VString (p_nonce p)); ("validBefore", VString (p_valid_before p))].

#[export] Instance concrete_payload : PayloadSerde := {
  payload_from_value := payload_of_value;
  payload_to_value := value_of_payload
}.
