(* ===== verification/NativeLedgerTheorems.v ===== *)
(** * Correctness of the native ledger

    The properties of NativeLedger.v: the invariant and freedom from aborts of
    the block transition, conservation and the supply cap over every reachable
    ledger, exact undo, the audit, replay protection, reward maturity, the
    pending view, and the effect of a block on every account. *)

From S2P Require Import Prelude Json Externals Hash SignedEnvelope NativeLedger.
From S2P Require Import NativeLedgerFacts NativeUndo Concrete.

Section Chain.
Context {X : Externals} {P : PayloadSerde}.

(** Ledgers reached by applying blocks. *)
Inductive ledger_steps : NativeLedger -> NativeLedger -> Prop :=
| steps_refl l : ledger_steps l l
| steps_block l h pk ts l1 l2 :
    apply_block l h pk ts = Ok l1 -> ledger_steps l1 l2 -> ledger_steps l l2.

(** A ledger made by the constructors from values of their types. *)
Definition genesis_ledger (l : NativeLedger) : Prop :=
  exists network total reward epoch fee maturity s,
    total <= u128_max /\ schedule_new total reward epoch = Ok s /\
    new_with_rules network s fee maturity = Ok l.

Definition reachable (l : NativeLedger) : Prop :=
  exists g, genesis_ledger g /\ ledger_steps g l.

(** The ledger's books agree: what [audit] is to decide. *)
Record consistent (l : NativeLedger) : Prop := {
  cs_total : map_sum (nl_balances l) = nl_issued l;
  cs_width : nl_issued l <= u128_max;
  cs_cap : nl_issued l <= es_total_supply (nl_schedule l);
  cs_pending : forall k pk a, nl_pending_rewards l !! k = Some (pk, a) ->
    nl_height l < k /\ a <> 0 /\ nl_reward_maturity l < k /\ k <= nl_height l + nl_reward_maturity l;
  cs_locks : forall pk, nl_locked_balances l !! pk = nonzero (owed (nl_pending_rewards l) pk);
  cs_backed : forall pk, locked_balance l pk <= balance l pk
}.

(** The fields of a block's transfers, and their effect on one account. *)
Definition fields_of (l : NativeLedger) (ts : list SignedEnvelope) (fs : list NativeTransferFields)
    : Prop :=
  Forall2 (fun e f => validate_native_transfer e (nl_network_id l) (nl_minimum_fee l) = Ok f) ts fs.

Definition total_of {A} (g : A -> N) (l : list A) : N := fold_right (fun a n => g a + n) 0 l.
Definition debits (x : string) : list NativeTransferFields -> N :=
  total_of (fun f => if decide (x = f_from f) then f_amount f + f_fee f else 0).
Definition credits (x : string) : list NativeTransferFields -> N :=
  total_of (fun f => if decide (x = f_to f) then f_amount f else 0).
Definition fees : list NativeTransferFields -> N := total_of f_fee.

(** What a list of pending rewards owes an account. *)
Definition owed_list (es : list (N * (string * N))) (pk : string) : N :=
  total_of (fun e => if decide (e.2.1 = pk) then e.2.2 else 0) es.

(** The audit's test of a pending reward. *)
Definition entry_ok (l : NativeLedger) (e : N * (string * N)) : Prop :=
  nl_height l < e.1 /\ e.2.2 <> 0 /\ nl_reward_maturity l < e.1 /\
  e.1 <= nl_height l + nl_reward_maturity l.

(** A ledger of the block's transition next to the view's: the view lacks the
    fees, which go to a producer it does not know. *)
Record simulates (lb lv : NativeLedger) : Prop := {
  sm_network : nl_network_id lb = nl_network_id lv;
  sm_fee : nl_minimum_fee lb = nl_minimum_fee lv;
  sm_nonces : nl_next_nonces lb = nl_next_nonces lv;
  sm_locked : nl_locked_balances lb = nl_locked_balances lv;
  sm_balances : forall pk, balance lv pk <= balance lb pk
}.

(** ** Lemmas *)

Lemma genesis_ok l : genesis_ledger l -> ledger_ok l.
Proof.
  intros (network & total & reward & epoch & fee & mat & s & Hmax & Hs & Hl).
  unfold schedule_new in Hs. unfold new_with_rules in Hl. run_inv Hs. run_inv Hl.
  injection Hs as <-. injection Hl as <-. breflect.
  split; [|intros k pk a; cbn; by rewrite lookup_empty].
  split; cbn; try done; try lia.
Qed.

Lemma ledger_steps_ok l l' : ledger_steps l l' -> ledger_ok l -> ledger_ok l'.
Proof. induction 1; eauto using block_applied_ok, apply_block_Ok. Qed.

Lemma reachable_ok l : reachable l -> ledger_ok l.
Proof. intros (g & Hg & Hs). eauto using ledger_steps_ok, genesis_ok. Qed.

Lemma ledger_ok_consistent l : ledger_ok l -> consistent l.
Proof.
  intros [[] Hp]. split; try done; [lia|]. intros k pk a Hk%Hp. lia.
Qed.

(** *** Nonces *)

Lemma transfers_run_nonce height r l ts l' pk :
  transfers_run height r l ts l' -> next_nonce l pk <= next_nonce l' pk.
Proof.
  induction 1 as [|l e f l1 ts l2 Hv Hf Ha Hrun IH]; [done|].
  etransitivity; [|exact IH]. rewrite Ha. unfold next_nonce; cbn. rewrite lookup_insert.
  case_decide; [|done]. subst. cbn. pose proof (tf_nonce _ _ _ Hf) as Hn. unfold next_nonce in Hn. lia.
Qed.

(** A transfer in a run uses a nonce that was free before and is spent after. *)
Lemma transfers_run_spends height r l ts l' e f :
  transfers_run height r l ts l' -> e ∈ ts ->
  validate_native_transfer e (nl_network_id l) (nl_minimum_fee l) = Ok f ->
  next_nonce l (f_from f) <= f_nonce f /\ f_nonce f < next_nonce l' (f_from f).
Proof.
  induction 1 as [|l e' f' l1 ts l2 Hv Hf Ha Hrun IH]; intros He Hval; [by apply elem_of_nil in He|].
  pose proof (tf_nonce _ _ _ Hf) as Hn.
  assert (Hm1 : forall pk, next_nonce l pk <= next_nonce l1 pk).
  { intros pk. apply (transfers_run_nonce height r l [e'] l1). econstructor; [done..|constructor]. }
  apply elem_of_cons in He as [->|He].
  - assert (f' = f) as -> by congruence. split; [lia|].
    eapply N.lt_le_trans; [|by eapply transfers_run_nonce]. rewrite Ha.
    unfold next_nonce; cbn. rewrite lookup_insert_eq; cbn. lia.
  - assert (validate_native_transfer e (nl_network_id l1) (nl_minimum_fee l1) = Ok f) as Hval1
      by (by rewrite Ha).
    destruct (IH He Hval1). specialize (Hm1 (f_from f)). lia.
Qed.

Lemma transfers_run_validated height r l ts l' e :
  transfers_run height r l ts l' -> e ∈ ts ->
  exists f, validate_native_transfer e (nl_network_id l) (nl_minimum_fee l) = Ok f.
Proof.
  induction 1 as [|l e' f' l1 ts l2 Hv Hf Ha Hrun IH]; intros He; [by apply elem_of_nil in He|].
  apply elem_of_cons in He as [->|He]; [eauto|].
  destruct (IH He) as [f Hval]. exists f. by rewrite Ha in Hval.
Qed.

Lemma transfers_run_nodup height r l ts l' : transfers_run height r l ts l' -> NoDup ts.
Proof.
  induction 1 as [|l e f l1 ts l2 Hv Hf Ha Hrun IH]; constructor; [|done].
  intros He. assert (validate_native_transfer e (nl_network_id l1) (nl_minimum_fee l1) = Ok f) as Hval1
    by (by rewrite Ha).
  destruct (transfers_run_spends _ _ _ _ _ _ _ Hrun He Hval1) as [Hle _].
  rewrite Ha in Hle. unfold next_nonce in Hle; cbn in Hle. rewrite lookup_insert_eq in Hle; cbn in Hle. lia.
Qed.

(** The parts of a block, for facts about nonces: unlocking and the reward do
    not touch them, nor the network and the fee. *)
Lemma block_applied_run l height pk ts l' :
  block_applied l height pk ts l' ->
  exists l1 l2, transfers_run height pk l1 ts l2 /\
    nl_network_id l1 = nl_network_id l /\ nl_minimum_fee l1 = nl_minimum_fee l /\
    nl_next_nonces l1 = nl_next_nonces l /\
    nl_network_id l' = nl_network_id l /\ nl_minimum_fee l' = nl_minimum_fee l /\
    nl_next_nonces l' = nl_next_nonces l2.
Proof.
  intros [_ _ _ (l1 & l2 & em & Hu & Hrun & _ & _ & ->)]. exists l1, l2.
  apply unlock_loop_changes in Hu as (_ & _ & Hfr).
  pose proof (transfers_run_moved _ _ _ _ _ Hrun) as Hm.
  split_and!; try done; first [by rewrite Hfr | cbn; rewrite Hm; cbn; by rewrite Hfr].
Qed.

Lemma ledger_steps_nonce l l' pk :
  ledger_steps l l' -> next_nonce l pk <= next_nonce l' pk /\
    nl_network_id l' = nl_network_id l /\ nl_minimum_fee l' = nl_minimum_fee l.
Proof.
  induction 1 as [|l h r ts l1 l2 Hb _ (IH & IHn & IHf)]; [done|].
  apply apply_block_Ok, block_applied_run in Hb as (k1 & k2 & Hrun & _ & _ & Hn1 & Hn & Hf & Hn2).
  apply (transfers_run_nonce _ _ _ _ _ pk) in Hrun. unfold next_nonce in *.
  rewrite Hn1, <- Hn2 in Hrun. split_and!; [lia|congruence..].
Qed.

(** *** The audit *)

Lemma audit_sum_Ok (l : list N) s n :
  s <= u128_max ->
  ofold audit_sum_step s l = Ok n <-> n = s + fold_right N.add 0 l /\ n <= u128_max.
Proof.
  revert s. induction l as [|x l IH]; intros s Hs; cbn.
  - split; [intros [= <-]; lia|]. intros [-> _]. f_equal. lia.
  - unfold audit_sum_step at 1, checked_add. destruct (N.leb_spec (s + x) u128_max) as [Hle|Hgt]; cbn.
    + rewrite IH by done. split; intros [-> ?]; lia.
    + split; [done|]. intros [-> ?]. lia.
Qed.

Lemma owed_btree p pk : owed p pk = owed_list (btree_iter p) pk.
Proof.
  assert (forall l k, l ≡ₚ k -> owed_list l pk = owed_list k pk) as Hperm.
  { induction 1; cbn; try congruence; unfold owed_list, total_of in *; cbn; lia. }
  rewrite (Hperm _ _ (btree_iter_perm p)). unfold owed. rewrite map_fold_foldr.
  unfold owed_list, total_of. induction (map_to_list p) as [|[k e] m IH]; cbn; [done|]. by rewrite IH.
Qed.

Lemma audit_lock_step_Ok l m k pk a m' :
  audit_lock_step l m (k, (pk, a)) = Ok m' <->
  entry_ok l (k, (pk, a)) /\ default 0 (m !! pk) + a <= u128_max /\
  m' = <[pk := default 0 (m !! pk) + a]> m.
Proof.
  unfold audit_lock_step, entry_ok; cbn.
  destruct (checked_sub k (nl_reward_maturity l)) as [c|] eqn:Hc.
  2:{ rewrite orb_true_r. apply checked_sub_None in Hc. split; [done|lia]. }
  apply checked_sub_Some in Hc as [-> Hc].
  destruct (_ || _) eqn:Eb.
  - split; [done|]. intros (Hok & _). exfalso. revert Eb. apply not_true_iff_false.
    rewrite !orb_false_iff, negb_false_iff, andb_true_iff, N.leb_gt, N.eqb_neq, N.ltb_lt, N.leb_le. lia.
  - rewrite !orb_false_iff, negb_false_iff, andb_true_iff, N.leb_gt, N.eqb_neq, N.ltb_lt, N.leb_le in Eb.
    unfold checked_add. destruct (N.leb_spec (default 0 (m !! pk) + a) u128_max) as [Hle|Hgt]; cbn.
    + split; [intros [= <-]; split_and!; try done; lia|]. by intros (_ & _ & ->).
    + split; [done|lia].
Qed.

(** The audit's expected locks are what the pending rewards owe. *)
Lemma audit_locks_Ok l es m m' :
  (forall x, m !! x = nonzero (default 0 (m !! x))) ->
  ofold (audit_lock_step l) m es = Ok m' ->
  Forall (entry_ok l) es /\ forall x, m' !! x = nonzero (default 0 (m !! x) + owed_list es x).
Proof.
  revert m. induction es as [|[k [pk a]] es IH]; intros m Hm; cbn [ofold].
  { intros [= <-]. split; [constructor|]. intros x. rewrite Hm. do 2 f_equal. cbn. rewrite N.add_0_r, default_nonzero. done. }
  destruct (audit_lock_step l m (k, (pk, a))) as [m1| |] eqn:E; cbn [obind]; try done.
  apply audit_lock_step_Ok in E as (He & _ & ->). intros Hrun.
  destruct (IH (<[pk := default 0 (m !! pk) + a]> m)) as [Hes Hm']; [|done|].
  - intros x. rewrite lookup_insert. case_decide; [|done]. subst. cbn.
    unfold nonzero. destruct (N.eqb_spec (default 0 (m !! x) + a) 0); [|done].
    destruct He as (_ & He & _). cbn in He. lia.
  - split; [by constructor|]. intros x. rewrite Hm', lookup_insert.
    unfold owed_list, total_of; cbn. repeat case_decide; subst; cbn; try done; f_equal; lia.
Qed.

Lemma audit_locks_complete l es m :
  Forall (entry_ok l) es ->
  (forall x, default 0 (m !! x) + owed_list es x <= u128_max) ->
  exists m', ofold (audit_lock_step l) m es = Ok m'.
Proof.
  revert m. induction es as [|[k [pk a]] es IH]; intros m Hes Hmax; cbn [ofold]; [eauto|].
  apply Forall_cons in Hes as [He Hes].
  pose proof (Hmax pk) as Hpk. unfold owed_list, total_of in Hpk; cbn in Hpk.
  rewrite decide_True in Hpk by done.
  rewrite (proj2 (audit_lock_step_Ok l m k pk a _)) by (split_and!; [done|lia|reflexivity]). cbn [obind].
  apply IH; [done|]. intros x. specialize (Hmax x). unfold owed_list, total_of in *; cbn in Hmax.
  rewrite lookup_insert. repeat case_decide; subst; cbn; try done; lia.
Qed.

Lemma audit_locked_Ok l es s n :
  s <= u128_max ->
  ofold (audit_locked_step l) s es = Ok n <->
  Forall (fun e => e.2 <> 0 /\ e.2 <= balance l e.1) es /\
  n = s + fold_right N.add 0 es.*2 /\ n <= u128_max.
Proof.
  revert s. induction es as [|[pk a] es IH]; intros s Hs; cbn.
  - split; [intros [= <-]; split_and!; [constructor|lia|done]|]. intros (_ & -> & _). f_equal. lia.
  - unfold audit_locked_step at 1, checked_add. rewrite Forall_cons; cbn.
    destruct (N.eqb_spec a 0) as [->|Ha]; cbn; [split; [done|naive_solver]|].
    destruct (N.ltb_spec (balance l pk) a) as [Hlt|Hge]; cbn; [split; [done|naive_solver lia]|].
    destruct (N.leb_spec (s + a) u128_max) as [Hle|Hgt]; cbn.
    + rewrite IH by done. split; intros; destruct_and!; split_and!; try done; lia.
    + split; [done|]. intros; destruct_and!. lia.
Qed.

(** Pointwise smaller maps have smaller sums. *)
Lemma map_sum_le (m1 m2 : gmap string N) :
  (forall k, default 0 (m1 !! k) <= default 0 (m2 !! k)) -> map_sum m1 <= map_sum m2.
Proof.
  revert m2. induction m1 as [|k v m1 Hk IH] using map_ind; intros m2 Hle.
  { rewrite map_sum_empty. lia. }
  rewrite map_sum_insert_None by done.
  pose proof (Hle k) as Hv. rewrite lookup_insert_eq in Hv; cbn in Hv.
  assert (map_sum m1 <= map_sum (delete k m2)) as Hr.
  { apply IH. intros k'. specialize (Hle k'). destruct (decide (k' = k)) as [->|Hne].
    - rewrite Hk, lookup_delete_eq. done.
    - rewrite lookup_insert_ne in Hle by done. by rewrite lookup_delete_ne. }
  destruct (m2 !! k) as [w|] eqn:E; cbn in Hv.
  - rewrite (map_sum_delete m2 k w E). lia.
  - rewrite (delete_id m2 k E) in Hr. lia.
Qed.

Lemma consistent_audit l :
  consistent l -> exists locked, map_sum (nl_locked_balances l) = locked /\ locked <= nl_issued l /\
    audit l = Ok (mkAudit (nl_issued l) (es_total_supply (nl_schedule l)) (nl_issued l) locked
      (nl_issued l - locked) (N.of_nat (size (nl_balances l))) (N.of_nat (size (nl_next_nonces l)))
      (N.of_nat (size (nl_pending_rewards l)))).
Proof.
  intros [Ht Hw Hcap Hp Hlk Hb]. eexists; split; [reflexivity|].
  assert (Hle : map_sum (nl_locked_balances l) <= nl_issued l).
  { rewrite <- Ht. by apply map_sum_le. }
  split; [done|]. unfold audit.
  rewrite (proj2 (audit_sum_Ok (btree_iter (nl_balances l)).*2 0 (nl_issued l) ltac:(done)))
    by (rewrite <- map_sum_btree; lia).
  cbn [obind]. rewrite N.eqb_refl, (proj2 (N.ltb_ge _ _) Hcap); cbn [negb orb].
  destruct (audit_locks_complete l (btree_iter (nl_pending_rewards l)) ∅) as [m Hm].
  { apply Forall_forall. intros [k [pk a]] Hk%elem_of_btree_iter. by apply Hp in Hk. }
  { intros x. rewrite lookup_empty, <- owed_btree, N.add_0_l.
    pose proof (map_sum_lookup_le (nl_locked_balances l) x) as Hx.
    rewrite Hlk, default_nonzero in Hx. lia. }
  rewrite Hm; cbn [obind]. apply audit_locks_Ok in Hm as [_ Hm]; [|intros x; by rewrite lookup_empty].
  assert (nl_locked_balances l = m) as Em.
  { apply map_eq. intros x. by rewrite Hlk, Hm, lookup_empty, N.add_0_l, owed_btree. }
  rewrite <- Em, bool_decide_eq_true_2 by done. cbn [negb].
  rewrite (proj2 (audit_locked_Ok l (btree_iter (nl_locked_balances l)) 0 (map_sum (nl_locked_balances l)) ltac:(done))).
  2:{ rewrite <- map_sum_btree. split_and!; [|lia..]. apply Forall_forall.
      intros [pk a] Hk%elem_of_btree_iter; cbn. pose proof (Hb pk) as Hbp. unfold locked_balance in Hbp.
      rewrite Hk in Hbp. split; [|done]. intros ->. rewrite Hlk in Hk. unfold nonzero in Hk.
      destruct (N.eqb_spec (owed (nl_pending_rewards l) pk) 0); congruence. }
  cbn [obind]. by rewrite checked_sub_ok.
Qed.

Lemma audit_consistent l a : audit l = Ok a -> consistent l.
Proof.
  unfold audit. intros H. run_inv H. breflect.
  match goal with H : ofold audit_sum_step _ _ = _ |- _ => apply audit_sum_Ok in H as [-> Hw]; [|done] end.
  match goal with H : ofold (audit_lock_step l) _ _ = _ |- _ =>
    apply audit_locks_Ok in H as [Hes Hm]; [|intros x; by rewrite lookup_empty] end.
  match goal with H : ofold (audit_locked_step l) _ _ = _ |- _ =>
    apply audit_locked_Ok in H as (Hlk & -> & _); [|done] end.
  match goal with H : btree_iter _ = btree_iter _ |- _ => apply btree_iter_inj in H as Em end.
  rewrite N.add_0_l, <- map_sum_btree in *.
  rewrite Forall_forall in Hes. rewrite Forall_forall in Hlk.
  split; try done; try congruence.
  - intros k pk b Hk. by apply (Hes (k, (pk, b))), elem_of_btree_iter.
  - intros pk. rewrite Em, Hm, lookup_empty, owed_btree. done.
  - intros pk. unfold locked_balance. destruct (nl_locked_balances l !! pk) as [b|] eqn:E; cbn; [|lia].
    by apply (Hlk (pk, b)), elem_of_btree_iter.
Qed.

(** *** Reward maturity *)

Lemma block_keeps_pending l height pk ts l' k e :
  ledger_ok l -> block_applied l height pk ts l' ->
  nl_pending_rewards l !! k = Some e -> height < k -> nl_pending_rewards l' !! k = Some e.
Proof.
  intros Hok Hb Hk Hlt. pose proof Hb as [Hh _ _ _].
  apply block_applied_inv in Hb as (l1 & l2 & em & _ & Hul & _ & _ & _ & _ & _ & _ & Hm & _ & Hp & _ & _ & _ & ->); [|done].
  unfold rewarded; cbn. rewrite Hp, Hm.
  assert (nl_pending_rewards l1 !! k = Some e) as Hk1.
  { rewrite (ul_pending _ _ _ Hul). case_decide; [lia|done]. }
  destruct (_ && _); [|done]. rewrite lookup_insert_ne; [done|].
  destruct Hok as [_ Hpo]. destruct e as [x a]. apply Hpo in Hk. lia.
Qed.

Lemma steps_height l l' : ledger_ok l -> ledger_steps l l' -> nl_height l <= nl_height l'.
Proof.
  intros Hok Hs. induction Hs as [|l h r ts l1 l2 Hb _ IH]; [done|].
  apply apply_block_Ok in Hb. specialize (IH (block_applied_ok _ _ _ _ _ Hok Hb)).
  pose proof (block_applied_frame _ _ _ _ _ Hok Hb) as (_ & _ & Hh & _).
  destruct Hb as [-> _ _ _]. lia.
Qed.

Lemma steps_keep_pending l l' k e :
  ledger_steps l l' -> ledger_ok l ->
  nl_pending_rewards l !! k = Some e -> nl_height l' < k -> nl_pending_rewards l' !! k = Some e.
Proof.
  induction 1 as [|l h r ts l1 l2 Hb Hs IH]; intros Hok Hk Hlt; [done|].
  apply apply_block_Ok in Hb. pose proof (block_applied_ok _ _ _ _ _ Hok Hb) as Hok1.
  pose proof (block_applied_frame _ _ _ _ _ Hok Hb) as (_ & _ & Hh & _).
  pose proof (steps_height _ _ Hok1 Hs).
  apply IH; [done| |done]. apply (block_keeps_pending _ _ _ _ _ _ _ Hok Hb Hk). lia.
Qed.

(** *** The pending view *)

Lemma simulates_transfer lb lv height r e f lv' :
  core_ok lb -> simulates lb lv ->
  validate_native_transfer e (nl_network_id lv) (nl_minimum_fee lv) = Ok f ->
  transfer_fits lv height f -> applied lv lv' f None ->
  exists lb', validate_native_transfer e (nl_network_id lb) (nl_minimum_fee lb) = Ok f /\
    transfer_fits lb height f /\ applied lb lb' f (Some r) /\ simulates lb' lv'.
Proof.
  intros Hc [Hnet Hfee Hn Hl Hb] Hv [Hlive Hno Hd Hlo Hfu Hnx] ->.
  assert (Hlk : forall pk, locked_balance lb pk = locked_balance lv pk)
    by (intros; unfold locked_balance; by rewrite Hl).
  assert (Hnn : forall pk, next_nonce lb pk = next_nonce lv pk)
    by (intros; unfold next_nonce; by rewrite Hn).
  eexists. split_and!; [by rewrite Hnet, Hfee| |reflexivity|].
  - specialize (Hb (f_from f)). split; rewrite ?Hlk, ?Hnn; try done; lia.
  - split; cbn; try done; [by rewrite Hn|].
    intros pk. unfold balance in *; cbn. rewrite !transfer_map_lookup. specialize (Hb pk). cbn.
    rewrite (decide_False (P := None = Some pk)) by done. lia.
Qed.

Lemma simulates_run height r ts lb lv v' :
  core_ok lb -> simulates lb lv ->
  ofold view_push (mkPendingView lv height) ts = Ok v' ->
  exists lb', transfers_run height r lb ts lb'.
Proof.
  revert lb lv. induction ts as [|e ts IH]; intros lb lv Hc Hs; cbn [ofold]; [eexists; constructor|].
  unfold view_push at 1, view_prepare; cbn [pv_ledger pv_height].
  destruct (prepare_transfer lv height None e) as [p| |] eqn:Ep; cbn [obind]; try done. intros Hrun.
  apply prepare_transfer_Ok in Ep as (f & Hv & Hf & _ & Ha).
  destruct (simulates_transfer lb lv height r e f _ Hc Hs Hv Hf Ha) as (lb1 & Hvb & Hfb & Hab & Hs1).
  destruct (IH lb1 _ ltac:(eauto using applied_core_ok) Hs1 Hrun) as [lb2 Hr].
  exists lb2. by econstructor.
Qed.

(** *** Accounts *)

Lemma transfers_run_balance height r l ts l' x :
  transfers_run height r l ts l' ->
  exists fs, fields_of l ts fs /\
    balance l' x + debits x fs = balance l x + credits x fs + (if decide (x = r) then fees fs else 0).
Proof.
  induction 1 as [l|l e f l1 ts l2 Hv Hf Ha Hrun (fs & Hfs & IH)].
  { exists []. split; [constructor|]. cbn. case_decide; lia. }
  exists (f :: fs). split; [constructor; [done|]; by rewrite Ha in Hfs|].
  rewrite Ha in IH. unfold balance in *; cbn in IH. rewrite transfer_map_lookup in IH.
  destruct Hf as [_ _ _ _ Hfunds _]. unfold balance in Hfunds.
  unfold debits, credits, fees, total_of in *; cbn.
  repeat case_decide; simplify_eq; lia.
Qed.

End Chain.

(** ** A concrete chain, for the witnesses *)

Module Demo.

Definition alice : string := Eval vm_compute in pk_hex (from_dev_id "alice").
Definition bob : string := Eval vm_compute in pk_hex (from_dev_id "bob").

Definition genesis : NativeLedger :=
  mkLedger "boole-demo" (mkSchedule 1000 50 10) 0 0 ∅ ∅ 1 1 ∅ ∅.

(** Alice pays Bob 20 with a fee of 1 once her reward has matured. *)
Definition transfer : SignedEnvelope := Eval vm_compute in
  sign_for_network (from_dev_id "alice")
    (value_of_payload (mkPayload NATIVE_TRANSFER_SCHEMA alice bob "20" "1" "0" "9"))
    (Some "boole-demo").

Lemma genesis_made : genesis_ledger genesis.
Proof. exists "boole-demo", 1000, 50, 10, 1, 1, (mkSchedule 1000 50 10). by vm_compute. Qed.

Lemma ok0 : ledger_ok genesis.
Proof. apply genesis_ok, genesis_made. Qed.

(** Two blocks: Alice's reward, then Bob's block with Alice's transfer. *)
Lemma chain : exists l1 l2 u2,
  apply_block genesis 1 alice [] = Ok l1 /\ ledger_ok l1 /\
  prepare_block l1 2 bob [transfer] = Ok (l2, u2) /\ apply_block l1 2 bob [transfer] = Ok l2 /\
  reachable l2.
Proof.
  assert (is_ok (let* l1 := apply_block genesis 1 alice [] in prepare_block l1 2 bob [transfer]) = true)
    as (l1 & H1 & ([l2 u2] & H2)%is_ok_Ok)%is_ok_bind by reflexivity.
  assert (apply_block l1 2 bob [transfer] = Ok l2) as H3 by (unfold apply_block; by rewrite H2).
  assert (ledger_steps genesis l1) as Hs1 by (eapply steps_block; [exact H1|constructor]).
  exists l1, l2, u2. split_and!; try done.
  - eapply ledger_steps_ok; [exact Hs1|apply ok0].
  - exists genesis. split; [apply genesis_made|].
    eapply steps_block; [exact H1|]. eapply steps_block; [exact H3|constructor].
Qed.

Lemma view : exists l1 v v',
  apply_block genesis 1 alice [] = Ok l1 /\ pending_view l1 = Ok v /\ ofold view_push v [transfer] = Ok v'.
Proof.
  assert (is_ok (let* l1 := apply_block genesis 1 alice [] in let* v := pending_view l1 in
    ofold view_push v [transfer]) = true)
    as (l1 & H1 & (v & H2 & (v' & H3)%is_ok_Ok)%is_ok_bind)%is_ok_bind by reflexivity.
  eauto 10.
Qed.

End Demo.

(** ** The theorems *)

Section Theorems.
Context {X : Externals} {P : PayloadSerde}.

(** C1: from a well-formed ledger, applying a block never aborts, and when it
    succeeds the new ledger is well formed, one higher, and richer by exactly
    the scheduled emission: transfers create and destroy nothing. *)
Theorem apply_block_invariant l height pk ts :
  ledger_ok l ->
  apply_block l height pk ts <> Panic /\
  forall l', apply_block l height pk ts = Ok l' ->
    ledger_ok l' /\ height = nl_height l + 1 /\ nl_height l' = height /\
    exists em, emission (nl_schedule l) height (nl_issued l) = Ok em /\
      nl_issued l' = nl_issued l + em /\
      map_sum (nl_balances l') = map_sum (nl_balances l) + em.
Proof.
  intros Hok. split; [by apply apply_block_total|]. intros l' Hb%apply_block_Ok.
  pose proof (block_applied_ok _ _ _ _ _ Hok Hb) as Hok'.
  pose proof (block_applied_frame _ _ _ _ _ Hok Hb) as (_ & _ & Hh & em & Hem & Hi).
  split_and!; [done|by destruct Hb|done|]. exists em. split_and!; [done|done|].
  rewrite (ok_conserved _ (proj1 Hok')), (ok_conserved _ (proj1 Hok)). done.
Qed.

(** C8: on well-formed ledgers the code applies a block exactly when the
    specification [block_applied] allows it (matured rewards unlocked, every
    transfer valid, live, in nonce order and covered by spendable funds, then
    the scheduled reward), and it gives the ledger the specification names. *)
Theorem apply_block_refines l height pk ts l' :
  ledger_ok l -> apply_block l height pk ts = Ok l' <-> block_applied l height pk ts l'.
Proof. intros Hok. split; [apply apply_block_Ok|by apply block_applied_complete]. Qed.

(** C19: in every ledger reachable from a genesis ledger the balances add up to
    the issuance, the issuance is within the supply cap, no account exceeds
    it, and reading a spendable balance does not abort. *)
Theorem reachable_supply_cap l :
  reachable l ->
  map_sum (nl_balances l) = nl_issued l /\
  nl_issued l <= es_total_supply (nl_schedule l) /\
  forall pk, balance l pk <= es_total_supply (nl_schedule l) /\
    spendable_balance (E:=NativeLedgerError) l pk = Ok (balance l pk - locked_balance l pk).
Proof.
  intros [[] _]%reachable_ok. split_and!; [done..|]. intros pk. split.
  - pose proof (map_sum_lookup_le (nl_balances l) pk). unfold balance. lia.
  - apply spendable_balance_Ok. auto.
Qed.

(** C2: undoing the last applied block with its record restores the ledger
    before the block exactly, every field and entry of it. *)
Theorem undo_block_inverts l height pk ts l' u :
  prepare_block l height pk ts = Ok (l', u) -> undo_block l' u = Ok l.
Proof.
  intros Hp. pose proof (prepare_block_tracks _ _ _ _ _ _ Hp) as Ht.
  apply apply_block_inner_Ok in Hp as [-> Hmax _ (l1 & l2 & em & _ & _ & _ & _ & ->)].
  by eapply tracks_undo.
Qed.

(** C26: the audit accepts exactly the ledgers whose books agree, and reports
    their totals. *)
Theorem audit_decides_consistency l :
  (consistent l -> exists a, audit l = Ok a /\ au_total_balance a = map_sum (nl_balances l) /\
     au_total_locked a = map_sum (nl_locked_balances l) /\
     au_total_spendable a + au_total_locked a = au_issued a) /\
  (forall a, audit l = Ok a -> consistent l).
Proof.
  split; [|apply audit_consistent]. intros Hc. pose proof (cs_total _ Hc).
  destruct (consistent_audit l Hc) as (locked & Hl & Hle & ->).
  eexists; split; [reflexivity|]. cbn. split_and!; [done|done|lia].
Qed.

(** Every reachable ledger passes the audit. *)
Theorem reachable_audits l : reachable l -> is_ok (audit l) = true.
Proof.
  intros Hr%reachable_ok%ledger_ok_consistent.
  by destruct (consistent_audit l Hr) as (? & _ & _ & ->).
Qed.

(** C20: replay protection. A block's transfers are pairwise different, and no
    later block that holds one of them can be applied. *)
Theorem transfers_apply_once l height pk ts l1 :
  apply_block l height pk ts = Ok l1 ->
  NoDup ts /\
  forall e l2 height' pk' ts', e ∈ ts -> ledger_steps l1 l2 -> e ∈ ts' ->
    is_ok (apply_block l2 height' pk' ts') = false.
Proof.
  intros (k1 & k2 & Hrun & Hnet & Hfee & Hn1 & Hnet' & Hfee' & Hn2)%apply_block_Ok%block_applied_run.
  split; [by eapply transfers_run_nodup|]. intros e l2 height' pk' ts' He Hs He'.
  destruct (apply_block l2 height' pk' ts') as [l3| |] eqn:Hb; [exfalso|done..].
  apply apply_block_Ok, block_applied_run in Hb as (j1 & j2 & Hrun' & Hnetj & Hfeej & Hnj & _).
  destruct (transfers_run_validated _ _ _ _ _ _ Hrun He) as [f Hv].
  destruct (transfers_run_spends _ _ _ _ _ _ _ Hrun He Hv) as [_ Hspent].
  destruct (ledger_steps_nonce _ _ (f_from f) Hs) as (Hmono & Hnets & Hfees).
  assert (validate_native_transfer e (nl_network_id j1) (nl_minimum_fee j1) = Ok f) as Hv'.
  { rewrite Hnetj, Hfeej, Hnets, Hfees, Hnet', Hfee', <- Hnet, <- Hfee. done. }
  destruct (transfers_run_spends _ _ _ _ _ _ _ Hrun' He' Hv') as [Hfree _].
  unfold next_nonce in *. rewrite Hnj in Hfree. rewrite Hn2 in Hmono. lia.
Qed.

(** A block's reward stays locked in its producer's account until the
    maturity height: up to there it is covered by the balance and is not part
    of what a transfer may spend. *)
Theorem reward_locked_until_maturity l height pk ts l1 l2 em :
  ledger_ok l -> apply_block l height pk ts = Ok l1 ->
  emission (nl_schedule l) height (nl_issued l) = Ok em ->
  ledger_steps l1 l2 -> nl_height l2 < height + nl_reward_maturity l ->
  em <= locked_balance l2 pk /\ locked_balance l2 pk <= balance l2 pk.
Proof.
  intros Hok Hb%apply_block_Ok Hem Hs Hlt.
  pose proof (block_applied_ok _ _ _ _ _ Hok Hb) as Hok1.
  pose proof (ledger_steps_ok _ _ Hs Hok1) as [[] _]. split; [|done].
  pose proof (block_applied_frame _ _ _ _ _ Hok Hb) as (_ & _ & Hh & _).
  pose proof (steps_height _ _ Hok1 Hs).
  destruct (N.eq_dec em 0) as [->|Hne]; [lia|].
  assert (nl_pending_rewards l1 !! (height + nl_reward_maturity l) = Some (pk, em)) as Hk.
  { apply block_applied_inv in Hb as (k1 & k2 & em' & _ & _ & _ & _ & _ & _ & Hsc & Hi & Hm & _ & _ & _ & Hem' & _ & ->); [|done].
    rewrite Hsc, Hi, Hem in Hem'. injection Hem' as <-. unfold rewarded; cbn. rewrite Hm.
    apply N.eqb_neq in Hne as ->. destruct (N.eqb_spec (nl_reward_maturity l) 0); [lia|]. apply lookup_insert_eq. }
  apply (steps_keep_pending _ _ _ _ Hs Hok1) in Hk; [|done].
  unfold locked_balance. rewrite ok_locks, default_nonzero. by eapply owed_lookup_le.
Qed.

(** C27: what the pending view admits, a block can hold: transfers pushed on the
    view of a ledger one after the other form a block that applies to that
    ledger for any producer key, the reward's unlock height permitting. *)
Theorem pending_view_admits_block l v ts v' pk :
  ledger_ok l -> pending_view l = Ok v -> ofold view_push v ts = Ok v' ->
  is_hex32_text pk = true -> nl_height l + 1 + nl_reward_maturity l <= u64_max ->
  exists l', apply_block l (nl_height l + 1) pk ts = Ok l'.
Proof.
  intros Hok Hv Hts Hk Hmax. unfold pending_view in Hv. run_inv Hv. injection Hv as <-.
  match goal with H : checked_add _ _ _ = Some _ |- _ => apply checked_add_Some in H as [-> Hh] end.
  match goal with H : unlock_rewards _ _ = Ok ?x |- _ => rename H into Hu; rename x into l1 end.
  pose proof Hok as [Hc _]. destruct (unlock_rewards_spec l (nl_height l + 1) (ok_locks _ Hc)) as (l1' & Hu' & Hul).
  assert (l1' = l1) as -> by congruence. pose proof (unlocked_core_ok _ _ _ Hc Hul) as Hc1.
  destruct (simulates_run (nl_height l + 1) pk ts l1 l1 v' Hc1) as [l2 Hrun]; [by split|done|].
  pose proof (transfers_run_core_ok _ _ _ _ _ Hrun Hc1) as Hc2.
  destruct (emission_Ok _ (nl_height l + 1) _ (ok_epoch _ Hc2) (ok_issued _ Hc2)) as (em & Hem & _).
  eexists. apply block_applied_complete; [done|]. split; [done|done|done|].
  exists l1, l2, em. split_and!; [done..| |reflexivity]. right; right.
  assert (nl_reward_maturity l2 = nl_reward_maturity l) as ->; [|done].
  rewrite (transfers_run_moved _ _ _ _ _ Hrun); cbn. by rewrite (ul_frame _ _ _ Hul).
Qed.

(** A block moves every account by exactly its transfers: an account loses
    the amounts and fees it sends, gains the amounts sent to it, and the
    producer gains all fees and the emission. *)
Theorem block_account_equation l height pk ts l' x :
  ledger_ok l -> apply_block l height pk ts = Ok l' ->
  exists fs em, fields_of l ts fs /\ emission (nl_schedule l) height (nl_issued l) = Ok em /\
    balance l' x + debits x fs
    = balance l x + credits x fs + (if decide (x = pk) then fees fs + em else 0).
Proof.
  intros Hok Hb%apply_block_Ok.
  apply block_applied_inv in Hb as (l1 & l2 & em & _ & Hul & Hrun & _ & _ & _ & Hsc & Hi & _ & _ & _ & _ & Hem & _ & ->); [|done].
  destruct (transfers_run_balance _ _ _ _ _ x Hrun) as (fs & Hfs & Heq).
  exists fs, em. rewrite Hsc, Hi in Hem. split_and!; [|done|].
  - by rewrite (ul_frame _ _ _ Hul) in Hfs.
  - rewrite (ul_frame _ _ _ Hul) in Heq. unfold balance in *; cbn in *.
    rewrite credit_map_lookup. repeat case_decide; lia.
Qed.

End Theorems.

(** The amounts of a transfer are read from canonical decimal texts alone:
    each value of the width has exactly one accepted text, its decimal form. *)
Theorem decimal_accepts_canonical max value n :
  decimal max value = Ok n <-> value = to_decimal n /\ n <= max.
Proof.
  unfold decimal. split.
  - intros H. run_inv H. breflect.
    match goal with H : parse_uint _ _ = Some _ |- _ => rename H into Hp end. injection H as <-.
    destruct (canonical_digits value) as (m & -> & Hm); [done..|].
    unfold parse_uint in Hp. rewrite (digits_strip_plus _ (to_decimal_digits m)), Hm in Hp.
    destruct (N.leb_spec m max); [|done]. injection Hp as <-. done.
  - intros [-> Hn].
    rewrite to_decimal_nonempty, to_decimal_no_leading_zero, to_decimal_digits; cbn.
    by rewrite parse_uint_to_decimal.
Qed.

(** ** Witnesses: the theorems at the concrete chain *)

Section Witnesses.
Import Demo.

Lemma apply_block_invariant_witness :
  exists l1 l2, apply_block l1 2 bob [transfer] = Ok l2 /\ ledger_ok l2.
Proof.
  destruct chain as (l1 & l2 & u2 & _ & Hok & _ & Hb & _). exists l1, l2. split; [exact Hb|].
  exact (proj1 (proj2 (apply_block_invariant l1 2 bob [transfer] Hok) l2 Hb)).
Defined.

Lemma apply_block_refines_witness : exists l1 l2, block_applied l1 2 bob [transfer] l2.
Proof.
  destruct chain as (l1 & l2 & u2 & _ & Hok & _ & Hb & _). exists l1, l2.
  exact (proj1 (apply_block_refines l1 2 bob [transfer] l2 Hok) Hb).
Defined.

Lemma reachable_supply_cap_witness :
  exists l2, reachable l2 /\ map_sum (nl_balances l2) = nl_issued l2.
Proof.
  destruct chain as (l1 & l2 & u2 & _ & _ & _ & _ & Hr). exists l2. split; [exact Hr|].
  exact (proj1 (reachable_supply_cap l2 Hr)).
Defined.

Lemma undo_block_inverts_witness :
  exists l1 l2 u2, prepare_block l1 2 bob [transfer] = Ok (l2, u2) /\ undo_block l2 u2 = Ok l1.
Proof.
  destruct chain as (l1 & l2 & u2 & _ & _ & Hp & _). exists l1, l2, u2. split; [exact Hp|].
  exact (undo_block_inverts l1 2 bob [transfer] l2 u2 Hp).
Defined.

Lemma reachable_audits_witness : exists l2, reachable l2 /\ is_ok (audit l2) = true.
Proof.
  destruct chain as (l1 & l2 & u2 & _ & _ & _ & _ & Hr). exists l2. split; [exact Hr|].
  exact (reachable_audits l2 Hr).
Defined.

Lemma transfers_apply_once_witness :
  exists l1 l2, apply_block l1 2 bob [transfer] = Ok l2 /\
    is_ok (apply_block l2 3 alice [transfer]) = false.
Proof.
  destruct chain as (l1 & l2 & u2 & _ & _ & _ & Hb & _). exists l1, l2. split; [exact Hb|].
  apply (proj2 (transfers_apply_once l1 2 bob [transfer] l2 Hb) transfer).
  - by left.
  - constructor.
  - by left.
Defined.

Lemma reward_locked_until_maturity_witness :
  exists l1, apply_block genesis 1 alice [] = Ok l1 /\ 50 <= locked_balance l1 alice.
Proof.
  destruct chain as (l1 & l2 & u2 & H1 & Hok & _). exists l1. split; [exact H1|].
  assert (nl_height l1 = 1) as Hh.
  { apply apply_block_Ok, (block_applied_frame _ _ _ _ _ ok0) in H1 as (_ & _ & Hh & _). exact Hh. }
  apply (reward_locked_until_maturity genesis 1 alice [] l1 l1 50 ok0 H1).
  - reflexivity.
  - constructor.
  - rewrite Hh. reflexivity.
Defined.

Lemma pending_view_admits_block_witness :
  exists l1 l2, apply_block l1 (nl_height l1 + 1) bob [transfer] = Ok l2.
Proof.
  destruct view as (l1 & v & v' & H1 & Hv & Hp). exists l1.
  pose proof (apply_block_Ok _ _ _ _ _ H1) as Hb.
  apply (pending_view_admits_block l1 v [transfer] v' bob (block_applied_ok _ _ _ _ _ ok0 Hb) Hv Hp).
  - reflexivity.
  - apply (block_applied_frame _ _ _ _ _ ok0) in Hb as (_ & Hm & Hh & _). rewrite Hm, Hh. vm_compute. discriminate.
Defined.

Lemma block_account_equation_witness :
  exists l1 l2 fs em, fields_of l1 [transfer] fs /\
    emission (nl_schedule l1) 2 (nl_issued l1) = Ok em /\
    balance l2 alice + debits alice fs
    = balance l1 alice + credits alice fs + (if decide (alice = bob) then fees fs + em else 0).
Proof.
  destruct chain as (l1 & l2 & u2 & _ & Hok & _ & Hb & _). exists l1, l2.
  exact (block_account_equation l1 2 bob [transfer] l2 alice Hok Hb).
Defined.

End Witnesses.
