(* ===== verification/Block.v ===== *)
(** * Persisted blocks, their hash, fork choice and accounting

    crates/boole-core/src/block.rs, [block_hash] of hash.rs, fork_choice.rs,
    accounting.rs and the share rows of block_builder.rs. Each struct's derived
    [Serialize] is the object of its fields under their camelCase names. Error
    values name the failed test; their message texts are not modelled. *)

From S2P Require Import Prelude Json Externals Hash.

Record ShareWorkAuthorization := mkShareWorkAuthorization {
  swa_schema : string;
  swa_payload : Value;
  swa_pk : string;
  swa_signature : string;
  swa_network_id : option string
}.

Record SelectedShareEvidence := mkSelectedShareEvidence {
  ev_pk : string;
  ev_n : string;
  ev_j : string;
  ev_c : string;
  ev_canon_hash : string;
  ev_proof_package : string;
  ev_seed_hex : string;
  ev_signed_work : option ShareWorkAuthorization
}.

Record PromotedBountyShare := mkPromotedBountyShare {
  pbs_family_id : string;
  pbs_bounty_id : string;
  pbs_proof_hash : string;
  pbs_prover : string;
  pbs_reward : string
}.

Record PromotedBountyCredit := mkPromotedBountyCredit {
  pbc_family_id : string;
  pbc_bounty_id : string;
  pbc_prover : string;
  pbc_amount : string
}.

Record PersistedBlock := mkPersistedBlock {
  b_height : N;
  b_prev_c : string;
  b_c : string;
  b_proposer_pk : string;
  b_selected_share_hashes : list string;
  b_selected_share_pks : list string;
  b_selected_share_reward_pks : list string;
  b_proposer_reward_pk : string;
  b_selected_share_evidence : list SelectedShareEvidence;
  b_min_share_score : string;
  b_min_share_score_multiplier_nanos : N;
  b_kmax_applied : N;
  b_difficulty_epoch : N;
  b_t_block : string;
  b_t_share : string;
  b_difficulty_weight : string;
  b_dropped_below_min_score : N;
  b_dropped_kernel_reject : N;
  b_truncated_by_kmax : N;
  b_ts : N;
  b_promoted_bounty_shares : list PromotedBountyShare
}.

(** [CanonicalOrderKey] and [compare_canonical] of block_builder.rs. *)
#[export] Instance share_work_authorization_eq_decision : EqDecision ShareWorkAuthorization.
Proof. solve_decision. Defined.

#[export] Instance promoted_share_eq_decision : EqDecision PromotedBountyShare.
Proof. solve_decision. Defined.

#[export] Instance share_evidence_eq_decision : EqDecision SelectedShareEvidence.
Proof. solve_decision. Defined.

#[export] Instance persisted_block_eq_decision : EqDecision PersistedBlock.
Proof. solve_decision. Defined.

Record CanonicalOrderKey := mkCanonicalOrderKey { ck_pk : string; ck_n : string; ck_j : string }.

Definition compare_canonical (a b : CanonicalOrderKey) : comparison :=
  cmp_then (rcmp (ck_pk a) (ck_pk b))
    (cmp_then (rcmp (ck_n a) (ck_n b)) (rcmp (ck_j a) (ck_j b))).

Definition evidence_order_key (e : SelectedShareEvidence) : CanonicalOrderKey :=
  mkCanonicalOrderKey (ev_pk e) (ev_n e) (ev_j e).

Inductive BlockError :=
| BadHex32
| SharePksLength
| ShareRewardPksLength
| KmaxApplied
| BadMinShareScore
| BadTarget
| ZeroTarget
| DifficultyWeightMismatch
| BadBountyReward
| BadDifficultyWeight
| EmptyCandidate
| NoCandidates
| AccountingOverflow.

Definition strings_value (l : list string) : Value := VArray (map VString l).

Definition promoted_share_value (s : PromotedBountyShare) : Value :=
  VObject [("familyId", VString (pbs_family_id s)); ("bountyId", VString (pbs_bounty_id s));
           ("proofHash", VString (pbs_proof_hash s)); ("prover", VString (pbs_prover s));
           ("reward", VString (pbs_reward s))].

(** The committed fields of a block, as [block_hash] lists them. *)
Definition committed (b : PersistedBlock) : Value :=
  VObject [("height", VNumber (PosInt (b_height b)));
           ("prevC", VString (b_prev_c b));
           ("selectedShareHashes", strings_value (b_selected_share_hashes b));
           ("selectedSharePks", strings_value (b_selected_share_pks b));
           ("selectedShareRewardPks", strings_value (b_selected_share_reward_pks b));
           ("proposerPk", VString (b_proposer_pk b));
           ("proposerRewardPk", VString (b_proposer_reward_pk b));
           ("promotedBountyShares", VArray (map promoted_share_value (b_promoted_bounty_shares b)));
           ("ts", VNumber (PosInt (b_ts b)));
           ("tBlock", VString (b_t_block b));
           ("difficultyEpoch", VNumber (PosInt (b_difficulty_epoch b)))].

(** [checked_credit]. A fresh entry cannot overflow, so the map is unchanged
    where the code fails. *)
Definition checked_credit (m : gmap string N) (key : string) (amount : N)
    : outcome BlockError (gmap string N) :=
  let m := match m !! key with Some _ => m | None => <[key := 0]> m end in
  let current := default 0 (m !! key) in
  let* total := ok_or (checked_add u128_max current amount) AccountingOverflow in
  Ok (<[key := total]> m).

Section Block.
Context {X : Externals}.

Definition block_preimage (b : PersistedBlock) : list byte :=
  as_bytes "block.v3" ++ canonicalize (committed b).

Definition block_hash (b : PersistedBlock) : Hex32 := blake3 (block_preimage b).

Definition require_hex32 (s : string) : outcome BlockError unit :=
  do* map_err (fun _ => BadHex32) (hex32_from_hex s); Ok tt.

Definition require_all_hex32 (l : list string) : outcome BlockError unit :=
  ofold (fun _ s => require_hex32 s) tt l.

Definition validate_promoted_share (share : PromotedBountyShare) : outcome BlockError unit :=
  do* require_hex32 (pbs_proof_hash share);
  do* require_hex32 (pbs_prover share);
  ensure (bool_decide (is_Some (parse_uint u128_max (pbs_reward share)))) BadBountyReward.

(** [PersistedBlock::validate_shape]. *)
Definition validate_shape (b : PersistedBlock) : outcome BlockError unit :=
  do* require_hex32 (b_prev_c b);
  do* require_hex32 (b_c b);
  do* require_hex32 (b_proposer_pk b);
  do* require_all_hex32 (b_selected_share_hashes b);
  do* require_all_hex32 (b_selected_share_pks b);
  do* require_all_hex32 (b_selected_share_reward_pks b);
  do* (if negb (str_is_empty (b_proposer_reward_pk b))
       then require_hex32 (b_proposer_reward_pk b) else Ok tt);
  do* ensure (len (b_selected_share_hashes b) =? len (b_selected_share_pks b)) SharePksLength;
  do* ensure (negb (negb (len (b_selected_share_reward_pks b) =? 0)
                    && negb (len (b_selected_share_reward_pks b) =? len (b_selected_share_hashes b))))
        ShareRewardPksLength;
  do* ensure (b_kmax_applied b =? len (b_selected_share_hashes b)) KmaxApplied;
  do* ok_or (biguint_from_str (b_min_share_score b)) BadMinShareScore;
  let* t_block := ok_or (parse_biguint_hex (b_t_block b)) BadTarget in
  do* ok_or (parse_biguint_hex (b_t_share b)) BadTarget;
  let* weight := ok_or (difficulty_weight t_block) ZeroTarget in
  do* ensure (String.eqb (b_difficulty_weight b) (to_decimal weight)) DifficultyWeightMismatch;
  ofold (fun _ share => validate_promoted_share share) tt (b_promoted_bounty_shares b).

(** ** fork_choice.rs *)

Definition weight_step (total : N) (b : PersistedBlock) : outcome BlockError N :=
  let* weight := ok_or (biguint_from_str (b_difficulty_weight b)) BadDifficultyWeight in
  Ok (total + weight).

Definition cumulative_difficulty_weight (blocks : list PersistedBlock) : outcome BlockError N :=
  ofold weight_step 0 blocks.

Definition head_block_hash (head : PersistedBlock) : outcome BlockError Hex32 := Ok (block_hash head).

(** One turn of the loop of [choose_canonical_head]. *)
Definition choose_step (best : option (N * Hex32)) (chain : list PersistedBlock)
    : outcome BlockError (option (N * Hex32)) :=
  let* head := ok_or (last chain) EmptyCandidate in
  let* weight := cumulative_difficulty_weight chain in
  let* hash := head_block_hash head in
  let wins :=
    match best with
    | None => true
    | Some (best_weight, best_hash) =>
        (best_weight <? weight) || ((weight =? best_weight) && rlt hash best_hash)
    end in
  Ok (if wins then Some (weight, hash) else best).

Definition choose_canonical_head (candidates : list (list PersistedBlock)) : outcome BlockError Hex32 :=
  let* best := ofold choose_step None candidates in
  ok_or (snd <$> best) NoCandidates.

End Block.

(** ** Lemmas *)

(** What [block_hash] commits. *)
Definition committed_fields (b : PersistedBlock) :=
  (b_height b, b_prev_c b, b_selected_share_hashes b, b_selected_share_pks b,
   b_selected_share_reward_pks b, b_proposer_pk b, b_proposer_reward_pk b,
   b_promoted_bounty_shares b, b_ts b, b_t_block b, b_difficulty_epoch b).

Lemma committed_plain b : json_plain (committed b).
Proof.
  assert (forall l, json_plain (strings_value l)) as Hs.
  { intros l. constructor. apply Forall_forall. intros x [y [-> _]]%list_elem_of_fmap. constructor. }
  assert (json_plain (VArray (map promoted_share_value (b_promoted_bounty_shares b)))) as Hp.
  { constructor. apply Forall_forall. intros x [y [-> _]]%list_elem_of_fmap. repeat constructor. }
  unfold committed. constructor. repeat (constructor; [cbn; auto; constructor|]). constructor.
Qed.

Lemma strings_sorted l : sort_keys (strings_value l) = strings_value l.
Proof. unfold strings_value. cbn. f_equal. rewrite map_map. done. Qed.

(** The committed object with its keys in order. *)
Lemma committed_sorted b : sort_keys (committed b) = VObject
  [("difficultyEpoch", VNumber (PosInt (b_difficulty_epoch b)));
   ("height", VNumber (PosInt (b_height b))); ("prevC", VString (b_prev_c b));
   ("promotedBountyShares", sort_keys (VArray (map promoted_share_value (b_promoted_bounty_shares b))));
   ("proposerPk", VString (b_proposer_pk b)); ("proposerRewardPk", VString (b_proposer_reward_pk b));
   ("selectedShareHashes", sort_keys (strings_value (b_selected_share_hashes b)));
   ("selectedSharePks", sort_keys (strings_value (b_selected_share_pks b)));
   ("selectedShareRewardPks", sort_keys (strings_value (b_selected_share_reward_pks b)));
   ("tBlock", VString (b_t_block b)); ("ts", VNumber (PosInt (b_ts b)))].
Proof. reflexivity. Qed.

Lemma committed_sort_inj a b :
  sort_keys (committed a) = sort_keys (committed b) -> committed_fields a = committed_fields b.
Proof.
  rewrite !committed_sorted, !strings_sorted. intros [= E1 E2 E3 E4 E5 E6 E7 E8 E9 E10 E11].
  assert (forall l k, map VString l = map VString k -> l = k) as Hs by (apply map_injective; congruence).
  rewrite !map_map in E4. apply map_injective in E4; [|intros [] [] [=]; congruence].
  unfold committed_fields. by rewrite E1, E2, E3, E4, E5, E6, E10, E11, (Hs _ _ E7), (Hs _ _ E8), (Hs _ _ E9).
Qed.

Lemma committed_same a b : committed_fields a = committed_fields b -> committed a = committed b.
Proof. unfold committed_fields, committed. by intros [= -> -> -> -> -> -> -> -> -> -> ->]. Qed.
