(* ===== verification/BlockTheorems.v ===== *)
(** * Correctness of the block hash and of fork choice

    The properties of Block.v: the hash commits exactly the consensus fields,
    the canonical head is the heaviest chain with the lowest hash whatever the
    order of the candidates, and the weight of well-shaped blocks is derived
    from their targets. *)

From S2P Require Import Prelude Json Externals Hash SignedEnvelope NativeLedger Concrete Block.

Section ForkChoice.
Context {X : Externals}.

(** The rank of a candidate: its total work and its head's hash. *)
Definition chain_rank (chain : list PersistedBlock) : outcome BlockError (N * Hex32) :=
  let* head := ok_or (last chain) EmptyCandidate in
  let* weight := cumulative_difficulty_weight chain in
  Ok (weight, block_hash head).

(** More work, or the same and a hash that is not greater. *)
Definition at_least (a b : N * Hex32) : Prop :=
  b.1 < a.1 \/ (a.1 = b.1 /\ rle a.2 b.2 = true).

Definition best_of (cs : list (list PersistedBlock)) (best : N * Hex32) : Prop :=
  (exists c, c ∈ cs /\ chain_rank c = Ok best) /\
  forall c, c ∈ cs -> exists r, chain_rank c = Ok r /\ at_least best r.

(** ** Lemmas *)

Lemma at_least_trans a b c : at_least a b -> at_least b c -> at_least a c.
Proof.
  unfold at_least. intros [H1|[H1 H2]] [H3|[H3 H4]]; [left; lia|left; lia|left; lia|].
  right. split; [lia|]. by eapply rle_trans.
Qed.

Lemma at_least_antisym a b : at_least a b -> at_least b a -> a = b.
Proof.
  unfold at_least. intros [H1|[H1 H2]] [H3|[H3 H4]]; try lia.
  destruct a, b; cbn in *. f_equal; [done|]. by apply rle_antisym.
Qed.

Lemma choose_step_rank best chain r :
  chain_rank chain = Ok r ->
  choose_step best chain = Ok (Some match best with
    | None => r
    | Some b => if (b.1 <? r.1) || ((r.1 =? b.1) && rlt r.2 b.2) then r else b end).
Proof.
  unfold chain_rank, choose_step, head_block_hash. intros H. run_inv H. injection H as <-. cbn.
  destruct best as [[w h]|]; [|done]. cbn. by destruct (_ || _).
Qed.

Lemma choose_step_fails best chain b :
  choose_step best chain = Ok b -> exists r, chain_rank chain = Ok r.
Proof.
  unfold chain_rank, choose_step, head_block_hash. intros H.
  destruct (last chain) as [hd|]; cbn in *; [|done].
  destruct (cumulative_difficulty_weight chain) as [w| |]; cbn in *; [eauto|done|done].
Qed.

(** The better of two ranks is at least both. *)
Lemma pick_at_least (b r : N * Hex32) :
  let best := if (b.1 <? r.1) || ((r.1 =? b.1) && rlt r.2 b.2) then r else b in
  at_least best b /\ at_least best r /\ (best = b \/ best = r).
Proof.
  cbn. destruct b as [w h], r as [w' h']. unfold at_least, rlt, rle; cbn.
  pose proof (rcmp_refl h) as H1. pose proof (rcmp_refl h') as H2. pose proof (rcmp_flip h' h) as H3.
  destruct (N.ltb_spec w w'), (N.eqb_spec w' w) as [->|Hne], (rcmp h' h) eqn:E; cbn;
    rewrite ?H1, ?H2, ?H3, ?E; cbn; split_and!; auto; left; lia.
Qed.

Lemma choose_run cs : forall b0 b,
  ofold choose_step (Some b0) cs = Ok b ->
  exists best, b = Some best /\ at_least best b0 /\
    (best = b0 \/ exists c, c ∈ cs /\ chain_rank c = Ok best) /\
    forall c, c ∈ cs -> exists r, chain_rank c = Ok r /\ at_least best r.
Proof.
  induction cs as [|c cs IH]; intros b0 b; cbn [ofold].
  { intros [= <-]. exists b0. split_and!; [done| |by left|set_solver].
    right. split; [done|apply rle_refl]. }
  destruct (choose_step (Some b0) c) as [b1| |] eqn:E; cbn [obind]; try done. intros Hrun.
  destruct (choose_step_fails _ _ _ E) as [r Hr]. rewrite (choose_step_rank _ _ _ Hr) in E.
  injection E as <-. destruct (IH _ _ Hrun) as (best & -> & Hge & Hin & Hall).
  destruct (pick_at_least b0 r) as (Hb & Hr' & Hor). exists best. split_and!.
  - done.
  - by eapply at_least_trans.
  - destruct Hin as [->|(c' & Hc' & Hb')]; [|right; exists c'; split; [by right|done]].
    destruct Hor as [->| ->]; [by left|]. right. exists c. split; [by left|done].
  - intros c' [->|Hc']%elem_of_cons; [|by apply Hall].
    exists r. split; [done|]. by eapply at_least_trans.
Qed.

Lemma choose_best cs h : choose_canonical_head cs = Ok h -> exists w, best_of cs (w, h).
Proof.
  unfold choose_canonical_head, best_of. destruct cs as [|c cs]; [done|]. cbn [ofold].
  destruct (choose_step None c) as [b1| |] eqn:E; cbn [obind]; try done.
  destruct (choose_step_fails _ _ _ E) as [r Hr]. rewrite (choose_step_rank _ _ _ Hr) in E. injection E as <-.
  destruct (ofold choose_step (Some r) cs) as [b| |] eqn:Erun; cbn [obind]; try done.
  destruct (choose_run _ _ _ Erun) as ([w h'] & -> & Hge & Hin & Hall). cbn. intros [= ->].
  exists w. split.
  - destruct Hin as [->|(c' & Hc' & Hb)]; [exists c; split; [by left|done]|].
    exists c'. split; [by right|done].
  - intros c' [->|Hc']%elem_of_cons; [eauto|by apply Hall].
Qed.

(** When every candidate has a rank, the choice returns. *)
Lemma choose_total cs :
  cs <> [] -> (forall c, c ∈ cs -> exists r, chain_rank c = Ok r) ->
  exists h, choose_canonical_head cs = Ok h.
Proof.
  intros Hne Hall. unfold choose_canonical_head. destruct cs as [|c cs]; [done|]. cbn [ofold].
  destruct (Hall c ltac:(by left)) as [r Hr]. rewrite (choose_step_rank _ _ _ Hr). cbn [obind].
  destruct (ofold_total (fun b : option (N * Hex32) => is_Some b) choose_step cs) with (s := Some r)
    as (b & -> & [[w h] ->]); [|by eexists|cbn; eauto].
  intros b c' Hc' _. destruct (Hall c' ltac:(by right)) as [r' Hr'].
  rewrite (choose_step_rank _ _ _ Hr'). eauto.
Qed.

End ForkChoice.

Section ShapeFacts.
Context {X : Externals} {L : ExternalsLaws X}.

(** The shape test pins the weight to the target. *)
Lemma validate_shape_weight b :
  validate_shape b = Ok tt ->
  exists t, parse_biguint_hex (b_t_block b) = Some t /\ t <> 0 /\
    b_difficulty_weight b = to_decimal (two_to_256 / t).
Proof.
  unfold validate_shape. intros H. run_inv H; breflect.
  all: match goal with H : difficulty_weight ?t = Some ?w |- _ =>
         unfold difficulty_weight in H; destruct (N.eqb_spec t 0); [done|]; injection H as <- end.
  all: eexists; split_and!; [reflexivity|done|done].
Qed.

Lemma weight_step_shaped b t n :
  parse_biguint_hex (b_t_block b) = Some t -> b_difficulty_weight b = to_decimal (two_to_256 / t) ->
  weight_step n b = Ok (n + two_to_256 / t).
Proof using L. intros _ Hw. unfold weight_step. rewrite Hw, biguint_from_str_decimal. done. Qed.

End ShapeFacts.

(** ** The theorems *)

Section Theorems.
Context {X : Externals}.

(** C11: the canonical head is the head of a candidate with the most work, the
    lowest hash among those, exactly when every candidate has a rank; and the
    choice does not depend on the order in which candidates arrive. *)
Theorem canonical_head_converges cs h :
  (choose_canonical_head cs = Ok h <-> exists w, best_of cs (w, h)) /\
  forall cs', cs ≡ₚ cs' -> choose_canonical_head cs = Ok h <-> choose_canonical_head cs' = Ok h.
Proof.
  assert (forall cs, choose_canonical_head cs = Ok h <-> exists w, best_of cs (w, h)) as Hiff.
  { clear cs. intros cs. split; [apply choose_best|]. intros [w [[c [Hc Hr]] Hall]].
    destruct (choose_total cs) as [h' Hh'].
    - intros ->. by apply elem_of_nil in Hc.
    - intros c' (r & Hr' & _)%Hall. eauto.
    - destruct (choose_best _ _ Hh') as [w' [[c1 [Hc1 Hr1]] Hall']].
      destruct (Hall _ Hc1) as (r1 & E1 & Hge1). rewrite Hr1 in E1. injection E1 as <-.
      destruct (Hall' _ Hc) as (r2 & E2 & Hge2). rewrite Hr in E2. injection E2 as <-.
      assert ((w, h) = (w', h')) as E by (by apply at_least_antisym). injection E as <- <-. done. }
  split; [apply Hiff|]. intros cs' Hp. rewrite !Hiff. unfold best_of. by setoid_rewrite Hp.
Qed.

(** C28: the preimage of the block hash commits the height, the parent, the
    selected shares with their owners and reward recipients, the proposer and
    its recipient, the promoted bounty shares, the timestamp, the target and
    the difficulty epoch: two blocks have the same preimage exactly when they
    agree on all of these. *)
Theorem block_preimage_commits {L : ExternalsLaws X} a b :
  block_preimage a = block_preimage b <-> committed_fields a = committed_fields b.
Proof.
  unfold block_preimage, canonicalize. split.
  - intros E. apply app_inv_head in E.
    apply serde_to_vec_inj in E; [by apply committed_sort_inj|apply sort_keys_plain, committed_plain..].
  - intros E. by rewrite (committed_same _ _ E).
Qed.

(** The work of a chain of well-shaped blocks is the sum over the blocks of
    2^256 divided by the block's own target, whatever the blocks declare. *)
Theorem shaped_chain_weight {L : ExternalsLaws X} blocks :
  Forall (fun b => validate_shape b = Ok tt) blocks ->
  exists ts, Forall2 (fun b t => parse_biguint_hex (b_t_block b) = Some t /\ t <> 0) blocks ts /\
    cumulative_difficulty_weight blocks = Ok (fold_right (fun t n => two_to_256 / t + n) 0 ts).
Proof.
  intros Hall. unfold cumulative_difficulty_weight.
  assert (forall n, exists ts,
    Forall2 (fun b t => parse_biguint_hex (b_t_block b) = Some t /\ t <> 0) blocks ts /\
    ofold weight_step n blocks = Ok (fold_right (fun t n => two_to_256 / t + n) 0 ts + n)) as Hgen.
  { induction Hall as [|b blocks Hb _ IH]; intros n; [exists []; split; [constructor|done]|].
    destruct (validate_shape_weight b Hb) as (t & Ht & Hnz & Hw).
    destruct (IH (n + two_to_256 / t)) as (ts & Hts & Hrun).
    exists (t :: ts). split; [by constructor|].
    cbn [ofold]. rewrite (weight_step_shaped b t n Ht Hw). cbn [obind fold_right]. rewrite Hrun. f_equal. lia. }
  destruct (Hgen 0) as (ts & Hts & Hrun). exists ts. split; [done|]. rewrite Hrun. f_equal. lia.
Qed.

End Theorems.

(** ** Witnesses *)

Module BlockDemo.

Definition zeros : string := repeat_char "0" 64.
Definition target : string := repeat_char "f" 64.

Definition block (height ts : N) : PersistedBlock :=
  mkPersistedBlock height zeros zeros zeros [zeros] [zeros] [] EmptyString [] "0" 0 1 0 target target
    "1" 0 0 0 ts [].

End BlockDemo.

Lemma block_preimage_commits_witness :
  block_preimage (BlockDemo.block 1 5) = block_preimage (BlockDemo.block 1 6) <->
  committed_fields (BlockDemo.block 1 5) = committed_fields (BlockDemo.block 1 6).
Proof. exact (block_preimage_commits (L := concrete_laws) (BlockDemo.block 1 5) (BlockDemo.block 1 6)). Defined.

Lemma shaped_chain_weight_witness :
  exists ts, Forall2 (fun b t => parse_biguint_hex (b_t_block b) = Some t /\ t <> 0)
      [BlockDemo.block 0 1; BlockDemo.block 1 2] ts /\
    cumulative_difficulty_weight [BlockDemo.block 0 1; BlockDemo.block 1 2]
    = Ok (fold_right (fun t n => two_to_256 / t + n) 0 ts).
Proof.
  apply (shaped_chain_weight (L := concrete_laws)). repeat (constructor; [reflexivity|]). constructor.
Defined.
