(* ===== verification/Difficulty.v ===== *)
(** * Difficulty retargeting and median time past

    crates/boole-core/src/difficulty.rs. Targets are [BigUint]s; spans and
    timestamps are 64-bit. [u64::clamp] aborts when its bounds are crossed. *)

From S2P Require Import Prelude Json Externals Hash Block.

Record DifficultyEvidence := mkDifficultyEvidence {
  de_mode : string;
  de_retarget : string;
  de_difficulty_epoch : N;
  de_t_block : string;
  de_t_share : string;
  de_difficulty_weight : string
}.

Record DifficultyRetargetPolicy := mkRetargetPolicy {
  rp_target_block_ms : N;
  rp_retarget_every_blocks : N;
  rp_max_adjustment_factor : N
}.

Inductive DifficultyError :=
| ZeroTargetBlockMs
| RetargetEveryTooSmall
| ZeroAdjustmentFactor
| ZeroCurrentTarget
| ZeroExpectedSpan
| MissingPrevious
| EmptyWindow
| UnparseableTarget
| ZeroWeightTarget
| EpochMismatch (height : N)
| TBlockMismatch (height : N)
| WeightMismatch (height : N)
| TimestampNotPastMedian (index : N).

Definition policy_validate (p : DifficultyRetargetPolicy) : outcome DifficultyError unit :=
  do* ensure (negb (rp_target_block_ms p =? 0)) ZeroTargetBlockMs;
  do* ensure (negb (rp_retarget_every_blocks p <? 2)) RetargetEveryTooSmall;
  ensure (negb (rp_max_adjustment_factor p <? 1)) ZeroAdjustmentFactor.

(** [Ord::clamp]. *)
Definition clamp {E} (v lo hi : N) : outcome E N :=
  if hi <? lo then Panic else Ok (if v <? lo then lo else if hi <? v then hi else v).

Definition max_target : N := N.shiftl 1 256 - 1.

Definition retarget_t_block (current_t_block actual_span_ms expected_span_ms : N)
    (policy : DifficultyRetargetPolicy) : outcome DifficultyError N :=
  do* policy_validate policy;
  do* ensure (negb (current_t_block =? 0)) ZeroCurrentTarget;
  do* ensure (negb (expected_span_ms =? 0)) ZeroExpectedSpan;
  let factor := rp_max_adjustment_factor policy in
  let min_actual := N.max (expected_span_ms / factor) 1 in
  let max_actual := saturating_mul u64_max expected_span_ms factor in
  let* clamped_actual := clamp actual_span_ms min_actual max_actual in
  let numerator := current_t_block * clamped_actual in
  let next := numerator / expected_span_ms in
  let next := if next =? 0 then 1 else next in
  Ok (if max_target <? next then max_target else next).

(** [sort_unstable] of integers. *)
Definition sort_N (l : list N) : list N := sort_by N.compare l.

Definition MEDIAN_TIME_PAST_WINDOW : N := 11.

(** [window[window.len() / 2]] of the sorted window; an empty window aborts. *)
Definition median {E} (window : list N) : outcome E N :=
  expect (sort_N window !! (length window / 2)%nat).

(** The timestamps the rule for block [index] looks at. *)
Definition mtp_window (ts : list N) (index : nat) : list N :=
  drop (index - N.to_nat MEDIAN_TIME_PAST_WINDOW) (take index ts).

Section Difficulty.
Context {X : Externals}.

Definition difficulty_evidence (t_block : string) (difficulty_epoch : N) (retarget_enabled : bool)
    : outcome DifficultyError DifficultyEvidence :=
  let* target := ok_or (parse_biguint_hex t_block) UnparseableTarget in
  let* weight := ok_or (difficulty_weight target) ZeroWeightTarget in
  Ok (mkDifficultyEvidence
        (if retarget_enabled then "epoch-retarget-v0" else "static-calibrated")
        (if retarget_enabled then "enabled" else "not-enabled")
        difficulty_epoch ("0x" +:+ hex064 target) "" (to_decimal weight)).

Definition expected_retarget_difficulty_for_height (existing_blocks : list PersistedBlock)
    (initial_t_block : string) (policy : DifficultyRetargetPolicy)
    : outcome DifficultyError DifficultyEvidence :=
  do* policy_validate policy;
  let height := len existing_blocks in
  if height =? 0 then difficulty_evidence initial_t_block 0 false else
  if (height <? rp_retarget_every_blocks policy)
     || negb (height mod rp_retarget_every_blocks policy =? 0)
  then
    let* previous := ok_or (last existing_blocks) MissingPrevious in
    difficulty_evidence (b_t_block previous) (b_difficulty_epoch previous) true
  else
    let window_len := N.to_nat (rp_retarget_every_blocks policy) in
    let window := drop (length existing_blocks - window_len) existing_blocks in
    let* first := ok_or (head window) EmptyWindow in
    let* last := ok_or (last window) EmptyWindow in
    let* current := ok_or (parse_biguint_hex (b_t_block last)) UnparseableTarget in
    let actual_span_ms := N.max (b_ts last - b_ts first) 1 in
    let expected_span_ms :=
      N.max (saturating_mul u64_max (rp_target_block_ms policy) (rp_retarget_every_blocks policy - 1)) 1 in
    let* next := retarget_t_block current actual_span_ms expected_span_ms policy in
    difficulty_evidence ("0x" +:+ hex064 next) (height / rp_retarget_every_blocks policy) true.

(** One block against the expectation of its prefix. *)
Definition check_difficulty (initial_t_block : string) (policy : DifficultyRetargetPolicy)
    (previous : list PersistedBlock) (b : PersistedBlock)
    : outcome DifficultyError (list PersistedBlock) :=
  let* expected := expected_retarget_difficulty_for_height previous initial_t_block policy in
  do* ensure (b_difficulty_epoch b =? de_difficulty_epoch expected) (EpochMismatch (b_height b));
  do* ensure (String.eqb (b_t_block b) (de_t_block expected)) (TBlockMismatch (b_height b));
  do* ensure (String.eqb (b_difficulty_weight b) (de_difficulty_weight expected)) (WeightMismatch (b_height b));
  Ok (previous ++ [b]).

Definition validate_retargeted_difficulty (blocks : list PersistedBlock) (initial_t_block : string)
    (policy : DifficultyRetargetPolicy) : outcome DifficultyError unit :=
  do* ofold (check_difficulty initial_t_block policy) [] blocks; Ok tt.

(** The body of the loop of [verify_block_ts_median_time_past] at [index]. *)
Definition check_ts (blocks : list PersistedBlock) (index : nat) : outcome DifficultyError unit :=
  let window := mtp_window (map b_ts blocks) index in
  let* m := median window in
  let* b := expect (blocks !! index) in
  ensure (negb (b_ts b <=? m)) (TimestampNotPastMedian (N.of_nat index)).

Definition verify_block_ts_median_time_past (blocks : list PersistedBlock)
    : outcome DifficultyError unit :=
  ofold (fun _ index => check_ts blocks index) tt (seq 1 (length blocks - 1)).

End Difficulty.

(** ** Lemmas *)

Lemma policy_validate_Ok p :
  policy_validate p = Ok tt <->
  rp_target_block_ms p <> 0 /\ 2 <= rp_retarget_every_blocks p /\ 1 <= rp_max_adjustment_factor p.
Proof.
  unfold policy_validate. split.
  - intros H. run_inv H. breflect. lia.
  - intros (H1 & H2 & H3). apply N.eqb_neq in H1. apply N.ltb_ge in H2, H3. by rewrite H1, H2, H3.
Qed.

Lemma policy_validate_total p : policy_validate p <> Panic.
Proof. unfold policy_validate. total_tac. Qed.

#[export] Hint Resolve policy_validate_total : total.

(** The retarget as arithmetic. *)
Definition clamped_span (actual expected factor : N) : N :=
  N.max (N.min actual (saturating_mul u64_max expected factor)) (N.max (expected / factor) 1).

Lemma clamped_span_bounds expected factor :
  1 <= expected <= u64_max -> 1 <= factor ->
  N.max (expected / factor) 1 <= saturating_mul u64_max expected factor.
Proof.
  intros [He Hu] Hf. unfold saturating_mul.
  assert (expected / factor <= expected) by (apply N.div_le_upper_bound; nia). nia.
Qed.

Lemma retarget_eq t actual expected p :
  policy_validate p = Ok tt -> t <> 0 -> 1 <= expected <= u64_max ->
  retarget_t_block t actual expected p
  = Ok (N.min (N.max (t * clamped_span actual expected (rp_max_adjustment_factor p) / expected) 1) max_target).
Proof.
  intros Hp Ht He. pose proof Hp as (_ & _ & Hf)%policy_validate_Ok.
  unfold retarget_t_block. rewrite Hp. apply N.eqb_neq in Ht as ->. cbn [obind ensure negb].
  destruct (N.eqb_spec expected 0); [lia|]. cbn [obind ensure negb].
  pose proof (clamped_span_bounds expected _ He Hf) as Hb. unfold clamp, clamped_span.
  set (lo := N.max (expected / _) 1) in *. set (hi := saturating_mul _ _ _) in *.
  destruct (N.ltb_spec hi lo); [lia|]. cbn [obind]. f_equal.
  assert ((if actual <? lo then lo else if hi <? actual then hi else actual) = N.max (N.min actual hi) lo) as ->.
  { destruct (N.ltb_spec actual lo), (N.ltb_spec hi actual); lia. }
  set (q := _ / expected). destruct (N.eqb_spec q 0) as [->|Hq].
  - destruct (N.ltb_spec max_target 1); [vm_compute in H0; discriminate H0|].
    change (N.max 0 1) with 1. lia.
  - destruct (N.ltb_spec max_target q); lia.
Qed.

Lemma sort_N_perm l : sort_N l ≡ₚ l.
Proof. apply sort_by_perm. Qed.

Lemma sort_N_sorted l : StronglySorted N.le (sort_N l).
Proof.
  assert (forall a b, cmp_le N.compare a b <-> a <= b) as Hle.
  { intros a b. unfold cmp_le. by rewrite N.compare_le_iff. }
  pose proof (sort_by_sorted N.compare) as Hs.
  assert (StronglySorted (cmp_le N.compare) (sort_N l)) as H.
  { apply Hs; intros *; rewrite !Hle; lia. }
  induction H as [|x k Hk IH Hx]; constructor; [done|].
  eapply Forall_impl; [exact Hx|]. intros y Hy. by apply Hle.
Qed.

(** How many entries lie strictly below a value. *)
Definition below (x : N) (l : list N) : nat := length (filter (fun y => y < x) l).

(** In a sorted list an entry lies below a value exactly when its index is less
    than the number of entries that do. *)
Lemma sorted_below l i m x :
  StronglySorted N.le l -> l !! i = Some m -> m < x <-> (i < below x l)%nat.
Proof.
  unfold below. intros Hs. revert i. induction Hs as [|y k Hk IH Hy]; intros [|i] Hi; try discriminate Hi.
  - injection Hi as ->. rewrite filter_cons. case_decide as Hd; cbn; [split; [lia|done]|].
    split; [done|]. intros Hlt. exfalso.
    destruct (filter (fun y => y < x) k) as [|z f] eqn:Ef; [cbn in Hlt; lia|].
    assert (z ∈ filter (fun y => y < x) k) as Hz by (rewrite Ef; by left).
    apply list_elem_of_filter in Hz as [? Hz]. rewrite Forall_forall in Hy. specialize (Hy _ Hz). lia.
  - cbn in Hi. rewrite filter_cons. case_decide as Hd; cbn; [rewrite (IH i Hi); lia|].
    rewrite Forall_forall in Hy. pose proof (Hy m ltac:(by eapply list_elem_of_lookup_2)).
    split; [lia|]. intros Hlt. apply (IH i Hi). lia.
Qed.

Lemma below_perm x l k : l ≡ₚ k -> below x l = below x k.
Proof. intros Hp. unfold below. by rewrite Hp. Qed.

(** A value exceeds the median exactly when it exceeds a strict majority. *)
Lemma median_majority {E} w m x :
  median (E:=E) w = Ok m -> m < x <-> (length w < 2 * below x w)%nat.
Proof.
  unfold median. intros Hm. destruct (sort_N w !! _) as [m'|] eqn:Ei; [|done]. injection Hm as ->.
  rewrite (sorted_below _ _ _ x (sort_N_sorted w) Ei), (below_perm x _ w (sort_N_perm w)).
  pose proof (Nat.div_mod_eq (length w) 2). pose proof (Nat.mod_upper_bound (length w) 2). lia.
Qed.

Lemma median_Ok {E} w : w <> [] -> exists m, median (E:=E) w = Ok m.
Proof.
  intros Hw. unfold median. destruct (sort_N w !! (length w / 2)%nat) as [m|] eqn:E'; [by eexists|].
  apply lookup_ge_None in E'. rewrite sort_N_perm in E'. destruct w as [|x w]; [done|].
  pose proof (Nat.div_lt (length (x :: w)) 2). cbn [length] in *. lia.
Qed.

Section DifficultyFacts.
Context {X : Externals}.

Lemma check_difficulty_Ok init p prev b prev' :
  check_difficulty init p prev b = Ok prev' <->
  prev' = prev ++ [b] /\ exists ev, expected_retarget_difficulty_for_height prev init p = Ok ev /\
    b_difficulty_epoch b = de_difficulty_epoch ev /\ b_t_block b = de_t_block ev /\
    b_difficulty_weight b = de_difficulty_weight ev.
Proof.
  unfold check_difficulty. split.
  - intros H. run_inv H. breflect. injection H as <-. eauto 10.
  - intros (-> & ev & -> & H1 & H2 & H3). cbn [obind].
    rewrite H1, H2, H3, N.eqb_refl, !String.eqb_refl. done.
Qed.

Lemma check_difficulty_run init p blocks : forall prev,
  is_ok (ofold (check_difficulty init p) prev blocks) = true <->
  forall i b, blocks !! i = Some b ->
    is_ok (check_difficulty init p (prev ++ take i blocks) b) = true.
Proof.
  induction blocks as [|b blocks IH]; intros prev; cbn [ofold]; [done|]. split.
  - intros (prev' & Hb & Hrun)%is_ok_bind [|i] b'; cbn.
    + intros [= ->]. rewrite app_nil_r. by rewrite Hb.
    + intros Hi. apply check_difficulty_Ok in Hb as [-> _]. apply (IH (prev ++ [b])) in Hi; [|done].
      by rewrite <- app_assoc in Hi.
  - intros Hall. specialize (Hall 0%nat b eq_refl) as Hb. cbn in Hb. rewrite app_nil_r in Hb.
    apply is_ok_Ok in Hb as [prev' Hb]. rewrite Hb. cbn [obind].
    apply check_difficulty_Ok in Hb as [-> _]. apply IH. intros i b' Hi.
    specialize (Hall (S i) b' Hi). cbn in Hall. by rewrite <- app_assoc.
Qed.

Lemma check_ts_Ok blocks i b :
  (1 <= i)%nat -> blocks !! i = Some b ->
  check_ts blocks i <> Panic /\
  (check_ts blocks i = Ok tt <->
   (length (mtp_window (map b_ts blocks) i) < 2 * below (b_ts b) (mtp_window (map b_ts blocks) i))%nat).
Proof.
  intros Hi Hb. unfold check_ts. set (w := mtp_window (map b_ts blocks) i).
  assert (w <> []) as Hw.
  { intros E. apply (f_equal length) in E. unfold w, mtp_window in E.
    apply lookup_lt_Some in Hb. rewrite length_drop, length_take, length_map in E.
    change (N.to_nat MEDIAN_TIME_PAST_WINDOW) with 11%nat in E. cbn in E. lia. }
  destruct (median_Ok (E:=DifficultyError) w Hw) as [m Hm]. rewrite Hm, Hb. cbn [obind expect].
  split; [apply total_ensure|]. rewrite <- (median_majority w m (b_ts b) Hm).
  destruct (N.leb_spec (b_ts b) m); cbn; split; try done; lia.
Qed.

Lemma seq_blocks (blocks : list PersistedBlock) i : i ∈ seq 1 (length blocks - 1) ->
  (1 <= i)%nat /\ exists b, blocks !! i = Some b.
Proof. intros Hi. apply elem_of_seq in Hi. split; [lia|]. apply lookup_lt_is_Some. lia. Qed.

Lemma verify_ts_no_panic blocks : verify_block_ts_median_time_past blocks <> Panic.
Proof.
  apply (ofold_no_panic (fun _ => True)); [|done]. intros [] i (Hi & b & Hb)%seq_blocks _.
  split; [|done]. by apply (check_ts_Ok blocks i b).
Qed.

End DifficultyFacts.

(** ** The theorems *)

(** For a valid policy the retarget is total and moderate: the new target
    is at least 1, at most 2^256 - 1 and at most the adjustment factor times the
    old one; it is at least the old one divided by the factor when the factor
    divides the expected span; a longer span never gives a lower target; and a
    span on schedule changes nothing. *)
Theorem retarget_bounded t actual expected p :
  policy_validate p = Ok tt -> 1 <= t <= max_target -> 1 <= expected <= u64_max ->
  exists n, retarget_t_block t actual expected p = Ok n /\
    1 <= n /\ n <= max_target /\ n <= t * rp_max_adjustment_factor p /\
    ((rp_max_adjustment_factor p | expected) -> t / rp_max_adjustment_factor p <= n) /\
    (forall actual' n', actual <= actual' -> retarget_t_block t actual' expected p = Ok n' -> n <= n') /\
    (actual = expected -> n = t).
Proof.
  intros Hp Ht He. pose proof Hp as (_ & _ & Hf)%policy_validate_Ok.
  eexists. split; [by apply retarget_eq; [|lia|]|].
  set (f := rp_max_adjustment_factor p) in *.
  pose proof (clamped_span_bounds expected f He Hf) as Hb.
  assert (1 <= max_target) as Hmt by lia.
  split_and!; [lia|lia| | | |].
  - assert (t * clamped_span actual expected f / expected <= t * f); [|nia].
    apply N.div_le_upper_bound; [lia|]. unfold clamped_span, saturating_mul in *. nia.
  - intros [k Hk]. assert (t / f <= max_target) by (apply N.div_le_upper_bound; nia).
    assert (t / f <= t * clamped_span actual expected f / expected); [|lia].
    assert (expected / f = k) as Ek by (subst expected; apply N.div_mul; lia).
    transitivity (t * k / expected).
    + subst expected. rewrite (N.mul_comm k f), N.Div0.div_mul_cancel_r by nia. done.
    + apply N.Div0.div_le_mono. unfold clamped_span. rewrite Ek. nia.
  - intros actual' n' Ha. rewrite (retarget_eq t actual' expected p Hp) by lia. intros [= <-]. fold f.
    assert (t * clamped_span actual expected f / expected <= t * clamped_span actual' expected f / expected); [|lia].
    apply N.Div0.div_le_mono, N.mul_le_mono_l. unfold clamped_span. lia.
  - intros ->. assert (clamped_span expected expected f = expected) as ->.
    { unfold clamped_span, saturating_mul in *.
      assert (expected / f <= expected) by (apply N.div_le_upper_bound; nia). nia. }
    rewrite N.div_mul by lia. lia.
Qed.

Section Theorems.
Context {X : Externals}.


(** The timestamp rule never aborts, and it holds exactly when every block
    after the first has a timestamp above a strict majority of the timestamps
    of the up to eleven blocks before it. *)
Theorem median_time_past_majority blocks :
  verify_block_ts_median_time_past blocks <> Panic /\
  (verify_block_ts_median_time_past blocks = Ok tt <->
   forall i b, (1 <= i)%nat -> blocks !! i = Some b ->
     (length (mtp_window (map b_ts blocks) i) < 2 * below (b_ts b) (mtp_window (map b_ts blocks) i))%nat).
Proof.
  split; [apply verify_ts_no_panic|]. unfold verify_block_ts_median_time_past.
  pose proof (seq_blocks blocks) as Hin. split.
  - intros Hrun i b Hi Hb. apply (check_ts_Ok blocks i b Hi Hb).
    assert (i ∈ seq 1 (length blocks - 1)) as Hs.
    { apply elem_of_seq. apply lookup_lt_Some in Hb. lia. }
    clear Hin Hi Hb. induction (seq 1 (length blocks - 1)) as [|j l IH]; [by apply elem_of_nil in Hs|].
    cbn [ofold] in Hrun. destruct (check_ts blocks j) as [[]| |] eqn:Ej; try done.
    apply elem_of_cons in Hs as [->|Hs]; [done|]. by apply IH.
  - intros Hall. destruct (ofold_total (fun _ => True) (fun _ index => check_ts blocks index)
      (seq 1 (length blocks - 1))) with (s := tt) as ([] & Hrun & _); [|done|done].
    intros [] i (Hi & b & Hb)%Hin _. exists tt. split; [|done]. apply (check_ts_Ok blocks i b Hi Hb). eauto.
Qed.

End Theorems.

(** ** Witnesses *)

Lemma retarget_bounded_witness :
  exists n, retarget_t_block 1000 240000 60000 (mkRetargetPolicy 60000 2 4) = Ok n /\ n <= 1000 * 4.
Proof.
  destruct (retarget_bounded 1000 240000 60000 (mkRetargetPolicy 60000 2 4)) as (n & Hn & _ & _ & Hle & _);
    [reflexivity|vm_compute; split; discriminate|vm_compute; split; discriminate|].
  exists n. split; [exact Hn|exact Hle].
Defined.
