(* ===== verification/NativeChain.v ===== *)
(** * The native test-coin network and its chain

    crates/boole-core/src/native_network.rs and native_chain.rs: the compiled
    network policy, blocks and their proof of work, the chain with its bounded
    undo cache, block validation, mining and forking. [serde_json::Map] is
    sorted by key, so an object built by the code lists its keys in order. *)

From S2P Require Import Prelude Json Externals Hash SignedEnvelope NativeLedger Difficulty.

(** ** native_network.rs *)

Definition NATIVE_TESTNET_NETWORK_ID : string := "boole-native-testnet-1".
Definition NATIVE_COIN_UNIT : N := 100000000.

Record NativeNetwork := mkNativeNetwork {
  nn_schema : string;
  nn_rule_version : N;
  nn_network_id : string;
  nn_symbol : string;
  nn_decimals : N;
  nn_total_supply : N;
  nn_initial_reward : N;
  nn_halving_epoch : N;
  nn_minimum_fee : N;
  nn_reward_maturity : N;
  nn_initial_target : string;
  nn_retarget : DifficultyRetargetPolicy;
  nn_median_time_past_window : N;
  nn_max_transfers_per_block : N;
  nn_max_transfer_bytes : N;
  nn_max_block_bytes : N;
  nn_useful_work_rewards : bool;
  nn_reward_allocation : string;
  nn_fee_allocation : string;
  nn_genesis_issuance : N
}.

Definition native_testnet : NativeNetwork :=
  mkNativeNetwork "boole.native.genesis.v1" 1 NATIVE_TESTNET_NETWORK_ID "tBOOLE" 8
    (1000000000 * NATIVE_COIN_UNIT) (50000 * NATIVE_COIN_UNIT) 10000 1000 10
    ("0000" +:+ repeat_char "f" 60) (mkRetargetPolicy 60000 2 4) MEDIAN_TIME_PAST_WINDOW
    512 4096 524288 false "producer-only" "producer-no-burn" 0.

Definition serialize_amount (amount : N) : Value := VString (to_decimal amount).

Definition policy_value (p : DifficultyRetargetPolicy) : Value :=
  VObject [("maxAdjustmentFactor", VNumber (PosInt (rp_max_adjustment_factor p)));
           ("retargetEveryBlocks", VNumber (PosInt (rp_retarget_every_blocks p)));
           ("targetBlockMs", VNumber (PosInt (rp_target_block_ms p)))].

(** The derived [Serialize] of the network. *)
Definition network_value (n : NativeNetwork) : Value :=
  VObject [("decimals", VNumber (PosInt (nn_decimals n)));
           ("feeAllocation", VString (nn_fee_allocation n));
           ("genesisIssuance", serialize_amount (nn_genesis_issuance n));
           ("halvingEpoch", VNumber (PosInt (nn_halving_epoch n)));
           ("initialReward", serialize_amount (nn_initial_reward n));
           ("initialTarget", VString (nn_initial_target n));
           ("maxBlockBytes", VNumber (PosInt (nn_max_block_bytes n)));
           ("maxTransferBytes", VNumber (PosInt (nn_max_transfer_bytes n)));
           ("maxTransfersPerBlock", VNumber (PosInt (nn_max_transfers_per_block n)));
           ("medianTimePastWindow", VNumber (PosInt (nn_median_time_past_window n)));
           ("minimumFee", serialize_amount (nn_minimum_fee n));
           ("networkId", VString (nn_network_id n));
           ("retarget", policy_value (nn_retarget n));
           ("rewardAllocation", VString (nn_reward_allocation n));
           ("rewardMaturity", VNumber (PosInt (nn_reward_maturity n)));
           ("ruleVersion", VNumber (PosInt (nn_rule_version n)));
           ("schema", VString (nn_schema n));
           ("symbol", VString (nn_symbol n));
           ("totalSupply", serialize_amount (nn_total_supply n));
           ("usefulWorkRewards", VBool (nn_useful_work_rewards n))].

Definition network_ledger (n : NativeNetwork) : outcome NativeLedgerError NativeLedger :=
  let* schedule := schedule_new (nn_total_supply n) (nn_initial_reward n) (nn_halving_epoch n) in
  new_with_rules (nn_network_id n) schedule (nn_minimum_fee n) (nn_reward_maturity n).

(** A string literal ended by a zero byte. *)
Definition tag0 (s : string) : list byte := as_bytes s ++ [x00].

(** [u64::to_le_bytes]. *)
Fixpoint le_bytes (count : nat) (n : N) : list byte :=
  match count with O => [] | S c => byte_of n :: le_bytes c (n / 256) end.

(** ** native_chain.rs: transfers and blocks *)

Definition BLOCK_SCHEMA : string := "boole.native.block.v1".
Definition BLOCK_AUTH_SCHEMA : string := "boole.native.block.authorization.v1".
Definition NATIVE_RECENT_FORK_BLOCKS : N := 256.

Record NativeTransfer := mkNativeTransfer {
  nt_schema : string;
  nt_payload : NativeTransferPayload;
  nt_pk : string;
  nt_signature : string;
  nt_network_id : string
}.

Record NativeBlockHeader := mkNativeBlockHeader {
  nh_schema : string;
  nh_network_id : string;
  nh_genesis_hash : string;
  nh_height : N;
  nh_previous_hash : string;
  nh_producer_pk : string;
  nh_reward_pk : string;
  nh_timestamp_ms : N;
  nh_target : string;
  nh_transfers_root : string
}.

Record NativeBlock := mkNativeBlock {
  nb_header : NativeBlockHeader;
  nb_nonce : string;
  nb_transfers : list NativeTransfer;
  nb_producer_signature : string
}.

Record NativeBlockTemplate := mkNativeBlockTemplate {
  tp_header : NativeBlockHeader;
  tp_transfers : list NativeTransfer
}.

Record VerifiedBlockUndo := mkVerifiedBlockUndo {
  vu_post_hash : Hex32;
  vu_previous_work : N;
  vu_ledger : NativeLedgerUndo
}.

Record NativeChain := mkNativeChain {
  nc_network : NativeNetwork;
  nc_blocks : list NativeBlock;
  nc_ledger : NativeLedger;
  nc_cumulative_work : N;
  nc_recent_undo : list VerifiedBlockUndo
}.

Record PreparedNativeBlock := mkPreparedNativeBlock {
  pn_block : NativeBlock;
  pn_ledger : NativeLedger;
  pn_cumulative_work : N;
  pn_undo : NativeLedgerUndo
}.

Inductive ChainError :=
| EnvelopeSchema
| PayloadDecode
| NetworkRequired
| TransferTooLarge
| TooManyTransfers
| BlockTooLarge
| BadNonce
| NoncanonicalNonce
| AuthorizationMismatch
| AuthorizationMalformed (e : EnvelopeError)
| InvalidProducerSignature
| ForeignGenesis
| HeightOverflow
| NotExtendingHead
| BadHex
| TimestampNotPastMedianTime
| TimestampOverflow
| RetargetOverflow
| UnexpectedTarget
| InsufficientWork
| TransferCommitmentMismatch
| ZeroTargetWeight
| StalePrepared
| ForkAboveHead
| ForkNeedsReplay
| UndoHeadMismatch
| LedgerFailed (e : NativeLedgerError)
| RetargetFailed (e : DifficultyError).

Section NativeChain.
Context {X : Externals} {P : PayloadSerde}.

Definition genesis_hash (n : NativeNetwork) : Hex32 :=
  blake3 (tag0 "boole.native.genesis.v1" ++ canonicalize (network_value n)).

Definition hex32 (s : string) : outcome ChainError Hex32 :=
  map_err (fun _ => BadHex) (hex32_from_hex s).

(** The derived [Serialize]s, in declaration order: [serde_json::to_vec] prints
    a struct so; [canonicalize] sorts the keys anyway. *)
Definition transfer_value (t : NativeTransfer) : Value :=
  VObject [("schema", VString (nt_schema t)); ("payload", payload_to_value (nt_payload t));
           ("pk", VString (nt_pk t)); ("signature", VString (nt_signature t));
           ("network_id", VString (nt_network_id t))].

Definition header_value (h : NativeBlockHeader) : Value :=
  VObject [("schema", VString (nh_schema h)); ("networkId", VString (nh_network_id h));
           ("genesisHash", VString (nh_genesis_hash h)); ("height", VNumber (PosInt (nh_height h)));
           ("previousHash", VString (nh_previous_hash h)); ("producerPk", VString (nh_producer_pk h));
           ("rewardPk", VString (nh_reward_pk h)); ("timestampMs", VNumber (PosInt (nh_timestamp_ms h)));
           ("target", VString (nh_target h)); ("transfersRoot", VString (nh_transfers_root h))].

Definition block_value (b : NativeBlock) : Value :=
  VObject [("header", header_value (nb_header b)); ("nonce", VString (nb_nonce b));
           ("transfers", VArray (map transfer_value (nb_transfers b)));
           ("producerSignature", VString (nb_producer_signature b))].

Definition transfer_try_from (envelope : SignedEnvelope) : outcome ChainError NativeTransfer :=
  do* ensure (String.eqb (env_schema envelope) SIGNED_ENVELOPE_SCHEMA) EnvelopeSchema;
  let* payload := ok_or (payload_from_value (env_payload envelope)) PayloadDecode in
  let* network_id := ok_or (env_network_id envelope) NetworkRequired in
  Ok (mkNativeTransfer (env_schema envelope) payload (env_pk envelope) (env_signature envelope) network_id).

Definition transfer_envelope (t : NativeTransfer) : outcome ChainError SignedEnvelope :=
  do* ensure (String.eqb (nt_schema t) SIGNED_ENVELOPE_SCHEMA) EnvelopeSchema;
  Ok (mkSignedEnvelope SIGNED_ENVELOPE_SCHEMA (payload_to_value (nt_payload t)) (nt_pk t)
        (nt_signature t) (Some (nt_network_id t))).

Definition validated_fields (t : NativeTransfer) : outcome ChainError NativeTransferFields :=
  let network := native_testnet in
  do* ensure (len (serde_to_vec (transfer_value t)) <=? nn_max_transfer_bytes network) TransferTooLarge;
  let* envelope := transfer_envelope t in
  map_err LedgerFailed
    (validate_native_transfer envelope (nn_network_id network) (nn_minimum_fee network)).

Definition transfer_id (t : NativeTransfer) : Hex32 :=
  blake3 (tag0 "boole.native.transfer.id.v1" ++ canonicalize (transfer_value t)).

(** The bytes fed to the hasher before the nonce. *)
Definition header_hasher (h : NativeBlockHeader) : list byte :=
  tag0 "boole.native.block.v1" ++ canonicalize (header_value h).

Definition hash_nonce (prefix : list byte) (nonce : N) : Hex32 := blake3 (prefix ++ le_bytes 8 nonce).

Definition transfers_root (transfers : list NativeTransfer) : string :=
  to_hex (blake3 (tag0 "boole.native.transfers.v1"
                  ++ canonicalize (VArray (map transfer_value transfers)))).

Definition nb_hash (b : NativeBlock) : outcome ChainError Hex32 :=
  let* nonce := ok_or (parse_uint u64_max (nb_nonce b)) BadNonce in
  do* ensure (String.eqb (to_decimal nonce) (nb_nonce b)) NoncanonicalNonce;
  Ok (hash_nonce (header_hasher (nb_header b)) nonce).

Definition authorization_payload (b : NativeBlock) : outcome ChainError Value :=
  let* h := nb_hash b in
  Ok (VObject [("blockHash", VString (to_hex h)); ("schema", VString BLOCK_AUTH_SCHEMA)]).

(** The comparison of the payload comes last: where an earlier test fails, the
    hash is not computed. *)
Definition authorize (b : NativeBlock) (envelope : SignedEnvelope) : outcome ChainError NativeBlock :=
  let* matches :=
    if String.eqb (env_schema envelope) SIGNED_ENVELOPE_SCHEMA
       && bool_decide (env_network_id envelope = Some (nh_network_id (nb_header b)))
       && String.eqb (env_pk envelope) (nh_producer_pk (nb_header b))
    then let* payload := authorization_payload b in Ok (value_eqb (env_payload envelope) payload)
    else Ok false in
  do* ensure matches AuthorizationMismatch;
  let* valid := map_err AuthorizationMalformed (env_verify_strict envelope) in
  do* ensure valid InvalidProducerSignature;
  Ok (mkNativeBlock (nb_header b) (nb_nonce b) (nb_transfers b) (env_signature envelope)).

Definition verify_authorization (b : NativeBlock) : outcome ChainError unit :=
  let* payload := authorization_payload b in
  do* authorize b (mkSignedEnvelope SIGNED_ENVELOPE_SCHEMA payload (nh_producer_pk (nb_header b))
                     (nb_producer_signature b) (Some (nh_network_id (nb_header b))));
  Ok tt.

(** The search of [mine]; [start_nonce.checked_add(offset)] ends it at the last
    64-bit nonce. *)
Fixpoint mine_loop (t : NativeBlockTemplate) (target : Hex32) (prefix : list byte) (start_nonce offset : N)
    (attempts : nat) : option NativeBlock :=
  match attempts with
  | O => None
  | S attempts' =>
      match checked_add u64_max start_nonce offset with
      | None => None
      | Some nonce =>
          if rlt (hash_nonce prefix nonce) target
          then Some (mkNativeBlock (tp_header t) (to_decimal nonce) (tp_transfers t) EmptyString)
          else mine_loop t target prefix start_nonce (offset + 1) attempts'
      end
  end.

Definition mine (t : NativeBlockTemplate) (start_nonce attempts : N)
    : outcome ChainError (option NativeBlock) :=
  let* target := hex32 (nh_target (tp_header t)) in
  Ok (mine_loop t target (header_hasher (tp_header t)) start_nonce 0 (N.to_nat attempts)).

(** ** native_chain.rs: the chain *)

Definition chain_new : outcome ChainError NativeChain :=
  let network := native_testnet in
  let* ledger := map_err LedgerFailed (network_ledger network) in
  Ok (mkNativeChain network [] ledger 0 []).

(** [PartialEq]: the undo cache is not consensus state. *)
Definition chain_eq (a b : NativeChain) : Prop :=
  nc_network a = nc_network b /\ nc_blocks a = nc_blocks b /\ nc_ledger a = nc_ledger b /\
  nc_cumulative_work a = nc_cumulative_work b.

Definition head_hash (c : NativeChain) : outcome ChainError Hex32 :=
  match last (nc_blocks c) with
  | Some block => match nb_hash block with Ok h => Ok h | _ => Panic end
  | None => Ok (genesis_hash (nc_network c))
  end.

Definition earliest_recent_fork_height (c : NativeChain) : outcome ChainError N :=
  sub_panic (nl_height (nc_ledger c)) (len (nc_recent_undo c)).

(** One turn of the loop of [fork_at]. *)
Definition fork_step (fork : NativeChain) : outcome ChainError NativeChain :=
  let* undo := expect (last (nc_recent_undo fork)) in
  let* head := head_hash fork in
  do* ensure (bool_decide (vu_post_hash undo = head)) UndoHeadMismatch;
  let* ledger := map_err LedgerFailed (undo_block (nc_ledger fork) (vu_ledger undo)) in
  do* expect (last (nc_blocks fork));
  Ok (mkNativeChain (nc_network fork) (removelast (nc_blocks fork)) ledger (vu_previous_work undo)
        (removelast (nc_recent_undo fork))).

Fixpoint fork_loop (depth : nat) (fork : NativeChain) : outcome ChainError NativeChain :=
  match depth with
  | O => Ok fork
  | S depth' => let* fork := fork_step fork in fork_loop depth' fork
  end.

Definition fork_at (c : NativeChain) (height : N) : outcome ChainError NativeChain :=
  let* depth := ok_or (checked_sub (len (nc_blocks c)) height) ForkAboveHead in
  do* ensure (depth <=? len (nc_recent_undo c)) ForkNeedsReplay;
  fork_loop (N.to_nat depth) c.

Definition outranks (a b : NativeChain) : outcome ChainError bool :=
  if nc_cumulative_work b <? nc_cumulative_work a then Ok true
  else if nc_cumulative_work a =? nc_cumulative_work b then
    let* ha := head_hash a in
    let* hb := head_hash b in
    Ok (rlt ha hb)
  else Ok false.

Definition next_target (c : NativeChain) : outcome ChainError string :=
  match last (nc_blocks c) with
  | None => Ok (nn_initial_target (nc_network c))
  | Some last =>
      let policy := nn_retarget (nc_network c) in
      let completed := nl_height (nc_ledger c) in
      if (completed <? rp_retarget_every_blocks policy)
         || negb (completed mod rp_retarget_every_blocks policy =? 0)
      then Ok (nh_target (nb_header last))
      else
        let* start := sub_panic (len (nc_blocks c)) (rp_retarget_every_blocks policy) in
        let* first := expect (nc_blocks c !! N.to_nat start) in
        let* current := hex32 (nh_target (nb_header last)) in
        let actual := N.max (nh_timestamp_ms (nb_header last) - nh_timestamp_ms (nb_header first)) 1 in
        let* every := sub_panic (rp_retarget_every_blocks policy) 1 in
        let* expected := ok_or (checked_mul u64_max (rp_target_block_ms policy) every) RetargetOverflow in
        let* target := map_err RetargetFailed
          (retarget_t_block (digest_to_biguint current) actual expected policy) in
        let* limit := hex32 (nn_initial_target (nc_network c)) in
        Ok (hex064 (N.min target (digest_to_biguint limit)))
  end.

Definition minimum_timestamp_ms (c : NativeChain) : outcome ChainError N :=
  let start := (length (nc_blocks c) - N.to_nat (nn_median_time_past_window (nc_network c)))%nat in
  let timestamps := sort_N (map (fun b => nh_timestamp_ms (nb_header b)) (drop start (nc_blocks c))) in
  let median := default 0 (timestamps !! (length timestamps / 2)%nat) in
  ok_or (checked_add u64_max median 1) TimestampOverflow.

Definition transfer_envelope_step (c : NativeChain) (acc : list SignedEnvelope) (t : NativeTransfer)
    : outcome ChainError (list SignedEnvelope) :=
  do* ensure (len (serde_to_vec (transfer_value t)) <=? nn_max_transfer_bytes (nc_network c)) TransferTooLarge;
  let* e := transfer_envelope t in
  Ok (acc ++ [e]).

Definition transfer_envelopes (c : NativeChain) (transfers : list NativeTransfer)
    : outcome ChainError (list SignedEnvelope) :=
  do* ensure (len transfers <=? nn_max_transfers_per_block (nc_network c)) TooManyTransfers;
  ofold (transfer_envelope_step c) [] transfers.

Definition template (c : NativeChain) (producer_pk reward_pk : string) (timestamp_ms : N)
    (transfers : list NativeTransfer) : outcome ChainError NativeBlockTemplate :=
  let* minimum := minimum_timestamp_ms c in
  do* ensure (minimum <=? timestamp_ms) TimestampNotPastMedianTime;
  do* hex32 producer_pk;
  do* hex32 reward_pk;
  let* height := ok_or (checked_add u64_max (nl_height (nc_ledger c)) 1) HeightOverflow in
  let* envelopes := transfer_envelopes c transfers in
  do* map_err LedgerFailed (apply_block (nc_ledger c) height reward_pk envelopes);
  let* head := head_hash c in
  let* target := next_target c in
  Ok (mkNativeBlockTemplate
        (mkNativeBlockHeader BLOCK_SCHEMA (nn_network_id (nc_network c))
           (to_hex (genesis_hash (nc_network c))) height (to_hex head) producer_pk reward_pk
           timestamp_ms target (transfers_root transfers))
        transfers).

Definition prepare (c : NativeChain) (block : NativeBlock) : outcome ChainError PreparedNativeBlock :=
  do* ensure (len (serde_to_vec (block_value block)) <=? nn_max_block_bytes (nc_network c)) BlockTooLarge;
  let header := nb_header block in
  do* ensure (String.eqb (nh_schema header) BLOCK_SCHEMA
              && String.eqb (nh_network_id header) (nn_network_id (nc_network c))
              && String.eqb (nh_genesis_hash header) (to_hex (genesis_hash (nc_network c))))
        ForeignGenesis;
  let* height := ok_or (checked_add u64_max (nl_height (nc_ledger c)) 1) HeightOverflow in
  let* extends :=
    if nh_height header =? height
    then let* head := head_hash c in Ok (String.eqb (nh_previous_hash header) (to_hex head))
    else Ok false in
  do* ensure extends NotExtendingHead;
  do* hex32 (nh_producer_pk header);
  do* hex32 (nh_reward_pk header);
  let* minimum := minimum_timestamp_ms c in
  do* ensure (minimum <=? nh_timestamp_ms header) TimestampNotPastMedianTime;
  let* expected_target := next_target c in
  do* ensure (String.eqb (nh_target header) expected_target) UnexpectedTarget;
  let* target := hex32 (nh_target header) in
  let* hash := nb_hash block in
  do* ensure (rlt hash target) InsufficientWork;
  do* ensure (String.eqb (nh_transfers_root header) (transfers_root (nb_transfers block)))
        TransferCommitmentMismatch;
  do* verify_authorization block;
  let* envelopes := transfer_envelopes c (nb_transfers block) in
  let* work := ok_or (difficulty_weight (digest_to_biguint target)) ZeroTargetWeight in
  let* st := map_err LedgerFailed
    (prepare_block (nc_ledger c) (nh_height header) (nh_reward_pk header) envelopes) in
  let '(ledger, undo) := st in
  Ok (mkPreparedNativeBlock block ledger (nc_cumulative_work c + work) undo).

Definition commit (c : NativeChain) (prepared : PreparedNativeBlock) : outcome ChainError NativeChain :=
  let* head := head_hash c in
  do* ensure (String.eqb (nh_previous_hash (nb_header (pn_block prepared))) (to_hex head)) StalePrepared;
  let* post_hash := nb_hash (pn_block prepared) in
  let undos := nc_recent_undo c ++ [mkVerifiedBlockUndo post_hash (nc_cumulative_work c) (pn_undo prepared)] in
  let undos := if NATIVE_RECENT_FORK_BLOCKS <? len undos then tail undos else undos in
  Ok (mkNativeChain (nc_network c) (nc_blocks c ++ [pn_block prepared]) (pn_ledger prepared)
        (pn_cumulative_work prepared) undos).

Definition append (c : NativeChain) (block : NativeBlock) : outcome ChainError NativeChain :=
  let* prepared := prepare c block in
  commit c prepared.

Definition replay (blocks : list NativeBlock) : outcome ChainError NativeChain :=
  let* chain := chain_new in
  ofold append chain blocks.

End NativeChain.
