(* ===== verification/NativeChainTheorems.v ===== *)
(** * Correctness of the native chain

    The properties of NativeChain.v: what an accepted block has proved, that
    replayed chains keep the ledger's invariant and count their work, that
    forking by undo equals replaying the prefix, that mining is sound and
    complete, that fork choice is a strict order, and that a block made from a
    template, mined and signed, is accepted. *)

From S2P Require Import Prelude Json Externals Hash SignedEnvelope NativeLedger.
From S2P Require Import NativeLedgerFacts NativeUndo Concrete Difficulty NativeChain.

Section ChainFacts.
Context {X : Externals} {P : PayloadSerde}.

(** What [prepare] has established of a block it lets pass. *)
Record accepted (c : NativeChain) (b : NativeBlock) (p : PreparedNativeBlock) : Prop := {
  ac_size : len (serde_to_vec (block_value b)) <= nn_max_block_bytes (nc_network c);
  ac_schema : nh_schema (nb_header b) = BLOCK_SCHEMA;
  ac_network : nh_network_id (nb_header b) = nn_network_id (nc_network c);
  ac_genesis : nh_genesis_hash (nb_header b) = to_hex (genesis_hash (nc_network c));
  ac_height : nh_height (nb_header b) = nl_height (nc_ledger c) + 1 /\
    nl_height (nc_ledger c) + 1 <= u64_max;
  ac_parent : exists head, head_hash c = Ok head /\ nh_previous_hash (nb_header b) = to_hex head;
  ac_keys : is_ok (hex32 (nh_producer_pk (nb_header b))) = true /\
    is_ok (hex32 (nh_reward_pk (nb_header b))) = true;
  ac_time : exists minimum, minimum_timestamp_ms c = Ok minimum /\ minimum <= nh_timestamp_ms (nb_header b);
  ac_target : next_target c = Ok (nh_target (nb_header b));
  ac_root : nh_transfers_root (nb_header b) = transfers_root (nb_transfers b);
  ac_signed : verify_authorization b = Ok tt;
  ac_work : exists target hash work envelopes,
    hex32 (nh_target (nb_header b)) = Ok target /\ nb_hash b = Ok hash /\ rlt hash target = true /\
    difficulty_weight (digest_to_biguint target) = Some work /\
    transfer_envelopes c (nb_transfers b) = Ok envelopes /\
    prepare_block (nc_ledger c) (nh_height (nb_header b)) (nh_reward_pk (nb_header b)) envelopes
      = Ok (pn_ledger p, pn_undo p) /\
    pn_block p = b /\ pn_cumulative_work p = nc_cumulative_work c + work
}.

(** Chains reached by replaying blocks, with what the code relies on. *)
Record chain_ok (c : NativeChain) : Prop := {
  ch_network : nc_network c = native_testnet;
  ch_ledger : ledger_ok (nc_ledger c);
  ch_supply : es_total_supply (nl_schedule (nc_ledger c)) = nn_total_supply native_testnet;
  ch_height : nl_height (nc_ledger c) = len (nc_blocks c);
  ch_hashes : Forall (fun b => exists h, nb_hash b = Ok h) (nc_blocks c)
}.

(** The undo cache describes the replayed prefixes, newest last. *)
Inductive undo_chain : list NativeBlock -> NativeLedger -> list VerifiedBlockUndo -> Prop :=
| uc_nil bs l : undo_chain bs l []
| uc_snoc bs b h c us l u :
    replay bs = Ok c -> nb_hash b = Ok h -> undo_block l u = Ok (nc_ledger c) ->
    undo_chain bs (nc_ledger c) us ->
    undo_chain (bs ++ [b]) l (us ++ [mkVerifiedBlockUndo h (nc_cumulative_work c) u]).

(** The work a chain has proved. *)
Definition block_work (b : NativeBlock) : N :=
  match hex32 (nh_target (nb_header b)) with
  | Ok t => default 0 (difficulty_weight (digest_to_biguint t))
  | _ => 0
  end.

(** ** Lemmas *)

Lemma prepare_accepted c b p : prepare c b = Ok p -> accepted c b p.
Proof.
  unfold prepare. intros H. run_inv H; breflect; try discriminate.
  match goal with H : checked_add _ _ _ = Some _ |- _ => apply checked_add_Some in H as [-> ?] end.
  injection H as <-. match goal with H : verify_authorization _ = Ok ?u |- _ => destruct u end.
  match goal with H : nh_target _ = ?t |- _ => subst t end.
  match goal with Hp : hex32 (nh_producer_pk _) = Ok _, Hr : hex32 (nh_reward_pk _) = Ok _ |- _ =>
    assert (is_ok (hex32 (nh_producer_pk (nb_header b))) = true) by (by rewrite Hp);
    assert (is_ok (hex32 (nh_reward_pk (nb_header b))) = true) by (by rewrite Hr) end.
  constructor; cbn [pn_block pn_ledger pn_cumulative_work pn_undo];
    first [assumption | split; assumption | do 4 eexists; split_and!; first [eassumption|reflexivity]
          | eexists; split; eassumption].
Qed.

(** A block with all of these passes. *)
Lemma accepted_prepare c b p : accepted c b p -> prepare c b = Ok p.
Proof.
  intros [Hsize Hsch Hnet Hgen [Hh Hmax] (hd & Hhd & Hpar) [Hpk Hrk] (mn & Hmn & Hts) Htgt Hroot Hsig
    (t & h & w & es & Ht & Hb & Hlt & Hw & Hes & Hp & Hpb & Hpw)].
  unfold prepare. rewrite (proj2 (N.leb_le _ _) Hsize), Hsch, Hnet, Hgen, !String.eqb_refl. cbn [ensure obind andb].
  rewrite checked_add_ok by done. cbn [ok_or obind]. rewrite Hh, N.eqb_refl, Hhd. cbn [obind].
  rewrite Hpar, String.eqb_refl. cbn [ensure obind].
  apply is_ok_Ok in Hpk as [? ->]. apply is_ok_Ok in Hrk as [? ->]. cbn [obind].
  rewrite Hmn. cbn [obind]. rewrite (proj2 (N.leb_le _ _) Hts). cbn [ensure obind].
  rewrite Htgt. cbn [obind]. rewrite String.eqb_refl. cbn [ensure obind]. rewrite Ht, Hb. cbn [obind].
  rewrite Hlt. cbn [ensure obind]. rewrite Hroot, String.eqb_refl. cbn [ensure obind].
  rewrite Hsig, Hes, Hw. cbn [obind ok_or]. rewrite <- Hh, Hp. cbn [map_err obind].
  f_equal. destruct p; cbn in *; congruence.
Qed.

Lemma append_inv c b c' :
  append c b = Ok c' ->
  exists p h, accepted c b p /\ nb_hash b = Ok h /\
    nc_network c' = nc_network c /\ nc_blocks c' = nc_blocks c ++ [b] /\ nc_ledger c' = pn_ledger p /\
    nc_cumulative_work c' = pn_cumulative_work p /\
    let us := nc_recent_undo c ++ [mkVerifiedBlockUndo h (nc_cumulative_work c) (pn_undo p)] in
    nc_recent_undo c' = if NATIVE_RECENT_FORK_BLOCKS <? len us then tail us else us.
Proof.
  unfold append, commit. intros H. run_inv H.
  match goal with H : prepare c b = Ok _ |- _ => apply prepare_accepted in H as Hac end.
  pose proof (ac_work _ _ _ Hac) as (? & ? & ? & ? & _ & _ & _ & _ & _ & _ & Hpb & _).
  rewrite Hpb in *; injection H as <-; do 2 eexists; split_and!; try eassumption; try reflexivity.
Qed.

Lemma replay_snoc bs b : replay (bs ++ [b]) = let* c := replay bs in append c b.
Proof.
  unfold replay. destruct chain_new as [c| |]; cbn [obind]; [|done|done].
  rewrite ofold_app. destruct (ofold append c bs); cbn [obind ofold]; [|done|done].
  by destruct (append a b).
Qed.

(** *** Replayed chains *)

Lemma testnet_ledger_ok : exists l, network_ledger native_testnet = Ok l /\ ledger_ok l /\
  nl_height l = 0 /\ es_total_supply (nl_schedule l) = nn_total_supply native_testnet.
Proof.
  eexists. split; [reflexivity|]. split; [|done].
  split; [|intros k pk a; cbn; by rewrite lookup_empty].
  split; cbn; try done.
Qed.

Lemma chain_new_ok : exists c, chain_new = Ok c /\ chain_ok c /\ nc_blocks c = [] /\
  nc_cumulative_work c = 0 /\ nc_recent_undo c = [].
Proof.
  destruct testnet_ledger_ok as (l & Hl & Hok & Hh & Hs). unfold chain_new. rewrite Hl. cbn [map_err obind].
  eexists. split; [reflexivity|]. split_and!; try done.
Qed.

Lemma append_chain_ok c b c' : chain_ok c -> append c b = Ok c' -> chain_ok c'.
Proof.
  intros [Hnet Hl Hsu Hh Hhs] (p & h & Hac & Hhash & Hn & Hbs & Hled & _ & _)%append_inv.
  pose proof (ac_work _ _ _ Hac) as (t & h' & w & es & _ & _ & _ & _ & _ & Hp & _).
  pose proof (ac_height _ _ _ Hac) as [Hbh _].
  apply apply_block_inner_Ok in Hp. pose proof (block_applied_ok _ _ _ _ _ Hl Hp) as Hl'.
  split; rewrite ?Hn, ?Hbs, ?Hled; [done|done| | |].
  - pose proof (block_applied_frame _ _ _ _ _ Hl Hp) as (-> & _). done.
  - destruct Hp as [_ _ _ (l1 & l2 & em & _ & _ & _ & _ & ->)]. cbn. rewrite Hbh, Hh.
    unfold len. rewrite length_app. cbn [length]. lia.
  - apply Forall_app. split; [done|]. constructor; [eauto|constructor].
Qed.

Lemma replay_ok bs c : replay bs = Ok c -> chain_ok c /\ nc_blocks c = bs.
Proof.
  revert c. induction bs as [|b bs IH] using rev_ind; intros c.
  - unfold replay. destruct chain_new_ok as (c0 & -> & Hok & Hbs & _). cbn. by intros [= <-].
  - rewrite replay_snoc. intros (c0 & H0 & Happ)%obind_Ok. destruct (IH _ H0) as [Hok Hbs].
    split; [by eapply append_chain_ok|].
    apply append_inv in Happ as (p & h & _ & _ & _ & -> & _). by rewrite Hbs.
Qed.

(** The head of a replayed chain can be hashed. *)
Lemma head_hash_Ok c : chain_ok c -> exists h, head_hash c = Ok h.
Proof.
  intros [_ _ _ _ Hhs]. unfold head_hash. destruct (last (nc_blocks c)) as [b|] eqn:E; [|eauto].
  rewrite Forall_forall in Hhs. apply last_Some_elem_of in E. destruct (Hhs b E) as [h ->]. eauto.
Qed.

Lemma undo_chain_tail bs l us : undo_chain bs l us -> undo_chain bs l (tail us).
Proof.
  induction 1 as [bs l|bs b h c us l u Hr Hh Hu _ IH]; [constructor|].
  destruct us as [|u0 us]; [constructor|]. cbn [app tail] in *. by econstructor.
Qed.

Lemma replay_undo_chain bs c :
  replay bs = Ok c ->
  undo_chain bs (nc_ledger c) (nc_recent_undo c) /\
  len (nc_recent_undo c) = N.min (len bs) NATIVE_RECENT_FORK_BLOCKS.
Proof.
  revert c. induction bs as [|b bs IH] using rev_ind; intros c.
  - unfold replay. destruct chain_new_ok as (c0 & -> & _ & _ & _ & Hu). cbn. intros [= <-].
    rewrite Hu. split; [constructor|done].
  - rewrite replay_snoc. intros (c0 & H0 & Happ)%obind_Ok. destruct (IH _ H0) as [Huc Hlen].
    destruct (replay_ok _ _ H0) as [Hok _].
    apply append_inv in Happ as (p & h & Hac & Hh & _ & _ & Hl & _ & Hus). cbn in Hus.
    pose proof (ac_work _ _ _ Hac) as (t & h' & w & es & _ & _ & _ & _ & _ & Hp & _).
    assert (undo_block (pn_ledger p) (pn_undo p) = Ok (nc_ledger c0)) as Hundo.
    { pose proof (prepare_block_tracks _ _ _ _ _ _ Hp) as Ht.
      apply apply_block_inner_Ok in Hp as [Hbh Hmax _ (l1 & l2 & em & _ & _ & _ & _ & El)].
      apply (tracks_undo _ _ _ Ht); [lia|]. rewrite El. exact Hbh. }
    assert (undo_chain (bs ++ [b]) (nc_ledger c) (nc_recent_undo c0 ++
      [mkVerifiedBlockUndo h (nc_cumulative_work c0) (pn_undo p)])) as Huc'
      by (rewrite Hl; by econstructor).
    rewrite Hus. unfold len in *. rewrite !length_app in *. cbn [length] in *.
    destruct (N.ltb_spec NATIVE_RECENT_FORK_BLOCKS (N.of_nat (length (nc_recent_undo c0) + 1))).
    + split; [by apply undo_chain_tail|]. rewrite tail_length, length_app. cbn [length]. lia.
    + split; [done|]. rewrite length_app. cbn [length]. lia.
Qed.

(** *** Forking *)

Lemma fork_loop_replay depth : forall bs c cr,
  replay bs = Ok cr -> chain_eq c cr -> undo_chain bs (nc_ledger c) (nc_recent_undo c) ->
  (depth <= length (nc_recent_undo c))%nat ->
  exists c' cr', fork_loop depth c = Ok c' /\ replay (take (length bs - depth) bs) = Ok cr' /\ chain_eq c' cr'.
Proof.
  induction depth as [|depth IH]; intros bs c cr Hr Heq Huc Hd.
  { exists c, cr. rewrite Nat.sub_0_r, take_ge by done. done. }
  destruct Heq as (Hn & Hb & Hl & Hw).
  inversion Huc as [? ? E1 E2 E3|bs0 b h c0 us l u Hr0 Hh Hu Huc0 E1 E2 E3]; subst.
  { rewrite <- E3 in Hd. cbn in Hd. lia. }
  destruct (replay_ok _ _ Hr) as [Hok Hbs].
  assert (last (nc_blocks c) = Some b) as Hlast by (rewrite Hb, Hbs; apply last_snoc).
  cbn [fork_loop]. unfold fork_step. rewrite <- E3, last_snoc. cbn [expect obind vu_post_hash vu_ledger].
  unfold head_hash. rewrite Hlast, Hh. cbn [obind]. rewrite bool_decide_eq_true_2 by done. cbn [ensure obind].
  rewrite Hu. cbn [map_err obind expect]. rewrite Hb, Hbs, !removelast_snoc.
  destruct (IH bs0 (mkNativeChain (nc_network c) bs0 (nc_ledger c0) (nc_cumulative_work c0) us) c0) as
    (c' & cr' & Hf & Hr' & Heq').
  - done.
  - destruct (replay_ok _ _ Hr0) as [[Hn0 _ _ _ _] Hbs0]. destruct Hok as [Hn1 _ _ _ _].
    unfold chain_eq; cbn. split_and!; congruence.
  - done.
  - rewrite <- E3, length_app in Hd. cbn in Hd |- *. lia.
  - exists c', cr'. split_and!; [exact Hf| |done].
    rewrite length_app, take_app_le by (cbn; lia). cbn [length].
    replace (length bs0 + 1 - S depth)%nat with (length bs0 - depth)%nat by lia. done.
Qed.

End ChainFacts.

(** *** No aborts *)

Section Total.
Context {X : Externals} {P : PayloadSerde}.

Lemma retarget_total t actual expected p : expected <= u64_max -> retarget_t_block t actual expected p <> Panic.
Proof.
  intros He. unfold retarget_t_block. destruct (policy_validate p) as [[]| |] eqn:Hp;
    [|done|by apply policy_validate_total in Hp]. cbn [obind].
  apply policy_validate_Ok in Hp as (_ & _ & Hf). total_tac. unfold clamp.
  match goal with H : ensure (negb (expected =? 0)) _ = Ok _ |- _ => rename H into Hz end.
  destruct (N.eqb_spec expected 0); [done|].
  pose proof (clamped_span_bounds expected (rp_max_adjustment_factor p) ltac:(lia) Hf).
  destruct (N.ltb_spec (saturating_mul u64_max expected (rp_max_adjustment_factor p))
    (N.max (expected / rp_max_adjustment_factor p) 1)); [lia|done].
Qed.

Lemma hex32_total s : hex32 s <> Panic.
Proof. unfold hex32. total_tac. Qed.

Lemma nb_hash_total b : nb_hash b <> Panic.
Proof. unfold nb_hash. total_tac. Qed.

#[local] Hint Resolve hex32_total nb_hash_total : total.

Lemma next_target_total c : chain_ok c -> next_target c <> Panic.
Proof.
  intros [Hn _ _ Hh _]. unfold next_target. destruct (last (nc_blocks c)) as [b|]; [|done].
  rewrite Hn, Hh. destruct (_ || _) eqn:Eb; [done|]. apply orb_false_iff in Eb as [Eb _].
  apply N.ltb_ge in Eb. unfold sub_panic. rewrite checked_sub_ok by done. cbn [expect obind].
  destruct (lookup_lt_is_Some_2 (nc_blocks c) (N.to_nat (len (nc_blocks c) - rp_retarget_every_blocks (nn_retarget native_testnet)))) as [f ->].
  { unfold len in *. change (rp_retarget_every_blocks _) with 2 in *. lia. }
  cbn [expect obind]. apply total_bind; [apply hex32_total|]. intros cur _.
  change (checked_sub _ 1) with (Some 1). cbn [expect obind]. total_tac.
  apply total_map_err, retarget_total.
  match goal with H : ok_or (checked_mul _ _ _) _ = Ok _ |- _ => apply ok_or_Ok, checked_mul_Some in H as [-> ?] end. done.
Qed.

Lemma authorize_total b e : authorize b e <> Panic.
Proof. unfold authorize, authorization_payload. total_tac. Qed.

Lemma transfer_envelopes_total c ts : transfer_envelopes c ts <> Panic.
Proof.
  unfold transfer_envelopes. total_tac. apply (ofold_no_panic (fun _ => True)); [|done].
  intros s t _ _. split; [|done]. unfold transfer_envelope_step, transfer_envelope. total_tac.
Qed.

Lemma prepare_total c b : chain_ok c -> prepare c b <> Panic.
Proof.
  intros Hok. destruct (head_hash_Ok c Hok) as [hd Hhd]. unfold prepare. rewrite Hhd.
  pose proof (next_target_total c Hok). pose proof (authorize_total b). pose proof (transfer_envelopes_total c).
  assert (forall h pk ts, prepare_block (nc_ledger c) h pk ts <> Panic) as Hp.
  { intros h pk ts E. apply (apply_block_total (nc_ledger c) h pk ts (ch_ledger _ Hok)).
    unfold apply_block. by rewrite E. }
  assert (verify_authorization b <> Panic) by (unfold verify_authorization, authorization_payload; total_tac).
  assert (minimum_timestamp_ms c <> Panic) by (unfold minimum_timestamp_ms; total_tac).
  total_tac.
Qed.

End Total.

(** *** Proof of work *)

Section Work.
Context {X : Externals} {L : ExternalsLaws X} {P : PayloadSerde}.

Lemma hex32_length s h : hex32 s = Ok h -> length h = 32%nat.
Proof using L. unfold hex32. intros H. run_inv H. by apply hex_n_from_hex_Ok in E as [_ ?]; simplify_eq. Qed.

Lemma nb_hash_length b h : nb_hash b = Ok h -> length h = 32%nat.
Proof using L. unfold nb_hash. intros H. run_inv H. injection H as <-. apply blake3_length. Qed.

(** Comparing digests of the same length is comparing their values. *)
Lemma rlt_numeric (h t : Hex32) : length h = 32%nat -> length t = 32%nat ->
  rlt h t = true <-> digest_to_biguint h < digest_to_biguint t.
Proof.
  intros Hh Ht. unfold rlt, digest_to_biguint. rewrite digest_order_numeric by congruence.
  rewrite <- N.compare_lt_iff. by destruct (be_value h ?= be_value t).
Qed.

Lemma digest_bound (h : Hex32) : length h = 32%nat -> digest_to_biguint h < two_to_256.
Proof. intros Hh. pose proof (be_value_bound h) as Hb. unfold len in Hb. rewrite Hh in Hb. exact Hb. Qed.

(** An accepted block beats its target and adds the target's weight. *)
Lemma accepted_work c b p :
  accepted c b p ->
  exists h t, nb_hash b = Ok h /\ hex32 (nh_target (nb_header b)) = Ok t /\
    digest_to_biguint h < digest_to_biguint t /\
    pn_cumulative_work p = nc_cumulative_work c + two_to_256 / digest_to_biguint t /\
    1 <= two_to_256 / digest_to_biguint t.
Proof using L.
  intros Hac. pose proof (ac_work _ _ _ Hac) as (t & h & w & es & Ht & Hh & Hlt & Hw & _ & _ & _ & Hpw).
  pose proof (hex32_length _ _ Ht) as Hlt'. pose proof (nb_hash_length _ _ Hh) as Hlh.
  apply rlt_numeric in Hlt; [|done..]. exists h, t. pose proof (digest_bound t Hlt').
  pose proof (difficulty_weight_pos (digest_to_biguint t) w ltac:(lia) Hw).
  apply difficulty_weight_Some in Hw as [_ ->]. split_and!; done.
Qed.

Lemma mine_loop_Some t target prefix start n : forall off b,
  mine_loop t target prefix start off n = Some b ->
  exists nonce, nonce <= u64_max /\ b = mkNativeBlock (tp_header t) (to_decimal nonce) (tp_transfers t) EmptyString /\
    start + off <= nonce < start + off + N.of_nat n /\ rlt (hash_nonce prefix nonce) target = true.
Proof.
  induction n as [|n IH]; intros off b; cbn [mine_loop]; [done|].
  destruct (checked_add u64_max start off) as [nonce|] eqn:E; [|done].
  apply checked_add_Some in E as [-> Hm]. destruct (rlt _ _) eqn:Er.
  - intros [= <-]. exists (start + off). split_and!; [done|done|lia|lia|done].
  - intros (nonce & ? & ? & ? & ?)%IH. exists nonce. split_and!; [done|done|lia|lia|done].
Qed.

Lemma mine_loop_None t target prefix start n : forall off,
  mine_loop t target prefix start off n = None ->
  forall nonce, nonce <= u64_max -> start + off <= nonce < start + off + N.of_nat n ->
    rlt (hash_nonce prefix nonce) target = false.
Proof.
  induction n as [|n IH]; intros off Hn nonce Hm Hr; [lia|]. cbn [mine_loop] in Hn.
  destruct (checked_add u64_max start off) as [k|] eqn:E.
  - apply checked_add_Some in E as [-> _]. destruct (rlt (hash_nonce prefix (start + off)) target) eqn:Er; [done|].
    destruct (N.eq_dec nonce (start + off)) as [->|Hne]; [done|]. apply (IH (off + 1) Hn); lia.
  - apply checked_add_None in E. lia.
Qed.

Lemma mined_hash h nonce ts sg :
  nonce <= u64_max ->
  nb_hash (mkNativeBlock h (to_decimal nonce) ts sg) = Ok (hash_nonce (header_hasher h) nonce).
Proof.
  intros Hn. unfold nb_hash; cbn [nb_nonce nb_header]. rewrite parse_uint_to_decimal by done.
  cbn [ok_or obind]. rewrite String.eqb_refl. done.
Qed.

End Work.

Section TemplateFacts.
Context {X : Externals} {P : PayloadSerde}.

(** What a template fixes. *)
Lemma template_inv c pk rk ts trs t :
  template c pk rk ts trs = Ok t ->
  exists mn head target es l',
    minimum_timestamp_ms c = Ok mn /\ mn <= ts /\ is_ok (hex32 pk) = true /\ is_ok (hex32 rk) = true /\
    nl_height (nc_ledger c) + 1 <= u64_max /\ transfer_envelopes c trs = Ok es /\
    apply_block (nc_ledger c) (nl_height (nc_ledger c) + 1) rk es = Ok l' /\
    head_hash c = Ok head /\ next_target c = Ok target /\
    t = mkNativeBlockTemplate
        (mkNativeBlockHeader BLOCK_SCHEMA (nn_network_id (nc_network c))
           (to_hex (genesis_hash (nc_network c))) (nl_height (nc_ledger c) + 1) (to_hex head) pk rk
           ts target (transfers_root trs)) trs.
Proof.
  unfold template. intros H. run_inv H; breflect.
  match goal with H : checked_add _ _ _ = Some _ |- _ => apply checked_add_Some in H as [-> ?] end.
  injection H as <-.
  match goal with Hp : hex32 pk = Ok _, Hr : hex32 rk = Ok _ |- _ =>
    assert (is_ok (hex32 pk) = true) by (by rewrite Hp);
    assert (is_ok (hex32 rk) = true) by (by rewrite Hr) end.
  do 5 eexists. split_and!; first [eassumption|reflexivity].
Qed.

(** A signature attached by [authorize] is one that [verify_authorization]
    accepts. *)
Lemma authorize_verifies b envelope b' :
  authorize b envelope = Ok b' ->
  verify_authorization b' = Ok tt /\
  b' = mkNativeBlock (nb_header b) (nb_nonce b) (nb_transfers b) (env_signature envelope).
Proof.
  unfold authorize. intros H. run_inv H; breflect; [|done].
  injection H as <-. split; [|done].
  match goal with H : value_eqb _ _ = true |- _ => apply value_eqb_eq in H end. subst.
  unfold verify_authorization, authorize. cbn [nb_header nb_nonce nb_transfers nb_producer_signature].
  match goal with H : authorization_payload b = Ok ?p |- _ =>
    assert (forall sg, authorization_payload (mkNativeBlock (nb_header b) (nb_nonce b) (nb_transfers b) sg) = Ok p)
      as Hpay by (intros; exact H) end.
  rewrite !Hpay. cbn [obind env_schema env_network_id env_pk env_payload].
  rewrite !String.eqb_refl, bool_decide_eq_true_2, (proj2 (value_eqb_eq _ _) eq_refl) by done.
  cbn [andb obind ensure].
  destruct envelope as [es ep epk esig enet]; cbn in *; subst.
  match goal with H : env_verify_strict _ = Ok true |- _ => rewrite H end. done.
Qed.

End TemplateFacts.

(** ** The theorems *)

Section Theorems.
Context {X : Externals} {P : PayloadSerde}.

(** C9: rolling a chain back with its undo cache gives the chain that replaying
    the shorter prefix from genesis gives, for every height up to 256 blocks
    below the head: same blocks, same ledger, same work. *)
Theorem fork_at_is_replay blocks c height :
  replay blocks = Ok c -> height <= len blocks -> len blocks <= height + NATIVE_RECENT_FORK_BLOCKS ->
  exists c' r, fork_at c height = Ok c' /\ replay (take (N.to_nat height) blocks) = Ok r /\ chain_eq c' r.
Proof.
  intros Hr Hle Hwin. destruct (replay_undo_chain _ _ Hr) as [Huc Hlen].
  destruct (replay_ok _ _ Hr) as [_ Hbs]. unfold fork_at. rewrite Hbs, checked_sub_ok by done.
  cbn [ok_or obind]. destruct (N.leb_spec (len blocks - height) (len (nc_recent_undo c))); [|lia].
  cbn [ensure obind]. unfold len in *.
  destruct (fork_loop_replay (N.to_nat (N.of_nat (length blocks) - height)) blocks c c) as (c' & r & Hf & Hr' & Heq);
    [done|done|done|lia|].
  exists c', r. split_and!; [done| |done]. rewrite <- Hr'. f_equal. f_equal. lia.
Qed.


(** An appended block extends the head it names, carries exactly the target
    the chain's retarget rule demands, its hash is numerically below that
    target, its producer signed it, and the chain's work grows by 2^256 divided
    by the target, which is at least one. *)
Theorem append_proves_work {L : ExternalsLaws X} c b c' :
  append c b = Ok c' ->
  exists h t head, nb_hash b = Ok h /\ hex32 (nh_target (nb_header b)) = Ok t /\
    next_target c = Ok (nh_target (nb_header b)) /\
    digest_to_biguint h < digest_to_biguint t /\
    head_hash c = Ok head /\ nh_previous_hash (nb_header b) = to_hex head /\
    verify_authorization b = Ok tt /\ nc_blocks c' = nc_blocks c ++ [b] /\
    nc_cumulative_work c' = nc_cumulative_work c + two_to_256 / digest_to_biguint t /\
    nc_cumulative_work c < nc_cumulative_work c'.
Proof.
  intros (p & h & Hac & Hh & _ & Hbs & _ & Hw & _)%append_inv.
  destruct (accepted_work _ _ _ Hac) as (h' & t & Hh' & Ht & Hlt & Hpw & Hpos).
  destruct (ac_parent _ _ _ Hac) as (head & Hhd & Hpar). exists h', t, head.
  split_and!; try done; [apply (ac_target _ _ _ Hac)|apply (ac_signed _ _ _ Hac)|congruence|lia].
Qed.

(** Mining is sound and complete over the nonces it tries: a mined block
    keeps the template and its hash is below the target; when nothing is found,
    no nonce of the range would have done. *)
Theorem mine_sound_complete {L : ExternalsLaws X} t start attempts target :
  hex32 (nh_target (tp_header t)) = Ok target ->
  exists r, mine t start attempts = Ok r /\
    match r with
    | Some b => nb_header b = tp_header t /\ nb_transfers b = tp_transfers t /\
        exists h, nb_hash b = Ok h /\ digest_to_biguint h < digest_to_biguint target
    | None => forall nonce, start <= nonce < start + attempts -> nonce <= u64_max ->
        digest_to_biguint target <= digest_to_biguint (hash_nonce (header_hasher (tp_header t)) nonce)
    end.
Proof.
  intros Ht. unfold mine. rewrite Ht. cbn [obind]. eexists. split; [reflexivity|].
  pose proof (hex32_length _ _ Ht) as Hlt.
  assert (forall n, rlt (hash_nonce (header_hasher (tp_header t)) n) target = true <->
    digest_to_biguint (hash_nonce (header_hasher (tp_header t)) n) < digest_to_biguint target) as Hnum.
  { intros n. apply rlt_numeric; [apply blake3_length|done]. }
  destruct (mine_loop _ _ _ _ _ _) as [b|] eqn:E.
  - apply mine_loop_Some in E as (nonce & Hn & -> & _ & Hr). split_and!; [done|done|].
    eexists. split; [by apply mined_hash|]. by apply Hnum.
  - intros nonce Hr Hn. apply N.le_ngt. intros Hc%Hnum.
    rewrite (mine_loop_None _ _ _ _ _ _ E nonce Hn) in Hc by lia. done.
Qed.

(** A block made from a chain's own template, mined and signed by its
    producer, is accepted by that chain, if its encoding is within the size
    limit. *)
Theorem mined_template_accepted {L : ExternalsLaws X} c pk rk ts trs t start attempts b envelope b' :
  template c pk rk ts trs = Ok t -> mine t start attempts = Ok (Some b) ->
  authorize b envelope = Ok b' ->
  len (serde_to_vec (block_value b')) <= nn_max_block_bytes (nc_network c) ->
  exists c', append c b' = Ok c' /\ nc_blocks c' = nc_blocks c ++ [b'].
Proof.
  intros (mn & head & target & es & l' & Hmn & Hts & Hpk & Hrk & Hmax & Hes & Hab & Hhd & Htg & ->)%template_inv.
  intros Hm Ha Hsize. unfold mine in Hm. cbn [tp_header nh_target] in Hm. run_inv Hm. injection Hm as Hm.
  match goal with H : hex32 target = Ok ?t |- _ => rename H into Htgt; rename t into tg end.
  apply mine_loop_Some in Hm as (nonce & Hn & -> & _ & Hlt).
  apply authorize_verifies in Ha as [Hsig ->]. cbn [nb_header nb_nonce nb_transfers tp_header tp_transfers] in *.
  unfold apply_block in Hab. run_inv Hab. injection Hab as ->.
  assert (exists w, difficulty_weight (digest_to_biguint tg) = Some w) as [w Hw].
  { exists (two_to_256 / digest_to_biguint tg). apply difficulty_weight_Some. split; [|done].
    apply rlt_numeric in Hlt; [lia|apply blake3_length|by eapply hex32_length]. }
  match goal with H : prepare_block _ _ _ _ = Ok (?l, ?u) |- _ => rename H into Hpb; rename u into un end.
  set (b' := mkNativeBlock _ _ _ _) in *.
  assert (prepare c b' = Ok (mkPreparedNativeBlock b' l' (nc_cumulative_work c + w) un)) as Hp.
  { apply accepted_prepare. split; cbn; try done; [eauto..|].
    exists tg. do 3 eexists. split_and!; [done|by apply mined_hash|done|done|done|done|done|done]. }
  unfold append, commit. rewrite Hp. cbn [obind pn_block]. rewrite Hhd. cbn [obind].
  cbn [nb_header b' nh_previous_hash]. rewrite String.eqb_refl. cbn [ensure obind]. unfold b'.
  rewrite mined_hash by done. cbn [obind]. eexists. split; [reflexivity|done].
Qed.

(** On replayed chains [outranks] always answers and is a strict order, total
    up to chains with the same work and the same head hash. *)
Theorem outranks_strict_order bs1 bs2 bs3 a b c :
  replay bs1 = Ok a -> replay bs2 = Ok b -> replay bs3 = Ok c ->
  exists ha hb, head_hash a = Ok ha /\ head_hash b = Ok hb /\
    outranks a a = Ok false /\
    (outranks a b = Ok true -> outranks b a = Ok false) /\
    (outranks a b = Ok true -> outranks b c = Ok true -> outranks a c = Ok true) /\
    (outranks a b = Ok false -> outranks b a = Ok false ->
       nc_cumulative_work a = nc_cumulative_work b /\ ha = hb).
Proof.
  intros [Ha _]%replay_ok [Hb _]%replay_ok [Hc _]%replay_ok.
  destruct (head_hash_Ok a Ha) as [ha Ea], (head_hash_Ok b Hb) as [hb Eb], (head_hash_Ok c Hc) as [hc Ec].
  exists ha, hb. unfold outranks. rewrite Ea, Eb, Ec. cbn [obind]. unfold rlt.
  rewrite rcmp_refl, (rcmp_flip ha hb). split_and!; [done|done|..].
  - by rewrite N.ltb_irrefl, N.eqb_refl.
  - destruct (N.ltb_spec (nc_cumulative_work b) (nc_cumulative_work a)),
      (N.ltb_spec (nc_cumulative_work a) (nc_cumulative_work b)),
      (N.eqb_spec (nc_cumulative_work a) (nc_cumulative_work b)),
      (N.eqb_spec (nc_cumulative_work b) (nc_cumulative_work a)); try done; try lia.
    by destruct (rcmp ha hb).
  - pose proof (rcmp_lt_trans ha hb hc).
    destruct (N.ltb_spec (nc_cumulative_work b) (nc_cumulative_work a)),
      (N.ltb_spec (nc_cumulative_work c) (nc_cumulative_work b)),
      (N.ltb_spec (nc_cumulative_work c) (nc_cumulative_work a)),
      (N.eqb_spec (nc_cumulative_work a) (nc_cumulative_work b)),
      (N.eqb_spec (nc_cumulative_work b) (nc_cumulative_work c)),
      (N.eqb_spec (nc_cumulative_work a) (nc_cumulative_work c)); try done; try lia.
    destruct (rcmp ha hb), (rcmp hb hc), (rcmp ha hc); naive_solver.
  - destruct (N.ltb_spec (nc_cumulative_work b) (nc_cumulative_work a)),
      (N.ltb_spec (nc_cumulative_work a) (nc_cumulative_work b)),
      (N.eqb_spec (nc_cumulative_work a) (nc_cumulative_work b)),
      (N.eqb_spec (nc_cumulative_work b) (nc_cumulative_work a)); try done; try lia.
    destruct (rcmp ha hb) eqn:E; try done. by apply rcmp_eq_iff in E.
Qed.

End Theorems.

(** ** Witnesses: two mined and signed blocks on the test network *)

Module ChainDemo.

Definition key : SigningKeyV2 := from_dev_id "alice".
Definition pk : string := Eval vm_compute in pk_hex key.

(** Template, mine, sign. *)
Definition make (c : NativeChain) (ts : N) : outcome ChainError NativeBlock :=
  let* t := template c pk pk ts [] in
  let* r := mine t 0 1 in
  let* b := ok_or r InsufficientWork in
  let* payload := authorization_payload b in
  authorize b (sign_for_network key payload (Some NATIVE_TESTNET_NETWORK_ID)).

Definition no_block : NativeBlock :=
  mkNativeBlock (mkNativeBlockHeader "" "" "" 0 "" "" "" 0 "" "") "" [] "".

Definition block1 : NativeBlock := Eval vm_compute in
  match (let* c := chain_new in make c 5) with Ok b => b | _ => no_block end.
Definition block2 : NativeBlock := Eval vm_compute in
  match (let* c := replay [block1] in make c 9) with Ok b => b | _ => no_block end.

Lemma replayed : exists c1 c2, replay [block1] = Ok c1 /\ append c1 block2 = Ok c2 /\ replay [block1; block2] = Ok c2.
Proof.
  assert (is_ok (replay [block1; block2]) = true) as (c2 & H2)%is_ok_Ok by reflexivity.
  pose proof H2 as H. change [block1; block2] with ([block1] ++ [block2]) in H. rewrite replay_snoc in H.
  apply obind_Ok in H as (c1 & H1 & Ha). eauto.
Qed.

End ChainDemo.

Section Witnesses.
Import ChainDemo.

Lemma fork_at_is_replay_witness :
  exists c2 c' r, replay [block1; block2] = Ok c2 /\ fork_at c2 1 = Ok c' /\
    replay (take 1 [block1; block2]) = Ok r /\ chain_eq c' r.
Proof.
  destruct replayed as (c1 & c2 & _ & _ & H2). exists c2.
  destruct (fork_at_is_replay [block1; block2] c2 1 H2) as (c' & r & Hf & Hr & He);
    [vm_compute; discriminate|vm_compute; discriminate|].
  exists c', r. split; [exact H2|]. split; [exact Hf|]. split; [exact Hr|exact He].
Defined.


Lemma append_proves_work_witness :
  exists c1 c2, append c1 block2 = Ok c2 /\ exists h, nb_hash block2 = Ok h.
Proof.
  destruct replayed as (c1 & c2 & _ & Ha & _). exists c1, c2. split; [exact Ha|].
  destruct (append_proves_work (L := concrete_laws) c1 block2 c2 Ha) as (h & t & head & Hh & _).
  exists h. exact Hh.
Defined.

Lemma mine_sound_complete_witness :
  exists target r, hex32 (nh_target (nb_header block1)) = Ok target /\
    mine (mkNativeBlockTemplate (nb_header block1) []) 0 1 = Ok r.
Proof.
  assert (is_ok (hex32 (nh_target (nb_header block1))) = true) as (target & Ht)%is_ok_Ok by reflexivity.
  destruct (mine_sound_complete (L := concrete_laws) (mkNativeBlockTemplate (nb_header block1) []) 0 1 target Ht)
    as (r & Hr & _).
  exists target, r. split; [exact Ht|exact Hr].
Defined.

Lemma mined_template_accepted_witness :
  exists c0 b' c', chain_new = Ok c0 /\ append c0 b' = Ok c' /\ nc_blocks c' = nc_blocks c0 ++ [b'].
Proof.
  destruct chain_new_ok as (c0 & H0 & Hok & _).
  assert (is_ok (let* c := chain_new in let* t := template c pk pk 5 [] in let* r := mine t 0 1 in
    let* b := ok_or r InsufficientWork in let* payload := authorization_payload b in
    let* b' := authorize b (sign_for_network key payload (Some NATIVE_TESTNET_NETWORK_ID)) in
    ensure (len (serde_to_vec (block_value b')) <=? 524288) BlockTooLarge) = true)
    as (c & Hc & (t & Ht & (r & Hr & (b & Hb & (payload & Hp & (b' & Hb' & Hs)%is_ok_bind)%is_ok_bind)%is_ok_bind)%is_ok_bind)%is_ok_bind)%is_ok_bind
    by reflexivity.
  rewrite Hc in H0. injection H0 as ->. apply ok_or_Ok in Hb. subst r.
  destruct (mined_template_accepted (L := concrete_laws) c0 pk pk 5 [] t 0 1 b _ b' Ht Hr Hb') as (c' & Ha & Hbs).
  - rewrite (ch_network _ Hok). destruct (N.leb_spec (len (serde_to_vec (block_value b'))) 524288) as [Hle|]; [exact Hle|discriminate Hs].
  - exists c0, b', c'. split; [exact Hc|]. split; [exact Ha|exact Hbs].
Defined.

Lemma outranks_strict_order_witness :
  exists c1 c2, replay [block1] = Ok c1 /\ replay [block1; block2] = Ok c2 /\ outranks c1 c1 = Ok false.
Proof.
  destruct replayed as (c1 & c2 & H1 & _ & H2). exists c1, c2. split; [exact H1|]. split; [exact H2|].
  destruct (outranks_strict_order [block1] [block1; block2] [block1] c1 c2 c1 H1 H2 H1)
    as (ha & hb & _ & _ & Hirr & _). exact Hirr.
Defined.

End Witnesses.
