(* ===== verification/Config.v ===== *)
(** * Calibration, rule constants, genesis and submission proof of work

    crates/boole-core/src/config.rs, rules.rs, genesis.rs and
    submission_pow.rs. The signed 64-bit fields of a report are [Z]; casts to
    [usize] happen after they are tested positive. *)

From S2P Require Import Prelude Json Externals Hash SignedEnvelope NativeLedger Concrete Block Difficulty.

(** ** rules.rs *)

Definition CONSENSUS_RULE_VERSION : N := 3.
Definition MIN_SHARE_SCORE_MULTIPLIER_NANOS : N := 1000000000.
Definition BASE_LANE_MAX_HEARTBEATS : N := 400000.
Definition BASE_LANE_MAX_REC_DEPTH : N := 512.
Definition BASE_LANE_MAX_PROOF_BYTES : N := 16384.
Definition BASE_LANE_MAX_DECLS : N := 1024.

(** ** config.rs *)

Record CalibrationReport := mkCalibrationReport {
  T_submit : string;
  T_share : string;
  T_block : string;
  T_ticket : string;
  MinShareScoreMultiplier : Number;
  K_max : Z;
  ShareCapPerPK_Block : Z;
  SharePoolGlobalCap : option Z;
  cr_L : Z;
  D_max : Z;
  EMAWindow : Z;
  cr_M : Z;
  perIpRateLimitPer60s : Z;
  cr_provenance : string
}.

Record CalibrationThresholds := mkCalibrationThresholds {
  t_submit : N;
  t_share : N;
  t_block : N;
  t_ticket : N
}.

Record CalibrationPolicy := mkCalibrationPolicy {
  cp_thresholds : CalibrationThresholds;
  cp_k_max : N;
  cp_share_cap_per_pk_block : N;
  cp_global_share_cap : N;
  cp_l : N;
  cp_d_max : N;
  cp_m : Z;
  cp_per_ip_rate_limit_per_60s : N;
  cp_min_share_score_multiplier_nanos : N
}.

Inductive ConfigError :=
| EmptyHex
| BadBigInt
| MultiplierNotPositive
| MultiplierNotDecimal
| MultiplierTooPrecise
| MultiplierTooLarge
| MustBePositive (key : string)
| Above2Pow256 (key : string)
| BlockNotBelowShare.

(** [str::split_once] at a character. *)
Fixpoint split_once (c : N) (s : string) : option (string * string) :=
  match s with
  | EmptyString => None
  | String a s' =>
      if is_char c a then Some (EmptyString, s')
      else match split_once c s' with
           | Some (l, r) => Some (String a l, r)
           | None => None
           end
  end.

(** [while frac.len() < 9 { frac.push('0') }]. *)
Definition pad_right (width : nat) (s : string) : string :=
  s +:+ repeat_char "0" (width - String.length s).

Definition parse_decimal_nanos (raw : string) : outcome ConfigError N :=
  if starts_with_char 45 raw then Err MultiplierNotPositive else
  let '(whole, fractional) :=
    match split_once 46 raw with Some p => p | None => (raw, EmptyString) end in
  do* ensure (negb (str_is_empty whole || negb (str_all is_ascii_digit whole))) MultiplierNotDecimal;
  do* ensure (str_all is_ascii_digit fractional) MultiplierNotDecimal;
  do* ensure (negb (9 <? str_len fractional)) MultiplierTooPrecise;
  let* w := ok_or (parse_uint u64_max whole) MultiplierTooLarge in
  let* whole_nanos := ok_or (checked_mul u64_max w 1000000000) MultiplierTooLarge in
  let frac := pad_right 9 fractional in
  let* fractional_nanos :=
    if str_is_empty frac then Ok 0 else ok_or (parse_uint u64_max frac) MultiplierNotDecimal in
  let* nanos := ok_or (checked_add u64_max whole_nanos fractional_nanos) MultiplierTooLarge in
  do* ensure (negb (nanos =? 0)) MultiplierNotPositive;
  Ok nanos.

Section Config.
Context {X : Externals}.

Definition hex_to_biguint (hex : string) : outcome ConfigError N :=
  let stripped := strip_hex_prefix hex in
  do* ensure (negb (str_is_empty stripped)) EmptyHex;
  ok_or (biguint_parse_hex stripped) BadBigInt.

Definition calibration_thresholds (report : CalibrationReport) : outcome ConfigError CalibrationThresholds :=
  let* a := hex_to_biguint (T_submit report) in
  let* b := hex_to_biguint (T_share report) in
  let* c := hex_to_biguint (T_block report) in
  let* d := hex_to_biguint (T_ticket report) in
  Ok (mkCalibrationThresholds a b c d).

Definition min_share_score_multiplier_nanos (report : CalibrationReport) : outcome ConfigError N :=
  parse_decimal_nanos (number_to_string (MinShareScoreMultiplier report)).

Definition check_threshold (u : unit) (e : string * N) : outcome ConfigError unit :=
  let '(key, parsed) := e in
  do* ensure (negb (parsed =? 0)) (MustBePositive key);
  ensure (negb (two_to_256 <? parsed)) (Above2Pow256 key).

Definition positive (key : string) (v : Z) : outcome ConfigError unit :=
  ensure (negb (v <=? 0)%Z) (MustBePositive key).

Definition validate_calibration_report (report : CalibrationReport) : outcome ConfigError unit :=
  let* thresholds := calibration_thresholds report in
  do* ofold check_threshold tt
        [("T_submit", t_submit thresholds); ("T_share", t_share thresholds);
         ("T_block", t_block thresholds); ("T_ticket", t_ticket thresholds)];
  do* ensure (negb (t_share thresholds <=? t_block thresholds)) BlockNotBelowShare;
  do* positive "K_max" (K_max report);
  do* match SharePoolGlobalCap report with
      | Some global_cap => positive "SharePoolGlobalCap" global_cap
      | None => Ok tt
      end;
  do* positive "L" (cr_L report);
  do* positive "D_max" (D_max report);
  do* positive "M" (cr_M report);
  do* positive "perIpRateLimitPer60s" (perIpRateLimitPer60s report);
  do* positive "ShareCapPerPK_Block" (ShareCapPerPK_Block report);
  do* min_share_score_multiplier_nanos report;
  Ok tt.

Definition calibration_policy (report : CalibrationReport) : outcome ConfigError CalibrationPolicy :=
  do* validate_calibration_report report;
  let* thresholds := calibration_thresholds report in
  let* nanos := min_share_score_multiplier_nanos report in
  Ok (mkCalibrationPolicy thresholds (Z.to_N (K_max report)) (Z.to_N (ShareCapPerPK_Block report))
        (Z.to_N (default (K_max report) (SharePoolGlobalCap report))) (Z.to_N (cr_L report))
        (Z.to_N (D_max report)) (cr_M report) (Z.to_N (perIpRateLimitPer60s report)) nanos).

(** ** submission_pow.rs *)

Inductive SubmissionPowResult :=
| PowOk (hash_int : N)
| PowAboveTSubmit (hash_int : N).

(** [hex32_from_slice] aborts on a slice of another length. *)
Definition hex32_from_slice {E} (bytes : list byte) : outcome E Hex32 :=
  if Nat.eqb (length bytes) 32 then Ok bytes else Panic.

Definition submission_pow_result (ok : bool) (hash_int : N) : SubmissionPowResult :=
  if ok then PowOk hash_int else PowAboveTSubmit hash_int.

Definition check_submission_pow_with_policy {E} (c pk nonce_s canon_hash : list byte)
    (policy : CalibrationPolicy) : outcome E SubmissionPowResult :=
  let* c := hex32_from_slice c in
  let* pk := hex32_from_slice pk in
  let* nonce_s := hex32_from_slice nonce_s in
  let* canon_hash := hex32_from_slice canon_hash in
  let '(ok, hash_int) := submission_pow_ok c pk nonce_s canon_hash (t_submit (cp_thresholds policy)) in
  Ok (submission_pow_result ok hash_int).

Definition check_submission_pow {E} (c pk nonce_s canon_hash : list byte) (cfg : CalibrationReport)
    : outcome E SubmissionPowResult :=
  let* c := hex32_from_slice c in
  let* pk := hex32_from_slice pk in
  let* nonce_s := hex32_from_slice nonce_s in
  let* canon_hash := hex32_from_slice canon_hash in
  match calibration_thresholds cfg with
  | Ok thresholds =>
      let '(ok, hash_int) := submission_pow_ok c pk nonce_s canon_hash (t_submit thresholds) in
      Ok (submission_pow_result ok hash_int)
  | _ => Panic
  end.

End Config.

(** ** genesis.rs *)

Record GenesisParams := mkGenesisParams {
  gp_consensus_rule_version : N;
  gp_t_block : string;
  gp_t_share : string;
  gp_k_max : N;
  gp_retarget : option DifficultyRetargetPolicy;
  gp_seed_binding_required : bool;
  gp_checker_artifact_hash : option string;
  gp_family_manifest_root : option string
}.

Record GenesisInitialState := mkGenesisInitialState { gi_genesis_c : string }.

Record GenesisSpec := mkGenesisSpec {
  gs_network_id : string;
  gs_params : GenesisParams;
  gs_initial_state : GenesisInitialState
}.

(** The derived [Serialize]s: an absent option is [null], except for the fields
    that are skipped. *)
Definition retarget_value (p : DifficultyRetargetPolicy) : Value :=
  VObject [("maxAdjustmentFactor", VNumber (PosInt (rp_max_adjustment_factor p)));
           ("retargetEveryBlocks", VNumber (PosInt (rp_retarget_every_blocks p)));
           ("targetBlockMs", VNumber (PosInt (rp_target_block_ms p)))].

Definition skip_none (key : string) (o : option string) : list (string * Value) :=
  match o with Some s => [(key, VString s)] | None => [] end.

Definition params_value (p : GenesisParams) : Value :=
  VObject (skip_none "checkerArtifactHash" (gp_checker_artifact_hash p)
    ++ [("consensusRuleVersion", VNumber (PosInt (gp_consensus_rule_version p)))]
    ++ skip_none "familyManifestRoot" (gp_family_manifest_root p)
    ++ [("kMax", VNumber (PosInt (gp_k_max p)));
        ("retarget", match gp_retarget p with Some r => retarget_value r | None => VNull end);
        ("seedBindingRequired", VBool (gp_seed_binding_required p));
        ("tBlock", VString (gp_t_block p)); ("tShare", VString (gp_t_share p))]).

Definition genesis_value (g : GenesisSpec) : Value :=
  VObject [("initialState", VObject [("genesisC", VString (gi_genesis_c (gs_initial_state g)))]);
           ("networkId", VString (gs_network_id g)); ("params", params_value (gs_params g))].

Section Genesis.
Context {X : Externals}.

Definition genesis_preimage (g : GenesisSpec) : list byte :=
  as_bytes "genesis.v1" ++ canonicalize (genesis_value g).

Definition spec_hash (g : GenesisSpec) : Hex32 := blake3 (genesis_preimage g).

End Genesis.

Definition network_genesis_preset (network_id : string) : option GenesisSpec :=
  let all_zero_anchor := repeat_char "0" 64 in
  let t_max := "0x" +:+ repeat_char "f" 64 in
  let t_eased := "0x" +:+ repeat_char "f" 63 +:+ "e" in
  if String.eqb network_id "boole-dev" then
    Some (mkGenesisSpec "boole-dev"
      (mkGenesisParams CONSENSUS_RULE_VERSION t_eased t_max 4 None false None None)
      (mkGenesisInitialState all_zero_anchor))
  else if String.eqb network_id "boole-testnet-2" then
    Some (mkGenesisSpec "boole-testnet-2"
      (mkGenesisParams CONSENSUS_RULE_VERSION t_eased t_max 4 (Some (mkRetargetPolicy 60000 2 4)) true
         (Some "f9da3a1c5bcb605a26c8f778e2661e471398864c69393079aed461dd1453d7b4") None)
      (mkGenesisInitialState all_zero_anchor))
  else None.

(** ** Lemmas *)

Lemma genesis_plain g : json_plain (genesis_value g).
Proof.
  destruct g as [n [v tb ts k [[a b c]|] sb [h|] [r|]] [gc]]; unfold genesis_value, params_value; cbn;
    repeat (first [apply Forall_nil_2 | apply Forall_cons_2 | constructor]).
Qed.

(** The object is built with its keys in order. *)
Lemma genesis_sorted g : sort_keys (genesis_value g) = genesis_value g.
Proof. destruct g as [n [v tb ts k [[a b c]|] sb [h|] [r|]] [gc]]; reflexivity. Qed.

Lemma genesis_value_inj a b : genesis_value a = genesis_value b -> a = b.
Proof.
  destruct a as [n [v tb ts k r sb h f] [gc]], b as [n' [v' tb' ts' k' r' sb' h' f'] [gc']].
  unfold genesis_value; cbn. intros [= -> -> E]. unfold params_value in E; cbn in E.
  destruct h as [h|], h' as [h'|], f as [f|], f' as [f'|], r as [[]|], r' as [[]|]; cbn in E;
    try discriminate E; injection E; intros; subst; done.
Qed.

Section ConfigFacts.
Context {X : Externals}.

Lemma validate_report_Ok report :
  validate_calibration_report report = Ok tt ->
  exists th, calibration_thresholds report = Ok th /\
    1 <= t_submit th <= two_to_256 /\ 1 <= t_share th <= two_to_256 /\
    1 <= t_block th < t_share th /\ 1 <= t_ticket th <= two_to_256 /\
    (0 < K_max report /\ 0 < cr_L report /\ 0 < D_max report /\ 0 < cr_M report /\
     0 < perIpRateLimitPer60s report /\ 0 < ShareCapPerPK_Block report /\
     0 < default (K_max report) (SharePoolGlobalCap report))%Z.
Proof.
  unfold validate_calibration_report, positive. cbn [ofold check_threshold]. intros H. run_inv H; breflect.
  all: repeat match goal with H : (_ <=? _)%Z = false |- _ => apply Z.leb_gt in H end.
  all: repeat match goal with H : SharePoolGlobalCap _ = _ |- _ => rewrite H end.
  all: eexists; split; [reflexivity|]; unfold default, id; split_and!; lia.
Qed.

End ConfigFacts.

(** ** The theorems *)

Section Theorems.
Context {X : Externals}.

(** A calibration report that yields a policy has targets between 1 and
    2^256 with the block target strictly below the share target, and positive
    caps; so every share that wins a block is also a valid share, and its score
    clears the floor of the consensus rules. *)
Theorem calibration_policy_sound report p :
  calibration_policy report = Ok p ->
  1 <= t_block (cp_thresholds p) < t_share (cp_thresholds p) /\
  t_share (cp_thresholds p) <= two_to_256 /\
  1 <= t_submit (cp_thresholds p) <= two_to_256 /\ 1 <= t_ticket (cp_thresholds p) <= two_to_256 /\
  1 <= cp_k_max p /\ 1 <= cp_share_cap_per_pk_block p /\ 1 <= cp_global_share_cap p /\
  1 <= cp_l p /\ 1 <= cp_d_max p /\ (1 <= cp_m p)%Z /\ 1 <= cp_per_ip_rate_limit_per_60s p /\
  exists floor, min_share_score (t_share (cp_thresholds p)) MIN_SHARE_SCORE_MULTIPLIER_NANOS = Some floor /\
    forall h, digest_to_biguint h < t_block (cp_thresholds p) ->
      digest_to_biguint h < t_share (cp_thresholds p) /\ floor <= share_score h.
Proof.
  unfold calibration_policy. intros H. run_inv H. injection H as <-. cbn.
  match goal with H : validate_calibration_report _ = Ok ?u |- _ => destruct u; apply validate_report_Ok in H as (th & Hth & ?) end.
  match goal with H : calibration_thresholds report = Ok ?t |- _ => assert (t = th) as -> by congruence end.
  destruct (min_share_score (t_share th) MIN_SHARE_SCORE_MULTIPLIER_NANOS) as [floor|] eqn:Hf.
  2:{ unfold min_share_score, difficulty_weight in Hf. destruct (N.eqb_spec (t_share th) 0); [lia|done]. }
  split_and!; try lia. exists floor. split; [done|]. intros h Hh. split; [lia|].
  eapply share_score_clears_floor; [|exact Hf]. lia.
Qed.

(** The identity of a network commits its whole launch declaration: two
    specifications have the same preimage only when they are equal in every
    field. *)
Theorem genesis_commits {L : ExternalsLaws X} a b : genesis_preimage a = genesis_preimage b <-> a = b.
Proof.
  split; [|by intros ->]. unfold genesis_preimage, canonicalize. intros E%app_inv_head.
  rewrite !genesis_sorted in E. apply serde_to_vec_inj in E; [|apply genesis_plain..].
  by apply genesis_value_inj.
Qed.

End Theorems.

(** ** Witnesses *)

Definition demo_report : CalibrationReport :=
  mkCalibrationReport "0xffff" "0xffff" "0xff" "0xffff" (PosInt 1) 4 2 None 16384 1024 10 5 60 "demo".

Lemma calibration_policy_sound_witness :
  exists p, calibration_policy demo_report = Ok p /\ 1 <= t_block (cp_thresholds p) < t_share (cp_thresholds p).
Proof.
  assert (is_ok (calibration_policy demo_report) = true) as (p & Hp)%is_ok_Ok by reflexivity.
  exists p. split; [exact Hp|]. exact (proj1 (calibration_policy_sound demo_report p Hp)).
Defined.

Lemma genesis_commits_witness :
  exists a b, network_genesis_preset "boole-dev" = Some a /\ network_genesis_preset "boole-testnet-2" = Some b /\
    (genesis_preimage a = genesis_preimage b <-> a = b).
Proof.
  eexists _, _. split; [reflexivity|]. split; [reflexivity|]. exact (genesis_commits (L := concrete_laws) _ _).
Defined.
