(* ===== verification/SharePool.v ===== *)
(** * The pool of admitted shares (share_pool.rs)

    The pool keeps the structurally admitted shares of the current head by
    their key [pk|n|j], counts them per [pk|c] against two caps, and remembers
    the shares whose semantic check is running (or failed) as tombstones that
    hold no capacity. The theorems show that the caps hold in every reachable
    pool, that [accept] decides by the pool's real contents, and that a
    semantic reservation ends in the state it started from. *)

From S2P Require Import Prelude Json Externals Config.

Definition MAX_SEMANTIC_REJECT_TOMBSTONES : N := 4096.

Record PoolShare := mkPoolShare {
  ps_label : string;
  ps_pk : string;
  ps_n : string;
  ps_j : string;
  ps_c : string
}.

Inductive SharePoolRejectReason := Duplicate | StaleC | PkCapExceeded | GlobalCapExceeded.

Inductive AcceptResult := AcceptOk | AcceptErr (reason : SharePoolRejectReason).

#[export] Instance reject_reason_eq_decision : EqDecision SharePoolRejectReason.
Proof. solve_decision. Defined.
#[export] Instance accept_result_eq_decision : EqDecision AcceptResult.
Proof. solve_decision. Defined.

Record SharePool := mkSharePool {
  sp_current_c : option string;
  sp_share_cap_per_pk_block : N;
  sp_global_share_cap : N;
  sp_by_key : gmap string PoolShare;
  sp_insertion_order : list string;
  sp_per_pk_per_c : gmap string N;
  sp_tombstones : gset string;
  sp_tombstone_order : list string;
  sp_tombstone_cap : N
}.

(** Assignments to the groups of fields the operations change together. *)
Definition with_active (p : SharePool) by_key order counts : SharePool :=
  mkSharePool (sp_current_c p) (sp_share_cap_per_pk_block p) (sp_global_share_cap p) by_key order counts
    (sp_tombstones p) (sp_tombstone_order p) (sp_tombstone_cap p).

Definition with_tombstones (p : SharePool) tombstones order : SharePool :=
  mkSharePool (sp_current_c p) (sp_share_cap_per_pk_block p) (sp_global_share_cap p) (sp_by_key p)
    (sp_insertion_order p) (sp_per_pk_per_c p) tombstones order (sp_tombstone_cap p).

Definition with_current_c (p : SharePool) (c : string) : SharePool :=
  mkSharePool (Some c) (sp_share_cap_per_pk_block p) (sp_global_share_cap p) (sp_by_key p)
    (sp_insertion_order p) (sp_per_pk_per_c p) ∅ [] (sp_tombstone_cap p).

Definition share_key (s : PoolShare) : string := ps_pk s +:+ "|" +:+ ps_n s +:+ "|" +:+ ps_j s.
Definition per_pk_key (pk c : string) : string := pk +:+ "|" +:+ c.

(** [share_cap] and [global_share_cap] are [usize]; [clamp] on its range. *)
Definition new_with_global_cap (share_cap_per_pk_block global_share_cap : N) : SharePool :=
  mkSharePool None share_cap_per_pk_block global_share_cap ∅ [] ∅ ∅ []
    (N.min (N.max global_share_cap 1) MAX_SEMANTIC_REJECT_TOMBSTONES).

Definition pool_new (share_cap_per_pk_block : N) : SharePool :=
  new_with_global_cap share_cap_per_pk_block usize_max.

Definition pool_from_policy (policy : CalibrationPolicy) : SharePool :=
  new_with_global_cap (cp_share_cap_per_pk_block policy) (cp_global_share_cap policy).

Definition pool_from_calibration_report {X : Externals} (report : CalibrationReport)
    : outcome ConfigError SharePool :=
  let* policy := calibration_policy report in Ok (pool_from_policy policy).

Definition pool_set_current_c (p : SharePool) (c : string) : SharePool :=
  if bool_decide (sp_current_c p = Some c) then p else with_current_c p c.

Definition stale (p : SharePool) (s : PoolShare) : bool :=
  match sp_current_c p with Some c => negb (String.eqb (ps_c s) c) | None => false end.

Definition used (p : SharePool) (cap_key : string) : N := default 0 (sp_per_pk_per_c p !! cap_key).

Definition pool_size (p : SharePool) : N := N.of_nat (size (sp_by_key p)).

(** The insertion [accept] and [restore_after_semantic_check] share; [used + 1]
    cannot overflow, being at most the cap, a [usize]. *)
Definition insert_active (p : SharePool) (s : PoolShare) : SharePool :=
  let cap_key := per_pk_key (ps_pk s) (ps_c s) in
  with_active p (<[share_key s := s]> (sp_by_key p)) (sp_insertion_order p ++ [share_key s])
    (<[cap_key := used p cap_key + 1]> (sp_per_pk_per_c p)).

Definition accept (p : SharePool) (s : PoolShare) : SharePool * AcceptResult :=
  if stale p s then (p, AcceptErr StaleC)
  else if bool_decide (is_Some (sp_by_key p !! share_key s)) || bool_decide (share_key s ∈ sp_tombstones p)
  then (p, AcceptErr Duplicate)
  else if sp_share_cap_per_pk_block p <=? used p (per_pk_key (ps_pk s) (ps_c s))
  then (p, AcceptErr PkCapExceeded)
  else if sp_global_share_cap p <=? pool_size p then (p, AcceptErr GlobalCapExceeded)
  else (insert_active p s, AcceptOk).

Definition remove_active (p : SharePool) (key : string) : option (SharePool * PoolShare) :=
  match sp_by_key p !! key with
  | None => None
  | Some share =>
      let cap_key := per_pk_key (ps_pk share) (ps_c share) in
      let counts :=
        match sp_per_pk_per_c p !! cap_key with
        | Some n => if n - 1 =? 0 then delete cap_key (sp_per_pk_per_c p)
                    else <[cap_key := n - 1]> (sp_per_pk_per_c p)
        | None => sp_per_pk_per_c p
        end in
      Some (with_active p (delete key (sp_by_key p))
              (filter (fun entry => entry <> key) (sp_insertion_order p)) counts, share)
  end.

(** The [while] loop: it ends because every turn pops the front. *)
Fixpoint trim_tombstones (cap : N) (tombstones : gset string) (order : list string)
    : gset string * list string :=
  match order with
  | [] => (tombstones, [])
  | oldest :: rest =>
      if cap <? len order then trim_tombstones cap (tombstones ∖ {[oldest]}) rest
      else (tombstones, order)
  end.

Definition insert_semantic_tombstone (p : SharePool) (key : string) : SharePool :=
  let order := if bool_decide (key ∈ sp_tombstones p) then sp_tombstone_order p
               else sp_tombstone_order p ++ [key] in
  let '(tombstones, order) := trim_tombstones (sp_tombstone_cap p) ({[key]} ∪ sp_tombstones p) order in
  with_tombstones p tombstones order.

(** The two [debug_assert_eq!]s are compiled out of the release build. *)
Definition reserve_for_semantic_check (p : SharePool) (s : PoolShare) : SharePool * bool :=
  match remove_active p (share_key s) with
  | None => (p, false)
  | Some (p, _) => (insert_semantic_tombstone p (share_key s), true)
  end.

Definition remove_tombstone (p : SharePool) (key : string) : SharePool :=
  with_tombstones p (sp_tombstones p ∖ {[key]}) (filter (fun entry => entry <> key) (sp_tombstone_order p)).

Definition restore_after_semantic_check (p : SharePool) (s : PoolShare) : SharePool * bool :=
  let key := share_key s in
  if negb (bool_decide (key ∈ sp_tombstones p)) || stale p s || bool_decide (is_Some (sp_by_key p !! key))
  then (p, false)
  else if (sp_share_cap_per_pk_block p <=? used p (per_pk_key (ps_pk s) (ps_c s)))
          || (sp_global_share_cap p <=? pool_size p)
  then (p, false)
  else (insert_active (remove_tombstone p key) s, true).

Definition release_semantic_reservation (p : SharePool) (s : PoolShare) : SharePool * bool :=
  if bool_decide (share_key s ∈ sp_tombstones p) then (remove_tombstone p (share_key s), true)
  else (p, false).

Definition for_chain (p : SharePool) (c : string) : list PoolShare :=
  filter (fun share => ps_c share = c) (base.omap (fun key => sp_by_key p !! key) (sp_insertion_order p)).

(** One turn of the loop of [prune_to_height]: the map and the count of drops. *)
Definition prune_step (c : string) (st : gmap string PoolShare * N) (key : string)
    : gmap string PoolShare * N :=
  match st.1 !! key with
  | Some share => if String.eqb (ps_c share) c then st else (delete key st.1, st.2 + 1)
  | None => st
  end.

(** [str::ends_with]. *)
Fixpoint ends_with (suffix s : string) : bool :=
  String.eqb s suffix || match s with EmptyString => false | String _ s' => ends_with suffix s' end.

Definition prune_to_height (p : SharePool) (c : string) : SharePool * N :=
  let '(by_key, dropped) := foldl (prune_step c) (sp_by_key p, 0) (sp_insertion_order p) in
  let order := filter (fun key => is_Some (by_key !! key)) (sp_insertion_order p) in
  let counts := filter (fun e => ends_with ("|" +:+ c) e.1 = true) (sp_per_pk_per_c p) in
  (with_current_c (with_active p by_key order counts) c, dropped).

(** The histories of a pool: every public operation that changes it. *)
Inductive PoolOp :=
| OpSetCurrentC (c : string)
| OpAccept (s : PoolShare)
| OpReserve (s : PoolShare)
| OpRestore (s : PoolShare)
| OpRelease (s : PoolShare)
| OpPrune (c : string).

Definition pool_step (p : SharePool) (op : PoolOp) : SharePool :=
  match op with
  | OpSetCurrentC c => pool_set_current_c p c
  | OpAccept s => (accept p s).1
  | OpReserve s => (reserve_for_semantic_check p s).1
  | OpRestore s => (restore_after_semantic_check p s).1
  | OpRelease s => (release_semantic_reservation p s).1
  | OpPrune c => (prune_to_height p c).1
  end.

(** Every pool the operations lead to; [run] is the history that led there. *)
Definition pool_run (share_cap global_cap : N) (ops : list PoolOp) : SharePool :=
  foldl pool_step (new_with_global_cap share_cap global_cap) ops.

(** ** Lemmas *)

Lemma ends_with_spec suffix s : ends_with suffix s = true <-> exists p, s = p +:+ suffix.
Proof.
  induction s as [|a s IH]; cbn [ends_with].
  - rewrite orb_false_r, String.eqb_eq. split; [intros ->; by exists EmptyString|].
    intros [[|b p] Hp]; [done|discriminate].
  - rewrite orb_true_iff, String.eqb_eq, IH. split.
    + intros [->|[p ->]]; [by exists EmptyString|by exists (String a p)].
    + intros [[|b p] Hp]; [by left|right]. injection Hp as _ Hp. by exists p.
Qed.

(** No bar occurs in the text, as in the hexadecimal fields of real shares. *)
Definition bar_free (s : string) : bool := str_all (fun c => negb (is_char 124 c)) s.

Lemma bar_free_tail a b c d : bar_free b = true -> bar_free d = true ->
  a +:+ "|" +:+ b = c +:+ "|" +:+ d -> b = d.
Proof.
  assert (Hn : forall x y, bar_free (x +:+ String "|" y) = false).
  { intros x y; unfold bar_free; induction x as [|e x IH]; [done|].
    change (negb (is_char 124 e) && bar_free (x +:+ String "|" y) = false).
    unfold bar_free. rewrite IH. apply andb_false_r. }
  intros Hb Hd. change ("|" +:+ b) with (String "|" b). change ("|" +:+ d) with (String "|" d).
  revert c. induction a as [|x a IH]; intros [|y c] E; cbn in E; simplify_eq; [done| | |].
  - by rewrite Hn in Hb.
  - by rewrite Hn in Hd.
  - by eapply IH.
Qed.

(** The active shares counted under a cap key, and those of one signer and head. *)
Definition counted (ck : string) (s : PoolShare) : Prop := per_pk_key (ps_pk s) (ps_c s) = ck.
#[export] Instance counted_decision ck s : Decision (counted ck s).
Proof. unfold counted. apply _. Defined.

Definition active_count (m : gmap string PoolShare) (ck : string) : N :=
  N.of_nat (size (filter (fun e => counted ck e.2) m)).

Lemma active_count_insert m k s ck : m !! k = None ->
  active_count (<[k:=s]> m) ck = active_count m ck + (if decide (counted ck s) then 1 else 0).
Proof.
  intros Hk. unfold active_count. rewrite map_filter_insert. cbn. case_decide.
  - rewrite map_size_insert_None; [lia|]. apply map_lookup_filter_None. by left.
  - rewrite delete_id by done. lia.
Qed.

Lemma active_count_delete m k s ck : m !! k = Some s ->
  active_count m ck = active_count (delete k m) ck + (if decide (counted ck s) then 1 else 0).
Proof.
  intros Hk. rewrite <- (insert_delete_id m k s Hk) at 1. apply active_count_insert, lookup_delete_eq.
Qed.

Lemma active_count_zero m ck :
  (forall k s, m !! k = Some s -> ~ counted ck s) -> active_count m ck = 0.
Proof.
  intros H. unfold active_count. rewrite map_empty_filter_2; [done|].
  intros k s Hk. cbn. by apply (H k).
Qed.

Lemma active_count_mono m m' ck : m ⊆ m' -> active_count m ck <= active_count m' ck.
Proof.
  intros H. unfold active_count.
  enough (size (filter (fun e => counted ck e.2) m) ≤ size (filter (fun e => counted ck e.2) m'))%nat by lia.
  apply map_subseteq_size, map_filter_subseteq_mono. done.
Qed.

(** What holds of every pool. The count kept per cap key may exceed the active
    shares under it only where a bar inside a field makes two heads share a
    suffix, see [counts_exact]. *)
Record pool_ok (p : SharePool) : Prop := {
  po_nodup : NoDup (sp_insertion_order p);
  po_dom : forall k, k ∈ sp_insertion_order p <-> is_Some (sp_by_key p !! k);
  po_key : forall k s, sp_by_key p !! k = Some s -> k = share_key s;
  po_count : forall ck, active_count (sp_by_key p) ck <= used p ck;
  po_cap : forall ck n, sp_per_pk_per_c p !! ck = Some n -> 1 <= n <= sp_share_cap_per_pk_block p;
  po_global : pool_size p <= sp_global_share_cap p;
  po_tnodup : NoDup (sp_tombstone_order p);
  po_tdom : forall k, k ∈ sp_tombstone_order p <-> k ∈ sp_tombstones p;
  po_tlen : len (sp_tombstone_order p) <= sp_tombstone_cap p;
  po_tcap : 1 <= sp_tombstone_cap p <= MAX_SEMANTIC_REJECT_TOMBSTONES;
  po_disjoint : forall k, k ∈ sp_tombstones p -> sp_by_key p !! k = None
}.

Definition counts_exact (p : SharePool) : Prop :=
  (forall ck, used p ck = active_count (sp_by_key p) ck) /\
  forall k s, sp_by_key p !! k = Some s -> bar_free (ps_c s) = true.

Lemma new_pool_ok share_cap global_cap : pool_ok (new_with_global_cap share_cap global_cap).
Proof.
  unfold new_with_global_cap, MAX_SEMANTIC_REJECT_TOMBSTONES.
  split; cbn -[N.min N.max]; unfold used, pool_size, len; cbn -[N.min N.max].
  - constructor.
  - intros k. rewrite lookup_empty. split; [by intros ?%elem_of_nil|by intros []].
  - intros k s. by rewrite lookup_empty.
  - intros ck. rewrite lookup_empty, active_count_zero; [done|]. intros k s. by rewrite lookup_empty.
  - intros ck n. by rewrite lookup_empty.
  - rewrite map_size_empty. lia.
  - constructor.
  - intros k. set_solver.
  - lia.
  - unfold MAX_SEMANTIC_REJECT_TOMBSTONES. lia.
  - intros k. set_solver.
Qed.

Lemma with_current_c_ok p c : pool_ok p -> pool_ok (with_current_c p c).
Proof.
  intros []. split; cbn; try assumption; [apply NoDup_nil_2|set_solver|unfold len; cbn; lia|set_solver].
Qed.

(** Adding a share that is neither active nor tombstoned, below both caps. *)
Lemma insert_active_ok p s : pool_ok p -> sp_by_key p !! share_key s = None ->
  share_key s ∉ sp_tombstones p ->
  used p (per_pk_key (ps_pk s) (ps_c s)) < sp_share_cap_per_pk_block p ->
  pool_size p < sp_global_share_cap p -> pool_ok (insert_active p s).
Proof.
  intros [] Hk Ht Hu Hg. split; try done; cbn.
  - apply NoDup_app. split_and!; [done| |apply NoDup_singleton].
    intros x Hx ->%list_elem_of_singleton. apply po_dom0 in Hx as [? Hx]. congruence.
  - intros k. rewrite elem_of_app, list_elem_of_singleton, po_dom0, lookup_insert_is_Some'. naive_solver.
  - intros k x [[<- <-]|[_ ?]]%lookup_insert_Some; [done|by apply po_key0].
  - intros ck. rewrite active_count_insert by done. specialize (po_count0 ck). unfold used in *. cbn.
    unfold counted. case_decide as E.
    + subst ck. rewrite lookup_insert_eq. cbn. unfold used. lia.
    + rewrite lookup_insert_ne by done. lia.
  - intros ck n [[<- <-]|[_ ?]]%lookup_insert_Some; [lia|by eapply po_cap0].
  - unfold pool_size in *. cbn. rewrite map_size_insert_None by done. lia.
  - intros k Hin. apply lookup_insert_None. split; [by apply po_disjoint0|]. congruence.
Qed.

Lemma retain_ne_elem (l : list string) k x : x ∈ filter (fun e => e <> k) l <-> x <> k /\ x ∈ l.
Proof. by rewrite list_elem_of_filter. Qed.

Lemma remove_tombstone_ok p k : pool_ok p -> pool_ok (remove_tombstone p k).
Proof.
  intros []. split; try done; cbn.
  - by apply NoDup_filter.
  - intros x. rewrite retain_ne_elem, po_tdom0. set_solver.
  - pose proof (length_filter (fun e => e <> k) (sp_tombstone_order p)). unfold len in *. lia.
  - intros x Hx. apply po_disjoint0. set_solver.
Qed.

Lemma remove_active_ok p k p' s : pool_ok p -> remove_active p k = Some (p', s) ->
  pool_ok p' /\ sp_by_key p !! k = Some s /\ sp_by_key p' = delete k (sp_by_key p) /\
  sp_tombstones p' = sp_tombstones p /\ sp_tombstone_order p' = sp_tombstone_order p /\
  (forall ck, used p' ck = used p ck - (if decide (counted ck s) then 1 else 0)).
Proof.
  intros Hok H. unfold remove_active in H. destruct (sp_by_key p !! k) as [x|] eqn:Ex; [|done].
  simplify_eq H; clear H. intros <- <-. destruct Hok.
  set (ck0 := per_pk_key (ps_pk x) (ps_c x)).
  assert (Hused : forall ck, default 0 ((match sp_per_pk_per_c p !! ck0 with
        | Some n => if n - 1 =? 0 then delete ck0 (sp_per_pk_per_c p)
                    else <[ck0 := n - 1]> (sp_per_pk_per_c p)
        | None => sp_per_pk_per_c p end) !! ck) = used p ck - (if decide (counted ck x) then 1 else 0)).
  { intros ck. unfold counted, used. fold ck0. destruct (sp_per_pk_per_c p !! ck0) as [n|] eqn:En.
    - destruct (n - 1 =? 0) eqn:E1; breflect; case_decide as E; subst;
        rewrite ?lookup_delete_eq, ?lookup_insert_eq, ?En; cbn; try lia;
        rewrite ?lookup_delete_ne, ?lookup_insert_ne by done; lia.
    - case_decide as E; [rewrite <- E, En; cbn; lia|lia]. }
  split_and!; try done.
  split; try done; cbn.
  - by apply NoDup_filter.
  - intros y. rewrite retain_ne_elem, po_dom0, lookup_delete_is_Some. naive_solver.
  - intros y z [_ ?]%lookup_delete_Some. by apply po_key0.
  - intros ck. unfold used at 1. cbn. rewrite Hused. specialize (po_count0 ck).
    pose proof (active_count_delete _ _ _ ck Ex). lia.
  - intros ck n. destruct (sp_per_pk_per_c p !! ck0) as [m|] eqn:Em; [|apply po_cap0].
    specialize (po_cap0 ck0 m Em) as Hm. destruct (m - 1 =? 0) eqn:E1; breflect.
    + intros [_ ?]%lookup_delete_Some. by eapply po_cap0.
    + intros [[<- <-]|[_ ?]]%lookup_insert_Some; [lia|by eapply po_cap0].
  - unfold pool_size in *. cbn. rewrite map_size_delete_Some by done. lia.
  - intros y Hy. apply lookup_delete_None. right. by apply po_disjoint0.
Qed.

(** The trim keeps the youngest entries. *)
Lemma trim_tombstones_spec cap order : forall t t' o',
  NoDup order -> (forall k, k ∈ order <-> k ∈ t) -> trim_tombstones cap t order = (t', o') ->
  o' = drop (length order - N.to_nat cap) order /\ (forall k, k ∈ o' <-> k ∈ t').
Proof.
  induction order as [|x order IH]; intros t t' o' Hn Hd H; cbn [trim_tombstones] in H.
  - simplify_eq. by rewrite drop_nil.
  - apply NoDup_cons in Hn as [Hx Hn]. destruct (cap <? len (x :: order)) eqn:E; breflect; unfold len in E; cbn in E.
    + apply IH in H as [-> Ht]; [|done|].
      * split; [|done]. by replace (length (x :: order) - N.to_nat cap)%nat
          with (S (length order - N.to_nat cap)) by (cbn; lia).
      * intros k. rewrite elem_of_difference, elem_of_singleton, <- Hd, elem_of_cons.
        split; [|naive_solver]. intros Hk. split; [by right|]. by intros ->.
    + simplify_eq. by replace (length (x :: order) - N.to_nat cap)%nat with 0%nat by (cbn; lia).
Qed.

Lemma insert_semantic_tombstone_ok p k : pool_ok p -> sp_by_key p !! k = None ->
  pool_ok (insert_semantic_tombstone p k) /\
  sp_by_key (insert_semantic_tombstone p k) = sp_by_key p /\
  sp_per_pk_per_c (insert_semantic_tombstone p k) = sp_per_pk_per_c p /\
  sp_insertion_order (insert_semantic_tombstone p k) = sp_insertion_order p /\
  (k ∉ sp_tombstones p -> k ∈ sp_tombstones (insert_semantic_tombstone p k)).
Proof.
  intros [] Hk. unfold insert_semantic_tombstone.
  set (order := if bool_decide (k ∈ sp_tombstones p) then sp_tombstone_order p else sp_tombstone_order p ++ [k]).
  assert (Hn : NoDup order).
  { unfold order. case_bool_decide; [done|]. apply NoDup_app. split_and!; [done| |apply NoDup_singleton].
    intros x Hx ->%list_elem_of_singleton. by apply po_tdom0 in Hx. }
  assert (Hd : forall x, x ∈ order <-> x ∈ {[k]} ∪ sp_tombstones p).
  { intros x. unfold order. case_bool_decide; rewrite ?elem_of_app, po_tdom0; set_solver. }
  destruct (trim_tombstones _ _ order) as [t' o'] eqn:E.
  apply trim_tombstones_spec in E as [Ho Ht]; [|done|done].
  split_and!; cbn; try done.
  - split; cbn; try assumption.
    + subst o'. by eapply sublist_NoDup, sublist_drop.
    + subst o'. unfold len. rewrite length_drop. lia.
    + intros x Hx%Ht. subst o'. apply subseteq_drop, Hd in Hx. apply elem_of_union in Hx as [->%elem_of_singleton|Hx]; [done|by apply po_disjoint0].
  - intros Hnew. apply Ht. subst o'. unfold order. rewrite bool_decide_eq_false_2 by done.
    rewrite length_app. cbn. rewrite drop_app_le by lia. apply elem_of_app. right. by apply list_elem_of_singleton.
Qed.

Lemma prune_fold c l : forall m d m' d',
  foldl (prune_step c) (m, d) l = (m', d') ->
  m' = filter (fun e => e.1 ∉ l \/ ps_c e.2 = c) m /\ d' + N.of_nat (size m') = d + N.of_nat (size m).
Proof.
  induction l as [|k l IH]; intros m d m' d' H; cbn in H.
  - simplify_eq. split; [|done]. symmetry. apply map_filter_id. intros i x _. left. set_solver.
  - unfold prune_step in H at 2. cbn in H. destruct (m !! k) as [s|] eqn:Ek.
    + destruct (String.eqb (ps_c s) c) eqn:Ec; breflect.
      * apply IH in H as [-> ->]. split; [|done]. apply map_filter_ext. intros i x Hi. cbn.
        destruct (decide (i = k)) as [->|]; [simplify_eq; naive_solver|]. rewrite elem_of_cons. naive_solver.
      * apply IH in H as [-> ->]. split.
        -- rewrite map_filter_delete. apply map_eq. intros i. apply option_eq. intros x.
           rewrite lookup_delete_Some, !map_lookup_filter_Some. cbn. rewrite elem_of_cons.
           destruct (decide (i = k)) as [->|]; naive_solver.
        -- rewrite map_size_delete_Some by done. pose proof (map_size_ne_0_lookup_2 m k) as Hs.
           rewrite Ek in Hs. specialize (Hs ltac:(done)). lia.
    + apply IH in H as [-> ->]. split; [|done]. apply map_filter_ext. intros i x Hi. cbn.
      rewrite elem_of_cons. destruct (decide (i = k)) as [->|]; [congruence|naive_solver].
Qed.

Lemma prune_by_key p c : pool_ok p ->
  sp_by_key (prune_to_height p c).1 = filter (fun e => ps_c e.2 = c) (sp_by_key p) /\
  (prune_to_height p c).2 + pool_size (prune_to_height p c).1 = pool_size p.
Proof.
  intros []. unfold prune_to_height.
  destruct (foldl (prune_step c) (sp_by_key p, 0) (sp_insertion_order p)) as [m d] eqn:E.
  apply prune_fold in E as [-> E]. cbn. split; [|exact E].
  apply map_filter_ext. intros k s Hk. cbn. split; [|by right]. intros [Hn|]; [|done].
  destruct Hn. apply po_dom0. by exists s.
Qed.

(** The counts a prune keeps are those under keys that end in the new head. *)
Lemma prune_used p c ck :
  used (prune_to_height p c).1 ck = if ends_with ("|" +:+ c) ck then used p ck else 0.
Proof.
  unfold prune_to_height. destruct (foldl _ _ _) as [m d]. unfold used. cbn.
  destruct (ends_with _ ck) eqn:E.
  - destruct (sp_per_pk_per_c p !! ck) as [n|] eqn:En.
    + by rewrite (map_lookup_filter_Some_2 _ _ ck n).
    + by rewrite map_lookup_filter_None_2 by (left; done).
  - rewrite map_lookup_filter_None_2; [done|]. right. intros n _. cbn. congruence.
Qed.

Lemma ends_with_head pk c : ends_with ("|" +:+ c) (per_pk_key pk c) = true.
Proof. apply ends_with_spec. by exists pk. Qed.

Lemma prune_ok p c : pool_ok p -> pool_ok (prune_to_height p c).1.
Proof.
  intros Hok. pose proof (prune_by_key p c Hok) as [Hm Hsz].
  pose proof (prune_used p c) as Hu. destruct Hok. unfold prune_to_height in *.
  destruct (foldl _ _ _) as [m d]. cbn in Hm, Hsz, Hu |- *. subst m.
  split; cbn; try assumption.
  - by apply NoDup_filter.
  - intros k. rewrite list_elem_of_filter, po_dom0. split; [by intros []|]. intros Hs. split; [done|].
    destruct Hs as [s [Hs _]%map_lookup_filter_Some]. by exists s.
  - intros k s [Hs _]%map_lookup_filter_Some. by apply po_key0.
  - intros ck. rewrite Hu. destruct (ends_with _ ck) eqn:E.
    + etrans; [|apply po_count0]. apply active_count_mono, map_filter_subseteq.
    + rewrite active_count_zero; [done|]. intros k s [_ Hs]%map_lookup_filter_Some Hc. cbn in Hs.
      unfold counted in Hc. subst ck c. by rewrite ends_with_head in E.
  - intros ck n [Hn _]%map_lookup_filter_Some. by eapply po_cap0.
  - unfold pool_size in *. cbn in *. lia.
  - apply NoDup_nil_2.
  - set_solver.
  - unfold len. cbn. lia.
  - set_solver.
Qed.

Lemma accept_Ok p s p' : accept p s = (p', AcceptOk) ->
  p' = insert_active p s /\ stale p s = false /\ sp_by_key p !! share_key s = None /\
  share_key s ∉ sp_tombstones p /\ used p (per_pk_key (ps_pk s) (ps_c s)) < sp_share_cap_per_pk_block p /\
  pool_size p < sp_global_share_cap p.
Proof.
  unfold accept. repeat (case_match; try discriminate). intros [= <-]. breflect.
  rewrite eq_None_not_Some. done.
Qed.

Lemma accept_Err p s p' r : accept p s = (p', AcceptErr r) -> p' = p.
Proof. unfold accept. repeat case_match; by intros [= <-]. Qed.

Lemma restore_true p s p' : restore_after_semantic_check p s = (p', true) ->
  p' = insert_active (remove_tombstone p (share_key s)) s /\ stale p s = false /\
  sp_by_key p !! share_key s = None /\ share_key s ∈ sp_tombstones p /\
  used p (per_pk_key (ps_pk s) (ps_c s)) < sp_share_cap_per_pk_block p /\
  pool_size p < sp_global_share_cap p.
Proof.
  unfold restore_after_semantic_check. repeat (case_match; try discriminate). intros [= <-]. breflect.
  rewrite eq_None_not_Some. done.
Qed.

Lemma restore_false p s p' : restore_after_semantic_check p s = (p', false) -> p' = p.
Proof. unfold restore_after_semantic_check. repeat case_match; by intros [= <-]. Qed.

Lemma pool_step_ok p op : pool_ok p -> pool_ok (pool_step p op).
Proof.
  intros Hok. destruct op as [c|s|s|s|s|c]; cbn.
  - unfold pool_set_current_c. case_bool_decide; [done|by apply with_current_c_ok].
  - destruct (accept p s) as [p' [|r]] eqn:E; cbn; [|by apply accept_Err in E as ->].
    apply accept_Ok in E as (-> & _ & ? & ? & ? & ?). by apply insert_active_ok.
  - unfold reserve_for_semantic_check. destruct (remove_active p (share_key s)) as [[p' x]|] eqn:E; [|done].
    apply remove_active_ok in E as (Hok' & _ & Hm & _); [|done].
    apply insert_semantic_tombstone_ok; [done|]. rewrite Hm. apply lookup_delete_eq.
  - destruct (restore_after_semantic_check p s) as [p' []] eqn:E; cbn; [|by apply restore_false in E as ->].
    apply restore_true in E as (-> & _ & ? & ? & ? & ?).
    apply insert_active_ok; [by apply remove_tombstone_ok|done| |done|done]. cbn. set_solver.
  - unfold release_semantic_reservation. case_bool_decide; [by apply remove_tombstone_ok|done].
  - by apply prune_ok.
Qed.

Lemma pool_run_ok share_cap global_cap ops : pool_ok (pool_run share_cap global_cap ops).
Proof.
  unfold pool_run. generalize (new_pool_ok share_cap global_cap).
  generalize (new_with_global_cap share_cap global_cap). induction ops as [|op ops IH]; intros p Hp; [done|].
  by apply IH, pool_step_ok.
Qed.

Lemma pool_step_caps p op :
  sp_share_cap_per_pk_block (pool_step p op) = sp_share_cap_per_pk_block p /\
  sp_global_share_cap (pool_step p op) = sp_global_share_cap p.
Proof.
  destruct op; cbn; unfold pool_set_current_c, accept, reserve_for_semantic_check, remove_active,
    insert_semantic_tombstone, restore_after_semantic_check, release_semantic_reservation, prune_to_height;
    repeat (case_match; simplify_eq/=); done.
Qed.

Lemma pool_run_caps share_cap global_cap ops :
  sp_share_cap_per_pk_block (pool_run share_cap global_cap ops) = share_cap /\
  sp_global_share_cap (pool_run share_cap global_cap ops) = global_cap.
Proof.
  unfold pool_run. change share_cap with (sp_share_cap_per_pk_block (new_with_global_cap share_cap global_cap)) at 2.
  change global_cap with (sp_global_share_cap (new_with_global_cap share_cap global_cap)) at 4.
  generalize (new_with_global_cap share_cap global_cap). induction ops as [|op ops IH]; intros p; [done|].
  cbn [foldl]. rewrite !(proj1 (IH _)), !(proj2 (IH _)). apply pool_step_caps.
Qed.

(** A history whose heads hold no bar. *)
Definition op_plain (op : PoolOp) : bool :=
  match op with
  | OpSetCurrentC _ => true
  | OpAccept s | OpReserve s | OpRestore s | OpRelease s => bar_free (ps_c s)
  | OpPrune c => bar_free c
  end.

Lemma insert_active_exact p s : sp_by_key p !! share_key s = None -> bar_free (ps_c s) = true ->
  counts_exact p -> counts_exact (insert_active p s).
Proof.
  intros Hk Hb [Hu Hf]. split.
  - intros ck. unfold used. cbn. rewrite active_count_insert, <- Hu by done. unfold counted.
    case_decide as E; [subst ck; by rewrite lookup_insert_eq|].
    rewrite lookup_insert_ne by done. unfold used. lia.
  - cbn. intros k x [[_ <-]|[_ ?]]%lookup_insert_Some; [done|by eapply Hf].
Qed.

Lemma pool_step_exact p op : pool_ok p -> op_plain op = true -> counts_exact p -> counts_exact (pool_step p op).
Proof.
  intros Hok Hp Hex. destruct op as [c|s|s|s|s|c]; cbn in Hp |- *.
  - unfold pool_set_current_c. case_bool_decide; exact Hex.
  - destruct (accept p s) as [p' [|r]] eqn:E; cbn; [|by apply accept_Err in E as ->].
    apply accept_Ok in E as (-> & _ & ? & _). by apply insert_active_exact.
  - unfold reserve_for_semantic_check. destruct (remove_active p (share_key s)) as [[p' x]|] eqn:E; [|done].
    apply remove_active_ok in E as (Hok' & Hx & Hm & _ & _ & Hu); [|done].
    assert (Hnone : sp_by_key p' !! share_key s = None) by (rewrite Hm; apply lookup_delete_eq).
    destruct (insert_semantic_tombstone_ok p' (share_key s) Hok' Hnone) as (_ & Em & Ec & _). cbn.
    destruct Hex as [He Hf]. split.
    + intros ck. unfold used. rewrite Em, Ec. fold (used p' ck). rewrite Hu, He, Hm.
      pose proof (active_count_delete _ _ _ ck Hx). lia.
    + intros k y. rewrite Em, Hm. intros [_ ?]%lookup_delete_Some. by eapply Hf.
  - destruct (restore_after_semantic_check p s) as [p' []] eqn:E; cbn; [|by apply restore_false in E as ->].
    apply restore_true in E as (-> & _ & ? & _). by apply insert_active_exact.
  - unfold release_semantic_reservation. case_bool_decide; exact Hex.
  - destruct Hex as [He Hf]. pose proof (prune_by_key p c Hok) as [Hm _]. split.
    + intros ck. rewrite prune_used, Hm. destruct (ends_with _ ck) eqn:E.
      * rewrite He. unfold active_count. rewrite map_filter_filter_l; [done|]. intros k s Hk Hc. cbn in *.
        unfold counted in Hc. subst ck. apply ends_with_spec in E as [q Hq].
        symmetry. eapply bar_free_tail in Hq; [done|by eapply Hf|done].
      * rewrite active_count_zero; [done|]. intros k s [_ Hs]%map_lookup_filter_Some Hc. cbn in Hs.
        unfold counted in Hc. subst ck c. by rewrite ends_with_head in E.
    + intros k s. rewrite Hm. intros [Hs _]%map_lookup_filter_Some. by eapply Hf.
Qed.

Lemma pool_run_exact share_cap global_cap ops : forallb op_plain ops = true ->
  counts_exact (pool_run share_cap global_cap ops).
Proof.
  assert (H0 : counts_exact (new_with_global_cap share_cap global_cap)).
  { split; [|intros k s; cbn; by rewrite lookup_empty]. intros ck. unfold used. cbn.
    rewrite lookup_empty, active_count_zero; [done|]. intros k s. by rewrite lookup_empty. }
  unfold pool_run. generalize (new_pool_ok share_cap global_cap). revert H0.
  generalize (new_with_global_cap share_cap global_cap). induction ops as [|op ops IH]; intros p Hex Hp Hf; [done|].
  cbn in Hf. breflect. apply IH; [by apply pool_step_exact|by apply pool_step_ok|done].
Qed.

(** ** The list view of a pool *)

Definition actives (p : SharePool) : list PoolShare :=
  base.omap (fun key => sp_by_key p !! key) (sp_insertion_order p).

Definition keyed (s : PoolShare) : string * PoolShare := (share_key s, s).

Definition held (l : list PoolShare) (pk c : string) : list PoolShare :=
  filter (fun s => ps_pk s = pk /\ ps_c s = c) l.

Lemma for_chain_actives p c : for_chain p c = filter (fun s => ps_c s = c) (actives p).
Proof. done. Qed.

Lemma omap_keys (m : gmap string PoolShare) l :
  (forall k, k ∈ l -> is_Some (m !! k)) -> (forall k s, m !! k = Some s -> k = share_key s) ->
  map share_key (base.omap (fun key => m !! key) l) = l.
Proof.
  induction l as [|k l IH]; intros Hd Hk; [done|]. cbn.
  destruct (Hd k) as [s Hs]; [by left|]. rewrite Hs. cbn. rewrite <- (Hk k s Hs). f_equal.
  apply IH; [|done]. intros k' ?. apply Hd. by right.
Qed.

Lemma actives_keys p : pool_ok p -> map share_key (actives p) = sp_insertion_order p.
Proof. intros []. apply omap_keys; [|done]. intros k Hk. by apply po_dom0. Qed.

Lemma elem_of_actives p s : pool_ok p -> s ∈ actives p <-> sp_by_key p !! share_key s = Some s.
Proof.
  intros []. unfold actives. rewrite list_elem_of_omap. split.
  - intros (k & _ & Hk). by rewrite <- (po_key0 k s Hk).
  - intros Hs. exists (share_key s). split; [|done]. apply po_dom0. by exists s.
Qed.

Lemma keyed_fst l : (map keyed l).*1 = map share_key l.
Proof. apply (map_map keyed fst). Qed.

Lemma actives_map p : pool_ok p -> sp_by_key p = list_to_map (map keyed (actives p)).
Proof.
  intros Hok. apply map_eq. intros k. apply option_eq. intros s.
  rewrite <- elem_of_list_to_map by (rewrite keyed_fst, actives_keys by done; apply Hok).
  rewrite list_elem_of_In, in_map_iff. split.
  - intros Hs. exists s. assert (k = share_key s) as -> by (by apply (po_key _ Hok)).
    split; [done|]. by apply list_elem_of_In, elem_of_actives.
  - intros (x & Hx & Hin). unfold keyed in Hx. simplify_eq. by apply elem_of_actives, list_elem_of_In.
Qed.

Lemma active_count_list l ck : NoDup (map share_key l) ->
  active_count (list_to_map (map keyed l)) ck = len (filter (counted ck) l).
Proof.
  induction l as [|s l IH]; intros Hn.
  - rewrite active_count_zero; [done|]. intros k x. cbn. by rewrite lookup_empty.
  - apply NoDup_cons in Hn as [Hs Hn].
    change (list_to_map (map keyed (s :: l))) with (<[share_key s := s]> (list_to_map (M:=gmap string _) (map keyed l))).
    rewrite active_count_insert, IH, filter_cons by
      (try done; apply not_elem_of_list_to_map_1; by rewrite keyed_fst).
    unfold len. case_decide; cbn; lia.
Qed.

Lemma pool_size_list p : pool_ok p -> pool_size p = len (actives p).
Proof.
  intros Hok. unfold pool_size, len. rewrite actives_map, map_size_list_to_map by
    (try done; rewrite keyed_fst, actives_keys by done; apply Hok). by rewrite length_map.
Qed.

Lemma held_counted p pk c : pool_ok p -> len (held (actives p) pk c) <= used p (per_pk_key pk c).
Proof.
  intros Hok. etrans; [|apply (po_count _ Hok)].
  rewrite actives_map, active_count_list by (try done; rewrite actives_keys by done; apply Hok).
  unfold len, held.
  enough (length (filter (fun s => ps_pk s = pk /\ ps_c s = c) (actives p))
          <= length (filter (counted (per_pk_key pk c)) (actives p)))%nat by lia.
  apply filter_length_le. by intros s _ [<- <-].
Qed.

Lemma per_pk_key_inj pk c pk' c' : bar_free c = true -> bar_free c' = true ->
  per_pk_key pk c = per_pk_key pk' c' -> pk = pk' /\ c = c'.
Proof.
  intros Hc Hc' E. assert (c = c') as <- by (by eapply bar_free_tail in E).
  split; [|done]. by eapply str_app_inj_r.
Qed.

Lemma held_exact p pk c : pool_ok p -> counts_exact p -> bar_free c = true ->
  used p (per_pk_key pk c) = len (held (actives p) pk c).
Proof.
  intros Hok [He Hf] Hc. apply N.le_antisymm; [|by apply held_counted]. rewrite He.
  rewrite actives_map, active_count_list by (try done; rewrite actives_keys by done; apply Hok).
  unfold len, held.
  enough (length (filter (counted (per_pk_key pk c)) (actives p))
          <= length (filter (fun s => ps_pk s = pk /\ ps_c s = c) (actives p)))%nat by lia.
  apply filter_length_le. intros s Hs%elem_of_actives E; [|done]. unfold counted in E.
  by apply per_pk_key_inj in E; [|by eapply Hf|].
Qed.

Lemma actives_insert p s : pool_ok p -> sp_by_key p !! share_key s = None ->
  actives (insert_active p s) = actives p ++ [s].
Proof.
  intros Hok Hk. unfold actives. cbn. rewrite omap_app. cbn. rewrite lookup_insert_eq. f_equal.
  apply list_omap_ext, Forall_Forall2_diag, Forall_forall. intros k Hin.
  apply (po_dom _ Hok) in Hin as [x Hx]. rewrite lookup_insert_ne; congruence.
Qed.

Lemma for_chain_insert p s c : pool_ok p -> sp_by_key p !! share_key s = None ->
  for_chain (insert_active p s) c = for_chain p c ++ (if decide (ps_c s = c) then [s] else []).
Proof.
  intros Hok Hk. rewrite !for_chain_actives, actives_insert, filter_app by done. done.
Qed.

Lemma held_for_chain p pk c : held (actives p) pk c = filter (fun s => ps_pk s = pk) (for_chain p c).
Proof. rewrite for_chain_actives. unfold held. by rewrite list_filter_filter. Qed.

(** In every pool that any sequence of the public operations leads to, no
    signer holds more shares of a head than the per-signer cap, the pool holds
    no more shares than the global cap and no more than 4096 tombstones; the
    shares listed for a head are exactly the stored ones of that head, each
    once, and none of them is tombstoned. *)
Theorem pool_caps share_cap global_cap ops pk c :
  let p := pool_run share_cap global_cap ops in
  len (filter (fun s => ps_pk s = pk) (for_chain p c)) <= share_cap /\
  len (for_chain p c) <= pool_size p <= global_cap /\
  len (sp_tombstone_order p) <= MAX_SEMANTIC_REJECT_TOMBSTONES /\
  NoDup (map share_key (for_chain p c)) /\
  forall s, s ∈ for_chain p c <->
    sp_by_key p !! share_key s = Some s /\ ps_c s = c /\ share_key s ∉ sp_tombstones p.
Proof.
  intros p. pose proof (pool_run_ok share_cap global_cap ops) as Hok. fold p in Hok.
  destruct (pool_run_caps share_cap global_cap ops) as [Hs Hg]. fold p in Hs, Hg.
  split_and!.
  - rewrite <- held_for_chain. etrans; [by apply held_counted|]. unfold used.
    destruct (sp_per_pk_per_c p !! _) as [n|] eqn:En; cbn; [|lia].
    apply (po_cap _ Hok) in En. lia.
  - rewrite pool_size_list by done. rewrite for_chain_actives. unfold len.
    pose proof (length_filter (fun s => ps_c s = c) (actives p)). lia.
  - rewrite <- Hg. apply Hok.
  - destruct Hok. etrans; [done|]. lia.
  - rewrite for_chain_actives. apply map_filter_nodup. rewrite actives_keys by done. apply Hok.
  - intros s. rewrite for_chain_actives, list_elem_of_filter, elem_of_actives by done. split.
    + intros [Hc Hk]. split_and!; [done|done|]. intros Ht. apply (po_disjoint _ Hok) in Ht. congruence.
    + naive_solver.
Qed.

(** In a pool whose history names heads without a bar, as hexadecimal
    heads are, [accept] decides by the shares really held: a share of another
    head is stale, one whose key is active or reserved is a duplicate, a signer
    is refused exactly when it holds the cap on that head, the pool exactly
    when it holds the global cap; otherwise the share is appended to its head's
    list and nothing else changes. *)
Theorem accept_decides share_cap global_cap ops s :
  forallb op_plain ops = true -> bar_free (ps_c s) = true ->
  let p := pool_run share_cap global_cap ops in
  (accept p s).2 =
    (if stale p s then AcceptErr StaleC
     else if bool_decide (share_key s ∈ map share_key (actives p) \/ share_key s ∈ sp_tombstones p)
     then AcceptErr Duplicate
     else if share_cap <=? len (filter (fun x => ps_pk x = ps_pk s) (for_chain p (ps_c s)))
     then AcceptErr PkCapExceeded
     else if global_cap <=? len (actives p) then AcceptErr GlobalCapExceeded
     else AcceptOk) /\
  forall c, for_chain (accept p s).1 c =
    for_chain p c ++ (if decide ((accept p s).2 = AcceptOk /\ ps_c s = c) then [s] else []).
Proof.
  intros Hplain Hb p. pose proof (pool_run_ok share_cap global_cap ops) as Hok.
  pose proof (pool_run_exact share_cap global_cap ops Hplain) as Hex. fold p in Hok, Hex.
  destruct (pool_run_caps share_cap global_cap ops) as [Hs Hg]. fold p in Hs, Hg. split.
  - unfold accept. rewrite Hs, Hg, pool_size_list, held_exact, held_for_chain, actives_keys by done.
    rewrite <- bool_decide_or.
    rewrite (bool_decide_ext (share_key s ∈ sp_insertion_order p \/ share_key s ∈ sp_tombstones p)
      (is_Some (sp_by_key p !! share_key s) \/ share_key s ∈ sp_tombstones p)) by (by rewrite (po_dom _ Hok)).
    by repeat case_match.
  - intros c. destruct (accept p s) as [p' [|r]] eqn:E; cbn.
    + apply accept_Ok in E as (-> & _ & Hk & _). rewrite for_chain_insert by done. f_equal.
      repeat case_decide; naive_solver.
    + apply accept_Err in E as ->. rewrite decide_False by naive_solver. by rewrite app_nil_r.
Qed.

Lemma actives_perm p q : pool_ok p -> pool_ok q -> sp_by_key p = sp_by_key q -> actives p ≡ₚ actives q.
Proof.
  intros Hp Hq E.
  assert (Hn : forall r, pool_ok r -> NoDup (actives r)).
  { intros r Hr. apply (NoDup_fmap_1 share_key). change (NoDup (map share_key (actives r))).
    rewrite actives_keys by done. apply Hr. }
  apply NoDup_Permutation; [by apply Hn|by apply Hn|]. intros x. by rewrite !elem_of_actives, E.
Qed.

(** There is room for a share of the current head. *)
Record room (p : SharePool) (s : PoolShare) : Prop := {
  room_head : stale p s = false;
  room_key : sp_by_key p !! share_key s = None;
  room_signer : used p (per_pk_key (ps_pk s) (ps_c s)) < sp_share_cap_per_pk_block p;
  room_pool : pool_size p < sp_global_share_cap p
}.

Lemma accept_room p s : room p s -> share_key s ∉ sp_tombstones p -> accept p s = (insert_active p s, AcceptOk).
Proof.
  intros [H1 H2 H3 H4] Ht. unfold accept. rewrite H1, H2, !bool_decide_eq_false_2 by (try done; apply is_Some_None).
  cbn -[insert_active]. by rewrite (proj2 (N.leb_gt _ _) H3), (proj2 (N.leb_gt _ _) H4).
Qed.

Lemma restore_room p s : room p s -> share_key s ∈ sp_tombstones p ->
  restore_after_semantic_check p s = (insert_active (remove_tombstone p (share_key s)) s, true).
Proof.
  intros [H1 H2 H3 H4] Ht. unfold restore_after_semantic_check.
  rewrite H1, H2, bool_decide_eq_true_2, bool_decide_eq_false_2 by (try done; apply is_Some_None).
  cbn -[insert_active remove_tombstone]. by rewrite (proj2 (N.leb_gt _ _) H3), (proj2 (N.leb_gt _ _) H4).
Qed.

Lemma remove_active_frame p k p' x : remove_active p k = Some (p', x) ->
  sp_current_c p' = sp_current_c p /\ sp_share_cap_per_pk_block p' = sp_share_cap_per_pk_block p /\
  sp_global_share_cap p' = sp_global_share_cap p.
Proof. unfold remove_active. case_match; [|done]. intros [= <- _]. done. Qed.

Lemma insert_semantic_tombstone_frame p k :
  let p' := insert_semantic_tombstone p k in
  sp_current_c p' = sp_current_c p /\ sp_share_cap_per_pk_block p' = sp_share_cap_per_pk_block p /\
  sp_global_share_cap p' = sp_global_share_cap p.
Proof. unfold insert_semantic_tombstone. by case_match. Qed.

(** An active share is counted under its own key. *)
Lemma active_used p k s : pool_ok p -> sp_by_key p !! k = Some s ->
  1 <= used p (per_pk_key (ps_pk s) (ps_c s)) <= sp_share_cap_per_pk_block p.
Proof.
  intros Hok Hs. set (ck := per_pk_key _ _). pose proof (active_count_delete _ _ _ ck Hs) as Ha.
  rewrite decide_True in Ha by done. pose proof (po_count _ Hok ck). unfold used in *.
  destruct (sp_per_pk_per_c p !! ck) as [n|] eqn:En; cbn in *; [|lia]. apply (po_cap _ Hok) in En. lia.
Qed.

(** What a reservation of an active share leaves. *)
Lemma reserve_active p s : pool_ok p -> sp_by_key p !! share_key s = Some s -> stale p s = false ->
  exists r, reserve_for_semantic_check p s = (r, true) /\ pool_ok r /\ room r s /\
    sp_by_key r = delete (share_key s) (sp_by_key p) /\ share_key s ∈ sp_tombstones r /\
    pool_size r + 1 = pool_size p /\ sp_current_c r = sp_current_c p /\
    forall ck, used r ck = used p ck - (if decide (counted ck s) then 1 else 0).
Proof.
  intros Hok Hs Hst. unfold reserve_for_semantic_check.
  destruct (remove_active p (share_key s)) as [[p' x]|] eqn:E; [|unfold remove_active in E; by rewrite Hs in E].
  destruct (remove_active_frame _ _ _ _ E) as (Fc & Fs & Fg).
  apply remove_active_ok in E as (Hok' & Hx & Hm & Ht & _ & Hu); [|done].
  assert (x = s) as -> by congruence. set (k := share_key s) in *.
  assert (Hnone : sp_by_key p' !! k = None) by (rewrite Hm; apply lookup_delete_eq).
  destruct (insert_semantic_tombstone_ok p' k Hok' Hnone) as (Hr & Em & Ec & _ & Hin).
  destruct (insert_semantic_tombstone_frame p' k) as (Gc & Gs & Gg).
  set (r := insert_semantic_tombstone p' k) in *.
  assert (Hur : forall ck, used r ck = used p ck - (if decide (counted ck s) then 1 else 0))
    by (intros ck; unfold used at 1; rewrite Ec; apply Hu).
  assert (Hsz : pool_size r + 1 = pool_size p).
  { unfold pool_size. rewrite Em, Hm. rewrite <- (insert_delete_id _ _ _ Hs) at 2.
    rewrite map_size_insert_None by apply lookup_delete_eq. lia. }
  pose proof (active_used p _ s Hok Hs). pose proof (po_global _ Hok).
  exists r. split_and!; [done|done| |congruence| |done|congruence|done].
  - split; [by unfold stale; rewrite Gc, Fc|by rewrite Em| |rewrite Gg, Fg; lia].
    rewrite Hur, decide_True, Gs, Fs by done. lia.
  - apply Hin. rewrite Ht. intros Hd. apply (po_disjoint _ Hok) in Hd. congruence.
Qed.

(** C24: the life of a semantic reservation, in any reachable pool. Reserving an
    active share of the current head succeeds and frees one place, and while it
    is reserved its key is refused as a duplicate. Restoring it succeeds and
    gives back the same stored shares and the same counts, only its place in
    the order changes; releasing it succeeds too, and then the same share is
    accepted again. *)
Theorem reservation_lifecycle share_cap global_cap ops s :
  let p := pool_run share_cap global_cap ops in
  sp_by_key p !! share_key s = Some s -> stale p s = false ->
  exists r, reserve_for_semantic_check p s = (r, true) /\ pool_size r + 1 = pool_size p /\
    (forall s', share_key s' = share_key s -> stale p s' = false -> accept r s' = (r, AcceptErr Duplicate)) /\
    (exists q, restore_after_semantic_check r s = (q, true) /\ sp_by_key q = sp_by_key p /\
       (forall ck, used q ck = used p ck) /\ actives q ≡ₚ actives p) /\
    (exists q, release_semantic_reservation r s = (q, true) /\ (accept q s).2 = AcceptOk).
Proof.
  intros p Hs Hst. pose proof (pool_run_ok share_cap global_cap ops) as Hok. fold p in Hok.
  destruct (reserve_active p s Hok Hs Hst) as (r & Hr & Hokr & Hroom & Hm & Ht & Hsz & Hc & Hu).
  exists r. split_and!; [done|done| | |].
  - intros s' Hk Hst'. unfold accept. assert (stale r s' = false) as -> by (unfold stale; by rewrite Hc).
    by rewrite Hk, (bool_decide_eq_true_2 (_ ∈ _)), orb_true_r by done.
  - rewrite (restore_room r s Hroom Ht). eexists. split; [done|].
    assert (Hq : pool_ok (insert_active (remove_tombstone r (share_key s)) s)).
    { apply insert_active_ok; [by apply remove_tombstone_ok|apply Hroom|cbn; set_solver|apply Hroom|apply Hroom]. }
    assert (Heq : sp_by_key (insert_active (remove_tombstone r (share_key s)) s) = sp_by_key p)
      by (cbn; rewrite Hm; by apply insert_delete_id).
    split_and!; [done| |by apply actives_perm].
    intros ck. unfold used at 1. cbn. pose proof (active_used p _ s Hok Hs) as Ha.
    destruct (decide (counted ck s)) as [Hck|Hck]; pose proof Hck as E; unfold counted in E.
    + rewrite E in *. rewrite lookup_insert_eq. cbn.
      change (used (remove_tombstone r (share_key s)) ck) with (used r ck). rewrite Hu, decide_True by done. lia.
    + rewrite lookup_insert_ne by done. fold (used r ck). rewrite Hu, decide_False by done. lia.
  - exists (remove_tombstone r (share_key s)). unfold release_semantic_reservation.
    rewrite bool_decide_eq_true_2 by done. split; [done|].
    rewrite accept_room; [done| |cbn; set_solver]. destruct Hroom. by split.
Qed.

(** Pruning to a new head keeps exactly the shares of that head, in order, and
    reports how many it dropped. *)
Theorem prune_keeps_head share_cap global_cap ops c :
  let p := pool_run share_cap global_cap ops in
  let q := (prune_to_height p c).1 in
  actives q = for_chain p c /\ (prune_to_height p c).2 + pool_size q = pool_size p /\
  sp_current_c q = Some c /\ sp_tombstones q = ∅.
Proof.
  intros p q. pose proof (pool_run_ok share_cap global_cap ops) as Hok. fold p in Hok.
  destruct (prune_by_key p c Hok) as [Hm Hsz]. fold q in Hm, Hsz. split_and!; [|done| |].
  - unfold q, actives, for_chain in *. unfold prune_to_height in *.
    destruct (foldl _ _ _) as [m d]. cbn in Hm |- *. subst m. clear -Hok.
    induction (sp_insertion_order p) as [|k l IH]; [done|]. rewrite filter_cons. cbn.
    destruct (sp_by_key p !! k) as [s|] eqn:Ek.
    + rewrite filter_cons. destruct (decide (ps_c s = c)) as [Hc|Hc].
      * rewrite decide_True by (exists s; by apply map_lookup_filter_Some). cbn.
        rewrite (map_lookup_filter_Some_2 _ _ k s) by done. by f_equal.
      * rewrite decide_False; [done|]. intros [x [Hx Hp]%map_lookup_filter_Some]. cbn in Hp. congruence.
    + rewrite decide_False; [done|]. intros [x [Hx Hp]%map_lookup_filter_Some]. congruence.
  - unfold q, prune_to_height. by case_match.
  - unfold q, prune_to_height. by case_match.
Qed.

Module PoolDemo.
Definition first : PoolShare := mkPoolShare "first" "a1" "01" "02" "c0".
Definition second : PoolShare := mkPoolShare "second" "a1" "03" "02" "c0".
Definition history : list PoolOp := [OpPrune "c0"; OpAccept first].
End PoolDemo.

Lemma accept_decides_witness :
  (accept (pool_run 1 4 PoolDemo.history) PoolDemo.second).2 = AcceptErr PkCapExceeded.
Proof.
  destruct (accept_decides 1 4 PoolDemo.history PoolDemo.second eq_refl eq_refl) as [H _].
  rewrite H. reflexivity.
Defined.

Lemma reservation_lifecycle_witness :
  exists r, reserve_for_semantic_check (pool_run 1 4 PoolDemo.history) PoolDemo.first = (r, true) /\
    (accept r PoolDemo.first).2 = AcceptErr Duplicate.
Proof.
  destruct (reservation_lifecycle 1 4 PoolDemo.history PoolDemo.first) as (r & Hr & _ & Hd & _);
    [reflexivity|reflexivity|].
  exists r. split; [exact Hr|]. rewrite Hd; reflexivity.
Defined.
