(* ===== verification/RateLimiter.v ===== *)
(** * The admission rate limiter (rate_limiter.rs)

    A source address may be admitted a bounded number of times in a sliding
    window; a signer may submit, per head, a fixed number of shares for each
    ticket it showed. The limiter keeps timestamps per address and counters
    per identity [pk|c], all in bounded tables. The theorems show that the
    tables stay bounded, that no identity is charged beyond its tickets, that
    the operations do not abort on plausible clocks, and that no window of the
    configured length ever holds more admissions of an address than its quota. *)

From S2P Require Import Prelude Json Externals Config.

#[local] Open Scope Z_scope.

Definition MAX_CURRENT_HEAD_RATE_IDENTITIES : N := 4096.
Definition MAX_ACTIVE_RATE_SOURCE_IPS : N := 4096.
Definition SEEN_TICKETS_CAP : N := 1000000.

Inductive RateLimitRejectReason := IpQuota | PkQuota.
Inductive RateLimitResult := Allowed | Rejected (reason : RateLimitRejectReason).

Record RateLimiter := mkRateLimiter {
  rl_m : Z;
  rl_per_ip_rate_limit_per_60s : N;
  rl_window_ms : Z;
  rl_current_c : option string;
  rl_ip : gmap string (list Z);
  rl_pk_count : gmap string Z;
  rl_pk_tickets : gmap string Z;
  rl_seen_tickets : gset string;
  rl_exact_tickets : gmap string Z;
  rl_identity_order : list string;
  rl_tracked : gset string
}.

(** [i64] arithmetic; an overflow aborts. *)
Definition i64_min : Z := - 2 ^ 63.
Definition i64_max : Z := 2 ^ 63 - 1.
Definition i64 {E} (z : Z) : outcome E Z := if (i64_min <=? z) && (z <=? i64_max) then Ok z else Panic.

Definition with_ip (rl : RateLimiter) ip : RateLimiter :=
  mkRateLimiter (rl_m rl) (rl_per_ip_rate_limit_per_60s rl) (rl_window_ms rl) (rl_current_c rl) ip
    (rl_pk_count rl) (rl_pk_tickets rl) (rl_seen_tickets rl) (rl_exact_tickets rl)
    (rl_identity_order rl) (rl_tracked rl).

Definition with_counts (rl : RateLimiter) pk_count pk_tickets exact : RateLimiter :=
  mkRateLimiter (rl_m rl) (rl_per_ip_rate_limit_per_60s rl) (rl_window_ms rl) (rl_current_c rl) (rl_ip rl)
    pk_count pk_tickets (rl_seen_tickets rl) exact (rl_identity_order rl) (rl_tracked rl).

Definition with_seen (rl : RateLimiter) seen : RateLimiter :=
  mkRateLimiter (rl_m rl) (rl_per_ip_rate_limit_per_60s rl) (rl_window_ms rl) (rl_current_c rl) (rl_ip rl)
    (rl_pk_count rl) (rl_pk_tickets rl) seen (rl_exact_tickets rl) (rl_identity_order rl) (rl_tracked rl).

Definition with_identities (rl : RateLimiter) order tracked : RateLimiter :=
  mkRateLimiter (rl_m rl) (rl_per_ip_rate_limit_per_60s rl) (rl_window_ms rl) (rl_current_c rl) (rl_ip rl)
    (rl_pk_count rl) (rl_pk_tickets rl) (rl_seen_tickets rl) (rl_exact_tickets rl) order tracked.

Definition key (pk c : string) : string := pk +:+ "|" +:+ c.
Definition ticket_key (pk c n : string) : string := pk +:+ "|" +:+ c +:+ "|" +:+ n.

Definition limiter_from_policy (policy : CalibrationPolicy) (window_ms : Z) : RateLimiter :=
  mkRateLimiter (cp_m policy) (cp_per_ip_rate_limit_per_60s policy) window_ms None ∅ ∅ ∅ ∅ ∅ [] ∅.

Definition limiter_from_calibration_report {X : Externals} (cfg : CalibrationReport) (window_ms : Z)
    : outcome ConfigError RateLimiter :=
  let* policy := calibration_policy cfg in Ok (limiter_from_policy policy window_ms).

Definition clear_identity_state (rl : RateLimiter) : RateLimiter :=
  mkRateLimiter (rl_m rl) (rl_per_ip_rate_limit_per_60s rl) (rl_window_ms rl) (rl_current_c rl) (rl_ip rl)
    ∅ ∅ ∅ ∅ [] ∅.

(** An identity with no charge: absent from [pk_count] or counted zero. *)
Definition uncharged (rl : RateLimiter) (identity : string) : Prop :=
  default 0 (rl_pk_count rl !! identity) = 0.
#[export] Instance uncharged_decision rl identity : Decision (uncharged rl identity).
Proof. unfold uncharged. apply _. Defined.

Definition evict (rl : RateLimiter) (position : nat) (oldest : string) : RateLimiter :=
  with_counts (with_identities rl (delete position (rl_identity_order rl)) (rl_tracked rl ∖ {[oldest]}))
    (delete oldest (rl_pk_count rl)) (delete oldest (rl_pk_tickets rl)) (delete oldest (rl_exact_tickets rl)).

Definition admit_identity (rl : RateLimiter) (identity : string) : RateLimiter :=
  with_identities rl (rl_identity_order rl ++ [identity]) ({[identity]} ∪ rl_tracked rl).

Definition track_identity (rl : RateLimiter) (identity : string) : RateLimiter * bool :=
  if bool_decide (identity ∈ rl_tracked rl) then (rl, true)
  else if (MAX_CURRENT_HEAD_RATE_IDENTITIES <=? N.of_nat (size (rl_tracked rl)))%N then
    match list_find (uncharged rl) (rl_identity_order rl) with
    | None => (rl, false)
    | Some (position, oldest) => (admit_identity (evict rl position oldest) identity, true)
    end
  else (admit_identity rl identity, true).

(** [*map.entry(k).or_insert(0) += 1]. *)
Definition bump {E} (m : gmap string Z) (k : string) : outcome E (gmap string Z) :=
  let* v := i64 (default 0 (m !! k) + 1) in Ok (<[k := v]> m).

Definition off_head (rl : RateLimiter) (c : string) : bool :=
  match rl_current_c rl with Some current => negb (String.eqb current c) | None => false end.

Definition count_ticket {E} (rl : RateLimiter) (k : string) : outcome E RateLimiter :=
  let* tickets := bump (rl_pk_tickets rl) k in
  Ok (with_counts rl (rl_pk_count rl) tickets (rl_exact_tickets rl)).

Definition count_exact {E} (rl : RateLimiter) (k : string) : outcome E RateLimiter :=
  let* exact := bump (rl_exact_tickets rl) k in
  Ok (with_counts rl (rl_pk_count rl) (rl_pk_tickets rl) exact).

(** A ticket already in the dedup set: it is counted once more only for an
    identity that was evicted since. *)
Definition observe_seen {E} (rl : RateLimiter) (pc : string) : outcome E RateLimiter :=
  if bool_decide (pc ∈ rl_tracked rl) then Ok rl
  else let '(rl, tracked) := track_identity rl pc in
       if tracked then let* rl := count_exact rl pc in count_ticket rl pc else Ok rl.

Definition cap_seen (rl : RateLimiter) : RateLimiter :=
  if (SEEN_TICKETS_CAP <? N.of_nat (size (rl_seen_tickets rl)))%N
  then with_counts (with_seen rl ∅) (rl_pk_count rl) (rl_pk_tickets rl) ∅
  else rl.

Definition observe_ticket {E} (rl : RateLimiter) (pk c : string) (n : option string)
    : outcome E (RateLimiter * bool) :=
  if off_head rl c then Ok (rl, false)
  else
    match n with
    | Some n =>
        if bool_decide (ticket_key pk c n ∈ rl_seen_tickets rl) then
          let* rl := observe_seen rl (key pk c) in Ok (rl, false)
        else
          let '(rl, tracked) := track_identity rl (key pk c) in
          if negb tracked then Ok (rl, false)
          else
            let rl := with_seen rl ({[ticket_key pk c n]} ∪ rl_seen_tickets rl) in
            let* rl := count_exact rl (key pk c) in
            let* rl := count_ticket (cap_seen rl) (key pk c) in
            Ok (rl, true)
    | None =>
        let '(rl, tracked) := track_identity rl (key pk c) in
        if negb tracked then Ok (rl, false)
        else let* rl := count_ticket rl (key pk c) in Ok (rl, true)
    end.

Definition limiter_set_current_c (rl : RateLimiter) (c : string) : RateLimiter :=
  if bool_decide (rl_current_c rl = Some c) then rl
  else clear_identity_state
    (mkRateLimiter (rl_m rl) (rl_per_ip_rate_limit_per_60s rl) (rl_window_ms rl) (Some c) (rl_ip rl)
       (rl_pk_count rl) (rl_pk_tickets rl) (rl_seen_tickets rl) (rl_exact_tickets rl)
       (rl_identity_order rl) (rl_tracked rl)).

Definition has_observed_ticket (rl : RateLimiter) (pk c n : string) : bool :=
  let pc := key pk c in
  if default 0 (rl_exact_tickets rl !! pc) =? 0 then 0 <? default 0 (rl_pk_tickets rl !! pc)
  else bool_decide (ticket_key pk c n ∈ rl_seen_tickets rl).

Definition peek {E} (rl : RateLimiter) (now : Z) (ip pk c : string) : outcome E RateLimitResult :=
  let* cutoff := i64 (now - rl_window_ms rl) in
  let ip_count := len (filter (fun ts => cutoff <= ts) (default [] (rl_ip rl !! ip))) in
  if (rl_per_ip_rate_limit_per_60s rl <=? ip_count)%N then Ok (Rejected IpQuota)
  else if bool_decide (rl_ip rl !! ip = None)
          && (MAX_ACTIVE_RATE_SOURCE_IPS
              <=? N.of_nat (size (filter (fun e => Exists (fun ts => (cutoff <= ts)%Z) e.2) (rl_ip rl))))%N
  then Ok (Rejected IpQuota)
  else
    let k := key pk c in
    let* ceiling := i64 (default 0 (rl_pk_tickets rl !! k) * rl_m rl) in
    if ceiling <=? default 0 (rl_pk_count rl !! k) then Ok (Rejected PkQuota)
    else Ok Allowed.

(** [while front < cutoff { pop_front }]. *)
Fixpoint prune_front (cutoff : Z) (timestamps : list Z) : list Z :=
  match timestamps with
  | ts :: rest => if ts <? cutoff then prune_front cutoff rest else timestamps
  | [] => []
  end.

Definition rl_commit {E} (rl : RateLimiter) (now : Z) (ip pk c : string) : outcome E RateLimiter :=
  let* cutoff := i64 (now - rl_window_ms rl) in
  let ips :=
    if bool_decide (rl_ip rl !! ip = None) && (MAX_ACTIVE_RATE_SOURCE_IPS <=? N.of_nat (size (rl_ip rl)))%N
    then filter (fun e => e.2 <> []) (prune_front cutoff <$> rl_ip rl)
    else rl_ip rl in
  let timestamps := prune_front cutoff (default [] (ips !! ip)) ++ [now] in
  let* pk_count := bump (rl_pk_count rl) (key pk c) in
  Ok (with_counts (with_ip rl (<[ip := timestamps]> ips)) pk_count (rl_pk_tickets rl) (rl_exact_tickets rl)).

Definition rl_check {E} (rl : RateLimiter) (now : Z) (ip pk c : string)
    : outcome E (RateLimiter * RateLimitResult) :=
  let* result := peek rl now ip pk c in
  match result with
  | Allowed => let* rl := rl_commit rl now ip pk c in Ok (rl, Allowed)
  | Rejected reason => Ok (rl, Rejected reason)
  end.

(** [timestamps.remove(position)] at the first entry equal to [now]. *)
Fixpoint remove_first {A} `{EqDecision A} (x : A) (l : list A) : list A :=
  match l with
  | [] => []
  | y :: l' => if decide (y = x) then l' else y :: remove_first x l'
  end.

Definition release_committed (rl : RateLimiter) (now : Z) (ip pk c : string) : RateLimiter * bool :=
  let k := key pk c in
  let timestamps := default [] (rl_ip rl !! ip) in
  let has_pk_charge := 0 <? default 0 (rl_pk_count rl !! k) in
  if negb (bool_decide (now ∈ timestamps)) then (rl, false)
  else if negb has_pk_charge
          && match rl_current_c rl with Some head => String.eqb head c | None => true end
  then (rl, false)
  else
    let timestamps := remove_first now timestamps in
    let rl := with_ip rl (if bool_decide (timestamps = []) then delete ip (rl_ip rl)
                          else <[ip := timestamps]> (rl_ip rl)) in
    let used := default 0 (rl_pk_count rl !! k) - 1 in
    let pk_count :=
      if has_pk_charge then (if used =? 0 then delete k (rl_pk_count rl) else <[k := used]> (rl_pk_count rl))
      else rl_pk_count rl in
    (with_counts rl pk_count (rl_pk_tickets rl) (rl_exact_tickets rl), true).

Definition limiter_reset (rl : RateLimiter) : RateLimiter :=
  clear_identity_state
    (mkRateLimiter (rl_m rl) (rl_per_ip_rate_limit_per_60s rl) (rl_window_ms rl) None ∅
       (rl_pk_count rl) (rl_pk_tickets rl) (rl_seen_tickets rl) (rl_exact_tickets rl)
       (rl_identity_order rl) (rl_tracked rl)).

(** The histories of a limiter: every public operation that changes it, and
    the log of the admissions not yet released. *)
Inductive LimiterOp :=
| LObserve (pk c : string) (n : option string)
| LCheck (now : Z) (ip pk c : string)
| LRelease (now : Z) (ip pk c : string)
| LSetCurrentC (c : string)
| LReset.

Notation admissions := (list (string * Z)).

Definition limiter_step {E} (st : RateLimiter * admissions) (op : LimiterOp)
    : outcome E (RateLimiter * admissions) :=
  let '(rl, log) := st in
  match op with
  | LObserve pk c n => let* r := observe_ticket rl pk c n in Ok (r.1, log)
  | LCheck now ip pk c =>
      let* r := rl_check rl now ip pk c in
      Ok (r.1, match r.2 with Allowed => log ++ [(ip, now)] | Rejected _ => log end)
  | LRelease now ip pk c =>
      let r := release_committed rl now ip pk c in
      Ok (r.1, if r.2 then remove_first (ip, now) log else log)
  | LSetCurrentC c => Ok (limiter_set_current_c rl c, log)
  | LReset => Ok (limiter_reset rl, [])
  end.

Definition limiter_run {E} (policy : CalibrationPolicy) (window_ms : Z) (ops : list LimiterOp)
    : outcome E (RateLimiter * admissions) :=
  ofold limiter_step (limiter_from_policy policy window_ms, []) ops.

(** ** The tables *)

Record limiter_ok (rl : RateLimiter) : Prop := {
  lo_m : 0 < rl_m rl;
  lo_nodup : NoDup (rl_identity_order rl);
  lo_dom : forall k, k ∈ rl_identity_order rl <-> k ∈ rl_tracked rl;
  lo_tracked : (N.of_nat (size (rl_tracked rl)) <= MAX_CURRENT_HEAD_RATE_IDENTITIES)%N;
  lo_tickets : forall k v, rl_pk_tickets rl !! k = Some v -> k ∈ rl_tracked rl /\ 1 <= v;
  lo_exact : forall k v, rl_exact_tickets rl !! k = Some v -> k ∈ rl_tracked rl /\ 1 <= v;
  lo_count : forall k v, rl_pk_count rl !! k = Some v ->
    1 <= v <= default 0 (rl_pk_tickets rl !! k) * rl_m rl;
  lo_seen : (N.of_nat (size (rl_seen_tickets rl)) <= SEEN_TICKETS_CAP)%N;
  lo_ip : (N.of_nat (size (rl_ip rl)) <= MAX_ACTIVE_RATE_SOURCE_IPS)%N
}.

Lemma i64_Ok {E} z v : i64 (E:=E) z = Ok v <-> v = z /\ i64_min <= z <= i64_max.
Proof.
  unfold i64. destruct ((i64_min <=? z) && (z <=? i64_max)) eqn:E0.
  - apply andb_true_iff in E0 as [?%Z.leb_le ?%Z.leb_le]. split; [by intros [= ->]|by intros [-> _]].
  - split; [done|]. intros [_ [?%Z.leb_le ?%Z.leb_le]]. apply andb_false_iff in E0 as []; congruence.
Qed.

Lemma limiter_new_ok policy window_ms : 0 < cp_m policy -> limiter_ok (limiter_from_policy policy window_ms).
Proof.
  intros Hm. split; cbn [limiter_from_policy rl_m rl_ip rl_tracked rl_identity_order rl_pk_tickets rl_exact_tickets
    rl_pk_count rl_seen_tickets]; try apply NoDup_nil_2; try (intros k v; by rewrite lookup_empty);
    rewrite ?size_empty, ?map_size_empty; try done. set_solver.
Qed.

Lemma clear_identity_ok rl c ip : limiter_ok rl ->
  (N.of_nat (size ip) <= MAX_ACTIVE_RATE_SOURCE_IPS)%N ->
  limiter_ok (clear_identity_state
    (mkRateLimiter (rl_m rl) (rl_per_ip_rate_limit_per_60s rl) (rl_window_ms rl) c ip
       (rl_pk_count rl) (rl_pk_tickets rl) (rl_seen_tickets rl) (rl_exact_tickets rl)
       (rl_identity_order rl) (rl_tracked rl))).
Proof.
  intros [] Hip. split; cbn [clear_identity_state rl_m rl_ip rl_tracked rl_identity_order rl_pk_tickets
    rl_exact_tickets rl_pk_count rl_seen_tickets]; try apply NoDup_nil_2; try (intros k v; by rewrite lookup_empty);
    rewrite ?size_empty; try done. set_solver.
Qed.

Lemma elem_of_delete_nodup (l : list string) i x y : NoDup l -> l !! i = Some x ->
  y ∈ delete i l <-> y ∈ l /\ y <> x.
Proof.
  intros Hn Hi. rewrite delete_take_drop.
  assert (H : forall a b, NoDup (a ++ x :: b) -> y ∈ a ++ b <-> y ∈ a ++ x :: b /\ y <> x).
  { intros a b Hab. rewrite <- Permutation_middle in Hab. apply NoDup_cons in Hab as [Hx _].
    rewrite elem_of_app in Hx. rewrite !elem_of_app, elem_of_cons. naive_solver. }
  specialize (H (take i l) (drop (S i) l)). rewrite (take_drop_middle l i x Hi) in H. by apply H.
Qed.

Lemma evict_ok rl i oldest : limiter_ok rl -> list_find (uncharged rl) (rl_identity_order rl) = Some (i, oldest) ->
  limiter_ok (evict rl i oldest) /\
  (N.of_nat (size (rl_tracked (evict rl i oldest))) < MAX_CURRENT_HEAD_RATE_IDENTITIES)%N.
Proof.
  intros Hok (Hi & Hun & _)%list_find_Some. destruct Hok.
  assert (Hin : oldest ∈ rl_tracked rl) by (by eapply lo_dom0, list_elem_of_lookup_2).
  assert (Hsz : (S (size (rl_tracked rl ∖ {[oldest]})) = size (rl_tracked rl))%nat).
  { rewrite size_difference by set_solver. rewrite size_singleton.
    pose proof (subseteq_size {[oldest]} (rl_tracked rl) ltac:(set_solver)) as Hs. rewrite size_singleton in Hs. lia. }
  assert (Hnc : rl_pk_count rl !! oldest = None).
  { destruct (rl_pk_count rl !! oldest) as [v|] eqn:Ev; [|done]. unfold uncharged in Hun. rewrite Ev in Hun.
    apply lo_count0 in Ev. cbn in Hun. lia. }
  split; [|cbn; lia]. split; cbn; try done.
  - by eapply sublist_NoDup, sublist_delete.
  - intros k. rewrite (elem_of_delete_nodup _ _ oldest) by done. rewrite lo_dom0. set_solver.
  - lia.
  - intros k v [? Hv]%lookup_delete_Some. apply lo_tickets0 in Hv. set_solver.
  - intros k v [? Hv]%lookup_delete_Some. apply lo_exact0 in Hv. set_solver.
  - intros k v [? Hv]%lookup_delete_Some. rewrite lookup_delete_ne by done. by apply lo_count0.
Qed.

Lemma admit_identity_ok rl k : limiter_ok rl -> k ∉ rl_tracked rl ->
  (N.of_nat (size (rl_tracked rl)) < MAX_CURRENT_HEAD_RATE_IDENTITIES)%N ->
  limiter_ok (admit_identity rl k).
Proof.
  intros [] Hk Hs. split; cbn; try done.
  - apply NoDup_app. split_and!; [done| |apply NoDup_singleton].
    intros x Hx ->%list_elem_of_singleton. by apply lo_dom0 in Hx.
  - intros x. rewrite elem_of_app, lo_dom0. set_solver.
  - rewrite size_union, size_singleton by set_solver. lia.
  - intros x v Hv%lo_tickets0. set_solver.
  - intros x v Hv%lo_exact0. set_solver.
Qed.

(** Everything but the identity tables and the counters. *)
Definition limiter_frame (a b : RateLimiter) : Prop :=
  rl_m a = rl_m b /\ rl_per_ip_rate_limit_per_60s a = rl_per_ip_rate_limit_per_60s b /\
  rl_window_ms a = rl_window_ms b /\ rl_ip a = rl_ip b.

Lemma track_identity_ok rl k rl' b : limiter_ok rl -> track_identity rl k = (rl', b) ->
  limiter_ok rl' /\ limiter_frame rl' rl /\ (b = true -> k ∈ rl_tracked rl') /\ rl_seen_tickets rl' = rl_seen_tickets rl.
Proof.
  intros Hok. unfold track_identity. case_bool_decide as Hk; [by intros [= <- <-]|].
  case_match eqn:E; breflect.
  - destruct (list_find _ _) as [[i oldest]|] eqn:Ef; intros [= <- <-]; [|done].
    destruct (evict_ok _ _ _ Hok Ef) as [Hok' Hs]. split_and!; [|done|cbn; set_solver|done].
    apply admit_identity_ok; [done|cbn; set_solver|done].
  - intros [= <- <-].
    split_and!; [|done|cbn; set_solver|done]. apply admit_identity_ok; [done|done|lia].
Qed.

Lemma bump_Ok {E} m k m' : bump (E:=E) m k = Ok m' -> m' = <[k := default 0 (m !! k) + 1]> m.
Proof. unfold bump. intros H. run_inv H. injection H as <-. by apply i64_Ok in E0 as [-> _]. Qed.

Lemma bump_positive (S : gset string) (m : gmap string Z) k :
  (forall x v, m !! x = Some v -> x ∈ S /\ 1 <= v) -> k ∈ S ->
  forall x v, <[k := default 0 (m !! k) + 1]> m !! x = Some v -> x ∈ S /\ 1 <= v.
Proof.
  intros Hm Hk x v [[<- <-]|[_ Hv]]%lookup_insert_Some; [|by apply Hm].
  split; [done|]. destruct (m !! k) as [w|] eqn:Ew; cbn; [apply Hm in Ew|]; lia.
Qed.

Lemma count_ticket_ok {E} rl k rl' : limiter_ok rl -> k ∈ rl_tracked rl -> count_ticket (E:=E) rl k = Ok rl' ->
  limiter_ok rl' /\ limiter_frame rl' rl.
Proof.
  intros [] Hk H. unfold count_ticket in H. run_inv H. injection H as <-. apply bump_Ok in E0 as ->. split; [|done].
  split; cbn; try done; [by apply bump_positive|].
  intros x v Hv. specialize (lo_count0 x v Hv). destruct (decide (k = x)) as [<-|].
  - rewrite lookup_insert_eq. cbn. split; [lia|]. nia.
  - by rewrite lookup_insert_ne.
Qed.

Lemma count_exact_ok {E} rl k rl' : limiter_ok rl -> k ∈ rl_tracked rl -> count_exact (E:=E) rl k = Ok rl' ->
  limiter_ok rl' /\ limiter_frame rl' rl /\ rl_tracked rl' = rl_tracked rl.
Proof.
  intros [] Hk H. unfold count_exact in H. run_inv H. injection H as <-. apply bump_Ok in E0 as ->. split; [|done].
  split; cbn; try done. by apply bump_positive.
Qed.

(** The dedup set may pass its bound by one entry before it is cleared. *)
Lemma observe_new_ok {E} rl k S rl' : limiter_ok rl -> k ∈ rl_tracked rl ->
  count_exact (E:=E) (with_seen rl S) k = Ok rl' ->
  limiter_ok (cap_seen rl') /\ limiter_frame (cap_seen rl') rl /\ rl_tracked (cap_seen rl') = rl_tracked rl.
Proof.
  intros [] Hk H. unfold count_exact in H. run_inv H. injection H as <-. apply bump_Ok in E0 as ->.
  unfold cap_seen. cbn [with_counts with_seen rl_seen_tickets].
  destruct (SEEN_TICKETS_CAP <? N.of_nat (size S))%N eqn:Es; breflect; (split; [|done]); split; cbn; try done.
  by apply bump_positive.
Qed.

Lemma observe_seen_ok {E} rl k rl' : limiter_ok rl -> observe_seen (E:=E) rl k = Ok rl' ->
  limiter_ok rl' /\ limiter_frame rl' rl.
Proof.
  intros Hok. unfold observe_seen. case_bool_decide; [by intros [= <-]|].
  destruct (track_identity rl k) as [rl1 b] eqn:Et. apply track_identity_ok in Et as (Hok1 & F1 & Hk & _); [|done].
  destruct b; [|by intros [= <-]]. intros H0. run_inv H0.
  apply count_exact_ok in E0 as (Hok2 & F2 & Ht); [|done|by apply Hk].
  apply count_ticket_ok in H0 as [? F3]; [|done|rewrite Ht; by apply Hk]. split; [done|].
  unfold limiter_frame in *. intuition congruence.
Qed.

Lemma observe_ticket_ok {E} rl pk c n rl' b : limiter_ok rl -> observe_ticket (E:=E) rl pk c n = Ok (rl', b) ->
  limiter_ok rl' /\ limiter_frame rl' rl.
Proof.
  intros Hok. unfold observe_ticket. destruct (off_head rl c); [by intros [= <- _]|].
  destruct (track_identity rl (key pk c)) as [rl1 t] eqn:Et.
  apply track_identity_ok in Et as (Hok1 & F1 & Hk & _); [|done].
  destruct n as [n|].
  - case_bool_decide; [intros H0; run_inv H0; injection H0 as <- _; by apply observe_seen_ok in E0|].
    destruct t; cbn [negb]; [|by intros [= <- _]]. intros H0. run_inv H0. injection H0 as <- _.
    apply observe_new_ok in E0 as (Hok2 & F2 & Ht); [|done|by apply Hk].
    apply count_ticket_ok in E1 as [? F3]; [|done|rewrite Ht; by apply Hk]. split; [done|].
    unfold limiter_frame in *. intuition congruence.
  - destruct t; cbn [negb]; [|by intros [= <- _]]. intros H0. run_inv H0. injection H0 as <- _.
    apply count_ticket_ok in E0 as [? F3]; [|done|by apply Hk]. split; [done|].
    unfold limiter_frame in *. intuition congruence.
Qed.

Lemma prune_front_filter cutoff t l : cutoff <= t ->
  filter (fun ts => t <= ts) (prune_front cutoff l) = filter (fun ts => t <= ts) l.
Proof.
  intros Ht. induction l as [|x l IH]; [done|]. cbn [prune_front].
  destruct (x <? cutoff) eqn:E; [|done]. apply Z.ltb_lt in E.
  rewrite filter_cons, decide_False by lia. done.
Qed.

Lemma prune_front_active cutoff l : prune_front cutoff l <> [] <-> Exists (fun ts => cutoff <= ts) l.
Proof.
  induction l as [|x l IH]; cbn [prune_front]; [by rewrite Exists_nil|]. rewrite Exists_cons.
  destruct (x <? cutoff) eqn:E; [apply Z.ltb_lt in E|apply Z.ltb_ge in E].
  - rewrite IH. split; [by right|]. intros [?|?]; [lia|done].
  - split; [by left|done].
Qed.

(** Dropping the expired addresses leaves the active ones. *)
Lemma active_ips_size cutoff (m : gmap string (list Z)) :
  size (filter (fun e => e.2 <> []) (prune_front cutoff <$> m)) =
  size (filter (fun e => Exists (fun ts => cutoff <= ts) e.2) m).
Proof.
  rewrite map_filter_fmap, map_size_fmap. f_equal. apply map_filter_ext. intros i l _. cbn.
  apply prune_front_active.
Qed.

Lemma peek_Allowed {E} rl now ip pk c : peek (E:=E) rl now ip pk c = Ok Allowed ->
  (len (filter (fun ts => (now - rl_window_ms rl <= ts)%Z) (default [] (rl_ip rl !! ip)))
     < rl_per_ip_rate_limit_per_60s rl)%N /\
  (rl_ip rl !! ip = None ->
     (N.of_nat (size (filter (fun e => Exists (fun ts => (now - rl_window_ms rl <= ts)%Z) e.2) (rl_ip rl)))
        < MAX_ACTIVE_RATE_SOURCE_IPS)%N) /\
  default 0 (rl_pk_count rl !! key pk c) < default 0 (rl_pk_tickets rl !! key pk c) * rl_m rl.
Proof.
  unfold peek. intros H. run_inv H; try done. apply i64_Ok in E0 as [-> _]. breflect.
  apply i64_Ok in E3 as [-> _]. apply Z.leb_gt in E4. split_and!; [done| |done].
  intros Hnone. rewrite bool_decide_eq_true_2 in E2 by done. cbn [andb] in E2. by apply N.leb_gt.
Qed.

Lemma rl_commit_ok {E} rl now ip pk c rl' : limiter_ok rl -> peek (E:=E) rl now ip pk c = Ok Allowed ->
  rl_commit (E:=E) rl now ip pk c = Ok rl' -> limiter_ok rl'.
Proof.
  intros [] (_ & Hip & Hpk)%peek_Allowed H. unfold rl_commit in H. run_inv H. injection H as <-.
  apply i64_Ok in E0 as [-> _]. apply bump_Ok in E1 as ->. split; cbn; try done.
  - intros k v [[<- <-]|[_ ?]]%lookup_insert_Some; [|by apply lo_count0].
    split; [|lia]. destruct (rl_pk_count rl !! key pk c) as [w|] eqn:Ew; cbn; [apply lo_count0 in Ew|]; lia.
  - destruct (rl_ip rl !! ip) as [l|] eqn:El.
    + rewrite bool_decide_eq_false_2 by done. cbn. by rewrite map_size_insert_Some by done.
    + rewrite bool_decide_eq_true_2 by done. cbn. specialize (Hip eq_refl).
      destruct (MAX_ACTIVE_RATE_SOURCE_IPS <=? N.of_nat (size (rl_ip rl)))%N eqn:Em; breflect.
      * rewrite map_size_insert_None; [rewrite active_ips_size; lia|].
        apply map_lookup_filter_None. left. by rewrite lookup_fmap, El.
      * rewrite map_size_insert_None by done. lia.
Qed.

Lemma release_ok rl now ip pk c : limiter_ok rl -> limiter_ok (release_committed rl now ip pk c).1.
Proof.
  intros Hok. unfold release_committed.
  destruct (bool_decide (now ∈ default [] (rl_ip rl !! ip))) eqn:Ein; [breflect|done]. cbn [negb].
  match goal with |- context [if ?b then (rl, false) else _] => destruct b end; [done|]. cbn [fst].
  destruct Hok. split; cbn; try done.
  - intros k v. destruct (0 <? default 0 (rl_pk_count rl !! key pk c)) eqn:E; [|apply lo_count0].
    apply Z.ltb_lt in E. destruct (_ =? 0) eqn:E1.
    + intros [_ ?]%lookup_delete_Some. by apply lo_count0.
    + apply Z.eqb_neq in E1. intros [[<- <-]|[_ ?]]%lookup_insert_Some; [|by apply lo_count0].
      destruct (rl_pk_count rl !! key pk c) as [w|] eqn:Ew; cbn in *; [apply lo_count0 in Ew|]; lia.
  - case_bool_decide.
    + destruct (rl_ip rl !! ip) as [l|] eqn:El; [rewrite map_size_delete_Some by done; lia|].
      by rewrite map_size_delete_None by done.
    + destruct (rl_ip rl !! ip) as [l|] eqn:El; [by rewrite map_size_insert_Some by done|].
      cbn in Ein. by apply elem_of_nil in Ein.
Qed.

Lemma limiter_step_ok {E} st op st' : limiter_ok st.1 -> limiter_step (E:=E) st op = Ok st' -> limiter_ok st'.1.
Proof.
  intros Hok. destruct st as [rl log]. cbn in Hok. destruct op; cbn; intros H0.
  - run_inv H0. injection H0 as <-. destruct a as [rl' b]. by eapply observe_ticket_ok.
  - run_inv H0. injection H0 as <-. unfold rl_check in E0. run_inv E0.
    + injection E0 as <-. by eapply rl_commit_ok.
    + by injection E0 as <-.
  - injection H0 as <-. by apply release_ok.
  - injection H0 as <-. cbn. unfold limiter_set_current_c. case_bool_decide; [done|].
    apply clear_identity_ok; [done|apply Hok].
  - injection H0 as <-. apply clear_identity_ok; [done|]. rewrite map_size_empty. done.
Qed.

(** ** The sliding window *)

Definition log_times (log : admissions) (ip : string) : list Z := map snd (filter (fun e => e.1 = ip) log).

Definition in_window (a w : Z) (ts : Z) : Prop := a <= ts <= a + w.
#[export] Instance in_window_decision a w ts : Decision (in_window a w ts).
Proof. unfold in_window. apply _. Defined.

Definition stamps (rl : RateLimiter) (ip : string) : list Z := default [] (rl_ip rl !! ip).

Record window_inv (limit : N) (w T : Z) (rl : RateLimiter) (log : admissions) : Prop := {
  wi_limit : rl_per_ip_rate_limit_per_60s rl = limit;
  wi_window : rl_window_ms rl = w;
  wi_same : forall ip, filter (fun ts => T - w <= ts) (stamps rl ip) =
                       filter (fun ts => T - w <= ts) (log_times log ip);
  wi_past : forall ip, Forall (fun ts => ts <= T) (log_times log ip);
  wi_quota : forall ip a, (len (filter (in_window a w) (log_times log ip)) <= limit)%N
}.

Lemma filter_le_mono (t t' : Z) (l k : list Z) : t <= t' ->
  filter (fun ts => t <= ts) l = filter (fun ts => t <= ts) k ->
  filter (fun ts => t' <= ts) l = filter (fun ts => t' <= ts) k.
Proof.
  intros Ht E. assert (H : forall l : list Z, filter (fun ts => t' <= ts) l =
    filter (fun ts => t' <= ts) (filter (fun ts => t <= ts) l)).
  { intros x. rewrite list_filter_filter. apply list_filter_iff. intros y; lia. }
  by rewrite (H l), (H k), E.
Qed.

Lemma window_advance limit w T T' rl log : T <= T' -> window_inv limit w T rl log -> window_inv limit w T' rl log.
Proof.
  intros HT []. split; [done|done| | |done].
  - intros ip. apply (filter_le_mono (T - w)); [lia|done].
  - intros ip. eapply Forall_impl; [apply wi_past0|]. cbn. intros x Hx. lia.
Qed.

Lemma window_same_ip limit w T rl rl' log : rl_ip rl' = rl_ip rl ->
  rl_per_ip_rate_limit_per_60s rl' = rl_per_ip_rate_limit_per_60s rl -> rl_window_ms rl' = rl_window_ms rl ->
  window_inv limit w T rl log -> window_inv limit w T rl' log.
Proof.
  intros E1 E2 E3 []. split; [congruence|congruence| |done|done].
  intros ip. unfold stamps. rewrite E1. apply wi_same0.
Qed.

Lemma pruned_lookup cutoff (m : gmap string (list Z)) ip :
  filter (fun ts => cutoff <= ts) (default [] (filter (fun e => e.2 <> []) (prune_front cutoff <$> m) !! ip)) =
  filter (fun ts => cutoff <= ts) (default [] (m !! ip)).
Proof.
  destruct (m !! ip) as [l|] eqn:El; cbn.
  - rewrite <- (prune_front_filter cutoff cutoff l) by lia.
    destruct (decide (prune_front cutoff l = [])) as [E|E].
    + rewrite E, map_lookup_filter_None_2; [done|]. right. intros x. rewrite lookup_fmap, El. cbn.
      intros [= <-] Hne. by apply Hne.
    + rewrite (map_lookup_filter_Some_2 _ _ ip (prune_front cutoff l)); [done| |done]. by rewrite lookup_fmap, El.
  - rewrite map_lookup_filter_None_2; [done|]. left. by rewrite lookup_fmap, El.
Qed.

Lemma log_times_snoc log ip now ip' :
  log_times (log ++ [(ip, now)]) ip' = log_times log ip' ++ (if decide (ip = ip') then [now] else []).
Proof.
  unfold log_times. rewrite filter_app, map_app. f_equal. cbn. by case_decide.
Qed.

Lemma stamps_commit {E} rl now ip pk c rl' ip' : rl_commit (E:=E) rl now ip pk c = Ok rl' ->
  filter (fun ts => now - rl_window_ms rl <= ts) (stamps rl' ip') =
  filter (fun ts => now - rl_window_ms rl <= ts) (stamps rl ip' ++ (if decide (ip = ip') then [now] else [])) /\
  rl_per_ip_rate_limit_per_60s rl' = rl_per_ip_rate_limit_per_60s rl /\ rl_window_ms rl' = rl_window_ms rl.
Proof.
  unfold rl_commit. intros H0. run_inv H0. injection H0 as <-. apply i64_Ok in E0 as [-> _]. split; [|done].
  set (cutoff := now - rl_window_ms rl). unfold stamps. cbn. rewrite filter_app.
  match goal with |- context [<[ip:=_]> ?ips] => set (m := ips) end.
  assert (Hm : forall i, filter (fun ts => cutoff <= ts) (default [] (m !! i)) =
                    filter (fun ts => cutoff <= ts) (default [] (rl_ip rl !! i))).
  { intros i. unfold m. case_match; [apply pruned_lookup|done]. }
  case_decide as Ei.
  - subst ip'. rewrite lookup_insert_eq. cbn. rewrite filter_app, prune_front_filter by lia. by rewrite Hm.
  - rewrite lookup_insert_ne by done. rewrite Hm. by rewrite filter_nil, app_nil_r.
Qed.

Lemma window_commit {E} limit w T rl log now ip pk c rl' : 0 <= w -> T <= now ->
  peek (E:=E) rl now ip pk c = Ok Allowed -> rl_commit (E:=E) rl now ip pk c = Ok rl' ->
  window_inv limit w T rl log -> window_inv limit w now rl' (log ++ [(ip, now)]).
Proof.
  intros Hw HT (Hq & _ & _)%peek_Allowed Hc Hinv. apply (window_advance _ _ T now) in Hinv; [|done].
  destruct Hinv. fold (stamps rl ip) in Hq. rewrite wi_window0, wi_same0, wi_limit0 in Hq.
  pose proof (fun ip' => stamps_commit _ _ _ _ _ _ ip' Hc) as Hs. rewrite wi_window0 in Hs. split.
  - by rewrite (proj1 (proj2 (Hs ip))).
  - by rewrite (proj2 (proj2 (Hs ip))).
  - intros ip'. rewrite (proj1 (Hs ip')), log_times_snoc, !filter_app. by f_equal.
  - intros ip'. rewrite log_times_snoc. apply Forall_app. split; [done|]. case_decide; [|done].
    by apply Forall_singleton.
  - intros ip' a. rewrite log_times_snoc. case_decide as Ei; [|by rewrite app_nil_r]. subst ip'.
    rewrite filter_app, filter_cons, filter_nil. destruct (decide (in_window a w now)) as [Ha|Ha].
    + unfold len in *. rewrite length_app. cbn [length].
      enough (length (filter (in_window a w) (log_times log ip))
              <= length (filter (fun ts => (now - w <= ts)%Z) (log_times log ip)))%nat by lia.
      unfold in_window in Ha. apply filter_length_le. intros x Hx [? ?]. lia.
    + rewrite app_nil_r. apply wi_quota0.
Qed.

Lemma filter_remove_first {A} `{EqDecision A} (P : A -> Prop) `{!forall x, Decision (P x)} x l :
  filter P (remove_first x l) = remove_first x (filter P l).
Proof.
  induction l as [|y l IH]; [done|]. cbn [remove_first]. rewrite filter_cons.
  destruct (decide (y = x)) as [->|Hne].
  - case_decide as Hp; [cbn; by rewrite decide_True|].
    assert (Hx : x ∉ filter P l) by (rewrite list_elem_of_filter; tauto).
    clear IH. induction (filter P l) as [|z k IHk]; [done|]. cbn.
    rewrite decide_False by set_solver. f_equal. apply IHk. set_solver.
  - rewrite filter_cons, IH. case_decide; [cbn; by rewrite decide_False|done].
Qed.

Lemma remove_first_sublist {A} `{EqDecision A} (x : A) l : remove_first x l `sublist_of` l.
Proof.
  induction l as [|y l IH]; [done|]. cbn. case_decide; [by apply sublist_cons|by apply sublist_skip].
Qed.

Lemma remove_first_elem {A} `{EqDecision A} (x y : A) l : y ∈ remove_first x l -> y ∈ l.
Proof. induction l as [|z l IH]; [done|]. cbn. case_decide; set_solver. Qed.

Lemma log_times_release log ip now ip' :
  log_times (remove_first (ip, now) log) ip' =
  if decide (ip = ip') then remove_first now (log_times log ip') else log_times log ip'.
Proof.
  unfold log_times. rewrite filter_remove_first. case_decide as Ei.
  - subst ip'. assert (H : forall e, e ∈ filter (fun e => e.1 = ip) log -> e.1 = ip)
      by (intros e [? _]%list_elem_of_filter; done). revert H.
    induction (filter _ log) as [|[i t] k IH]; intros H; [done|]. cbn.
    assert (i = ip) as -> by (apply (H (i, t)); by left).
    destruct (decide (t = now)) as [->|Hne]; [by rewrite !decide_True|].
    rewrite !decide_False by congruence. cbn. f_equal. apply IH. intros e He. apply H. by right.
  - assert (Hn : (ip, now) ∉ filter (fun e => e.1 = ip') log) by (rewrite list_elem_of_filter; naive_solver).
    revert Hn. induction (filter _ log) as [|e k IH]; intros Hn; [done|]. cbn.
    rewrite decide_False by set_solver. cbn. f_equal. apply IH. set_solver.
Qed.

Lemma stamps_release rl now ip pk c ip' :
  let r := release_committed rl now ip pk c in
  stamps r.1 ip' = (if r.2 then if decide (ip = ip') then remove_first now (stamps rl ip') else stamps rl ip'
                    else stamps rl ip') /\
  rl_per_ip_rate_limit_per_60s r.1 = rl_per_ip_rate_limit_per_60s rl /\ rl_window_ms r.1 = rl_window_ms rl.
Proof.
  unfold release_committed. destruct (bool_decide (now ∈ _)); [|done]. cbn [negb].
  match goal with |- context [if ?b then (rl, false) else _] => destruct b end; [done|].
  cbn [fst snd]. split; [|done]. unfold stamps. cbn. destruct (decide (ip = ip')) as [<-|Ei].
  - case_bool_decide as E.
    + by rewrite lookup_delete_eq, E.
    + by rewrite lookup_insert_eq.
  - case_bool_decide; [by rewrite lookup_delete_ne|by rewrite lookup_insert_ne].
Qed.

Lemma window_release limit w T rl log now ip pk c :
  let r := release_committed rl now ip pk c in
  window_inv limit w T rl log -> window_inv limit w T r.1 (if r.2 then remove_first (ip, now) log else log).
Proof.
  intros r []. pose proof (stamps_release rl now ip pk c) as Hs. fold r in Hs. split.
  - by rewrite (proj1 (proj2 (Hs ip))).
  - by rewrite (proj2 (proj2 (Hs ip))).
  - intros ip'. rewrite (proj1 (Hs ip')). destruct r.2; [|done]. rewrite log_times_release.
    case_decide; [|done]. by rewrite !filter_remove_first, wi_same0.
  - intros ip'. destruct r.2; [|done]. rewrite log_times_release. case_decide; [|done].
    specialize (wi_past0 ip'). rewrite Forall_forall in wi_past0 |- *.
    intros x Hx. apply wi_past0. by eapply remove_first_elem.
  - intros ip' a. destruct r.2; [|done]. rewrite log_times_release. case_decide; [|done].
    rewrite filter_remove_first. etrans; [|apply (wi_quota0 ip' a)]. unfold len.
    pose proof (sublist_length _ _ (remove_first_sublist now (filter (in_window a w) (log_times log ip')))). lia.
Qed.

(** The clock readings of the checks, and a history without [reset]. *)
Fixpoint check_times (ops : list LimiterOp) : list Z :=
  match ops with
  | [] => []
  | LCheck now _ _ _ :: ops' => now :: check_times ops'
  | _ :: ops' => check_times ops'
  end.

Definition keeps_log (op : LimiterOp) : bool := match op with LReset => false | _ => true end.

Lemma window_step {E} limit w T st op st' : 0 <= w -> limiter_ok st.1 -> keeps_log op = true ->
  Forall (fun t => T <= t) (check_times [op]) -> limiter_step (E:=E) st op = Ok st' ->
  window_inv limit w T st.1 st.2 ->
  window_inv limit w (default T (last (check_times [op]))) st'.1 st'.2.
Proof.
  intros Hw Hok Hk HT H0 Hinv. destruct st as [rl log]. cbn in Hok, Hinv. destruct op; cbn in *; try done.
  - run_inv H0. injection H0 as <-. destruct a as [rl' b].
    apply observe_ticket_ok in E0 as [_ (Fm & Fl & Fw & Fi)]; [|done]. by eapply window_same_ip.
  - rewrite Forall_singleton in HT. run_inv H0. injection H0 as <-. unfold rl_check in E0. run_inv E0.
    + injection E0 as <-. cbn. by apply (window_commit (E:=E) limit w T rl log now ip pk c).
    + injection E0 as <-. cbn. by eapply window_advance.
  - injection H0 as <-. by apply window_release.
  - injection H0 as <-. unfold limiter_set_current_c. cbn. case_bool_decide; [done|].
    by apply (window_same_ip limit w T rl).
Qed.

Lemma window_run {E} limit w ops : forall T st st', 0 <= w -> limiter_ok st.1 -> forallb keeps_log ops = true ->
  Forall (fun t => T <= t) (check_times ops) -> StronglySorted Z.le (check_times ops) ->
  ofold (limiter_step (E:=E)) st ops = Ok st' -> window_inv limit w T st.1 st.2 ->
  exists T', window_inv limit w T' st'.1 st'.2.
Proof.
  induction ops as [|op ops IH]; intros T st st' Hw Hok Hk HT Hs H0 Hinv; cbn [ofold] in H0.
  - injection H0 as <-. by exists T.
  - run_inv H0. cbn [forallb] in Hk. breflect.
    assert (Hsplit : check_times (op :: ops) = check_times [op] ++ check_times ops) by (by destruct op).
    rewrite Hsplit in HT, Hs. apply Forall_app in HT as [HT1 HT2].
    eapply (IH (default T (last (check_times [op])))); [done| |done| | |done|].
    + by eapply limiter_step_ok.
    + destruct op; try done. cbn in *. by apply StronglySorted_inv in Hs as [_ Hs].
    + destruct op; try done. by apply StronglySorted_inv in Hs as [Hs _].
    + by eapply window_step.
Qed.

(** C25: while the clock does not run backwards, no interval of the window's
    length ever holds more than the quota of admissions of one source address,
    whatever the order of tickets, checks, releases and head changes. An
    admission counts until it is released. *)
Theorem sliding_window_quota {E} policy window_ms ops rl log ip start :
  0 < cp_m policy -> 0 <= window_ms ->
  forallb keeps_log ops = true -> StronglySorted Z.le (check_times ops) ->
  limiter_run (E:=E) policy window_ms ops = Ok (rl, log) ->
  (len (filter (in_window start window_ms) (log_times log ip)) <= cp_per_ip_rate_limit_per_60s policy)%N.
Proof.
  intros Hm Hw Hk Hs H0. unfold limiter_run in H0.
  eapply (window_run (cp_per_ip_rate_limit_per_60s policy) window_ms ops (default 0 (head (check_times ops))))
    in H0 as [T' []]; [apply wi_quota0|done|by apply limiter_new_ok|done| |done|].
  - destruct (check_times ops) as [|t ts]; [done|]. cbn. apply StronglySorted_inv in Hs as [_ Hs].
    by apply Forall_cons.
  - split; [done|done| | |]; intros ip'; cbn; [done|done|intros a; cbn; unfold len; cbn; lia].
Qed.

Lemma limiter_step_m {E} st op st' : limiter_ok st.1 -> limiter_step (E:=E) st op = Ok st' ->
  rl_m st'.1 = rl_m st.1 /\ rl_window_ms st'.1 = rl_window_ms st.1.
Proof.
  intros Hok. destruct st as [rl log]. cbn in Hok. destruct op; cbn; intros H0.
  - run_inv H0. injection H0 as <-. destruct a as [rl' b]. by apply observe_ticket_ok in E0 as [_ (? & _ & ? & _)].
  - run_inv H0. injection H0 as <-. unfold rl_check in E0. run_inv E0; injection E0 as <-; [|done].
    unfold rl_commit in E3. run_inv E3. by injection E3 as <-.
  - injection H0 as <-. unfold release_committed. by repeat case_match.
  - injection H0 as <-. unfold limiter_set_current_c. by case_match.
  - by injection H0 as <-.
Qed.

Lemma limiter_run_ok {E} policy window_ms ops st : 0 < cp_m policy ->
  limiter_run (E:=E) policy window_ms ops = Ok st -> limiter_ok st.1 /\ rl_m st.1 = cp_m policy.
Proof.
  intros Hm. apply (ofold_inv (fun st => limiter_ok st.1 /\ rl_m st.1 = cp_m policy)).
  - intros s op s' _ [Hok Heq] Hs. split; [by eapply limiter_step_ok|].
    by rewrite (proj1 (limiter_step_m _ _ _ Hok Hs)).
  - split; [by apply limiter_new_ok|done].
Qed.

(** The limiter's memory is bounded and its quotas are kept. After any
    history that runs through, at most 4096 identities and 4096 addresses are
    tracked, the dedup set is within its bound, every counter belongs to a
    tracked identity, and no identity is charged more than its tickets allow. *)
Theorem limiter_bounded {E} policy window_ms ops rl log :
  0 < cp_m policy -> limiter_run (E:=E) policy window_ms ops = Ok (rl, log) ->
  (N.of_nat (size (rl_tracked rl)) <= MAX_CURRENT_HEAD_RATE_IDENTITIES)%N /\
  (N.of_nat (size (rl_ip rl)) <= MAX_ACTIVE_RATE_SOURCE_IPS)%N /\
  (N.of_nat (size (rl_seen_tickets rl)) <= SEEN_TICKETS_CAP)%N /\
  dom (rl_pk_count rl) ⊆ rl_tracked rl /\ dom (rl_pk_tickets rl) ⊆ rl_tracked rl /\
  dom (rl_exact_tickets rl) ⊆ rl_tracked rl /\
  forall k, 0 <= default 0 (rl_pk_count rl !! k) <= default 0 (rl_pk_tickets rl !! k) * cp_m policy.
Proof.
  intros Hm H0. apply limiter_run_ok in H0 as [[] Heq]; [|done]. cbn in *. rewrite Heq in *.
  assert (Hd : forall k v, rl_pk_count rl !! k = Some v -> k ∈ rl_tracked rl).
  { intros k v Hv%lo_count0. destruct (rl_pk_tickets rl !! k) as [t|] eqn:Et; cbn in Hv; [|lia].
    by destruct (lo_tickets0 _ _ Et). }
  split_and!; try done.
  - intros k [v Hv]%elem_of_dom. by eapply Hd.
  - intros k [v Hv]%elem_of_dom. by destruct (lo_tickets0 _ _ Hv).
  - intros k [v Hv]%elem_of_dom. by destruct (lo_exact0 _ _ Hv).
  - intros k. destruct (rl_pk_count rl !! k) as [v|] eqn:Ev; cbn; [apply lo_count0 in Ev; lia|].
    destruct (rl_pk_tickets rl !! k) as [t|] eqn:Et; cbn; [apply lo_tickets0 in Et; nia|lia].
Qed.

(** ** Freedom from overflow *)

Definition counters_le (n : Z) (rl : RateLimiter) : Prop :=
  forall k, default 0 (rl_pk_tickets rl !! k) <= n /\ default 0 (rl_exact_tickets rl !! k) <= n /\
            default 0 (rl_pk_count rl !! k) <= n.

Definition table_le (n : Z) (m : gmap string Z) : Prop := forall k, default 0 (m !! k) <= n.

Lemma counters_tables n rl : counters_le n rl <->
  table_le n (rl_pk_tickets rl) /\ table_le n (rl_exact_tickets rl) /\ table_le n (rl_pk_count rl).
Proof. unfold counters_le, table_le. firstorder. Qed.

Lemma table_le_mono n n' m : n <= n' -> table_le n m -> table_le n' m.
Proof. intros Hn H k. specialize (H k). lia. Qed.

Lemma table_le_delete n m k : 0 <= n -> table_le n m -> table_le n (delete k m).
Proof.
  intros Hn H x. destruct (decide (k = x)) as [<-|]; [by rewrite lookup_delete_eq|by rewrite lookup_delete_ne].
Qed.

Lemma table_le_empty n : 0 <= n -> table_le n ∅.
Proof. intros Hn k. by rewrite lookup_empty. Qed.

Lemma table_le_insert n m k v : v <= n -> table_le n m -> table_le n (<[k:=v]> m).
Proof.
  intros Hn H x. destruct (decide (k = x)) as [<-|]; [by rewrite lookup_insert_eq|by rewrite lookup_insert_ne].
Qed.

Lemma bump_total {E} n m k : 0 <= default 0 (m !! k) -> table_le n m -> n + 1 <= i64_max ->
  exists m', bump (E:=E) m k = Ok m' /\ table_le (n + 1) m'.
Proof.
  intros H0 H Hn. pose proof (H k). eexists. split.
  - unfold bump. rewrite (proj2 (i64_Ok _ (default 0 (m !! k) + 1))); [done|].
    split; [done|]. unfold i64_min, i64_max in *. lia.
  - apply table_le_insert; [lia|]. by apply (table_le_mono n); [lia|].
Qed.

Lemma positive_default (S : gset string) (m : gmap string Z) k :
  (forall x v, m !! x = Some v -> x ∈ S /\ 1 <= v) -> 0 <= default 0 (m !! k).
Proof. intros H. destruct (m !! k) as [v|] eqn:E; cbn; [apply H in E|]; lia. Qed.

Lemma track_counters n rl k : 0 <= n -> counters_le n rl -> counters_le n (track_identity rl k).1.
Proof.
  rewrite !counters_tables. intros Hn (H1 & H2 & H3). unfold track_identity.
  repeat case_match; cbn; [done| |done|done]. split_and!; by apply table_le_delete.
Qed.

Lemma count_ticket_total {E} n rl k : limiter_ok rl -> n + 1 <= i64_max ->
  table_le n (rl_pk_tickets rl) -> table_le (n + 1) (rl_exact_tickets rl) -> table_le (n + 1) (rl_pk_count rl) ->
  exists rl', count_ticket (E:=E) rl k = Ok rl' /\ counters_le (n + 1) rl'.
Proof.
  intros Hok Hn H1 H2 H3.
  destruct (bump_total (E:=E) n (rl_pk_tickets rl) k) as (m & Hm & Hle); [by eapply positive_default, lo_tickets|done|done|].
  eexists. split; [unfold count_ticket; by rewrite Hm|]. by apply counters_tables.
Qed.

Lemma count_exact_total {E} n rl k : (forall x v, rl_exact_tickets rl !! x = Some v -> x ∈ rl_tracked rl /\ 1 <= v) ->
  n + 1 <= i64_max -> table_le n (rl_exact_tickets rl) ->
  exists m, table_le (n + 1) m /\
    count_exact (E:=E) rl k = Ok (with_counts rl (rl_pk_count rl) (rl_pk_tickets rl) m).
Proof.
  intros Hex Hn H. destruct (bump_total (E:=E) n (rl_exact_tickets rl) k) as (m & Hm & Hle);
    [by eapply positive_default|done|done|].
  exists m. split; [done|]. unfold count_exact. by rewrite Hm.
Qed.

Lemma observe_ticket_total {E} n rl pk c t : 0 <= n -> n + 1 <= i64_max -> limiter_ok rl -> counters_le n rl ->
  exists r, observe_ticket (E:=E) rl pk c t = Ok r /\ counters_le (n + 1) r.1.
Proof.
  intros H0 Hn Hok Hle. assert (Hid : forall x, counters_le n x -> counters_le (n + 1) x)
    by (intros x Hx k; specialize (Hx k); lia).
  unfold observe_ticket, observe_seen. destruct (off_head rl c); [by eexists; split; [done|apply Hid]|].
  destruct (track_identity rl (key pk c)) as [rl1 b] eqn:Et.
  pose proof (track_counters n rl (key pk c) H0 Hle) as Hle1. rewrite Et in Hle1. cbn in Hle1.
  apply track_identity_ok in Et as (Hok1 & _ & Hk & _); [|done].
  pose proof Hle1 as (Ht & Hx & Hc)%counters_tables.
  assert (Hc' : table_le (n + 1) (rl_pk_count rl1)) by (apply (table_le_mono n); [lia|done]).
  assert (Hx' : table_le (n + 1) (rl_exact_tickets rl1)) by (apply (table_le_mono n); [lia|done]).
  assert (Hplain : b = true -> exists r, count_ticket (E:=E) rl1 (key pk c) = Ok r /\ counters_le (n + 1) r)
    by (intros _; by apply count_ticket_total).
  destruct t as [t|].
  - case_bool_decide.
    + case_bool_decide; [by eexists; split; [done|apply Hid]|]. destruct b; [|by eexists; split; [done|apply Hid]].
      destruct (count_exact_total (E:=E) n rl1 (key pk c)) as (m & Hm & Hce); [apply Hok1|done|done|].
      pose proof (count_exact_ok _ _ _ Hok1 (Hk eq_refl) Hce) as (Hok2 & _). rewrite Hce. cbn [obind].
      destruct (count_ticket_total (E:=E) n _ (key pk c) Hok2) as (r & -> & Hr); [done|done|done|done|]. by eexists.
    + destruct b; cbn [negb]; [|by eexists; split; [done|apply Hid]].
      destruct (count_exact_total (E:=E) n (with_seen rl1 ({[ticket_key pk c t]} ∪ rl_seen_tickets rl1)) (key pk c))
        as (m & Hm & Hce); [apply Hok1|done|done|].
      pose proof (observe_new_ok _ _ _ _ Hok1 (Hk eq_refl) Hce) as (Hok2 & _). rewrite Hce. cbn [obind].
      destruct (count_ticket_total (E:=E) n _ (key pk c) Hok2) as (r & -> & Hr); [done| | | |by eexists].
      all: unfold cap_seen; cbn; by case_match; cbn; try (apply table_le_empty; lia).
  - destruct b; cbn [negb]; [|by eexists; split; [done|apply Hid]].
    destruct (Hplain eq_refl) as (r & -> & Hr). by eexists.
Qed.

(** The clock reading of a check is such that the window's start is an [i64]. *)
Definition op_in_range (window_ms : Z) (op : LimiterOp) : Prop :=
  match op with LCheck now _ _ _ => i64_min <= now - window_ms <= i64_max | _ => True end.

Lemma rl_check_total {E} n rl now ip pk c : 0 <= n -> (n + 1) * rl_m rl <= i64_max -> limiter_ok rl ->
  counters_le n rl -> i64_min <= now - rl_window_ms rl <= i64_max ->
  exists r, rl_check (E:=E) rl now ip pk c = Ok r /\ counters_le (n + 1) r.1.
Proof.
  intros H0 Hn Hok Hle Hr. pose proof (lo_m _ Hok) as Hm.
  assert (Hup : counters_le (n + 1) rl) by (intros k; specialize (Hle k); lia).
  pose proof Hup as (Hu1 & Hu2 & Hu3)%counters_tables. apply counters_tables in Hle as (H1 & H2 & H3).
  assert (Hcut : i64 (E:=E) (now - rl_window_ms rl) = Ok (now - rl_window_ms rl)) by (by apply i64_Ok).
  assert (Hceil : i64 (E:=E) (default 0 (rl_pk_tickets rl !! key pk c) * rl_m rl) =
                  Ok (default 0 (rl_pk_tickets rl !! key pk c) * rl_m rl)).
  { apply i64_Ok. split; [done|]. specialize (H1 (key pk c)).
    pose proof (positive_default _ _ (key pk c) (lo_tickets _ Hok)). unfold i64_min, i64_max in *. nia. }
  assert (Hpos : 0 <= default 0 (rl_pk_count rl !! key pk c)).
  { destruct (rl_pk_count rl !! key pk c) as [v|] eqn:Ev; cbn; [apply (lo_count _ Hok) in Ev|]; lia. }
  unfold rl_check, peek, rl_commit. rewrite Hcut, Hceil. cbn [obind].
  case_match; cbn [obind]; [by eexists|]. case_match; cbn [obind]; [by eexists|].
  case_match; cbn [obind]; [by eexists|].
  destruct (bump_total (E:=E) n (rl_pk_count rl) (key pk c)) as (m & -> & Hle); [done|done|nia|].
  eexists. split; [done|]. by apply counters_tables.
Qed.

Lemma release_counters n rl now ip pk c : 0 <= n -> counters_le n rl ->
  counters_le n (release_committed rl now ip pk c).1.
Proof.
  rewrite !counters_tables. intros Hn (H1 & H2 & H3). unfold release_committed.
  destruct (negb _); [done|]. match goal with |- context [if ?b then (rl, false) else _] => destruct b end; [done|].
  cbn. split_and!; [done|done|]. specialize (H3 (key pk c)) as Hk. repeat case_match; [|
    apply table_le_insert; [lia|done]|done]. by apply table_le_delete.
Qed.

Lemma limiter_step_total {E} n w st op : 0 <= n -> (n + 1) * rl_m st.1 <= i64_max -> limiter_ok st.1 ->
  counters_le n st.1 -> rl_window_ms st.1 = w -> op_in_range w op ->
  exists st', limiter_step (E:=E) st op = Ok st' /\ counters_le (n + 1) st'.1.
Proof.
  intros H0 Hn Hok Hle Hw Hop. destruct st as [rl log]. cbn in *. pose proof (lo_m _ Hok) as Hm.
  assert (Hup : counters_le (n + 1) rl) by (intros k; specialize (Hle k); lia).
  destruct op as [pk c t|now ip pk c|now ip pk c|c|]; cbn in *.
  - destruct (observe_ticket_total (E:=E) n rl pk c t) as (r & -> & Hr); [done|nia|done|done|]. by eexists.
  - subst w. destruct (rl_check_total (E:=E) n rl now ip pk c) as (r & -> & Hr); [done..|]. by eexists.
  - eexists. split; [done|]. by apply release_counters; [lia|].
  - eexists. split; [done|]. cbn. unfold limiter_set_current_c. case_bool_decide; [done|].
    apply counters_tables. split_and!; apply table_le_empty; lia.
  - eexists. split; [done|]. apply counters_tables. split_and!; apply table_le_empty; lia.
Qed.

Lemma limiter_run_total {E} m w ops : forall n st, 0 <= n -> Forall (op_in_range w) ops ->
  (n + Z.of_nat (length ops)) * m <= i64_max -> limiter_ok st.1 -> rl_m st.1 = m -> rl_window_ms st.1 = w ->
  counters_le n st.1 -> exists st', ofold (limiter_step (E:=E)) st ops = Ok st'.
Proof.
  induction ops as [|op ops IH]; intros n st Hn Hops Hb Hok Hme Hwe Hc; [by eexists|].
  apply Forall_cons in Hops as [Hop Hops]. cbn [length] in Hb. pose proof (lo_m _ Hok).
  destruct (limiter_step_total (E:=E) n w st op) as (st' & Hs & Hc'); [done|rewrite Hme; nia|done|done|done|done|].
  cbn [ofold]. rewrite Hs. cbn [obind]. destruct (limiter_step_m _ _ _ Hok Hs) as [Em Ew].
  apply (IH (n + 1)); [lia|done|lia|by eapply limiter_step_ok|congruence|congruence|done].
Qed.

(** The limiter never aborts on a plausible history. If the window's start
    is a 64-bit value at every check and the number of operations times the
    shares per ticket is within 64 bits, every operation of the history
    returns. *)
Theorem limiter_never_aborts {E} policy window_ms ops :
  0 < cp_m policy -> Forall (op_in_range window_ms) ops ->
  Z.of_nat (length ops) * cp_m policy <= i64_max ->
  exists st, limiter_run (E:=E) policy window_ms ops = Ok st.
Proof.
  intros Hm Hops Hlen. apply (limiter_run_total (cp_m policy) window_ms ops 0); try done.
  by apply limiter_new_ok.
Qed.

Module LimiterDemo.
Definition policy : CalibrationPolicy :=
  mkCalibrationPolicy (mkCalibrationThresholds 1 1 1 1) 8 2 16 1 1 3 2 1000000000.
Definition history : list LimiterOp :=
  [LSetCurrentC "c0"; LObserve "a1" "c0" (Some "01"); LCheck 5 "ip" "a1" "c0"; LCheck 7 "ip" "a1" "c0";
   LCheck 9 "ip" "a1" "c0"; LRelease 5 "ip" "a1" "c0"].
End LimiterDemo.

Lemma sliding_window_quota_witness :
  (len (filter (in_window 0 60) (log_times [("ip", 7%Z)] "ip")) <= 2)%N.
Proof.
  destruct (is_ok_Ok (limiter_run (E:=unit) LimiterDemo.policy 60 LimiterDemo.history) eq_refl) as [[rl log] H0].
  assert (Hlog : log = [("ip", 7)]) by (vm_compute in H0; congruence). rewrite <- Hlog.
  apply (sliding_window_quota (E:=unit) LimiterDemo.policy 60 LimiterDemo.history rl log "ip" 0);
    [reflexivity|discriminate|reflexivity| |exact H0]. repeat constructor; cbn; lia.
Defined.

Lemma limiter_bounded_witness :
  exists (rl : RateLimiter) (log : admissions),
    limiter_run (E:=unit) LimiterDemo.policy 60 LimiterDemo.history = Ok (rl, log) /\
    0 <= default 0 (rl_pk_count rl !! key "a1" "c0") <= default 0 (rl_pk_tickets rl !! key "a1" "c0") * 3.
Proof.
  destruct (is_ok_Ok (limiter_run (E:=unit) LimiterDemo.policy 60 LimiterDemo.history) eq_refl) as [[rl log] H0].
  exists rl, log. split; [exact H0|].
  pose proof (limiter_bounded (E:=unit) LimiterDemo.policy 60 LimiterDemo.history rl log eq_refl H0)
    as (_ & _ & _ & _ & _ & _ & Hk).
  exact (Hk (key "a1" "c0")).
Defined.

Lemma limiter_never_aborts_witness :
  exists st, limiter_run (E:=unit) LimiterDemo.policy 60 LimiterDemo.history = Ok st.
Proof.
  apply (limiter_never_aborts LimiterDemo.policy 60 LimiterDemo.history);
    [reflexivity| |vm_compute; discriminate].
  repeat constructor; cbn; unfold i64_min, i64_max; lia.
Defined.
