(* ===== verification/Validator.v ===== *)
(** * The proof-package walker (validator.rs, lean_bound_canon.rs)

    A proof package is a binary encoding of a theorem with its supporting
    declarations. The walker reads it once, without building it. The grammar it
    means is given as inductive types with their encoder; the theorems show
    that the walker accepts exactly the encodings of packages whose nesting is
    within the depth limit, that the package the miner builds is one of them,
    and that the JSON form of a rejection reads back as the same rejection. *)

From S2P Require Import Prelude Json Externals Hash Config.

Definition MAGIC : list byte := [x50; x4f; x46; x50].
Definition FORMAT_VERSION_V1 : N := 1.
Definition FORMAT_VERSION_V2 : N := 2.
Definition MAX_WALK_DEPTH : N := 4096.

Inductive WhereTag := CanonLevelTag | CanonLitTag | CanonExprTag.

Inductive DecodeDetail :=
| BadMagic
| UnexpectedEof
| UnsupportedVersion (version : N)
| TrailingBytes (at_ size : N)
| RecursionLimit (where_tag : WhereTag) (limit : N)
| UnknownTag (where_tag : WhereTag) (tag : N).

Inductive ValidationReason :=
| TooLarge (size : N) (limit : Z)
| TooManyDecls (decl_count : N) (limit : Z)
| Decode (detail : DecodeDetail).

Record WalkResult := mkWalkResult { wr_decl_count : N; wr_size : N; wr_universe_arity : N }.

(** [ValidationResult]: [Ok] carries the walk, [Err] the reason. *)
Definition ValidationResult : Type := outcome ValidationReason WalkResult.

(** ** The cursor

    A cursor is the bytes it has not read; [pos + n > len] is a shortage of
    them. ([pos + n] cannot overflow: [n] is a [u32] or a small constant.) *)
Definition Cursor : Type := list byte.

Definition read_byte (cursor : Cursor) : outcome DecodeDetail (byte * Cursor) :=
  match cursor with b :: rest => Ok (b, rest) | [] => Err UnexpectedEof end.

Definition le32 (b0 b1 b2 b3 : byte) : N :=
  Byte.to_N b0 + 256 * Byte.to_N b1 + 65536 * Byte.to_N b2 + 16777216 * Byte.to_N b3.

Definition read_u32_le (cursor : Cursor) : outcome DecodeDetail (N * Cursor) :=
  match cursor with
  | b0 :: b1 :: b2 :: b3 :: rest => Ok (le32 b0 b1 b2 b3, rest)
  | _ => Err UnexpectedEof
  end.

Definition skip (n : N) (cursor : Cursor) : outcome DecodeDetail Cursor :=
  if n <=? len cursor then Ok (drop (N.to_nat n) cursor) else Err UnexpectedEof.

(** [for _ in 0..n { f(cursor)? }]. *)
Fixpoint walk_times (n : nat) (f : Cursor -> outcome DecodeDetail Cursor) (cursor : Cursor)
    : outcome DecodeDetail Cursor :=
  match n with
  | O => Ok cursor
  | S n' => let* cursor := f cursor in walk_times n' f cursor
  end.

(** The argument [budget] is [MAX_WALK_DEPTH + 1 - depth]: it runs out exactly
    when [depth > MAX_WALK_DEPTH]. *)
Fixpoint walk_level (budget : nat) (cursor : Cursor) : outcome DecodeDetail Cursor :=
  match budget with
  | O => Err (RecursionLimit CanonLevelTag MAX_WALK_DEPTH)
  | S deeper =>
      let* r := read_byte cursor in
      let '(tag, cursor) := r in
      match Byte.to_N tag with
      | 0 => Ok cursor
      | 1 => walk_level deeper cursor
      | 2 | 3 => let* cursor := walk_level deeper cursor in walk_level deeper cursor
      | 4 => let* r := read_u32_le cursor in Ok r.2
      | tag => Err (UnknownTag CanonLevelTag tag)
      end
  end.

Definition walk_lit (cursor : Cursor) : outcome DecodeDetail Cursor :=
  let* r := read_byte cursor in
  let '(tag, cursor) := r in
  match Byte.to_N tag with
  | 0 => let* r := read_u32_le cursor in Ok r.2
  | 1 => let* r := read_u32_le cursor in skip r.1 r.2
  | tag => Err (UnknownTag CanonLitTag tag)
  end.

Definition walk_part (cursor : Cursor) : outcome DecodeDetail Cursor :=
  let* r := read_u32_le cursor in skip r.1 r.2.

Definition walk_name (cursor : Cursor) : outcome DecodeDetail Cursor :=
  let* r := read_u32_le cursor in walk_times (N.to_nat r.1) walk_part r.2.

Definition walk_opaque_digest_expr (cursor : Cursor) : outcome DecodeDetail Cursor :=
  let* r := read_byte cursor in
  let '(tag, cursor) := r in
  if Byte.to_N tag =? 25 then skip 32 cursor else Err (UnknownTag CanonExprTag (Byte.to_N tag)).

Definition DEPTH_BUDGET : nat := S (N.to_nat MAX_WALK_DEPTH).

Fixpoint walk_expr (budget : nat) (allow_opaque_digest : bool) (cursor : Cursor)
    : outcome DecodeDetail Cursor :=
  match budget with
  | O => Err (RecursionLimit CanonExprTag MAX_WALK_DEPTH)
  | S deeper =>
      let* r := read_byte cursor in
      let '(tag, cursor) := r in
      match Byte.to_N tag with
      | 16 => let* r := read_u32_le cursor in Ok r.2
      | 25 => if allow_opaque_digest then skip 32 cursor else Err (UnknownTag CanonExprTag 25)
      | 17 => walk_level DEPTH_BUDGET cursor
      | 18 =>
          let* cursor := walk_name cursor in
          let* r := read_u32_le cursor in
          walk_times (N.to_nat r.1) (walk_level DEPTH_BUDGET) r.2
      | 19 | 20 | 21 =>
          let* cursor := walk_expr deeper allow_opaque_digest cursor in
          walk_expr deeper allow_opaque_digest cursor
      | 22 =>
          let* cursor := walk_expr deeper allow_opaque_digest cursor in
          let* cursor := walk_expr deeper allow_opaque_digest cursor in
          walk_expr deeper allow_opaque_digest cursor
      | 23 => walk_lit cursor
      | 24 =>
          let* cursor := walk_name cursor in
          let* r := read_u32_le cursor in
          walk_expr deeper allow_opaque_digest r.2
      | tag => Err (UnknownTag CanonExprTag tag)
      end
  end.

Definition walk_decl (version : N) (cursor : Cursor) : outcome DecodeDetail Cursor :=
  let allow_opaque_digest := version =? FORMAT_VERSION_V2 in
  let* cursor := walk_name cursor in
  let* cursor := walk_expr DEPTH_BUDGET allow_opaque_digest cursor in
  walk_expr DEPTH_BUDGET allow_opaque_digest cursor.

Definition walk_package (bytes : list byte) : outcome DecodeDetail WalkResult :=
  if len bytes <? 12 then Err UnexpectedEof
  else if negb (bool_decide (take 4 bytes = MAGIC)) then Err BadMagic
  else
    let* cursor := skip 4 bytes in
    let* r := read_u32_le cursor in
    let '(version, cursor) := r in
    do* ensure ((version =? FORMAT_VERSION_V1) || (version =? FORMAT_VERSION_V2)) (UnsupportedVersion version);
    let* r := read_u32_le cursor in
    let '(universe_arity, cursor) := r in
    let* cursor := walk_name cursor in
    let* cursor :=
      if version =? FORMAT_VERSION_V1
      then let* cursor := walk_expr DEPTH_BUDGET false cursor in walk_expr DEPTH_BUDGET false cursor
      else let* cursor := walk_opaque_digest_expr cursor in walk_opaque_digest_expr cursor in
    let* r := read_u32_le cursor in
    let '(decl_count, cursor) := r in
    let* cursor := walk_times (N.to_nat decl_count) (walk_decl version) cursor in
    let pos := len bytes - len cursor in
    do* ensure (pos =? len bytes) (TrailingBytes pos (len bytes));
    Ok (mkWalkResult decl_count pos universe_arity).

(** ** The limits *)

Definition validate_proof_package_shape (bytes : list byte) : ValidationResult :=
  map_err Decode (walk_package bytes).

(** [max_decls as u32] keeps the low 32 bits; the limits are reported as
    [i64]s, which the [usize] limits fit. *)
Definition validate_proof_package_with_limits (bytes : list byte) (max_proof_bytes max_decls : N)
    : ValidationResult :=
  do* ensure (len bytes <=? max_proof_bytes) (TooLarge (len bytes) (Z.of_N max_proof_bytes));
  let* walked := map_err Decode (walk_package bytes) in
  do* ensure (wr_size walked <=? max_proof_bytes) (TooLarge (wr_size walked) (Z.of_N max_proof_bytes));
  do* ensure (wr_decl_count walked <=? max_decls mod 2 ^ 32)
        (TooManyDecls (wr_decl_count walked) (Z.of_N max_decls));
  Ok walked.

Definition validate_proof_package_with_policy (bytes : list byte) (policy : CalibrationPolicy)
    : ValidationResult :=
  validate_proof_package_with_limits bytes (cp_l policy) (cp_d_max policy).

(** ** lean_bound_canon.rs: the package of a Lean-bound share *)

Definition u32_le_bytes (n : N) : list byte :=
  [byte_of n; byte_of (n / 256); byte_of (n / 65536); byte_of (n / 16777216)].

Definition EXPR_TAG_OPAQUE_DIGEST : byte := x19.

Section LeanBound.
Context {X : Externals}.

Definition stable_digest (domain : string) (verifier_hash checker_artifact_hash lean_source : string) : list byte :=
  sha256 (as_bytes domain ++ as_bytes verifier_hash ++ as_bytes checker_artifact_hash
          ++ [x00] ++ as_bytes "lean-source" ++ [x00] ++ as_bytes lean_source).

Definition lean_bound_verifier_hash (profile : string) : string := "boole-miner-verifier:" +:+ profile.

Definition lean_bound_canon_package (verifier_hash checker_artifact_hash lean_source : string) : list byte :=
  MAGIC ++ u32_le_bytes FORMAT_VERSION_V2 ++ u32_le_bytes 0 ++ u32_le_bytes 0
  ++ [EXPR_TAG_OPAQUE_DIGEST] ++ stable_digest "pofp-v2:type" verifier_hash checker_artifact_hash lean_source
  ++ [EXPR_TAG_OPAQUE_DIGEST] ++ stable_digest "pofp-v2:value" verifier_hash checker_artifact_hash lean_source
  ++ u32_le_bytes 0.

End LeanBound.

(** ** The JSON form of a rejection *)

Definition jnum (n : N) : Value := VNumber (PosInt n).
Definition jint (z : Z) : Value := VNumber (if (z <? 0)%Z then NegInt z else PosInt (Z.to_N z)).

Definition where_tag_str (t : WhereTag) : string :=
  match t with CanonLevelTag => "CanonLevel" | CanonLitTag => "CanonLit" | CanonExprTag => "CanonExpr" end.

Definition decode_detail_json (detail : DecodeDetail) : Value :=
  match detail with
  | BadMagic => VObject [("kind", VString "badMagic")]
  | UnexpectedEof => VObject [("kind", VString "unexpectedEOF")]
  | UnsupportedVersion version => VObject [("kind", VString "unsupportedVersion"); ("version", jnum version)]
  | TrailingBytes at_ size => VObject [("at", jnum at_); ("kind", VString "trailingBytes"); ("size", jnum size)]
  | RecursionLimit where_tag limit =>
      VObject [("kind", VString "recursionLimit"); ("limit", jnum limit);
               ("whereTag", VString (where_tag_str where_tag))]
  | UnknownTag where_tag tag =>
      VObject [("kind", VString "unknownTag"); ("tag", jnum tag); ("whereTag", VString (where_tag_str where_tag))]
  end.

Definition validation_reason_json (reason : ValidationReason) : Value :=
  match reason with
  | TooLarge size limit => VObject [("kind", VString "tooLarge"); ("limit", jint limit); ("size", jnum size)]
  | TooManyDecls decl_count limit =>
      VObject [("declCount", jnum decl_count); ("kind", VString "tooManyDecls"); ("limit", jint limit)]
  | Decode detail => VObject [("detail", decode_detail_json detail); ("kind", VString "decode")]
  end.

(** The errors of the reader are messages; only their presence is modelled. *)
Definition get_u64 (v : Value) (field : string) : outcome unit N :=
  ok_or (match value_get v field with Some x => as_u64 x | None => None end) tt.
Definition get_i64 (v : Value) (field : string) : outcome unit Z :=
  ok_or (match value_get v field with Some x => as_i64 x | None => None end) tt.
Definition required_json_string (v : Value) (field : string) : outcome unit string :=
  ok_or (match value_get v field with Some x => as_str x | None => None end) tt.

Definition intern_where_tag (value : string) : outcome unit WhereTag :=
  if String.eqb value "CanonLevel" then Ok CanonLevelTag
  else if String.eqb value "CanonLit" then Ok CanonLitTag
  else if String.eqb value "CanonExpr" then Ok CanonExprTag
  else Err tt.

(** [as u32] and [as u8] keep the low bits. *)
Definition decode_detail_from_json (detail : Value) : outcome unit DecodeDetail :=
  let* kind := required_json_string detail "kind" in
  if String.eqb kind "badMagic" then Ok BadMagic
  else if String.eqb kind "unexpectedEOF" then Ok UnexpectedEof
  else if String.eqb kind "unsupportedVersion" then
    let* version := get_u64 detail "version" in Ok (UnsupportedVersion (version mod 2 ^ 32))
  else if String.eqb kind "trailingBytes" then
    let* at_ := get_u64 detail "at" in
    let* size := get_u64 detail "size" in Ok (TrailingBytes at_ size)
  else if String.eqb kind "recursionLimit" then
    let* text := required_json_string detail "whereTag" in
    let* where_tag := intern_where_tag text in
    let* limit := get_u64 detail "limit" in Ok (RecursionLimit where_tag limit)
  else if String.eqb kind "unknownTag" then
    let* text := required_json_string detail "whereTag" in
    let* where_tag := intern_where_tag text in
    let* tag := get_u64 detail "tag" in Ok (UnknownTag where_tag (tag mod 2 ^ 8))
  else Err tt.

Definition validation_reason_from_json (reason : Value) : outcome unit ValidationReason :=
  let* kind := required_json_string reason "kind" in
  if String.eqb kind "tooLarge" then
    let* size := get_u64 reason "size" in
    let* limit := get_i64 reason "limit" in Ok (TooLarge size limit)
  else if String.eqb kind "tooManyDecls" then
    let* decl_count := get_u64 reason "declCount" in
    let* limit := get_i64 reason "limit" in Ok (TooManyDecls (decl_count mod 2 ^ 32) limit)
  else if String.eqb kind "decode" then
    let* detail := ok_or (value_get reason "detail") tt in
    let* detail := decode_detail_from_json detail in Ok (Decode detail)
  else Err tt.

(** ** The grammar *)

Inductive CanonLevel :=
| LevelZero
| LevelSucc (l : CanonLevel)
| LevelPair2 (a b : CanonLevel)
| LevelPair3 (a b : CanonLevel)
| LevelParam (index : N).

Inductive CanonLit := LitSmall (n : N) | LitBytes (bytes : list byte).

Definition CanonName : Type := list (list byte).

(** Three node kinds hold two expressions; the walker does not tell them apart. *)
Inductive PairTag := Tag13 | Tag14 | Tag15.

Inductive CanonExpr :=
| ExprIndex (n : N)
| ExprDigest (digest : list byte)
| ExprSort (l : CanonLevel)
| ExprConst (name : CanonName) (levels : list CanonLevel)
| ExprPair (tag : PairTag) (a b : CanonExpr)
| ExprTriple (a b c : CanonExpr)
| ExprLit (l : CanonLit)
| ExprNamed (name : CanonName) (index : N) (e : CanonExpr).

Record CanonDecl := mkCanonDecl { cd_name : CanonName; cd_type : CanonExpr; cd_value : CanonExpr }.

Inductive CanonBody :=
| BodyV1 (type value : CanonExpr)
| BodyV2 (type value : list byte).

Record CanonPackage := mkCanonPackage {
  cp_arity : N;
  cp_name : CanonName;
  cp_body : CanonBody;
  cp_decls : list CanonDecl
}.

Fixpoint enc_level (l : CanonLevel) : list byte :=
  match l with
  | LevelZero => [x00]
  | LevelSucc l => x01 :: enc_level l
  | LevelPair2 a b => x02 :: enc_level a ++ enc_level b
  | LevelPair3 a b => x03 :: enc_level a ++ enc_level b
  | LevelParam n => x04 :: u32_le_bytes n
  end.

Definition enc_part (p : list byte) : list byte := u32_le_bytes (len p) ++ p.
Definition enc_name (n : CanonName) : list byte := u32_le_bytes (len n) ++ concat (map enc_part n).

Definition enc_lit (l : CanonLit) : list byte :=
  match l with LitSmall n => x00 :: u32_le_bytes n | LitBytes b => x01 :: enc_part b end.

Definition pair_tag (t : PairTag) : byte := match t with Tag13 => x13 | Tag14 => x14 | Tag15 => x15 end.

Fixpoint enc_expr (e : CanonExpr) : list byte :=
  match e with
  | ExprIndex n => x10 :: u32_le_bytes n
  | ExprDigest d => x19 :: d
  | ExprSort l => x11 :: enc_level l
  | ExprConst name levels => x12 :: enc_name name ++ u32_le_bytes (len levels) ++ concat (map enc_level levels)
  | ExprPair t a b => pair_tag t :: enc_expr a ++ enc_expr b
  | ExprTriple a b c => x16 :: enc_expr a ++ enc_expr b ++ enc_expr c
  | ExprLit l => x17 :: enc_lit l
  | ExprNamed name n e => x18 :: enc_name name ++ u32_le_bytes n ++ enc_expr e
  end.

Definition enc_decl (d : CanonDecl) : list byte :=
  enc_name (cd_name d) ++ enc_expr (cd_type d) ++ enc_expr (cd_value d).

Definition body_version (b : CanonBody) : N :=
  match b with BodyV1 _ _ => FORMAT_VERSION_V1 | BodyV2 _ _ => FORMAT_VERSION_V2 end.

Definition enc_body (b : CanonBody) : list byte :=
  match b with
  | BodyV1 t v => enc_expr t ++ enc_expr v
  | BodyV2 t v => (x19 :: t) ++ (x19 :: v)
  end.

Definition enc_package (p : CanonPackage) : list byte :=
  MAGIC ++ u32_le_bytes (body_version (cp_body p)) ++ u32_le_bytes (cp_arity p) ++ enc_name (cp_name p)
  ++ enc_body (cp_body p) ++ u32_le_bytes (len (cp_decls p)) ++ concat (map enc_decl (cp_decls p)).

(** What an encoding can express: 32-bit counts, 32-byte digests, nesting
    within [budget], and digests only where the format allows them. *)
Definition u32_ok (n : N) : Prop := n < 2 ^ 32.

Fixpoint level_ok (budget : nat) (l : CanonLevel) : Prop :=
  match budget with
  | O => False
  | S deeper =>
      match l with
      | LevelZero => True
      | LevelSucc l => level_ok deeper l
      | LevelPair2 a b | LevelPair3 a b => level_ok deeper a /\ level_ok deeper b
      | LevelParam n => u32_ok n
      end
  end.

Definition part_ok (p : list byte) : Prop := u32_ok (len p).
Definition name_ok (n : CanonName) : Prop := u32_ok (len n) /\ Forall part_ok n.
Definition lit_ok (l : CanonLit) : Prop :=
  match l with LitSmall n => u32_ok n | LitBytes b => part_ok b end.

Fixpoint expr_ok (budget : nat) (opaque : bool) (e : CanonExpr) : Prop :=
  match budget with
  | O => False
  | S deeper =>
      match e with
      | ExprIndex n => u32_ok n
      | ExprDigest d => opaque = true /\ len d = 32
      | ExprSort l => level_ok DEPTH_BUDGET l
      | ExprConst name levels => name_ok name /\ u32_ok (len levels) /\ Forall (level_ok DEPTH_BUDGET) levels
      | ExprPair _ a b => expr_ok deeper opaque a /\ expr_ok deeper opaque b
      | ExprTriple a b c => expr_ok deeper opaque a /\ expr_ok deeper opaque b /\ expr_ok deeper opaque c
      | ExprLit l => lit_ok l
      | ExprNamed name n e => name_ok name /\ u32_ok n /\ expr_ok deeper opaque e
      end
  end.

Definition decl_ok (version : N) (d : CanonDecl) : Prop :=
  name_ok (cd_name d) /\ expr_ok DEPTH_BUDGET (version =? FORMAT_VERSION_V2) (cd_type d) /\
  expr_ok DEPTH_BUDGET (version =? FORMAT_VERSION_V2) (cd_value d).

Definition body_ok (b : CanonBody) : Prop :=
  match b with
  | BodyV1 t v => expr_ok DEPTH_BUDGET false t /\ expr_ok DEPTH_BUDGET false v
  | BodyV2 t v => len t = 32 /\ len v = 32
  end.

Definition package_ok (p : CanonPackage) : Prop :=
  u32_ok (cp_arity p) /\ name_ok (cp_name p) /\ body_ok (cp_body p) /\ u32_ok (len (cp_decls p)) /\
  Forall (decl_ok (body_version (cp_body p))) (cp_decls p).

(** ** Lemmas *)

#[local] Opaque DEPTH_BUDGET.

Lemma byte_of_to_N b : byte_of (Byte.to_N b) = b.
Proof.
  unfold byte_of. pose proof (Byte.to_N_bounded b). rewrite N.mod_small by lia. by rewrite Byte.of_to_N.
Qed.

Lemma to_N_byte_of n : Byte.to_N (byte_of n) = n mod 256.
Proof.
  unfold byte_of. destruct (Byte.of_N (n mod 256)) as [b|] eqn:E; [by apply Byte.to_of_N|].
  apply Byte.of_N_None_iff in E. pose proof (N.mod_lt n 256). lia.
Qed.

Lemma byte_of_add b n : byte_of (Byte.to_N b + 256 * n) = b.
Proof.
  apply byte_to_N_inj. rewrite to_N_byte_of. pose proof (byte_bound b).
  rewrite N.mul_comm, N.Div0.mod_add by done. by apply N.mod_small.
Qed.

Lemma u32_le_bytes_le32 b0 b1 b2 b3 : u32_le_bytes (le32 b0 b1 b2 b3) = [b0; b1; b2; b3].
Proof.
  unfold le32, u32_le_bytes. pose proof (byte_bound b0). pose proof (byte_bound b1).
  pose proof (byte_bound b2). pose proof (byte_bound b3).
  set (n0 := Byte.to_N b0) in *. set (n1 := Byte.to_N b1) in *. set (n2 := Byte.to_N b2) in *.
  set (n3 := Byte.to_N b3) in *.
  repeat f_equal.
  - replace (n0 + _ + _ + _) with (n0 + 256 * (n1 + 256 * n2 + 65536 * n3)) by lia. apply byte_of_add.
  - replace ((n0 + _ + _ + _) / 256) with (n1 + 256 * (n2 + 256 * n3)) by (apply (N.div_unique _ _ _ n0); lia).
    apply byte_of_add.
  - replace ((n0 + _ + _ + _) / 65536) with (n2 + 256 * n3)
      by (apply (N.div_unique _ _ _ (n0 + 256 * n1)); lia). apply byte_of_add.
  - replace ((n0 + _ + _ + _) / 16777216) with n3
      by (apply (N.div_unique _ _ _ (n0 + 256 * n1 + 65536 * n2)); lia). apply byte_of_to_N.
Qed.

Lemma le32_bound b0 b1 b2 b3 : u32_ok (le32 b0 b1 b2 b3).
Proof.
  unfold u32_ok, le32. pose proof (byte_bound b0). pose proof (byte_bound b1).
  pose proof (byte_bound b2). pose proof (byte_bound b3). lia.
Qed.

Lemma le32_bytes n : u32_ok n ->
  le32 (byte_of n) (byte_of (n / 256)) (byte_of (n / 65536)) (byte_of (n / 16777216)) = n.
Proof.
  unfold u32_ok, le32. intros Hn. rewrite !to_N_byte_of.
  rewrite (N.mod_small (n / 16777216)) by (apply N.Div0.div_lt_upper_bound; lia).
  replace (n / 65536) with (n / 256 / 256) by (by rewrite N.Div0.div_div).
  replace (n / 16777216) with (n / 256 / 256 / 256) by (by rewrite !N.Div0.div_div).
  pose proof (N.div_mod n 256 ltac:(done)). pose proof (N.div_mod (n / 256) 256 ltac:(done)).
  pose proof (N.div_mod (n / 256 / 256) 256 ltac:(done)). lia.
Qed.

(** Reading a 32-bit count is taking its four bytes off. *)
Lemma read_u32_le_Ok c v r : read_u32_le c = Ok (v, r) <-> u32_ok v /\ c = u32_le_bytes v ++ r.
Proof.
  split.
  - destruct c as [|b0 [|b1 [|b2 [|b3 rest]]]]; try discriminate. cbn [read_u32_le]. intros [= <- <-].
    split; [apply le32_bound|]. by rewrite u32_le_bytes_le32.
  - intros [Hv ->]. cbn [read_u32_le u32_le_bytes app]. by rewrite le32_bytes.
Qed.

(** [f] accepts the words of a language and leaves what follows. *)
Definition recognises (f : Cursor -> outcome DecodeDetail Cursor) (L : list byte -> Prop) : Prop :=
  forall c r, f c = Ok r <-> exists w, L w /\ c = w ++ r.

Lemma skip_recognises n : recognises (skip n) (fun w => len w = n).
Proof.
  intros c r. unfold skip. destruct (n <=? len c) eqn:E; breflect; unfold len in *.
  - split.
    + intros [= <-]. exists (take (N.to_nat n) c). rewrite take_drop. split; [|done]. rewrite length_take. lia.
    + intros (w & Hw & ->). f_equal. rewrite drop_app_length'; [done|lia].
  - split; [done|]. intros (w & Hw & ->). rewrite length_app in E. lia.
Qed.

Lemma seq_recognises f g L M : recognises f L -> recognises g M ->
  recognises (fun c => let* c := f c in g c) (fun w => exists a b, w = a ++ b /\ L a /\ M b).
Proof.
  intros Hf Hg c r. split.
  - intros H. run_inv H. apply Hf in E as (u & Hu & ->). apply Hg in H as (v & Hv & ->).
    exists (u ++ v). split; [by exists u, v|]. by rewrite app_assoc.
  - intros (w & (a & b & -> & Ha & Hb) & ->). rewrite <- app_assoc.
    rewrite (proj2 (Hf (a ++ b ++ r) (b ++ r))) by (by exists a). cbn. apply Hg. by exists b.
Qed.

Lemma times_recognises n f L : recognises f L ->
  recognises (walk_times n f) (fun w => exists ws, length ws = n /\ Forall L ws /\ w = concat ws).
Proof.
  intros Hf. induction n as [|n IH]; intros c r; cbn [walk_times].
  - split.
    + intros [= ->]. exists []. split; [|done]. by exists [].
    + intros (w & ([|] & Hl & _ & ->) & ->); [done|discriminate].
  - rewrite (seq_recognises _ _ _ _ Hf IH c r). split.
    + intros (w & (a & b & -> & Ha & ws & Hl & Hws & ->) & ->). exists (a ++ concat ws). split; [|done].
      exists (a :: ws). split_and!; [cbn; lia|by constructor|done].
    + intros (w & ([|a ws] & Hl & Hws & ->) & ->); [discriminate|]. apply Forall_cons in Hws as [Ha Hws].
      exists (a ++ concat ws). split; [|done]. exists a, (concat ws). split_and!; [done|done|].
      exists ws. split_and!; [cbn in Hl; lia|done|done].
Qed.

(** A count followed by that many words. *)
Lemma counted_recognises f L : recognises f L ->
  recognises (fun c => let* r := read_u32_le c in walk_times (N.to_nat r.1) f r.2)
    (fun w => exists ws, u32_ok (len ws) /\ Forall L ws /\ w = u32_le_bytes (len ws) ++ concat ws).
Proof.
  intros Hf c r. split.
  - intros H. run_inv H. destruct a as [v rest]. apply read_u32_le_Ok in E as [Hv ->]. cbn in H.
    apply (times_recognises _ _ _ Hf) in H as (w & (ws & Hl & Hws & ->) & ->).
    assert (Hlen : len ws = v) by (unfold len; lia).
    exists (u32_le_bytes v ++ concat ws). split; [exists ws; by rewrite Hlen|]. by rewrite app_assoc.
  - intros (w & (ws & Hv & Hws & ->) & ->). rewrite <- app_assoc.
    rewrite (proj2 (read_u32_le_Ok _ (len ws) (concat ws ++ r))) by done. cbn [obind fst snd].
    apply (times_recognises _ _ _ Hf). exists (concat ws). split; [|done]. exists ws. split_and!; [|done|done].
    unfold len. lia.
Qed.

Definition lang {A} (ok : A -> Prop) (enc : A -> list byte) (w : list byte) : Prop :=
  exists a, ok a /\ w = enc a.

Lemma lang_intro {A} (ok : A -> Prop) (enc : A -> list byte) a c r :
  ok a -> c = enc a ++ r -> exists w, lang ok enc w /\ c = w ++ r.
Proof. intros Ha ->. exists (enc a). split; [|done]. by exists a. Qed.

Lemma recognises_accept f A (ok : A -> Prop) enc a r :
  recognises f (lang ok enc) -> ok a -> f (enc a ++ r) = Ok r.
Proof. intros Hf Ha. apply Hf. by apply (lang_intro _ _ a). Qed.

(** Lists of encoded things and their concatenation. *)
Lemma Forall_lang {A} (ok : A -> Prop) (enc : A -> list byte) ws :
  Forall (lang ok enc) ws <-> exists l, Forall ok l /\ ws = map enc l.
Proof.
  split.
  - induction 1 as [|w ws [a [Ha ->]] _ (l & Hl & ->)]; [by exists []|]. exists (a :: l). by split; [constructor|].
  - intros (l & Hl & ->). induction Hl as [|a l Ha _ IH]; constructor; [by exists a|done].
Qed.

Lemma counted_lang {A} f (ok : A -> Prop) (enc : A -> list byte) : recognises f (lang ok enc) ->
  recognises (fun c => let* r := read_u32_le c in walk_times (N.to_nat r.1) f r.2)
    (lang (fun l => u32_ok (len l) /\ Forall ok l) (fun l => u32_le_bytes (len l) ++ concat (map enc l))).
Proof.
  intros Hf c r. rewrite (counted_recognises _ _ Hf c r). split.
  - intros (w & (ws & Hl & Hws & ->) & ->). apply Forall_lang in Hws as (l & Hok & ->).
    assert (Hlen : len (map enc l) = len l) by (unfold len; by rewrite length_map). rewrite Hlen in Hl |- *.
    by apply (lang_intro _ _ l).
  - intros (w & (l & [Hl Hok] & ->) & ->).
    assert (Hlen : len (map enc l) = len l) by (unfold len; by rewrite length_map).
    eexists. split; [|done]. exists (map enc l). rewrite Hlen. split_and!; [done| |done].
    apply Forall_lang. by exists l.
Qed.

Lemma u32_recognises : recognises (fun c => let* r := read_u32_le c in Ok r.2) (lang u32_ok u32_le_bytes).
Proof.
  intros c r. split.
  - intros H. run_inv H. destruct a as [v rest]. apply read_u32_le_Ok in E as [Hv ->]. injection H as <-.
    by apply (lang_intro _ _ v).
  - intros (w & (v & Hv & ->) & ->). by rewrite (proj2 (read_u32_le_Ok _ v r)).
Qed.

Lemma byte_is t n b : Byte.to_N t = n -> Byte.to_N b = n -> t = b.
Proof. intros H1 H2. apply byte_to_N_inj. congruence. Qed.

Ltac known_byte t b := assert (t = b) as -> by (eapply byte_is; [eassumption|reflexivity]).

Lemma level_recognises budget : recognises (walk_level budget) (lang (level_ok budget) enc_level).
Proof.
  induction budget as [|deeper IH]; intros c r.
  { split; [done|]. by intros (w & (l & [] & _) & _). }
  split.
  - destruct c as [|t c]; [done|]. cbn [walk_level read_byte obind]. intros H. run_inv H; subst; try discriminate.
    + known_byte t x00. injection H as <-. by apply (lang_intro _ _ LevelZero).
    + known_byte t x03. apply IH in E2 as (w & (l1 & H1 & ->) & ->). apply IH in H as (w & (l2 & H2 & ->) & ->).
      apply (lang_intro _ _ (LevelPair3 l1 l2)); [done|]. cbn. by rewrite <- app_assoc.
    + known_byte t x04. destruct a as [v rest]. apply read_u32_le_Ok in E3 as [Hv ->]. injection H as <-.
      by apply (lang_intro _ _ (LevelParam v)).
    + known_byte t x02. apply IH in E2 as (w & (l1 & H1 & ->) & ->). apply IH in H as (w & (l2 & H2 & ->) & ->).
      apply (lang_intro _ _ (LevelPair2 l1 l2)); [done|]. cbn. by rewrite <- app_assoc.
    + known_byte t x01. apply IH in H as (w & (l1 & H1 & ->) & ->). by apply (lang_intro _ _ (LevelSucc l1)).
  - intros (w & (l & Hl & ->) & ->). destruct l as [|l|a b|a b|n]; cbn in Hl |- *.
    + done.
    + by apply (recognises_accept _ _ _ _ l r IH).
    + destruct Hl as [Ha Hb]. rewrite <- app_assoc, (recognises_accept _ _ _ _ a _ IH) by done. cbn.
      by apply (recognises_accept _ _ _ _ b r IH).
    + destruct Hl as [Ha Hb]. rewrite <- app_assoc, (recognises_accept _ _ _ _ a _ IH) by done. cbn.
      by apply (recognises_accept _ _ _ _ b r IH).
    + by apply (recognises_accept _ _ _ _ n r u32_recognises).
Qed.

Lemma part_recognises : recognises walk_part (lang part_ok enc_part).
Proof.
  intros c r. unfold walk_part. split.
  - intros H. run_inv H. destruct a as [v rest]. apply read_u32_le_Ok in E as [Hv ->]. cbn in H.
    apply skip_recognises in H as (w & <- & ->). apply (lang_intro _ _ w); [done|]. unfold enc_part. by rewrite <- app_assoc.
  - intros (w & (p & Hp & ->) & ->). unfold enc_part. rewrite <- app_assoc.
    rewrite (proj2 (read_u32_le_Ok _ (len p) (p ++ r))) by done. apply skip_recognises. by exists p.
Qed.

Lemma name_recognises : recognises walk_name (lang name_ok enc_name).
Proof. apply (counted_lang _ _ _ part_recognises). Qed.

Lemma lit_recognises : recognises walk_lit (lang lit_ok enc_lit).
Proof.
  intros c r. unfold walk_lit. split.
  - destruct c as [|t c]; [done|]. cbn [read_byte obind]. intros H. run_inv H; subst; try discriminate.
    + known_byte t x00. destruct a as [v rest]. apply read_u32_le_Ok in E0 as [Hv ->]. injection H as <-.
      by apply (lang_intro _ _ (LitSmall v)).
    + known_byte t x01. assert (Hp : walk_part c = Ok r) by (unfold walk_part; by rewrite E1).
      apply part_recognises in Hp as (w & (p & Hp & ->) & ->). by apply (lang_intro _ _ (LitBytes p)).
  - intros (w & (l & Hl & ->) & ->). destruct l as [n|p].
    + by apply (recognises_accept _ _ _ _ n r u32_recognises).
    + by apply (recognises_accept _ _ _ _ p r part_recognises).
Qed.

Ltac case_tags H :=
  repeat match type of H with match ?x with _ => _ end = _ => destruct x eqn:?; try discriminate H end.

Lemma digest_recognises : recognises (skip 32) (lang (fun d => len d = 32) id).
Proof.
  intros c r. rewrite (skip_recognises 32 c r). split.
  - intros (w & Hw & ->). by apply (lang_intro _ _ w).
  - intros (w & (d & Hd & ->) & ->). by exists d.
Qed.

Lemma expr_walk_sound deeper opaque :
  recognises (walk_expr deeper opaque) (lang (expr_ok deeper opaque) enc_expr) -> forall c r,
  walk_expr (S deeper) opaque c = Ok r ->
  exists w, lang (expr_ok (S deeper) opaque) enc_expr w /\ c = w ++ r.
Proof.
  intros IH c r. destruct c as [|t c]; [done|]. cbn [walk_expr read_byte obind]. intros H.
  assert (Hpair : forall p, t = pair_tag p ->
    (let* c := walk_expr deeper opaque c in walk_expr deeper opaque c) = Ok r ->
    exists w, lang (expr_ok (S deeper) opaque) enc_expr w /\ t :: c = w ++ r).
  { intros p -> Hp. apply (proj1 (seq_recognises _ _ _ _ IH IH c r)) in Hp as
      (w & (u & v & -> & (a & Ha & ->) & (b & Hb & ->)) & ->).
    apply (lang_intro _ _ (ExprPair p a b)); [done|]. done. }
  case_tags H.
  - known_byte t x17. apply lit_recognises in H as (w & (l & Hl & ->) & ->). by apply (lang_intro _ _ (ExprLit l)).
  - apply (Hpair Tag13); [|exact H]. eapply byte_is; [eassumption|done].
  - apply (Hpair Tag15); [|exact H]. eapply byte_is; [eassumption|done].
  - known_byte t x19. apply digest_recognises in H as (w & (d & Hd & ->) & ->).
    by apply (lang_intro _ _ (ExprDigest d)).
  - known_byte t x11. apply level_recognises in H as (w & (l & Hl & ->) & ->). by apply (lang_intro _ _ (ExprSort l)).
  - known_byte t x16. apply (proj1 (seq_recognises _ _ _ _ IH (seq_recognises _ _ _ _ IH IH) c r)) in H as
      (w & (u & v & -> & (a & Ha & ->) & (x & y & -> & (b & Hb & ->) & (d & Hd & ->))) & ->).
    apply (lang_intro _ _ (ExprTriple a b d)); [done|]. done.
  - known_byte t x12.
    apply (proj1 (seq_recognises _ _ _ _ name_recognises (counted_lang _ _ _ (level_recognises DEPTH_BUDGET)) c r)) in H
      as (w & (u & v & -> & (name & Hn & ->) & (levels & [Hl Hls] & ->)) & ->).
    apply (lang_intro _ _ (ExprConst name levels)); [done|]. done.
  - apply (Hpair Tag14); [|exact H]. eapply byte_is; [eassumption|done].
  - known_byte t x18. run_inv H. apply name_recognises in E as (w & (name & Hn & ->) & ->).
    destruct a0 as [v rest]. apply read_u32_le_Ok in E0 as [Hv ->]. cbn in H.
    apply IH in H as (w & (e & He & ->) & ->). apply (lang_intro _ _ (ExprNamed name v e)); [done|].
    cbn. by rewrite <- !app_assoc.
  - known_byte t x10. run_inv H. destruct a as [v rest]. apply read_u32_le_Ok in E as [Hv ->].
    injection H as <-. by apply (lang_intro _ _ (ExprIndex v)).
Qed.

Lemma expr_walk_complete deeper opaque :
  recognises (walk_expr deeper opaque) (lang (expr_ok deeper opaque) enc_expr) -> forall e r,
  expr_ok (S deeper) opaque e -> walk_expr (S deeper) opaque (enc_expr e ++ r) = Ok r.
Proof.
  intros IH e r He. pose proof (fun e r => recognises_accept _ _ _ _ e r IH) as Hacc.
  destruct e as [n|d|l|name levels|t a b|a b c|l|name n e]; cbn [expr_ok] in He.
  - by apply (recognises_accept _ _ _ _ n r u32_recognises).
  - destruct He as [-> Hd]. by apply (recognises_accept _ _ _ _ d r digest_recognises).
  - by apply (recognises_accept _ _ _ _ l r (level_recognises _)).
  - destruct He as (Hn & Hl & Hls). cbn [enc_expr app walk_expr read_byte obind].
    change (Byte.to_N x12) with 18. cbn iota. rewrite <- app_assoc.
    rewrite (recognises_accept _ _ _ _ name _ name_recognises) by done. cbn [obind].
    by apply (recognises_accept _ _ _ _ levels r (counted_lang _ _ _ (level_recognises DEPTH_BUDGET))).
  - destruct He as [Ha Hb]. assert (Hab : (let* c := walk_expr deeper opaque ((enc_expr a ++ enc_expr b) ++ r) in
      walk_expr deeper opaque c) = Ok r).
    { rewrite <- app_assoc, Hacc by done. by apply Hacc. }
    by destruct t.
  - destruct He as (Ha & Hb & Hc). cbn [enc_expr app walk_expr read_byte obind].
    change (Byte.to_N x16) with 22. cbn iota. rewrite <- !app_assoc, Hacc by done. cbn [obind].
    rewrite Hacc by done. by apply Hacc.
  - by apply (recognises_accept _ _ _ _ l r lit_recognises).
  - destruct He as (Hn & Hi & He). cbn [enc_expr app walk_expr read_byte obind].
    change (Byte.to_N x18) with 24. cbn iota. rewrite <- !app_assoc.
    rewrite (recognises_accept _ _ _ _ name _ name_recognises) by done. cbn [obind].
    rewrite (proj2 (read_u32_le_Ok _ n (enc_expr e ++ r))) by done. by apply Hacc.
Qed.

Lemma expr_recognises budget opaque : recognises (walk_expr budget opaque) (lang (expr_ok budget opaque) enc_expr).
Proof.
  induction budget as [|deeper IH]; intros c r.
  - split; [done|]. by intros (w & (l & [] & _) & _).
  - split; [by apply expr_walk_sound|]. intros (w & (e & He & ->) & ->). by apply expr_walk_complete.
Qed.

Lemma decl_recognises version : recognises (walk_decl version) (lang (decl_ok version) enc_decl).
Proof.
  intros c r. unfold walk_decl. set (opaque := version =? FORMAT_VERSION_V2).
  pose proof (seq_recognises _ _ _ _ (expr_recognises DEPTH_BUDGET opaque) (expr_recognises DEPTH_BUDGET opaque)) as Hee.
  rewrite (seq_recognises _ _ _ _ name_recognises Hee c r). split.
  - intros (w & (u & v & -> & (name & Hn & ->) & (x & y & -> & (t & Ht & ->) & (e & He & ->))) & ->).
    apply (lang_intro _ _ (mkCanonDecl name t e)); done.
  - intros (w & ([name t e] & (Hn & Ht & He) & ->) & ->). eexists. split; [|done]. exists (enc_name name), (enc_expr t ++ enc_expr e).
    split_and!; [done|by exists name|]. exists (enc_expr t), (enc_expr e). split_and!; [done|by exists t|by exists e].
Qed.

Lemma opaque_recognises : recognises walk_opaque_digest_expr (lang (fun d => len d = 32) (cons x19)).
Proof.
  intros c r. unfold walk_opaque_digest_expr. destruct c as [|t c]; cbn [read_byte obind].
  - split; [done|]. by intros (w & (d & Hd & ->) & [=]).
  - destruct (Byte.to_N t =? 25) eqn:E; breflect.
    + known_byte t x19. rewrite (digest_recognises c r). split.
      * intros (w & (d & Hd & ->) & ->). by apply (lang_intro _ _ d).
      * intros (w & (d & Hd & ->) & [= ->]). by apply (lang_intro _ _ d).
    + split; [done|]. intros (w & (d & Hd & ->) & [= -> _]). by destruct E.
Qed.

Lemma len_app {A} (a b : list A) : len (a ++ b) = len a + len b.
Proof. unfold len. rewrite length_app. lia. Qed.

Lemma len_u32 n : len (u32_le_bytes n) = 4.
Proof. done. Qed.

(** What follows the version: its language for each body. *)
Definition walk_body (version : N) (cursor : Cursor) : outcome DecodeDetail Cursor :=
  if version =? FORMAT_VERSION_V1
  then let* cursor := walk_expr DEPTH_BUDGET false cursor in walk_expr DEPTH_BUDGET false cursor
  else let* cursor := walk_opaque_digest_expr cursor in walk_opaque_digest_expr cursor.

Lemma body_recognises version : version = FORMAT_VERSION_V1 \/ version = FORMAT_VERSION_V2 ->
  recognises (walk_body version) (lang (fun b => body_ok b /\ body_version b = version) enc_body).
Proof.
  intros [->| ->] c r; unfold walk_body; cbn [N.eqb FORMAT_VERSION_V1 FORMAT_VERSION_V2].
  - change (FORMAT_VERSION_V1 =? FORMAT_VERSION_V1) with true. cbn iota.
    rewrite (seq_recognises _ _ _ _ (expr_recognises DEPTH_BUDGET false) (expr_recognises DEPTH_BUDGET false) c r). split.
    + intros (w & (u & v & -> & (t & Ht & ->) & (e & He & ->)) & ->). by apply (lang_intro _ _ (BodyV1 t e)).
    + intros (w & (b & [Hb Hv] & ->) & ->). destruct b as [t e|t e]; [|discriminate]. destruct Hb as [Ht He].
      eexists. split; [|done]. exists (enc_expr t), (enc_expr e). split_and!; [done|by exists t|by exists e].
  - change (FORMAT_VERSION_V2 =? FORMAT_VERSION_V1) with false. cbn iota.
    rewrite (seq_recognises _ _ _ _ opaque_recognises opaque_recognises c r). split.
    + intros (w & (u & v & -> & (t & Ht & ->) & (e & He & ->)) & ->). by apply (lang_intro _ _ (BodyV2 t e)).
    + intros (w & (b & [Hb Hv] & ->) & ->). destruct b as [t e|t e]; [discriminate|]. destruct Hb as [Ht He].
      eexists. split; [|done]. exists (x19 :: t), (x19 :: e). split_and!; [done|by exists t|by exists e].
Qed.

Lemma walk_package_body bytes : walk_package bytes =
  if len bytes <? 12 then Err UnexpectedEof
  else if negb (bool_decide (take 4 bytes = MAGIC)) then Err BadMagic
  else
    let* cursor := skip 4 bytes in
    let* r := read_u32_le cursor in
    do* ensure ((r.1 =? FORMAT_VERSION_V1) || (r.1 =? FORMAT_VERSION_V2)) (UnsupportedVersion r.1);
    let* a := read_u32_le r.2 in
    let* cursor := walk_name a.2 in
    let* cursor := walk_body r.1 cursor in
    let* d := read_u32_le cursor in
    let* cursor := walk_times (N.to_nat d.1) (walk_decl r.1) d.2 in
    let pos := len bytes - len cursor in
    do* ensure (pos =? len bytes) (TrailingBytes pos (len bytes));
    Ok (mkWalkResult d.1 pos a.1).
Proof.
  unfold walk_package. case_match; [done|]. case_match; [done|].
  destruct (skip 4 bytes) as [c| |]; [|done|done]. cbn [obind].
  destruct (read_u32_le c) as [[v c1]| |]; [|done|done]. cbn [obind fst snd].
  destruct (ensure _ _) as [[]| |]; [|done|done]. cbn [obind].
  destruct (read_u32_le c1) as [[a c2]| |]; [|done|done]. cbn [obind fst snd].
  destruct (walk_name c2) as [c3| |]; [|done|done]. cbn [obind]. unfold walk_body.
  match goal with |- obind ?m _ = obind ?m _ => destruct m as [c4| |] end; [|done|done]. cbn [obind].
  destruct (read_u32_le c4) as [[d c5]| |]; [|done|done]. done.
Qed.

Lemma walk_package_sound bytes w : walk_package bytes = Ok w ->
  exists p, package_ok p /\ bytes = enc_package p /\ w = mkWalkResult (len (cp_decls p)) (len bytes) (cp_arity p).
Proof.
  rewrite walk_package_body. intros H. do 2 (case_match; [done|]). breflect. run_inv H. breflect.
  destruct a0 as [v c1], a1 as [u c2], a4 as [n c5]. cbn [fst snd] in *.
  apply skip_recognises in E as (m & Hm & ->). apply read_u32_le_Ok in E0 as [Hv ->].
  apply read_u32_le_Ok in E1 as [Hu ->]. apply name_recognises in E3 as (x & (name & Hname & ->) & ->).
  assert (Hver : v = FORMAT_VERSION_V1 \/ v = FORMAT_VERSION_V2)
    by (apply orb_true_iff in E2 as [E2|E2]; apply N.eqb_eq in E2; auto).
  apply (body_recognises v Hver) in E4 as (y & (body & [Hb <-] & ->) & ->).
  assert (Hd : (let* r := read_u32_le a3 in
    walk_times (N.to_nat r.1) (walk_decl (body_version body)) r.2) = Ok a5) by (by rewrite E5).
  apply (counted_lang _ _ _ (decl_recognises (body_version body))) in Hd as (z & (decls & [Hlen Hdecls] & ->) & ->).
  assert (m = MAGIC) as ->.
  { rewrite take_app_length' in H1; [done|]. unfold len in Hm. lia. }
  assert (a5 = []) as ->.
  { destruct a5 as [|b a5]; [done|]. exfalso. rewrite !len_app in E8. unfold len in E8. cbn [length] in E8. lia. }
  rewrite app_nil_r in *.
  rewrite (proj2 (read_u32_le_Ok _ (len decls) (concat (map enc_decl decls)))) in E5 by done.
  injection E5 as <- <-.
  exists (mkCanonPackage u name body decls). split_and!; [done|done|]. injection H as <-. cbn [cp_decls cp_arity].
  by f_equal.
Qed.

Lemma walk_package_complete p : package_ok p ->
  walk_package (enc_package p) = Ok (mkWalkResult (len (cp_decls p)) (len (enc_package p)) (cp_arity p)).
Proof.
  destruct p as [arity name body decls]. intros (Ha & Hn & Hb & Hd & Hds). cbn in Ha, Hn, Hb, Hd, Hds.
  assert (Hlen : 12 <= len (enc_package (mkCanonPackage arity name body decls))).
  { unfold enc_package. rewrite !len_app, !len_u32. change (len MAGIC) with 4. lia. }
  rewrite walk_package_body. rewrite (proj2 (N.ltb_ge _ _)) by done.
  unfold enc_package at 1. cbn [cp_arity cp_name cp_body cp_decls].
  rewrite bool_decide_eq_true_2 by done. cbn [negb].
  unfold enc_package at 1. cbn [cp_arity cp_name cp_body cp_decls].
  match goal with |- context [skip 4 (MAGIC ++ ?rest)] =>
    rewrite (proj2 (skip_recognises 4 (MAGIC ++ rest) rest)) by (by exists MAGIC) end. cbn [obind].
  match goal with |- context [read_u32_le (u32_le_bytes ?v ++ ?rest)] =>
    rewrite (proj2 (read_u32_le_Ok _ v rest)) by (by split; [destruct body|]) end. cbn [obind fst snd].
  assert (Hver : body_version body = FORMAT_VERSION_V1 \/ body_version body = FORMAT_VERSION_V2)
    by (destruct body; auto).
  replace (_ || _) with true by (destruct body; done). cbn [ensure obind].
  match goal with |- context [read_u32_le (u32_le_bytes ?v ++ ?rest)] =>
    rewrite (proj2 (read_u32_le_Ok _ v rest)) by done end. cbn [obind fst snd].
  rewrite (recognises_accept _ _ _ _ name _ name_recognises) by done. cbn [obind].
  rewrite (recognises_accept _ _ _ _ body _ (body_recognises _ Hver)) by done. cbn [obind].
  rewrite (proj2 (read_u32_le_Ok _ (len decls) (concat (map enc_decl decls)))) by done. cbn [obind fst snd].
  assert (Hw : walk_times (N.to_nat (len decls)) (walk_decl (body_version body)) (concat (map enc_decl decls)) = Ok []).
  { apply (times_recognises _ _ _ (decl_recognises (body_version body))). exists (concat (map enc_decl decls)).
    rewrite app_nil_r. split; [|done]. exists (map enc_decl decls). split_and!; [rewrite length_map; unfold len; lia| |done].
    apply Forall_lang. by exists decls. }
  rewrite Hw. cbn [obind]. rewrite N.sub_0_r, N.eqb_refl. done.
Qed.

(** The package walker accepts exactly the encodings of packages. Under a
    byte and a declaration limit a byte string is accepted if and only if it is
    the encoding of a package of the grammar whose counts fit 32 bits and whose
    nesting is within the depth limit, is no longer than the byte limit and
    holds no more declarations than the limit read as 32 bits; the result then
    reports the package's declarations, size and universe arity. *)
Theorem validator_accepts_encodings bytes max_proof_bytes max_decls w :
  validate_proof_package_with_limits bytes max_proof_bytes max_decls = Ok w <->
  exists p, package_ok p /\ bytes = enc_package p /\ len bytes <= max_proof_bytes /\
    len (cp_decls p) <= max_decls mod 2 ^ 32 /\ w = mkWalkResult (len (cp_decls p)) (len bytes) (cp_arity p).
Proof.
  unfold validate_proof_package_with_limits. split.
  - intros H. run_inv H. breflect. injection H as <-.
    match goal with Hw : walk_package _ = Ok _ |- _ => apply walk_package_sound in Hw as (p & Hp & -> & ->) end.
    exists p. split_and!; done.
  - intros (p & Hp & -> & Hl & Hd & ->). rewrite (proj2 (N.leb_le _ _)) by done. cbn [ensure obind].
    rewrite (walk_package_complete p Hp). cbn [map_err obind wr_size wr_decl_count].
    rewrite (proj2 (N.leb_le _ _)) by done. cbn [ensure obind]. by rewrite (proj2 (N.leb_le _ _)).
Qed.

Lemma recognised_not_panic f : (forall c, f c <> Panic) -> forall n c, walk_times n f c <> Panic.
Proof.
  intros Hf. induction n as [|n IH]; intros c; cbn [walk_times]; [done|]. apply total_bind; [done|]. auto.
Qed.

Lemma read_u32_le_total c : read_u32_le c <> Panic.
Proof. by destruct c as [|? [|? [|? [|? ?]]]]. Qed.

Lemma read_byte_total c : read_byte c <> Panic.
Proof. by destruct c. Qed.

Lemma skip_total n c : skip n c <> Panic.
Proof. unfold skip. by case_match. Qed.

#[export] Hint Resolve read_u32_le_total read_byte_total skip_total recognised_not_panic : total.

Lemma walk_level_total budget : forall c, walk_level budget c <> Panic.
Proof. induction budget as [|d IH]; intros c; cbn [walk_level]; total_tac. Qed.

Lemma walk_lit_total c : walk_lit c <> Panic.
Proof. unfold walk_lit. total_tac. Qed.

Lemma walk_part_total c : walk_part c <> Panic.
Proof. unfold walk_part. total_tac. Qed.

#[export] Hint Resolve walk_level_total walk_lit_total walk_part_total : total.

Lemma walk_name_total c : walk_name c <> Panic.
Proof. unfold walk_name. total_tac. Qed.

Lemma walk_opaque_total c : walk_opaque_digest_expr c <> Panic.
Proof. unfold walk_opaque_digest_expr. total_tac. Qed.

#[export] Hint Resolve walk_name_total walk_opaque_total : total.

Lemma walk_expr_total budget opaque : forall c, walk_expr budget opaque c <> Panic.
Proof. induction budget as [|d IH]; intros c; cbn [walk_expr]; total_tac. Qed.

#[export] Hint Resolve walk_expr_total : total.

Lemma walk_decl_total version c : walk_decl version c <> Panic.
Proof. unfold walk_decl. total_tac. Qed.

#[export] Hint Resolve walk_decl_total : total.

Lemma walk_package_total bytes : walk_package bytes <> Panic.
Proof. unfold walk_package. total_tac. Qed.

#[export] Hint Resolve walk_package_total : total.

Lemma validate_with_limits_total bytes l d : validate_proof_package_with_limits bytes l d <> Panic.
Proof. unfold validate_proof_package_with_limits. total_tac. Qed.

#[export] Hint Resolve validate_with_limits_total : total.

(** The reasons a validation can report fit their machine types. *)
Definition detail_ok (d : DecodeDetail) : Prop :=
  match d with
  | BadMagic | UnexpectedEof | TrailingBytes _ _ | RecursionLimit _ _ => True
  | UnsupportedVersion v => v < 2 ^ 32
  | UnknownTag _ t => t < 2 ^ 8
  end.

Definition reason_ok (r : ValidationReason) : Prop :=
  match r with
  | TooLarge _ limit => (- 2 ^ 63 <= limit < 2 ^ 63)%Z
  | TooManyDecls n limit => n < 2 ^ 32 /\ (- 2 ^ 63 <= limit < 2 ^ 63)%Z
  | Decode d => detail_ok d
  end.

Lemma as_i64_jint z : (- 2 ^ 63 <= z < 2 ^ 63)%Z -> as_i64 (jint z) = Some z.
Proof.
  intros Hz. unfold jint. destruct (z <? 0)%Z eqn:E; [done|]. apply Z.ltb_ge in E. cbn [as_i64].
  rewrite (proj2 (N.leb_le _ _)) by lia. f_equal. lia.
Qed.

(** Reading back the JSON form of a rejection gives the rejection. *)
Theorem validation_reason_roundtrip r : reason_ok r ->
  validation_reason_from_json (validation_reason_json r) = Ok r.
Proof.
  destruct r as [size limit|n limit|d]; cbn [reason_ok].
  - intros Hl. unfold validation_reason_from_json, get_i64. cbn -[as_i64 jint].
    by rewrite as_i64_jint.
  - intros [Hn Hl]. unfold validation_reason_from_json, get_i64. cbn -[as_i64 jint N.modulo N.pow].
    rewrite as_i64_jint by done. cbn -[N.modulo N.pow]. by rewrite N.mod_small.
  - intros Hd. destruct d as [| |v|a s|w l|w t]; cbn in Hd.
    + done.
    + done.
    + unfold validation_reason_from_json. cbn -[N.modulo N.pow]. by rewrite N.mod_small.
    + done.
    + by destruct w.
    + unfold validation_reason_from_json. destruct w; cbn -[N.modulo N.pow]; by rewrite N.mod_small.
Qed.

Section LeanBoundFacts.
Context {X : Externals} {L : ExternalsLaws X}.

(** The package the miner builds is the encoding of a package of the grammar. *)
Lemma lean_bound_encoding v a s : lean_bound_canon_package v a s =
  enc_package (mkCanonPackage 0 [] (BodyV2 (stable_digest "pofp-v2:type" v a s) (stable_digest "pofp-v2:value" v a s)) []).
Proof.
  unfold lean_bound_canon_package, enc_package, enc_name. cbn [cp_arity cp_name cp_body cp_decls body_version enc_body map concat].
  rewrite <- !app_assoc. cbn [app]. change (len (@nil (list byte))) with 0. change (len (@nil CanonDecl)) with 0.
  by rewrite ?List.app_nil_r.
Qed.

Lemma lean_bound_package_ok v a s :
  package_ok (mkCanonPackage 0 [] (BodyV2 (stable_digest "pofp-v2:type" v a s) (stable_digest "pofp-v2:value" v a s)) []).
Proof.
  unfold package_ok, name_ok, u32_ok, body_ok, stable_digest, len. cbn [cp_arity cp_name cp_body cp_decls length].
  rewrite !sha256_length. split_and!; try done; constructor.
Qed.

Lemma lean_bound_length v a s : len (lean_bound_canon_package v a s) = 86.
Proof.
  unfold lean_bound_canon_package, stable_digest. rewrite !len_app, !len_u32. unfold len. by rewrite !sha256_length.
Qed.

End LeanBoundFacts.

(** Every package the miner builds has 86 bytes and passes the validator under
    any byte limit of at least 86, with no declarations. *)
Theorem lean_bound_package_valid {X : Externals} {L : ExternalsLaws X} v a s max_proof_bytes max_decls :
  86 <= max_proof_bytes ->
  validate_proof_package_with_limits (lean_bound_canon_package v a s) max_proof_bytes max_decls =
  Ok (mkWalkResult 0 86 0).
Proof.
  intros Hl. unfold validate_proof_package_with_limits. rewrite lean_bound_length.
  rewrite (proj2 (N.leb_le _ _)) by done. cbn [ensure obind].
  rewrite lean_bound_encoding, (walk_package_complete _ (lean_bound_package_ok v a s)).
  rewrite <- lean_bound_encoding, lean_bound_length. cbn [map_err obind wr_size wr_decl_count cp_decls cp_arity].
  rewrite (proj2 (N.leb_le _ _)) by done. cbn [ensure obind].
  by rewrite (proj2 (N.leb_le _ _)) by apply N.le_0_l.
Qed.

(** A declaration limit of [2^32] reads as zero: a package with one declaration
    is refused under it. *)
Lemma decl_limit_wraps :
  let p := mkCanonPackage 0 [] (BodyV1 (ExprIndex 0) (ExprIndex 0)) [mkCanonDecl [] (ExprIndex 0) (ExprIndex 0)] in
  validate_proof_package_with_limits (enc_package p) 16384 (2 ^ 32) = Err (TooManyDecls 1 4294967296).
Proof. reflexivity. Qed.
