(* ===== verification/ShareAuthorization.v ===== *)
(** * Submitter authorizations (share_authorization.rs)

    The signed envelope with which a submitter authorizes one share and its
    reward destination. Everything is checked from the envelope alone. *)

From S2P Require Import Prelude Json Externals Hash SignedEnvelope Block.

Definition SIGNER_WORK_V2_SCHEMA : string := "boole.signer.work.v2".
Definition SIGNER_WORK_ROUTE : string := "/submit".
Definition AUTHORIZATION_REQUIRED_NETWORK_ID : string := "boole-testnet-2".

Record VerifiedShareAuthorization := mkVerifiedShareAuthorization {
  va_signer_pk : string;
  va_reward_recipient : string;
  va_work_pk : string;
  va_work_n : string;
  va_work_j : string;
  va_work_c : string;
  va_work_bytes_hex : string;
  va_network_id : option string
}.

Inductive AuthError :=
| AuthSchema
| PayloadNotObject
| PayloadField (field : string)
| PayloadSchema
| PayloadRoute
| WorkPayloadMissing
| WorkPayloadNotObject
| WorkPayloadField (field : string)
| RequestHashMismatch
| RewardRecipientShape
| AuthSignatureInvalid
| AuthSignatureFailed (e : EnvelopeError)
| WorkBytesHex
| AuthRequired
| AuthNetworkMismatch.

Definition payload_str (payload : Value) (field : string) : outcome AuthError string :=
  ok_or (match value_get payload field with Some v => as_str v | None => None end) (PayloadField field).

Definition work_payload_str (work_payload : Value) (field : string) : outcome AuthError string :=
  ok_or (match value_get work_payload field with Some v => as_str v | None => None end) (WorkPayloadField field).

Section ShareAuthorization.
Context {X : Externals}.

Definition verify_share_work_authorization (auth : ShareWorkAuthorization)
    : outcome AuthError VerifiedShareAuthorization :=
  do* ensure (String.eqb (swa_schema auth) SIGNED_ENVELOPE_SCHEMA) AuthSchema;
  let payload := swa_payload auth in
  do* ensure (is_object payload) PayloadNotObject;
  let* payload_schema := payload_str payload "schema" in
  do* ensure (String.eqb payload_schema SIGNER_WORK_V2_SCHEMA) PayloadSchema;
  let* route := payload_str payload "route" in
  do* ensure (String.eqb route SIGNER_WORK_ROUTE) PayloadRoute;
  let* work_payload := ok_or (value_get payload "workPayload") WorkPayloadMissing in
  do* ensure (is_object work_payload) WorkPayloadNotObject;
  let* request_hash := payload_str payload "requestHash" in
  do* ensure (String.eqb request_hash (canonical_payload_hash_hex work_payload)) RequestHashMismatch;
  let* reward_recipient := payload_str payload "rewardRecipient" in
  do* map_err (fun _ => RewardRecipientShape) (hex32_from_hex reward_recipient);
  let* valid := map_err AuthSignatureFailed
    (verify_signature_with_network (swa_pk auth) (swa_signature auth) payload (swa_network_id auth)) in
  do* ensure valid AuthSignatureInvalid;
  let* bytes := work_payload_str work_payload "bytes" in
  let* decoded := ok_or (hex_decode bytes) WorkBytesHex in
  let* work_pk := work_payload_str work_payload "pk" in
  let* work_n := work_payload_str work_payload "n" in
  let* work_j := work_payload_str work_payload "j" in
  let* work_c := work_payload_str work_payload "c" in
  Ok (mkVerifiedShareAuthorization (swa_pk auth) reward_recipient work_pk work_n work_j work_c
        (hex_encode decoded) (swa_network_id auth)).

Definition verify_share_work_authorization_for_network (auth : option ShareWorkAuthorization)
    (expected_network_id : option string) : outcome AuthError (option VerifiedShareAuthorization) :=
  match auth with
  | None =>
      do* ensure (negb (bool_decide (expected_network_id = Some AUTHORIZATION_REQUIRED_NETWORK_ID))) AuthRequired;
      Ok None
  | Some auth =>
      let* verified := verify_share_work_authorization auth in
      do* (match expected_network_id with
           | Some expected => ensure (bool_decide (va_network_id verified = Some expected)) AuthNetworkMismatch
           | None => Ok tt
           end);
      Ok (Some verified)
  end.

End ShareAuthorization.

(** ** Lemmas *)

Lemma payload_str_total p f : payload_str p f <> Panic.
Proof. unfold payload_str. total_tac. Qed.

Lemma work_payload_str_total p f : work_payload_str p f <> Panic.
Proof. unfold work_payload_str. total_tac. Qed.

#[export] Hint Resolve payload_str_total work_payload_str_total hex32_from_hex_total : total.

Lemma verify_share_work_authorization_total {X : Externals} auth : verify_share_work_authorization auth <> Panic.
Proof. unfold verify_share_work_authorization. total_tac. Qed.

#[export] Hint Resolve verify_share_work_authorization_total : total.

Lemma verify_for_network_total {X : Externals} auth n : verify_share_work_authorization_for_network auth n <> Panic.
Proof. unfold verify_share_work_authorization_for_network. total_tac. Qed.

#[export] Hint Resolve verify_for_network_total : total.

Section ShareAuthorizationFacts.
Context {X : Externals}.

(** What a verified authorization attests: the envelope's key signed, over the
    digest scoped to the envelope's network, a work payload with these fields
    whose hash it names, and this reward destination. *)
Record attests (auth : ShareWorkAuthorization) (v : VerifiedShareAuthorization) : Prop := {
  at_signer : va_signer_pk v = swa_pk auth;
  at_network : va_network_id v = swa_network_id auth;
  at_signature :
    verify_signature_with_network (swa_pk auth) (swa_signature auth) (swa_payload auth) (swa_network_id auth) = Ok true;
  at_schema : payload_str (swa_payload auth) "schema" = Ok SIGNER_WORK_V2_SCHEMA;
  at_route : payload_str (swa_payload auth) "route" = Ok SIGNER_WORK_ROUTE;
  at_reward : payload_str (swa_payload auth) "rewardRecipient" = Ok (va_reward_recipient v);
  at_work : exists work, value_get (swa_payload auth) "workPayload" = Some work /\
    payload_str (swa_payload auth) "requestHash" = Ok (canonical_payload_hash_hex work) /\
    work_payload_str work "pk" = Ok (va_work_pk v) /\ work_payload_str work "n" = Ok (va_work_n v) /\
    work_payload_str work "j" = Ok (va_work_j v) /\ work_payload_str work "c" = Ok (va_work_c v) /\
    exists text bytes, work_payload_str work "bytes" = Ok text /\ hex_decode text = Some bytes /\
      va_work_bytes_hex v = hex_encode bytes
}.

Lemma verify_attests auth v : verify_share_work_authorization auth = Ok v -> attests auth v.
Proof.
  unfold verify_share_work_authorization. intros H. run_inv H. breflect. subst. injection H as <-.
  split; cbn; try done. eexists. split_and!; try done. by eexists _, _.
Qed.

Lemma verify_for_network_Ok auth n r : verify_share_work_authorization_for_network auth n = Ok r ->
  match r with
  | None => auth = None /\ n <> Some AUTHORIZATION_REQUIRED_NETWORK_ID
  | Some v => exists a, auth = Some a /\ attests a v /\ (forall e, n = Some e -> va_network_id v = Some e)
  end.
Proof.
  unfold verify_share_work_authorization_for_network. destruct auth as [a|].
  - intros H. run_inv H; breflect; injection H as <-; exists a; split_and!; try done; try by apply verify_attests.
    by intros e [= <-].
  - intros H. run_inv H. breflect. by injection H as <-.
Qed.

End ShareAuthorizationFacts.
