(* ===== verification/BlockBuilder.v ===== *)
(** * Block selection (block_builder.rs)

    The proposer filters the candidate shares of its pool, ranks them by
    score, drops repeated proofs, truncates, applies the kernel gate, and puts
    the survivors in canonical order; the first of them below the block target
    is the proposer. *)

From S2P Require Import Prelude Json Externals Hash Block Config ShareAuthorization.

Record CandidateShare := mkCandidateShare {
  cs_label : string;
  cs_pk : string;
  cs_reward_pk : string;
  cs_n : string;
  cs_j : string;
  cs_c : string;
  cs_share_hash : string;
  cs_score : string;
  cs_canon_tag : N;
  cs_canon_hash : string;
  cs_proof_package : string;
  cs_seed_hex : string;
  cs_signed_work : option ShareWorkAuthorization
}.

Record BlockBuilderConfig := mkBlockBuilderConfig {
  bc_t_block : string;
  bc_t_share : string;
  bc_min_share_score : N;
  bc_min_share_score_multiplier_nanos : N;
  bc_k_max : N;
  bc_difficulty_epoch : N;
  bc_difficulty_weight : string
}.

Record BuiltBlockSelection := mkBuiltBlockSelection {
  bs_selected : list CandidateShare;
  bs_proposer_index : N;
  bs_tied_proposer_count : N;
  bs_dropped_below_min_score : N;
  bs_dropped_kernel_reject : N;
  bs_truncated_by_kmax : N;
  bs_kernel_checked_tags : list N;
  bs_kernel_accepted : list bool;
  bs_promoted_bounty_shares : list PromotedBountyShare
}.

Inductive BuildSelectionResult :=
| Built (selection : BuiltBlockSelection)
| NoProposer (dropped_kernel_reject : N) (kernel_checked_tags : list N) (kernel_accepted : list bool).

Inductive BuildError :=
| BuildHex256TooLong
| BuildHex256NotHex
| BuildBadScore
| BuildBadTarget
| BuildZeroTarget.

(** [str::to_ascii_lowercase]. *)
Definition ascii_lower (c : ascii) : ascii :=
  if is_ascii_upper c then ascii_of_N (N_of_ascii c + 32) else c.

Fixpoint str_lower (s : string) : string :=
  match s with EmptyString => EmptyString | String c s' => String (ascii_lower c) (str_lower s') end.

(** [{:0>64}] pads on the left to 64 characters. *)
Definition normalize_hex256 (value : string) : outcome BuildError string :=
  let without_prefix := strip_hex_prefix value in
  do* ensure (str_len without_prefix <=? 64) BuildHex256TooLong;
  do* ensure (str_all is_ascii_hexdigit without_prefix) BuildHex256NotHex;
  Ok (pad_zeros 64 (str_lower without_prefix)).

Definition candidate_order_key (s : CandidateShare) : CanonicalOrderKey :=
  mkCanonicalOrderKey (cs_pk s) (cs_n s) (cs_j s).

(** One turn of the loop of [select_qualifying_proposer]: the next index, the
    winner and the number of qualifying shares. *)
Definition qualify_step (t_block : string) (st : N * option N * N) (share_hash : string)
    : outcome BuildError (N * option N * N) :=
  let '(idx, winner, count) := st in
  let* h := normalize_hex256 share_hash in
  if rlt h t_block
  then Ok (idx + 1, match winner with None => Some idx | Some w => Some w end, count + 1)
  else Ok (idx + 1, winner, count).

Definition select_qualifying_proposer (share_hashes : list string) (t_block : string)
    : outcome BuildError (option N * N) :=
  let* normalized_t_block := normalize_hex256 t_block in
  let* st := ofold (qualify_step normalized_t_block) (0, None, 0) share_hashes in
  let '(_, winner, count) := st in
  Ok (winner, count).

Section BlockBuilder.
Context {X : Externals}.

Definition from_policy_with_t_block (policy : CalibrationPolicy) (t_block : string) (difficulty_epoch : N)
    : outcome BuildError BlockBuilderConfig :=
  let* floor := ok_or (min_share_score (t_share (cp_thresholds policy)) MIN_SHARE_SCORE_MULTIPLIER_NANOS)
    BuildZeroTarget in
  let* t_block_value := ok_or (parse_biguint_hex t_block) BuildBadTarget in
  let* weight := ok_or (difficulty_weight t_block_value) BuildZeroTarget in
  Ok (mkBlockBuilderConfig t_block ("0x" +:+ hex064 (t_share (cp_thresholds policy))) floor
        MIN_SHARE_SCORE_MULTIPLIER_NANOS (cp_k_max policy) difficulty_epoch (to_decimal weight)).

Definition from_policy (policy : CalibrationPolicy) : outcome BuildError BlockBuilderConfig :=
  from_policy_with_t_block policy ("0x" +:+ hex064 (t_block (cp_thresholds policy))) 0.

Definition parse_score_decimal (value : string) : outcome BuildError N :=
  ok_or (biguint_from_str value) BuildBadScore.

(** The score used for ranking; an unreadable one ranks as zero. *)
Definition ranking_score (s : CandidateShare) : N :=
  match parse_score_decimal (cs_score s) with Ok n => n | _ => 0 end.

Definition compare_preselection (a b : CandidateShare) : comparison :=
  cmp_then (rcmp (ranking_score b) (ranking_score a))
    (compare_canonical (candidate_order_key a) (candidate_order_key b)).

Definition candidate_reward_pk (s : CandidateShare) : string :=
  if str_is_empty (cs_reward_pk s) then cs_pk s else cs_reward_pk s.

(** The verified authorization describes the candidate. *)
Definition authorization_matches (v : VerifiedShareAuthorization) (s : CandidateShare) : bool :=
  String.eqb (va_signer_pk v) (cs_pk s) && String.eqb (va_work_pk v) (cs_pk s)
  && String.eqb (va_work_n v) (cs_n s) && String.eqb (va_work_j v) (cs_j s)
  && String.eqb (va_work_c v) (cs_c s) && String.eqb (va_work_bytes_hex v) (cs_proof_package s)
  && String.eqb (va_reward_recipient v) (candidate_reward_pk s).

Definition authorized (expected_network_id : option string) (s : CandidateShare) : bool :=
  match verify_share_work_authorization_for_network (cs_signed_work s) expected_network_id with
  | Ok (Some v) => authorization_matches v s
  | Ok None => true
  | _ => false
  end.

(** The tests before the score, in the order of the code. *)
Definition candidate (chain_head : string) (credited : gset string) (expected_network_id : option string)
    (s : CandidateShare) : bool :=
  String.eqb (cs_c s) chain_head
  && negb (negb (str_is_empty (cs_canon_hash s)) && bool_decide (cs_canon_hash s ∈ credited))
  && authorized expected_network_id s.

(** One turn of the first loop: the count of low scores and the survivors. *)
Definition survivor_step (chain_head : string) (credited : gset string) (expected_network_id : option string)
    (min_score : N) (st : N * list CandidateShare) (s : CandidateShare)
    : outcome BuildError (N * list CandidateShare) :=
  if negb (candidate chain_head credited expected_network_id s) then Ok st
  else
    let* score := parse_score_decimal (cs_score s) in
    if score <? min_score then Ok (st.1 + 1, st.2) else Ok (st.1, st.2 ++ [s]).

(** [retain] with the set of canonical hashes seen so far. *)
Fixpoint retain_first (seen : gset string) (l : list CandidateShare) : list CandidateShare :=
  match l with
  | [] => []
  | s :: l' =>
      if str_is_empty (cs_canon_hash s) then s :: retain_first seen l'
      else if bool_decide (cs_canon_hash s ∈ seen) then retain_first seen l'
      else s :: retain_first ({[cs_canon_hash s]} ∪ seen) l'
  end.

Definition kernel_accepts (accepted_canon_tags : gset N) (s : CandidateShare) : bool :=
  bool_decide (cs_canon_tag s ∈ accepted_canon_tags).

Definition build_block_selection_for_network (chain_head : string) (shares : list CandidateShare)
    (cfg : BlockBuilderConfig) (accepted_canon_tags : gset N) (credited_canon_hashes : gset string)
    (promoted_bounty_shares : list PromotedBountyShare) (expected_network_id : option string)
    : outcome BuildError BuildSelectionResult :=
  let* t_block := normalize_hex256 (bc_t_block cfg) in
  let* st := ofold (survivor_step chain_head credited_canon_hashes expected_network_id (bc_min_share_score cfg))
    (0, []) shares in
  let '(dropped_below_min_score, score_survivors) := st in
  let score_survivors := sort_by compare_preselection score_survivors in
  let score_survivors := retain_first ∅ score_survivors in
  let truncated_by_kmax := len score_survivors - bc_k_max cfg in
  let preselected := take (N.to_nat (bc_k_max cfg)) score_survivors in
  let kernel_checked_tags := map cs_canon_tag preselected in
  let kernel_accepted := map (kernel_accepts accepted_canon_tags) preselected in
  let survivors := List.filter (kernel_accepts accepted_canon_tags) preselected in
  let dropped_kernel_reject := len preselected - len survivors in
  let survivors :=
    sort_by (fun a b => compare_canonical (candidate_order_key a) (candidate_order_key b)) survivors in
  let* r := select_qualifying_proposer (map cs_share_hash survivors) t_block in
  let '(winner_index, tied_proposer_count) := r in
  match winner_index with
  | None => Ok (NoProposer dropped_kernel_reject kernel_checked_tags kernel_accepted)
  | Some proposer_index =>
      Ok (Built (mkBuiltBlockSelection survivors proposer_index tied_proposer_count dropped_below_min_score
                   dropped_kernel_reject truncated_by_kmax kernel_checked_tags kernel_accepted
                   promoted_bounty_shares))
  end.

Definition build_block_selection (chain_head : string) (shares : list CandidateShare)
    (cfg : BlockBuilderConfig) (accepted_canon_tags : gset N) (credited_canon_hashes : gset string)
    (promoted_bounty_shares : list PromotedBountyShare) : outcome BuildError BuildSelectionResult :=
  build_block_selection_for_network chain_head shares cfg accepted_canon_tags credited_canon_hashes
    promoted_bounty_shares None.

End BlockBuilder.

#[export] Instance candidate_share_eq_decision : EqDecision CandidateShare.
Proof. solve_decision. Defined.

(** ** Hexadecimal values

    The order of normalized texts is the order of the numbers they write. *)

Definition nibble (c : ascii) : N :=
  let n := N_of_ascii c in
  if is_ascii_digit c then n - 48 else if is_ascii_upper c then n - 55 else n - 87.

Fixpoint hex_value_from (acc : N) (s : string) : N :=
  match s with EmptyString => acc | String c s' => hex_value_from (acc * 16 + nibble c) s' end.

Definition hex_value : string -> N := hex_value_from 0.

Lemma hex_value_acc s acc : hex_value_from acc s = acc * 16 ^ str_len s + hex_value s.
Proof.
  unfold hex_value. revert acc. induction s as [|c s IH]; intros acc.
  - unfold str_len. cbn. lia.
  - cbn [hex_value_from]. rewrite IH, (IH (0 * 16 + nibble c)). unfold str_len. cbn [String.length].
    rewrite Nat2N.inj_succ, N.pow_succ_r'. lia.
Qed.

Lemma hex_value_cons c s : hex_value (String c s) = nibble c * 16 ^ str_len s + hex_value s.
Proof. unfold hex_value at 1. cbn [hex_value_from]. rewrite hex_value_acc. lia. Qed.

Lemma nibble_bound c : is_lower_hex c = true -> nibble c < 16.
Proof.
  unfold is_lower_hex, nibble, is_ascii_digit, is_ascii_upper, in_range.
  intros H. repeat case_match; breflect; try lia. all: apply orb_true_iff in H as [H|H]; breflect; lia.
Qed.

Lemma hex_value_bound s : str_all is_lower_hex s = true -> hex_value s < 16 ^ str_len s.
Proof.
  induction s as [|c s IH]; [reflexivity|]. cbn [str_all]. intros [Hc Hs]%andb_true_iff.
  rewrite hex_value_cons. unfold str_len in *. cbn [String.length]. rewrite Nat2N.inj_succ, N.pow_succ_r'.
  pose proof (nibble_bound c Hc). specialize (IH Hs). nia.
Qed.

Lemma nibble_order c d : is_lower_hex c = true -> is_lower_hex d = true ->
  (N_of_ascii c ?= N_of_ascii d) = (nibble c ?= nibble d).
Proof.
  unfold is_lower_hex, nibble, is_ascii_digit, is_ascii_upper, in_range. intros Hc Hd.
  assert (Hc' : 48 <= N_of_ascii c <= 57 \/ 97 <= N_of_ascii c <= 102)
    by (apply orb_true_iff in Hc as [Hc|Hc]; breflect; lia).
  assert (Hd' : 48 <= N_of_ascii d <= 57 \/ 97 <= N_of_ascii d <= 102)
    by (apply orb_true_iff in Hd as [Hd|Hd]; breflect; lia).
  clear Hc Hd. symmetry.
  destruct (N.compare_spec (N_of_ascii c) (N_of_ascii d)) as [E|E|E];
    [apply N.compare_eq_iff|apply N.compare_lt_iff|apply N.compare_gt_iff];
    destruct ((48 <=? N_of_ascii c) && (N_of_ascii c <=? 57)) eqn:E1;
    destruct ((48 <=? N_of_ascii d) && (N_of_ascii d <=? 57)) eqn:E2;
    repeat (case_match; breflect); try lia;
    repeat match goal with H : _ && _ = false |- _ => apply andb_false_iff in H as [H|H]; apply N.leb_gt in H end; try lia.
Qed.

Lemma ascii_byte_N c : Byte.to_N (byte_of_ascii c) = N_of_ascii c.
Proof. by destruct c as [[] [] [] [] [] [] [] []]. Qed.

Lemma hex_order_numeric s : forall t, str_all is_lower_hex s = true -> str_all is_lower_hex t = true ->
  String.length s = String.length t -> rcmp s t = (hex_value s ?= hex_value t).
Proof.
  induction s as [|c s IH]; intros [|d t] Hs Ht Hl; try discriminate Hl; [done|].
  cbn [str_all] in Hs, Ht. apply andb_true_iff in Hs as [Hc Hs], Ht as [Hd Ht]. injection Hl as Hl.
  change (rcmp (String c s) (String d t)) with (cmp_then (rcmp (byte_of_ascii c) (byte_of_ascii d)) (rcmp s t)).
  rewrite (IH t Hs Ht Hl), !hex_value_cons. unfold rcmp at 1, byte_ord. rewrite !ascii_byte_N, (nibble_order c d) by done.
  pose proof (hex_value_bound s Hs) as Bs. pose proof (hex_value_bound t Ht) as Bt.
  assert (str_len s = str_len t) as Hlen by (unfold str_len; congruence). rewrite Hlen in *.
  unfold cmp_then. destruct (N.compare_spec (nibble c) (nibble d)) as [->|E|E].
  - symmetry. destruct (N.compare_spec (hex_value s) (hex_value t));
      [apply N.compare_eq_iff|apply N.compare_lt_iff|apply N.compare_gt_iff]; lia.
  - symmetry. apply N.compare_lt_iff. nia.
  - symmetry. apply N.compare_gt_iff. nia.
Qed.

Lemma ascii_lower_hex c : is_ascii_hexdigit c = true -> is_lower_hex (ascii_lower c) = true /\ nibble (ascii_lower c) = nibble c.
Proof. destruct c as [[] [] [] [] [] [] [] []]; intros H; try discriminate H; split; reflexivity. Qed.

Lemma str_lower_hex s : str_all is_ascii_hexdigit s = true ->
  str_all is_lower_hex (str_lower s) = true /\ hex_value (str_lower s) = hex_value s /\
  String.length (str_lower s) = String.length s.
Proof.
  induction s as [|c s IH]; [done|]. cbn [str_all str_lower]. intros [Hc Hs]%andb_true_iff.
  destruct (IH Hs) as (H1 & H2 & H3). destruct (ascii_lower_hex c Hc) as [L1 L2].
  rewrite !hex_value_cons, H2, L2, L1, H1. unfold str_len. cbn [String.length]. rewrite H3. by split_and!.
Qed.

Lemma zeros_hex n s : str_all is_lower_hex s = true ->
  str_all is_lower_hex (repeat_char "0" n +:+ s) = true /\ hex_value (repeat_char "0" n +:+ s) = hex_value s.
Proof.
  intros Hs. induction n as [|n [IH1 IH2]]; [done|].
  change (repeat_char "0" (S n) +:+ s) with (String "0" (repeat_char "0" n +:+ s)).
  rewrite hex_value_cons, IH2. split; [exact IH1|]. change (nibble "0") with 0. lia.
Qed.

Lemma repeat_char_length c n : String.length (repeat_char c n) = n.
Proof. induction n as [|n IH]; cbn; [done|by rewrite IH]. Qed.

(** The number a share hash or target text writes. *)
Definition hex256 (s : string) : N := hex_value (strip_hex_prefix s).

Lemma normalize_hex256_Ok s t : normalize_hex256 s = Ok t ->
  str_all is_lower_hex t = true /\ String.length t = 64%nat /\ hex_value t = hex256 s.
Proof.
  unfold normalize_hex256. intros H. run_inv H. breflect. injection H as <-.
  destruct (str_lower_hex _ E1) as (H1 & H2 & H3). unfold pad_zeros.
  destruct (zeros_hex (64 - String.length (str_lower (strip_hex_prefix s))) _ H1) as [Z1 Z2].
  split_and!; [exact Z1| |by rewrite Z2, H2].
  rewrite str_app_length, repeat_char_length, H3. unfold str_len in E0. lia.
Qed.

Lemma normalized_lt s t s' t' : normalize_hex256 s = Ok s' -> normalize_hex256 t = Ok t' ->
  rlt s' t' = (hex256 s <? hex256 t).
Proof.
  intros (H1 & H2 & H3)%normalize_hex256_Ok (H4 & H5 & H6)%normalize_hex256_Ok.
  unfold rlt. rewrite hex_order_numeric, H3, H6 by congruence. unfold N.ltb. by destruct (_ ?= _).
Qed.

Lemma strip_hex_prefix_lower s : str_all is_lower_hex s = true -> strip_hex_prefix s = s.
Proof.
  destruct s as [|c [|d s]]; [done|done|]. cbn [str_all strip_hex_prefix].
  intros [_ [Hd _]%andb_true_iff]%andb_true_iff. destruct (is_char 48 c); [|done].
  by destruct d as [[] [] [] [] [] [] [] []].
Qed.

Lemma normalize_hex256_value s t : normalize_hex256 s = Ok t -> hex256 t = hex256 s.
Proof.
  intros (H1 & _ & H3)%normalize_hex256_Ok. unfold hex256 at 1. by rewrite strip_hex_prefix_lower.
Qed.

(** ** The qualifying proposer *)

(** The share hash is numerically below the block target. *)
Definition below (t_block share_hash : string) : bool := hex256 share_hash <? hex256 t_block.

Definition first_below (t_block : string) (hs : list string) : option N :=
  option_map (fun p : nat * string => N.of_nat p.1) (list_find (fun h => below t_block h = true) hs).

Lemma qualify_fold t t' hs : normalize_hex256 t = Ok t' -> forall idx w c st,
  ofold (qualify_step t') (idx, w, c) hs = Ok st ->
  st = (idx + len hs, match w with Some i => Some i | None => option_map (N.add idx) (first_below t hs) end,
        c + len (List.filter (below t) hs)).
Proof.
  intros Ht. induction hs as [|h hs IH]; intros idx w c st H.
  - cbn in H. injection H as <-. unfold len. cbn. destruct w; by rewrite !N.add_0_r.
  - cbn [ofold] in H. destruct (qualify_step t' (idx, w, c) h) as [st1| |] eqn:Hq; try discriminate H. cbn [obind] in H.
    unfold qualify_step in Hq. destruct (normalize_hex256 h) as [h'| |] eqn:Hh; try discriminate Hq. cbn [obind] in Hq.
    rewrite (normalized_lt h t h' t' Hh Ht) in Hq. fold (below t h) in Hq.
    unfold first_below. cbn [list_find List.filter].
    destruct (below t h) eqn:Hb; injection Hq as <-; apply IH in H as ->; unfold len; cbn [length].
    + rewrite decide_True by done. cbn [option_map fst].
      replace (idx + N.of_nat 0) with idx by lia. f_equal; [f_equal; [lia|by destruct w]|lia].
    + rewrite decide_False by congruence. f_equal; f_equal; [lia|].
      destruct w; [done|]. unfold first_below. destruct (list_find _ hs) as [[i x]|]; cbn; [f_equal; lia|done].
Qed.

Lemma select_qualifying_spec t hs w n : select_qualifying_proposer hs t = Ok (w, n) ->
  w = first_below t hs /\ n = len (List.filter (below t) hs).
Proof.
  unfold select_qualifying_proposer. destruct (normalize_hex256 t) as [t'| |] eqn:Ht; cbn [obind]; try discriminate.
  destruct (ofold _ _ hs) as [st| |] eqn:Hf; cbn [obind]; try discriminate.
  apply (qualify_fold t t' hs Ht) in Hf as ->. intros [= <- <-]. split; [|lia].
  destruct (first_below t hs) as [i|]; cbn; [f_equal; lia|done].
Qed.

Lemma first_below_Some t hs i : first_below t hs = Some i <->
  exists h, hs !! N.to_nat i = Some h /\ below t h = true /\
    (forall j g, (j < N.to_nat i)%nat -> hs !! j = Some g -> below t g = false).
Proof.
  unfold first_below. split.
  - destruct (list_find _ hs) as [[k h]|] eqn:Hf; intros [= <-]. apply list_find_Some in Hf as (H1 & H2 & H3).
    rewrite Nat2N.id. exists h. split_and!; [done|done|]. intros j g Hj Hg.
    apply not_true_is_false. by apply (H3 j g).
  - intros (h & H1 & H2 & H3).
    assert (Hf : list_find (fun h => below t h = true) hs = Some (N.to_nat i, h)).
    { apply list_find_Some. split_and!; [done|done|]. intros j g Hg Hj. rewrite (H3 j g Hj Hg). done. }
    rewrite Hf. cbn. by rewrite N2Nat.id.
Qed.

(** ** The survivors of the first loop *)

Section Survivors.
Context {X : Externals} (chain_head : string) (credited : gset string) (network : option string) (min_score : N).

Definition scored (test : N -> bool) (s : CandidateShare) : bool :=
  candidate chain_head credited network s
  && match parse_score_decimal (cs_score s) with Ok n => test n | _ => false end.

(** On the head, not credited, authorized, and with a score that clears the floor. *)
Definition eligible : CandidateShare -> bool := scored (fun n => min_score <=? n).

Definition low_score : CandidateShare -> bool := scored (fun n => n <? min_score).

Definition unreadable (s : CandidateShare) : bool :=
  candidate chain_head credited network s && negb (is_ok (parse_score_decimal (cs_score s))).

Lemma parse_score_cases s : parse_score_decimal s = Err BuildBadScore \/ exists n, parse_score_decimal s = Ok n.
Proof. unfold parse_score_decimal. destruct (biguint_from_str s); cbn; eauto. Qed.

Lemma survivors_closed shares : forall dropped acc,
  ofold (survivor_step chain_head credited network min_score) (dropped, acc) shares =
  if existsb unreadable shares then Err BuildBadScore
  else Ok (dropped + len (List.filter low_score shares), acc ++ List.filter eligible shares).
Proof.
  induction shares as [|s shares IH]; intros dropped acc; cbn [ofold existsb List.filter].
  { unfold len. cbn. by rewrite N.add_0_r, app_nil_r. }
  unfold survivor_step at 1, unreadable at 1, eligible at 1, low_score at 1, scored.
  destruct (candidate chain_head credited network s); cbn [negb andb orb]; [|apply IH].
  destruct (parse_score_cases (cs_score s)) as [->|[n ->]]; [done|]. cbn [obind is_ok negb orb fst snd].
  destruct (N.ltb_spec n min_score) as [Hlt|Hge]; cbn [obind]; rewrite IH; destruct (existsb _ shares); try done.
  - rewrite (proj2 (N.leb_gt _ _)) by lia. unfold len. cbn [length]. do 2 f_equal. lia.
  - rewrite (proj2 (N.leb_le _ _)) by lia. by rewrite <- app_assoc.
Qed.

End Survivors.

(** ** Ranking *)

Definition canonical_key (s : CandidateShare) : string * (string * string) := (cs_pk s, (cs_n s, cs_j s)).

Section Ranking.
Context {X : Externals}.

Definition rank_key (s : CandidateShare) : Z * (string * (string * string)) :=
  ((- Z.of_N (ranking_score s))%Z, canonical_key s).

(** [ranks a b]: the preselection order puts [a] no later than [b]. *)
Definition ranks : CandidateShare -> CandidateShare -> Prop := key_le rank_key.

Lemma compare_preselection_key a b : compare_preselection a b = key_compare rank_key a b.
Proof.
  unfold compare_preselection, key_compare, rank_key. unfold rcmp at 2, prod_ord. unfold rcmp at 1 2, N_ord, Z_ord.
  cbn [fst snd]. f_equal. rewrite Z.compare_opp. symmetry. apply N2Z.inj_compare.
Qed.

Lemma rank_key_nodup l : NoDup (map canonical_key l) -> NoDup (map rank_key l).
Proof.
  intros H. apply (NoDup_fmap_1 snd). rewrite <- list_fmap_compose. exact H.
Qed.

End Ranking.

(** ** Removing repeated proofs *)

Definition proofs (l : list CandidateShare) : list string :=
  List.filter (fun h => negb (str_is_empty h)) (map cs_canon_hash l).

Lemma proofs_elem h l : h ∈ proofs l <-> str_is_empty h = false /\ exists s, s ∈ l /\ cs_canon_hash s = h.
Proof.
  unfold proofs. rewrite list_elem_of_In, filter_In, negb_true_iff, in_map_iff. setoid_rewrite list_elem_of_In.
  naive_solver.
Qed.

Lemma retain_first_sublist l : forall seen, retain_first seen l `sublist_of` l.
Proof.
  induction l as [|s l IH]; intros seen; cbn [retain_first]; [constructor|].
  repeat case_match; constructor; apply IH.
Qed.

Lemma retain_first_nodup l : forall seen,
  NoDup (proofs (retain_first seen l)) /\ (forall h, h ∈ proofs (retain_first seen l) -> h ∉ seen).
Proof.
  induction l as [|s l IH]; intros seen; cbn [retain_first]; [split; [constructor|by intros h ?%elem_of_nil]|].
  destruct (str_is_empty (cs_canon_hash s)) eqn:He.
  { unfold proofs. cbn [map List.filter]. rewrite He. apply IH. }
  case_bool_decide as Hs; [apply IH|]. destruct (IH ({[cs_canon_hash s]} ∪ seen)) as [IH1 IH2].
  unfold proofs. cbn [map List.filter]. rewrite He. cbn [negb]. fold (proofs (retain_first ({[cs_canon_hash s]} ∪ seen) l)).
  split.
  - constructor; [|done]. intros Hin%IH2. set_solver.
  - intros h [->|Hin]%elem_of_cons; [done|]. apply IH2 in Hin. set_solver.
Qed.

(** What is removed repeats a proof that ranks no later and is kept. *)
Lemma retain_first_missing R l s : StronglySorted R l -> s ∈ l -> forall seen,
  s ∈ retain_first seen l \/ str_is_empty (cs_canon_hash s) = false /\
    (cs_canon_hash s ∈ seen \/ exists s', s' ∈ retain_first seen l /\ cs_canon_hash s' = cs_canon_hash s /\ R s' s).
Proof.
  intros Hs. induction Hs as [|x l Hs IH Hx]; intros Hin seen; [by apply elem_of_nil in Hin|].
  cbn [retain_first]. apply elem_of_cons in Hin as [->|Hin].
  { destruct (str_is_empty (cs_canon_hash x)) eqn:He; [left; set_solver|]. case_bool_decide; [by right; auto|left; set_solver]. }
  pose proof (proj1 (Forall_forall _ _) Hx s Hin) as HR.
  destruct (str_is_empty (cs_canon_hash x)) eqn:He.
  { destruct (IH Hin seen) as [?|(? & [?|(s' & ? & ? & ?)])]; [left; set_solver|by right; auto|].
    right. split; [done|]. right. exists s'. set_solver. }
  case_bool_decide; [by apply IH|].
  destruct (IH Hin ({[cs_canon_hash x]} ∪ seen)) as [?|(Hne & [Hel|(s' & ? & ? & ?)])]; [left; set_solver| |].
  - right. split; [done|]. apply elem_of_union in Hel as [Hel%elem_of_singleton|Hel]; [right; exists x; set_solver|by left].
  - right. split; [done|]. right. exists s'. set_solver.
Qed.

Lemma sublist_proofs l k : l `sublist_of` k -> proofs l `sublist_of` proofs k.
Proof.
  unfold proofs. induction 1 as [|x l k _ IH|x l k _ IH]; cbn [map List.filter]; [done|..];
    destruct (negb _); try done; by constructor.
Qed.

Lemma proofs_perm l k : l ≡ₚ k -> proofs l ≡ₚ proofs k.
Proof. intros H. unfold proofs. apply filter_perm. by apply Permutation_map. Qed.

Section Selection.
Context {X : Externals}.

(** The ranked eligible shares without repeated proofs, cut to [k_max]. *)
Definition preselect (ok : CandidateShare -> bool) (k_max : N) (shares : list CandidateShare) : list CandidateShare :=
  take (N.to_nat k_max) (retain_first ∅ (sort_by compare_preselection (List.filter ok shares))).

Lemma compare_canonical_key a b :
  compare_canonical (candidate_order_key a) (candidate_order_key b) = key_compare canonical_key a b.
Proof. done. Qed.

Lemma built_inv chain_head shares cfg tags credited promoted network sel :
  build_block_selection_for_network chain_head shares cfg tags credited promoted network = Ok (Built sel) ->
  let ok := eligible chain_head credited network (bc_min_share_score cfg) in
  bs_selected sel = sort_by (key_compare canonical_key)
    (List.filter (kernel_accepts tags) (preselect ok (bc_k_max cfg) shares)) /\
  Some (bs_proposer_index sel) = first_below (bc_t_block cfg) (map cs_share_hash (bs_selected sel)) /\
  bs_tied_proposer_count sel = len (List.filter (below (bc_t_block cfg)) (map cs_share_hash (bs_selected sel))) /\
  bs_promoted_bounty_shares sel = promoted.
Proof.
  unfold build_block_selection_for_network.
  destruct (normalize_hex256 _) as [t| |] eqn:Ht; cbn [obind]; try discriminate.
  rewrite survivors_closed. destruct (existsb _ shares); [discriminate|]. cbn [obind app].
  fold (preselect (eligible chain_head credited network (bc_min_share_score cfg)) (bc_k_max cfg) shares).
  destruct (select_qualifying_proposer _ _) as [[w n]| |] eqn:Hq; cbn [obind]; try discriminate.
  apply select_qualifying_spec in Hq as [Hw Hn]. destruct w as [w|]; [|discriminate]. intros [= <-].
  cbn [bs_selected bs_proposer_index bs_tied_proposer_count bs_promoted_bounty_shares].
  unfold below, first_below in *. unfold below in *. rewrite (normalize_hex256_value _ _ Ht) in *. done.
Qed.

Lemma preselect_sublist ok k shares :
  preselect ok k shares `sublist_of` sort_by compare_preselection (List.filter ok shares).
Proof. unfold preselect. etransitivity; [apply sublist_take|apply retain_first_sublist]. Qed.

Lemma preselect_elem ok k shares s : s ∈ preselect ok k shares -> s ∈ shares /\ ok s = true.
Proof.
  intros H. eapply elem_of_submseteq in H; [|apply sublist_submseteq, preselect_sublist].
  rewrite sort_by_elem_of in H. by apply list_filter_elem in H.
Qed.

Lemma preselect_proofs ok k shares : NoDup (proofs (preselect ok k shares)).
Proof.
  eapply sublist_NoDup; [apply (retain_first_nodup (sort_by compare_preselection (List.filter ok shares)) ∅)|].
  apply sublist_proofs, sublist_take.
Qed.

End Selection.

(** ** Theorems *)

(** What the proposer puts in a block. Every selected share is one of the
    offered ones, on the head, not yet credited, authorized, above the score
    floor and accepted by the kernel gate; the selection is in canonical
    order, holds at most k_max shares and no proof twice; the recorded
    proposer is the first share whose hash, as a number, is below the block
    target, and the recorded tie count is the number of such shares. *)
Theorem selection_sound {X : Externals} chain_head shares cfg tags credited promoted network sel :
  build_block_selection_for_network chain_head shares cfg tags credited promoted network = Ok (Built sel) ->
  Forall (fun s => s ∈ shares /\ eligible chain_head credited network (bc_min_share_score cfg) s = true /\
                   cs_canon_tag s ∈ tags) (bs_selected sel) /\
  StronglySorted (key_le canonical_key) (bs_selected sel) /\
  len (bs_selected sel) <= bc_k_max cfg /\
  NoDup (proofs (bs_selected sel)) /\
  (exists s, bs_selected sel !! N.to_nat (bs_proposer_index sel) = Some s /\
     hex256 (cs_share_hash s) < hex256 (bc_t_block cfg) /\
     forall i s', (i < N.to_nat (bs_proposer_index sel))%nat -> bs_selected sel !! i = Some s' ->
       hex256 (bc_t_block cfg) <= hex256 (cs_share_hash s')) /\
  bs_tied_proposer_count sel =
    len (List.filter (fun s => hex256 (cs_share_hash s) <? hex256 (bc_t_block cfg)) (bs_selected sel)).
Proof.
  intros (Hsel & Hidx & Hcount & _)%built_inv.
  assert (Hp : bs_selected sel ≡ₚ List.filter (kernel_accepts tags)
     (preselect (eligible chain_head credited network (bc_min_share_score cfg)) (bc_k_max cfg) shares))
    by (rewrite Hsel; apply sort_by_perm).
  split_and!.
  - rewrite Hp. apply Forall_forall. intros s [Hs Hk]%list_filter_elem.
    apply preselect_elem in Hs as [Hs Hok]. unfold kernel_accepts in Hk. by apply bool_decide_eq_true in Hk.
  - rewrite Hsel. apply sort_by_key_sorted.
  - unfold len. rewrite Hp. pose proof (sublist_length _ _ (filter_sublist (kernel_accepts tags)
      (preselect (eligible chain_head credited network (bc_min_share_score cfg)) (bc_k_max cfg) shares))) as Hl.
    unfold preselect in *. rewrite length_take in Hl. lia.
  - rewrite (proofs_perm _ _ Hp). eapply sublist_NoDup; [apply preselect_proofs|apply sublist_proofs, filter_sublist].
  - symmetry in Hidx. apply first_below_Some in Hidx as (h & Hh & Hb & Hno).
    apply list_lookup_fmap_Some in Hh as (s & -> & Hs). exists s. split_and!; [done|by apply N.ltb_lt|].
    intros i s' Hi Hs'. apply N.ltb_ge, (Hno i); [done|]. apply list_lookup_fmap_Some. by exists s'.
  - rewrite Hcount. unfold len, below. by rewrite filter_map_comm, length_map.
Qed.

(** C22: the selection is the best of the pool. An eligible, kernel-accepted
    share that is left out either repeats a proof that ranks no later and was
    preferred, or is outranked by k_max eligible shares with distinct
    proofs. *)
Theorem selection_optimal {X : Externals} chain_head shares cfg tags credited promoted network sel s :
  build_block_selection_for_network chain_head shares cfg tags credited promoted network = Ok (Built sel) ->
  s ∈ shares -> eligible chain_head credited network (bc_min_share_score cfg) s = true -> cs_canon_tag s ∈ tags ->
  s ∉ bs_selected sel ->
  (exists s', s' ∈ shares /\ s' <> s /\ eligible chain_head credited network (bc_min_share_score cfg) s' = true /\
     str_is_empty (cs_canon_hash s) = false /\ cs_canon_hash s' = cs_canon_hash s /\ ranks s' s) \/
  (exists top, len top = bc_k_max cfg /\
     top ⊆+ List.filter (eligible chain_head credited network (bc_min_share_score cfg)) shares /\
     NoDup (proofs top) /\ s ∉ top /\ Forall (fun s' => ranks s' s) top).
Proof.
  intros (Hsel & _)%built_inv Hin Hok Htag Hout.
  set (ok := eligible chain_head credited network (bc_min_share_score cfg)) in *.
  assert (Hpre : s ∉ preselect ok (bc_k_max cfg) shares).
  { intros Hs. apply Hout. rewrite Hsel, sort_by_elem_of. apply list_filter_elem. split; [done|].
    by apply bool_decide_eq_true_2. }
  assert (Hsort : StronglySorted ranks (sort_by compare_preselection (List.filter ok shares))).
  { rewrite (sort_by_ext _ _ _ compare_preselection_key). apply sort_by_key_sorted. }
  assert (Hs : s ∈ sort_by compare_preselection (List.filter ok shares))
    by (rewrite sort_by_elem_of; by apply list_filter_elem).
  destruct (decide (s ∈ retain_first ∅ (sort_by compare_preselection (List.filter ok shares)))) as [Hkept|Hgone].
  - right. exists (preselect ok (bc_k_max cfg) shares). unfold preselect in Hpre.
    assert (Hr : StronglySorted ranks (retain_first ∅ (sort_by compare_preselection (List.filter ok shares))))
      by (eapply sorted_sublist; [apply retain_first_sublist|exact Hsort]).
    destruct (sorted_take_top _ _ _ _ Hr Hkept Hpre) as [Hlen Htop]. split_and!; [|  |apply preselect_proofs|done|done].
    + unfold len, preselect. lia.
    + etransitivity; [apply sublist_submseteq, preselect_sublist|]. by rewrite sort_by_perm.
  - destruct (retain_first_missing _ _ s Hsort Hs ∅) as [?|(Hne & [Hbad|(s' & Hs' & Hh & Hr)])]; [done|set_solver|].
    left. exists s'. eapply elem_of_submseteq in Hs' as Hs2; [|apply sublist_submseteq, retain_first_sublist].
    rewrite sort_by_elem_of in Hs2. apply list_filter_elem in Hs2 as [H1 H2]. by split_and!; [|intros ->|..].
Qed.

(** The selection does not depend on the order in which the pool lists its
    shares, errors and refusals included: two listings of shares with
    distinct (pk, n, j) give the same result. *)
Theorem selection_order_independent {X : Externals} chain_head shares shares' cfg tags credited promoted network :
  shares ≡ₚ shares' -> NoDup (map canonical_key shares) ->
  build_block_selection_for_network chain_head shares cfg tags credited promoted network =
  build_block_selection_for_network chain_head shares' cfg tags credited promoted network.
Proof.
  intros Hp Hn. unfold build_block_selection_for_network.
  destruct (normalize_hex256 _) as [t| |]; [|done..]. cbn [obind]. rewrite !survivors_closed.
  rewrite (existsb_perm _ _ _ Hp). destruct (existsb _ shares'); [done|]. cbn [obind app].
  set (ok := eligible chain_head credited network (bc_min_share_score cfg)).
  set (low := low_score chain_head credited network (bc_min_share_score cfg)).
  replace (len (List.filter low shares')) with (len (List.filter low shares))
    by (unfold len; by rewrite (filter_perm low _ _ Hp)).
  replace (sort_by compare_preselection (List.filter ok shares'))
    with (sort_by compare_preselection (List.filter ok shares)); [done|].
  rewrite !(sort_by_ext _ _ _ compare_preselection_key). apply sort_by_key_perm; [|by apply filter_perm].
  apply rank_key_nodup. eapply sublist_NoDup; [exact Hn|]. apply sublist_map, filter_sublist.
Qed.

(** ** Witnesses *)

From S2P Require Import Concrete.

Module BuilderDemo.
Definition zeros : string := repeat_char "0" 62.
Definition share (label pk n hash score canon : string) : CandidateShare :=
  mkCandidateShare label pk "" n "00" "c0" (zeros +:+ hash) score 1 canon "" "" None.
(* [b] repeats the proof of [a] with a lower score. *)
Definition a : CandidateShare := share "a" "a1" "01" "02" "11" "p".
Definition b : CandidateShare := share "b" "b1" "01" "03" "10" "p".
Definition c : CandidateShare := share "c" "c1" "01" "ff" "111" "q".
Definition cfg : BlockBuilderConfig :=
  mkBlockBuilderConfig "0x10" "0x20" 2 MIN_SHARE_SCORE_MULTIPLIER_NANOS 2 0 "1".
Definition run (l : list CandidateShare) : outcome BuildError BuildSelectionResult :=
  build_block_selection_for_network "c0" l cfg {[1]} ∅ [] None.
Definition sel : BuiltBlockSelection := mkBuiltBlockSelection [a; c] 0 1 0 0 0 [1; 1] [true; true] [].
End BuilderDemo.

Lemma selection_sound_witness :
  BuilderDemo.run [BuilderDemo.b; BuilderDemo.c; BuilderDemo.a] = Ok (Built BuilderDemo.sel) /\
  NoDup (proofs [BuilderDemo.a; BuilderDemo.c]).
Proof.
  assert (H : BuilderDemo.run [BuilderDemo.b; BuilderDemo.c; BuilderDemo.a] = Ok (Built BuilderDemo.sel))
    by (vm_compute; reflexivity).
  split; [exact H|].
  exact (proj1 (proj2 (proj2 (proj2 (selection_sound _ _ _ _ _ _ _ _ H))))).
Defined.

Lemma selection_optimal_witness :
  (exists s', s' <> BuilderDemo.b /\ cs_canon_hash s' = cs_canon_hash BuilderDemo.b /\ ranks s' BuilderDemo.b) \/
  (exists top, len top = 2 /\ BuilderDemo.b ∉ top /\ Forall (fun s' => ranks s' BuilderDemo.b) top).
Proof.
  assert (H : BuilderDemo.run [BuilderDemo.b; BuilderDemo.c; BuilderDemo.a] = Ok (Built BuilderDemo.sel))
    by (vm_compute; reflexivity).
  destruct (selection_optimal _ _ _ _ _ _ _ _ BuilderDemo.b H)
    as [(s' & _ & H2 & _ & _ & H3 & H4)|(top & H1 & _ & _ & H4 & H5)].
  - left.
  - vm_compute. reflexivity.
  - apply (bool_decide_unpack _). vm_compute. exact I.
  - apply (bool_decide_unpack _). vm_compute. exact I.
  - left. exists s'. exact (conj H2 (conj H3 H4)).
  - right. exists top. exact (conj H1 (conj H4 H5)).
Defined.

Lemma selection_order_independent_witness :
  BuilderDemo.run [BuilderDemo.b; BuilderDemo.c; BuilderDemo.a] =
  BuilderDemo.run [BuilderDemo.a; BuilderDemo.b; BuilderDemo.c].
Proof.
  apply (selection_order_independent "c0" [BuilderDemo.b; BuilderDemo.c; BuilderDemo.a]).
  - apply (Permutation_app_comm [BuilderDemo.b; BuilderDemo.c] [BuilderDemo.a]).
  - apply (bool_decide_unpack _). vm_compute. exact I.
Defined.
