(* ===== verification/FamilyManifest.v ===== *)
(** * Family manifests (family_manifest.rs, family_manifest_registry.rs)

    The signed description of a bounty family: its hashes, resource limits,
    reward policy, activation and caps. The parser reads a JSON value and
    answers with the first reason that disqualifies it; the registry keys
    manifests by family and commits to the whole set. *)

From S2P Require Import Prelude Json Externals Hash SignedEnvelope.

Definition HEX32_FIELDS : list string :=
  ["generatorHash"; "verifierHash"; "canonicalizerHash"; "promptSpecHash"; "calibrationReportHash";
   "testVectorsHash"].

Record FamilyCaps := mkFamilyCaps {
  fc_max_shares_per_block : N;
  fc_max_score_multiplier_bps : N;
  fc_max_reward_credit_per_block : string
}.

Record FamilyResourceLimits := mkFamilyResourceLimits {
  fl_max_proof_bytes : N;
  fl_verify_timeout_ms : N;
  fl_max_decls : N;
  fl_max_heartbeats : N;
  fl_max_rec_depth : N
}.

Record FamilyRewardPolicy := mkFamilyRewardPolicy {
  fr_mode : string;
  fr_max_block_reward_share_bps : N
}.

Record FamilyManifest := mkFamilyManifest {
  fm_version : string;
  fm_family_id : string;
  fm_generator_hash : string;
  fm_verifier_hash : string;
  fm_canonicalizer_hash : string;
  fm_prompt_spec_hash : string;
  fm_calibration_report_hash : string;
  fm_test_vectors_hash : string;
  fm_resource_limits : FamilyResourceLimits;
  fm_reward_policy : FamilyRewardPolicy;
  fm_activation_height : N;
  fm_status : string;
  fm_caps : option FamilyCaps;
  fm_signature : option string
}.

(** ** The serde form *)

Definition u64_value (n : N) : Value := VNumber (PosInt n).

Definition caps_value (c : FamilyCaps) : Value :=
  VObject [("maxSharesPerBlock", u64_value (fc_max_shares_per_block c));
           ("maxScoreMultiplierBps", u64_value (fc_max_score_multiplier_bps c));
           ("maxRewardCreditPerBlock", VString (fc_max_reward_credit_per_block c))].

Definition limits_value (l : FamilyResourceLimits) : Value :=
  VObject [("maxProofBytes", u64_value (fl_max_proof_bytes l));
           ("verifyTimeoutMs", u64_value (fl_verify_timeout_ms l));
           ("maxDecls", u64_value (fl_max_decls l));
           ("maxHeartbeats", u64_value (fl_max_heartbeats l));
           ("maxRecDepth", u64_value (fl_max_rec_depth l))].

Definition reward_policy_value (p : FamilyRewardPolicy) : Value :=
  VObject [("mode", VString (fr_mode p)); ("maxBlockRewardShareBps", u64_value (fr_max_block_reward_share_bps p))].

(** [skip_serializing_if = "Option::is_none"]. *)
Definition optional_field {A} (name : string) (f : A -> Value) (x : option A) : list (string * Value) :=
  match x with Some a => [(name, f a)] | None => [] end.

Definition manifest_value (m : FamilyManifest) : Value :=
  VObject ([("version", VString (fm_version m));
            ("familyId", VString (fm_family_id m));
            ("generatorHash", VString (fm_generator_hash m));
            ("verifierHash", VString (fm_verifier_hash m));
            ("canonicalizerHash", VString (fm_canonicalizer_hash m));
            ("promptSpecHash", VString (fm_prompt_spec_hash m));
            ("calibrationReportHash", VString (fm_calibration_report_hash m));
            ("testVectorsHash", VString (fm_test_vectors_hash m));
            ("resourceLimits", limits_value (fm_resource_limits m));
            ("rewardPolicy", reward_policy_value (fm_reward_policy m));
            ("activationHeight", u64_value (fm_activation_height m));
            ("status", VString (fm_status m))]
           ++ optional_field "caps" caps_value (fm_caps m)
           ++ optional_field "signature" VString (fm_signature m)).

(** ** Parsing *)

(** The fields of an object. *)
Definition as_object (v : Value) : option (list (string * Value)) :=
  match v with VObject m => Some m | _ => None end.

Definition str_field (obj : list (string * Value)) (name : string) : option string :=
  match assoc name obj with Some v => as_str v | None => None end.

Definition u64_field (obj : list (string * Value)) (name : string) : option N :=
  match assoc name obj with Some v => as_u64 v | None => None end.

Definition object_field (obj : list (string * Value)) (name : string) : option (list (string * Value)) :=
  match assoc name obj with Some v => as_object v | None => None end.

Definition positive_u64 (value : option Value) : option N :=
  match value with
  | Some v => match as_u64 v with Some n => if 0 <? n then Some n else None | None => None end
  | None => None
  end.

Definition is_one_of (options : list string) (s : string) : bool := existsb (String.eqb s) options.

Definition REWARD_MODES : list string := ["no_protocol_reward"; "capped_bonus"].
Definition FAMILY_STATUSES : list string :=
  ["draft"; "bounty-only"; "experimental"; "capped-official"; "official"; "deprecated"].

Definition parse_caps (value : option Value) : outcome string (option FamilyCaps) :=
  match value with
  | None => Ok None
  | Some raw =>
      let* obj := ok_or (as_object raw) "bad_caps" in
      let* max_shares_per_block := ok_or (u64_field obj "maxSharesPerBlock") "bad_caps:maxSharesPerBlock" in
      let* max_score_multiplier_bps :=
        ok_or (u64_field obj "maxScoreMultiplierBps") "bad_caps:maxScoreMultiplierBps" in
      do* ensure (max_score_multiplier_bps <=? 100000) "bad_caps:maxScoreMultiplierBps";
      let* max_reward := ok_or (str_field obj "maxRewardCreditPerBlock") "bad_caps:maxRewardCreditPerBlock" in
      do* ok_or (parse_uint u128_max max_reward) "bad_caps:maxRewardCreditPerBlock";
      Ok (Some (mkFamilyCaps max_shares_per_block max_score_multiplier_bps max_reward))
  end.

Section FamilyManifest.
Context {X : Externals}.

Definition parse_signature (value : option Value) : outcome string (option string) :=
  match value with
  | None => Ok None
  | Some raw =>
      let* s := ok_or (as_str raw) "bad_signature" in
      do* map_err (fun _ => "bad_signature") (hex64_from_hex s);
      Ok (Some s)
  end.

(** One turn of the loop over [HEX32_FIELDS]. *)
Definition check_hex32_field (obj : list (string * Value)) (field : string) : outcome string unit :=
  let* s := ok_or (str_field obj field) ("missing_field:" +:+ field) in
  do* map_err (fun _ => "bad_hex32:" +:+ field) (hex32_from_hex s);
  Ok tt.

Definition parse_limits (obj : list (string * Value)) : outcome string FamilyResourceLimits :=
  let* rl := ok_or (object_field obj "resourceLimits") "missing_field:resourceLimits" in
  let* max_proof_bytes := ok_or (positive_u64 (assoc "maxProofBytes" rl)) "bad_resource_limit:maxProofBytes" in
  let* verify_timeout_ms := ok_or (positive_u64 (assoc "verifyTimeoutMs" rl)) "bad_resource_limit:verifyTimeoutMs" in
  let* max_decls := ok_or (positive_u64 (assoc "maxDecls" rl)) "bad_resource_limit:maxDecls" in
  let* max_heartbeats := ok_or (positive_u64 (assoc "maxHeartbeats" rl)) "bad_resource_limit:maxHeartbeats" in
  let* max_rec_depth := ok_or (positive_u64 (assoc "maxRecDepth" rl)) "bad_resource_limit:maxRecDepth" in
  Ok (mkFamilyResourceLimits max_proof_bytes verify_timeout_ms max_decls max_heartbeats max_rec_depth).

Definition parse_reward_policy (obj : list (string * Value)) : outcome string FamilyRewardPolicy :=
  let* rp := ok_or (object_field obj "rewardPolicy") "missing_field:rewardPolicy" in
  let* mode := ok_or (str_field rp "mode") "bad_mode" in
  do* ensure (is_one_of REWARD_MODES mode) "bad_mode";
  let* bps := ok_or (u64_field rp "maxBlockRewardShareBps") "bad_bps" in
  do* ensure (bps <=? 10000) "bad_bps";
  do* ensure (negb (String.eqb mode "no_protocol_reward" && negb (bps =? 0))) "bad_bps";
  Ok (mkFamilyRewardPolicy mode bps).

Definition check_version (obj : list (string * Value)) : outcome string unit :=
  match assoc "version" obj with
  | None => Err "missing_field:version"
  | Some (VString "1") => Ok tt
  | Some _ => Err "bad_version"
  end.

(** The closure [get]: its [unwrap] aborts when the field is not a text. *)
Definition get_text (obj : list (string * Value)) (field : string) : outcome string string :=
  expect (str_field obj field).

Definition parse_family_manifest (input : Value) : outcome string FamilyManifest :=
  let* obj := ok_or (as_object input) "bad_json" in
  do* check_version obj;
  let* family_id := ok_or (str_field obj "familyId") "missing_field:familyId" in
  do* ensure (negb (str_is_empty family_id)) "missing_field:familyId";
  do* ofold (fun _ field => check_hex32_field obj field) tt HEX32_FIELDS;
  let* resource_limits := parse_limits obj in
  let* reward_policy := parse_reward_policy obj in
  let* activation_height := ok_or (u64_field obj "activationHeight") "bad_activation_height" in
  let* status := ok_or (str_field obj "status") "bad_status" in
  do* ensure (is_one_of FAMILY_STATUSES status) "bad_status";
  let* caps := parse_caps (assoc "caps" obj) in
  let* signature := parse_signature (assoc "signature" obj) in
  let* generator_hash := get_text obj "generatorHash" in
  let* verifier_hash := get_text obj "verifierHash" in
  let* canonicalizer_hash := get_text obj "canonicalizerHash" in
  let* prompt_spec_hash := get_text obj "promptSpecHash" in
  let* calibration_report_hash := get_text obj "calibrationReportHash" in
  let* test_vectors_hash := get_text obj "testVectorsHash" in
  Ok (mkFamilyManifest "1" family_id generator_hash verifier_hash canonicalizer_hash prompt_spec_hash
        calibration_report_hash test_vectors_hash resource_limits reward_policy activation_height status
        caps signature).

(** ** Signature *)

Inductive ManifestSignatureError :=
| ManifestUnsigned
| ManifestSignatureFailed (e : EnvelopeError).

Definition unsigned (m : FamilyManifest) : FamilyManifest :=
  mkFamilyManifest (fm_version m) (fm_family_id m) (fm_generator_hash m) (fm_verifier_hash m)
    (fm_canonicalizer_hash m) (fm_prompt_spec_hash m) (fm_calibration_report_hash m) (fm_test_vectors_hash m)
    (fm_resource_limits m) (fm_reward_policy m) (fm_activation_height m) (fm_status m) (fm_caps m) None.

Definition verify_family_manifest_signature (pk_hex : string) (manifest : FamilyManifest)
    : outcome ManifestSignatureError bool :=
  let* sig_hex := ok_or (fm_signature manifest) ManifestUnsigned in
  map_err ManifestSignatureFailed (verify_signature pk_hex sig_hex (manifest_value (unsigned manifest))).

(** ** Registry *)

Record FamilyManifestRegistry := mkRegistry { by_id : gmap string FamilyManifest }.

Definition registry_new : FamilyManifestRegistry := mkRegistry ∅.

Definition register (r : FamilyManifestRegistry) (manifest : FamilyManifest) : FamilyManifestRegistry :=
  mkRegistry (<[fm_family_id manifest := manifest]> (by_id r)).

Definition registry_get (r : FamilyManifestRegistry) (family_id : string) : option FamilyManifest :=
  by_id r !! family_id.

(** [iter]: the manifests in ascending order of their family. *)
Definition registry_iter (r : FamilyManifestRegistry) : list FamilyManifest := (btree_iter (by_id r)).*2.

Definition registry_len (r : FamilyManifestRegistry) : N := N.of_nat (size (by_id r)).

Definition registry_canonical_bytes (r : FamilyManifestRegistry) : list byte :=
  canonicalize (VArray (map manifest_value (registry_iter r))).

Definition registry_root (r : FamilyManifestRegistry) : Hex32 := blake3 (registry_canonical_bytes r).

End FamilyManifest.

(** ** Parsed manifests are exactly the well-formed ones *)

Definition caps_ok (c : FamilyCaps) : bool :=
  (fc_max_score_multiplier_bps c <=? 100000)
  && bool_decide (is_Some (parse_uint u128_max (fc_max_reward_credit_per_block c))).

Definition limits_ok (l : FamilyResourceLimits) : bool :=
  (0 <? fl_max_proof_bytes l) && (0 <? fl_verify_timeout_ms l) && (0 <? fl_max_decls l)
  && (0 <? fl_max_heartbeats l) && (0 <? fl_max_rec_depth l).

Definition policy_ok (p : FamilyRewardPolicy) : bool :=
  is_one_of REWARD_MODES (fr_mode p) && (fr_max_block_reward_share_bps p <=? 10000)
  && negb (String.eqb (fr_mode p) "no_protocol_reward" && negb (fr_max_block_reward_share_bps p =? 0)).

Definition on_some {A} (p : A -> bool) (x : option A) : bool := match x with Some a => p a | None => true end.

Section FamilyManifestFacts.
Context {X : Externals}.

Definition manifest_ok (m : FamilyManifest) : bool :=
  String.eqb (fm_version m) "1" && negb (str_is_empty (fm_family_id m))
  && (is_hex32_text (fm_generator_hash m) && is_hex32_text (fm_verifier_hash m)
      && is_hex32_text (fm_canonicalizer_hash m) && is_hex32_text (fm_prompt_spec_hash m)
      && is_hex32_text (fm_calibration_report_hash m) && is_hex32_text (fm_test_vectors_hash m))
  && limits_ok (fm_resource_limits m) && policy_ok (fm_reward_policy m)
  && is_one_of FAMILY_STATUSES (fm_status m) && on_some caps_ok (fm_caps m)
  && on_some (fun s => is_ok (hex64_from_hex s)) (fm_signature m).

Lemma positive_u64_Some v n : positive_u64 v = Some n -> (0 <? n) = true.
Proof. unfold positive_u64. intros H. by repeat case_match; simplify_eq. Qed.

Lemma parse_caps_ok v c : parse_caps v = Ok c -> on_some caps_ok c = true.
Proof.
  unfold parse_caps. destruct v; [|by intros [= <-]]. intros H. run_inv H. injection H as <-.
  cbn [on_some]. unfold caps_ok. cbn [fc_max_score_multiplier_bps fc_max_reward_credit_per_block].
  apply andb_true_intro. split; [assumption|]. apply bool_decide_eq_true_2. by eexists.
Qed.

Lemma parse_signature_ok v s :
  parse_signature v = Ok s -> on_some (fun s => is_ok (hex64_from_hex s)) s = true.
Proof.
  unfold parse_signature. destruct v; [|by intros [= <-]]. intros H. run_inv H. injection H as <-.
  cbn [on_some]. by rewrite E1.
Qed.

Lemma parse_limits_ok obj l : parse_limits obj = Ok l -> limits_ok l = true.
Proof.
  unfold parse_limits. intros H. run_inv H. injection H as <-. unfold limits_ok.
  cbn [fl_max_proof_bytes fl_verify_timeout_ms fl_max_decls fl_max_heartbeats fl_max_rec_depth].
  repeat match goal with H : positive_u64 _ = Some _ |- _ => apply positive_u64_Some in H; rewrite H; clear H end.
  done.
Qed.

Lemma parse_reward_policy_ok obj p : parse_reward_policy obj = Ok p -> policy_ok p = true.
Proof.
  unfold parse_reward_policy. intros H. run_inv H. injection H as <-. unfold policy_ok.
  cbn [fr_mode fr_max_block_reward_share_bps]. repeat (apply andb_true_intro; split); assumption.
Qed.

Lemma check_hex32_field_Ok obj f : check_hex32_field obj f = Ok tt ->
  exists s, str_field obj f = Some s /\ is_hex32_text s = true.
Proof.
  unfold check_hex32_field. intros H. run_inv H. exists a. split; [done|]. unfold is_hex32_text. by rewrite E1.
Qed.

(** The loop over the hash fields checks each of them. *)
Lemma hex32_fields_Ok obj fields : ofold (fun _ f => check_hex32_field obj f) tt fields = Ok tt ->
  Forall (fun f => exists s, str_field obj f = Some s /\ is_hex32_text s = true) fields.
Proof.
  induction fields as [|f fields IH]; intros H; [constructor|]. cbn [ofold] in H.
  destruct (check_hex32_field obj f) as [[]| |] eqn:E; try discriminate H.
  constructor; [by apply check_hex32_field_Ok|by apply IH].
Qed.

Lemma parse_family_manifest_ok v m : parse_family_manifest v = Ok m -> manifest_ok m = true.
Proof.
  unfold parse_family_manifest. intros H. run_inv H.
  match goal with H : ofold _ _ _ = Ok ?u |- _ => destruct u; apply hex32_fields_Ok in H;
    unfold HEX32_FIELDS in H; rewrite !Forall_cons in H; destruct H as (?&?&?&?&?&?&_) end.
  unfold get_text in *.
  repeat match goal with
  | H : expect (str_field ?o ?f) = Ok _, K : exists s, str_field ?o ?f = Some s /\ _ |- _ =>
      let s := fresh "s" in let K1 := fresh in let K2 := fresh in
      destruct K as (s & K1 & K2); rewrite K1 in H; injection H as <-
  end.
  apply parse_limits_ok in E4. apply parse_reward_policy_ok in E5. apply parse_caps_ok in E6.
  apply parse_signature_ok in E10. injection H as <-. unfold manifest_ok.
  cbn [fm_version fm_family_id fm_generator_hash fm_verifier_hash fm_canonicalizer_hash fm_prompt_spec_hash
       fm_calibration_report_hash fm_test_vectors_hash fm_resource_limits fm_reward_policy fm_status fm_caps
       fm_signature].
  rewrite !andb_true_iff. split_and!; assumption || reflexivity.
Qed.

Lemma parse_family_manifest_total v : parse_family_manifest v <> Panic.
Proof.
  unfold parse_family_manifest. destruct (as_object v) as [obj|]; [|done]. cbn [ok_or obind].
  assert (Hc : check_version obj <> Panic) by (unfold check_version; repeat case_match; done).
  destruct (check_version obj); [cbn [obind]|done..]. destruct (str_field obj "familyId"); [cbn [ok_or obind]|done].
  destruct (ensure _ _) as [[]| |] eqn:He; [cbn [obind]|done|by unfold ensure in He; case_match].
  destruct (ofold _ _ _) as [[]| |] eqn:Hf; [|done|].
  2: { exfalso. apply (ofold_no_panic (fun _ => True) (fun _ f => check_hex32_field obj f) HEX32_FIELDS) in Hf; [done| |done].
       intros _ f _ _. split; [|done]. unfold check_hex32_field. total_tac. }
  apply hex32_fields_Ok in Hf. unfold HEX32_FIELDS in Hf. rewrite !Forall_cons in Hf.
  destruct Hf as ((s1&E1&_)&(s2&E2&_)&(s3&E3&_)&(s4&E4&_)&(s5&E5&_)&(s6&E6&_)&_).
  unfold get_text, parse_limits, parse_reward_policy, parse_caps, parse_signature. rewrite E1, E2, E3, E4, E5, E6.
  cbn [expect obind]. total_tac.
Qed.

Lemma positive_u64_value n : (0 <? n) = true -> positive_u64 (Some (u64_value n)) = Some n.
Proof. unfold positive_u64. cbn [as_u64 u64_value]. by intros ->. Qed.

Lemma parse_limits_value obj l : assoc "resourceLimits" obj = Some (limits_value l) -> limits_ok l = true ->
  parse_limits obj = Ok l.
Proof.
  unfold parse_limits, object_field, limits_ok. intros -> H. rewrite !andb_true_iff in H.
  destruct H as [[[[H1 H2] H3] H4] H5]. destruct l. cbn [as_object limits_value ok_or obind].
  unfold limits_value. cbn in *. by rewrite H1, H2, H3, H4, H5.
Qed.

Lemma parse_reward_policy_value obj p : assoc "rewardPolicy" obj = Some (reward_policy_value p) -> policy_ok p = true ->
  parse_reward_policy obj = Ok p.
Proof.
  unfold parse_reward_policy, object_field, policy_ok. intros -> H. rewrite !andb_true_iff in H.
  destruct H as [[H1 H2] H3]. destruct p as [mode bps].
  change (as_object (reward_policy_value _)) with
    (Some [("mode", VString mode); ("maxBlockRewardShareBps", u64_value bps)]).
  cbn [ok_or obind]. change (str_field _ "mode") with (Some mode).
  change (u64_field _ "maxBlockRewardShareBps") with (Some bps).
  cbn [ok_or obind fr_mode fr_max_block_reward_share_bps] in *. by rewrite H1, H2, H3.
Qed.

Lemma parse_caps_value c : on_some caps_ok c = true -> parse_caps (caps_value <$> c) = Ok c.
Proof.
  destruct c as [[shares bps reward]|]; [|done]. cbn [on_some]. unfold caps_ok. intros [H1 [r H2]%bool_decide_eq_true]%andb_true_iff.
  cbn [fc_max_score_multiplier_bps fc_max_reward_credit_per_block] in *.
  unfold parse_caps. cbn. by rewrite H1, H2.
Qed.

Lemma parse_signature_value s : on_some (fun s => is_ok (hex64_from_hex s)) s = true ->
  parse_signature (VString <$> s) = Ok s.
Proof.
  destruct s as [s|]; [|done]. cbn [on_some]. intros [b Hb]%is_ok_Ok.
  unfold parse_signature. cbn [fmap option_fmap option_map as_str ok_or obind]. by rewrite Hb.
Qed.

Lemma assoc_caps m : assoc "caps" (default [] (as_object (manifest_value m))) = caps_value <$> fm_caps m.
Proof. unfold manifest_value. cbn [as_object]. by destruct (fm_caps m), (fm_signature m). Qed.

Lemma assoc_signature m : assoc "signature" (default [] (as_object (manifest_value m))) = VString <$> fm_signature m.
Proof. unfold manifest_value. cbn [as_object]. by destruct (fm_caps m), (fm_signature m). Qed.

Lemma parse_manifest_value m : manifest_ok m = true -> parse_family_manifest (manifest_value m) = Ok m.
Proof.
  unfold manifest_ok. rewrite !andb_true_iff. intros H.
  destruct H as [[[[[[[Hv Hid] [[[[[H1 H2] H3] H4] H5] H6]] Hl] Hp] Hs] Hc] Hg].
  unfold parse_family_manifest. set (obj := default [] (as_object (manifest_value m))).
  change (as_object (manifest_value m)) with (Some obj). cbn [ok_or obind].
  assert (Hver : check_version obj = Ok tt).
  { unfold check_version. change (assoc "version" obj) with (Some (VString (fm_version m))).
    apply String.eqb_eq in Hv. by rewrite Hv. }
  rewrite Hver. cbn [obind]. change (str_field obj "familyId") with (Some (fm_family_id m)).
  cbn [ok_or obind]. rewrite Hid. cbn [ensure obind].
  assert (Hhex : forall f s, str_field obj f = Some s -> is_hex32_text s = true -> check_hex32_field obj f = Ok tt).
  { intros f s Hf [b Hb]%is_ok_Ok. unfold check_hex32_field. rewrite Hf. cbn [ok_or obind]. by rewrite Hb. }
  unfold HEX32_FIELDS. cbn [ofold].
  rewrite (Hhex "generatorHash" _ eq_refl H1), (Hhex "verifierHash" _ eq_refl H2),
    (Hhex "canonicalizerHash" _ eq_refl H3), (Hhex "promptSpecHash" _ eq_refl H4),
    (Hhex "calibrationReportHash" _ eq_refl H5), (Hhex "testVectorsHash" _ eq_refl H6).
  rewrite (parse_limits_value obj (fm_resource_limits m) eq_refl Hl),
    (parse_reward_policy_value obj (fm_reward_policy m) eq_refl Hp). cbn [obind].
  change (u64_field obj "activationHeight") with (Some (fm_activation_height m)).
  change (str_field obj "status") with (Some (fm_status m)). cbn [ok_or obind]. rewrite Hs. cbn [ensure obind].
  rewrite (assoc_caps m : assoc "caps" obj = _), (parse_caps_value _ Hc).
  rewrite (assoc_signature m : assoc "signature" obj = _), (parse_signature_value _ Hg).
  apply String.eqb_eq in Hv. rewrite <- Hv. by destruct m.
Qed.

End FamilyManifestFacts.

(** ** Registry invariant *)

(** Every manifest is stored under its own family. *)
Definition keyed (r : FamilyManifestRegistry) : Prop :=
  map_Forall (fun k m => fm_family_id m = k) (by_id r).

Lemma registry_new_keyed : keyed registry_new.
Proof. apply map_Forall_empty. Qed.

Lemma register_keyed r m : keyed r -> keyed (register r m).
Proof. intros H. unfold keyed, register. cbn [by_id]. by apply map_Forall_insert_2. Qed.

Lemma registry_iter_elem r m : keyed r -> m ∈ registry_iter r <-> registry_get r (fm_family_id m) = Some m.
Proof.
  intros Hk. unfold registry_iter, registry_get. rewrite list_elem_of_fmap. split.
  - intros ([k m'] & -> & Hin). apply elem_of_btree_iter in Hin. cbn [snd]. by rewrite (Hk _ _ Hin).
  - intros H. exists (fm_family_id m, m). split; [done|]. by apply elem_of_btree_iter.
Qed.

Lemma manifest_plain m : json_plain (manifest_value m).
Proof.
  unfold manifest_value, u64_value. destruct m as [? ? ? ? ? ? ? ? l p ? ? c s].
  constructor. cbn. repeat constructor; destruct c, s; repeat constructor.
Qed.

(** The serde form with its keys in order. *)
Definition sorted_caps (c : FamilyCaps) : Value :=
  VObject [("maxRewardCreditPerBlock", VString (fc_max_reward_credit_per_block c));
           ("maxScoreMultiplierBps", u64_value (fc_max_score_multiplier_bps c));
           ("maxSharesPerBlock", u64_value (fc_max_shares_per_block c))].

Definition sorted_limits (l : FamilyResourceLimits) : Value :=
  VObject [("maxDecls", u64_value (fl_max_decls l)); ("maxHeartbeats", u64_value (fl_max_heartbeats l));
           ("maxProofBytes", u64_value (fl_max_proof_bytes l)); ("maxRecDepth", u64_value (fl_max_rec_depth l));
           ("verifyTimeoutMs", u64_value (fl_verify_timeout_ms l))].

Definition sorted_policy (p : FamilyRewardPolicy) : Value :=
  VObject [("maxBlockRewardShareBps", u64_value (fr_max_block_reward_share_bps p)); ("mode", VString (fr_mode p))].

Definition sorted_manifest (m : FamilyManifest) : list (string * Value) :=
  [("activationHeight", u64_value (fm_activation_height m));
   ("calibrationReportHash", VString (fm_calibration_report_hash m));
   ("canonicalizerHash", VString (fm_canonicalizer_hash m))]
  ++ optional_field "caps" sorted_caps (fm_caps m)
  ++ [("familyId", VString (fm_family_id m));
      ("generatorHash", VString (fm_generator_hash m));
      ("promptSpecHash", VString (fm_prompt_spec_hash m));
      ("resourceLimits", sorted_limits (fm_resource_limits m));
      ("rewardPolicy", sorted_policy (fm_reward_policy m))]
  ++ optional_field "signature" VString (fm_signature m)
  ++ [("status", VString (fm_status m));
      ("testVectorsHash", VString (fm_test_vectors_hash m));
      ("verifierHash", VString (fm_verifier_hash m));
      ("version", VString (fm_version m))].

Lemma manifest_sorted m : sort_keys (manifest_value m) = VObject (sorted_manifest m).
Proof. destruct m as [? ? ? ? ? ? ? ? l p ? ? [c|] [s|]]; vm_compute; reflexivity. Qed.

(** The fields, read back from the sorted entries. *)
Definition sorted_fields (l : list (string * Value)) :=
  (assoc "version" l, assoc "familyId" l, assoc "generatorHash" l, assoc "verifierHash" l, assoc "canonicalizerHash" l,
   assoc "promptSpecHash" l, assoc "calibrationReportHash" l, assoc "testVectorsHash" l, assoc "resourceLimits" l,
   assoc "rewardPolicy" l, assoc "activationHeight" l, assoc "status" l, assoc "caps" l, assoc "signature" l).

Lemma sorted_fields_manifest m : sorted_fields (sorted_manifest m) =
  (Some (VString (fm_version m)), Some (VString (fm_family_id m)), Some (VString (fm_generator_hash m)),
   Some (VString (fm_verifier_hash m)), Some (VString (fm_canonicalizer_hash m)), Some (VString (fm_prompt_spec_hash m)),
   Some (VString (fm_calibration_report_hash m)), Some (VString (fm_test_vectors_hash m)),
   Some (sorted_limits (fm_resource_limits m)), Some (sorted_policy (fm_reward_policy m)),
   Some (u64_value (fm_activation_height m)), Some (VString (fm_status m)),
   sorted_caps <$> fm_caps m, VString <$> fm_signature m).
Proof. destruct m as [? ? ? ? ? ? ? ? l p ? ? [c|] [s|]]; vm_compute; reflexivity. Qed.

Lemma manifest_sort_inj m n : sort_keys (manifest_value m) = sort_keys (manifest_value n) -> m = n.
Proof.
  rewrite !manifest_sorted. intros H.
  apply (f_equal (fun v => match v with VObject l => sorted_fields l | _ => sorted_fields [] end)) in H.
  cbv beta iota in H. rewrite !sorted_fields_manifest in H.
  destruct m as [? ? ? ? ? ? ? ? [] [] ? ? c s], n as [? ? ? ? ? ? ? ? [] [] ? ? c' s'].
  unfold sorted_limits, sorted_policy, u64_value in H.
  cbn [fm_version fm_family_id fm_generator_hash fm_verifier_hash fm_canonicalizer_hash fm_prompt_spec_hash
       fm_calibration_report_hash fm_test_vectors_hash fm_resource_limits fm_reward_policy fm_activation_height
       fm_status fm_caps fm_signature fl_max_proof_bytes fl_verify_timeout_ms fl_max_decls fl_max_heartbeats
       fl_max_rec_depth fr_mode fr_max_block_reward_share_bps] in H.
  simplify_eq. f_equal.
  - destruct c as [[]|], c' as [[]|]; by simplify_eq/=.
  - destruct s, s'; by simplify_eq/=.
Qed.

#[export] Instance manifest_sort_injective : Inj (=) (=) (fun m => sort_keys (manifest_value m)).
Proof. intros m n. apply manifest_sort_inj. Qed.

(** ** Theorems *)

(** The manifest parser always answers; it accepts the serialized form of
    a manifest exactly when the manifest is well formed, giving it back; and
    whatever document it accepts, the manifest it returns is well formed. *)
Theorem family_manifest_exact {X : Externals} :
  (forall v, parse_family_manifest v <> Panic) /\
  (forall m, parse_family_manifest (manifest_value m) = Ok m <-> manifest_ok m = true) /\
  (forall v m, parse_family_manifest v = Ok m -> manifest_ok m = true).
Proof.
  split; [exact parse_family_manifest_total|]. split; [|exact parse_family_manifest_ok].
  intros m. split; [apply parse_family_manifest_ok|apply parse_manifest_value].
Qed.

(** The bytes behind the registry root commit every manifest in full: two
    registries have the same bytes exactly when they hold the same
    manifests. *)
Theorem registry_bytes_commit {X : Externals} {L : ExternalsLaws X} r r' : keyed r -> keyed r' ->
  registry_canonical_bytes r = registry_canonical_bytes r' <-> by_id r = by_id r'.
Proof.
  intros Hk Hk'. split; [|intros E; unfold registry_canonical_bytes, registry_iter; by rewrite E].
  unfold registry_canonical_bytes, canonicalize. intros E.
  apply serde_to_vec_inj in E;
    [|apply sort_keys_plain; constructor; apply Forall_fmap, Forall_forall; intros; apply manifest_plain..].
  cbn [sort_keys] in E. injection E as E. rewrite !map_map in E.
  assert (Hi : registry_iter r = registry_iter r').
  { apply (inj (fmap (fun m => sort_keys (manifest_value m)))). exact E. }
  apply map_eq. intros k. apply option_eq. intros m.
  pose proof (registry_iter_elem r m Hk) as H1. pose proof (registry_iter_elem r' m Hk') as H2.
  rewrite Hi in H1. unfold registry_get in *. split; intros Hm.
  - pose proof (Hk _ _ Hm) as Ek. cbn in Ek. subst k. by apply H2, H1.
  - pose proof (Hk' _ _ Hm) as Ek. cbn in Ek. subst k. by apply H1, H2.
Qed.

(** ** Witness *)

From S2P Require Import Concrete.

Module ManifestDemo.
Definition zeros : string := repeat_char "0" 64.
Definition limits : FamilyResourceLimits := mkFamilyResourceLimits 65536 30000 64 200000 512.
Definition manifest (id mode : string) (bps : N) (caps : option FamilyCaps) : FamilyManifest :=
  mkFamilyManifest "1" id zeros zeros zeros zeros zeros zeros limits (mkFamilyRewardPolicy mode bps) 0 "official"
    caps None.
Definition paid : FamilyManifest := manifest "fam" "capped_bonus" 100 (Some (mkFamilyCaps 2 10000 "5")).
Definition registry : FamilyManifestRegistry := register registry_new paid.
End ManifestDemo.

Lemma registry_bytes_commit_witness :
  registry_canonical_bytes ManifestDemo.registry <> registry_canonical_bytes registry_new.
Proof.
  intros E. apply (registry_bytes_commit ManifestDemo.registry registry_new) in E.
  - apply (f_equal (fun m : gmap string FamilyManifest => m !! "fam")) in E.
    change (by_id ManifestDemo.registry) with (<["fam" := ManifestDemo.paid]> (∅ : gmap string FamilyManifest)) in E.
    rewrite lookup_insert_eq in E. change (by_id registry_new) with (∅ : gmap string FamilyManifest) in E.
    rewrite lookup_empty in E. discriminate E.
  - apply register_keyed, registry_new_keyed.
  - apply registry_new_keyed.
Defined.
