(* ===== verification/Bounty.v ===== *)
(** * The bounty lane (bounty_side_pool.rs, bounty_promotion.rs)

    Verified bounty shares wait in a side pool, one bucket per family. The
    proposer promotes shares of activated families into a block; the credits
    of the promoted rows are derived by one settlement function that producer
    and replay share. *)

From S2P Require Import Prelude Json Externals Hash SignedEnvelope Block FamilyManifest.

(** ** Side pool *)

Record BountyShare := mkBountyShare {
  bty_bounty_id : string;
  bty_proof_hash : string;
  bty_prover : string;
  bty_family_id : string;
  bty_ts : N;
  bty_reward : N
}.

Record BountySidePool := mkBountySidePool { by_family : gmap string (list BountyShare) }.

Definition side_pool_new : BountySidePool := mkBountySidePool ∅.

Definition shares_for_family (p : BountySidePool) (family_id : string) : list BountyShare :=
  default [] (by_family p !! family_id).

Definition side_pool_insert (p : BountySidePool) (share : BountyShare) : BountySidePool :=
  mkBountySidePool
    (<[bty_family_id share := shares_for_family p (bty_family_id share) ++ [share]]> (by_family p)).

Definition family_count (p : BountySidePool) : N := N.of_nat (size (by_family p)).

Definition total_share_count (p : BountySidePool) : N :=
  fold_right (fun l n => len l + n) 0 (map_to_list (by_family p)).*2.

(** The share is the one the promoted row names. *)
Definition is_entry (entry : PromotedBountyShare) (share : BountyShare) : bool :=
  String.eqb (bty_bounty_id share) (pbs_bounty_id entry) && String.eqb (bty_proof_hash share) (pbs_proof_hash entry).

(** One turn of the loop of [remove_promoted]: the pool and the count. *)
Definition remove_entry (st : BountySidePool * N) (entry : PromotedBountyShare) : BountySidePool * N :=
  let '(p, removed) := st in
  match by_family p !! pbs_family_id entry with
  | None => st
  | Some bucket =>
      let bucket' := List.filter (fun s => negb (is_entry entry s)) bucket in
      (mkBountySidePool
         (match bucket' with
          | [] => delete (pbs_family_id entry) (by_family p)
          | _ => <[pbs_family_id entry := bucket']> (by_family p)
          end),
       removed + (len bucket - len bucket'))
  end.

Definition remove_promoted (p : BountySidePool) (promoted : list PromotedBountyShare) : BountySidePool * N :=
  fold_left remove_entry promoted (p, 0).

(** ** Settlement *)

Definition SETTLEMENT_ELIGIBLE_STATUSES : list string :=
  ["bounty-only"; "experimental"; "capped-official"; "official"].

Definition settlement_eligible (manifest : FamilyManifest) (height : N) : bool :=
  (fm_activation_height manifest <=? height) && is_one_of SETTLEMENT_ELIGIBLE_STATUSES (fm_status manifest).

Inductive SettlementError :=
| UnknownFamily
| FamilyNotEligible
| TooManyRows
| BadReward.

Definition max_rows (manifest : FamilyManifest) : N :=
  match fm_caps manifest with Some c => fc_max_shares_per_block c | None => 0 end.

(** The reward budget of a family in one block. *)
Definition reward_budget (manifest : FamilyManifest) : N :=
  match fm_caps manifest with
  | Some c => default 0 (parse_uint u128_max (fc_max_reward_credit_per_block c))
  | None => 0
  end.

Record Settlement := mkSettlement {
  st_credits : list PromotedBountyCredit;
  st_rows : gmap string N;
  st_budget : gmap string N
}.

(** One turn of the loop of [derive_bounty_settlement]. The row counter is a
    [u64]. *)
Definition settle_row (registry : FamilyManifestRegistry) (height : N) (st : Settlement) (share : PromotedBountyShare)
    : outcome SettlementError Settlement :=
  let* manifest := ok_or (registry_get registry (pbs_family_id share)) UnknownFamily in
  do* ensure (settlement_eligible manifest height) FamilyNotEligible;
  let family := fm_family_id manifest in
  let* seen := expect (checked_add u64_max (default 0 (st_rows st !! family)) 1) in
  do* ensure (seen <=? max_rows manifest) TooManyRows;
  let rows := <[family := seen]> (st_rows st) in
  let* reward := ok_or (parse_uint u128_max (pbs_reward share)) BadReward in
  if String.eqb (fr_mode (fm_reward_policy manifest)) "no_protocol_reward"
  then Ok (mkSettlement (st_credits st) rows (st_budget st))
  else
    let budget_left := default (reward_budget manifest) (st_budget st !! family) in
    let credit := N.min reward budget_left in
    if 0 <? credit
    then Ok (mkSettlement
               (st_credits st ++
                [mkPromotedBountyCredit (pbs_family_id share) (pbs_bounty_id share) (pbs_prover share) (to_decimal credit)])
               rows (<[family := budget_left - credit]> (st_budget st)))
    else Ok (mkSettlement (st_credits st) rows (<[family := budget_left]> (st_budget st))).

Definition derive_bounty_settlement (committed : list PromotedBountyShare) (registry : FamilyManifestRegistry)
    (height : N) : outcome SettlementError (list PromotedBountyCredit) :=
  let* st := ofold (settle_row registry height) (mkSettlement [] ∅ ∅) committed in
  Ok (st_credits st).

(** ** Promotion *)

Record PromotedBountySelection := mkPromotedBountySelection {
  ps_shares : list PromotedBountyShare;
  ps_credits : list PromotedBountyCredit
}.

Definition promoted_row (share : BountyShare) : PromotedBountyShare :=
  mkPromotedBountyShare (bty_family_id share) (bty_bounty_id share) (bty_proof_hash share) (bty_prover share)
    (to_decimal (bty_reward share)).

Section Promotion.
Context {X : Externals}.

Definition signature_matches_any_operator (manifest : FamilyManifest) (operator_pks : list string) : bool :=
  existsb (fun pk => match verify_family_manifest_signature pk manifest with Ok true => true | _ => false end)
    operator_pks.

(** The rows one manifest contributes: none unless every gate passes. *)
Definition promote_family (side_pool : BountySidePool) (runtime_height : N) (operator_pks : list string)
    (manifest : FamilyManifest) : list PromotedBountyShare :=
  if negb (settlement_eligible manifest runtime_height) then []
  else if bool_decide (fm_signature manifest = None) then []
  else match fm_caps manifest with
       | None => []
       | Some caps =>
           if fc_max_shares_per_block caps =? 0 then []
           else if negb (signature_matches_any_operator manifest operator_pks) then []
           else map promoted_row
                  (take (N.to_nat (fc_max_shares_per_block caps))
                     (shares_for_family side_pool (fm_family_id manifest)))
       end.

Definition select_promoted_bounty_selection (side_pool : BountySidePool) (registry : FamilyManifestRegistry)
    (runtime_height : N) (operator_pks : list string) : outcome SettlementError PromotedBountySelection :=
  let shares := flat_map (promote_family side_pool runtime_height operator_pks) (registry_iter registry) in
  match derive_bounty_settlement shares registry runtime_height with
  | Ok credits => Ok (mkPromotedBountySelection shares credits)
  | _ => Panic
  end.

Definition select_promoted_bounty_shares (side_pool : BountySidePool) (registry : FamilyManifestRegistry)
    (runtime_height : N) (operator_pks : list string) : outcome SettlementError (list PromotedBountyShare) :=
  omap ps_shares (select_promoted_bounty_selection side_pool registry runtime_height operator_pks).

End Promotion.

(** ** Specification of the settlement *)

Definition sum_by {A} (f : A -> N) (l : list A) : N := fold_right (fun x n => f x + n) 0 l.

Definition of_family (f : string) (s : PromotedBountyShare) : bool := String.eqb (pbs_family_id s) f.

(** The rows of a family, in block order. *)
Definition family_rows (f : string) (rows : list PromotedBountyShare) : list PromotedBountyShare :=
  List.filter (of_family f) rows.

Definition row_reward (s : PromotedBountyShare) : N := default 0 (parse_uint u128_max (pbs_reward s)).

Definition credit_amount (c : PromotedBountyCredit) : N := default 0 (parse_uint u128_max (pbc_amount c)).

(** The total credited to a family. *)
Definition family_credit (f : string) (credits : list PromotedBountyCredit) : N :=
  sum_by credit_amount (List.filter (fun c => String.eqb (pbc_family_id c) f) credits).

(** What a family is owed for rewards that add up to [total]. *)
Definition payable (m : FamilyManifest) (total : N) : N :=
  if String.eqb (fr_mode (fm_reward_policy m)) "no_protocol_reward" then 0 else N.min total (reward_budget m).

(** The row's family is registered and eligible, and its reward is a number. *)
Definition row_ok (registry : FamilyManifestRegistry) (height : N) (s : PromotedBountyShare) : bool :=
  match registry_get registry (pbs_family_id s) with
  | Some m => settlement_eligible m height && bool_decide (is_Some (parse_uint u128_max (pbs_reward s)))
  | None => false
  end.

(** The block's rows: each is in order, and no family exceeds its cap. *)
Definition rows_ok (registry : FamilyManifestRegistry) (height : N) (rows : list PromotedBountyShare) : Prop :=
  Forall (fun s => row_ok registry height s = true) rows /\
  forall f m, registry_get registry f = Some m -> len (family_rows f rows) <= max_rows m.

(** ** Settlement lemmas *)

Lemma sum_by_app {A} (f : A -> N) l k : sum_by f (l ++ k) = sum_by f l + sum_by f k.
Proof. unfold sum_by. induction l as [|x l IH]; cbn [app fold_right]; [lia|]. rewrite IH. lia. Qed.

Lemma family_rows_snoc f rows s :
  family_rows f (rows ++ [s]) = family_rows f rows ++ (if of_family f s then [s] else []).
Proof. unfold family_rows. rewrite List.filter_app. cbn [List.filter]. by destruct (of_family f s). Qed.

Lemma family_credit_snoc f cs c :
  family_credit f (cs ++ [c]) = family_credit f cs + (if String.eqb (pbc_family_id c) f then credit_amount c else 0).
Proof.
  unfold family_credit. rewrite List.filter_app, sum_by_app. cbn [List.filter].
  destruct (String.eqb _ _); cbn; lia.
Qed.

(** The state after the rows [rows]. *)
Record settled (registry : FamilyManifestRegistry) (rows : list PromotedBountyShare) (st : Settlement) : Prop := {
  se_rows f : default 0 (st_rows st !! f) = len (family_rows f rows);
  se_credit f : family_credit f (st_credits st) =
    match registry_get registry f with Some m => payable m (sum_by row_reward (family_rows f rows)) | None => 0 end;
  se_budget f m : registry_get registry f = Some m ->
    default (reward_budget m) (st_budget st !! f) =
    reward_budget m - payable m (sum_by row_reward (family_rows f rows));
  se_known s : s ∈ rows -> is_Some (registry_get registry (pbs_family_id s))
}.

Lemma settled_init registry : settled registry [] (mkSettlement [] ∅ ∅).
Proof.
  assert (payable0 : forall m, payable m 0 = 0) by (intros m; unfold payable; case_match; lia).
  split; intros; cbn; rewrite ?lookup_empty; cbn; try done.
  - case_match; by rewrite ?payable0.
  - rewrite payable0. lia.
  - by apply elem_of_nil in H.
Qed.

Lemma parse_uint_bound max s n : parse_uint max s = Some n -> n <= max.
Proof. unfold parse_uint. intros H. repeat case_match; simplify_eq. by apply N.leb_le. Qed.

Lemma reward_budget_bound m : reward_budget m <= u128_max.
Proof.
  unfold reward_budget. case_match; [|done]. destruct (parse_uint _ _) eqn:E; cbn; [|done]. by eapply parse_uint_bound.
Qed.

(** What a row adds to its family's credit is what raises the payable total. *)
Lemma payable_step m total r : fr_mode (fm_reward_policy m) <> "no_protocol_reward" ->
  payable m (total + r) = payable m total + N.min r (reward_budget m - payable m total).
Proof. intros H. unfold payable. rewrite (proj2 (String.eqb_neq _ _) H). lia. Qed.

Lemma payable_unpaid m total : fr_mode (fm_reward_policy m) = "no_protocol_reward" -> payable m total = 0.
Proof. intros H. unfold payable. by rewrite H. Qed.

Section Settle.
Context (registry : FamilyManifestRegistry) (height : N) (Hkeyed : keyed registry).

Lemma keyed_get f m : registry_get registry f = Some m -> fm_family_id m = f.
Proof. intros H. exact (Hkeyed _ _ H). Qed.

(** A successful turn, in the terms of the specification. *)
Lemma settle_row_Ok rows st s st' : settled registry rows st -> settle_row registry height st s = Ok st' ->
  exists m r, registry_get registry (pbs_family_id s) = Some m /\ settlement_eligible m height = true /\
    parse_uint u128_max (pbs_reward s) = Some r /\ len (family_rows (pbs_family_id s) (rows ++ [s])) <= max_rows m /\
    st_rows st' = <[pbs_family_id s := len (family_rows (pbs_family_id s) (rows ++ [s]))]> (st_rows st) /\
    let total := sum_by row_reward (family_rows (pbs_family_id s) rows) in
    let due := payable m (total + r) - payable m total in
    st_credits st' = st_credits st ++ (if 0 <? due then
       [mkPromotedBountyCredit (pbs_family_id s) (pbs_bounty_id s) (pbs_prover s) (to_decimal due)] else []) /\
    (forall f b, f <> pbs_family_id s -> default b (st_budget st' !! f) = default b (st_budget st !! f)) /\
    default (reward_budget m) (st_budget st' !! pbs_family_id s) = reward_budget m - payable m (total + r).
Proof.
  intros Hst H. unfold settle_row in H.
  destruct (registry_get registry (pbs_family_id s)) as [m|] eqn:Hm; [|discriminate H]. cbn [ok_or obind] in H.
  destruct (settlement_eligible m height) eqn:He; [|discriminate H]. cbn [ensure obind] in H.
  rewrite (keyed_get _ _ Hm), (se_rows _ _ _ Hst), (se_budget _ _ _ Hst _ _ Hm) in H.
  unfold checked_add in H. destruct (_ <=? u64_max); [|discriminate H]. cbn [expect obind] in H.
  assert (Hlen : len (family_rows (pbs_family_id s) (rows ++ [s])) = len (family_rows (pbs_family_id s) rows) + 1).
  { rewrite family_rows_snoc. unfold of_family. rewrite String.eqb_refl. unfold len. rewrite length_app. cbn. lia. }
  rewrite Hlen. destruct (_ <=? max_rows m) eqn:Hmax; [|discriminate H]. apply N.leb_le in Hmax. cbn [ensure obind] in H.
  destruct (parse_uint u128_max (pbs_reward s)) as [r|] eqn:Hr; [|discriminate H]. cbn [ok_or obind] in H.
  exists m, r. split_and!; [done|done|done|done| |]; clear Hlen.
  { repeat case_match; by injection H as <-. }
  set (total := sum_by row_reward (family_rows (pbs_family_id s) rows)) in *. cbn zeta.
  destruct (String.eqb (fr_mode _) _) eqn:Hmode.
  - apply String.eqb_eq in Hmode. injection H as <-. rewrite !(payable_unpaid m _ Hmode). cbn [st_credits st_budget].
    split_and!; [by rewrite app_nil_r|done|]. rewrite (se_budget _ _ _ Hst _ _ Hm). by rewrite (payable_unpaid m _ Hmode).
  - apply String.eqb_neq in Hmode. rewrite (payable_step m total r Hmode).
    replace (payable m total + N.min r (reward_budget m - payable m total) - payable m total)
      with (N.min r (reward_budget m - payable m total)) by lia.
    destruct (0 <? N.min r (reward_budget m - payable m total)) eqn:Hpos; injection H as <-; cbn [st_credits st_budget];
      (split_and!; [by rewrite ?app_nil_r|intros f b Hf; by rewrite lookup_insert_ne|]); rewrite lookup_insert_eq; cbn;
      [lia|apply N.ltb_ge in Hpos; lia].
Qed.

Lemma family_rows_other f rows s : f <> pbs_family_id s -> family_rows f (rows ++ [s]) = family_rows f rows.
Proof.
  intros Hf. rewrite family_rows_snoc. unfold of_family.
  rewrite (proj2 (String.eqb_neq _ _)) by congruence. by rewrite app_nil_r.
Qed.

Lemma family_rows_own rows s : family_rows (pbs_family_id s) (rows ++ [s]) = family_rows (pbs_family_id s) rows ++ [s].
Proof. rewrite family_rows_snoc. unfold of_family. by rewrite String.eqb_refl. Qed.

Lemma family_total_own rows s r : parse_uint u128_max (pbs_reward s) = Some r ->
  sum_by row_reward (family_rows (pbs_family_id s) (rows ++ [s])) =
  sum_by row_reward (family_rows (pbs_family_id s) rows) + r.
Proof. intros Hr. rewrite family_rows_own, sum_by_app. unfold sum_by at 2, row_reward at 2. cbn. rewrite Hr. cbn. lia. Qed.

Lemma payable_bound m total : payable m total <= reward_budget m.
Proof. unfold payable. case_match; lia. Qed.

Lemma payable_mono m total r : payable m total <= payable m (total + r).
Proof. unfold payable. case_match; lia. Qed.

Lemma settle_row_settled rows st s st' : settled registry rows st -> settle_row registry height st s = Ok st' ->
  settled registry (rows ++ [s]) st'.
Proof.
  intros Hst H. destruct (settle_row_Ok _ _ _ _ Hst H) as (m & r & Hm & _ & Hr & _ & Hrows & Hcred & Hother & Hown).
  clear H. pose proof (family_total_own rows s r Hr) as Htot. split.
  - intros f. rewrite Hrows. destruct (decide (f = pbs_family_id s)) as [->|Hf]; [by rewrite lookup_insert_eq|].
    rewrite lookup_insert_ne, family_rows_other by congruence. apply Hst.
  - intros f. rewrite Hcred. set (due := _ - _).
    assert (Hdue : family_credit f (st_credits st ++ (if 0 <? due then
       [mkPromotedBountyCredit (pbs_family_id s) (pbs_bounty_id s) (pbs_prover s) (to_decimal due)] else [])) =
      family_credit f (st_credits st) + (if String.eqb (pbs_family_id s) f then due else 0)).
    { destruct (N.ltb_spec 0 due) as [Hpos|Hz].
      - rewrite family_credit_snoc. cbn [pbc_family_id]. unfold credit_amount. cbn [pbc_amount].
        rewrite parse_uint_to_decimal; [done|]. pose proof (payable_bound m (sum_by row_reward (family_rows (pbs_family_id s) rows) + r)).
        pose proof (reward_budget_bound m). lia.
      - rewrite app_nil_r. clearbody due. destruct (String.eqb _ _); lia. }
    rewrite Hdue, (se_credit _ _ _ Hst). destruct (String.eqb_spec (pbs_family_id s) f) as [<-|Hf].
    + rewrite Hm, Htot. pose proof (payable_mono m (sum_by row_reward (family_rows (pbs_family_id s) rows)) r). lia.
    + rewrite family_rows_other by congruence. lia.
  - intros f m' Hm'. destruct (decide (f = pbs_family_id s)) as [->|Hf].
    + assert (m' = m) as -> by congruence. by rewrite Htot.
    + rewrite Hother, family_rows_other by done. by apply Hst.
  - intros s' [Hs'|Hs'%list_elem_of_singleton]%elem_of_app; [by apply (se_known _ _ _ Hst)|]. by rewrite Hs', Hm.
Qed.

Lemma settle_fold rows2 : forall rows1 st st', settled registry rows1 st -> rows_ok registry height rows1 ->
  ofold (settle_row registry height) st rows2 = Ok st' ->
  settled registry (rows1 ++ rows2) st' /\ rows_ok registry height (rows1 ++ rows2).
Proof.
  induction rows2 as [|s rows2 IH]; intros rows1 st st' Hst Hok H.
  { cbn in H. injection H as <-. by rewrite app_nil_r. }
  cbn [ofold] in H. destruct (settle_row registry height st s) as [st1| |] eqn:E; try discriminate H. cbn [obind] in H.
  replace (rows1 ++ s :: rows2) with ((rows1 ++ [s]) ++ rows2) by (by rewrite <- app_assoc).
  apply (IH _ _ _ (settle_row_settled _ _ _ _ Hst E)); [|done].
  destruct (settle_row_Ok _ _ _ _ Hst E) as (m & r & Hm & He & Hr & Hmax & _). destruct Hok as [Hall Hcap]. split.
  - apply Forall_app. split; [done|]. rewrite Forall_singleton. unfold row_ok. rewrite Hm, He, Hr.
    by apply bool_decide_eq_true_2.
  - intros f m' Hm'. destruct (decide (f = pbs_family_id s)) as [->|Hf]; [congruence|].
    rewrite family_rows_other by done. by apply Hcap.
Qed.

Lemma family_rows_len_app f rows1 rows2 : len (family_rows f rows1) <= len (family_rows f (rows1 ++ rows2)).
Proof. unfold family_rows, len. rewrite List.filter_app, length_app. lia. Qed.

Lemma settle_row_total rows st s : settled registry rows st -> len rows < u64_max ->
  rows_ok registry height (rows ++ [s]) -> is_ok (settle_row registry height st s) = true.
Proof.
  intros Hst Hlen [Hall Hcap]. apply Forall_app in Hall as [_ Hs]. rewrite Forall_singleton in Hs. unfold row_ok in Hs.
  destruct (registry_get registry (pbs_family_id s)) as [m|] eqn:Hm; [|done].
  apply andb_true_iff in Hs as [He [r Hr]%bool_decide_eq_true].
  specialize (Hcap _ _ Hm). rewrite family_rows_own in Hcap. unfold len in Hcap at 1. rewrite length_app in Hcap. cbn in Hcap.
  unfold settle_row. rewrite Hm. cbn [ok_or obind]. rewrite He. cbn [ensure obind].
  rewrite (keyed_get _ _ Hm), (se_rows _ _ _ Hst). unfold checked_add.
  pose proof (sublist_length _ _ (filter_sublist (of_family (pbs_family_id s)) rows)) as Hsub.
  fold (family_rows (pbs_family_id s) rows) in Hsub. unfold len in *.
  rewrite (proj2 (N.leb_le _ _)) by lia. cbn [expect obind]. rewrite (proj2 (N.leb_le _ _)) by lia.
  cbn [ensure obind]. rewrite Hr. cbn [ok_or obind]. by repeat case_match.
Qed.

Lemma settle_total rows2 : forall rows1 st, settled registry rows1 st -> len (rows1 ++ rows2) <= u64_max ->
  rows_ok registry height (rows1 ++ rows2) -> is_ok (ofold (settle_row registry height) st rows2) = true.
Proof.
  induction rows2 as [|s rows2 IH]; intros rows1 st Hst Hlen Hok; [done|].
  replace (rows1 ++ s :: rows2) with ((rows1 ++ [s]) ++ rows2) in * by (by rewrite <- app_assoc).
  destruct Hok as [Hall Hcap]. assert (Hok1 : rows_ok registry height (rows1 ++ [s])).
  { split; [by apply Forall_app in Hall as [? _]|]. intros f m Hm. specialize (Hcap f m Hm).
    pose proof (family_rows_len_app f (rows1 ++ [s]) rows2). lia. }
  cbn [ofold]. destruct (is_ok_Ok _ (settle_row_total rows1 st s Hst ltac:(unfold len in *; rewrite !length_app in Hlen; cbn in Hlen; lia) Hok1)) as [st1 E].
  rewrite E. cbn [obind]. apply (IH (rows1 ++ [s])); [by eapply settle_row_settled|done|done].
Qed.

Lemma settle_row_no_panic rows st s : settled registry rows st -> len rows < u64_max ->
  settle_row registry height st s <> Panic.
Proof.
  intros Hst Hlen. unfold settle_row. destruct (registry_get registry (pbs_family_id s)) as [m|] eqn:Hm; [|done].
  cbn [ok_or obind]. rewrite (keyed_get _ _ Hm), (se_rows _ _ _ Hst). unfold checked_add.
  pose proof (sublist_length _ _ (filter_sublist (of_family (pbs_family_id s)) rows)) as Hsub.
  fold (family_rows (pbs_family_id s) rows) in Hsub. unfold len in *.
  rewrite (proj2 (N.leb_le (_ + 1) _)) by lia. total_tac.
Qed.

Lemma settle_no_panic rows2 : forall rows1 st, settled registry rows1 st -> len (rows1 ++ rows2) <= u64_max ->
  ofold (settle_row registry height) st rows2 <> Panic.
Proof.
  induction rows2 as [|s rows2 IH]; intros rows1 st Hst Hlen; [done|]. cbn [ofold].
  assert (Hn : settle_row registry height st s <> Panic).
  { apply (settle_row_no_panic rows1); [done|]. unfold len in *. rewrite length_app in Hlen. cbn in Hlen. lia. }
  destruct (settle_row registry height st s) as [st1| |] eqn:E; [cbn [obind]|done|done].
  apply (IH (rows1 ++ [s])); [by eapply settle_row_settled|]. by rewrite <- app_assoc.
Qed.

(** A credit pays the prover of a committed row at most its reward. *)
Definition pays (rows : list PromotedBountyShare) (c : PromotedBountyCredit) : Prop :=
  exists s, s ∈ rows /\ pbc_family_id c = pbs_family_id s /\ pbc_bounty_id c = pbs_bounty_id s /\
    pbc_prover c = pbs_prover s /\ 0 < credit_amount c <= row_reward s.

Lemma settle_pays rows st st' : Forall (pays rows) (st_credits st) ->
  ofold (settle_row registry height) st rows = Ok st' -> Forall (pays rows) (st_credits st').
Proof.
  intros H0. apply (ofold_inv (fun st => Forall (pays rows) (st_credits st))); [|done].
  intros s1 s s2 Hin H1 H. unfold settle_row in H. run_inv H; injection H as <-; try exact H1.
  cbn [st_credits]. apply Forall_app. split; [done|]. rewrite Forall_singleton. breflect.
  assert (Hb : parse_uint u128_max (pbs_reward s) = Some a1) by assumption.
  exists s. unfold credit_amount, row_reward. cbn. rewrite Hb. rewrite parse_uint_to_decimal; [cbn; split_and!; try done; lia|].
  pose proof (parse_uint_bound _ _ _ Hb). lia.
Qed.

Lemma derive_rows_ok rows : len rows <= u64_max ->
  (is_ok (derive_bounty_settlement rows registry height) = true <-> rows_ok registry height rows) /\
  derive_bounty_settlement rows registry height <> Panic.
Proof.
  intros Hlen. unfold derive_bounty_settlement. pose proof (settled_init registry) as Hi. split; [split|].
  - intros [credits H]%is_ok_Ok. run_inv H. apply (settle_fold rows [] _ _ Hi) in E as [_ E]; [done|].
    split; [constructor|]. intros. unfold len. cbn. lia.
  - intros Hok. destruct (is_ok_Ok _ (settle_total rows [] _ Hi Hlen Hok)) as [st ->]. done.
  - pose proof (settle_no_panic rows [] _ Hi Hlen). destruct (ofold _ _ _); done.
Qed.

Lemma derive_credits rows credits : derive_bounty_settlement rows registry height = Ok credits ->
  (forall f, family_credit f credits = match registry_get registry f with
     | Some m => payable m (sum_by row_reward (family_rows f rows)) | None => 0 end) /\
  Forall (pays rows) credits.
Proof.
  unfold derive_bounty_settlement. intros H. run_inv H. injection H as <-.
  pose proof (settle_pays rows (mkSettlement [] ∅ ∅) _ (Forall_nil_2 _) E) as Hp. split; [|done].
  apply (settle_fold rows [] _ _ (settled_init registry)) in E as [Hs _]; [apply Hs|].
  split; [constructor|]. intros. unfold len. cbn. lia.
Qed.

End Settle.

(** ** The side pool *)

(** Every bucket holds shares of its own family, and no bucket is empty. *)
Definition side_pool_ok (p : BountySidePool) : Prop :=
  map_Forall (fun f l => l <> [] /\ Forall (fun s => bty_family_id s = f /\ bty_reward s <= u128_max) l) (by_family p).

Lemma side_pool_new_ok : side_pool_ok side_pool_new.
Proof. apply map_Forall_empty. Qed.

Lemma side_pool_shares_ok p f : side_pool_ok p ->
  Forall (fun s => bty_family_id s = f /\ bty_reward s <= u128_max) (shares_for_family p f).
Proof.
  intros H. unfold shares_for_family. destruct (by_family p !! f) as [l|] eqn:E; cbn; [|constructor]. by apply (H f l).
Qed.

Lemma side_pool_insert_ok p s : side_pool_ok p -> bty_reward s <= u128_max -> side_pool_ok (side_pool_insert p s).
Proof.
  intros H Hr. unfold side_pool_ok, side_pool_insert. cbn [by_family]. apply map_Forall_insert_2; [|done].
  split; [by destruct (shares_for_family p (bty_family_id s))|].
  apply Forall_app. split; [by apply side_pool_shares_ok|by rewrite Forall_singleton].
Qed.

(** Some row of the list names the share. *)
Definition named (rows : list PromotedBountyShare) (f : string) (s : BountyShare) : bool :=
  existsb (fun e => of_family f e && is_entry e s) rows.

Lemma remove_entry_shares p n e f :
  shares_for_family (remove_entry (p, n) e).1 f =
  List.filter (fun s => negb (of_family f e && is_entry e s)) (shares_for_family p f).
Proof.
  unfold remove_entry, shares_for_family, of_family.
  destruct (String.eqb_spec (pbs_family_id e) f) as [<-|Hf].
  - destruct (by_family p !! pbs_family_id e) as [l|] eqn:E; cbn [fst]; [|by rewrite E].
    cbn [by_family default andb]. destruct (List.filter _ l) eqn:El; [rewrite lookup_delete_eq|rewrite lookup_insert_eq]; done.
  - cbn [andb]. rewrite (filter_ext _ (fun _ => true)) by done. rewrite filter_true_id.
    destruct (by_family p !! pbs_family_id e) as [l|] eqn:E; [|done]. cbn [fst by_family].
    case_match; [by rewrite lookup_delete_ne|by rewrite lookup_insert_ne].
Qed.

Lemma remove_promoted_from rows : forall p n f,
  shares_for_family (fold_left remove_entry rows (p, n)).1 f =
  List.filter (fun s => negb (named rows f s)) (shares_for_family p f).
Proof.
  induction rows as [|e rows IH]; intros p n f; cbn [fold_left].
  - cbn [fst]. rewrite (filter_ext _ (fun _ => true)) by done. by rewrite filter_true_id.
  - destruct (remove_entry (p, n) e) as [p' n'] eqn:E. rewrite IH.
    pose proof (remove_entry_shares p n e f) as H. rewrite E in H. cbn [fst] in H. rewrite H, filter_filter_andb.
    apply filter_ext. intros s. unfold named. cbn [existsb]. by rewrite negb_orb.
Qed.

(** Removing the promoted rows keeps exactly the shares no row names. *)
Lemma remove_promoted_shares p rows f :
  shares_for_family (remove_promoted p rows).1 f =
  List.filter (fun s => negb (named rows f s)) (shares_for_family p f).
Proof. apply remove_promoted_from. Qed.

Lemma remove_entry_ok p n e : side_pool_ok p -> side_pool_ok (remove_entry (p, n) e).1.
Proof.
  intros H. unfold remove_entry. destruct (by_family p !! pbs_family_id e) as [l|] eqn:E; [|done].
  cbn [fst]. unfold side_pool_ok. cbn [by_family]. destruct (List.filter _ l) as [|x k] eqn:El.
  - by apply map_Forall_delete.
  - apply map_Forall_insert_2; [|done]. split; [done|]. rewrite <- El. apply Forall_forall.
    intros s [Hs _]%list_filter_elem. destruct (H _ _ E) as [_ Hl]. exact (proj1 (Forall_forall _ _) Hl s Hs).
Qed.

Lemma remove_promoted_ok rows : forall p n, side_pool_ok p -> side_pool_ok (fold_left remove_entry rows (p, n)).1.
Proof.
  induction rows as [|e rows IH]; intros p n H; [done|]. cbn [fold_left].
  pose proof (remove_entry_ok p n e H) as H'. destruct (remove_entry (p, n) e) as [p' n']. by apply IH.
Qed.

Definition bucket_total (m : gmap string (list BountyShare)) : N :=
  fold_right (fun l n => len l + n) 0 (map_to_list m).*2.

Lemma bucket_total_delete m f l : m !! f = Some l -> bucket_total m = len l + bucket_total (delete f m).
Proof.
  intros H. unfold bucket_total. rewrite <- (fold_perm_len _ _ (fmap_Permutation snd _ _ (map_to_list_delete m f l H))). done.
Qed.

Lemma bucket_total_insert m f l l' : m !! f = Some l -> bucket_total (<[f := l']> m) + len l = bucket_total m + len l'.
Proof.
  intros H. rewrite (bucket_total_delete m f l H), (bucket_total_delete (<[f := l']> m) f l') by apply lookup_insert_eq.
  rewrite delete_insert_eq. lia.
Qed.

(** The returned count is the number of shares that left the pool. *)
Lemma remove_promoted_count rows : forall p n,
  let r := fold_left remove_entry rows (p, n) in r.2 + total_share_count r.1 = n + total_share_count p.
Proof.
  induction rows as [|e rows IH]; intros p n; cbn zeta; [cbn; lia|]. cbn [fold_left].
  assert (Hstep : (remove_entry (p, n) e).2 + total_share_count (remove_entry (p, n) e).1 = n + total_share_count p).
  { unfold remove_entry. destruct (by_family p !! pbs_family_id e) as [l|] eqn:E; [|done]. cbn [fst snd].
    change total_share_count with (fun p => bucket_total (by_family p)). cbn [by_family].
    set (l' := List.filter _ l). pose proof (sublist_length _ _ (filter_sublist (fun s => negb (is_entry e s)) l)) as Hle.
    fold l' in Hle. clearbody l'. destruct l' as [|x k].
    - rewrite (bucket_total_delete _ _ _ E). unfold len. cbn. lia.
    - pose proof (bucket_total_insert _ _ _ (x :: k) E). unfold len in *. lia. }
  destruct (remove_entry (p, n) e) as [p' n']. cbn [fst snd] in Hstep. specialize (IH p' n'). cbn zeta in IH. lia.
Qed.

(** ** Promotion lemmas *)

Section PromotionFacts.
Context {X : Externals} (pool : BountySidePool) (registry : FamilyManifestRegistry) (height : N) (operators : list string).
Context (Hpool : side_pool_ok pool) (Hkeyed : keyed registry).

Definition promoted_rows : list PromotedBountyShare :=
  flat_map (promote_family pool height operators) (registry_iter registry).

Lemma promote_family_elem m row : row ∈ promote_family pool height operators m ->
  settlement_eligible m height = true /\ fm_signature m <> None /\
  signature_matches_any_operator m operators = true /\ pbs_family_id row = fm_family_id m /\
  exists s, s ∈ shares_for_family pool (fm_family_id m) /\ row = promoted_row s /\ bty_reward s <= u128_max.
Proof.
  unfold promote_family. intros H.
  destruct (settlement_eligible m height) eqn:He; cbn [negb] in H; [|by apply elem_of_nil in H].
  case_bool_decide as Hs; [by apply elem_of_nil in H|]. destruct (fm_caps m) as [c|]; [|by apply elem_of_nil in H].
  destruct (_ =? 0); [by apply elem_of_nil in H|].
  destruct (signature_matches_any_operator m operators) eqn:Ho; cbn [negb] in H; [|by apply elem_of_nil in H].
  apply list_elem_of_fmap in H as (s & -> & Hin).
  assert (Hs' : s ∈ shares_for_family pool (fm_family_id m)) by (by eapply subseteq_take).
  destruct (proj1 (Forall_forall _ _) (side_pool_shares_ok pool (fm_family_id m) Hpool) s Hs') as [Hf Hr].
  split_and!; [done..|]. by exists s.
Qed.

Lemma promote_family_len m : len (promote_family pool height operators m) <= max_rows m.
Proof.
  unfold promote_family, max_rows. destruct (fm_caps m) as [c|]; repeat case_match; unfold len; cbn; try lia.
  rewrite length_map, length_take. lia.
Qed.

Lemma promoted_rows_elem row : row ∈ promoted_rows -> exists m, m ∈ registry_iter registry /\
  row ∈ promote_family pool height operators m.
Proof.
  unfold promoted_rows. rewrite list_elem_of_In, in_flat_map. intros (m & H1 & H2).
  exists m. by rewrite !list_elem_of_In.
Qed.

Lemma registry_iter_nodup : NoDup (map fm_family_id (registry_iter registry)).
Proof.
  unfold registry_iter. replace (map fm_family_id (btree_iter (by_id registry)).*2) with (btree_iter (by_id registry)).*1;
    [apply btree_iter_nodup_keys|].
  assert (H : Forall (fun e => fm_family_id e.2 = e.1) (btree_iter (by_id registry))).
  { apply Forall_forall. intros [k m] Hin%elem_of_btree_iter. exact (Hkeyed _ _ Hin). }
  induction H as [|e l He _ IH]; [done|]. cbn. by rewrite He, <- IH.
Qed.

Lemma family_rows_foreign f m : fm_family_id m <> f -> family_rows f (promote_family pool height operators m) = [].
Proof.
  intros Hf. unfold family_rows. apply filter_none. intros row (_ & _ & _ & Hr & _)%promote_family_elem.
  unfold of_family. rewrite Hr. by apply String.eqb_neq.
Qed.

(** Distinct families do not share rows, so each stays within its own cap. *)
Lemma promoted_rows_cap ms f m : NoDup (map fm_family_id ms) ->
  (forall m', m' ∈ ms -> fm_family_id m' = f -> m' = m) ->
  len (family_rows f (flat_map (promote_family pool height operators) ms)) <= max_rows m.
Proof.
  induction ms as [|m' ms IH]; intros Hn Hsame; [unfold len; cbn; lia|].
  apply NoDup_cons in Hn as [Hx Hn]. cbn [flat_map]. unfold family_rows. rewrite List.filter_app.
  fold (family_rows f (promote_family pool height operators m')).
  fold (family_rows f (flat_map (promote_family pool height operators) ms)).
  destruct (decide (fm_family_id m' = f)) as [Hf|Hf].
  - assert (m' = m) as -> by (apply Hsame; [by left|done]).
    replace (family_rows f (flat_map (promote_family pool height operators) ms)) with (@nil PromotedBountyShare).
    + rewrite app_nil_r. pose proof (promote_family_len m) as Hl.
      pose proof (sublist_length _ _ (filter_sublist (of_family f) (promote_family pool height operators m))).
      unfold family_rows, len in *. lia.
    + symmetry. apply filter_none. intros row Hrow. apply list_elem_of_In, in_flat_map in Hrow as (m2 & H2%list_elem_of_In & H3%list_elem_of_In).
      apply promote_family_elem in H3 as (_ & _ & _ & Hr & _). unfold of_family. rewrite Hr. apply String.eqb_neq.
      intros E. apply Hx. rewrite Hf, <- E. by apply (list_elem_of_fmap_2 fm_family_id).
  - rewrite (family_rows_foreign f m' Hf). apply IH; [done|]. intros m2 H2. apply Hsame. by right.
Qed.

Lemma promoted_rows_ok : rows_ok registry height promoted_rows.
Proof.
  split.
  - apply Forall_forall. intros row (m & Hm & Hrow)%promoted_rows_elem.
    apply promote_family_elem in Hrow as (He & _ & _ & Hf & s & _ & -> & Hr). unfold row_ok. rewrite Hf.
    rewrite (proj1 (registry_iter_elem registry m Hkeyed) Hm), He. apply bool_decide_eq_true_2.
    cbn [promoted_row pbs_reward]. by rewrite parse_uint_to_decimal.
  - intros f m Hm. apply promoted_rows_cap; [exact registry_iter_nodup|].
    intros m' Hm' Hf. apply (registry_iter_elem registry m' Hkeyed) in Hm'. congruence.
Qed.

End PromotionFacts.

(** ** Theorems *)

(** C30: settlement accepts exactly the blocks whose promoted rows name
    registered, eligible families with readable rewards and within each
    family's row cap, and never aborts; the credits it derives pay each family
    precisely the smaller of its rewards and its budget, nothing in a family
    without protocol reward, and each credit pays the prover of a committed row
    at most that row's reward. *)
Theorem settlement_exact registry height rows : keyed registry -> len rows <= u64_max ->
  (is_ok (derive_bounty_settlement rows registry height) = true <-> rows_ok registry height rows) /\
  derive_bounty_settlement rows registry height <> Panic /\
  forall credits, derive_bounty_settlement rows registry height = Ok credits ->
    (forall f, family_credit f credits = match registry_get registry f with
       | Some m => payable m (sum_by row_reward (family_rows f rows)) | None => 0 end) /\
    Forall (pays rows) credits.
Proof.
  intros Hk Hl. destruct (derive_rows_ok registry height Hk rows Hl) as [H1 H2]. split; [exact H1|]. split; [exact H2|].
  intros credits Hc. exact (derive_credits registry height Hk rows credits Hc).
Qed.

(** Promotion never hits its [expect]: from a side pool that its own
    operations built, the selected rows always settle; every row is a pooled
    share of an eligible family whose manifest an operator signed, the credits
    are those replay derives from the rows, and once the promoted rows are
    removed the pool holds none of them and the count says how many left. *)
Theorem promotion_settles {X : Externals} pool registry height operators :
  side_pool_ok pool -> keyed registry -> len (promoted_rows pool registry height operators) <= u64_max ->
  exists sel, select_promoted_bounty_selection pool registry height operators = Ok sel /\
    derive_bounty_settlement (ps_shares sel) registry height = Ok (ps_credits sel) /\
    (forall row, row ∈ ps_shares sel -> exists m s, registry_get registry (pbs_family_id row) = Some m /\
       settlement_eligible m height = true /\ signature_matches_any_operator m operators = true /\
       s ∈ shares_for_family pool (pbs_family_id row) /\ row = promoted_row s) /\
    (forall row s, row ∈ ps_shares sel ->
       s ∈ shares_for_family (remove_promoted pool (ps_shares sel)).1 (pbs_family_id row) -> is_entry row s = false) /\
    (remove_promoted pool (ps_shares sel)).2 + total_share_count (remove_promoted pool (ps_shares sel)).1 =
      total_share_count pool.
Proof.
  intros Hp Hk Hl. set (rows := promoted_rows pool registry height operators) in *.
  destruct (derive_rows_ok registry height Hk rows Hl) as [Hok _].
  destruct (is_ok_Ok _ (proj2 Hok (promoted_rows_ok pool registry height operators Hp Hk))) as [credits Hc].
  exists (mkPromotedBountySelection rows credits). unfold select_promoted_bounty_selection.
  fold (promoted_rows pool registry height operators). fold rows. rewrite Hc. cbn [ps_shares ps_credits]. split_and!; [done..| | |].
  - intros row (m & Hm & Hrow)%promoted_rows_elem. apply promote_family_elem in Hrow as (He & _ & Ho & Hf & s & Hs & -> & _); [|done].
    exists m, s. rewrite Hf. split_and!; try done. by apply registry_iter_elem.
  - intros row s Hrow Hs. rewrite remove_promoted_shares in Hs. apply list_filter_elem in Hs as [_ Hs].
    apply negb_true_iff in Hs. unfold named in Hs. destruct (is_entry row s) eqn:E; [|done].
    assert (existsb (fun e => of_family (pbs_family_id row) e && is_entry e s) rows = true) as Hbad; [|congruence].
    apply existsb_exists. exists row. split; [by apply list_elem_of_In|]. unfold of_family. by rewrite String.eqb_refl.
  - exact (remove_promoted_count rows pool 0).
Qed.

(** ** Witnesses *)

From S2P Require Import Concrete.

Module BountyDemo.
Import ManifestDemo.
Definition key : SigningKeyV2 := mkSigningKeyV2 (replicate 32 x01).
Definition signed : FamilyManifest :=
  mkFamilyManifest "1" "fam" zeros zeros zeros zeros zeros zeros limits (mkFamilyRewardPolicy "capped_bonus" 100) 0
    "official" (Some (mkFamilyCaps 2 10000 "5")) (Some (env_signature (sign key (manifest_value paid)))).
Definition families : FamilyManifestRegistry := register registry_new signed.
Definition share (id : string) (reward : N) : BountyShare := mkBountyShare id "p" "alice" "fam" 0 reward.
Definition pool : BountySidePool :=
  side_pool_insert (side_pool_insert (side_pool_insert side_pool_new (share "a" 3)) (share "b" 4)) (share "c" 1).
Definition rows : list PromotedBountyShare := map promoted_row [share "a" 3; share "b" 4].
End BountyDemo.

Lemma settlement_exact_witness :
  exists credits, derive_bounty_settlement BountyDemo.rows BountyDemo.families 0 = Ok credits /\
    family_credit "fam" credits = 5.
Proof.
  assert (Hk : keyed BountyDemo.families) by (apply register_keyed, registry_new_keyed).
  destruct (is_ok_Ok (derive_bounty_settlement BountyDemo.rows BountyDemo.families 0) eq_refl) as [credits Hc].
  exists credits. split; [exact Hc|].
  destruct (settlement_exact BountyDemo.families 0 BountyDemo.rows Hk) as (_ & _ & H); [vm_compute; discriminate|].
  rewrite (proj1 (H credits Hc) "fam"). reflexivity.
Defined.

Lemma promotion_settles_witness :
  exists sel, select_promoted_bounty_selection BountyDemo.pool BountyDemo.families 0 [pk_hex BountyDemo.key] = Ok sel /\
    map pbs_bounty_id (ps_shares sel) = ["a"; "b"] /\ (remove_promoted BountyDemo.pool (ps_shares sel)).2 + 1 = 3.
Proof.
  destruct (promotion_settles BountyDemo.pool BountyDemo.families 0 [pk_hex BountyDemo.key]) as (sel & H & _ & _ & _ & Hc).
  - apply side_pool_insert_ok; [apply side_pool_insert_ok; [apply side_pool_insert_ok; [apply side_pool_new_ok|]|]|];
      vm_compute; discriminate.
  - apply register_keyed, registry_new_keyed.
  - vm_compute. discriminate.
  - exists sel. split; [exact H|]. vm_compute in H. injection H as <-. split; vm_compute; reflexivity.
Defined.
