(* ===== verification/ReplayEvidence.v ===== *)
(** * Evidence verification (replay_evidence.rs)

    What a replaying node re-derives from one block: each selected share's
    package, hash, score, seed and reward authorization, the canonical order
    of the shares, and the proposer. Indexing past the end of a list
    aborts. *)

From S2P Require Import Prelude Json Externals Hash SignedEnvelope Block Config Validator ShareAuthorization BlockBuilder.

Inductive EvidencePolicy := Strict | AllowLegacyEvidenceLess.

Inductive EvidenceError :=
| EvidenceRequired
| EvidenceCount
| MultiplierMismatch
| EvidenceTarget
| EvidenceZeroTarget
| MinShareScoreMismatch
| EvidenceC
| EvidencePk
| EvidencePackageHex
| EvidencePackage (reason : ValidationReason)
| EvidenceCanonHash
| EvidenceHex (e : HexError)
| EvidenceShareHash
| EvidenceScore
| EvidenceSeed
| EvidenceAuth (e : AuthError)
| EvidenceSigner
| EvidenceWorkPk
| EvidenceWork
| EvidenceRewardPk
| CanonicalOrder
| ProposerSelection (e : BuildError)
| NoProposerFound
| ProposerMismatch
| ProposerRewardMismatch.

(** [list[idx]]. *)
Definition index {E A} (l : list A) (i : nat) : outcome E A := expect (l !! i).

Section ReplayEvidence.
Context {X : Externals}.

(** The authorization of one share, when there is one. *)
Definition check_authorization (block : PersistedBlock) (idx : nat) (evidence : SelectedShareEvidence)
    (verified : VerifiedShareAuthorization) : outcome EvidenceError unit :=
  do* ensure (String.eqb (va_signer_pk verified) (ev_pk evidence)) EvidenceSigner;
  do* ensure (String.eqb (va_work_pk verified) (ev_pk evidence)) EvidenceWorkPk;
  do* ensure (String.eqb (va_work_n verified) (ev_n evidence) && String.eqb (va_work_j verified) (ev_j evidence)
              && String.eqb (va_work_c verified) (ev_c evidence)
              && String.eqb (va_work_bytes_hex verified) (ev_proof_package evidence)) EvidenceWork;
  let* committed_reward_pk :=
    if len (b_selected_share_reward_pks block) =? 0 then Ok (ev_pk evidence)
    else index (b_selected_share_reward_pks block) idx in
  ensure (String.eqb committed_reward_pk (va_reward_recipient verified)) EvidenceRewardPk.

(** One turn of the loop of [verify_selected_share_evidence]. *)
Definition check_evidence (block : PersistedBlock) (expected_min_share_score : N) (expected_network_id : option string)
    (idx : nat) (evidence : SelectedShareEvidence) : outcome EvidenceError unit :=
  do* ensure (String.eqb (ev_c evidence) (b_prev_c block)) EvidenceC;
  let* committed_pk := index (b_selected_share_pks block) idx in
  do* ensure (String.eqb (ev_pk evidence) committed_pk) EvidencePk;
  let* package_bytes := ok_or (hex_decode (ev_proof_package evidence)) EvidencePackageHex in
  do* map_err EvidencePackage
    (validate_proof_package_with_limits package_bytes BASE_LANE_MAX_PROOF_BYTES BASE_LANE_MAX_DECLS);
  do* ensure (String.eqb (ev_canon_hash evidence) (hex_encode (sha256 package_bytes))) EvidenceCanonHash;
  let* c := map_err EvidenceHex (hex32_from_hex (ev_c evidence)) in
  let* pk := map_err EvidenceHex (hex32_from_hex (ev_pk evidence)) in
  let* n := map_err EvidenceHex (hex32_from_hex (ev_n evidence)) in
  let* j := map_err EvidenceHex (hex32_from_hex (ev_j evidence)) in
  let* canon_hash := map_err EvidenceHex (hex32_from_hex (ev_canon_hash evidence)) in
  let expected_share_hash := share_hash c pk n j canon_hash in
  let* committed_hash := index (b_selected_share_hashes block) idx in
  do* ensure (String.eqb (to_hex expected_share_hash) committed_hash) EvidenceShareHash;
  do* ensure (expected_min_share_score <=? share_score expected_share_hash) EvidenceScore;
  do* ensure (str_is_empty (ev_seed_hex evidence)
              || bool_decide (is_Some (find_target_seed_j_index c pk n (ev_seed_hex evidence)))) EvidenceSeed;
  let* verified := map_err EvidenceAuth
    (verify_share_work_authorization_for_network (ev_signed_work evidence) expected_network_id) in
  match verified with
  | Some v => check_authorization block idx evidence v
  | None => Ok tt
  end.

Definition verify_selected_share_evidence (block : PersistedBlock) (policy : EvidencePolicy)
    (expected_network_id : option string) : outcome EvidenceError unit :=
  match b_selected_share_evidence block with
  | [] => match policy with Strict => Err EvidenceRequired | AllowLegacyEvidenceLess => Ok tt end
  | _ =>
      do* ensure (len (b_selected_share_evidence block) =? len (b_selected_share_hashes block)) EvidenceCount;
      do* ensure (b_min_share_score_multiplier_nanos block =? MIN_SHARE_SCORE_MULTIPLIER_NANOS) MultiplierMismatch;
      let* t_share := ok_or (parse_biguint_hex (b_t_share block)) EvidenceTarget in
      let* expected_min_share_score :=
        ok_or (min_share_score t_share (b_min_share_score_multiplier_nanos block)) EvidenceZeroTarget in
      do* ensure (String.eqb (b_min_share_score block) (to_decimal expected_min_share_score)) MinShareScoreMismatch;
      do* ofold (fun idx evidence =>
                   do* check_evidence block expected_min_share_score expected_network_id idx evidence; Ok (S idx))
            0%nat (b_selected_share_evidence block);
      Ok tt
  end.

(** [windows(2)]. *)
Definition windows2 {A} (l : list A) : list (A * A) := zip l (tail l).

Definition check_order (_ : unit) (pair : SelectedShareEvidence * SelectedShareEvidence) : outcome EvidenceError unit :=
  match compare_canonical (evidence_order_key pair.1) (evidence_order_key pair.2) with
  | Gt => Err CanonicalOrder
  | _ => Ok tt
  end.

Definition verify_canonical_selection (block : PersistedBlock) : outcome EvidenceError unit :=
  match b_selected_share_evidence block with
  | [] => Ok tt
  | evidence =>
      do* ofold check_order tt (windows2 evidence);
      let* r := map_err ProposerSelection
        (select_qualifying_proposer (b_selected_share_hashes block) (b_t_block block)) in
      let* winner_index := ok_or r.1 NoProposerFound in
      let* winner_pk := index (b_selected_share_pks block) (N.to_nat winner_index) in
      do* ensure (String.eqb (b_proposer_pk block) winner_pk) ProposerMismatch;
      let* winner := index evidence (N.to_nat winner_index) in
      match ev_signed_work winner with
      | None => Ok tt
      | Some auth =>
          let* verified := map_err EvidenceAuth (verify_share_work_authorization auth) in
          let committed_proposer_reward_pk :=
            if str_is_empty (b_proposer_reward_pk block) then b_proposer_pk block else b_proposer_reward_pk block in
          ensure (String.eqb committed_proposer_reward_pk (va_reward_recipient verified)) ProposerRewardMismatch
      end
  end.

End ReplayEvidence.

(** ** What verified evidence shows *)

Section EvidenceFacts.
Context {X : Externals}.

(** The share hash of an evidence entry, re-derived from its coordinates and
    its package. *)
Definition derived_hash (e : SelectedShareEvidence) (h : Hex32) : Prop :=
  exists bytes c pk n j canon, hex_decode (ev_proof_package e) = Some bytes /\
    ev_canon_hash e = hex_encode (sha256 bytes) /\
    hex32_from_hex (ev_c e) = Ok c /\ hex32_from_hex (ev_pk e) = Ok pk /\ hex32_from_hex (ev_n e) = Ok n /\
    hex32_from_hex (ev_j e) = Ok j /\ hex32_from_hex (ev_canon_hash e) = Ok canon /\
    h = share_hash c pk n j canon.

(** The authorization is by the share's owner, for this share, and names the
    reward destination the block commits. *)
Record authorizes (block : PersistedBlock) (idx : nat) (e : SelectedShareEvidence) (v : VerifiedShareAuthorization)
    : Prop := {
  au_signer : va_signer_pk v = ev_pk e;
  au_work : va_work_pk v = ev_pk e /\ va_work_n v = ev_n e /\ va_work_j v = ev_j e /\ va_work_c v = ev_c e /\
    va_work_bytes_hex v = ev_proof_package e;
  au_reward : b_selected_share_reward_pks block = [] /\ va_reward_recipient v = ev_pk e \/
    b_selected_share_reward_pks block !! idx = Some (va_reward_recipient v)
}.

(** The entry at [idx] accounts for the share the block selects there. *)
Record accounted (block : PersistedBlock) (network : option string) (floor : N) (idx : nat)
    (e : SelectedShareEvidence) : Prop := {
  acc_c : ev_c e = b_prev_c block;
  acc_pk : b_selected_share_pks block !! idx = Some (ev_pk e);
  acc_hash : exists h, derived_hash e h /\ b_selected_share_hashes block !! idx = Some (to_hex h) /\
    floor <= share_score h;
  acc_auth : match ev_signed_work e with
    | None => network <> Some AUTHORIZATION_REQUIRED_NETWORK_ID
    | Some a => exists v, attests a v /\ (forall id, network = Some id -> va_network_id v = Some id) /\
        authorizes block idx e v
    end
}.

Lemma index_Ok {E A} (l : list A) i x : index (E:=E) l i = Ok x <-> l !! i = Some x.
Proof. unfold index, expect. destruct (l !! i); naive_solver. Qed.

Lemma len_zero {A} (l : list A) : (len l =? 0) = true <-> l = [].
Proof. unfold len. rewrite N.eqb_eq. destruct l; cbn; split; naive_solver lia. Qed.

Lemma check_authorization_Ok block idx e v : check_authorization block idx e v = Ok tt -> authorizes block idx e v.
Proof.
  unfold check_authorization. destruct (String.eqb_spec (va_signer_pk v) (ev_pk e)); [|done]. cbn [ensure obind].
  destruct (String.eqb_spec (va_work_pk v) (ev_pk e)); [|done]. cbn [ensure obind].
  destruct (_ && _) eqn:Ew; [|done]. breflect. cbn [ensure obind].
  destruct (len _ =? 0) eqn:El; cbn [obind].
  - destruct (String.eqb_spec (ev_pk e) (va_reward_recipient v)); [|done]. intros _. split; [done|done|].
    left. split; [by apply len_zero|done].
  - destruct (index _ idx) as [s| |] eqn:Ei; try done. cbn [obind]. apply index_Ok in Ei.
    destruct (String.eqb_spec s (va_reward_recipient v)); [|done]. intros _. split; [done|done|]. right. congruence.
Qed.

Lemma check_evidence_Ok block floor network idx e : check_evidence block floor network idx e = Ok tt ->
  accounted block network floor idx e.
Proof.
  unfold check_evidence. intros H. run_inv H; breflect.
  all: repeat match goal with H : index _ _ = Ok _ |- _ => apply index_Ok in H | H : map_err _ _ = Ok _ |- _ => run_inv H end.
  all: split; [done|congruence| |].
  1,3: match goal with H : to_hex ?h = _ |- _ => exists h end; split_and!; [|congruence|done];
    do 6 eexists; split_and!; done.
  all: match goal with H : verify_share_work_authorization_for_network _ _ = _ |- _ => apply verify_for_network_Ok in H end.
  - destruct E15 as (a' & -> & Ha & Hn). exists v. split_and!; [done|done|]. by apply check_authorization_Ok.
  - by destruct E15 as [-> Hn].
Qed.

Lemma evidence_fold block floor network l : forall i n,
  ofold (fun idx e => do* check_evidence block floor network idx e; Ok (S idx)) i l = Ok n ->
  forall k e, l !! k = Some e -> accounted block network floor (i + k) e.
Proof.
  induction l as [|e l IH]; intros i n H k e' Hk; [done|]. cbn [ofold] in H.
  destruct (check_evidence block floor network i e) as [[]| |] eqn:E; try discriminate H. cbn [obind] in H.
  destruct k as [|k]; [|by replace (i + S k)%nat with (S i + k)%nat by lia; eapply IH].
  injection Hk as <-. rewrite Nat.add_0_r. by apply check_evidence_Ok.
Qed.

(** Verified evidence accounts for every selected share. *)
Lemma verify_evidence_Ok block policy network : verify_selected_share_evidence block policy network = Ok tt ->
  b_selected_share_evidence block = [] /\ policy = AllowLegacyEvidenceLess \/
  exists t floor, parse_biguint_hex (b_t_share block) = Some t /\
    min_share_score t MIN_SHARE_SCORE_MULTIPLIER_NANOS = Some floor /\
    b_selected_share_evidence block <> [] /\
    length (b_selected_share_evidence block) = length (b_selected_share_hashes block) /\
    forall k e, b_selected_share_evidence block !! k = Some e -> accounted block network floor k e.
Proof.
  unfold verify_selected_share_evidence. destruct (b_selected_share_evidence block) as [|e0 l] eqn:El.
  { destruct policy; [done|]. intros _. by left. }
  rewrite <- El. intros H. right. run_inv H. breflect. exists a, a0.
  match goal with H : b_min_share_score_multiplier_nanos _ = _ |- _ => rewrite H in * end.
  split_and!; [done|done|by rewrite El|unfold len in *; lia|]. by eapply (evidence_fold _ _ _ _ 0).
Qed.

(** ** Verified selections *)

Lemma check_order_fold l : ofold check_order tt (windows2 l) = Ok tt ->
  forall i a b, l !! i = Some a -> l !! S i = Some b ->
    compare_canonical (evidence_order_key a) (evidence_order_key b) <> Gt.
Proof.
  induction l as [|x l IH]; intros H i a b Ha Hb; [done|]. destruct l as [|y l]; [by destruct i|].
  cbn [windows2 tail zip zip_with ofold] in H. unfold check_order at 1 in H. cbn [fst snd] in H.
  destruct (compare_canonical (evidence_order_key x) (evidence_order_key y)) eqn:E; try discriminate H;
    (destruct i as [|i]; [injection Ha as <-; injection Hb as <-; by rewrite E|by apply (IH H i)]).
Qed.

(** The proposer is the first selected share below the block target. *)
Lemma verify_canonical_Ok block : verify_canonical_selection block = Ok tt -> b_selected_share_evidence block <> [] ->
  exists i e h, b_selected_share_evidence block !! i = Some e /\ b_selected_share_hashes block !! i = Some h /\
    b_selected_share_pks block !! i = Some (b_proposer_pk block) /\
    hex256 h < hex256 (b_t_block block) /\
    (forall j g, (j < i)%nat -> b_selected_share_hashes block !! j = Some g -> hex256 (b_t_block block) <= hex256 g).
Proof.
  unfold verify_canonical_selection. destruct (b_selected_share_evidence block) as [|e0 l] eqn:El; [done|].
  rewrite <- El. intros H _. clear e0 l El.
  destruct (ofold check_order _ _) as [[]| |] eqn:Eo; try discriminate H. cbn [obind] in H.
  destruct (select_qualifying_proposer _ _) as [[w n]| |] eqn:Es; try discriminate H. cbn [map_err obind fst] in H.
  destruct w as [w|]; [|discriminate H]. cbn [ok_or obind] in H.
  destruct (index _ _) as [pk| |] eqn:Ep in H; try discriminate H. cbn [obind] in H. apply index_Ok in Ep.
  destruct (String.eqb_spec (b_proposer_pk block) pk) as [<-|]; [|discriminate H]. cbn [ensure obind] in H.
  destruct (index _ _) as [e| |] eqn:Ee in H; try discriminate H. apply index_Ok in Ee.
  apply select_qualifying_spec in Es as [Hw _]. symmetry in Hw. apply first_below_Some in Hw as (h & Hh & Hb & Hno).
  exists (N.to_nat w), e, h. split_and!; [done..|by apply N.ltb_lt|].
  intros j g Hj Hg. apply N.ltb_ge. by apply (Hno j).
Qed.

(** ** Indexing stays in range *)

(** The lists of a well-shaped block have the lengths the code indexes by. *)
Record shaped (block : PersistedBlock) : Prop := {
  sh_pks : length (b_selected_share_pks block) = length (b_selected_share_hashes block);
  sh_rewards : b_selected_share_reward_pks block = [] \/
    length (b_selected_share_reward_pks block) = length (b_selected_share_hashes block)
}.

Lemma validate_shape_shaped block : validate_shape block = Ok tt -> shaped block.
Proof.
  unfold validate_shape. intros H. run_inv H; breflect; unfold len in *; (split; [lia|]).
  all: match goal with H : _ && _ = false |- _ => apply andb_false_iff in H as [H|H]; breflect end;
    [left; destruct (b_selected_share_reward_pks block); [done|cbn [length] in *; lia]|right; lia].
Qed.

Lemma index_in_range {E A} (l : list A) i : (i < length l)%nat -> index (E:=E) l i <> Panic.
Proof. intros [x Hx]%lookup_lt_is_Some. unfold index. by rewrite Hx. Qed.

Lemma check_evidence_no_panic block floor network idx e : shaped block ->
  (idx < length (b_selected_share_hashes block))%nat -> check_evidence block floor network idx e <> Panic.
Proof.
  intros [Hpks Hrew] Hidx. unfold check_evidence, check_authorization.
  assert (Hp : index (E:=EvidenceError) (b_selected_share_pks block) idx <> Panic) by (apply index_in_range; lia).
  assert (Hh : index (E:=EvidenceError) (b_selected_share_hashes block) idx <> Panic) by (by apply index_in_range).
  assert (Hr : len (b_selected_share_reward_pks block) =? 0 = false ->
    index (E:=EvidenceError) (b_selected_share_reward_pks block) idx <> Panic).
  { intros Hz. destruct Hrew as [Hn|Hl]; [rewrite Hn in Hz; discriminate Hz|]. apply index_in_range. lia. }
  destruct (len _ =? 0); [|specialize (Hr eq_refl)]; total_tac.
Qed.

Lemma evidence_fold_no_panic block floor network : shaped block -> forall l i,
  (i + length l <= length (b_selected_share_hashes block))%nat ->
  ofold (fun idx e => do* check_evidence block floor network idx e; Ok (S idx)) i l <> Panic.
Proof.
  intros Hs l. induction l as [|e l IH]; intros i Hi; [done|]. cbn [ofold length] in *.
  pose proof (check_evidence_no_panic block floor network i e Hs ltac:(lia)).
  destruct (check_evidence block floor network i e); [|done|done]. cbn [obind]. apply IH. lia.
Qed.

Lemma verify_evidence_no_panic block policy network : shaped block ->
  verify_selected_share_evidence block policy network <> Panic.
Proof.
  intros Hs. unfold verify_selected_share_evidence. destruct (b_selected_share_evidence block) as [|e0 l] eqn:El.
  { by destruct policy. }
  rewrite <- El. clear e0 l El. destruct (len _ =? len _) eqn:Ec; [|done]. cbn [ensure obind]. apply N.eqb_eq in Ec.
  destruct (_ =? MIN_SHARE_SCORE_MULTIPLIER_NANOS); [|done]. cbn [ensure obind].
  destruct (parse_biguint_hex _); [|done]. cbn [ok_or obind]. destruct (min_share_score _ _) as [floor|]; [|done].
  cbn [ok_or obind]. destruct (String.eqb _ _); [|done]. cbn [ensure obind].
  pose proof (evidence_fold_no_panic block floor network Hs (b_selected_share_evidence block) 0) as Hf.
  unfold len in Ec. specialize (Hf ltac:(lia)). destruct (ofold _ _ _); done.
Qed.

Lemma select_qualifying_no_panic hs t : select_qualifying_proposer hs t <> Panic.
Proof.
  assert (Hn : forall s, normalize_hex256 s <> Panic) by (intros s; unfold normalize_hex256; total_tac).
  unfold select_qualifying_proposer. specialize (Hn t) as Ht. destruct (normalize_hex256 t) as [t'| |]; [|done|done].
  cbn [obind].
  pose proof (ofold_no_panic (fun _ => True) (qualify_step t') hs) as Hf.
  specialize (Hf ltac:(intros [[i w] c] h _ _; split; [|done]; unfold qualify_step; specialize (Hn h);
    destruct (normalize_hex256 h); [cbn [obind]; by case_match|done|done]) (0, None, 0) I).
  destruct (ofold _ _ _) as [[[? ?] ?]| |]; done.
Qed.

Lemma verify_canonical_no_panic block : shaped block ->
  length (b_selected_share_evidence block) = length (b_selected_share_hashes block) ->
  verify_canonical_selection block <> Panic.
Proof.
  intros [Hpks _] Hl. unfold verify_canonical_selection. destruct (b_selected_share_evidence block) as [|e0 l] eqn:El; [done|].
  rewrite <- El in *. clear e0 l El.
  pose proof (ofold_no_panic (fun _ => True) check_order (windows2 (b_selected_share_evidence block))) as Hf.
  specialize (Hf ltac:(intros [] p _ _; split; [|done]; unfold check_order; by case_match) tt I).
  destruct (ofold _ _ _) as [[]| |]; [|done|done]. cbn [obind].
  pose proof (select_qualifying_no_panic (b_selected_share_hashes block) (b_t_block block)) as Hq.
  destruct (select_qualifying_proposer _ _) as [[w n]| |] eqn:Es; [|done|done]. cbn [map_err obind fst].
  destruct w as [w|]; [|done]. cbn [ok_or obind].
  apply select_qualifying_spec in Es as [Hw _]. symmetry in Hw. apply first_below_Some in Hw as (h & Hh%lookup_lt_Some & _).
  pose proof (index_in_range (E:=EvidenceError) (b_selected_share_pks block) (N.to_nat w) ltac:(lia)).
  pose proof (index_in_range (E:=EvidenceError) (b_selected_share_evidence block) (N.to_nat w) ltac:(lia)).
  total_tac.
Qed.

End EvidenceFacts.
