(* ===== verification/Replay.v ===== *)
(** * Chain replay (replay.rs)

    A node re-derives the whole state of a chain from its blocks: linkage,
    hashes, evidence, the exactly-once rules of both lanes, and the balances,
    in block order. *)

From S2P Require Import Prelude Json Externals Hash Block BlockBuilder Difficulty Config ShareAuthorization.
From S2P Require Import FamilyManifest Bounty ReplayEvidence.

Definition LEGACY_UNNAMED_FALLBACK_NETWORK_ID : string := "boole-mvp".

(** The token a caller needs to replay blocks without evidence. *)
Inductive LegacyEvidenceOptIn := for_legacy_replay_only.

Record PersistedCredit := mkPersistedCredit { pc_pk : string; pc_amount : string }.

Record PersistedRewardEvent := mkPersistedRewardEvent {
  re_height : N;
  re_c : string;
  re_credits : list PersistedCredit
}.

Record ReplayResult := mkReplayResult {
  rr_latest_c : string;
  rr_height : N;
  rr_balances : gmap string N;
  rr_bounty_credit_by_family : gmap string N
}.

Inductive ReplayError :=
| EmptyOwners
| RewardPkHex (e : HexError)
| BadAmount
| ReplayBlock (e : BlockError)
| ReplayDifficulty (e : DifficultyError)
| ReplayEvidence (e : EvidenceError)
| ReplaySettlement (e : SettlementError)
| ReplayTarget
| StaticTBlock
| StaticTShare
| HeightMismatch
| PrevCMismatch
| BlockCMismatch
| KMaxExceeded
| SeedRequired
| ProofAlreadyCredited
| BountyAlreadyCredited
| ScopeMismatch
| ScopeOmitted.

Section Replay.
Context {X : Externals}.

(** [*totals.entry(pk).or_insert(0) += 1] on [u128]s. *)
Definition bump_total (totals : gmap string N) (pk : string) : outcome ReplayError (gmap string N) :=
  let* n := expect (checked_add u128_max (default 0 (totals !! pk)) 1) in
  Ok (<[pk := n]> totals).

Definition credit_share (totals : gmap string N) (pk : string) : outcome ReplayError (gmap string N) :=
  do* map_err RewardPkHex (hex32_from_hex pk);
  bump_total totals pk.

Definition compute_block_credits_for_reward_pks (proposer_reward_pk : string) (share_reward_pks : list string)
    : outcome ReplayError (list PersistedCredit) :=
  do* ensure (negb (len share_reward_pks =? 0)) EmptyOwners;
  do* map_err RewardPkHex (hex32_from_hex proposer_reward_pk);
  let* totals := ofold credit_share ∅ share_reward_pks in
  let* totals := bump_total totals proposer_reward_pk in
  Ok (map (fun e : string * N => mkPersistedCredit e.1 (to_decimal e.2)) (btree_iter totals)).

Definition compute_block_credits (proposer_pk : string) (share_owners : list string)
    : outcome ReplayError (list PersistedCredit) :=
  compute_block_credits_for_reward_pks proposer_pk share_owners.

(** The reward destinations of a block. *)
Definition proposer_sink (block : PersistedBlock) : string :=
  if str_is_empty (b_proposer_reward_pk block) then b_proposer_pk block else b_proposer_reward_pk block.

Definition share_sinks (block : PersistedBlock) : list string :=
  if len (b_selected_share_reward_pks block) =? 0 then b_selected_share_pks block
  else b_selected_share_reward_pks block.

Definition compute_block_reward_credits (block : PersistedBlock) : outcome ReplayError (list PersistedCredit) :=
  compute_block_credits_for_reward_pks (proposer_sink block) (share_sinks block).

(** ** One block *)

Record ReplayState := mkReplayState {
  rs_latest_c : string;
  rs_balances : gmap string N;
  rs_bounty : gmap string N;
  rs_proofs : gset string;
  rs_bounty_proofs : gset (string * string * string)
}.

Definition bounty_identity (s : PromotedBountyShare) : string * string * string :=
  (pbs_family_id s, pbs_bounty_id s, pbs_proof_hash s).

(** [if !set.insert(x) { bail }]. *)
Definition insert_new {A} `{Countable A} (e : ReplayError) (seen : gset A) (x : A) : outcome ReplayError (gset A) :=
  do* ensure (negb (bool_decide (x ∈ seen))) e;
  Ok ({[x]} ∪ seen).

Definition apply_credit (balances : gmap string N) (credit : PersistedCredit) : outcome ReplayError (gmap string N) :=
  let* amount := ok_or (parse_uint u128_max (pc_amount credit)) BadAmount in
  map_err ReplayBlock (checked_credit balances (pc_pk credit) amount).

Definition apply_bounty_credit (st : gmap string N * gmap string N) (credit : PromotedBountyCredit)
    : outcome ReplayError (gmap string N * gmap string N) :=
  let* amount := ok_or (parse_uint u128_max (pbc_amount credit)) BadAmount in
  let* balances := map_err ReplayBlock (checked_credit st.1 (pbc_prover credit) amount) in
  let* bounty := map_err ReplayBlock (checked_credit st.2 (pbc_family_id credit) amount) in
  Ok (balances, bounty).

(** The rules a genesis commits, on one block. *)
Definition check_genesis_rules (params : GenesisParams) (block : PersistedBlock) : outcome ReplayError unit :=
  do* ensure (len (b_selected_share_hashes block) <=? gp_k_max params) KMaxExceeded;
  if gp_seed_binding_required params
  then ensure (forallb (fun e => negb (str_is_empty (ev_seed_hex e))) (b_selected_share_evidence block)) SeedRequired
  else Ok tt.

(** One turn of the loop of [replay_blocks_with_rules]. *)
Definition replay_step (evidence_policy : EvidencePolicy) (genesis_params : option GenesisParams)
    (expected_network_id : option string) (registry : FamilyManifestRegistry)
    (st : N * ReplayState) (block : PersistedBlock) : outcome ReplayError (N * ReplayState) :=
  let '(expected_height, s) := st in
  do* map_err ReplayBlock (validate_shape block);
  do* ensure (b_height block =? expected_height) HeightMismatch;
  do* ensure (String.eqb (b_prev_c block) (rs_latest_c s)) PrevCMismatch;
  do* ensure (String.eqb (b_c block) (to_hex (block_hash block))) BlockCMismatch;
  do* map_err ReplayEvidence (verify_selected_share_evidence block evidence_policy expected_network_id);
  do* (match genesis_params with Some params => check_genesis_rules params block | None => Ok tt end);
  do* map_err ReplayEvidence (verify_canonical_selection block);
  let* proofs := ofold (fun seen e => insert_new ProofAlreadyCredited seen (ev_canon_hash e)) (rs_proofs s)
    (b_selected_share_evidence block) in
  let* credits := compute_block_reward_credits block in
  let* balances := ofold apply_credit (rs_balances s) credits in
  let* bounty_credits := map_err ReplaySettlement
    (derive_bounty_settlement (b_promoted_bounty_shares block) registry (b_height block)) in
  let* bounty_proofs := ofold (fun seen share => insert_new BountyAlreadyCredited seen (bounty_identity share))
    (rs_bounty_proofs s) (b_promoted_bounty_shares block) in
  let* lanes := ofold apply_bounty_credit (balances, rs_bounty s) bounty_credits in
  Ok (expected_height + 1, mkReplayState (b_c block) lanes.1 lanes.2 proofs bounty_proofs).

Definition replay_blocks_with_rules (blocks : list PersistedBlock) (evidence_policy : EvidencePolicy)
    (genesis_c : string) (genesis_params : option GenesisParams) (expected_network_id : option string)
    (registry : FamilyManifestRegistry) : outcome ReplayError ReplayResult :=
  do* map_err ReplayDifficulty (verify_block_ts_median_time_past blocks);
  let* st := ofold (replay_step evidence_policy genesis_params expected_network_id registry)
    (0, mkReplayState genesis_c ∅ ∅ ∅ ∅) blocks in
  Ok (mkReplayResult (rs_latest_c st.2) (len blocks) (rs_balances st.2) (rs_bounty st.2)).

(** ** Entry points *)

Definition replay_blocks_with_evidence_policy (blocks : list PersistedBlock) (evidence_policy : EvidencePolicy)
    (registry : FamilyManifestRegistry) : outcome ReplayError ReplayResult :=
  replay_blocks_with_rules blocks evidence_policy (repeat_char "0" 64) None None registry.

Definition replay_blocks (blocks : list PersistedBlock) : outcome ReplayError ReplayResult :=
  replay_blocks_with_evidence_policy blocks Strict registry_new.

Definition replay_blocks_allow_legacy_evidence_less (blocks : list PersistedBlock) (_ : LegacyEvidenceOptIn)
    (registry : FamilyManifestRegistry) : outcome ReplayError ReplayResult :=
  replay_blocks_with_evidence_policy blocks AllowLegacyEvidenceLess registry.

Definition replay_blocks_with_retarget (blocks : list PersistedBlock) (initial_t_block : string)
    (policy : DifficultyRetargetPolicy) : outcome ReplayError ReplayResult :=
  do* map_err ReplayDifficulty (validate_retargeted_difficulty blocks initial_t_block policy);
  replay_blocks blocks.

Definition replay_blocks_with_retarget_allow_legacy_evidence_less (blocks : list PersistedBlock)
    (initial_t_block : string) (policy : DifficultyRetargetPolicy) (opt_in : LegacyEvidenceOptIn)
    (registry : FamilyManifestRegistry) : outcome ReplayError ReplayResult :=
  do* map_err ReplayDifficulty (validate_retargeted_difficulty blocks initial_t_block policy);
  replay_blocks_allow_legacy_evidence_less blocks opt_in registry.

(** One turn of the loops of the two static rules. *)
Definition check_static (expected : N) (e : ReplayError) (target : PersistedBlock -> string) (block : PersistedBlock)
    : outcome ReplayError unit :=
  let* got := ok_or (parse_biguint_hex (target block)) ReplayTarget in
  ensure (got =? expected) e.

Definition validate_static_difficulty (blocks : list PersistedBlock) (initial_t_block : string)
    : outcome ReplayError unit :=
  let* expected := ok_or (parse_biguint_hex initial_t_block) ReplayTarget in
  ofold (fun _ block => check_static expected StaticTBlock b_t_block block) tt blocks.

Definition validate_static_t_share (blocks : list PersistedBlock) (genesis_t_share : string)
    : outcome ReplayError unit :=
  let* expected := ok_or (parse_biguint_hex genesis_t_share) ReplayTarget in
  ofold (fun _ block => check_static expected StaticTShare b_t_share block) tt blocks.

Definition replay_blocks_with_genesis_and_registry_for_authorization_network (blocks : list PersistedBlock)
    (spec : GenesisSpec) (registry : FamilyManifestRegistry) (authorization_network_id : option string)
    : outcome ReplayError ReplayResult :=
  do* (match authorization_network_id with
       | Some id => ensure (String.eqb id (gs_network_id spec)) ScopeMismatch
       | None => ensure (String.eqb (gs_network_id spec) LEGACY_UNNAMED_FALLBACK_NETWORK_ID) ScopeOmitted
       end);
  do* (match gp_retarget (gs_params spec) with
       | Some policy =>
           map_err ReplayDifficulty (validate_retargeted_difficulty blocks (gp_t_block (gs_params spec)) policy)
       | None => validate_static_difficulty blocks (gp_t_block (gs_params spec))
       end);
  do* validate_static_t_share blocks (gp_t_share (gs_params spec));
  replay_blocks_with_rules blocks Strict (gi_genesis_c (gs_initial_state spec)) (Some (gs_params spec))
    authorization_network_id registry.

Definition replay_blocks_with_genesis_and_registry (blocks : list PersistedBlock) (spec : GenesisSpec)
    (registry : FamilyManifestRegistry) : outcome ReplayError ReplayResult :=
  replay_blocks_with_genesis_and_registry_for_authorization_network blocks spec registry
    (Some (gs_network_id spec)).

Definition replay_blocks_with_genesis (blocks : list PersistedBlock) (spec : GenesisSpec)
    : outcome ReplayError ReplayResult :=
  replay_blocks_with_genesis_and_registry blocks spec registry_new.

End Replay.

(** ** Credits

    What a successful fold adds, per key and in total. *)

Definition held (m : gmap string N) (k : string) : N := default 0 (m !! k).

Definition sum_on {A} (key : A -> string) (amount : A -> N) (k : string) (l : list A) : N :=
  sum_by amount (List.filter (fun x => String.eqb (key x) k) l).

Lemma sum_on_cons {A} (key : A -> string) amount k x (l : list A) :
  sum_on key amount k (x :: l) = (if String.eqb (key x) k then amount x else 0) + sum_on key amount k l.
Proof. unfold sum_on, sum_by. cbn [List.filter]. destruct (String.eqb _ _); cbn [fold_right]; lia. Qed.

Lemma checked_credit_Ok m key amount m' : checked_credit m key amount = Ok m' ->
  (forall k, held m' k = held m k + (if String.eqb key k then amount else 0)) /\ map_sum m' = map_sum m + amount.
Proof.
  unfold checked_credit, held. intros H.
  set (m1 := match m !! key with Some _ => m | None => <[key := 0]> m end) in H.
  destruct (checked_add u128_max (default 0 (m1 !! key)) amount) as [t|] eqn:Ea; [|discriminate H]. injection H as <-.
  apply checked_add_Some in Ea as [-> _].
  assert (H1 : forall k, default 0 (m1 !! k) = default 0 (m !! k)).
  { intros k. unfold m1. destruct (m !! key) eqn:Ek; [done|].
    destruct (decide (k = key)) as [->|]; [by rewrite lookup_insert_eq, Ek|by rewrite lookup_insert_ne]. }
  split.
  - intros k. destruct (String.eqb_spec key k) as [<-|Hk]; [rewrite lookup_insert_eq; cbn; by rewrite H1|].
    rewrite lookup_insert_ne by done. rewrite H1. lia.
  - pose proof (map_sum_insert m1 key (default 0 (m1 !! key) + amount)) as Hs.
    assert (Hm : map_sum m1 = map_sum m).
    { unfold m1. destruct (m !! key) eqn:Ek; [done|]. by rewrite map_sum_insert_None. }
    lia.
Qed.

Definition paid_amount (c : PersistedCredit) : N := default 0 (parse_uint u128_max (pc_amount c)).

Lemma apply_credits_Ok {X : Externals} cs : forall m m', ofold apply_credit m cs = Ok m' ->
  (forall k, held m' k = held m k + sum_on pc_pk paid_amount k cs) /\ map_sum m' = map_sum m + sum_by paid_amount cs.
Proof.
  induction cs as [|c cs IH]; intros m m' H; [injection H as <-; split; [intros k|]; unfold sum_on, sum_by; cbn; lia|].
  cbn [ofold] in H. unfold apply_credit at 1 in H.
  destruct (parse_uint u128_max (pc_amount c)) as [n|] eqn:En; [|discriminate H]. cbn [ok_or obind] in H.
  destruct (checked_credit m (pc_pk c) n) as [m1| |] eqn:Ec; try discriminate H. cbn [map_err obind] in H.
  apply checked_credit_Ok in Ec as [H1 H2]. apply IH in H as [H3 H4].
  assert (Hp : paid_amount c = n) by (unfold paid_amount; by rewrite En). split.
  - intros k. rewrite H3, H1, sum_on_cons, Hp. lia.
  - rewrite H4, H2. unfold sum_by. cbn [fold_right]. rewrite Hp. lia.
Qed.

Lemma apply_bounty_credits_Ok {X : Externals} cs : forall st st', ofold apply_bounty_credit st cs = Ok st' ->
  (forall k, held st'.1 k = held st.1 k + sum_on pbc_prover credit_amount k cs) /\
  (forall f, held st'.2 f = held st.2 f + family_credit f cs) /\
  map_sum st'.1 = map_sum st.1 + sum_by credit_amount cs.
Proof.
  induction cs as [|c cs IH]; intros st st' H.
  { injection H as <-. unfold sum_on, family_credit, sum_by. cbn. split_and!; intros; lia. }
  cbn [ofold] in H. unfold apply_bounty_credit at 1 in H.
  destruct (parse_uint u128_max (pbc_amount c)) as [n|] eqn:En; [|discriminate H]. cbn [ok_or obind] in H.
  destruct (checked_credit st.1 _ n) as [m1| |] eqn:E1; try discriminate H. cbn [map_err obind] in H.
  destruct (checked_credit st.2 _ n) as [m2| |] eqn:E2; try discriminate H. cbn [map_err obind] in H.
  apply checked_credit_Ok in E1 as [H1 H1'], E2 as [H2 _]. apply IH in H as (H3 & H4 & H5). cbn [fst snd] in *.
  assert (Hp : credit_amount c = n) by (unfold credit_amount; by rewrite En). split_and!.
  - intros k. rewrite H3, H1, sum_on_cons, Hp. lia.
  - intros f. rewrite H4, H2. change (family_credit f (c :: cs)) with (sum_on pbc_family_id credit_amount f (c :: cs)).
    rewrite sum_on_cons, Hp. change (family_credit f cs) with (sum_on pbc_family_id credit_amount f cs). lia.
  - rewrite H5, H1'. unfold sum_by. cbn [fold_right]. rewrite Hp. lia.
Qed.

(** ** Base-lane credits *)

Definition occurrences (k : string) (l : list string) : N := len (List.filter (fun x => String.eqb x k) l).

Lemma occurrences_cons k x l : occurrences k (x :: l) = (if String.eqb x k then 1 else 0) + occurrences k l.
Proof. unfold occurrences, len. cbn [List.filter]. destruct (String.eqb x k); cbn [length]; lia. Qed.

Lemma bump_total_Ok {X : Externals} m pk m' : bump_total m pk = Ok m' ->
  (forall k, held m' k = held m k + (if String.eqb pk k then 1 else 0)) /\ map_sum m' = map_sum m + 1 /\
  (map_Forall (fun _ n => n <= u128_max) m -> map_Forall (fun _ n => n <= u128_max) m').
Proof.
  unfold bump_total, held. destruct (checked_add _ _ _) as [n|] eqn:Ea; [|done]. intros [= <-].
  apply checked_add_Some in Ea as [-> Hle]. split_and!.
  - intros k. destruct (String.eqb_spec pk k) as [<-|Hk]; [by rewrite lookup_insert_eq|].
    rewrite lookup_insert_ne by done. lia.
  - pose proof (map_sum_insert m pk (default 0 (m !! pk) + 1)). lia.
  - intros Hm. by apply map_Forall_insert_2.
Qed.

Lemma credit_shares_Ok {X : Externals} l : forall m m', ofold credit_share m l = Ok m' ->
  (forall k, held m' k = held m k + occurrences k l) /\ map_sum m' = map_sum m + len l /\
  (map_Forall (fun _ n => n <= u128_max) m -> map_Forall (fun _ n => n <= u128_max) m').
Proof.
  induction l as [|pk l IH]; intros m m' H.
  { injection H as <-. unfold occurrences, len. cbn. split_and!; [intros; lia|lia|done]. }
  cbn [ofold] in H. unfold credit_share at 1 in H. destruct (hex32_from_hex pk); try discriminate H. cbn [map_err obind] in H.
  destruct (bump_total m pk) as [m1| |] eqn:Eb; try discriminate H. cbn [obind] in H.
  apply bump_total_Ok in Eb as (H1 & H2 & H3). apply IH in H as (H4 & H5 & H6). split_and!.
  - intros k. rewrite H4, H1, occurrences_cons. lia.
  - rewrite H5, H2. unfold len. cbn [length]. lia.
  - auto.
Qed.

(** The credits of a map of totals, read back. *)
Lemma credits_of_totals m : map_Forall (fun _ n => n <= u128_max) m ->
  let cs := map (fun e : string * N => mkPersistedCredit e.1 (to_decimal e.2)) (btree_iter m) in
  (forall k, sum_on pc_pk paid_amount k cs = held m k) /\ sum_by paid_amount cs = map_sum m.
Proof.
  intros Hm cs.
  assert (Hpay : forall e, e ∈ btree_iter m -> paid_amount (mkPersistedCredit e.1 (to_decimal e.2)) = e.2).
  { intros [k n] Hin%elem_of_btree_iter. unfold paid_amount. cbn. rewrite parse_uint_to_decimal; [done|]. exact (Hm _ _ Hin). }
  split.
  - intros k. unfold held.
    assert (Hl : forall l, NoDup l.*1 -> (forall e, e ∈ l -> paid_amount (mkPersistedCredit e.1 (to_decimal e.2)) = e.2) ->
      sum_on pc_pk paid_amount k (map (fun e : string * N => mkPersistedCredit e.1 (to_decimal e.2)) l) =
      default 0 ((list_to_map l : gmap string N) !! k)).
    { induction l as [|[k' n] l IH]; intros Hn Hp; [done|]. apply NoDup_cons in Hn as [Hx Hn]. cbn [map].
      rewrite sum_on_cons, IH; [|done|intros e He; apply Hp; by right].
      rewrite (Hp (k', n)) by (by left). cbn [pc_pk fst snd]. destruct (String.eqb_spec k' k) as [->|Hk].
      - rewrite not_elem_of_list_to_map_1 by done. change (list_to_map ((k, n) :: l)) with (<[k := n]> (list_to_map l : gmap string N)).
        rewrite lookup_insert_eq. cbn. lia.
      - change (list_to_map ((k', n) :: l)) with (<[k' := n]> (list_to_map l : gmap string N)). by rewrite lookup_insert_ne. }
    unfold cs. by rewrite (Hl _ (btree_iter_nodup_keys m) Hpay), btree_list_to_map.
  - rewrite map_sum_btree. unfold cs. clear cs. revert Hpay. generalize (btree_iter m). intros l Hpay.
    induction l as [|e l IH]; [done|]. cbn [map]. unfold sum_by in *. cbn [fold_right fmap list_fmap].
    rewrite Hpay by (by left). f_equal. apply IH. intros e' He'. apply Hpay. by right.
Qed.

(** What one block credits to [k] in the base lane: one unit per selected share
    routed to it, and one when it is the proposer's destination. *)
Definition base_credit (k : string) (b : PersistedBlock) : N :=
  occurrences k (share_sinks b) + (if String.eqb (proposer_sink b) k then 1 else 0).

(** The bounty credits of a block. *)
Definition block_bounty (registry : FamilyManifestRegistry) (b : PersistedBlock) : list PromotedBountyCredit :=
  match derive_bounty_settlement (b_promoted_bounty_shares b) registry (b_height b) with Ok cs => cs | _ => [] end.

Definition block_credit (registry : FamilyManifestRegistry) (k : string) (b : PersistedBlock) : N :=
  base_credit k b + sum_on pbc_prover credit_amount k (block_bounty registry b).

(** Everything a block issues. *)
Definition block_issue (registry : FamilyManifestRegistry) (b : PersistedBlock) : N :=
  len (share_sinks b) + 1 + sum_by credit_amount (block_bounty registry b).

Definition chain_proofs (blocks : list PersistedBlock) : list string :=
  flat_map (fun b => map ev_canon_hash (b_selected_share_evidence b)) blocks.

Definition chain_bounty_proofs (blocks : list PersistedBlock) : list (string * string * string) :=
  flat_map (fun b => map bounty_identity (b_promoted_bounty_shares b)) blocks.

Lemma reward_credits_Ok {X : Externals} b cs : compute_block_reward_credits b = Ok cs ->
  (forall k, sum_on pc_pk paid_amount k cs = base_credit k b) /\ sum_by paid_amount cs = len (share_sinks b) + 1.
Proof.
  unfold compute_block_reward_credits, compute_block_credits_for_reward_pks. intros H. run_inv H. injection H as <-.
  match goal with H : ofold credit_share _ _ = Ok _ |- _ => apply credit_shares_Ok in H as (H1 & H2 & H3) end.
  match goal with H : bump_total _ _ = Ok _ |- _ => apply bump_total_Ok in H as (H4 & H5 & H6) end.
  specialize (H6 (H3 (map_Forall_empty _))). destruct (credits_of_totals _ H6) as [H7 H8]. split.
  - intros k. rewrite H7, H4, H1. unfold base_credit, held. rewrite lookup_empty. cbn. lia.
  - rewrite H8, H5, H2, map_sum_empty. lia.
Qed.

Lemma insert_all_Ok {A B} `{Countable B} (f : A -> B) e l : forall seen seen',
  ofold (fun seen x => insert_new e seen (f x)) seen l = Ok seen' ->
  NoDup (map f l) /\ (forall y, y ∈ map f l -> y ∉ seen) /\ seen' = list_to_set (map f l) ∪ seen.
Proof.
  induction l as [|x l IH]; intros seen seen' Hf.
  { injection Hf as <-. cbn. split_and!; [constructor|by intros y ?%elem_of_nil|set_solver]. }
  cbn [ofold] in Hf. unfold insert_new at 1 in Hf. case_bool_decide as Hx; [discriminate Hf|]. cbn [negb ensure obind] in Hf.
  apply IH in Hf as (Hn & Hd & ->). cbn [map]. split_and!.
  - constructor; [|done]. intros Hin. apply (Hd _ Hin). set_solver.
  - intros y [->|Hy]%elem_of_cons; [done|]. specialize (Hd y Hy). set_solver.
  - cbn. set_solver.
Qed.

(** The head a block at position [i] must extend. *)
Definition parent_c (genesis_c : string) (blocks : list PersistedBlock) (i : nat) : option string :=
  match i with O => Some genesis_c | S j => b_c <$> blocks !! j end.

Section ReplayFacts.
Context {X : Externals} (policy : EvidencePolicy) (genesis_c : string) (params : option GenesisParams).
Context (network : option string) (registry : FamilyManifestRegistry).

(** A block replay accepted at position [i]. *)
Record block_valid (blocks : list PersistedBlock) (i : nat) (b : PersistedBlock) : Prop := {
  bv_shape : validate_shape b = Ok tt;
  bv_height : b_height b = N.of_nat i;
  bv_parent : parent_c genesis_c blocks i = Some (b_prev_c b);
  bv_hash : b_c b = to_hex (block_hash b);
  bv_evidence : verify_selected_share_evidence b policy network = Ok tt;
  bv_selection : verify_canonical_selection b = Ok tt;
  bv_genesis : forall p, params = Some p -> check_genesis_rules p b = Ok tt;
  bv_settles : is_ok (derive_bounty_settlement (b_promoted_bounty_shares b) registry (b_height b)) = true
}.

Record replayed (blocks : list PersistedBlock) (st : N * ReplayState) : Prop := {
  rp_height : st.1 = len blocks;
  rp_latest : parent_c genesis_c blocks (length blocks) = Some (rs_latest_c st.2);
  rp_proofs : NoDup (chain_proofs blocks) /\ rs_proofs st.2 = list_to_set (chain_proofs blocks);
  rp_bounty_proofs : NoDup (chain_bounty_proofs blocks) /\ rs_bounty_proofs st.2 = list_to_set (chain_bounty_proofs blocks);
  rp_balances k : held (rs_balances st.2) k = sum_by (block_credit registry k) blocks;
  rp_bounty f : held (rs_bounty st.2) f = sum_by (fun b => family_credit f (block_bounty registry b)) blocks;
  rp_issued : map_sum (rs_balances st.2) = sum_by (block_issue registry) blocks;
  rp_blocks i b : blocks !! i = Some b -> block_valid blocks i b
}.

Lemma replayed_init : replayed [] (0, mkReplayState genesis_c ∅ ∅ ∅ ∅).
Proof.
  split; cbn; try done; try (split; [constructor|done]); intros; unfold held; rewrite ?lookup_empty; try done.
Qed.

Lemma flat_map_snoc {A B} (f : A -> list B) l x : flat_map f (l ++ [x]) = flat_map f l ++ f x.
Proof. rewrite flat_map_app. cbn. by rewrite app_nil_r. Qed.

Lemma sum_by_snoc {A} (f : A -> N) l x : sum_by f (l ++ [x]) = sum_by f l + f x.
Proof. rewrite sum_by_app. unfold sum_by at 2. cbn. lia. Qed.

Lemma parent_c_app blocks k i : (i <= length blocks)%nat -> parent_c genesis_c (blocks ++ k) i = parent_c genesis_c blocks i.
Proof. destruct i as [|i]; [done|]. intros Hi. cbn. by rewrite lookup_app_l by lia. Qed.

(** What one accepted block did to the state. *)
Lemma replay_step_Ok h s b st' : replay_step policy params network registry (h, s) b = Ok st' ->
  exists cs bounty bal1,
    (validate_shape b = Ok tt /\ b_height b = h /\ b_prev_c b = rs_latest_c s /\ b_c b = to_hex (block_hash b) /\
     verify_selected_share_evidence b policy network = Ok tt /\ verify_canonical_selection b = Ok tt /\
     (forall p, params = Some p -> check_genesis_rules p b = Ok tt)) /\
    compute_block_reward_credits b = Ok cs /\
    derive_bounty_settlement (b_promoted_bounty_shares b) registry (b_height b) = Ok bounty /\
    ofold apply_credit (rs_balances s) cs = Ok bal1 /\
    ofold apply_bounty_credit (bal1, rs_bounty s) bounty = Ok (rs_balances st'.2, rs_bounty st'.2) /\
    ofold (fun seen e => insert_new ProofAlreadyCredited seen (ev_canon_hash e)) (rs_proofs s)
      (b_selected_share_evidence b) = Ok (rs_proofs st'.2) /\
    ofold (fun seen x => insert_new BountyAlreadyCredited seen (bounty_identity x)) (rs_bounty_proofs s)
      (b_promoted_bounty_shares b) = Ok (rs_bounty_proofs st'.2) /\
    st'.1 = h + 1 /\ rs_latest_c st'.2 = b_c b.
Proof.
  unfold replay_step. intros H.
  destruct (validate_shape b) as [[]| |] eqn:E1; try discriminate H. cbn [map_err obind] in H.
  destruct (N.eqb_spec (b_height b) h) as [E2|]; try discriminate H. cbn [ensure obind] in H.
  destruct (String.eqb_spec (b_prev_c b) (rs_latest_c s)) as [E3|]; try discriminate H. cbn [ensure obind] in H.
  destruct (String.eqb_spec (b_c b) (to_hex (block_hash b))) as [E4|]; try discriminate H. cbn [ensure obind] in H.
  destruct (verify_selected_share_evidence b policy network) as [[]| |] eqn:E5; try discriminate H. cbn [map_err obind] in H.
  destruct (match params with Some p => _ | None => _ end) as [[]| |] eqn:E6; try discriminate H. cbn [obind] in H.
  destruct (verify_canonical_selection b) as [[]| |] eqn:E7; try discriminate H. cbn [map_err obind] in H.
  destruct (ofold _ (rs_proofs s) _) as [proofs| |] eqn:E8; try discriminate H. cbn [obind] in H.
  destruct (compute_block_reward_credits b) as [cs| |] eqn:E9; try discriminate H. cbn [obind] in H.
  destruct (ofold apply_credit _ cs) as [bal1| |] eqn:E10; try discriminate H. cbn [obind] in H.
  destruct (derive_bounty_settlement _ _ _) as [bounty| |] eqn:E11; try discriminate H. cbn [map_err obind] in H.
  destruct (ofold _ (rs_bounty_proofs s) _) as [bproofs| |] eqn:E12; try discriminate H. cbn [obind] in H.
  destruct (ofold apply_bounty_credit _ bounty) as [[bal2 bnt2]| |] eqn:E13; try discriminate H. cbn [obind] in H.
  injection H as <-. exists cs, bounty, bal1. cbn [fst snd rs_balances rs_bounty rs_proofs rs_bounty_proofs rs_latest_c].
  split_and!; try done. intros p ->. done.
Qed.

Lemma replay_step_replayed blocks st b st' : replayed blocks st ->
  replay_step policy params network registry st b = Ok st' -> replayed (blocks ++ [b]) st'.
Proof.
  intros Hr H. destruct st as [h s].
  apply replay_step_Ok in H as (cs & bounty & bal1 & Hv & Hcs & Hb & Hbal & Hbnt & Hp & Hbp & Hh & Hl).
  apply reward_credits_Ok in Hcs as [C1 C2]. apply apply_credits_Ok in Hbal as [B1 B2].
  apply apply_bounty_credits_Ok in Hbnt as (D1 & D2 & D3). cbn [fst snd] in *.
  apply insert_all_Ok in Hp as (P1 & P2 & P3), Hbp as (Q1 & Q2 & Q3).
  assert (Hbb : block_bounty registry b = bounty) by (unfold block_bounty; by rewrite Hb).
  destruct (rp_proofs _ _ Hr) as [R1 R2]. destruct (rp_bounty_proofs _ _ Hr) as [S1 S2]. cbn [snd] in R2, S2.
  split.
  - rewrite Hh, (rp_height _ _ Hr : h = _). unfold len. rewrite length_app. cbn. lia.
  - rewrite length_app, Nat.add_1_r. cbn [parent_c]. rewrite lookup_app_r, Nat.sub_diag by lia. cbn. by rewrite Hl.
  - unfold chain_proofs in *. rewrite flat_map_snoc. split; [|rewrite P3, R2, list_to_set_app_L; set_solver].
    apply NoDup_app. split_and!; [done| |done]. intros x Hx Hy. apply (P2 x Hy). rewrite R2. by apply elem_of_list_to_set.
  - unfold chain_bounty_proofs in *. rewrite flat_map_snoc. split; [|rewrite Q3, S2, list_to_set_app_L; set_solver].
    apply NoDup_app. split_and!; [done| |done]. intros x Hx Hy. apply (Q2 x Hy). rewrite S2. by apply elem_of_list_to_set.
  - intros k. rewrite D1, B1, C1, sum_by_snoc, (rp_balances _ _ Hr k : held (rs_balances s) k = _). unfold block_credit. rewrite Hbb. lia.
  - intros f. rewrite D2, sum_by_snoc, (rp_bounty _ _ Hr f : held (rs_bounty s) f = _), Hbb. lia.
  - rewrite D3, B2, C2, sum_by_snoc, (rp_issued _ _ Hr : map_sum (rs_balances s) = _). unfold block_issue. rewrite Hbb. lia.
  - intros i b' Hi. apply lookup_app_Some in Hi as [Hi|[Hge Hi]].
    + destruct (rp_blocks _ _ Hr i b' Hi). split; try done. apply lookup_lt_Some in Hi. by rewrite parent_c_app by lia.
    + destruct (i - length blocks)%nat as [|k] eqn:Ek; [|done]. injection Hi as <-.
      assert (i = length blocks) as -> by lia. destruct Hv as (V1 & V2 & V3 & V4 & V5 & V6 & V7). split; try done.
      * rewrite V2. apply (rp_height _ _ Hr).
      * rewrite parent_c_app by lia. rewrite V3. apply (rp_latest _ _ Hr).
      * by rewrite Hb.
Qed.

Lemma replay_fold blocks2 : forall blocks1 st st', replayed blocks1 st ->
  ofold (replay_step policy params network registry) st blocks2 = Ok st' -> replayed (blocks1 ++ blocks2) st'.
Proof.
  induction blocks2 as [|b blocks2 IH]; intros blocks1 st st' Hr H; [injection H as <-; by rewrite app_nil_r|].
  cbn [ofold] in H. destruct (replay_step _ _ _ _ st b) as [st1| |] eqn:E; try discriminate H. cbn [obind] in H.
  replace (blocks1 ++ b :: blocks2) with ((blocks1 ++ [b]) ++ blocks2) by (by rewrite <- app_assoc).
  apply (IH _ st1); [by eapply replay_step_replayed|done].
Qed.

Lemma replay_with_rules_Ok blocks r :
  replay_blocks_with_rules blocks policy genesis_c params network registry = Ok r ->
  verify_block_ts_median_time_past blocks = Ok tt /\
  exists st, replayed blocks st /\ rr_latest_c r = rs_latest_c st.2 /\ rr_height r = len blocks /\
    rr_balances r = rs_balances st.2 /\ rr_bounty_credit_by_family r = rs_bounty st.2.
Proof.
  unfold replay_blocks_with_rules. intros H.
  destruct (verify_block_ts_median_time_past blocks) as [[]| |]; try discriminate H. cbn [map_err obind] in H.
  destruct (ofold _ _ blocks) as [st| |] eqn:E; try discriminate H. injection H as <-. split; [done|]. exists st.
  split_and!; try done. by apply (replay_fold blocks [] _ _ replayed_init).
Qed.

End ReplayFacts.

(** ** Replay does not abort *)

(** The vectors of a block, as long as memory allows. *)
Record sized (b : PersistedBlock) : Prop := {
  sz_pks : len (b_selected_share_pks b) <= u64_max;
  sz_rewards : len (b_selected_share_reward_pks b) <= u64_max;
  sz_promoted : len (b_promoted_bounty_shares b) <= u64_max
}.

Section ReplayTotal.
Context {X : Externals}.

Lemma require_hex32_total s : require_hex32 s <> Panic.
Proof. unfold require_hex32. total_tac. Qed.

#[local] Hint Resolve require_hex32_total : total.

Lemma validate_shape_total b : validate_shape b <> Panic.
Proof.
  assert (Hall : forall l, require_all_hex32 l <> Panic).
  { intros l. apply (ofold_no_panic (fun _ => True)); [|done]. intros [] s _ _. split; [|done]. total_tac. }
  assert (Hp : ofold (fun _ share => validate_promoted_share share) tt (b_promoted_bounty_shares b) <> Panic).
  { apply (ofold_no_panic (fun _ => True)); [|done]. intros [] s _ _. split; [|done]. unfold validate_promoted_share. total_tac. }
  unfold validate_shape. total_tac.
Qed.

Lemma credit_shares_no_panic l : forall m, map_sum m + len l <= u128_max -> ofold credit_share m l <> Panic.
Proof.
  induction l as [|pk l IH]; intros m Hm; [done|]. cbn [ofold]. unfold credit_share at 1.
  pose proof (hex32_from_hex_total pk). destruct (hex32_from_hex pk); [|done|done]. cbn [map_err obind].
  unfold len in Hm. cbn [length] in Hm. pose proof (map_sum_lookup_le m pk) as Hle.
  destruct (bump_total m pk) as [m1| |] eqn:Eb; cbn [obind].
  - apply IH. apply bump_total_Ok in Eb as (_ & -> & _). unfold len. lia.
  - done.
  - unfold bump_total, checked_add in Eb. rewrite (proj2 (N.leb_le _ _)) in Eb by lia. discriminate Eb.
Qed.

Lemma reward_credits_no_panic b : sized b -> compute_block_reward_credits b <> Panic.
Proof.
  intros [H1 H2 _]. unfold compute_block_reward_credits, compute_block_credits_for_reward_pks.
  assert (Hl : len (share_sinks b) <= u64_max) by (unfold share_sinks; by case_match).
  destruct (negb _); [|done]. cbn [ensure obind]. pose proof (hex32_from_hex_total (proposer_sink b)).
  destruct (hex32_from_hex _); [|done|done]. cbn [map_err obind].
  assert (Hbig : u64_max + 1 <= u128_max) by (vm_compute; discriminate).
  pose proof (credit_shares_no_panic (share_sinks b) ∅ ltac:(rewrite map_sum_empty; lia)).
  destruct (ofold credit_share ∅ (share_sinks b)) as [m| |] eqn:Em; [|done|done]. cbn [obind].
  apply credit_shares_Ok in Em as (_ & Hsum & _). rewrite map_sum_empty in Hsum.
  unfold bump_total, checked_add. pose proof (map_sum_lookup_le m (proposer_sink b)).
  rewrite (proj2 (N.leb_le _ _)) by lia. done.
Qed.

Lemma checked_credit_total m k n : checked_credit m k n <> Panic.
Proof. unfold checked_credit. total_tac. Qed.

#[local] Hint Resolve checked_credit_total : total.

Lemma replay_step_no_panic policy params network registry st b : keyed registry -> sized b ->
  replay_step policy params network registry st b <> Panic.
Proof.
  intros Hk Hs. destruct st as [h s]. unfold replay_step.
  pose proof (validate_shape_total b). destruct (validate_shape b) as [[]| |] eqn:E1; [|done|done]. cbn [map_err obind].
  apply validate_shape_shaped in E1. destruct (_ =? _); [|done]. cbn [ensure obind].
  destruct (String.eqb _ _); [|done]. cbn [ensure obind]. destruct (String.eqb _ _); [|done]. cbn [ensure obind].
  pose proof (verify_evidence_no_panic b policy network E1) as Hev.
  destruct (verify_selected_share_evidence b policy network) as [[]| |] eqn:E5; [|done|done]. cbn [map_err obind].
  assert (Hsel : verify_canonical_selection b <> Panic).
  { apply verify_evidence_Ok in E5 as [[E5 _]|(t & f & _ & _ & _ & Hl & _)]; [|by apply verify_canonical_no_panic].
    unfold verify_canonical_selection. by rewrite E5. }
  assert (Hins : forall A B `(Countable B) e (f : A -> B) l seen,
    ofold (fun seen x => insert_new e seen (f x)) seen l <> Panic).
  { intros A B ? ? e f l seen. apply (ofold_no_panic (fun _ => True)); [|done]. intros ? x _ _. split; [|done].
    unfold insert_new. total_tac. }
  assert (Hcr : forall l m, ofold apply_credit m l <> Panic).
  { intros l m. apply (ofold_no_panic (fun _ => True)); [|done]. intros ? x _ _. split; [|done]. unfold apply_credit. total_tac. }
  assert (Hbc : forall l m, ofold apply_bounty_credit m l <> Panic).
  { intros l m. apply (ofold_no_panic (fun _ => True)); [|done]. intros ? x _ _. split; [|done]. unfold apply_bounty_credit. total_tac. }
  pose proof (reward_credits_no_panic b Hs) as Hrw.
  pose proof (proj2 (derive_rows_ok registry (b_height b) Hk _ (sz_promoted _ Hs))) as Hdr.
  unfold check_genesis_rules. total_tac.
Qed.

Lemma replay_no_panic blocks policy genesis_c params network registry : keyed registry -> Forall sized blocks ->
  replay_blocks_with_rules blocks policy genesis_c params network registry <> Panic.
Proof.
  intros Hk Hs. unfold replay_blocks_with_rules. pose proof (verify_ts_no_panic blocks).
  destruct (verify_block_ts_median_time_past blocks); [|done|done]. cbn [map_err obind].
  assert (Hf : ofold (replay_step policy params network registry) (0, mkReplayState genesis_c ∅ ∅ ∅ ∅) blocks <> Panic).
  { apply (ofold_no_panic (fun _ => True)); [|done]. intros st b Hb _. split; [|done].
    apply replay_step_no_panic; [done|]. exact (proj1 (Forall_forall _ _) Hs b Hb). }
  destruct (ofold _ _ _); done.
Qed.

End ReplayTotal.

(** ** Theorems *)

(** Replay never aborts, whatever the blocks hold: every index stays in
    range, no counter overflows, and every failure is a returned error. *)
Theorem replay_never_aborts {X : Externals} blocks policy genesis_c params network registry :
  keyed registry -> Forall sized blocks ->
  replay_blocks_with_rules blocks policy genesis_c params network registry <> Panic.
Proof. apply replay_no_panic. Qed.

(** C6: on a chain that replays, no proof is credited twice in the base lane and
    no (family, bounty, proof) twice in the bounty lane, within a block or
    across blocks. *)
Theorem replay_exactly_once {X : Externals} blocks policy genesis_c params network registry r :
  replay_blocks_with_rules blocks policy genesis_c params network registry = Ok r ->
  NoDup (chain_proofs blocks) /\ NoDup (chain_bounty_proofs blocks).
Proof.
  intros (_ & st & Hr & _)%replay_with_rules_Ok.
  split; [apply (rp_proofs _ _ _ _ _ _ _ Hr)|apply (rp_bounty_proofs _ _ _ _ _ _ _ Hr)].
Qed.

(** C7: replay issues exactly what the blocks earn. The balance of a key is one
    unit per selected share routed to it, one per block it proposes, and its
    bounty credits; a family's bounty total is the smaller of its rewards and
    its budget summed over the blocks; and the balances add up to everything
    the blocks issue. *)
Theorem replay_conserves {X : Externals} blocks policy genesis_c params network registry r :
  keyed registry ->
  replay_blocks_with_rules blocks policy genesis_c params network registry = Ok r ->
  (forall k, held (rr_balances r) k = sum_by (block_credit registry k) blocks) /\
  (forall f, held (rr_bounty_credit_by_family r) f = sum_by (fun b => match registry_get registry f with
     | Some m => payable m (sum_by row_reward (family_rows f (b_promoted_bounty_shares b))) | None => 0 end) blocks) /\
  map_sum (rr_balances r) = sum_by (block_issue registry) blocks.
Proof.
  intros Hk (_ & st & Hr & _ & _ & -> & ->)%replay_with_rules_Ok. split_and!.
  - apply Hr.
  - intros f. rewrite (rp_bounty _ _ _ _ _ _ _ Hr f).
    assert (Hall : forall b, b ∈ blocks -> family_credit f (block_bounty registry b) = match registry_get registry f with
      | Some m => payable m (sum_by row_reward (family_rows f (b_promoted_bounty_shares b))) | None => 0 end).
    { intros b [i Hi]%list_elem_of_lookup.
      destruct (is_ok_Ok _ (bv_settles _ _ _ _ _ _ _ _ (rp_blocks _ _ _ _ _ _ _ Hr i b Hi))) as [cs Hcs].
      unfold block_bounty. rewrite Hcs. by apply derive_credits in Hcs as [-> _]. }
    clear Hr. induction blocks as [|b blocks IH]; [done|]. unfold sum_by in *. cbn [fold_right].
    rewrite Hall by (by left). f_equal. apply IH. intros b' Hb'. apply Hall. by right.
  - apply Hr.
Qed.

(** C10: a chain that replays strictly is a linked chain of proven work: every
    block sits at its height on its parent's hash and carries its own hash;
    every selected share is accounted for, its hash re-derived from its
    package and its score above the committed floor; and the proposer owns the
    first share whose hash is numerically below the block's target. *)
Theorem replay_proves_work {X : Externals} blocks genesis_c params network registry r i b :
  replay_blocks_with_rules blocks Strict genesis_c params network registry = Ok r ->
  blocks !! i = Some b ->
  b_height b = N.of_nat i /\ parent_c genesis_c blocks i = Some (b_prev_c b) /\ b_c b = to_hex (block_hash b) /\
  (exists t floor, parse_biguint_hex (b_t_share b) = Some t /\
     min_share_score t MIN_SHARE_SCORE_MULTIPLIER_NANOS = Some floor /\
     length (b_selected_share_evidence b) = length (b_selected_share_hashes b) /\
     forall k e, b_selected_share_evidence b !! k = Some e -> accounted b network floor k e) /\
  (exists k e h, b_selected_share_evidence b !! k = Some e /\ derived_hash e h /\ ev_pk e = b_proposer_pk b /\
     hex256 (to_hex h) < hex256 (b_t_block b)) /\
  (forall p, params = Some p -> len (b_selected_share_hashes b) <= gp_k_max p).
Proof.
  intros (_ & st & Hr & _)%replay_with_rules_Ok Hi. destruct (rp_blocks _ _ _ _ _ _ _ Hr i b Hi).
  apply verify_evidence_Ok in bv_evidence0 as [[_ ?]|Hev]; [done|].
  destruct Hev as (t & floor & Ht & Hf & Hne & Hl & Hacc). split_and!; [done..|by exists t, floor| |].
  - destruct (verify_canonical_Ok b bv_selection0 Hne) as (k & e & h & He & Hh & Hpk & Hlt & _).
    destruct (acc_hash _ _ _ _ _ (Hacc k e He)) as (h' & Hd & Hh' & _).
    exists k, e, h'. pose proof (acc_pk _ _ _ _ _ (Hacc k e He)). split_and!; [done|done|congruence|]. by simplify_eq.
  - intros p ->. specialize (bv_genesis0 p eq_refl). unfold check_genesis_rules in bv_genesis0.
    destruct (N.leb_spec (len (b_selected_share_hashes b)) (gp_k_max p)); [done|discriminate bv_genesis0].
Qed.

(** ** Witnesses *)

From S2P Require Import Validator Concrete.

Module ReplayDemo.
Definition zeros : string := repeat_char "0" 64.
Definition ones : string := repeat_char "1" 64.
Definition package : list byte := lean_bound_canon_package "v" "c" "s".
Definition canon : string := to_hex (sha256 package).
Definition bytes32 (s : string) : list byte := match hex32_from_hex s with Ok b => b | _ => [] end.
Definition hash : string := to_hex (share_hash (bytes32 zeros) (bytes32 ones) (bytes32 zeros) (bytes32 zeros) (bytes32 canon)).
Definition evidence : SelectedShareEvidence :=
  mkSelectedShareEvidence ones zeros zeros zeros canon (hex_encode package) "" None.
Definition target : string := "0x" +:+ repeat_char "f" 64.
Definition row : PromotedBountyShare := mkPromotedBountyShare "fam" "b1" ones zeros "3".
Definition draft (c : string) : PersistedBlock :=
  mkPersistedBlock 0 zeros c ones [hash] [ones] [] "" [evidence] "1" MIN_SHARE_SCORE_MULTIPLIER_NANOS 1 0 target target
    "1" 0 0 0 1000 [row].
Definition block : PersistedBlock := draft (to_hex (block_hash (draft ""))).
Definition run : outcome ReplayError ReplayResult :=
  replay_blocks_with_rules [block] Strict zeros None None ManifestDemo.registry.
End ReplayDemo.

Lemma replay_never_aborts_witness : ReplayDemo.run <> Panic.
Proof.
  apply replay_never_aborts; [apply register_keyed, registry_new_keyed|].
  constructor; [|constructor]. split; vm_compute; discriminate.
Defined.

Lemma replay_exactly_once_witness :
  exists r, ReplayDemo.run = Ok r /\ NoDup (chain_proofs [ReplayDemo.block]).
Proof.
  destruct (is_ok_Ok ReplayDemo.run eq_refl) as [r Hr]. exists r. split; [exact Hr|].
  exact (proj1 (replay_exactly_once _ _ _ _ _ _ r Hr)).
Defined.

Lemma replay_conserves_witness :
  exists r, ReplayDemo.run = Ok r /\ held (rr_balances r) ReplayDemo.ones = 2 /\ map_sum (rr_balances r) = 5.
Proof.
  destruct (is_ok_Ok ReplayDemo.run eq_refl) as [r Hr]. exists r. split; [exact Hr|].
  destruct (replay_conserves _ _ _ _ _ _ r (register_keyed _ _ registry_new_keyed) Hr) as (H1 & _ & H3).
  rewrite H1, H3. split; vm_compute; reflexivity.
Defined.

Lemma replay_proves_work_witness :
  exists r h, ReplayDemo.run = Ok r /\ derived_hash ReplayDemo.evidence h /\ hex256 (to_hex h) < hex256 ReplayDemo.target.
Proof.
  destruct (is_ok_Ok ReplayDemo.run eq_refl) as [r Hr].
  destruct (replay_proves_work _ _ _ _ _ r 0%nat ReplayDemo.block Hr eq_refl) as (_ & _ & _ & _ & (k & e & h & He & Hd & _ & Hlt) & _).
  exists r, h. split; [exact Hr|]. destruct k as [|k]; [|discriminate He]. injection He as <-. split; [exact Hd|exact Hlt].
Defined.
