(* ===== verification/Admission.v ===== *)
(** * Share admission (admission.rs, admission_types.rs)

    A submission is parsed and then passes, in this order, the head check, the
    ticket, the seed binding, the package validator, the submission work, the
    rate limiter and the pool; only then are pool and limiter charged. The
    decoding texts of a rejection are kept as the check that failed. *)

From S2P Require Import Prelude Json Externals Hash Config SharePool RateLimiter Validator.

Record ParsedSubmission := mkParsedSubmission {
  su_c_hex : string;
  su_pk_hex : string;
  su_n_hex : string;
  su_j_hex : string;
  su_nonce_s_hex : string;
  su_c : Hex32;
  su_pk : Hex32;
  su_n : Hex32;
  su_j : Hex32;
  su_nonce_s : Hex32;
  su_package_bytes : list byte;
  su_seed_hex : string
}.

Inductive AdmissionStatus := BadRequest | UnprocessableEntity | RateLimited.

Definition status_code (s : AdmissionStatus) : N :=
  match s with BadRequest => 400 | UnprocessableEntity => 422 | RateLimited => 429 end.

Inductive TicketRejectReason := AboveTTicket | Unobserved.
Inductive SubmitPowRejectReason := AboveTSubmit.
Inductive SeedBindingRejectReason := NotDerivedFromContext.

(** Why a field does not decode. *)
Inductive DecodeFailure := NotHex32 (e : HexError) | NotHexBytes.

Inductive AdmissionError :=
| MissingField (field : string)
| InvalidFieldType (field expected : string)
| BadHex (field : string) (detail : DecodeFailure)
| ETicket (reason : TicketRejectReason)
| EValidator (reason : ValidationReason)
| ESubmitPow (reason : SubmitPowRejectReason)
| ESeedBinding (reason : SeedBindingRejectReason)
| ERateLimited (reason : RateLimitRejectReason)
| ESharePool (reason : SharePoolRejectReason).

Inductive RejectionReason :=
| RBadRequest (field : string)
| RDecode (field : string) (detail : DecodeFailure)
| RTicket (detail : TicketRejectReason)
| RValidator (reason : ValidationReason)
| RSubmitPow (detail : SubmitPowRejectReason)
| RSeedBinding (detail : SeedBindingRejectReason)
| RRateLimit (quota : RateLimitRejectReason)
| RSharePool (detail : SharePoolRejectReason).

Inductive AdmissionDecision :=
| DAccepted (share_hash : Hex32)
| DRejected (status : AdmissionStatus) (error : AdmissionError) (rejection : RejectionReason).

Inductive TicketAdmissionResult := TicketAllowed | TicketRejected (reason : TicketRejectReason).

Definition ticket_reject_str (r : TicketRejectReason) : string :=
  match r with AboveTTicket => "above_T_ticket" | Unobserved => "unobserved" end.
Definition submit_pow_reject_str (r : SubmitPowRejectReason) : string :=
  match r with AboveTSubmit => "above_T_submit" end.
Definition seed_binding_reject_str (r : SeedBindingRejectReason) : string :=
  match r with NotDerivedFromContext => "seed_not_derived_from_context" end.
Definition pool_reject_str (r : SharePoolRejectReason) : string :=
  match r with
  | Duplicate => "duplicate"
  | StaleC => "stale_c"
  | PkCapExceeded => "pk_cap_exceeded"
  | GlobalCapExceeded => "global_cap_exceeded"
  end.

Definition rejection_code (r : RejectionReason) : string :=
  match r with
  | RBadRequest _ => "bad_request"
  | RDecode _ _ => "decode"
  | RTicket detail => ticket_reject_str detail
  | RValidator _ => "validator_rejected"
  | RSubmitPow detail => submit_pow_reject_str detail
  | RSeedBinding detail => seed_binding_reject_str detail
  | RRateLimit _ => "rate_limited"
  | RSharePool detail => pool_reject_str detail
  end.

Definition reject_code (d : AdmissionDecision) : option string :=
  match d with DAccepted _ => None | DRejected _ _ rejection => Some (rejection_code rejection) end.

Definition check_admission_ticket (ticket_valid observed : bool) : TicketAdmissionResult :=
  if negb ticket_valid then TicketRejected AboveTTicket
  else if negb observed then TicketRejected Unobserved
  else TicketAllowed.

(** ** Parsing *)

Definition missing_field (field : string) : AdmissionDecision :=
  DRejected BadRequest (MissingField field) (RBadRequest field).

Definition decode_reject (field : string) (detail : DecodeFailure) : AdmissionDecision :=
  DRejected BadRequest (BadHex field detail) (RDecode field detail).

Definition string_field (body : list (string * Value)) (field : string) : outcome AdmissionDecision string :=
  let* value := ok_or (assoc field body) (missing_field field) in
  ok_or (as_str value) (DRejected BadRequest (InvalidFieldType field "string") (RBadRequest field)).

Definition SUBMISSION_FIELDS : list string := ["c"; "pk"; "n"; "j"; "nonceS"; "bytes"].

Section Admission.
Context {X : Externals}.

Definition hex32_field (field value : string) : outcome AdmissionDecision Hex32 :=
  map_err (fun e => decode_reject field (NotHex32 e)) (hex32_from_hex value).

Definition parse_submission_body (body : list (string * Value)) : outcome AdmissionDecision ParsedSubmission :=
  do* ofold (fun _ field => ensure (bool_decide (is_Some (assoc field body))) (missing_field field)) tt
    SUBMISSION_FIELDS;
  let* c_hex := string_field body "c" in
  let* pk_hex := string_field body "pk" in
  let* n_hex := string_field body "n" in
  let* j_hex := string_field body "j" in
  let* nonce_s_hex := string_field body "nonceS" in
  let* bytes_hex := string_field body "bytes" in
  let* c := hex32_field "c" c_hex in
  let* pk := hex32_field "pk" pk_hex in
  let* n := hex32_field "n" n_hex in
  let* j := hex32_field "j" j_hex in
  let* nonce_s := hex32_field "nonceS" nonce_s_hex in
  let* package_bytes := ok_or (hex_decode bytes_hex) (decode_reject "bytes" NotHexBytes) in
  let* seed_hex := match assoc "seedHex" body with
                   | Some _ => string_field body "seedHex"
                   | None => Ok ""
                   end in
  Ok (mkParsedSubmission c_hex pk_hex n_hex j_hex nonce_s_hex c pk n j nonce_s package_bytes seed_hex).

(** ** Admission *)

(** The limiter, the pool and the decision; a clock or counter that leaves its
    width aborts. *)
Definition AdmissionRun (E : Type) : Type := outcome E (RateLimiter * SharePool * AdmissionDecision).

Definition unprocessable (error : AdmissionError) (rejection : RejectionReason) : AdmissionDecision :=
  DRejected UnprocessableEntity error rejection.

Definition pool_share (s : ParsedSubmission) : PoolShare :=
  mkPoolShare "admission" (su_pk_hex s) (su_n_hex s) (su_j_hex s) (su_c_hex s).

Definition canon_hash_of (s : ParsedSubmission) : Hex32 := sha256 (su_package_bytes s).

Definition submitted_share_hash (s : ParsedSubmission) : Hex32 :=
  share_hash (su_c s) (su_pk s) (su_n s) (su_j s) (canon_hash_of s).

Definition seed_bound (s : ParsedSubmission) : bool :=
  str_is_empty (su_seed_hex s)
  || bool_decide (is_Some (find_target_seed_j_index (su_c s) (su_pk s) (su_n s) (su_seed_hex s))).

Definition admit_parsed_submission_typed {E} (policy : CalibrationPolicy) (rate_limiter : RateLimiter)
    (pool : SharePool) (now : Z) (ip : string) (s : ParsedSubmission) : AdmissionRun E :=
  let refuse d := Ok (rate_limiter, pool, d) in
  if stale pool (pool_share s) then refuse (unprocessable (ESharePool StaleC) (RSharePool StaleC))
  else
    let ticket_result := ticket (su_c s) (su_pk s) (su_n s) (t_ticket (cp_thresholds policy)) in
    match check_admission_ticket (tr_valid ticket_result)
            (has_observed_ticket rate_limiter (su_pk_hex s) (su_c_hex s) (su_n_hex s)) with
    | TicketRejected reason => refuse (unprocessable (ETicket reason) (RTicket reason))
    | TicketAllowed =>
        if negb (seed_bound s)
        then refuse (unprocessable (ESeedBinding NotDerivedFromContext) (RSeedBinding NotDerivedFromContext))
        else
          match validate_proof_package_with_policy (su_package_bytes s) policy with
          | Panic => Panic
          | Err reason => refuse (unprocessable (EValidator reason) (RValidator reason))
          | Ok _ =>
              let* pow := check_submission_pow_with_policy (su_c s) (su_pk s) (su_nonce_s s) (canon_hash_of s) policy in
              match pow with
              | PowAboveTSubmit _ => refuse (unprocessable (ESubmitPow AboveTSubmit) (RSubmitPow AboveTSubmit))
              | PowOk _ =>
                  let* rate := peek rate_limiter now ip (su_pk_hex s) (su_c_hex s) in
                  match rate with
                  | Rejected reason => refuse (DRejected RateLimited (ERateLimited reason) (RRateLimit reason))
                  | Allowed =>
                      match accept pool (pool_share s) with
                      | (pool', AcceptErr reason) =>
                          Ok (rate_limiter, pool', unprocessable (ESharePool reason) (RSharePool reason))
                      | (pool', AcceptOk) =>
                          let* rate_limiter' := rl_commit rate_limiter now ip (su_pk_hex s) (su_c_hex s) in
                          Ok (rate_limiter', pool', DAccepted (submitted_share_hash s))
                      end
                  end
              end
          end
    end.

Definition admit_submission_typed {E} (policy : CalibrationPolicy) (rate_limiter : RateLimiter) (pool : SharePool)
    (now : Z) (ip : string) (body : list (string * Value)) : AdmissionRun E :=
  match parse_submission_body body with
  | Ok submission => admit_parsed_submission_typed policy rate_limiter pool now ip submission
  | Err decision => Ok (rate_limiter, pool, decision)
  | Panic => Panic
  end.

End Admission.

(** ** Lemmas *)

Section AdmissionFacts.
Context {X : Externals}.

(** The texts and the bytes of a parsed submission agree. *)
Record submission_wf (s : ParsedSubmission) : Prop := {
  wf_c : hex32_from_hex (su_c_hex s) = Ok (su_c s);
  wf_pk : hex32_from_hex (su_pk_hex s) = Ok (su_pk s);
  wf_n : hex32_from_hex (su_n_hex s) = Ok (su_n s);
  wf_j : hex32_from_hex (su_j_hex s) = Ok (su_j s);
  wf_nonce : hex32_from_hex (su_nonce_s_hex s) = Ok (su_nonce_s s)
}.

Lemma hex32_field_Ok f v b : hex32_field f v = Ok b -> hex32_from_hex v = Ok b.
Proof. unfold hex32_field. by destruct (hex32_from_hex v); intros [= <-]. Qed.

Lemma parse_submission_wf body s : parse_submission_body body = Ok s -> submission_wf s.
Proof.
  unfold parse_submission_body. intros H. run_inv H.
  all: repeat match goal with H : hex32_field _ _ = Ok _ |- _ => apply hex32_field_Ok in H end.
  all: injection H as <-; by split.
Qed.

(** What an accepted submission passed. *)
Record admissible (policy : CalibrationPolicy) (rl : RateLimiter) (pool : SharePool) (now : Z) (ip : string)
    (s : ParsedSubmission) : Prop := {
  ad_head : stale pool (pool_share s) = false;
  ad_ticket : be_value (h_protocol DOMAIN_TICKET [su_c s; su_pk s; su_n s]) < t_ticket (cp_thresholds policy);
  ad_observed : has_observed_ticket rl (su_pk_hex s) (su_c_hex s) (su_n_hex s) = true;
  ad_seed : seed_bound s = true;
  ad_package : is_ok (validate_proof_package_with_policy (su_package_bytes s) policy) = true;
  ad_work : (submission_pow_ok (su_c s) (su_pk s) (su_nonce_s s) (canon_hash_of s)
               (t_submit (cp_thresholds policy))).1 = true;
  ad_rate : peek (E:=unit) rl now ip (su_pk_hex s) (su_c_hex s) = Ok Allowed;
  ad_pool : (accept pool (pool_share s)).2 = AcceptOk
}.

Lemma accept_err_same pool s p reason : accept pool s = (p, AcceptErr reason) -> p = pool.
Proof. unfold accept. intros Ha. repeat case_match; by simplify_eq. Qed.

Lemma peek_Ok_any {E F} rl now ip pk c r : peek (E:=E) rl now ip pk c = Ok r -> peek (E:=F) rl now ip pk c = Ok r.
Proof.
  unfold peek, i64. intros H. repeat (case_match; cbn [obind] in *; try discriminate H); by simplify_eq.
Qed.

Definition rejected (d : AdmissionDecision) : Prop := match d with DAccepted _ => False | DRejected _ _ _ => True end.

Lemma string_field_rejects body f : errs rejected (string_field body f).
Proof. unfold string_field. errs_tac. Qed.

Lemma hex32_field_rejects f v : errs rejected (hex32_field f v).
Proof. unfold hex32_field. intros d. by destruct (hex32_from_hex v); intros [= <-]. Qed.

Lemma parse_rejects body : errs rejected (parse_submission_body body).
Proof.
  unfold parse_submission_body, SUBMISSION_FIELDS. cbn [ofold].
  errs_tac; first [apply string_field_rejects | apply hex32_field_rejects | idtac].
  case_match; [apply string_field_rejects|by intros d].
Qed.

Lemma pow_ok {E} c pk nonce canon policy n :
  check_submission_pow_with_policy (E:=E) c pk nonce canon policy = Ok (PowOk n) ->
  (submission_pow_ok c pk nonce canon (t_submit (cp_thresholds policy))).1 = true.
Proof.
  unfold check_submission_pow_with_policy, hex32_from_slice.
  repeat (case_match; cbn [obind]; [|done]). unfold submission_pow_result. by destruct (submission_pow_ok _ _ _ _ _) as [[] m].
Qed.

Lemma accept_ok_inserts pool s p : accept pool s = (p, AcceptOk) -> p = insert_active pool s.
Proof. unfold accept. intros Ha. repeat case_match; by simplify_eq. Qed.

(** The decision on a parsed submission, by its outcome. *)
Lemma admit_parsed_Ok {E} policy rl pool now ip s rl' pool' d :
  admit_parsed_submission_typed (E:=E) policy rl pool now ip s = Ok (rl', pool', d) ->
  match d with
  | DRejected _ _ _ => rl' = rl /\ pool' = pool
  | DAccepted h => admissible policy rl pool now ip s /\ h = submitted_share_hash s /\
      pool' = insert_active pool (pool_share s) /\
      rl_commit (E:=E) rl now ip (su_pk_hex s) (su_c_hex s) = Ok rl'
  end.
Proof.
  unfold admit_parsed_submission_typed.
  destruct (stale pool (pool_share s)) eqn:Hst; [by intros [= <- <- <-]|].
  unfold check_admission_ticket.
  destruct (tr_valid (ticket _ _ _ _)) eqn:Ht; cbn [negb]; [|by intros [= <- <- <-]].
  destruct (has_observed_ticket _ _ _ _) eqn:Ho; cbn [negb]; [|by intros [= <- <- <-]].
  destruct (seed_bound s) eqn:Hs; cbn [negb]; [|by intros [= <- <- <-]].
  destruct (validate_proof_package_with_policy _ _) as [w|r|] eqn:Hv; [|by intros [= <- <- <-]|done].
  destruct (check_submission_pow_with_policy _ _ _ _ _) as [[n|n]| |] eqn:Hw; cbn [obind]; [|by intros [= <- <- <-]|done..].
  destruct (peek _ _ _ _ _) as [[|reason]| |] eqn:Hr; cbn [obind]; [|by intros [= <- <- <-]|done..].
  destruct (accept pool (pool_share s)) as [p [|reason]] eqn:Ha.
  - destruct (rl_commit _ _ _ _ _) as [rl1| |] eqn:Hc; [|done|done]. intros [= <- <- <-].
    split_and!; [|done|by apply accept_ok_inserts|done].
    split; [done|by apply N.ltb_lt in Ht|done|done|by rewrite Hv|by eapply pow_ok|by eapply peek_Ok_any|by rewrite Ha].
  - intros [= <- <- <-]. split; [done|]. by eapply accept_err_same.
Qed.

End AdmissionFacts.

(** ** Theorem *)

(** C23: admission is all or nothing. An accepted submission passed every gate,
    its decision carries the share hash derived from its coordinates and its
    package, the pool holds the share and the limiter is charged once; a
    rejected one leaves pool and limiter as they were. *)
Theorem admission_all_or_nothing {X : Externals} {E} policy rl pool now ip body rl' pool' d :
  admit_submission_typed (E:=E) policy rl pool now ip body = Ok (rl', pool', d) ->
  match d with
  | DRejected _ _ _ => rl' = rl /\ pool' = pool
  | DAccepted h => exists s, parse_submission_body body = Ok s /\ submission_wf s /\
      admissible policy rl pool now ip s /\ h = submitted_share_hash s /\
      pool' = insert_active pool (pool_share s) /\
      rl_commit (E:=E) rl now ip (su_pk_hex s) (su_c_hex s) = Ok rl'
  end.
Proof.
  unfold admit_submission_typed. destruct (parse_submission_body body) as [s|d0|] eqn:Hp; [|intros [= <- <- <-]|done].
  - intros H. apply admit_parsed_Ok in H. destruct d as [h|]; [|done]. exists s. split; [done|].
    split; [by eapply parse_submission_wf|done].
  - pose proof (parse_rejects body d0 Hp) as Hd. by destruct d0.
Qed.

(** ** Witness *)

From S2P Require Import Concrete.

Module AdmissionDemo.
Definition zeros : string := repeat_char "0" 64.
Definition top : N := 2 ^ 256 - 1.
Definition policy : CalibrationPolicy :=
  mkCalibrationPolicy (mkCalibrationThresholds top top top top) 4 2 8 16384 1024 2 10 1000000000.
Definition body : list (string * Value) :=
  [("c", VString zeros); ("pk", VString zeros); ("n", VString zeros); ("j", VString zeros); ("nonceS", VString zeros);
   ("bytes", VString (hex_encode (lean_bound_canon_package "v" "c" "s")))].
Definition limiter : RateLimiter :=
  match observe_ticket (E:=unit) (limiter_set_current_c (limiter_from_policy policy 60000) zeros) zeros zeros (Some zeros) with
  | Ok (rl, _) => rl | _ => limiter_from_policy policy 60000 end.
Definition pool : SharePool := pool_set_current_c (pool_from_policy policy) zeros.
Definition run : AdmissionRun unit := admit_submission_typed policy limiter pool 1000000 "127.0.0.1" body.
End AdmissionDemo.

Lemma admission_all_or_nothing_witness :
  exists rl' pool' h s, AdmissionDemo.run = Ok (rl', pool', DAccepted h) /\
    h = submitted_share_hash s /\ pool' = insert_active AdmissionDemo.pool (pool_share s).
Proof.
  destruct (is_ok_Ok AdmissionDemo.run eq_refl) as [[[rl' pool'] d] Hrun].
  assert (Hd : match d with DAccepted _ => true | DRejected _ _ _ => false end = true).
  { assert (He : match AdmissionDemo.run with Ok (_, _, DAccepted _) => true | _ => false end =
                 match d with DAccepted _ => true | DRejected _ _ _ => false end) by (rewrite Hrun; reflexivity).
    rewrite <- He. vm_compute. reflexivity. }
  pose proof (admission_all_or_nothing (E:=unit) AdmissionDemo.policy AdmissionDemo.limiter AdmissionDemo.pool
    1000000 "127.0.0.1" AdmissionDemo.body rl' pool' d Hrun) as H.
  destruct d as [h|]; [|discriminate Hd]. destruct H as (s & _ & _ & _ & Hh & Hp & _).
  exists rl', pool', h, s. by split_and!.
Defined.
