(* ===== verification/Durability.v ===== *)
(** * Durable line logs (boole-node/src/durability.rs)

    Appending a line, replacing a file and reading back the stable prefix. The
    file system is explicit state. What the operating system answers to each
    call is an argument of the operation, so a theorem about an operation
    covers every failure. *)

From S2P Require Import Prelude.

(** ** Bytes and text *)

Definition newline : byte := x0a.
Definition carriage_return : byte := x0d.

Definition byte_between (lo hi : N) (b : byte) : bool := (lo <=? Byte.to_N b) && (Byte.to_N b <=? hi).

Definition continuation (b : byte) : bool := byte_between 128 191 b.

(** [core::str::from_utf8]. *)
Fixpoint utf8_valid (l : list byte) : bool :=
  match l with
  | [] => true
  | b :: l1 =>
      if byte_between 0 127 b then utf8_valid l1
      else if byte_between 194 223 b then
        match l1 with c1 :: l2 => continuation c1 && utf8_valid l2 | _ => false end
      else if byte_between 224 239 b then
        match l1 with
        | c1 :: c2 :: l3 =>
            (if Byte.to_N b =? 224 then byte_between 160 191 c1
             else if Byte.to_N b =? 237 then byte_between 128 159 c1 else continuation c1)
            && continuation c2 && utf8_valid l3
        | _ => false
        end
      else if byte_between 240 244 b then
        match l1 with
        | c1 :: c2 :: c3 :: l4 =>
            (if Byte.to_N b =? 240 then byte_between 144 191 c1
             else if Byte.to_N b =? 244 then byte_between 128 143 c1 else continuation c1)
            && continuation c2 && continuation c3 && utf8_valid l4
        | _ => false
        end
      else false
  end.

(** [str::lines]: the pieces between newlines, the last one optional, each
    without a final carriage return. *)
Definition strip_cr (l : list byte) : list byte :=
  match last l with Some b => if Byte.eqb b carriage_return then removelast l else l | None => l end.

Fixpoint split_lines (acc l : list byte) : list (list byte) :=
  match l with
  | [] => match acc with [] => [] | _ => [acc] end
  | b :: l' => if Byte.eqb b newline then strip_cr acc :: split_lines [] l' else split_lines (acc ++ [b]) l'
  end.

Definition str_lines (raw : list byte) : list (list byte) := split_lines [] raw.

(** [raw.lines().filter(|line| !line.is_empty())]. *)
Definition nonempty_lines (raw : list byte) : list (list byte) :=
  List.filter (fun line => negb (bool_decide (line = []))) (str_lines raw).

(** [Iterator::rposition]. *)
Fixpoint rposition {A} (p : A -> bool) (l : list A) : option nat :=
  match l with
  | [] => None
  | a :: l' => match rposition p l' with
               | Some i => Some (S i)
               | None => if p a then Some 0%nat else None
               end
  end.

Definition stable_jsonl_prefix_len (bytes : list byte) : nat :=
  if bool_decide (bytes = []) || bool_decide (last bytes = Some newline) then length bytes
  else match rposition (Byte.eqb newline) bytes with Some i => S i | None => 0%nat end.

(** ** Files *)

(** A regular file: its inode and its bytes. *)
Record FileNode := mkFileNode { fn_ino : N; fn_bytes : list byte }.

(** The fence against writes whose effect is unknown. *)
Record AppendFailureFence := mkFence {
  ff_paths : gset string;
  ff_files : gset N;
  ff_all_writes : bool
}.

(** Files by resolved path, the next free inode, and the fence of the process. *)
Record Host := mkHost {
  h_files : gmap string FileNode;
  h_next_ino : N;
  h_fence : AppendFailureFence
}.

Inductive IoError :=
| IndeterminateWrite
| IoFailed
| AppendRestored
| AppendFenced
| NotUtf8.

(** What the system answers during one append. *)
Inductive OpenIo := OpenOk | OpenFailed (created : bool).

Record AppendIo := mkAppendIo {
  ai_open : OpenIo;            (* create_dir_all, canonicalize, open, metadata *)
  ai_seek : bool;              (* seek to the end *)
  ai_written : option nat;     (* the number of bytes out when the write failed *)
  ai_sync : bool;              (* flush, sync_all, fsync of the directory *)
  ai_truncate : bool;          (* set_len of the rollback *)
  ai_resync : bool;            (* sync_all, fsync of the rollback *)
  ai_clone : bool              (* try_clone of the descriptor *)
}.

(** One replacement: everything before the rename, the rename, the directory. *)
Record RewriteIo := mkRewriteIo { ri_prepare : bool; ri_rename : bool; ri_sync : bool }.

(** One read: open and read, the truncation of a torn tail, its sync. *)
Record ReadIo := mkReadIo { rd_open : bool; rd_truncate : bool; rd_sync : bool }.

Definition append_ok : AppendIo := mkAppendIo OpenOk true None true true true true.
Definition rewrite_ok : RewriteIo := mkRewriteIo true true true.
Definition read_ok : ReadIo := mkReadIo true true true.

Definition no_fence : AppendFailureFence := mkFence ∅ ∅ false.

Definition file_bytes (h : Host) (path : string) : list byte :=
  match h_files h !! path with Some n => fn_bytes n | None => [] end.

Definition set_file (h : Host) (path : string) (n : FileNode) : Host :=
  mkHost (<[path := n]> (h_files h)) (h_next_ino h) (h_fence h).

(** A file under a fresh inode. *)
Definition create_file (h : Host) (path : string) (bytes : list byte) : Host :=
  mkHost (<[path := mkFileNode (h_next_ino h) bytes]> (h_files h)) (h_next_ino h + 1) (h_fence h).

(** [check_append_fence] fails. *)
Definition fenced (h : Host) (path : string) (ino : option N) : bool :=
  ff_all_writes (h_fence h) || bool_decide (path ∈ ff_paths (h_fence h))
  || match ino with Some i => bool_decide (i ∈ ff_files (h_fence h)) | None => false end.

(** A write to one of the paths may have had an unknown effect. With an active
    fence a path that cannot be read counts as one. *)
Definition any_indeterminate_write (h : Host) (paths : list string) (readable : string -> bool) : bool :=
  let f := h_fence h in
  if ff_all_writes f then true
  else if bool_decide (ff_paths f = ∅) && bool_decide (ff_files f = ∅) then false
  else existsb (fun path =>
         bool_decide (path ∈ ff_paths f) || negb (readable path)
         || match h_files h !! path with Some node => bool_decide (fn_ino node ∈ ff_files f) | None => false end) paths.

Definition fence_failed_append (h : Host) (path : string) (ino : N) (cloned : bool) : Host :=
  let f := h_fence h in
  mkHost (h_files h) (h_next_ino h)
    (mkFence ({[path]} ∪ ff_paths f)
       (if cloned then {[ino]} ∪ ff_files f else ff_files f)
       (if cloned then ff_all_writes f else true)).

Definition append_ndjson_transaction (h : Host) (path : string) (node : FileNode) (line : list byte) (io : AppendIo)
    : Host * outcome IoError unit :=
  if fenced h path (Some (fn_ino node)) then (h, Err IndeterminateWrite)
  else if negb (ai_seek io) then (h, Err IoFailed)
  else
    let confirmed := fn_bytes node in
    let full := line ++ [newline] in
    let written := match ai_written io with None => full | Some k => take k full end in
    let h1 := set_file h path (mkFileNode (fn_ino node) (confirmed ++ written)) in
    if bool_decide (ai_written io = None) && ai_sync io then (h1, Ok tt)
    else
      let h2 := if ai_truncate io then set_file h1 path (mkFileNode (fn_ino node) confirmed) else h1 in
      if ai_truncate io && ai_resync io then (h2, Err AppendRestored)
      else (fence_failed_append h2 path (fn_ino node) (ai_clone io), Err AppendFenced).

Definition append_ndjson_line_durable (h : Host) (path : string) (line : list byte) (io : AppendIo)
    : Host * outcome IoError unit :=
  if fenced h path None then (h, Err IndeterminateWrite)
  else
    let opened := match h_files h !! path with Some _ => h | None => create_file h path [] end in
    match ai_open io, h_files opened !! path with
    | OpenFailed created, _ => (if created then opened else h, Err IoFailed)
    | OpenOk, None => (h, Err IoFailed)
    | OpenOk, Some node => append_ndjson_transaction opened path node line io
    end.

Definition ndjson_bytes (lines : list (list byte)) : list byte := concat (map (fun line => line ++ [newline]) lines).

Definition write_ndjson_lines_atomic (h : Host) (path : string) (lines : list (list byte)) (io : RewriteIo)
    : Host * outcome IoError unit :=
  if fenced h path (fn_ino <$> h_files h !! path) then (h, Err IndeterminateWrite)
  else if negb (ri_prepare io && ri_rename io) then (h, Err IoFailed)
  else (create_file h path (ndjson_bytes lines), if ri_sync io then Ok tt else Err IoFailed).

Definition read_stable_prefix (h : Host) (path : string) (io : ReadIo) : Host * outcome IoError (option (list byte)) :=
  match h_files h !! path with
  | None => (h, Ok None)
  | Some node =>
      if negb (rd_open io) then (h, Err IoFailed)
      else
        let raw := fn_bytes node in
        let stable_len := stable_jsonl_prefix_len raw in
        let stable := take stable_len raw in
        let torn := bool_decide (stable_len < length raw)%nat in
        if torn && negb (rd_truncate io) then (h, Err IoFailed)
        else
          let h' := if torn then set_file h path (mkFileNode (fn_ino node) stable) else h in
          if torn && negb (rd_sync io) then (h', Err IoFailed)
          else (h', if utf8_valid stable then Ok (Some stable) else Err NotUtf8)
  end.

Definition read_complete_ndjson_read_only (h : Host) (path : string) (io : ReadIo)
    : outcome IoError (option (list byte)) :=
  match h_files h !! path with
  | None => Ok None
  | Some node =>
      do* ensure (rd_open io) IoFailed;
      do* ensure (negb (bool_decide (stable_jsonl_prefix_len (fn_bytes node) < length (fn_bytes node))%nat)) IoFailed;
      do* ensure (utf8_valid (fn_bytes node)) NotUtf8;
      Ok (Some (fn_bytes node))
  end.

(** The fence lives as long as the process. *)
Definition restart (h : Host) : Host := mkHost (h_files h) (h_next_ino h) no_fence.

(** The process dies inside an append: a prefix of the line is out. *)
Definition crash_append (h : Host) (path : string) (line : list byte) (k : nat) : Host :=
  let opened := match h_files h !! path with Some _ => h | None => create_file h path [] end in
  match h_files opened !! path with
  | Some node =>
      if fenced h path None || fenced h path (Some (fn_ino node)) then h
      else set_file opened path (mkFileNode (fn_ino node) (fn_bytes node ++ take k (line ++ [newline])))
  | None => h
  end.

Definition crash_at (h : Host) (path : string) (inflight : option (list byte * nat)) : Host :=
  match inflight with Some (line, k) => crash_append h path line k | None => h end.

(** A session of appends to one log; the lines whose append was confirmed. *)
Fixpoint log_session (h : Host) (path : string) (ops : list (list byte * AppendIo)) (acked : list (list byte))
    : Host * list (list byte) :=
  match ops with
  | [] => (h, acked)
  | (line, io) :: ops' =>
      let '(h', r) := append_ndjson_line_durable h path line io in
      log_session h' path ops' (if is_ok r then acked ++ [line] else acked)
  end.

(** ** Lines that a writer produces and a reader gets back

    [serde_json] prints a value on one line of UTF-8 text and parses it back. *)

Class Ndjson (A : Type) := {
  nd_encode : A -> list byte;
  nd_decode : list byte -> option A
}.

Class NdjsonLaws (A : Type) {N : Ndjson A} (plain : A -> Prop) : Prop := {
  nd_decode_encode : forall a, plain a -> nd_decode (nd_encode a) = Some a;
  nd_encode_nonempty : forall a, nd_encode a <> [];
  nd_encode_no_newline : forall a, newline ∉ nd_encode a;
  nd_encode_no_return : forall a, last (nd_encode a) <> Some carriage_return;
  nd_encode_utf8 : forall a, utf8_valid (nd_encode a) = true
}.

(** Any line of text as it stands. *)
Definition text_line (line : list byte) : Prop :=
  line <> [] /\ newline ∉ line /\ last line <> Some carriage_return /\ utf8_valid line = true.

Lemma nd_text_line {A} `{Ndjson A} `{!NdjsonLaws A plain} a : text_line (nd_encode a).
Proof.
  split_and!; [apply nd_encode_nonempty|apply nd_encode_no_newline|apply nd_encode_no_return|apply nd_encode_utf8].
Qed.

#[export] Hint Resolve nd_text_line : boole.

(** ** Text lemmas *)

Lemma utf8_app a : forall b, utf8_valid a = true -> utf8_valid (a ++ b) = utf8_valid b.
Proof.
  induction a as [a IH] using (induction_ltof1 _ (@length byte)). unfold ltof in IH.
  destruct a as [|x a]; intros b H; [done|]. cbn [app utf8_valid] in *.
  assert (Hsub : forall a', (length a' < S (length a))%nat -> utf8_valid a' = true -> utf8_valid (a' ++ b) = utf8_valid b)
    by (intros a' Ha'; by apply IH).
  clear IH. destruct (byte_between 0 127 x); [apply Hsub; [lia|done]|].
  destruct (byte_between 194 223 x).
  { destruct a as [|c1 a]; [done|]. cbn [app]. apply andb_true_iff in H as [-> H]. cbn [andb]. apply Hsub; [cbn; lia|done]. }
  destruct (byte_between 224 239 x).
  { destruct a as [|c1 [|c2 a]]; [done..|]. cbn [app]. rewrite !andb_true_iff in H. destruct H as [[-> ->] H].
    cbn [andb]. apply Hsub; [cbn; lia|done]. }
  destruct (byte_between 240 244 x); [|done].
  destruct a as [|c1 [|c2 [|c3 a]]]; [done..|]. cbn [app]. rewrite !andb_true_iff in H. destruct H as [[[-> ->] ->] H].
  cbn [andb]. apply Hsub; [cbn; lia|done].
Qed.

Lemma byte_eqb_refl b : Byte.eqb b b = true.
Proof. by apply Byte.byte_dec_lb. Qed.

Lemma byte_eqb_neq a b : a <> b -> Byte.eqb a b = false.
Proof. intros H. destruct (Byte.eqb a b) eqn:E; [|done]. by apply Byte.byte_dec_bl in E. Qed.

Lemma ndjson_utf8 ls : Forall text_line ls -> utf8_valid (ndjson_bytes ls) = true.
Proof.
  unfold ndjson_bytes. induction 1 as [|l ls (_ & _ & _ & Hu) _ IH]; [done|]. cbn [map concat].
  rewrite <- app_assoc, utf8_app by done. exact IH.
Qed.

Lemma split_line acc l rest : newline ∉ l ->
  split_lines acc (l ++ newline :: rest) = strip_cr (acc ++ l) :: split_lines [] rest.
Proof.
  revert acc. induction l as [|b l IH]; intros acc H; cbn [app split_lines].
  - by rewrite byte_eqb_refl, app_nil_r.
  - apply not_elem_of_cons in H as [Hb Hl]. rewrite byte_eqb_neq by congruence. rewrite IH by done.
    by rewrite <- app_assoc.
Qed.

Lemma strip_cr_id l : last l <> Some carriage_return -> strip_cr l = l.
Proof.
  unfold strip_cr. intros H. destruct (last l) as [b|]; [|done]. rewrite byte_eqb_neq by congruence. done.
Qed.

(** Reading written lines gives the lines. *)
Lemma lines_of_ndjson ls : Forall text_line ls -> nonempty_lines (ndjson_bytes ls) = ls.
Proof.
  unfold nonempty_lines, str_lines, ndjson_bytes. induction 1 as [|l ls (Hne & Hnl & Hcr & _) _ IH]; [done|].
  cbn [map concat]. rewrite <- app_assoc. cbn [app]. rewrite split_line by done. cbn [app List.filter].
  rewrite strip_cr_id by done. rewrite bool_decide_eq_false_2 by done. cbn [negb]. by f_equal.
Qed.

Lemma last_newline_ndjson ls : ls <> [] -> last (ndjson_bytes ls) = Some newline.
Proof.
  intros H. destruct (exists_last H) as (ls' & l & ->). unfold ndjson_bytes.
  rewrite map_app, concat_app. cbn [map concat]. rewrite app_nil_r, app_assoc. by apply last_snoc.
Qed.

Lemma rposition_none {A} (p : A -> bool) l : Forall (fun a => p a = false) l -> rposition p l = None.
Proof. induction 1 as [|a l Ha _ IH]; [done|]. cbn. by rewrite IH, Ha. Qed.

Lemma rposition_snoc {A} (p : A -> bool) l a tail : p a = true -> Forall (fun a => p a = false) tail ->
  rposition p (l ++ a :: tail) = Some (length l).
Proof.
  intros Ha Ht. induction l as [|x l IH]; cbn [app rposition length]; [by rewrite (rposition_none p tail Ht), Ha|].
  by rewrite IH.
Qed.

Lemma no_newline_forall tail : newline ∉ tail -> Forall (fun a => Byte.eqb newline a = false) tail.
Proof. intros H. apply Forall_forall. intros b Hb. apply byte_eqb_neq. by intros <-. Qed.

Lemma last_no_newline (tail : list byte) : newline ∉ tail -> last tail <> Some newline.
Proof. intros H Hl. apply last_Some in Hl as [l ->]. apply H. set_solver. Qed.

(** The stable prefix of written lines and a torn tail is the written lines. *)
Lemma stable_prefix ls tail : newline ∉ tail ->
  take (stable_jsonl_prefix_len (ndjson_bytes ls ++ tail)) (ndjson_bytes ls ++ tail) = ndjson_bytes ls /\
  stable_jsonl_prefix_len (ndjson_bytes ls ++ tail) = length (ndjson_bytes ls).
Proof.
  intros Ht. assert (Hl : stable_jsonl_prefix_len (ndjson_bytes ls ++ tail) = length (ndjson_bytes ls));
    [|by rewrite Hl, take_app_length].
  unfold stable_jsonl_prefix_len. destruct tail as [|b tail].
  - rewrite app_nil_r. destruct ls as [|l ls]; [done|]. rewrite last_newline_ndjson by done.
    by rewrite (bool_decide_eq_true_2 (Some newline = Some newline)), orb_true_r.
  - rewrite bool_decide_eq_false_2 by (by destruct (ndjson_bytes ls)).
    rewrite bool_decide_eq_false_2 by (rewrite last_app_cons; by apply last_no_newline). cbn [orb].
    destruct ls as [|l0 ls0] eqn:Els.
    + cbn [ndjson_bytes map concat app length]. by rewrite (rposition_none _ _ (no_newline_forall _ Ht)).
    + destruct (exists_last (l := l0 :: ls0)) as (ls' & l & ->); [done|]. unfold ndjson_bytes.
      rewrite map_app, concat_app. cbn [map concat]. rewrite app_nil_r, app_assoc, <- (app_assoc _ [newline]). cbn [app].
      rewrite rposition_snoc by (try apply byte_eqb_refl; by apply no_newline_forall).
      rewrite !length_app. cbn. lia.
Qed.

(** ** What the operations do to a file *)

Lemma file_bytes_set h path n : file_bytes (set_file h path n) path = fn_bytes n.
Proof. unfold file_bytes, set_file. cbn. by rewrite lookup_insert_eq. Qed.

Lemma file_bytes_create h path bs : file_bytes (create_file h path bs) path = bs.
Proof. unfold file_bytes, create_file. cbn. by rewrite lookup_insert_eq. Qed.

Lemma opened_bytes h path node :
  h_files (match h_files h !! path with Some _ => h | None => create_file h path [] end) !! path = Some node ->
  fn_bytes node = file_bytes h path.
Proof.
  unfold file_bytes. destruct (h_files h !! path) eqn:E; [by rewrite E; intros [= ->]|].
  unfold create_file. cbn. rewrite lookup_insert_eq. by intros [= <-].
Qed.

(** An append writes the line, or fails with a prefix of it left behind; a
    prefix is left only when the path is fenced. *)
Record append_effect (h : Host) (path : string) (line : list byte) (h' : Host) (ok : bool) : Prop := {
  ae_written : ok = true -> file_bytes h' path = file_bytes h path ++ line ++ [newline] /\ h_fence h' = h_fence h /\
    fenced h path None = false;
  ae_failed : ok = false -> exists k, file_bytes h' path = file_bytes h path ++ take k (line ++ [newline]) /\
    (k <> 0%nat -> path ∈ ff_paths (h_fence h') /\ fenced h path None = false);
  ae_frame p : p <> path -> h_files h' !! p = h_files h !! p;
  ae_fence : ff_paths (h_fence h) ⊆ ff_paths (h_fence h') /\ (ff_all_writes (h_fence h) = true -> ff_all_writes (h_fence h') = true)
}.

Lemma append_nothing h path line h' : file_bytes h' path = file_bytes h path -> h_fence h' = h_fence h ->
  (forall p, p <> path -> h_files h' !! p = h_files h !! p) -> append_effect h path line h' false.
Proof.
  intros Hb Hf Hp. split; [done| |done|by rewrite Hf]. intros _. exists 0%nat. rewrite Hb.
  split; [by rewrite take_0, app_nil_r|done].
Qed.

Lemma append_durable_effect h path line io h' r : append_ndjson_line_durable h path line io = (h', r) ->
  append_effect h path line h' (is_ok r).
Proof.
  unfold append_ndjson_line_durable. destruct (fenced h path None) eqn:Hf; [intros [= <- <-]; by apply append_nothing|].
  set (opened := match h_files h !! path with Some _ => h | None => _ end).
  assert (Ho : h_fence opened = h_fence h /\ (forall p, p <> path -> h_files opened !! p = h_files h !! p) /\
    file_bytes opened path = file_bytes h path).
  { unfold opened, file_bytes. destruct (h_files h !! path) eqn:E; [by rewrite E|]. cbn. rewrite lookup_insert_eq.
    split_and!; [done| |done]. intros p Hp. by apply lookup_insert_ne. }
  destruct Ho as (Hof & Hop & Hob). destruct (h_files opened !! path) as [node|] eqn:Hn.
  2: { destruct (ai_open io) as [|[]]; intros [= <- <-]; by apply append_nothing. }
  destruct (ai_open io) as [|[]]; [|intros [= <- <-]; by apply append_nothing..].
  pose proof (opened_bytes h path node Hn) as Hb. unfold append_ndjson_transaction.
  destruct (fenced opened path (Some (fn_ino node))); [intros [= <- <-]; by apply append_nothing|].
  destruct (ai_seek io); cbn [negb]; [|intros [= <- <-]; by apply append_nothing]. rewrite Hb.
  assert (Hset : forall n p, p <> path -> h_files (set_file opened path n) !! p = h_files h !! p)
    by (intros n p Hp; cbn; rewrite lookup_insert_ne by done; by apply Hop).
  destruct (bool_decide (ai_written io = None) && ai_sync io) eqn:Hok.
  { apply andb_true_iff in Hok as [->%bool_decide_eq_true _]. intros [= <- <-]. split; [|done| |by rewrite <- Hof].
    - intros _. rewrite file_bytes_set. by split_and!.
    - apply Hset. }
  destruct (ai_truncate io && ai_resync io) eqn:Hr.
  { apply andb_true_iff in Hr as [-> _]. intros [= <- <-]. apply append_nothing; [by rewrite file_bytes_set|done|].
    intros p Hp. cbn. rewrite !lookup_insert_ne by done. by apply Hop. }
  intros [= <- <-]. clear Hok Hr. split; [done| | |].
  - intros _. set (written := match ai_written io with None => _ | Some k => _ end).
    assert (exists k, written = take k (line ++ [newline])) as [k Hk].
    { unfold written. destruct (ai_written io) as [k|]; [by exists k|]. exists (length (line ++ [newline])).
      by rewrite take_ge by lia. }
    exists (if ai_truncate io then 0%nat else k). split.
    + unfold file_bytes. cbn [fence_failed_append h_files]. destruct (ai_truncate io); cbn; rewrite !lookup_insert_eq; cbn.
      * by rewrite app_nil_r.
      * by rewrite Hk.
    + intros _. split; [|done]. cbn. set_solver.
  - intros p Hp. cbn [fence_failed_append h_files]. destruct (ai_truncate io); cbn; rewrite !lookup_insert_ne by done; by apply Hop.
  - destruct (ai_truncate io); cbn; rewrite Hof; destruct (ai_clone io); (split; [set_solver|done]).
Qed.

(** A replacement leaves the old file or the whole new one. *)
Lemma rewrite_effect h path lines io h' r : write_ndjson_lines_atomic h path lines io = (h', r) ->
  (h' = h /\ is_ok r = false \/ file_bytes h' path = ndjson_bytes lines) /\ h_fence h' = h_fence h /\
  (is_ok r = true -> file_bytes h' path = ndjson_bytes lines) /\
  forall p, p <> path -> h_files h' !! p = h_files h !! p.
Proof.
  unfold write_ndjson_lines_atomic. destruct (fenced _ _ _); [intros [= <- <-]; split_and!; auto; done|].
  destruct (negb _); [intros [= <- <-]; split_and!; auto; done|]. intros [= <- <-].
  rewrite file_bytes_create. split_and!; [by right|done|done|]. intros p Hp. cbn. by apply lookup_insert_ne.
Qed.

Lemma rewrite_succeeds h path lines : h_fence h = no_fence ->
  write_ndjson_lines_atomic h path lines rewrite_ok = (create_file h path (ndjson_bytes lines), Ok tt).
Proof.
  intros Hf. unfold write_ndjson_lines_atomic, fenced. rewrite Hf. cbn.
  rewrite bool_decide_eq_false_2 by set_solver. destruct (fn_ino <$> _); [|done].
  by rewrite bool_decide_eq_false_2 by set_solver.
Qed.

(** Reading a log with a torn tail truncates the tail. *)
Lemma read_log h path ls tail : Forall text_line ls -> newline ∉ tail -> file_bytes h path = ndjson_bytes ls ++ tail ->
  exists h' raw, read_stable_prefix h path read_ok = (h', Ok raw) /\ nonempty_lines (default [] raw) = ls /\
    file_bytes h' path = ndjson_bytes ls /\ h_fence h' = h_fence h /\
    (forall p, p <> path -> h_files h' !! p = h_files h !! p) /\ (raw = None -> ls = [] /\ h' = h) /\
    (is_Some (h_files h' !! path) <-> is_Some (h_files h !! path)).
Proof.
  intros Hls Ht Hb. unfold read_stable_prefix, file_bytes in *. destruct (h_files h !! path) as [node|] eqn:E.
  2: { symmetry in Hb. apply app_eq_nil in Hb as [Hb _]. exists h, None. rewrite E. split_and!; try done.
       - destruct ls as [|l ls]; [done|]. exfalso. cbn in Hb. by destruct l.
       - intros _. destruct ls as [|l ls]; [done|]. exfalso. cbn in Hb. by destruct l. }
  destruct (stable_prefix ls tail Ht) as [Htake Hlen]. rewrite Hb, Htake, Hlen. cbn [read_ok rd_open rd_truncate rd_sync negb].
  rewrite !andb_false_r, (ndjson_utf8 ls Hls). eexists _, (Some (ndjson_bytes ls)).
  split_and!; [done|by apply lines_of_ndjson| | | |done|]; rewrite length_app.
  - case_bool_decide as Hd; cbn; [by rewrite lookup_insert_eq|]. rewrite E, Hb. destruct tail; [by rewrite app_nil_r|cbn in Hd; lia].
  - by case_bool_decide.
  - intros p Hp. case_bool_decide; cbn; [by rewrite lookup_insert_ne|done].
  - case_bool_decide; cbn; rewrite ?lookup_insert_eq, ?E; done.
Qed.

(** A prefix of a line has no newline, or is the line. *)
Lemma take_line k line : newline ∉ line ->
  take k (line ++ [newline]) = line ++ [newline] \/ newline ∉ take k (line ++ [newline]).
Proof.
  intros H. destruct (decide (length line < k)%nat) as [Hk|Hk].
  - left. apply take_ge. rewrite length_app. cbn. lia.
  - right. rewrite take_app_le by lia. intros (i & Hi & _)%elem_of_take. apply H. by eapply list_elem_of_lookup_2.
Qed.

(** The lines a reader gets after a prefix of [line] was left behind. *)
Lemma torn_log ls line k : newline ∉ line -> exists ls' tail, newline ∉ tail /\
  ndjson_bytes ls ++ take k (line ++ [newline]) = ndjson_bytes ls' ++ tail /\ (ls' = ls \/ ls' = ls ++ [line]).
Proof.
  intros H. destruct (take_line k line H) as [->|Hn].
  - exists (ls ++ [line]), []. unfold ndjson_bytes. rewrite map_app, concat_app. cbn. rewrite !app_nil_r.
    split_and!; [set_solver|done|by right].
  - exists ls, (take k (line ++ [newline])). auto.
Qed.

Lemma ndjson_snoc ls l : ndjson_bytes (ls ++ [l]) = ndjson_bytes ls ++ l ++ [newline].
Proof. unfold ndjson_bytes. rewrite map_app, concat_app. cbn. by rewrite app_nil_r. Qed.

(** The state of a log between appends: what was confirmed, and behind the
    fence a prefix of one line that was not. *)
Definition log_state (h : Host) (path : string) (acked attempted : list (list byte)) : Prop :=
  file_bytes h path = ndjson_bytes acked \/
  (fenced h path None = true /\
   exists line k, line ∈ attempted /\ file_bytes h path = ndjson_bytes acked ++ take k (line ++ [newline])).

Lemma log_step h path acked attempted line io h' r : log_state h path acked attempted ->
  append_ndjson_line_durable h path line io = (h', r) ->
  log_state h' path (if is_ok r then acked ++ [line] else acked) (line :: attempted).
Proof.
  intros Hs Hr. pose proof (append_durable_effect _ _ _ _ _ _ Hr) as [Hw Hfail _ Hmono].
  assert (Hfen : fenced h path None = true -> fenced h' path None = true).
  { unfold fenced. rewrite !orb_false_r, !orb_true_iff, !bool_decide_eq_true. intros [?|?]; [left; by apply Hmono|right; set_solver]. }
  destruct (is_ok r) eqn:Hok.
  - destruct (Hw eq_refl) as (Hb & _ & Hnf). destruct Hs as [Hs|[Hf _]]; [|congruence]. left. by rewrite Hb, Hs, ndjson_snoc.
  - destruct (Hfail eq_refl) as (k & Hb & Hk). destruct (decide (k = 0%nat)) as [->|Hk0].
    + rewrite take_0, app_nil_r in Hb. destruct Hs as [Hs|(Hf & l & k & Hl & Hs)]; [left; congruence|].
      right. split; [by apply Hfen|]. exists l, k. split; [set_solver|congruence].
    + destruct (Hk Hk0) as [Hin Hnf]. destruct Hs as [Hs|[Hf _]]; [|congruence]. right. split.
      * unfold fenced. rewrite (bool_decide_eq_true_2 _ Hin). by rewrite orb_true_r.
      * exists line, k. split; [set_solver|congruence].
Qed.

Lemma log_session_state path ops : forall h acked attempted h' acked', log_state h path acked attempted ->
  log_session h path ops acked = (h', acked') ->
  log_state h' path acked' (reverse ops.*1 ++ attempted) /\ acked `prefix_of` acked' /\ acked' `sublist_of` acked ++ ops.*1.
Proof.
  induction ops as [|[line io] ops IH]; intros h acked attempted h' acked' Hs H; cbn [log_session] in H.
  { injection H as <- <-. cbn. by rewrite app_nil_r. }
  destruct (append_ndjson_line_durable h path line io) as [h1 r] eqn:E.
  destruct (IH _ _ _ _ _ (log_step _ _ _ _ _ _ _ _ Hs E) H) as (H1 & H2 & H3). cbn [fmap list_fmap fst]. split_and!.
  - rewrite reverse_cons, <- app_assoc. exact H1.
  - destruct (is_ok r); [|done]. etrans; [|exact H2]. by apply prefix_app_r.
  - etrans; [exact H3|]. destruct (is_ok r).
    + by rewrite <- app_assoc.
    + apply sublist_app; [done|]. by constructor.
Qed.

Lemma crash_append_state h path acked attempted line k : log_state h path acked attempted ->
  log_state h path acked (line :: attempted) /\ crash_append h path line k = h \/
  file_bytes (crash_append h path line k) path = ndjson_bytes acked ++ take k (line ++ [newline]).
Proof.
  intros Hs. assert (Hkeep : log_state h path acked (line :: attempted)).
  { destruct Hs as [Hs|(Hf & l & j & Hl & Hs)]; [by left|]. right. split; [done|]. exists l, j. split; [set_solver|done]. }
  unfold crash_append. destruct (h_files _ !! path) as [node|] eqn:Hn; [|by left].
  destruct (fenced h path None) eqn:Hf; [by left|]. cbn [orb].
  destruct (fenced h path (Some _)); [by left|]. right. rewrite file_bytes_set, (opened_bytes _ _ _ Hn).
  destruct Hs as [Hs|[Hf' _]]; [by rewrite Hs|congruence].
Qed.

(** What a reader can find after a session and a crash. *)
Definition crash_tail (acked attempted ls : list (list byte)) : Prop :=
  ls = acked \/ exists line, ls = acked ++ [line] /\ text_line line /\ line ∈ attempted.

Lemma torn_tail acked attempted line k bytes : line ∈ attempted -> text_line line ->
  bytes = ndjson_bytes acked ++ take k (line ++ [newline]) ->
  exists ls tail, newline ∉ tail /\ bytes = ndjson_bytes ls ++ tail /\ crash_tail acked attempted ls.
Proof.
  intros Hl Ht ->. destruct (torn_log acked line k) as (ls & tail & ? & He & Hor); [apply Ht|].
  exists ls, tail. split_and!; [done|done|]. destruct Hor as [->| ->]; [by left|right; eauto].
Qed.

Lemma log_state_tail h path acked attempted : log_state h path acked attempted -> Forall text_line attempted ->
  exists ls tail, newline ∉ tail /\ file_bytes h path = ndjson_bytes ls ++ tail /\ crash_tail acked attempted ls.
Proof.
  intros [Hs|(_ & line & k & Hl & Hs)] Ht.
  - exists acked, []. rewrite app_nil_r. split_and!; [set_solver|done|by left].
  - eapply torn_tail; [exact Hl| |exact Hs]. by eapply Forall_forall in Ht.
Qed.

Lemma crash_at_tail h path acked attempted inflight : log_state h path acked attempted -> Forall text_line attempted ->
  from_option (fun c => text_line c.1) True inflight ->
  exists ls tail, newline ∉ tail /\ file_bytes (crash_at h path inflight) path = ndjson_bytes ls ++ tail /\
    crash_tail acked (option_list (fst <$> inflight) ++ attempted) ls.
Proof.
  intros Hs Ht Hin. destruct inflight as [[line k]|]; [|by apply log_state_tail]. cbn in *.
  destruct (crash_append_state h path acked attempted line k Hs) as [[Hs' ->]|Hc].
  - apply log_state_tail; [done|by constructor].
  - eapply torn_tail; [|exact Hin|exact Hc]. set_solver.
Qed.

(** C13: A log loses nothing that was confirmed. Whatever the system answers to
    each append, and wherever the process dies inside the next one, a restarted
    reader gets the confirmed lines in order, with at most one line behind them
    that was written and not confirmed; the repaired file holds exactly those
    lines. *)
Theorem append_log_durable h path lines0 ops inflight h1 acked :
  file_bytes h path = ndjson_bytes lines0 -> Forall text_line lines0 -> Forall text_line ops.*1 ->
  from_option (fun c => text_line c.1) True inflight ->
  log_session h path ops lines0 = (h1, acked) ->
  exists h2 raw recovered,
    read_stable_prefix (restart (crash_at h1 path inflight)) path read_ok = (h2, Ok raw) /\
    nonempty_lines (default [] raw) = recovered /\ file_bytes h2 path = ndjson_bytes recovered /\
    lines0 `prefix_of` acked /\ acked `sublist_of` lines0 ++ ops.*1 /\
    (recovered = acked \/
     exists line, recovered = acked ++ [line] /\ (line ∈ ops.*1 \/ fst <$> inflight = Some line)).
Proof.
  intros Hb H0 Hops Hin Hrun.
  destruct (log_session_state path ops h lines0 [] h1 acked (or_introl Hb) Hrun) as (Hs & Hpre & Hsub).
  rewrite app_nil_r in Hs.
  destruct (crash_at_tail h1 path acked _ inflight Hs) as (ls & tail & Ht & Hbytes & Hor); [by apply Forall_reverse|done|].
  destruct (read_log (restart (crash_at h1 path inflight)) path ls tail) as (h2 & raw & Hread & Hlines & Hfile & _);
    [|done|exact Hbytes|].
  { assert (Hacked : Forall text_line acked).
    { apply Forall_forall. intros x Hx. apply (sublist_submseteq) in Hsub. eapply elem_of_submseteq in Hx; [|exact Hsub].
      revert x Hx. apply Forall_forall. by apply Forall_app. }
    destruct Hor as [->|(line & -> & Hl & _)]; [done|]. apply Forall_app. split; [done|]. by constructor. }
  exists h2, raw, ls. split_and!; [done..|]. destruct Hor as [->|(line & -> & _ & Hl)]; [by left|right].
  exists line. split; [done|]. apply elem_of_app in Hl as [Hl|Hl]; [right|left; by rewrite elem_of_reverse in Hl].
  destruct inflight as [[]|]; cbn in *; set_solver.
Qed.

(** ** Witness *)

Module DurabilityDemo.
Definition host : Host := mkHost ∅ 0 no_fence.
Definition torn : AppendIo := mkAppendIo OpenOk true (Some 1%nat) true false true true.
Definition ops : list (list byte * AppendIo) := [([x41], append_ok); ([x42; x43], torn); ([x44], append_ok)].
End DurabilityDemo.

Lemma append_log_durable_witness : exists h2 raw recovered,
  read_stable_prefix (restart (crash_at (log_session DurabilityDemo.host "log" DurabilityDemo.ops []).1 "log" None))
    "log" read_ok = (h2, Ok raw) /\
  nonempty_lines (default [] raw) = recovered /\ file_bytes h2 "log" = ndjson_bytes recovered /\
  (recovered = [[x41]] \/ exists line, recovered = [[x41]; line] /\ line ∈ DurabilityDemo.ops.*1).
Proof.
  destruct (append_log_durable DurabilityDemo.host "log" [] DurabilityDemo.ops None
    (log_session DurabilityDemo.host "log" DurabilityDemo.ops []).1 [[x41]])
    as (h2 & raw & recovered & Hr & Hl & Hf & _ & _ & Hor).
  - reflexivity.
  - constructor.
  - repeat constructor; try discriminate; set_solver.
  - exact I.
  - vm_compute. reflexivity.
  - exists h2, raw, recovered. split_and!; [exact Hr|exact Hl|exact Hf|]. destruct Hor as [->|(line & -> & [Hin|Hin])].
    + left. reflexivity.
    + right. exists line. split; [reflexivity|exact Hin].
    + discriminate Hin.
Defined.
