(* ===== verification/ConcreteLines.v ===== *)
(** * A concrete line format

    Any countable type has a line format that satisfies the laws of
    Durability.v: the binary digits of its code. Used by the witnesses alone;
    nothing here models code. *)

From stdpp Require Import countable.
From S2P Require Import Prelude Durability.

(** ** A value as the digits of its code *)

Fixpoint bits (p : BinNums.positive) : list byte :=
  match p with xH => [x31] | xO p' => x30 :: bits p' | xI p' => x31 :: bits p' end.

Fixpoint unbits (l : list byte) : option BinNums.positive :=
  match l with
  | [] => None
  | [b] => if Byte.eqb b x31 then Some xH else None
  | b :: l' => (if Byte.eqb b x31 then xI else xO) <$> unbits l'
  end.

Lemma bits_nonempty p : bits p <> [].
Proof. by destruct p. Qed.

Lemma unbits_bits p : unbits (bits p) = Some p.
Proof.
  induction p as [p IH|p IH|]; [| |done]; cbn [bits unbits];
    destruct (bits p) as [|b l] eqn:E; try (by destruct (bits_nonempty p)); by rewrite IH.
Qed.

Lemma bits_digits p : Forall (fun b => b = x30 \/ b = x31) (bits p).
Proof. induction p; constructor; auto. Qed.

#[export] Instance countable_ndjson {A} `{Countable A} : Ndjson A := {
  nd_encode a := bits (encode a);
  nd_decode l := p ← unbits l; decode p
}.

Lemma digits_utf8 l : Forall (fun b => b = x30 \/ b = x31) l -> utf8_valid l = true.
Proof. induction 1 as [|b l Hb _ IH]; [done|]. change (b :: l) with ([b] ++ l). rewrite utf8_app; [done|by destruct Hb as [-> | ->]]. Qed.

#[export] Instance countable_ndjson_laws {A} `{Countable A} (plain : A -> Prop) : NdjsonLaws A plain.
Proof.
  split; cbn [nd_encode nd_decode countable_ndjson]; intros a.
  - intros _. rewrite unbits_bits. cbn. apply decode_encode.
  - apply bits_nonempty.
  - intros Hin. eapply Forall_forall in Hin; [|apply bits_digits]. by destruct Hin.
  - intros Hl. apply last_Some_elem_of in Hl. eapply Forall_forall in Hl; [|apply bits_digits]. by destruct Hl.
  - apply digits_utf8, bits_digits.
Qed.
