(* ===== verification/BountyLedger.v ===== *)
(** * Bounty events and the bounty registry (bounty_ledger.rs, bounty_registry.rs)

    The schema of the rows of the bounty event log, the in-memory index of such
    rows, and the registry of announced bounties with its life cycle: a bounty
    is open until it is solved, expired or withdrawn. The registry can be
    driven by its operations or rebuilt from recorded events. *)

From S2P Require Import Prelude Json.

(** ** The event schema *)

Definition HEX32_LEN : N := 64.

Definition is_hex32 (value : string) : bool :=
  (str_len value =? HEX32_LEN) && str_all is_lower_hex value.

Definition event_string (event : Value) (key : string) : option string :=
  match value_get event key with Some v => as_str v | None => None end.

Definition is_status (value : string) : bool :=
  existsb (String.eqb value) ["open"; "solved"; "expired"; "withdrawn"].

Inductive LedgerEventError :=
| UnsupportedSchema
| UnknownKind
| BadEventField (field : string)
| BountyFieldMissing (field : string)
| BountyFieldMismatch (field : string).

(** [string_field(..).is_none_or(str::is_empty)] and
    [string_field(..).is_some_and(is_hex32)]. *)
Definition require_text (event : Value) (field : string) : outcome LedgerEventError unit :=
  ensure (match event_string event field with Some s => negb (str_is_empty s) | None => false end) (BadEventField field).

Definition require_hash (event : Value) (field : string) : outcome LedgerEventError unit :=
  ensure (match event_string event field with Some s => is_hex32 s | None => false end) (BadEventField field).

Definition require_height (event : Value) : outcome LedgerEventError unit :=
  ensure (bool_decide (is_Some (match value_get event "height" with Some v => as_u64 v | None => None end)))
    (BadEventField "height").

Definition validate_share_promoted (event : Value) : outcome LedgerEventError unit :=
  do* require_height event;
  do* require_text event "familyId";
  do* require_text event "bountyId";
  do* require_hash event "proofHash";
  require_hash event "prover".

Definition validate_credit (event : Value) : outcome LedgerEventError unit :=
  do* require_height event;
  do* require_hash event "c";
  do* require_text event "familyId";
  do* require_text event "bountyId";
  do* require_hash event "prover";
  ensure (match event_string event "amount" with
          | Some s => bool_decide (is_Some (parse_uint u128_max s))
          | None => false
          end) (BadEventField "amount").

(** The embedded bounty of a [create] event repeats the flat fields. *)
Definition validate_embedded (event : Value) : outcome LedgerEventError unit :=
  match value_get event "bounty" with
  | Some (VObject m) =>
      let bounty := VObject m in
      let* bounty_id := ok_or (event_string bounty "id") (BountyFieldMissing "id") in
      do* ensure (String.eqb bounty_id (default "" (event_string event "workId"))) (BountyFieldMismatch "workId");
      let* problem_hash := ok_or (event_string bounty "problemHash") (BountyFieldMissing "problemHash") in
      do* ensure (String.eqb problem_hash (default "" (event_string event "problemHash")))
            (BountyFieldMismatch "problemHash");
      let* verifier_kind := ok_or
        (match value_get bounty "verifier" with Some v => event_string v "kind" | None => None end)
        (BountyFieldMissing "verifier.kind") in
      ensure (String.eqb verifier_kind (default "" (event_string event "verifierKind")))
        (BountyFieldMismatch "verifierKind")
  | _ => Ok tt
  end.

Definition validate_bounty_ledger_event (event : Value) : outcome LedgerEventError unit :=
  do* ensure (bool_decide (match value_get event "schemaVersion" with Some v => as_i64 v | None => None end = Some 1%Z))
        UnsupportedSchema;
  let kind := default "" (event_string event "kind") in
  do* ensure (existsb (String.eqb kind) ["create"; "status_change"; "proof"; "credit"; "share_promoted"]) UnknownKind;
  if String.eqb kind "share_promoted" then validate_share_promoted event
  else if String.eqb kind "credit" then validate_credit event
  else
    do* require_text event "workId";
    do* require_hash event "problemHash";
    do* require_text event "verifierKind";
    do* ensure (match match value_get event "ts" with Some v => as_i64 v | None => None end with
                | Some ts => (0 <=? ts)%Z
                | None => false
                end) (BadEventField "ts");
    do* (if String.eqb kind "proof" then
           do* require_hash event "proofHash";
           do* require_hash event "solverPk";
           ensure (match value_get event "accepted" with Some v => is_boolean v | None => false end)
             (BadEventField "accepted")
         else Ok tt);
    do* (if String.eqb kind "status_change" then
           do* ensure (match event_string event "prevStatus" with Some s => is_status s | None => false end)
                 (BadEventField "prevStatus");
           ensure (match event_string event "newStatus" with Some s => is_status s | None => false end)
             (BadEventField "newStatus")
         else Ok tt);
    if String.eqb kind "create" then validate_embedded event else Ok tt.

(** ** The in-memory index *)

Record BountyEventLedger := mkBountyEventLedger {
  bl_events : list Value;
  bl_by_work_id : gmap string (list Value);
  bl_by_solver_pk : gmap string (list Value);
  bl_by_verifier_kind : gmap string (list Value)
}.

Definition bounty_event_ledger_new : BountyEventLedger := mkBountyEventLedger [] ∅ ∅ ∅.

Definition push_or_create (m : gmap string (list Value)) (key : string) (event : Value) : gmap string (list Value) :=
  <[key := default [] (m !! key) ++ [event]]> m.

Definition event_ledger_append (l : BountyEventLedger) (event : Value) : outcome LedgerEventError BountyEventLedger :=
  do* validate_bounty_ledger_event event;
  let* work_id := expect (event_string event "workId") in
  let* verifier_kind := expect (event_string event "verifierKind") in
  let by_work_id := push_or_create (bl_by_work_id l) work_id event in
  let by_verifier_kind := push_or_create (bl_by_verifier_kind l) verifier_kind event in
  let by_solver_pk :=
    if bool_decide (event_string event "kind" = Some "proof") then
      match event_string event "solverPk" with
      | Some solver_pk => push_or_create (bl_by_solver_pk l) solver_pk event
      | None => bl_by_solver_pk l
      end
    else bl_by_solver_pk l in
  Ok (mkBountyEventLedger (bl_events l ++ [event]) by_work_id by_solver_pk by_verifier_kind).

Definition get_by_work_id (l : BountyEventLedger) (work_id : string) : list Value := default [] (bl_by_work_id l !! work_id).
Definition get_by_solver_pk (l : BountyEventLedger) (pk : string) : list Value := default [] (bl_by_solver_pk l !! pk).
Definition get_by_verifier_kind (l : BountyEventLedger) (kind : string) : list Value :=
  default [] (bl_by_verifier_kind l !! kind).

(** ** The registry *)

Record BountyVerifier := mkBountyVerifier { bv_kind : string; bv_metadata : list (string * Value) }.

Record Bounty := mkBounty {
  bo_id : string;
  bo_domain : string;
  bo_problem_hash : string;
  bo_verifier : BountyVerifier;
  bo_reward : string;
  bo_deadline : N;
  bo_status : string;
  bo_created_at : N;
  bo_updated_at : N
}.

Record CreateBountyInput := mkCreateBountyInput {
  ci_id : string;
  ci_domain : string;
  ci_problem_hash : string;
  ci_verifier_kind : string;
  ci_verifier_metadata : list (string * Value);
  ci_reward : N;
  ci_deadline : N;
  ci_ts : N
}.

Record UpdateStatusInput := mkUpdateStatusInput { ui_id : string; ui_status : string; ui_ts : N }.

Record SubmitProofInput := mkSubmitProofInput {
  pi_bounty_id : string;
  pi_proof_hash : string;
  pi_prover : string;
  pi_accepted : bool;
  pi_ts : N
}.

Record SubmitProofResult := mkSubmitProofResult { sr_accepted : bool; sr_duplicate : bool; sr_bounty : Bounty }.

(** [serde_json::to_value] of a bounty. *)
Definition bounty_value (b : Bounty) : Value :=
  VObject [("createdAt", VNumber (PosInt (bo_created_at b))); ("deadline", VNumber (PosInt (bo_deadline b)));
           ("domain", VString (bo_domain b)); ("id", VString (bo_id b)); ("problemHash", VString (bo_problem_hash b));
           ("reward", VString (bo_reward b)); ("status", VString (bo_status b));
           ("updatedAt", VNumber (PosInt (bo_updated_at b)));
           ("verifier", VObject [("kind", VString (bv_kind (bo_verifier b)));
                                 ("metadata", VObject (bv_metadata (bo_verifier b)))])].

(** Derived [Deserialize]: a struct is read from an object by the names of its
    fields, or from an array by their positions. *)
Definition struct_field (arity : nat) (v : Value) (i : nat) (name : string) : option Value :=
  match v with
  | VObject m => assoc name m
  | VArray l => if bool_decide (length l = arity) then l !! i else None
  | _ => None
  end.

Definition verifier_of_value (v : Value) : option BountyVerifier :=
  match struct_field 2 v 0 "kind", struct_field 2 v 1 "metadata" with
  | Some (VString kind), Some (VObject metadata) => Some (mkBountyVerifier kind metadata)
  | _, _ => None
  end.

(** [serde_json::from_value] at the bounty type. *)
Definition bounty_of_value (v : Value) : option Bounty :=
  let text i name := match struct_field 9 v i name with Some f => as_str f | None => None end in
  let number i name := match struct_field 9 v i name with Some f => as_u64 f | None => None end in
  match text 0%nat "id", text 1%nat "domain", text 2%nat "problemHash",
        match struct_field 9 v 3 "verifier" with Some f => verifier_of_value f | None => None end with
  | Some id, Some domain, Some problem_hash, Some verifier =>
      match text 4%nat "reward", number 5%nat "deadline", text 6%nat "status", number 7%nat "createdAt", number 8%nat "updatedAt" with
      | Some reward, Some deadline, Some status, Some created_at, Some updated_at =>
          Some (mkBounty id domain problem_hash verifier reward deadline status created_at updated_at)
      | _, _, _, _, _ => None
      end
  | _, _, _, _ => None
  end.

Inductive BountyEvent :=
| CreateEvent (bounty : Bounty)
| StatusEvent (id status : string) (ts : N)
| ProofEvent (bounty_id proof_hash prover : string) (accepted : bool) (ts : N).

Record BountyRegistry := mkBountyRegistry {
  br_bounties : gmap string Bounty;
  br_order : list string;
  br_proofs : gmap string (gmap string bool)
}.

Inductive RegistryError :=
| BadBountyId
| BadDomain
| BadProblemHash
| EmptyVerifierKind
| BadMetadata (key : string)
| ZeroReward
| ZeroDeadline
| BountyExists
| UnknownBounty
| InvalidStatus
| TerminalStatus
| BadProofHash
| BadProver.

Definition bounty_registry_new : BountyRegistry := mkBountyRegistry ∅ [] ∅.

Definition MAX_DOMAIN_LEN : N := 64.
Definition MAX_METADATA_STRING_LEN : N := 16 * 1024.

Definition is_valid_id (id : string) : bool :=
  negb (str_is_empty id) && (str_len id <=? 128) && str_all (in_range 33 126) id.

(** [str::split]. *)
Fixpoint split_char (sep : ascii) (s : string) : list string :=
  match s with
  | EmptyString => [EmptyString]
  | String c s' =>
      if bool_decide (c = sep) then EmptyString :: split_char sep s'
      else match split_char sep s' with
           | piece :: pieces => String c piece :: pieces
           | [] => [String c EmptyString]
           end
  end.

Definition is_hyphen (c : ascii) : bool := bool_decide (c = "-"%char).

Definition starts_with_hyphen (s : string) : bool :=
  match s with String c _ => is_hyphen c | EmptyString => false end.

Fixpoint ends_with_hyphen (s : string) : bool :=
  match s with
  | EmptyString => false
  | String c EmptyString => is_hyphen c
  | String _ s' => ends_with_hyphen s'
  end.

Definition valid_segment (segment : string) : bool :=
  negb (str_is_empty segment) && negb (starts_with_hyphen segment) && negb (ends_with_hyphen segment)
  && str_all (fun c => is_ascii_lower c || is_ascii_digit c || is_hyphen c) segment.

Definition is_valid_domain (domain : string) : bool :=
  if str_is_empty domain || (MAX_DOMAIN_LEN <? str_len domain) then false
  else forallb valid_segment (split_char "."%char domain).

(** One entry of [validate_verifier_metadata]. *)
Definition check_metadata (_ : unit) (entry : string * Value) : outcome RegistryError unit :=
  let '(key, value) := entry in
  do* ensure (existsb (String.eqb key) ["statement"; "verifierHash"; "profile"; "template"]) (BadMetadata key);
  let* text := ok_or (as_str value) (BadMetadata key) in
  ensure (str_len text <=? MAX_METADATA_STRING_LEN) (BadMetadata key).

Definition validate_verifier_metadata (metadata : list (string * Value)) : outcome RegistryError unit :=
  ofold check_metadata tt metadata.

Definition validate_create (input : CreateBountyInput) : outcome RegistryError unit :=
  do* ensure (is_valid_id (ci_id input)) BadBountyId;
  do* ensure (is_valid_domain (ci_domain input)) BadDomain;
  do* ensure (is_hex32 (ci_problem_hash input)) BadProblemHash;
  do* ensure (negb (str_is_empty (ci_verifier_kind input))) EmptyVerifierKind;
  do* validate_verifier_metadata (ci_verifier_metadata input);
  do* ensure (negb (ci_reward input =? 0)) ZeroReward;
  ensure (negb (ci_deadline input =? 0)) ZeroDeadline.

Definition is_terminal (status : string) : bool := existsb (String.eqb status) ["solved"; "expired"; "withdrawn"].

Definition validate_status_transition (current next : string) : outcome RegistryError unit :=
  do* ensure (is_status next) InvalidStatus;
  ensure (negb (is_terminal current)) TerminalStatus.

Definition bounty_from_input (input : CreateBountyInput) : Bounty :=
  mkBounty (ci_id input) (ci_domain input) (ci_problem_hash input)
    (mkBountyVerifier (ci_verifier_kind input) (ci_verifier_metadata input)) (to_decimal (ci_reward input))
    (ci_deadline input) "open" (ci_ts input) (ci_ts input).

(** The bounty with a new status. *)
Definition with_status (b : Bounty) (status : string) (ts : N) : Bounty :=
  mkBounty (bo_id b) (bo_domain b) (bo_problem_hash b) (bo_verifier b) (bo_reward b) (bo_deadline b) status
    (bo_created_at b) ts.

Definition set_bounty (r : BountyRegistry) (id : string) (b : Bounty) : BountyRegistry :=
  mkBountyRegistry (<[id := b]> (br_bounties r)) (br_order r) (br_proofs r).

Definition add_bounty (r : BountyRegistry) (b : Bounty) : BountyRegistry :=
  mkBountyRegistry (<[bo_id b := b]> (br_bounties r)) (br_order r ++ [bo_id b]) (br_proofs r).

Definition preview_create (r : BountyRegistry) (input : CreateBountyInput) : outcome RegistryError Bounty :=
  do* validate_create input;
  do* ensure (negb (bool_decide (is_Some (br_bounties r !! ci_id input)))) BountyExists;
  Ok (bounty_from_input input).

Definition registry_create (r : BountyRegistry) (input : CreateBountyInput)
    : outcome RegistryError (BountyRegistry * Bounty) :=
  let* bounty := preview_create r input in
  Ok (add_bounty r bounty, bounty).

Definition preview_update_status (r : BountyRegistry) (input : UpdateStatusInput) : outcome RegistryError Bounty :=
  let* existing := ok_or (br_bounties r !! ui_id input) UnknownBounty in
  do* validate_status_transition (bo_status existing) (ui_status input);
  Ok (with_status existing (ui_status input) (ui_ts input)).

Definition update_status (r : BountyRegistry) (input : UpdateStatusInput)
    : outcome RegistryError (BountyRegistry * Bounty) :=
  let* updated := preview_update_status r input in
  Ok (set_bounty r (bo_id updated) updated, updated).

Definition has_proof (r : BountyRegistry) (bounty_id proof_hash : string) : option bool :=
  match br_proofs r !! bounty_id with Some seen => seen !! proof_hash | None => None end.

Definition preview_submit_proof (r : BountyRegistry) (input : SubmitProofInput)
    : outcome RegistryError SubmitProofResult :=
  do* ensure (is_hex32 (pi_proof_hash input)) BadProofHash;
  do* ensure (is_hex32 (pi_prover input)) BadProver;
  let* bounty := ok_or (br_bounties r !! pi_bounty_id input) UnknownBounty in
  match has_proof r (pi_bounty_id input) (pi_proof_hash input) with
  | Some accepted => Ok (mkSubmitProofResult accepted true bounty)
  | None =>
      do* ensure (String.eqb (bo_status bounty) "open") TerminalStatus;
      Ok (mkSubmitProofResult (pi_accepted input) false
            (if pi_accepted input then with_status bounty "solved" (pi_ts input) else bounty))
  end.

Definition record_proof (r : BountyRegistry) (bounty_id proof_hash : string) (accepted : bool) : BountyRegistry :=
  mkBountyRegistry (br_bounties r) (br_order r)
    (<[bounty_id := <[proof_hash := accepted]> (default ∅ (br_proofs r !! bounty_id))]> (br_proofs r)).

Definition submit_proof (r : BountyRegistry) (input : SubmitProofInput)
    : outcome RegistryError (BountyRegistry * SubmitProofResult) :=
  let* result := preview_submit_proof r input in
  if negb (sr_duplicate result) then
    let r1 := record_proof r (pi_bounty_id input) (pi_proof_hash input) (pi_accepted input) in
    Ok (if sr_accepted result then set_bounty r1 (pi_bounty_id input) (sr_bounty result) else r1, result)
  else Ok (r, result).

Definition registry_list (r : BountyRegistry) : list Bounty := base.omap (fun id => br_bounties r !! id) (br_order r).

Definition list_open (r : BountyRegistry) : list Bounty :=
  sort_by (fun a b => rcmp (bo_deadline a) (bo_deadline b))
    (List.filter (fun b => String.eqb (bo_status b) "open") (registry_list r)).

Definition apply_event (r : BountyRegistry) (event : BountyEvent) : outcome RegistryError BountyRegistry :=
  match event with
  | CreateEvent bounty =>
      do* ensure (negb (bool_decide (is_Some (br_bounties r !! bo_id bounty)))) BountyExists;
      Ok (add_bounty r bounty)
  | StatusEvent id status ts =>
      let* existing := ok_or (br_bounties r !! id) UnknownBounty in
      do* validate_status_transition (bo_status existing) status;
      Ok (set_bounty r id (with_status existing status ts))
  | ProofEvent bounty_id proof_hash _ accepted ts =>
      let* bounty := ok_or (br_bounties r !! bounty_id) UnknownBounty in
      let r1 := record_proof r bounty_id proof_hash accepted in
      Ok (if accepted && String.eqb (bo_status bounty) "open"
          then set_bounty r1 bounty_id (with_status bounty "solved" ts) else r1)
  end.

(** ** The life of a registry *)

Inductive RegistryOp :=
| OpCreate (input : CreateBountyInput)
| OpUpdate (input : UpdateStatusInput)
| OpSubmit (input : SubmitProofInput).

(** One operation, with the event it records. A failed one changes nothing. *)
Definition registry_step (r : BountyRegistry) (op : RegistryOp) : BountyRegistry * list BountyEvent :=
  match op with
  | OpCreate i =>
      match registry_create r i with Ok (r', b) => (r', [CreateEvent b]) | _ => (r, []) end
  | OpUpdate i =>
      match update_status r i with Ok (r', _) => (r', [StatusEvent (ui_id i) (ui_status i) (ui_ts i)]) | _ => (r, []) end
  | OpSubmit i =>
      match submit_proof r i with
      | Ok (r', res) =>
          (r', if sr_duplicate res then []
               else [ProofEvent (pi_bounty_id i) (pi_proof_hash i) (pi_prover i) (pi_accepted i) (pi_ts i)])
      | _ => (r, [])
      end
  end.

Fixpoint registry_run (r : BountyRegistry) (ops : list RegistryOp) : BountyRegistry * list BountyEvent :=
  match ops with
  | [] => (r, [])
  | op :: ops' =>
      let '(r1, ev1) := registry_step r op in
      let '(r2, ev2) := registry_run r1 ops' in
      (r2, ev1 ++ ev2)
  end.

(** Bounties sit under their id, in the order of announcement; an accepted
    proof belongs to a solved bounty and is its only accepted proof. *)
Record registry_ok (r : BountyRegistry) : Prop := {
  ro_keyed id b : br_bounties r !! id = Some b -> bo_id b = id /\ is_status (bo_status b) = true;
  ro_order : NoDup (br_order r) /\ forall id, id ∈ br_order r <-> is_Some (br_bounties r !! id);
  ro_solved id h : has_proof r id h = Some true -> exists b, br_bounties r !! id = Some b /\ bo_status b = "solved";
  ro_once id h1 h2 : has_proof r id h1 = Some true -> has_proof r id h2 = Some true -> h1 = h2
}.

Lemma bounty_of_to_value b : bounty_of_value (bounty_value b) = Some b.
Proof. by destruct b as [? ? ? [] ? ? ? ? ?]. Qed.

Lemma registry_new_ok : registry_ok bounty_registry_new.
Proof.
  split; cbn; try (intros *; unfold has_proof; cbn; rewrite ?lookup_empty; done).
  split; [constructor|]. intros id. rewrite lookup_empty. split; [set_solver|by intros []].
Qed.

(** What an operation did, if anything. *)
Inductive registry_effect (r : BountyRegistry) : BountyRegistry -> list BountyEvent -> Prop :=
| effect_none : registry_effect r r []
| effect_create b : br_bounties r !! bo_id b = None -> bo_status b = "open" ->
    registry_effect r (add_bounty r b) [CreateEvent b]
| effect_status b status ts : br_bounties r !! bo_id b = Some b -> is_terminal (bo_status b) = false ->
    is_status status = true ->
    registry_effect r (set_bounty r (bo_id b) (with_status b status ts)) [StatusEvent (bo_id b) status ts]
| effect_proof b h prover accepted ts : br_bounties r !! bo_id b = Some b -> bo_status b = "open" ->
    has_proof r (bo_id b) h = None ->
    registry_effect r
      (if accepted : bool then set_bounty (record_proof r (bo_id b) h true) (bo_id b) (with_status b "solved" ts)
       else record_proof r (bo_id b) h false)
      [ProofEvent (bo_id b) h prover accepted ts].

Lemma submit_proof_effect r i r' res : registry_ok r -> submit_proof r i = Ok (r', res) ->
  sr_duplicate res = true /\ r' = r \/
  exists b, br_bounties r !! pi_bounty_id i = Some b /\ bo_id b = pi_bounty_id i /\ bo_status b = "open" /\
    has_proof r (pi_bounty_id i) (pi_proof_hash i) = None /\ sr_duplicate res = false /\
    r' = (if pi_accepted i
          then set_bounty (record_proof r (bo_id b) (pi_proof_hash i) true) (bo_id b) (with_status b "solved" (pi_ts i))
          else record_proof r (bo_id b) (pi_proof_hash i) false).
Proof.
  intros Hok E. unfold submit_proof, preview_submit_proof in E.
  destruct (is_hex32 (pi_proof_hash i)); [|discriminate E]. destruct (is_hex32 (pi_prover i)); [|discriminate E].
  cbn [ensure obind] in E. destruct (br_bounties r !! pi_bounty_id i) as [b|] eqn:Hb; [|discriminate E]. cbn [ok_or obind] in E.
  destruct (has_proof _ _ _) as [acc|] eqn:Hp; [injection E as <- <-; by left|].
  destruct (String.eqb_spec (bo_status b) "open") as [Hs|]; [|discriminate E]. cbn in E. injection E as <- <-.
  right. exists b. destruct (ro_keyed _ Hok _ _ Hb) as [-> _]. split_and!; try done. by destruct (pi_accepted i).
Qed.

Lemma registry_step_effect r op r' ev : registry_ok r -> registry_step r op = (r', ev) -> registry_effect r r' ev.
Proof.
  intros Hok. destruct op as [i|i|i]; cbn [registry_step].
  - destruct (registry_create r i) as [[r1 b]| |] eqn:E; intros [= <- <-]; [|constructor..].
    unfold registry_create, preview_create in E. run_inv E. apply negb_true_iff, bool_decide_eq_false in E3.
    injection E as <- <-. apply effect_create; [|done]. by apply eq_None_not_Some.
  - destruct (update_status r i) as [[r1 b]| |] eqn:E; intros [= <- <-]; [|constructor..].
    unfold update_status, preview_update_status, validate_status_transition in E. run_inv E.
    injection E as <- <-. destruct (ro_keyed _ Hok _ _ E2) as [Hid _]. cbn [bo_id with_status].
    rewrite <- Hid. apply effect_status; [by rewrite Hid|by apply negb_true_iff|done].
  - destruct (submit_proof r i) as [[r1 res]| |] eqn:E; intros [= <- <-]; [|constructor..].
    destruct (submit_proof_effect _ _ _ _ Hok E) as [[-> ->]|(b & Hb & Hid & Hs & Hp & -> & ->)]; [constructor|].
    rewrite <- Hid in Hb, Hp |- *. by apply effect_proof.
Qed.

Lemma has_proof_record r id h acc id' h' : has_proof (record_proof r id h acc) id' h' =
  if decide (id' = id /\ h' = h) then Some acc else has_proof r id' h'.
Proof.
  unfold has_proof, record_proof. cbn [br_proofs]. destruct (decide (id' = id)) as [->|Hid].
  - rewrite lookup_insert_eq. destruct (decide (h' = h)) as [->|Hh].
    + rewrite lookup_insert_eq. by rewrite decide_True.
    + rewrite lookup_insert_ne by congruence. rewrite decide_False by naive_solver.
      destruct (br_proofs r !! id); [done|]. apply lookup_empty.
  - rewrite lookup_insert_ne by congruence. by rewrite decide_False by naive_solver.
Qed.

Lemma add_bounty_ok r b : registry_ok r -> br_bounties r !! bo_id b = None -> bo_status b = "open" ->
  registry_ok (add_bounty r b).
Proof.
  intros Hok Hnew Hs.
  split.
  + intros id b'. cbn [add_bounty br_bounties]. rewrite lookup_insert_Some. intros [[<- <-]|[_ H]]; [|by apply Hok in H].
    by rewrite Hs.
  + destruct (ro_order _ Hok) as [Hnd Hdom]. cbn [add_bounty br_bounties br_order]. split.
    * apply NoDup_app. split_and!; [done| |apply NoDup_singleton]. intros id Hid ->%list_elem_of_singleton.
      apply Hdom in Hid. rewrite Hnew in Hid. by destruct Hid.
    * intros id. rewrite elem_of_app, list_elem_of_singleton, Hdom. destruct (decide (id = bo_id b)) as [->|Hne].
      -- rewrite lookup_insert_eq. split; [done|by right].
      -- rewrite lookup_insert_ne by congruence. naive_solver.
  + intros id h Hp. destruct (ro_solved _ Hok id h Hp) as (b' & Hb' & Hs'). exists b'. split; [|done].
    cbn. rewrite lookup_insert_ne; [done|]. intros <-. congruence.
  + exact (ro_once _ Hok).
Qed.

Lemma set_status_ok r b status ts : registry_ok r -> br_bounties r !! bo_id b = Some b -> is_terminal (bo_status b) = false ->
  is_status status = true -> registry_ok (set_bounty r (bo_id b) (with_status b status ts)).
Proof.
  intros Hok Hb Ht Hs.
  assert (Hdom : forall id, is_Some (br_bounties (set_bounty r (bo_id b) (with_status b status ts)) !! id) <-> is_Some (br_bounties r !! id)).
  { intros id. cbn. destruct (decide (id = bo_id b)) as [->|]; [rewrite lookup_insert_eq, Hb; done|].
    by rewrite lookup_insert_ne by congruence. }
  split.
  + intros id b'. cbn [set_bounty br_bounties]. rewrite lookup_insert_Some. intros [[<- <-]|[_ H]]; [done|by apply Hok in H].
  + split; [apply (ro_order _ Hok)|]. intros id. rewrite Hdom. apply (ro_order _ Hok).
  + intros id h Hp. destruct (ro_solved _ Hok id h Hp) as (b' & Hb' & Hs'). exists b'. split; [|done].
    cbn. rewrite lookup_insert_ne; [done|]. intros <-. assert (b' = b) as -> by congruence. by rewrite Hs' in Ht.
  + exact (ro_once _ Hok).
Qed.

Lemma new_proof_ok r b h (accepted : bool) ts : registry_ok r -> br_bounties r !! bo_id b = Some b -> bo_status b = "open" ->
  registry_ok (if accepted then set_bounty (record_proof r (bo_id b) h true) (bo_id b) (with_status b "solved" ts)
               else record_proof r (bo_id b) h false).
Proof.
  intros Hok Hb Hs.
  assert (Hopen : forall h', has_proof r (bo_id b) h' <> Some true).
  { intros h' Hp. destruct (ro_solved _ Hok _ _ Hp) as (b' & Hb' & Hs'). congruence. }
  destruct accepted; split.
  + intros id b'. cbn [set_bounty br_bounties record_proof]. rewrite lookup_insert_Some.
    intros [[<- <-]|[_ H]]; [done|by apply Hok in H].
  + split; [apply (ro_order _ Hok)|]. intros id. cbn. rewrite (proj2 (ro_order _ Hok)).
    destruct (decide (id = bo_id b)) as [->|]; [rewrite lookup_insert_eq, Hb; done|]. by rewrite lookup_insert_ne by congruence.
  + intros id h'. change (has_proof (set_bounty ?r _ _)) with (has_proof r). rewrite has_proof_record. cbn.
    destruct (decide (id = bo_id b)) as [->|Hne]; [rewrite lookup_insert_eq; eauto|].
    rewrite decide_False by naive_solver. rewrite lookup_insert_ne by congruence. apply Hok.
  + intros id h1 h2. change (has_proof (set_bounty ?r _ _)) with (has_proof r). rewrite !has_proof_record.
    repeat destruct decide; try naive_solver. apply Hok.
  + apply (ro_keyed _ Hok).
  + apply (ro_order _ Hok).
  + intros id h'. rewrite has_proof_record. destruct decide; [done|]. apply Hok.
  + intros id h1 h2. rewrite !has_proof_record. repeat destruct decide; try done. apply Hok.
Qed.

Lemma effect_ok r r' ev : registry_ok r -> registry_effect r r' ev -> registry_ok r'.
Proof.
  intros Hok H. destruct H; [done|by apply add_bounty_ok|by apply set_status_ok|by apply new_proof_ok].
Qed.

(** The recorded event reproduces the operation. *)
Lemma effect_replays r r' ev : registry_effect r r' ev -> ofold apply_event r ev = Ok r'.
Proof.
  intros H. destruct H as [|b Hnew Hs|b status ts Hb Ht Hs|b h prover accepted ts Hb Hs Hnone]; [done|..];
    cbn [ofold apply_event].
  - by rewrite Hnew.
  - rewrite Hb. unfold validate_status_transition. cbn [ok_or obind]. by rewrite Hs, Ht.
  - rewrite Hb. cbn [ok_or obind]. rewrite Hs. by destruct accepted.
Qed.

Lemma effect_terminal r r' ev id b : registry_effect r r' ev -> br_bounties r !! id = Some b ->
  is_terminal (bo_status b) = true -> br_bounties r' !! id = Some b.
Proof.
  intros H Hid Ht. destruct H as [|b' Hnew Hs|b' status ts Hb Ht' Hs|b' h prover accepted ts Hb Hs Hnone]; [done| | |].
  - cbn. rewrite lookup_insert_ne; [done|]. intros <-. congruence.
  - cbn. rewrite lookup_insert_ne; [done|]. intros <-. congruence.
  - assert (bo_id b' <> id). { intros <-. assert (b' = b) as -> by congruence. by rewrite Hs in Ht. }
    destruct accepted; cbn; [by rewrite lookup_insert_ne|done].
Qed.

Lemma registry_run_ok ops : forall r r' ev, registry_ok r -> registry_run r ops = (r', ev) ->
  registry_ok r' /\ ofold apply_event r ev = Ok r'.
Proof.
  induction ops as [|op ops IH]; intros r r' ev Hok H; cbn [registry_run] in H; [by injection H as <- <-|].
  destruct (registry_step r op) as [r1 ev1] eqn:E1, (registry_run r1 ops) as [r2 ev2] eqn:E2. injection H as <- <-.
  pose proof (registry_step_effect _ _ _ _ Hok E1) as He. destruct (IH _ _ _ (effect_ok _ _ _ Hok He) E2) as [Hok2 H2].
  split; [done|]. rewrite ofold_app, (effect_replays _ _ _ He). exact H2.
Qed.

(** C31: The registry is a function of its recorded events, and a bounty is
    settled once. Replaying the events of any history of operations rebuilds
    the registry, every bounty has at most one accepted proof and is solved by
    it, and no operation changes a bounty that is solved, expired or withdrawn. *)
Theorem bounty_registry_replays ops r events op :
  registry_run bounty_registry_new ops = (r, events) ->
  ofold apply_event bounty_registry_new events = Ok r /\ registry_ok r /\
  forall id b, br_bounties r !! id = Some b -> is_terminal (bo_status b) = true ->
    br_bounties (registry_step r op).1 !! id = Some b.
Proof.
  intros H. destruct (registry_run_ok _ _ _ _ registry_new_ok H) as [Hok Hr]. split_and!; [done|done|].
  intros id b. destruct (registry_step r op) as [r' ev] eqn:E. cbn [fst].
  exact (effect_terminal _ _ _ _ _ (registry_step_effect _ _ _ _ Hok E)).
Qed.

(** ** Witness *)

Module RegistryDemo.
Definition hash : string := String.concat "" (repeat "a" 64).
Definition input : CreateBountyInput :=
  mkCreateBountyInput "b-1" "lean.protocol-invariant" hash "lean" [("statement", VString "True")] 5 10 1.
Definition ops : list RegistryOp :=
  [OpCreate input; OpCreate input; OpSubmit (mkSubmitProofInput "b-1" hash hash true 7);
   OpUpdate (mkUpdateStatusInput "b-1" "withdrawn" 8)].
Definition after : BountyRegistry * list BountyEvent := registry_run bounty_registry_new ops.
End RegistryDemo.

Lemma bounty_registry_replays_witness :
  ofold apply_event bounty_registry_new RegistryDemo.after.2 = Ok RegistryDemo.after.1 /\
  length RegistryDemo.after.2 = 2%nat /\
  has_proof RegistryDemo.after.1 "b-1" RegistryDemo.hash = Some true.
Proof.
  split; [|split; reflexivity].
  destruct (bounty_registry_replays RegistryDemo.ops RegistryDemo.after.1 RegistryDemo.after.2
    (OpUpdate (mkUpdateStatusInput "b-1" "withdrawn" 8))) as [H _]; [|exact H].
  unfold RegistryDemo.after. destruct (registry_run _ _). reflexivity.
Defined.
