(* ===== verification/Stores.v ===== *)
(** * The node's line stores (boole-node/src: block_store.rs, reward_store.rs,
    bounty_event_store.rs, proof_dedup_ledger.rs)

    Four stores over the logs of Durability.v. The block store is the source of
    truth; the reward ledger, the bounty events and the proof index are derived
    from it. *)

From S2P Require Import Prelude Json Externals Hash Block Bounty Replay Durability BountyLedger.

Inductive StoreError :=
| StoreIo (e : IoError)
| LineNotJson (line : nat)
| LineHeight (line : nat)
| LinePrevC (line : nat)
| LineSchema (e : LedgerEventError)
| StoreShape (e : BlockError)
| EmptyCredits
| CreditAmount
| ZeroCredit
| CreditOverflow (e : BlockError)
| LedgerDivergence (pk : string)
| BountyLedgerMissing
| BountyRowField (field : string)
| FamilyDivergence (family : string)
| DuplicateActiveSession
| UnknownSession
| InvalidSession
| InvalidReceipt.

Inductive ProofDedupEvent := DedupCredit (canon_hash : string).

#[export] Instance persisted_credit_eq_decision : EqDecision PersistedCredit.
Proof. solve_decision. Defined.

#[export] Instance reward_event_eq_decision : EqDecision PersistedRewardEvent.
Proof. solve_decision. Defined.

Definition append_line {A} `{Ndjson A} (path : string) (a : A) (io : AppendIo) : stm Host StoreError unit :=
  smap_err StoreIo (fun h => append_ndjson_line_durable h path (nd_encode a) io).

Definition rewrite_lines {A} `{Ndjson A} (path : string) (l : list A) (io : RewriteIo) : stm Host StoreError unit :=
  smap_err StoreIo (fun h => write_ndjson_lines_atomic h path (map nd_encode l) io).

Definition read_lines (path : string) (io : ReadIo) : stm Host StoreError (list (list byte)) :=
  let! raw := smap_err StoreIo (fun h => read_stable_prefix h path io) in
  sret (match raw with Some raw => nonempty_lines raw | None => [] end).

(** ** Blocks *)

(** One line of [FileBlockStore::parse]. *)
Definition check_line `{Externals} `{Ndjson PersistedBlock} (blocks : list PersistedBlock) (line : list byte)
    : outcome StoreError (list PersistedBlock) :=
  let i := length blocks in
  let* block := ok_or (nd_decode line) (LineNotJson (S i)) in
  do* map_err StoreShape (validate_shape block);
  do* ensure (b_height block =? N.of_nat i) (LineHeight (S i));
  do* ensure (match last blocks with Some prev => String.eqb (b_prev_c block) (b_c prev) | None => true end)
        (LinePrevC (S i));
  Ok (blocks ++ [block]).

Section BlockStore.
Context {X : Externals} {NB : Ndjson PersistedBlock}.

Definition block_store_parse (lines : list (list byte)) : outcome StoreError (list PersistedBlock) :=
  ofold check_line [] lines.

Definition block_store_recover (path : string) (io : ReadIo) : stm Host StoreError (list PersistedBlock) :=
  let! lines := read_lines path io in
  slift (block_store_parse lines).

Definition block_store_inspect (h : Host) (path : string) (io : ReadIo) : outcome StoreError (list PersistedBlock) :=
  let* raw := map_err StoreIo (read_complete_ndjson_read_only h path io) in
  match raw with Some raw => block_store_parse (nonempty_lines raw) | None => Ok [] end.

Definition block_store_append (path : string) (block : PersistedBlock) (io : AppendIo) : stm Host StoreError unit :=
  append_line path block io.
End BlockStore.

(** ** Rewards *)

Record FileRewardLedger := mkFileRewardLedger {
  rw_events : list PersistedRewardEvent;
  rw_balances : gmap string N
}.

Definition reward_ledger_new : FileRewardLedger := mkFileRewardLedger [] ∅.

(** One credit of [FileRewardLedger::apply], on the balances. *)
Definition apply_reward_credit (credit : PersistedCredit) : stm (gmap string N) StoreError unit := fun balances =>
  match parse_uint u128_max (pc_amount credit) with
  | None => (balances, Err CreditAmount)
  | Some amount =>
      if amount =? 0 then (balances, Err ZeroCredit)
      else match checked_credit balances (pc_pk credit) amount with
           | Ok balances' => (balances', Ok tt)
           | Err e => (balances, Err (CreditOverflow e))
           | Panic => (balances, Panic)
           end
  end.

Definition reward_apply (event : PersistedRewardEvent) : stm FileRewardLedger StoreError unit := fun l =>
  match re_credits event with
  | [] => (l, Err EmptyCredits)
  | credits =>
      let '(balances, r) := sfor apply_reward_credit credits (rw_balances l) in
      match r with
      | Ok _ => (mkFileRewardLedger (rw_events l ++ [event]) balances, Ok tt)
      | _ => (mkFileRewardLedger (rw_events l) balances, r)
      end
  end.

(** The events applied to a fresh ledger. *)
Definition reward_ledger_of (events : list PersistedRewardEvent) : outcome StoreError FileRewardLedger :=
  let '(l, r) := sfor reward_apply events reward_ledger_new in omap (fun _ => l) r.

(** The height check of [FileRewardLedger::recover]. *)
Definition recover_event (event : PersistedRewardEvent) : stm FileRewardLedger StoreError unit := fun l =>
  let i := length (rw_events l) in
  if re_height event =? N.of_nat i then reward_apply event l else (l, Err (LineHeight (S i))).

Section RewardStore.
Context {NR : Ndjson PersistedRewardEvent}.

Definition recover_line (line : list byte) : stm FileRewardLedger StoreError unit := fun l =>
  match nd_decode line with
  | Some event => recover_event event l
  | None => (l, Err (LineNotJson (S (length (rw_events l)))))
  end.

Definition reward_recover (path : string) (io : ReadIo) : stm Host StoreError FileRewardLedger :=
  let! lines := read_lines path io in
  slift (let '(l, r) := sfor recover_line lines reward_ledger_new in omap (fun _ => l) r).

Definition reward_append (path : string) (event : PersistedRewardEvent) (io : AppendIo) : stm Host StoreError unit :=
  append_line path event io.

Definition reward_rewrite_atomic (path : string) (events : list PersistedRewardEvent) (io : RewriteIo)
    : stm Host StoreError FileRewardLedger :=
  let! ledger := slift (reward_ledger_of events) in
  do! rewrite_lines path events io;
  sret ledger.
End RewardStore.

Definition balance_of (l : FileRewardLedger) (pk : string) : N := default 0 (rw_balances l !! pk).
Definition last_event (l : FileRewardLedger) : option PersistedRewardEvent := last (rw_events l).

(** ** Bounty events *)

Section BountyEventStore.
Context {NV : Ndjson Value}.

Definition bounty_append (path : string) (event : Value) (io : AppendIo) : stm Host StoreError unit :=
  do! slift (map_err LineSchema (validate_bounty_ledger_event event));
  append_line path event io.

(** One line of [FileBountyEventLedger::recover]. *)
Definition check_event_line (st : nat * list Value) (line : list byte) : outcome StoreError (nat * list Value) :=
  let '(i, events) := st in
  let* event := ok_or (nd_decode line) (LineNotJson (S i)) in
  do* map_err LineSchema (validate_bounty_ledger_event event);
  Ok (S i, events ++ [event]).

Definition bounty_recover (path : string) (io : ReadIo) : stm Host StoreError (list Value) :=
  let! lines := read_lines path io in
  slift (omap snd (ofold check_event_line (0%nat, []) lines)).

Definition bounty_rewrite_atomic (path : string) (events : list Value) (io : RewriteIo) : stm Host StoreError unit :=
  do! slift (ofold (fun _ event => map_err LineSchema (validate_bounty_ledger_event event)) tt events);
  rewrite_lines path events io.

(** ** The boot cross-check *)

(** One row of the per-family sum. *)
Definition sum_credit_row (totals : gmap string N) (event : Value) : outcome StoreError (gmap string N) :=
  if negb (String.eqb (default "" (event_string event "kind")) "credit") then Ok totals
  else
    let* family_id := ok_or (event_string event "familyId") (BountyRowField "familyId") in
    let* text := ok_or (event_string event "amount") (BountyRowField "amount") in
    let* amount := ok_or (parse_uint u128_max text) (BountyRowField "amount") in
    map_err CreditOverflow (checked_credit totals family_id amount).

(** Both directions of the comparison of two maps of amounts. *)
Definition same_amounts (e : string -> StoreError) (ledger replay : gmap string N) : outcome StoreError unit :=
  do* ofold (fun _ '(k, amount) => ensure (default 0 (ledger !! k) =? amount) (e k)) tt (btree_iter replay);
  ofold (fun _ '(k, _) => ensure (bool_decide (is_Some (replay !! k))) (e k)) tt (btree_iter ledger).

Definition verify_ledger_matches_replay (ledger : FileRewardLedger) (replay_balances : gmap string N)
    (bounty_event_ledger_path : option string) (replay_bounty_credit_by_family : gmap string N) (io : ReadIo)
    : stm Host StoreError unit :=
  do! slift (same_amounts LedgerDivergence (rw_balances ledger) replay_balances);
  match bounty_event_ledger_path with
  | None => sret tt
  | Some path =>
      let! h := sget in
      if negb (bool_decide (is_Some (h_files h !! path))) then
        slift (ensure (bool_decide (replay_bounty_credit_by_family = ∅)) BountyLedgerMissing)
      else
        let! events := bounty_recover path io in
        let! totals := slift (ofold sum_credit_row ∅ events) in
        slift (same_amounts FamilyDivergence totals replay_bounty_credit_by_family)
  end.
End BountyEventStore.

(** ** Credited proofs *)

Record FileProofDedupLedger := mkFileProofDedupLedger { pd_seen : gset string }.

Definition dedup_new : FileProofDedupLedger := mkFileProofDedupLedger ∅.
Definition dedup_contains (l : FileProofDedupLedger) (canon_hash : string) : bool := bool_decide (canon_hash ∈ pd_seen l).

Definition dedup_apply (l : FileProofDedupLedger) (event : ProofDedupEvent) : FileProofDedupLedger :=
  let 'DedupCredit canon_hash := event in mkFileProofDedupLedger ({[canon_hash]} ∪ pd_seen l).

(** One turn of the loop of [rebuild_from_credits]. *)
Definition rebuild_step (st : gset string * list ProofDedupEvent) (canon_hash : string)
    : gset string * list ProofDedupEvent :=
  let '(seen, lines) := st in
  if bool_decide (canon_hash ∈ seen) then st else ({[canon_hash]} ∪ seen, lines ++ [DedupCredit canon_hash]).

Section ProofDedup.
Context {ND : Ndjson ProofDedupEvent}.

Definition rebuild_from_credits (path : string) (canon_hashes : list string) (io : RewriteIo)
    : stm Host StoreError FileProofDedupLedger :=
  let '(seen, lines) := fold_left rebuild_step canon_hashes (∅, []) in
  do! rewrite_lines path lines io;
  sret (mkFileProofDedupLedger seen).

(** [append_credit]: the index and the log move together. *)
Definition append_credit (path : string) (canon_hash : string) (io : AppendIo)
    : stm (Host * FileProofDedupLedger) StoreError bool := fun st =>
  let '(h, l) := st in
  if dedup_contains l canon_hash then (st, Ok false)
  else
    let event := DedupCredit canon_hash in
    match append_line path event io h with
    | (h', Ok _) => ((h', dedup_apply l event), Ok true)
    | (h', Err e) => ((h', l), Err e)
    | (h', Panic) => ((h', l), Panic)
    end.
End ProofDedup.
