(* ===== verification/Runtime.v ===== *)
(** * The node runtime (boole-node/src/runtime.rs)

    One process owns the share pool, the rate limiter, the candidate shares,
    the chain and its derived ledgers, and publishes every change of the chain
    to its files. The runtime and the files are one explicit state; what the
    file system answers is an argument of each operation. *)

From S2P Require Import Prelude Json Externals Hash Block BlockBuilder Difficulty Config ShareAuthorization.
From S2P Require Import FamilyManifest Bounty ReplayEvidence Replay SharePool RateLimiter Admission Durability BountyLedger Stores.

Inductive UsefulBaseMode := Disabled | TestnetScaffold.

Record RuntimeConfig := mkRuntimeConfig {
  rc_policy : CalibrationPolicy;
  rc_admission_window_ms : Z;
  rc_difficulty_retarget : option DifficultyRetargetPolicy;
  rc_useful_base_mode : UsefulBaseMode
}.

Definition BLOCK_TS_MAX_FUTURE_DRIFT_MS : N := 2 * 60 * 60 * 1000.

Inductive CanonicalPublishPhase := BlockReward | ReorgReward | ProofDedup | BountyProjection.

Definition phase_code (p : CanonicalPublishPhase) : string :=
  match p with
  | BlockReward => "block_reward_publish"
  | ReorgReward => "reorg_reward_publish"
  | ProofDedup => "proof_dedup_publish"
  | BountyProjection => "bounty_projection_publish"
  end.

Inductive ReorgOutcome := Reorged (new_head_height : N) | KeptCurrent.

Record RuntimeAdmissionState := mkRuntime {
  rt_config : RuntimeConfig;
  rt_rate_limiter : RateLimiter;
  rt_pool : SharePool;
  rt_current_c : option string;
  rt_candidates : list CandidateShare;
  rt_block_cache : list PersistedBlock;
  rt_reward_ledger_path : option string;
  rt_reward_ledger : option FileRewardLedger;
  rt_family_registry : FamilyManifestRegistry;
  rt_boot_genesis : option GenesisSpec;
  rt_authorization_network_id : option string;
  rt_canonical_state_failure : option CanonicalPublishPhase
}.

Record RuntimeCommittedBlock := mkCommittedBlock { cb_block : PersistedBlock; cb_dropped_stale_shares : N }.

(** The process and the files. *)
Record Node := mkNode { no_runtime : RuntimeAdmissionState; no_host : Host }.

Inductive RuntimeError :=
| CanonicalStateInconsistent (phase : CanonicalPublishPhase)
| HeadNotSet
| PrevCNotHead
| NoSingleProposer
| ProposerOutOfRange
| CommitHeight
| FutureDrift
| EmptyReorgCandidate
| ManifestRootMismatch
| RuntimeReplay (e : ReplayError)
| RuntimeBlock (e : BlockError)
| RuntimeBuild (e : BuildError)
| RuntimeDifficulty (e : DifficultyError)
| RuntimeStore (e : StoreError)
| BodyField (field : string)
| RuntimeZeroTarget.

(** Assignments to one field or group of fields. *)
Definition set_rate_limiter (r : RuntimeAdmissionState) (rl : RateLimiter) : RuntimeAdmissionState :=
  mkRuntime (rt_config r) rl (rt_pool r) (rt_current_c r) (rt_candidates r) (rt_block_cache r) (rt_reward_ledger_path r)
    (rt_reward_ledger r) (rt_family_registry r) (rt_boot_genesis r) (rt_authorization_network_id r)
    (rt_canonical_state_failure r).

Definition set_pool (r : RuntimeAdmissionState) (p : SharePool) : RuntimeAdmissionState :=
  mkRuntime (rt_config r) (rt_rate_limiter r) p (rt_current_c r) (rt_candidates r) (rt_block_cache r)
    (rt_reward_ledger_path r) (rt_reward_ledger r) (rt_family_registry r) (rt_boot_genesis r)
    (rt_authorization_network_id r) (rt_canonical_state_failure r).

Definition set_candidates (r : RuntimeAdmissionState) (cs : list CandidateShare) : RuntimeAdmissionState :=
  mkRuntime (rt_config r) (rt_rate_limiter r) (rt_pool r) (rt_current_c r) cs (rt_block_cache r)
    (rt_reward_ledger_path r) (rt_reward_ledger r) (rt_family_registry r) (rt_boot_genesis r)
    (rt_authorization_network_id r) (rt_canonical_state_failure r).

Definition set_block_cache (r : RuntimeAdmissionState) (blocks : list PersistedBlock) : RuntimeAdmissionState :=
  mkRuntime (rt_config r) (rt_rate_limiter r) (rt_pool r) (rt_current_c r) (rt_candidates r) blocks
    (rt_reward_ledger_path r) (rt_reward_ledger r) (rt_family_registry r) (rt_boot_genesis r)
    (rt_authorization_network_id r) (rt_canonical_state_failure r).

Definition set_reward_ledger (r : RuntimeAdmissionState) (path : option string) (l : option FileRewardLedger)
    : RuntimeAdmissionState :=
  mkRuntime (rt_config r) (rt_rate_limiter r) (rt_pool r) (rt_current_c r) (rt_candidates r) (rt_block_cache r)
    path l (rt_family_registry r) (rt_boot_genesis r) (rt_authorization_network_id r) (rt_canonical_state_failure r).

Definition set_failure (r : RuntimeAdmissionState) (f : option CanonicalPublishPhase) : RuntimeAdmissionState :=
  mkRuntime (rt_config r) (rt_rate_limiter r) (rt_pool r) (rt_current_c r) (rt_candidates r) (rt_block_cache r)
    (rt_reward_ledger_path r) (rt_reward_ledger r) (rt_family_registry r) (rt_boot_genesis r)
    (rt_authorization_network_id r) f.

Definition check_block_ts_future_drift (ts_ms now_ms : N) : outcome RuntimeError unit :=
  ensure (ts_ms <=? N.min (now_ms + BLOCK_TS_MAX_FUTURE_DRIFT_MS) u64_max) FutureDrift.

(** [format!("0x{:064x}", n)]. *)
Definition hex_target (n : N) : string := "0x" +:+ hex064 n.

Definition runtime_new (config : RuntimeConfig) : RuntimeAdmissionState :=
  mkRuntime config (limiter_from_policy (rc_policy config) (rc_admission_window_ms config))
    (pool_from_policy (rc_policy config)) None [] [] None None registry_new None None None.

Definition with_difficulty_retarget (config : RuntimeConfig) (policy : DifficultyRetargetPolicy)
    : outcome DifficultyError RuntimeConfig :=
  do* policy_validate policy;
  Ok (mkRuntimeConfig (rc_policy config) (rc_admission_window_ms config) (Some policy) (rc_useful_base_mode config)).

Definition with_useful_base_mode (config : RuntimeConfig) (mode : UsefulBaseMode) : RuntimeConfig :=
  mkRuntimeConfig (rc_policy config) (rc_admission_window_ms config) (rc_difficulty_retarget config) mode.

Definition genesis_spec (config : RuntimeConfig) (network_id genesis_c : string) : GenesisSpec :=
  let '(seed_binding_required, checker_artifact_hash, family_manifest_root) :=
    match network_genesis_preset network_id with
    | Some preset =>
        (gp_seed_binding_required (gs_params preset), gp_checker_artifact_hash (gs_params preset),
         gp_family_manifest_root (gs_params preset))
    | None => (false, None, None)
    end in
  mkGenesisSpec network_id
    (mkGenesisParams CONSENSUS_RULE_VERSION (hex_target (t_block (cp_thresholds (rc_policy config))))
       (hex_target (t_share (cp_thresholds (rc_policy config)))) (cp_k_max (rc_policy config))
       (rc_difficulty_retarget config) seed_binding_required checker_artifact_hash family_manifest_root)
    (mkGenesisInitialState genesis_c).

Definition ensure_canonical_state_healthy (r : RuntimeAdmissionState) : outcome RuntimeError unit :=
  match rt_canonical_state_failure r with Some phase => Err (CanonicalStateInconsistent phase) | None => Ok tt end.

Definition set_current_c (r : RuntimeAdmissionState) (c : string) : RuntimeAdmissionState :=
  mkRuntime (rt_config r) (limiter_set_current_c (rt_rate_limiter r) c) (pool_set_current_c (rt_pool r) c) (Some c)
    (rt_candidates r) (rt_block_cache r) (rt_reward_ledger_path r) (rt_reward_ledger r) (rt_family_registry r)
    (rt_boot_genesis r) (rt_authorization_network_id r) (rt_canonical_state_failure r).

Definition balance_for (r : RuntimeAdmissionState) (pk : string) : N :=
  match rt_reward_ledger r with Some l => balance_of l pk | None => 0 end.

Definition ledger_head (r : RuntimeAdmissionState) : option (N * string) :=
  match rt_reward_ledger r with
  | Some l => match last_event l with Some e => Some (re_height e, re_c e) | None => None end
  | None => None
  end.

Definition apply_block_unchecked (r : RuntimeAdmissionState) (block : PersistedBlock) : RuntimeAdmissionState * N :=
  let r := set_current_c r (b_c block) in
  let '(pool, dropped) := prune_to_height (rt_pool r) (b_c block) in
  let r := set_pool r pool in
  (set_candidates r (List.filter (fun s => String.eqb (cs_c s) (b_c block)) (rt_candidates r)), dropped).

Definition candidate_shares_for_current_c (r : RuntimeAdmissionState) : list CandidateShare :=
  match rt_current_c r with
  | Some c => List.filter (fun s => String.eqb (cs_c s) c) (rt_candidates r)
  | None => []
  end.

Definition shares_for_current_c (r : RuntimeAdmissionState) : list PoolShare :=
  match rt_current_c r with Some c => for_chain (rt_pool r) c | None => [] end.

Definition credited_canon_hashes (r : RuntimeAdmissionState) : gset string :=
  list_to_set (flat_map (fun b => map ev_canon_hash (b_selected_share_evidence b)) (rt_block_cache r)).

(** [pool_share_for_candidate]. *)
Definition pool_share_for_candidate (s : CandidateShare) : PoolShare :=
  mkPoolShare "admission" (cs_pk s) (cs_n s) (cs_j s) (cs_c s).

(** [Iterator::position] on the share hash. *)
Fixpoint position_of (share_hash : string) (cs : list CandidateShare) : option nat :=
  match cs with
  | [] => None
  | s :: cs' => if String.eqb (cs_share_hash s) share_hash then Some 0%nat else S <$> position_of share_hash cs'
  end.

(** The mutable node as a state: reading it, changing the process, running an
    operation of the stores. *)
Definition get_runtime {E} : stm Node E RuntimeAdmissionState := fun n => (n, Ok (no_runtime n)).
Definition put_runtime {E} (r : RuntimeAdmissionState) : stm Node E unit := fun n => (mkNode r (no_host n), Ok tt).
Definition on_runtime {E} (f : RuntimeAdmissionState -> RuntimeAdmissionState) : stm Node E unit :=
  fun n => (mkNode (f (no_runtime n)) (no_host n), Ok tt).
Definition on_store {A} (m : stm Host StoreError A) : stm Node RuntimeError A := fun n =>
  let '(h, r) := m (no_host n) in (mkNode (no_runtime n) h, map_err RuntimeStore r).

(** An operation on the in-memory ledger. *)
Definition on_ledger (m : stm FileRewardLedger StoreError unit) (l : FileRewardLedger) : stm Node RuntimeError unit :=
  fun n =>
    let '(l', r) := m l in
    (mkNode (set_reward_ledger (no_runtime n) (rt_reward_ledger_path (no_runtime n)) (Some l')) (no_host n),
     map_err RuntimeStore r).

Definition begin_canonical_publish (phase : CanonicalPublishPhase) : stm Node RuntimeError unit :=
  on_runtime (fun r => set_failure r (Some phase)).
Definition finish_canonical_publish : stm Node RuntimeError unit := on_runtime (fun r => set_failure r None).

(** [Result::ok] of a fallible operation. *)
Definition stry {S E A} (m : stm S E A) : stm S E (option A) := fun s =>
  match m s with
  | (s', Ok a) => (s', Ok (Some a))
  | (s', Err _) => (s', Ok None)
  | (s', Panic) => (s', Panic)
  end.

Section Runtime.
Context {X : Externals} {NB : Ndjson PersistedBlock} {NR : Ndjson PersistedRewardEvent} {NV : Ndjson Value}.

(** ** Derived views of a block *)

Definition derive_reward_event (block : PersistedBlock) (registry : FamilyManifestRegistry)
    : outcome RuntimeError PersistedRewardEvent :=
  let* credits := map_err RuntimeReplay (compute_block_reward_credits block) in
  let* bounty := map_err (fun e => RuntimeReplay (ReplaySettlement e))
    (derive_bounty_settlement (b_promoted_bounty_shares block) registry (b_height block)) in
  Ok (mkPersistedRewardEvent (b_height block) (b_c block)
        (credits ++ map (fun c => mkPersistedCredit (pbc_prover c) (pbc_amount c)) bounty)).

(** The entries of a [json!] object are in the order of its map: by key. *)
Definition credit_row (block : PersistedBlock) (c : PromotedBountyCredit) : Value :=
  VObject [("amount", VString (pbc_amount c)); ("bountyId", VString (pbc_bounty_id c)); ("c", VString (b_c block));
           ("familyId", VString (pbc_family_id c)); ("height", VNumber (PosInt (b_height block)));
           ("kind", VString "credit"); ("prover", VString (pbc_prover c)); ("schemaVersion", VNumber (PosInt 1))].

Definition share_row (block : PersistedBlock) (s : PromotedBountyShare) : Value :=
  VObject [("bountyId", VString (pbs_bounty_id s)); ("familyId", VString (pbs_family_id s));
           ("height", VNumber (PosInt (b_height block))); ("kind", VString "share_promoted");
           ("proofHash", VString (pbs_proof_hash s)); ("prover", VString (pbs_prover s));
           ("schemaVersion", VNumber (PosInt 1))].

Definition derive_bounty_events (block : PersistedBlock) (registry : FamilyManifestRegistry)
    : outcome RuntimeError (list Value * list Value) :=
  let* credits := map_err (fun e => RuntimeReplay (ReplaySettlement e))
    (derive_bounty_settlement (b_promoted_bounty_shares block) registry (b_height block)) in
  Ok (map (credit_row block) credits, map (share_row block) (b_promoted_bounty_shares block)).

(** The rows that routes own. *)
Definition route_owned (event : Value) : bool :=
  existsb (fun k => bool_decide (event_string event "kind" = Some k)) ["create"; "status_change"; "proof"].

Definition rebuild_bounty_ledger_rows (existing : list Value) (blocks : list PersistedBlock)
    (registry : FamilyManifestRegistry) : outcome RuntimeError (list Value) :=
  ofold (fun rows block =>
    let* events := derive_bounty_events block registry in
    Ok (rows ++ events.1 ++ events.2)) (List.filter route_owned existing) blocks.

(** ** Replay and boot *)

Definition replay_under_boot_contract (r : RuntimeAdmissionState) (blocks : list PersistedBlock)
    : outcome ReplayError ReplayResult :=
  match rt_boot_genesis r with
  | Some spec =>
      replay_blocks_with_genesis_and_registry_for_authorization_network blocks spec (rt_family_registry r)
        (rt_authorization_network_id r)
  | None =>
      match rc_difficulty_retarget (rt_config r) with
      | Some policy =>
          replay_blocks_with_retarget_allow_legacy_evidence_less blocks
            (hex_target (t_block (cp_thresholds (rc_policy (rt_config r))))) policy for_legacy_replay_only
            (rt_family_registry r)
      | None => replay_blocks_allow_legacy_evidence_less blocks for_legacy_replay_only (rt_family_registry r)
      end
  end.

(** What the file system answers during a boot. *)
Record BootIo := mkBootIo {
  bi_blocks : ReadIo;
  bi_bounty : ReadIo;
  bi_bounty_rewrite : RewriteIo;
  bi_reward : ReadIo;
  bi_reward_rewrite : RewriteIo;
  bi_verify : ReadIo
}.

(** The projection of the bounty rows at boot. *)
Definition boot_bounty (path : option string) (blocks : list PersistedBlock) (registry : FamilyManifestRegistry) (io : BootIo)
    : stm Host RuntimeError unit :=
  match path with
  | None => sret tt
  | Some path =>
      let! h := sget in
      let! present :=
        if bool_decide (is_Some (h_files h !! path)) then smap_err RuntimeStore (bounty_recover path (bi_bounty io))
        else sret [] in
      let! rebuilt := slift (rebuild_bounty_ledger_rows present blocks registry) in
      if bool_decide (present = rebuilt) then sret tt
      else smap_err RuntimeStore (bounty_rewrite_atomic path rebuilt (bi_bounty_rewrite io))
  end.

(** The reward events of a chain. *)
Definition reward_events (blocks : list PersistedBlock) (registry : FamilyManifestRegistry)
    : outcome RuntimeError (list PersistedRewardEvent) :=
  ofold (fun events block => let* event := derive_reward_event block registry in Ok (events ++ [event])) [] blocks.

(** The reward ledger at boot: kept when it is exactly the derived one. *)
Definition boot_reward (path : string) (blocks : list PersistedBlock) (registry : FamilyManifestRegistry) (io : BootIo)
    : stm Host RuntimeError FileRewardLedger :=
  let! expected := slift (reward_events blocks registry) in
  let! h := sget in
  let! present :=
    if bool_decide (is_Some (h_files h !! path)) then smap_err RuntimeStore (stry (reward_recover path (bi_reward io)))
    else sret None in
  match present with
  | Some ledger =>
      if bool_decide (rw_events ledger = expected) then sret ledger
      else smap_err RuntimeStore (reward_rewrite_atomic path expected (bi_reward_rewrite io))
  | None => smap_err RuntimeStore (reward_rewrite_atomic path expected (bi_reward_rewrite io))
  end.

(** The genesis pins the family set. *)
Definition check_manifest_root (genesis : option GenesisSpec) (registry : FamilyManifestRegistry)
    : outcome RuntimeError unit :=
  match genesis with
  | Some spec =>
      match gp_family_manifest_root (gs_params spec) with
      | Some expected_root => ensure (String.eqb (to_hex (registry_root registry)) expected_root) ManifestRootMismatch
      | None => Ok tt
      end
  | None => Ok tt
  end.

Definition boot_from_store_inner (config : RuntimeConfig) (block_path : string) (reward_ledger_path : option string)
    (bounty_event_ledger_path : option string) (family_registry : FamilyManifestRegistry) (genesis : option GenesisSpec)
    (authorization_network_id : option string) (io : BootIo) : stm Host RuntimeError RuntimeAdmissionState :=
  do! slift (check_manifest_root genesis family_registry);
  let! recovered := smap_err RuntimeStore (block_store_recover block_path (bi_blocks io)) in
  let fresh := runtime_new config in
  let runtime := mkRuntime config (rt_rate_limiter fresh) (rt_pool fresh) None [] [] None None family_registry genesis
    authorization_network_id None in
  let! replay := slift (map_err RuntimeReplay (replay_under_boot_contract runtime recovered)) in
  do! boot_bounty bounty_event_ledger_path recovered family_registry io;
  let! runtime :=
    match reward_ledger_path with
    | None => sret runtime
    | Some path =>
        let! ledger := boot_reward path recovered family_registry io in
        do! smap_err RuntimeStore (verify_ledger_matches_replay ledger (rr_balances replay) bounty_event_ledger_path
              (rr_bounty_credit_by_family replay) (bi_verify io));
        sret (set_reward_ledger runtime (Some path) (Some ledger))
    end in
  sret (set_block_cache (set_current_c runtime (rr_latest_c replay)) recovered).

Definition boot_from_store_with_genesis_and_authorization_network (config : RuntimeConfig) (block_path : string)
    (reward_ledger_path bounty_event_ledger_path : option string) (family_registry : FamilyManifestRegistry)
    (genesis : GenesisSpec) (authorization_network_id : option string) (io : BootIo)
    : stm Host RuntimeError RuntimeAdmissionState :=
  boot_from_store_inner config block_path reward_ledger_path bounty_event_ledger_path family_registry (Some genesis)
    authorization_network_id io.

Definition boot_from_store_with_genesis (config : RuntimeConfig) (block_path : string)
    (reward_ledger_path bounty_event_ledger_path : option string) (family_registry : FamilyManifestRegistry)
    (genesis : GenesisSpec) (io : BootIo) : stm Host RuntimeError RuntimeAdmissionState :=
  boot_from_store_inner config block_path reward_ledger_path bounty_event_ledger_path family_registry (Some genesis)
    (Some (gs_network_id genesis)) io.

Definition boot_from_store_with_bounty_ledger_and_registry (config : RuntimeConfig) (block_path : string)
    (reward_ledger_path bounty_event_ledger_path : option string) (family_registry : FamilyManifestRegistry) (io : BootIo)
    : stm Host RuntimeError RuntimeAdmissionState :=
  boot_from_store_inner config block_path reward_ledger_path bounty_event_ledger_path family_registry None None io.

Definition boot_from_store_with_bounty_ledger (config : RuntimeConfig) (block_path : string)
    (reward_ledger_path bounty_event_ledger_path : option string) (io : BootIo) : stm Host RuntimeError RuntimeAdmissionState :=
  boot_from_store_with_bounty_ledger_and_registry config block_path reward_ledger_path bounty_event_ledger_path
    registry_new io.

Definition boot_from_store (config : RuntimeConfig) (block_path : string) (reward_ledger_path : option string) (io : BootIo)
    : stm Host RuntimeError RuntimeAdmissionState :=
  boot_from_store_with_bounty_ledger config block_path reward_ledger_path None io.

(** ** Extending and replacing the chain *)

Definition check_block_applicable (r : RuntimeAdmissionState) (block : PersistedBlock) : outcome RuntimeError unit :=
  let* current_c := ok_or (rt_current_c r) HeadNotSet in
  do* ensure (String.eqb (b_prev_c block) current_c) PrevCNotHead;
  map_err RuntimeBlock (validate_shape block).

Definition apply_produced_block (block : PersistedBlock) : stm Node RuntimeError N :=
  let! r := get_runtime in
  do! slift (ensure_canonical_state_healthy r);
  do! slift (check_block_applicable r block);
  let '(r', dropped) := apply_block_unchecked r block in
  do! put_runtime r';
  sret dropped.

(** What the file system answers while a block is published. *)
Record PublishIo := mkPublishIo { pu_block : AppendIo; pu_reward : AppendIo }.

(** The common tail of [ingest_external_block] and [commit_using_cache]: the
    reward event is derived before the first write, then block, reward event,
    memory. *)
Definition publish_block (block_path : string) (block : PersistedBlock) (io : PublishIo) : stm Node RuntimeError N :=
  let! r := get_runtime in
  let! reward_event :=
    slift (match rt_reward_ledger_path r with
           | Some _ => omap Some (derive_reward_event block (rt_family_registry r))
           | None => Ok None
           end) in
  do! begin_canonical_publish BlockReward;
  do! on_store (block_store_append block_path block (pu_block io));
  do! match rt_reward_ledger_path r, rt_reward_ledger r, reward_event with
      | Some ledger_path, Some ledger, Some event =>
          do! on_store (reward_append ledger_path event (pu_reward io));
          on_ledger (reward_apply event) ledger
      | _, _, _ => sret tt
      end;
  let! r := get_runtime in
  let '(r', dropped) := apply_block_unchecked r block in
  do! put_runtime (set_block_cache r' (rt_block_cache r' ++ [block]));
  do! finish_canonical_publish;
  sret dropped.

Definition ingest_external_block (block_path : string) (block : PersistedBlock) (io : PublishIo) : stm Node RuntimeError N :=
  let! r := get_runtime in
  do! slift (ensure_canonical_state_healthy r);
  do! slift (check_block_applicable r block);
  publish_block block_path block io.

Definition reorg_network_id (r : RuntimeAdmissionState) (genesis : GenesisSpec) : option string :=
  match rt_authorization_network_id r with
  | Some id => Some id
  | None => if bool_decide (rt_boot_genesis r = None) then Some (gs_network_id genesis) else None
  end.

(** The current chain keeps its place. *)
Definition keeps_current (r : RuntimeAdmissionState) (candidate : list PersistedBlock) (candidate_head_hash : Hex32)
    : outcome RuntimeError bool :=
  match last (rt_block_cache r) with
  | None => Ok false
  | Some current_head =>
      let* current_hash := map_err RuntimeBlock (head_block_hash current_head) in
      if bool_decide (current_hash = candidate_head_hash) then Ok true
      else
        let* winner := map_err RuntimeBlock (choose_canonical_head [rt_block_cache r; candidate]) in
        Ok (negb (bool_decide (winner = candidate_head_hash)))
  end.

(** The checks a competing chain passes before anything is written: its replay
    and whether the current chain is kept. *)
Definition evaluate_candidate (r : RuntimeAdmissionState) (candidate : list PersistedBlock) (genesis : GenesisSpec)
    (now_ms : N) : outcome RuntimeError (PersistedBlock * ReplayResult * bool) :=
  do* ensure_canonical_state_healthy r;
  let* candidate_head := ok_or (last candidate) EmptyReorgCandidate in
  do* check_block_ts_future_drift (b_ts candidate_head) now_ms;
  let* replay := map_err RuntimeReplay
    (replay_blocks_with_genesis_and_registry_for_authorization_network candidate genesis (rt_family_registry r)
       (reorg_network_id r genesis)) in
  let* candidate_head_hash := map_err RuntimeBlock (head_block_hash candidate_head) in
  let* kept := keeps_current r candidate candidate_head_hash in
  Ok (candidate_head, replay, kept).

Definition preflight_reorg_candidate (r : RuntimeAdmissionState) (candidate : list PersistedBlock) (genesis : GenesisSpec)
    (now_ms : N) : outcome RuntimeError ReorgOutcome :=
  let* v := evaluate_candidate r candidate genesis now_ms in
  let '(head, _, kept) := v in
  Ok (if kept : bool then KeptCurrent else Reorged (b_height head)).

(** The reward events and ledger of a candidate chain, before any write. *)
Definition rebuild_rewards (r : RuntimeAdmissionState) (candidate : list PersistedBlock)
    : outcome RuntimeError (option (FileRewardLedger * list PersistedRewardEvent)) :=
  match rt_reward_ledger_path r with
  | None => Ok None
  | Some _ =>
      omap Some (ofold (fun st block =>
        let '(ledger, events) := st in
        let* event := derive_reward_event block (rt_family_registry r) in
        let '(ledger', applied) := reward_apply event ledger in
        do* map_err RuntimeStore applied;
        Ok (ledger', events ++ [event])) (reward_ledger_new, []) candidate)
  end.

Record ReorgIo := mkReorgIo { ro_blocks : RewriteIo; ro_rewards : RewriteIo }.

Definition reorg_to_heavier_chain (block_path : string) (candidate : list PersistedBlock) (genesis : GenesisSpec)
    (now_ms : N) (io : ReorgIo) : stm Node RuntimeError ReorgOutcome :=
  let! r := get_runtime in
  let! v := slift (evaluate_candidate r candidate genesis now_ms) in
  let '(candidate_head, replay, kept) := v in
  if kept : bool then sret KeptCurrent
  else
    let! rebuild := slift (rebuild_rewards r candidate) in
    do! begin_canonical_publish ReorgReward;
    do! on_store (rewrite_lines block_path candidate (ro_blocks io));
    do! match rt_reward_ledger_path r, rebuild with
        | Some ledger_path, Some (ledger, events) =>
            do! on_store (rewrite_lines ledger_path events (ro_rewards io));
            on_runtime (fun r => set_reward_ledger r (rt_reward_ledger_path r) (Some ledger))
        | _, _ => sret tt
        end;
    do! on_runtime (fun r =>
          let r := set_current_c (set_block_cache r candidate) (rr_latest_c replay) in
          let r := set_pool r (prune_to_height (rt_pool r) (b_c candidate_head)).1 in
          set_candidates r (List.filter (fun s => String.eqb (cs_c s) (b_c candidate_head)) (rt_candidates r)));
    do! finish_canonical_publish;
    sret (Reorged (b_height candidate_head)).

(** ** Producing a block *)

Definition block_builder_config_for_height (r : RuntimeAdmissionState) (existing_blocks : list PersistedBlock)
    : outcome RuntimeError BlockBuilderConfig :=
  match rc_difficulty_retarget (rt_config r) with
  | None => map_err RuntimeBuild (from_policy (rc_policy (rt_config r)))
  | Some policy =>
      let* evidence := map_err RuntimeDifficulty
        (expected_retarget_difficulty_for_height existing_blocks
           (hex_target (t_block (cp_thresholds (rc_policy (rt_config r))))) policy) in
      map_err RuntimeBuild
        (from_policy_with_t_block (rc_policy (rt_config r)) (de_t_block evidence) (de_difficulty_epoch evidence))
  end.

Definition effective_difficulty_for_head (r : RuntimeAdmissionState) : outcome RuntimeError DifficultyEvidence :=
  let thresholds := cp_thresholds (rc_policy (rt_config r)) in
  match rc_difficulty_retarget (rt_config r) with
  | Some policy =>
      map_err RuntimeDifficulty
        (expected_retarget_difficulty_for_height (rt_block_cache r) (hex_target (t_block thresholds)) policy)
  | None =>
      let* weight := ok_or (difficulty_weight (t_block thresholds)) RuntimeZeroTarget in
      Ok (mkDifficultyEvidence "static-calibrated" "not-enabled" 0 (hex_target (t_block thresholds))
            (hex_target (t_share thresholds)) (to_decimal weight))
  end.

Definition build_block_selection_for_current_c (r : RuntimeAdmissionState) (accepted_canon_tags : gset N)
    : outcome RuntimeError BuildSelectionResult :=
  let* current_c := ok_or (rt_current_c r) HeadNotSet in
  let* config := block_builder_config_for_height r (rt_block_cache r) in
  map_err RuntimeBuild
    (build_block_selection_for_network current_c (candidate_shares_for_current_c r) config accepted_canon_tags
       (credited_canon_hashes r) [] (rt_authorization_network_id r)).

Definition selected_reward_pks (selected : list CandidateShare) : list string :=
  if existsb (fun s => negb (str_is_empty (cs_reward_pk s))) selected then map candidate_reward_pk selected else [].

Definition evidence_of (s : CandidateShare) : SelectedShareEvidence :=
  mkSelectedShareEvidence (cs_pk s) (cs_n s) (cs_j s) (cs_c s) (cs_canon_hash s) (cs_proof_package s) (cs_seed_hex s)
    (cs_signed_work s).

(** The block with its hash filled in. *)
Definition seal (b : PersistedBlock) : PersistedBlock :=
  mkPersistedBlock (b_height b) (b_prev_c b) (to_hex (block_hash b)) (b_proposer_pk b) (b_selected_share_hashes b)
    (b_selected_share_pks b) (b_selected_share_reward_pks b) (b_proposer_reward_pk b) (b_selected_share_evidence b)
    (b_min_share_score b) (b_min_share_score_multiplier_nanos b) (b_kmax_applied b) (b_difficulty_epoch b) (b_t_block b)
    (b_t_share b) (b_difficulty_weight b) (b_dropped_below_min_score b) (b_dropped_kernel_reject b)
    (b_truncated_by_kmax b) (b_ts b) (b_promoted_bounty_shares b).

Definition produce_block_for_current_c_with_config (r : RuntimeAdmissionState) (height ts : N)
    (accepted_canon_tags : gset N) (config : BlockBuilderConfig) (promoted_bounty_shares : list PromotedBountyShare)
    : outcome RuntimeError PersistedBlock :=
  let* prev_c := ok_or (rt_current_c r) HeadNotSet in
  let* result := map_err RuntimeBuild
    (build_block_selection_for_network prev_c (candidate_shares_for_current_c r) config accepted_canon_tags
       (credited_canon_hashes r) promoted_bounty_shares (rt_authorization_network_id r)) in
  let* selection := match result with Built s => Ok s | NoProposer _ _ _ => Err NoSingleProposer end in
  let selected := bs_selected selection in
  let* proposer := ok_or (selected !! N.to_nat (bs_proposer_index selection)) ProposerOutOfRange in
  Ok (seal (mkPersistedBlock height prev_c "" (cs_pk proposer) (map cs_share_hash selected) (map cs_pk selected)
              (selected_reward_pks selected) (cs_reward_pk proposer) (map evidence_of selected)
              (to_decimal (bc_min_share_score config)) (bc_min_share_score_multiplier_nanos config) (len selected)
              (bc_difficulty_epoch config) (bc_t_block config) (bc_t_share config) (bc_difficulty_weight config)
              (bs_dropped_below_min_score selection) (bs_dropped_kernel_reject selection)
              (bs_truncated_by_kmax selection) ts (bs_promoted_bounty_shares selection))).

Definition produce_block_for_current_c (r : RuntimeAdmissionState) (height ts : N) (accepted_canon_tags : gset N)
    : outcome RuntimeError PersistedBlock :=
  let* config := block_builder_config_for_height r (rt_block_cache r) in
  produce_block_for_current_c_with_config r height ts accepted_canon_tags config [].

Definition commit_using_cache (block_path : string) (height ts : N) (accepted_canon_tags : gset N)
    (promoted_bounty_shares : list PromotedBountyShare) (io : PublishIo) : stm Node RuntimeError RuntimeCommittedBlock :=
  let! r := get_runtime in
  do! slift (ensure_canonical_state_healthy r);
  let! config := slift (block_builder_config_for_height r (rt_block_cache r)) in
  let! block := slift (produce_block_for_current_c_with_config r height ts accepted_canon_tags config promoted_bounty_shares) in
  do! slift (check_block_applicable r block);
  do! slift (match rt_boot_genesis r with
             | Some genesis =>
                 omap (fun _ => tt) (map_err RuntimeReplay
                   (replay_blocks_with_genesis_and_registry_for_authorization_network (rt_block_cache r ++ [block])
                      genesis (rt_family_registry r) (rt_authorization_network_id r)))
             | None => Ok tt
             end);
  let! dropped := publish_block block_path block io in
  sret (mkCommittedBlock block dropped).

Definition commit_block_for_current_c (block_path : string) (height ts : N) (accepted_canon_tags : gset N) (io : PublishIo)
    : stm Node RuntimeError RuntimeCommittedBlock :=
  let! r := get_runtime in
  do! slift (ensure (len (rt_block_cache r) =? height) CommitHeight);
  commit_using_cache block_path height ts accepted_canon_tags [] io.

Definition commit_next_block_for_current_c_with_promoted (block_path : string) (ts : N) (accepted_canon_tags : gset N)
    (promoted_bounty_shares : list PromotedBountyShare) (io : PublishIo) : stm Node RuntimeError RuntimeCommittedBlock :=
  let! r := get_runtime in
  commit_using_cache block_path (len (rt_block_cache r)) ts accepted_canon_tags promoted_bounty_shares io.

Definition commit_next_block_for_current_c (block_path : string) (ts : N) (accepted_canon_tags : gset N) (io : PublishIo)
    : stm Node RuntimeError RuntimeCommittedBlock :=
  commit_next_block_for_current_c_with_promoted block_path ts accepted_canon_tags [] io.

(** ** Admission and semantic reservations *)

Definition body_string (body : list (string * Value)) (field : string) : outcome RuntimeError string :=
  ok_or (match assoc field body with Some v => as_str v | None => None end) (BodyField field).

Definition observe_ticket_from_body (body : list (string * Value)) : stm Node RuntimeError bool :=
  let! r := get_runtime in
  let! pk := slift (body_string body "pk") in
  let! c := slift (body_string body "c") in
  let n := match assoc "n" body with Some v => as_str v | None => None end in
  let! observed := slift (observe_ticket (rt_rate_limiter r) pk c n) in
  do! put_runtime (set_rate_limiter r observed.1);
  sret observed.2.

Definition candidate_of (submission : ParsedSubmission) (share_hash : Hex32) (canon_tag : N) (reward_pk : option string)
    (signed_work : option ShareWorkAuthorization) : CandidateShare :=
  mkCandidateShare "runtime-admission" (su_pk_hex submission) (default "" reward_pk) (su_n_hex submission)
    (su_j_hex submission) (su_c_hex submission) (to_hex share_hash) (to_decimal (share_score share_hash)) canon_tag
    (hex_encode (sha256 (su_package_bytes submission))) (hex_encode (su_package_bytes submission))
    (su_seed_hex submission) signed_work.

Definition admit_body_with_submitter_context (now : Z) (ip : string) (body : list (string * Value)) (canon_tag : N)
    (reward_pk : option string) (signed_work : option ShareWorkAuthorization) : stm Node RuntimeError AdmissionDecision :=
  let! r := get_runtime in
  match parse_submission_body body with
  | Panic => slift Panic
  | Err decision => sret decision
  | Ok submission =>
      let! admitted := slift (admit_parsed_submission_typed (rc_policy (rt_config r)) (rt_rate_limiter r) (rt_pool r) now ip
                                submission) in
      let '(rate_limiter, pool, decision) := admitted in
      let r := set_pool (set_rate_limiter r rate_limiter) pool in
      let r :=
        match decision with
        | DAccepted share_hash =>
            if cp_global_share_cap (rc_policy (rt_config r)) <=? len (rt_candidates r) then r
            else set_candidates r (rt_candidates r ++ [candidate_of submission share_hash canon_tag reward_pk signed_work])
        | DRejected _ _ _ => r
        end in
      do! put_runtime r;
      sret decision
  end.

Definition admit_body_with_canon_tag (now : Z) (ip : string) (body : list (string * Value)) (canon_tag : N)
    : stm Node RuntimeError AdmissionDecision :=
  admit_body_with_submitter_context now ip body canon_tag None None.

Definition admit_body (now : Z) (ip : string) (body : list (string * Value)) : stm Node RuntimeError AdmissionDecision :=
  admit_body_with_canon_tag now ip body 0.

(** The candidate at a position, and the list without it. *)
Definition candidate_at (r : RuntimeAdmissionState) (share_hash : string) : option (CandidateShare * list CandidateShare) :=
  match position_of share_hash (rt_candidates r) with
  | Some i => match rt_candidates r !! i with
              | Some s => Some (s, delete i (rt_candidates r))
              | None => None
              end
  | None => None
  end.

Definition quarantine_candidate (share_hash : string) : stm Node RuntimeError bool :=
  let! r := get_runtime in
  match candidate_at r share_hash with
  | None => sret false
  | Some (s, rest) =>
      let '(pool, reserved) := reserve_for_semantic_check (rt_pool r) (pool_share_for_candidate s) in
      do! put_runtime (set_candidates (set_pool r pool) rest);
      sret reserved
  end.

Definition take_candidate_for_reverify (share_hash : string) (admitted_at : Z) (peer_ip : string)
    : stm Node RuntimeError (option CandidateShare) :=
  let! r := get_runtime in
  match candidate_at r share_hash with
  | None => sret None
  | Some (s, rest) =>
      let '(pool, reserved) := reserve_for_semantic_check (rt_pool r) (pool_share_for_candidate s) in
      let r := set_candidates (set_pool r pool) rest in
      if negb reserved then
        do! put_runtime (set_rate_limiter r (release_committed (rt_rate_limiter r) admitted_at peer_ip (cs_pk s) (cs_c s)).1);
        sret None
      else
        do! put_runtime r;
        sret (Some s)
  end.

Definition restore_reverified_candidate (s : CandidateShare) : stm Node RuntimeError bool :=
  let! r := get_runtime in
  if negb (bool_decide (rt_current_c r = Some (cs_c s)))
     || existsb (fun e => String.eqb (cs_share_hash e) (cs_share_hash s)) (rt_candidates r)
     || (cp_global_share_cap (rc_policy (rt_config r)) <=? len (rt_candidates r))
  then sret false
  else
    let '(pool, restored) := restore_after_semantic_check (rt_pool r) (pool_share_for_candidate s) in
    if negb restored then do! put_runtime (set_pool r pool); sret false
    else do! put_runtime (set_candidates (set_pool r pool) (rt_candidates r ++ [s])); sret true.

Definition rt_release_semantic_reservation (s : CandidateShare) (admitted_at : Z) (peer_ip : string)
    : stm Node RuntimeError bool :=
  let! r := get_runtime in
  let '(pool, pool_released) := release_semantic_reservation (rt_pool r) (pool_share_for_candidate s) in
  let '(rl, rate_released) := release_committed (rt_rate_limiter r) admitted_at peer_ip (cs_pk s) (cs_c s) in
  do! put_runtime (set_rate_limiter (set_pool r pool) rl);
  sret (pool_released || rate_released).

End Runtime.
