(* ===== verification/RuntimeFacts.v ===== *)
(** * Facts about the node's derived state

    The reward ledger and the bounty rows are functions of the chain: on a
    chain that replays, the derived events apply without error and leave the
    balances of the replay, and the derived rows pass the schema of the log and
    add up to the family credits of the replay. *)

From S2P Require Import Prelude Json Externals Hash Block BlockBuilder Difficulty Config ShareAuthorization.
From S2P Require Import FamilyManifest Bounty ReplayEvidence Replay SharePool RateLimiter Admission Durability BountyLedger Stores Runtime.

(** ** Every derived credit is a positive amount *)

Definition pays (amount : string) : Prop := exists n, parse_uint u128_max amount = Some n /\ n <> 0.

Definition positive_totals (m : gmap string N) : Prop := map_Forall (fun _ n => 0 < n <= u128_max) m.

Lemma bump_total_positive m pk m' : positive_totals m -> Replay.bump_total m pk = Ok m' -> positive_totals m' /\ is_Some (m' !! pk).
Proof.
  unfold Replay.bump_total. intros Hm H. destruct (checked_add _ _ _) as [n|] eqn:Ea; [|done]. injection H as <-.
  apply checked_add_Some in Ea as [-> Hle]. split; [|by rewrite lookup_insert_eq]. apply map_Forall_insert_2; [lia|done].
Qed.

Lemma credit_shares_positive {X : Externals} l : forall m m', positive_totals m -> ofold credit_share m l = Ok m' ->
  positive_totals m'.
Proof.
  induction l as [|pk l IH]; intros m m' Hm H; [by injection H as <-|]. cbn [ofold] in H. unfold credit_share at 1 in H.
  destruct (hex32_from_hex pk); try discriminate H. cbn [map_err obind] in H.
  destruct (Replay.bump_total m pk) as [m1| |] eqn:Eb; try discriminate H. cbn [obind] in H.
  apply (IH m1); [|done]. by eapply bump_total_positive.
Qed.

Lemma totals_pay m : positive_totals m ->
  Forall (fun c => pays (pc_amount c)) (map (fun e : string * N => mkPersistedCredit e.1 (to_decimal e.2)) (btree_iter m)).
Proof.
  intros Hm. apply Forall_map, Forall_forall. intros [k n] Hin%elem_of_btree_iter. specialize (Hm _ _ Hin). cbn in *.
  exists n. split; [|lia]. apply parse_uint_to_decimal. lia.
Qed.

Lemma reward_credits_pay {X : Externals} b cs : compute_block_reward_credits b = Ok cs ->
  cs <> [] /\ Forall (fun c => pays (pc_amount c)) cs.
Proof.
  unfold compute_block_reward_credits, compute_block_credits_for_reward_pks. intros H. run_inv H. injection H as <-.
  match goal with H : ofold credit_share _ _ = Ok _ |- _ => apply credit_shares_positive in H; [|apply map_Forall_empty] end.
  match goal with H : Replay.bump_total _ _ = Ok _ |- _ => apply bump_total_positive in H as [Hp [n Hn]]; [|done] end.
  split; [|by apply totals_pay]. apply elem_of_btree_iter in Hn. intros Hnil. apply map_eq_nil in Hnil. rewrite Hnil in Hn. by apply elem_of_nil in Hn.
Qed.

(** A credit comes from one of the promoted rows and pays. *)
Definition credit_from (rows : list PromotedBountyShare) (c : PromotedBountyCredit) : Prop :=
  pays (pbc_amount c) /\ exists s, s ∈ rows /\ pbc_family_id c = pbs_family_id s /\
    pbc_bounty_id c = pbs_bounty_id s /\ pbc_prover c = pbs_prover s.

Lemma settle_row_credits registry height rows st s st' : s ∈ rows -> Forall (credit_from rows) (st_credits st) ->
  settle_row registry height st s = Ok st' -> Forall (credit_from rows) (st_credits st').
Proof.
  unfold settle_row. intros Hin Hst H.
  destruct (registry_get registry (pbs_family_id s)) as [m|]; [|discriminate H]. cbn [ok_or obind] in H.
  destruct (settlement_eligible m height); [|discriminate H]. cbn [ensure obind] in H.
  destruct (checked_add _ _ _); [|discriminate H]. cbn [expect obind] in H.
  destruct (_ <=? max_rows m); [|discriminate H]. cbn [ensure obind] in H.
  destruct (parse_uint u128_max (pbs_reward s)) as [r|] eqn:Hr; [|discriminate H]. cbn [ok_or obind] in H.
  destruct (String.eqb _ _); [by injection H as <-|]. set (due := N.min _ _) in H.
  assert (due <= u128_max) by (apply parse_uint_bound in Hr; unfold due; lia). clearbody due.
  destruct (N.ltb_spec 0 due); injection H as <-; [|done]. apply Forall_app. split; [done|]. constructor; [|done].
  split; [|by exists s]. exists due. split; [by apply parse_uint_to_decimal|lia].
Qed.

Lemma settlement_credits rows registry height cs : derive_bounty_settlement rows registry height = Ok cs ->
  Forall (credit_from rows) cs.
Proof.
  unfold derive_bounty_settlement. intros H. destruct (ofold _ _ _) as [st| |] eqn:E; try discriminate H. injection H as <-.
  assert (Hgo : forall l st0, (forall s, s ∈ l -> s ∈ rows) -> Forall (credit_from rows) (st_credits st0) ->
    ofold (settle_row registry height) st0 l = Ok st -> Forall (credit_from rows) (st_credits st)).
  { induction l as [|s l IH]; intros st0 Hsub H0 Hl; [by injection Hl as <-|].
    cbn [ofold] in Hl. destruct (settle_row registry height st0 s) as [st1| |] eqn:Es; try discriminate Hl. cbn [obind] in Hl.
    apply (IH st1); [intros; apply Hsub; by right| |done]. eapply settle_row_credits; [apply Hsub; by left|done|exact Es]. }
  by apply (Hgo rows (mkSettlement [] ∅ ∅)).
Qed.

(** ** The ledger follows the replay *)

Lemma apply_rewards cs : forall m m', Forall (fun c => pays (pc_amount c)) cs -> ofold apply_credit m cs = Ok m' ->
  sfor apply_reward_credit cs m = (m', Ok tt).
Proof.
  induction cs as [|c cs IH]; intros m m' Hp H; [by injection H as <-|]. apply Forall_cons in Hp as [(n & Hn & Hz) Hp].
  cbn [ofold] in H. unfold apply_credit at 1 in H. rewrite Hn in H. cbn [ok_or obind] in H.
  destruct (checked_credit m (pc_pk c) n) as [m1| |] eqn:Ec; try discriminate H. cbn [map_err obind] in H.
  cbn [sfor]. unfold sbind, apply_reward_credit at 1. rewrite Hn, (proj2 (N.eqb_neq _ _) Hz), Ec. by apply IH.
Qed.

Definition as_reward (c : PromotedBountyCredit) : PersistedCredit := mkPersistedCredit (pbc_prover c) (pbc_amount c).

Lemma bounty_as_rewards cs : forall st st', ofold apply_bounty_credit st cs = Ok st' ->
  ofold apply_credit st.1 (map as_reward cs) = Ok st'.1.
Proof.
  induction cs as [|c cs IH]; intros st st' H; [by injection H as <-|]. cbn [ofold map] in H |- *.
  unfold apply_bounty_credit at 1 in H. unfold apply_credit at 1. cbn [as_reward pc_amount pc_pk].
  destruct (parse_uint u128_max (pbc_amount c)) as [n|]; [|discriminate H]. cbn [ok_or obind] in H |- *.
  destruct (checked_credit st.1 _ n) as [m1| |]; try discriminate H. cbn [map_err obind] in H |- *.
  destruct (checked_credit st.2 _ n) as [m2| |]; try discriminate H. cbn [map_err obind] in H. by apply IH in H.
Qed.

Section Rewards.
Context {X : Externals} (policy : EvidencePolicy) (params : option GenesisParams) (network : option string).
Context (registry : FamilyManifestRegistry).

(** A replayed block derives an event that takes the balances of the replay
    before the block to those after it. *)
Lemma reward_step st b st' : replay_step policy params network registry st b = Ok st' ->
  exists event, derive_reward_event b registry = Ok event /\ re_height event = b_height b /\ re_c event = b_c b /\
    forall evs, reward_apply event (mkFileRewardLedger evs (rs_balances st.2)) =
      (mkFileRewardLedger (evs ++ [event]) (rs_balances st'.2), Ok tt).
Proof.
  destruct st as [h s]. intros H.
  apply replay_step_Ok in H as (cs & bounty & bal1 & _ & Hcs & Hb & Hbal & Hbnt & _).
  unfold derive_reward_event. rewrite Hcs, Hb. cbn [map_err obind]. eexists. split_and!; [done|done|done|]. intros evs.
  destruct (reward_credits_pay b cs Hcs) as [Hne Hpay]. apply bounty_as_rewards in Hbnt. cbn [fst snd] in Hbnt |- *.
  unfold reward_apply. cbn [re_credits rw_balances rw_events]. destruct cs as [|c cs]; [done|]. cbn [app].
  change (c :: cs ++ map ?f bounty) with ((c :: cs) ++ map f bounty).
  rewrite (apply_rewards _ (rs_balances s) (rs_balances st'.2)); [done| |].
  - apply Forall_app. split; [done|]. apply Forall_map. eapply Forall_impl; [by apply (settlement_credits _ _ _ _ Hb)|]. by intros c' [? _].
  - by rewrite ofold_app, Hbal.
Qed.

(** The events of a chain, and the ledger they leave. *)
Lemma chain_rewards blocks : forall st0 st evs0, 
  ofold (replay_step policy params network registry) st0 blocks = Ok st ->
  exists evs, ofold (fun events block => let* event := derive_reward_event block registry in Ok (events ++ [event])) evs0 blocks
      = Ok (evs0 ++ evs) /\
    Forall2 (fun e b => re_height e = b_height b /\ re_c e = b_c b) evs blocks /\
    sfor reward_apply evs (mkFileRewardLedger evs0 (rs_balances st0.2)) =
      (mkFileRewardLedger (evs0 ++ evs) (rs_balances st.2), Ok tt).
Proof.
  induction blocks as [|b blocks IH]; intros st0 st evs0 H.
  { injection H as <-. exists []. rewrite app_nil_r. by split_and!. }
  cbn [ofold] in H. destruct (replay_step _ _ _ _ st0 b) as [st1| |] eqn:E; try discriminate H. cbn [obind] in H.
  destruct (reward_step _ _ _ E) as (event & He & Hh & Hc & Ha).
  destruct (IH st1 st (evs0 ++ [event]) H) as (evs & H1 & H2 & H3). exists (event :: evs).
  cbn [ofold]. rewrite He. cbn [obind]. rewrite H1, <- app_assoc. split_and!; [done|by constructor|].
  cbn [sfor]. unfold sbind. rewrite Ha, H3, <- app_assoc. done.
Qed.
End Rewards.

(** ** Bounty rows *)

Lemma credit_rows_sum b cs : forall st st', ofold apply_bounty_credit st cs = Ok st' ->
  ofold sum_credit_row st.2 (map (credit_row b) cs) = Ok st'.2.
Proof.
  induction cs as [|c cs IH]; intros st st' H; [by injection H as <-|]. cbn [ofold map] in H |- *.
  unfold apply_bounty_credit at 1 in H. unfold sum_credit_row at 1.
  change (event_string (credit_row b c) "kind") with (Some "credit").
  change (event_string (credit_row b c) "familyId") with (Some (pbc_family_id c)).
  change (event_string (credit_row b c) "amount") with (Some (pbc_amount c)). cbn [default String.eqb negb ok_or obind].
  destruct (parse_uint u128_max (pbc_amount c)) as [n|]; [|discriminate H]. cbn [ok_or obind] in H |- *.
  destruct (checked_credit st.1 _ n) as [m1| |]; try discriminate H. cbn [map_err obind] in H |- *.
  destruct (checked_credit st.2 _ n) as [m2| |]; try discriminate H. cbn [map_err obind] in H |- *. by apply IH in H.
Qed.

(** Rows that are not credits do not count. *)
Lemma other_rows_sum rows : forall m, Forall (fun e => event_string e "kind" <> Some "credit") rows ->
  ofold sum_credit_row m rows = Ok m.
Proof.
  induction rows as [|e rows IH]; intros m H; [done|]. apply Forall_cons in H as [He H]. cbn [ofold]. unfold sum_credit_row at 1.
  destruct (String.eqb_spec (default "" (event_string e "kind")) "credit") as [Hk|]; [|by apply IH].
  destruct (event_string e "kind"); cbn in Hk; [congruence|done].
Qed.

Lemma route_owned_other rows : Forall (fun e => event_string e "kind" <> Some "credit") (List.filter route_owned rows).
Proof.
  apply Forall_forall. intros e [_ He]%list_filter_elem Hk. unfold route_owned in He. rewrite Hk in He. discriminate He.
Qed.

Lemma hex32_is_hex32 {X : Externals} s h : hex32_from_hex s = Ok h -> is_hex32 s = true.
Proof.
  unfold hex32_from_hex, hex_n_from_hex, is_hex32, str_len, HEX32_LEN. intros H.
  destruct (Nat.eqb_spec (String.length s) (2 * 32)) as [->|]; [|discriminate H]. cbn [negb orb] in H.
  by destruct (str_all is_lower_hex s).
Qed.

Lemma require_hex32_is_hex32 {X : Externals} s : require_hex32 s = Ok tt -> is_hex32 s = true.
Proof.
  unfold require_hex32. intros H. destruct (hex32_from_hex s) as [h| |] eqn:E; try discriminate H. by eapply hex32_is_hex32.
Qed.

(** The names a derived row carries. *)
Definition named (s : PromotedBountyShare) : Prop := pbs_family_id s <> "" /\ pbs_bounty_id s <> "".

Lemma not_empty s : s <> "" -> negb (str_is_empty s) = true.
Proof. by destruct s. Qed.

Lemma credit_row_valid b c : is_hex32 (b_c b) = true -> pbc_family_id c <> "" -> pbc_bounty_id c <> "" ->
  is_hex32 (pbc_prover c) = true -> pays (pbc_amount c) -> validate_bounty_ledger_event (credit_row b c) = Ok tt.
Proof.
  intros Hc Hf Hb Hp (n & Hn & _). unfold validate_bounty_ledger_event, validate_credit, require_hash, require_text, require_height.
  change (value_get (credit_row b c) "schemaVersion") with (Some (VNumber (PosInt 1))).
  change (value_get (credit_row b c) "height") with (Some (VNumber (PosInt (b_height b)))).
  change (event_string (credit_row b c) "kind") with (Some "credit").
  change (event_string (credit_row b c) "c") with (Some (b_c b)).
  change (event_string (credit_row b c) "familyId") with (Some (pbc_family_id c)).
  change (event_string (credit_row b c) "bountyId") with (Some (pbc_bounty_id c)).
  change (event_string (credit_row b c) "prover") with (Some (pbc_prover c)).
  change (event_string (credit_row b c) "amount") with (Some (pbc_amount c)).
  cbn -[is_hex32 str_is_empty parse_uint]. by rewrite Hc, !not_empty, Hp, Hn by done.
Qed.

Lemma share_row_valid b s : named s -> is_hex32 (pbs_proof_hash s) = true -> is_hex32 (pbs_prover s) = true ->
  validate_bounty_ledger_event (share_row b s) = Ok tt.
Proof.
  intros [Hf Hb] Hh Hp. unfold validate_bounty_ledger_event, validate_share_promoted, require_hash, require_text, require_height.
  change (value_get (share_row b s) "schemaVersion") with (Some (VNumber (PosInt 1))).
  change (value_get (share_row b s) "height") with (Some (VNumber (PosInt (b_height b)))).
  change (event_string (share_row b s) "kind") with (Some "share_promoted").
  change (event_string (share_row b s) "familyId") with (Some (pbs_family_id s)).
  change (event_string (share_row b s) "bountyId") with (Some (pbs_bounty_id s)).
  change (event_string (share_row b s) "proofHash") with (Some (pbs_proof_hash s)).
  change (event_string (share_row b s) "prover") with (Some (pbs_prover s)).
  cbn -[is_hex32 str_is_empty]. by rewrite !not_empty, Hh, Hp by done.
Qed.

Lemma shape_hex {X : Externals} b : validate_shape b = Ok tt -> is_hex32 (b_c b) = true /\
  Forall (fun s => is_hex32 (pbs_proof_hash s) = true /\ is_hex32 (pbs_prover s) = true) (b_promoted_bounty_shares b).
Proof.
  unfold validate_shape. intros H.
  destruct (require_hex32 (b_prev_c b)); try discriminate H. cbn [obind] in H.
  destruct (require_hex32 (b_c b)) as [[]| |] eqn:Hc; try discriminate H. cbn [obind] in H.
  split; [by apply require_hex32_is_hex32|]. assert (Hl : ofold (fun _ share => validate_promoted_share share) tt (b_promoted_bounty_shares b) = Ok tt)
    by (run_inv H; done). clear H. revert Hl. induction (b_promoted_bounty_shares b) as [|s l IH]; intros H; [constructor|].
  cbn [ofold] in H. destruct (validate_promoted_share s) as [[]| |] eqn:Es; try discriminate H. cbn [obind] in H.
  constructor; [|by apply IH]. unfold validate_promoted_share in Es.
  destruct (require_hex32 (pbs_proof_hash s)) as [[]| |] eqn:E1; try discriminate Es. cbn [obind] in Es.
  destruct (require_hex32 (pbs_prover s)) as [[]| |] eqn:E2; try discriminate Es.
  split; by apply require_hex32_is_hex32.
Qed.

Section Rows.
Context {X : Externals} (policy : EvidencePolicy) (params : option GenesisParams) (network : option string).
Context (registry : FamilyManifestRegistry).

Definition block_named (b : PersistedBlock) : Prop := Forall named (b_promoted_bounty_shares b).

Definition row_good (e : Value) : Prop := validate_bounty_ledger_event e = Ok tt /\ json_plain e.

Lemma rows_plain b : (forall c, json_plain (credit_row b c)) /\ forall s, json_plain (share_row b s).
Proof. split; intros; repeat constructor. Qed.

(** The rows of a replayed block are valid, and count its bounty credits. *)
Lemma rows_step st b st' : replay_step policy params network registry st b = Ok st' -> block_named b ->
  exists credits shares, derive_bounty_events b registry = Ok (credits, shares) /\
    Forall row_good (credits ++ shares) /\ ofold sum_credit_row (rs_bounty st.2) (credits ++ shares) = Ok (rs_bounty st'.2).
Proof.
  destruct st as [h s]. intros H Hn. apply replay_step_Ok in H as (cs & bounty & bal1 & (Hs & _) & _ & Hb & _ & Hbnt & _).
  unfold derive_bounty_events. rewrite Hb. cbn [map_err obind]. eexists _, _. split; [done|].
  destruct (shape_hex b Hs) as [Hc Hhex]. destruct (rows_plain b) as [Hp1 Hp2]. split.
  - apply Forall_app. split; apply Forall_map, Forall_forall.
    + intros c Hin. split; [|apply Hp1]. apply settlement_credits in Hb. eapply Forall_forall in Hb as (Hpay & x & Hx & Hf & Hbid & Hpr); [|exact Hin].
      eapply Forall_forall in Hhex as [_ Hprover]; [|exact Hx]. eapply Forall_forall in Hn as [Hn1 Hn2]; [|exact Hx].
      apply credit_row_valid; [done|congruence|congruence|congruence|done].
    + intros x Hx. split; [|apply Hp2]. eapply Forall_forall in Hhex as [? ?]; [|exact Hx].
      eapply Forall_forall in Hn; [|exact Hx]. by apply share_row_valid.
  - rewrite ofold_app. apply (credit_rows_sum b) in Hbnt. cbn [snd] in Hbnt |- *. rewrite Hbnt. cbn [obind].
    apply other_rows_sum, Forall_map, Forall_forall. intros x _. discriminate.
Qed.

Lemma chain_rows blocks : forall st0 st rows0, ofold (replay_step policy params network registry) st0 blocks = Ok st ->
  Forall block_named blocks ->
  exists rows, ofold (fun rows block => let* events := derive_bounty_events block registry in Ok (rows ++ events.1 ++ events.2))
      rows0 blocks = Ok (rows0 ++ rows) /\
    Forall row_good rows /\ ofold sum_credit_row (rs_bounty st0.2) rows = Ok (rs_bounty st.2).
Proof.
  induction blocks as [|b blocks IH]; intros st0 st rows0 H Hn.
  { injection H as <-. exists []. rewrite app_nil_r. split_and!; [done|constructor|done]. }
  cbn [ofold] in H. destruct (replay_step _ _ _ _ st0 b) as [st1| |] eqn:E; try discriminate H. cbn [obind] in H.
  apply Forall_cons in Hn as [Hb Hn]. destruct (rows_step _ _ _ E Hb) as (credits & shares & He & Hg & Hsum).
  destruct (IH st1 st (rows0 ++ credits ++ shares) H Hn) as (rows & H1 & H2 & H3).
  exists ((credits ++ shares) ++ rows). cbn [ofold]. rewrite He. cbn [obind fst snd]. rewrite H1.
  split_and!; [by rewrite <- app_assoc|by apply Forall_app|]. by rewrite ofold_app, Hsum.
Qed.
End Rows.

(** ** What a replayed chain gives to the stores *)

Lemma replay_rules_fold {X : Externals} blocks policy genesis_c params network registry res :
  replay_blocks_with_rules blocks policy genesis_c params network registry = Ok res ->
  exists st, ofold (replay_step policy params network registry) (0, mkReplayState genesis_c ∅ ∅ ∅ ∅) blocks = Ok st /\
    replayed policy genesis_c params network registry blocks st /\
    rr_latest_c res = rs_latest_c st.2 /\ rr_balances res = rs_balances st.2 /\
    rr_bounty_credit_by_family res = rs_bounty st.2.
Proof.
  unfold replay_blocks_with_rules. intros H.
  destruct (verify_block_ts_median_time_past blocks) as [[]| |]; try discriminate H. cbn [map_err obind] in H.
  destruct (ofold _ _ blocks) as [st| |] eqn:E; try discriminate H. injection H as <-. exists st.
  split_and!; try done. by apply (replay_fold _ _ _ _ _ blocks [] _ _ (replayed_init _ _ _ _ _)).
Qed.

(** Every contract of the runtime is the same fold under some rules. *)
Lemma boot_contract_rules {X : Externals} r blocks res : replay_under_boot_contract r blocks = Ok res ->
  exists policy genesis_c params network,
    replay_blocks_with_rules blocks policy genesis_c params network (rt_family_registry r) = Ok res.
Proof.
  unfold replay_under_boot_contract. destruct (rt_boot_genesis r) as [spec|].
  - unfold replay_blocks_with_genesis_and_registry_for_authorization_network. intros H.
    destruct (match rt_authorization_network_id r with Some id => _ | None => _ end) as [[]| |]; try discriminate H.
    cbn [obind] in H. destruct (match gp_retarget _ with Some policy => _ | None => _ end) as [[]| |]; try discriminate H.
    cbn [obind] in H. destruct (validate_static_t_share _ _) as [[]| |]; try discriminate H. eauto.
  - destruct (rc_difficulty_retarget _) as [policy|].
    + unfold replay_blocks_with_retarget_allow_legacy_evidence_less. intros H.
      destruct (validate_retargeted_difficulty _ _ _) as [[]| |]; try discriminate H.
      exists AllowLegacyEvidenceLess, (repeat_char "0" 64), None, None. exact H.
    + intros H. exists AllowLegacyEvidenceLess, (repeat_char "0" 64), None, None. exact H.
Qed.

(** The order and the links the block store checks. *)
Definition linked {X : Externals} (genesis_c : string) (blocks : list PersistedBlock) : Prop :=
  forall i b, blocks !! i = Some b -> validate_shape b = Ok tt /\ b_height b = N.of_nat i /\
    parent_c genesis_c blocks i = Some (b_prev_c b).

Lemma replayed_linked {X : Externals} policy genesis_c params network registry blocks st :
  replayed policy genesis_c params network registry blocks st -> linked genesis_c blocks.
Proof. intros H i b Hi. destruct (rp_blocks _ _ _ _ _ _ _ H i b Hi). auto. Qed.

Definition log_of {A} `{Ndjson A} (l : list A) : list byte := ndjson_bytes (map nd_encode l).

Lemma text_lines {A} `{!Ndjson A} `{!NdjsonLaws A plain} (l : list A) : Forall text_line (map nd_encode l).
Proof. apply Forall_map, Forall_forall. intros a _. apply nd_text_line. Qed.

Lemma log_of_snoc {A} `{Ndjson A} (l : list A) a : log_of (l ++ [a]) = log_of l ++ nd_encode a ++ [newline].
Proof. unfold log_of. rewrite map_app. apply ndjson_snoc. Qed.

(** Files other than [path], and the fence, are as before. *)
Definition only_at (path : string) (h h' : Host) : Prop :=
  h_fence h' = h_fence h /\ forall p, p <> path -> h_files h' !! p = h_files h !! p.

Lemma only_at_refl path h : only_at path h h.
Proof. done. Qed.

Lemma only_at_trans path h1 h2 h3 : only_at path h1 h2 -> only_at path h2 h3 -> only_at path h1 h3.
Proof. intros [E1 F1] [E2 F2]. split; [congruence|]. intros p Hp. by rewrite F2, F1. Qed.

Lemma only_at_bytes path h h' p : only_at path h h' -> p <> path -> file_bytes h' p = file_bytes h p.
Proof. intros [_ F] Hp. unfold file_bytes. by rewrite F. Qed.

Lemma read_log_lines {A} `{!Ndjson A} `{!NdjsonLaws A plain} h path (rs : list A) tail :
  newline ∉ tail -> file_bytes h path = log_of rs ++ tail ->
  exists h', read_lines path read_ok h = (h', Ok (map nd_encode rs)) /\ file_bytes h' path = log_of rs /\ only_at path h h' /\
    (is_Some (h_files h' !! path) <-> is_Some (h_files h !! path)).
Proof.
  intros Ht Hb. destruct (read_log h path (map nd_encode rs) tail) as (h' & raw & Hr & Hl & Hf & Hfe & Hfr & _ & Hex);
    [apply text_lines|done|done|]. exists h'. split_and!; try done.
  unfold read_lines, sbind, smap_err. rewrite Hr. cbn [map_err]. unfold sret. do 2 f_equal. by destruct raw.
Qed.

Lemma parse_linked {X : Externals} `{!Ndjson PersistedBlock} `{!NdjsonLaws PersistedBlock (fun _ => True)} genesis_c rest : forall pre,
  linked genesis_c (pre ++ rest) -> ofold check_line pre (map nd_encode rest) = Ok (pre ++ rest).
Proof.
  induction rest as [|b rest IH]; intros pre Hl; [by rewrite app_nil_r|].
  destruct (Hl (length pre) b) as (Hs & Hh & Hp); [by rewrite lookup_app_r, Nat.sub_diag by lia|].
  cbn [map ofold]. unfold check_line at 1. rewrite nd_decode_encode by done. cbn [ok_or obind]. rewrite Hs. cbn [map_err obind].
  rewrite Hh, N.eqb_refl. cbn [ensure obind].
  assert (Hprev : match last pre with Some prev => String.eqb (b_prev_c b) (b_c prev) | None => true end = true).
  { destruct (last pre) as [prev|] eqn:Elast; [|done]. apply String.eqb_eq. rewrite last_lookup in Elast.
    destruct pre as [|x pre]; [done|]. cbn [length parent_c] in Hp. cbn [length Nat.pred] in Elast.
    rewrite lookup_app_l in Hp by (cbn; lia). rewrite Elast in Hp. by injection Hp. }
  rewrite Hprev. cbn [ensure obind]. replace (pre ++ b :: rest) with ((pre ++ [b]) ++ rest) by (by rewrite <- app_assoc).
  apply IH. by rewrite <- app_assoc.
Qed.

Lemma recover_linked {X : Externals} `{!Ndjson PersistedBlock} `{!NdjsonLaws PersistedBlock (fun _ => True)} h path chain tail genesis_c :
  newline ∉ tail -> file_bytes h path = log_of chain ++ tail -> linked genesis_c chain ->
  exists h', block_store_recover path read_ok h = (h', Ok chain) /\ file_bytes h' path = log_of chain /\ only_at path h h'.
Proof.
  intros Ht Hb Hl. destruct (read_log_lines h path chain tail Ht Hb) as (h' & Hr & Hf & Ho & _). exists h'. split_and!; try done.
  unfold block_store_recover, sbind. rewrite Hr. unfold slift, block_store_parse. by rewrite (parse_linked genesis_c chain []).
Qed.

(** ** The derived ledgers at boot *)

Lemma read_lines_only path io h h' r : read_lines path io h = (h', r) -> only_at path h h' /\ r <> Panic.
Proof.
  unfold read_lines, sbind, smap_err, read_stable_prefix. destruct (h_files h !! path) as [node|]; [|intros [= <- <-]; done].
  destruct (negb (rd_open io)); [intros [= <- <-]; done|]. set (torn := bool_decide _). set (stable := take _ _).
  assert (Ho : only_at path h (set_file h path (mkFileNode (fn_ino node) stable))).
  { split; [done|]. intros p Hp. cbn. by apply lookup_insert_ne. }
  destruct (torn && negb (rd_truncate io)); [intros [= <- <-]; done|].
  destruct (torn && negb (rd_sync io)); [intros [= <- <-]; by destruct torn|].
  destruct (utf8_valid stable); intros [= <- <-]; by destruct torn.
Qed.

Lemma apply_reward_credit_no_panic c m : (apply_reward_credit c m).2 <> Panic.
Proof.
  unfold apply_reward_credit, checked_credit. destruct (parse_uint _ _) as [n|]; [|done]. destruct (n =? 0); [done|].
  by destruct (checked_add _ _ _).
Qed.

Lemma sfor_no_panic {S E A} (f : A -> stm S E unit) l : (forall a s, (f a s).2 <> Panic) -> forall s, (sfor f l s).2 <> Panic.
Proof.
  intros Hf. induction l as [|a l IH]; intros s; [done|]. cbn [sfor]. unfold sbind.
  specialize (Hf a s). destruct (f a s) as [s1 [[]| |]]; [apply IH|done|done].
Qed.

Lemma reward_apply_no_panic e l : (reward_apply e l).2 <> Panic.
Proof.
  unfold reward_apply. destruct (re_credits e) as [|c cs]; [done|].
  pose proof (sfor_no_panic _ (c :: cs) apply_reward_credit_no_panic (rw_balances l)).
  by destruct (sfor _ _ _) as [m [[]| |]].
Qed.

(** A ledger that its own events produce. *)
Definition ledger_derived (l : FileRewardLedger) : Prop := sfor reward_apply (rw_events l) reward_ledger_new = (l, Ok tt).

Lemma recover_line_derived `{!Ndjson PersistedRewardEvent} lines : forall l l' r, ledger_derived l -> sfor recover_line lines l = (l', r) ->
  r <> Panic /\ (r = Ok tt -> ledger_derived l').
Proof.
  induction lines as [|line lines IH]; intros l l' r Hl H; cbn [sfor] in H; [by injection H as <- <-|].
  unfold sbind in H. destruct (recover_line line l) as [l1 r1] eqn:E.
  assert (H1 : r1 <> Panic /\ (r1 = Ok tt -> ledger_derived l1)).
  { unfold recover_line, recover_event in E. destruct (nd_decode line) as [e|]; [|injection E as <- <-; done].
    destruct (_ =? _); [|injection E as <- <-; done]. pose proof (reward_apply_no_panic e l) as Hp. rewrite E in Hp.
    split; [exact Hp|]. intros ->. assert (Hev : rw_events l1 = rw_events l ++ [e]).
    { unfold reward_apply in E. destruct (re_credits e); [done|]. destruct (sfor apply_reward_credit _ _) as [m [[]| |]]; [by injection E as <-|discriminate E..]. }
    unfold ledger_derived in *. rewrite Hev, sfor_app. unfold sbind. rewrite Hl. cbn [sfor]. unfold sbind. by rewrite E. }
  destruct H1 as [Hp Hd]. destruct r1 as [[]| |]; [by apply (IH l1); auto|injection H as <- <-; done|done].
Qed.

Lemma reward_recover_spec `{!Ndjson PersistedRewardEvent} path io h h' r : reward_recover path io h = (h', r) ->
  only_at path h h' /\ r <> Panic /\ forall l, r = Ok l -> ledger_derived l.
Proof.
  unfold reward_recover, sbind. destruct (read_lines path io h) as [h1 [lines| |]] eqn:E; apply read_lines_only in E as [Ho Hp].
  - unfold slift. destruct (sfor recover_line lines reward_ledger_new) as [l r1] eqn:E1.
    apply recover_line_derived in E1 as [Hp1 Hd]; [|done]. intros [= <- <-]. split; [done|].
    destruct r1 as [[]| |]; (split; [done|]); [|done..]. intros l0 [= <-]. by apply Hd.
  - intros [= <- <-]. done.
  - done.
Qed.

Lemma rewrite_lines_ok {A} `{!Ndjson A} h path (l : list A) : h_fence h = no_fence ->
  rewrite_lines path l rewrite_ok h = (create_file h path (log_of l), Ok tt).
Proof. intros Hf. unfold rewrite_lines, smap_err. by rewrite rewrite_succeeds. Qed.

Lemma create_only_at h path bs : only_at path h (create_file h path bs).
Proof. split; [done|]. intros p Hp. cbn. by apply lookup_insert_ne. Qed.

Definition boot_io_ok : BootIo := mkBootIo read_ok read_ok rewrite_ok read_ok rewrite_ok read_ok.

Lemma boot_reward_ok {X : Externals} `{!Ndjson PersistedRewardEvent} h path blocks registry evs ledger : h_fence h = no_fence ->
  reward_events blocks registry = Ok evs -> sfor reward_apply evs reward_ledger_new = (ledger, Ok tt) -> rw_events ledger = evs ->
  exists h', boot_reward path blocks registry boot_io_ok h = (h', Ok ledger) /\ only_at path h h'.
Proof.
  intros Hf Hev Happ Heq. unfold boot_reward, sbind, slift, sget. rewrite Hev.
  assert (Hrw : forall h1, only_at path h h1 -> exists h',
    smap_err RuntimeStore (reward_rewrite_atomic path evs (bi_reward_rewrite boot_io_ok)) h1 = (h', Ok ledger) /\ only_at path h h').
  { intros h1 Ho. unfold smap_err, reward_rewrite_atomic, sbind, slift, reward_ledger_of. rewrite Happ. cbn [omap obind].
    rewrite rewrite_lines_ok by (destruct Ho; congruence). eexists. split; [done|].
    by eapply only_at_trans; [exact Ho|apply create_only_at]. }
  destruct (bool_decide _); [|by apply Hrw]. unfold smap_err, stry at 1.
  destruct (reward_recover path _ h) as [h1 r] eqn:E. apply reward_recover_spec in E as (Ho & Hp & Hd).
  destruct r as [l| |]; [|by apply Hrw|done]. cbn [map_err]. case_bool_decide as He; [|by apply Hrw].
  exists h1. split; [|done]. specialize (Hd l eq_refl). unfold ledger_derived in Hd. rewrite He, Happ in Hd. by injection Hd as ->.
Qed.

Lemma ofold_check {E A} (f : unit -> A -> outcome E unit) l : Forall (fun a => f tt a = Ok tt) l -> ofold f tt l = Ok tt.
Proof. induction 1 as [|a l Ha _ IH]; [done|]. cbn [ofold]. by rewrite Ha. Qed.

Lemma same_amounts_refl e m : same_amounts e m m = Ok tt.
Proof.
  unfold same_amounts. rewrite ofold_check; [cbn [obind]; apply ofold_check|].
  all: apply Forall_forall; intros [k n] Hin%elem_of_btree_iter; rewrite Hin; cbn; by rewrite ?N.eqb_refl.
Qed.

Section BountyBoot.
Context {X : Externals} {NV : Ndjson Value} {LV : NdjsonLaws Value json_plain}.

Lemma check_event_lines rows : forall i acc, Forall row_good rows ->
  ofold check_event_line (i, acc) (map nd_encode rows) = Ok ((i + length rows)%nat, acc ++ rows).
Proof.
  induction rows as [|e rows IH]; intros i acc H.
  { cbn. by rewrite app_nil_r, Nat.add_0_r. }
  apply Forall_cons in H as [[Hv Hp] H]. cbn [map ofold]. unfold check_event_line at 1. rewrite nd_decode_encode by done.
  cbn [ok_or obind]. rewrite Hv. cbn [map_err obind]. rewrite IH by done. rewrite <- app_assoc. cbn. do 3 f_equal. lia.
Qed.

(** A bounty log with valid rows and perhaps a torn tail. *)
Definition bounty_log (h : Host) (path : string) (rows : list Value) : Prop :=
  Forall row_good rows /\ exists tail, newline ∉ tail /\ file_bytes h path = log_of rows ++ tail.

Lemma bounty_recover_ok h path rows : bounty_log h path rows ->
  exists h', bounty_recover path read_ok h = (h', Ok rows) /\ file_bytes h' path = log_of rows /\ only_at path h h' /\
    (is_Some (h_files h' !! path) <-> is_Some (h_files h !! path)).
Proof.
  intros [Hr (tail & Ht & Hb)]. destruct (read_log_lines h path rows tail Ht Hb) as (h' & Hread & Hf & Ho & Hex).
  exists h'. split_and!; try done; try apply Hex. unfold bounty_recover, sbind. rewrite Hread. unfold slift.
  by rewrite (check_event_lines rows 0%nat []).
Qed.

Lemma absent_log {A} `{!Ndjson A} h path (rows : list A) : h_files h !! path = None ->
  (exists tail, newline ∉ tail /\ file_bytes h path = log_of rows ++ tail) -> rows = [].
Proof.
  intros Hn (tail & _ & Hb). unfold file_bytes in Hb. rewrite Hn in Hb. symmetry in Hb. apply app_eq_nil in Hb as [Hb _].
  destruct rows as [|a rows]; [done|]. exfalso. unfold log_of in Hb. cbn in Hb. apply app_eq_nil in Hb as [Hb _].
  by apply app_eq_nil in Hb as [_ Hb].
Qed.

(** The projection written at boot. *)
Record projected (h' : Host) (path : string) (families : gmap string N) : Prop := {
  pj_rows : exists rows, bounty_log h' path rows /\ ofold sum_credit_row ∅ rows = Ok families;
  pj_absent : h_files h' !! path = None -> families = ∅
}.

Lemma boot_bounty_ok h path rows blocks registry new families : h_fence h = no_fence -> bounty_log h path rows ->
  rebuild_bounty_ledger_rows rows blocks registry = Ok (List.filter route_owned rows ++ new) ->
  Forall row_good new -> ofold sum_credit_row ∅ new = Ok families ->
  exists h', boot_bounty (Some path) blocks registry boot_io_ok h = (h', Ok tt) /\ only_at path h h' /\ projected h' path families.
Proof.
  intros Hf Hlog Hre Hnew Hsum. set (rebuilt := List.filter route_owned rows ++ new) in *.
  assert (Hgood : Forall row_good rebuilt).
  { apply Forall_app. split; [|done]. apply Forall_forall. intros e [He _]%list_filter_elem.
    destruct Hlog as [Hr _]. by eapply Forall_forall in Hr. }
  assert (Htot : ofold sum_credit_row ∅ rebuilt = Ok families).
  { unfold rebuilt. rewrite ofold_app, other_rows_sum by apply route_owned_other. exact Hsum. }
  assert (Hpresent : exists h1, (if bool_decide (is_Some (h_files h !! path))
      then smap_err RuntimeStore (bounty_recover path (bi_bounty boot_io_ok)) else sret []) h = (h1, Ok rows) /\
      only_at path h h1 /\ file_bytes h1 path = log_of rows /\ (h_files h1 !! path = None -> rows = [])).
  { case_bool_decide as He.
    - destruct (bounty_recover_ok h path rows Hlog) as (h1 & Hr & Hb & Ho & Hex). exists h1. unfold smap_err.
      cbn [boot_io_ok bi_bounty]. rewrite Hr. split_and!; try done; try apply Ho. intros Hn. apply Hex in He. rewrite Hn in He. by destruct He.
    - apply eq_None_not_Some in He. destruct Hlog as [Hr Hlog]. pose proof (absent_log h path rows He Hlog) as ->.
      exists h. split_and!; try done. unfold file_bytes. by rewrite He. }
  destruct Hpresent as (h1 & Hp & Ho & Hb & Habs). unfold boot_bounty, sbind at 1, sget, sbind at 1. rewrite Hp.
  unfold sbind at 1, slift. rewrite Hre. cbn [map_err]. fold rebuilt.
  destruct (bool_decide (rows = rebuilt)) eqn:Heq; [apply bool_decide_eq_true in Heq|clear Heq].
  - exists h1. split_and!; [done|done|]. split.
    + exists rows. rewrite Heq. split; [|done]. split; [done|]. exists []. rewrite app_nil_r. split; [set_solver|congruence].
    + intros Hn. specialize (Habs Hn). rewrite <- Heq, Habs in Htot. by injection Htot.
  - unfold smap_err, bounty_rewrite_atomic, sbind, slift.
    rewrite ofold_check by (eapply Forall_impl; [exact Hgood|]; intros e [-> _]; done).
    cbn [boot_io_ok bi_bounty_rewrite]. rewrite rewrite_lines_ok by (destruct Ho; congruence). eexists. split; [done|]. split.
    { eapply only_at_trans; [exact Ho|apply create_only_at]. }
    split.
    + exists rebuilt. split; [|done]. split; [done|]. exists []. rewrite app_nil_r, file_bytes_create. split; [set_solver|done].
    + cbn. by rewrite lookup_insert_eq.
Qed.

Lemma verify_ok h path ledger families : (forall p, path = Some p -> projected h p families) ->
  exists h', verify_ledger_matches_replay ledger (rw_balances ledger) path families read_ok h = (h', Ok tt) /\
    (forall p, path = Some p -> only_at p h h' /\ exists rows, bounty_log h' p rows) /\ (path = None -> h' = h).
Proof.
  intros Hproj. unfold verify_ledger_matches_replay, sbind at 1, slift. rewrite same_amounts_refl.
  destruct path as [path|]; [|by exists h]. destruct (Hproj path eq_refl) as [(rows & Hlog & Hsum) Habs].
  unfold sbind at 1, sget. case_bool_decide as He; cbn [negb].
  - destruct (bounty_recover_ok h path rows Hlog) as (h' & Hr & Hb & Ho & _). exists h'. unfold sbind. rewrite Hr. unfold slift.
    rewrite Hsum, same_amounts_refl. split_and!; [done| |done]. intros p [= <-]. split; [done|]. exists rows.
    split; [apply Hlog|]. exists []. rewrite app_nil_r. split; [set_solver|done].
  - apply eq_None_not_Some in He. rewrite (Habs He). rewrite bool_decide_eq_true_2 by done. exists h.
    split_and!; [done| |done]. intros p [= <-]. split; [done|]. by exists rows.
Qed.
End BountyBoot.
