(* ===== verification/EventStores.v ===== *)
(** * Event-sourced stores (boole-node/src: nonce_ledger.rs,
    signed_nonce_ledger.rs, session_store.rs; boole-core/src/session_policy.rs)

    A store whose memory is the fold of the lines of its file: recovery replays
    the lines, an operation writes its event before it applies it. The nonce
    ledgers and the session registry are the two instances. *)

From S2P Require Import Prelude Json Externals Hash Durability BountyLedger Stores.

(** ** The pattern *)

(** The memory of a store and what an event does to it. *)
Class EventStore (S E : Type) := {
  es_init : S;
  es_apply : S -> E -> outcome StoreError S
}.

Section EventStore.
Context {S E : Type} {ES : EventStore S E} {NE : Ndjson E}.

(** One line of a recovery. *)
Definition replay_line (st : nat * S) (line : list byte) : outcome StoreError (nat * S) :=
  let* event := ok_or (nd_decode line) (LineNotJson (st.1 + 1)) in
  let* s := es_apply st.2 event in
  Ok (st.1 + 1, s)%nat.

Definition store_recover (path : string) (io : ReadIo) : stm Host StoreError S :=
  let! lines := read_lines path io in
  let! st := slift (ofold replay_line (0%nat, es_init) lines) in
  sret st.2.

(** [Self::append(path, &event)?; self.apply(event)]. *)
Definition store_append (path : string) (event : E) (io : AppendIo) : stm (Host * S) StoreError unit := fun st =>
  let '(h, s) := st in
  match append_line path event io h with
  | (h', Ok _) => match es_apply s event with
                  | Ok s' => ((h', s'), Ok tt)
                  | Err e => ((h', s), Err e)
                  | Panic => ((h', s), Panic)
                  end
  | (h', Err e) => ((h', s), Err e)
  | (h', Panic) => ((h', s), Panic)
  end.
End EventStore.

(** ** Nonces *)

Inductive NonceEvent := Burn (session_pk nonce : string).
Inductive SignedNonceEvent := SignedBurn (signer_pk nonce : string).

(** [format!("{session_pk}:{nonce}")]. *)
Definition nonce_key (pk nonce : string) : string := pk +:+ ":" +:+ nonce.

Record FileNonceLedger := mkNonceLedger { nl_seen : gset string }.
Record FileSignedNonceLedger := mkSignedNonceLedger { sn_seen : gset string }.

Definition nonce_apply (l : FileNonceLedger) (event : NonceEvent) : FileNonceLedger :=
  let 'Burn pk nonce := event in mkNonceLedger ({[nonce_key pk nonce]} ∪ nl_seen l).

Definition signed_nonce_apply (l : FileSignedNonceLedger) (event : SignedNonceEvent) : FileSignedNonceLedger :=
  let 'SignedBurn pk nonce := event in mkSignedNonceLedger ({[nonce_key pk nonce]} ∪ sn_seen l).

#[export] Instance nonce_store : EventStore FileNonceLedger NonceEvent :=
  {| es_init := mkNonceLedger ∅; es_apply l e := Ok (nonce_apply l e) |}.

#[export] Instance signed_nonce_store : EventStore FileSignedNonceLedger SignedNonceEvent :=
  {| es_init := mkSignedNonceLedger ∅; es_apply l e := Ok (signed_nonce_apply l e) |}.

Definition nonce_contains (l : FileNonceLedger) (session_pk nonce : string) : bool :=
  bool_decide (nonce_key session_pk nonce ∈ nl_seen l).

Definition signed_nonce_contains (l : FileSignedNonceLedger) (signer_pk nonce : string) : bool :=
  bool_decide (nonce_key signer_pk nonce ∈ sn_seen l).

Section NonceLedgers.
Context {NN : Ndjson NonceEvent} {NS : Ndjson SignedNonceEvent}.

Definition nonce_recover (path : string) (io : ReadIo) : stm Host StoreError FileNonceLedger := store_recover path io.

Definition append_burn (path session_pk nonce : string) (io : AppendIo) : stm (Host * FileNonceLedger) StoreError bool :=
  let! st := sget in
  if nonce_contains st.2 session_pk nonce then sret false
  else do! store_append path (Burn session_pk nonce) io; sret true.

Definition signed_nonce_recover (path : string) (io : ReadIo) : stm Host StoreError FileSignedNonceLedger :=
  store_recover path io.

Definition signed_append_burn (path signer_pk nonce : string) (io : AppendIo)
    : stm (Host * FileSignedNonceLedger) StoreError bool :=
  let! st := sget in
  if signed_nonce_contains st.2 signer_pk nonce then sret false
  else do! store_append path (SignedBurn signer_pk nonce) io; sret true.
End NonceLedgers.

(** ** Sessions *)

Definition MAX_SESSION_LIFETIME_BLOCKS : N := 17280.

Record SessionState := mkSession {
  se_session_pk : string;
  se_owner_pk : string;
  se_agent_pk : string;
  se_fixed_reward_recipient : string;
  se_allowed_family_root : string;
  se_max_fee_per_request : string;
  se_activation_height : N;
  se_expiry_height : N;
  se_revoked : bool;
  se_policy_hash : string
}.

Inductive SessionError :=
| SessionHex (field : string)
| SessionFee
| RoleKeysNotUnique
| SessionRevoked
| SessionNotActive
| SessionExpired
| SessionLifetime
| PolicyTransfers
| PolicyFee
| RouteNotAllowed
| FamilyNotAllowed
| VerifierNotAllowed
| FeeTooHigh
| NonceText.

(** What a local signer is asked to sign, and what its session allows. *)
Record SignerRequest := mkSignerRequest {
  sq_route : string;
  sq_family_id : string;
  sq_verifier_id : string;
  sq_fee : string;
  sq_request_hash : string;
  sq_nonce : string
}.

Record SessionPolicy := mkSessionPolicy {
  spo_can_submit_work : bool;
  spo_can_pay_verification_fee : bool;
  spo_can_withdraw : bool;
  spo_can_transfer : bool;
  spo_allowed_routes : list string;
  spo_allowed_family_ids : list string;
  spo_allowed_verifier_ids : list string;
  spo_max_fee_per_request : string;
  spo_daily_fee_cap : string
}.

Section SessionPolicy.
Context {X : Externals}.

Definition validate_hex32 (field value : string) : outcome SessionError unit :=
  ensure (is_ok (hex32_from_hex value)) (SessionHex field).

(** [if !role_keys.insert(key) { bail }] over the four roles. *)
Definition insert_role (seen : gset string) (key : string) : outcome SessionError (gset string) :=
  do* ensure (negb (bool_decide (key ∈ seen))) RoleKeysNotUnique;
  Ok ({[key]} ∪ seen).

Definition validate_at_height (s : SessionState) (height : N) : outcome SessionError unit :=
  do* validate_hex32 "sessionPk" (se_session_pk s);
  do* validate_hex32 "ownerPk" (se_owner_pk s);
  do* validate_hex32 "agentPk" (se_agent_pk s);
  do* validate_hex32 "fixedRewardRecipient" (se_fixed_reward_recipient s);
  do* validate_hex32 "allowedFamilyRoot" (se_allowed_family_root s);
  do* validate_hex32 "policyHash" (se_policy_hash s);
  do* ok_or (parse_uint u128_max (se_max_fee_per_request s)) SessionFee;
  do* ofold insert_role ∅ [se_session_pk s; se_owner_pk s; se_agent_pk s; se_fixed_reward_recipient s];
  do* ensure (negb (se_revoked s)) SessionRevoked;
  do* ensure (negb (height <? se_activation_height s)) SessionNotActive;
  do* ensure (negb (se_expiry_height s <=? height)) SessionExpired;
  ensure (negb (MAX_SESSION_LIFETIME_BLOCKS <? se_expiry_height s - se_activation_height s)) SessionLifetime.

Definition session_policy_validate (p : SessionPolicy) : outcome SessionError unit :=
  do* ensure (negb (spo_can_withdraw p)) PolicyTransfers;
  do* ensure (negb (spo_can_transfer p)) PolicyTransfers;
  do* ok_or (parse_uint u128_max (spo_max_fee_per_request p)) PolicyFee;
  do* ok_or (parse_uint u128_max (spo_daily_fee_cap p)) PolicyFee;
  Ok tt.

Definition nonce_char (c : ascii) : bool :=
  is_ascii_digit c || is_ascii_lower c || in_range 65 90 c || bool_decide (c = "-"%char) || bool_decide (c = "_"%char)
  || bool_decide (c = "."%char).

Definition session_policy_authorize (p : SessionPolicy) (req : SignerRequest) : outcome SessionError unit :=
  do* session_policy_validate p;
  do* ensure (existsb (fun r => String.eqb r (sq_route req)) (spo_allowed_routes p)) RouteNotAllowed;
  do* ensure (existsb (fun f => String.eqb f (sq_family_id req)) (spo_allowed_family_ids p)) FamilyNotAllowed;
  do* ensure (existsb (fun v => String.eqb v (sq_verifier_id req)) (spo_allowed_verifier_ids p)) VerifierNotAllowed;
  let* fee := ok_or (parse_uint u128_max (sq_fee req)) PolicyFee in
  let* max := ok_or (parse_uint u128_max (spo_max_fee_per_request p)) PolicyFee in
  do* ensure (fee <=? max) FeeTooHigh;
  do* validate_hex32 "requestHash" (sq_request_hash req);
  ensure (negb (str_is_empty (sq_nonce req)) && (str_len (sq_nonce req) <=? 128) && str_all nonce_char (sq_nonce req)) NonceText.
End SessionPolicy.

Inductive SessionEvent :=
| Register (session : SessionState)
| Revoke (session_pk : string) (height : N).

Record FileSessionStore := mkSessionStore { ss_sessions : gmap string SessionState }.

Definition revoke_session (s : SessionState) : SessionState :=
  mkSession (se_session_pk s) (se_owner_pk s) (se_agent_pk s) (se_fixed_reward_recipient s) (se_allowed_family_root s)
    (se_max_fee_per_request s) (se_activation_height s) (se_expiry_height s) true (se_policy_hash s).

(** An entry that is not revoked. *)
Definition has_active (store : FileSessionStore) (session_pk : string) : bool :=
  match ss_sessions store !! session_pk with Some s => negb (se_revoked s) | None => false end.

Definition session_apply (store : FileSessionStore) (event : SessionEvent) : outcome StoreError FileSessionStore :=
  match event with
  | Register session =>
      do* ensure (negb (has_active store (se_session_pk session))) DuplicateActiveSession;
      Ok (mkSessionStore (<[se_session_pk session := session]> (ss_sessions store)))
  | Revoke session_pk _ =>
      let* entry := ok_or (ss_sessions store !! session_pk) UnknownSession in
      Ok (mkSessionStore (<[session_pk := revoke_session entry]> (ss_sessions store)))
  end.

#[export] Instance session_store : EventStore FileSessionStore SessionEvent :=
  {| es_init := mkSessionStore ∅; es_apply := session_apply |}.

Section SessionStore.
Context {X : Externals} {NE : Ndjson SessionEvent}.

Definition session_recover (path : string) (io : ReadIo) : stm Host StoreError FileSessionStore := store_recover path io.

Definition append_register (path : string) (session : SessionState) (current_height : N) (io : AppendIo)
    : stm (Host * FileSessionStore) StoreError unit :=
  let! st := sget in
  do! slift (ensure (negb (has_active st.2 (se_session_pk session))) DuplicateActiveSession);
  do! slift (map_err (fun _ => InvalidSession) (validate_at_height session current_height));
  store_append path (Register session) io.

Definition append_revoke (path session_pk : string) (height : N) (io : AppendIo)
    : stm (Host * FileSessionStore) StoreError unit :=
  let! st := sget in
  do! slift (ensure (bool_decide (is_Some (ss_sessions st.2 !! session_pk))) UnknownSession);
  store_append path (Revoke session_pk height) io.
End SessionStore.

(** ** Memory is the fold of the file *)

Section Replays.
Context {S E : Type} {ES : EventStore S E} {NE : Ndjson E} {LE : NdjsonLaws E (fun _ => True)}.

Definition folded (events : list E) (s : S) : Prop := ofold es_apply es_init events = Ok s.

(** The file holds the confirmed events, and behind a fence perhaps a piece of
    one more; memory is the fold of the confirmed ones. *)
Record store_state (path : string) (st : Host * S) (events attempted : list E) : Prop := {
  sst_log : log_state st.1 path (map nd_encode events) (map nd_encode attempted);
  sst_fold : folded events st.2
}.

Lemma replay_lines events : forall k s0 r, ofold replay_line (k, s0) (map nd_encode events) = Ok r ->
  ofold es_apply s0 events = Ok r.2.
Proof.
  induction events as [|e events IH]; intros k s0 r H; [by injection H as <-|]. cbn [map ofold] in *. unfold replay_line at 1 in H.
  rewrite nd_decode_encode in H by done. cbn [ok_or obind fst snd] in H. destruct (es_apply s0 e); try discriminate H.
  by apply (IH _ _ _ H).
Qed.

Lemma replay_lines_ok events : forall k s0 s, ofold es_apply s0 events = Ok s ->
  exists k', ofold replay_line (k, s0) (map nd_encode events) = Ok (k', s).
Proof.
  induction events as [|e events IH]; intros k s0 s H; [injection H as ->; by exists k|]. cbn [map ofold] in *.
  unfold replay_line at 1. rewrite nd_decode_encode by done. cbn [ok_or obind fst snd].
  destruct (es_apply s0 e); try discriminate H. by apply IH.
Qed.

Lemma store_append_state path st events attempted e io st' r : store_state path st events attempted ->
  is_ok (es_apply st.2 e) = true -> store_append path e io st = (st', r) ->
  store_state path st' (if is_ok r then events ++ [e] else events) (e :: attempted) /\
  (is_ok r = true -> es_apply st.2 e = Ok st'.2) /\ (is_ok r = false -> st'.2 = st.2).
Proof.
  intros [Hl Hf] Hok H. destruct st as [h s], (is_ok_Ok _ Hok) as [s1 Hs]. cbn [fst snd] in *. unfold store_append in H.
  unfold append_line, smap_err in H. destruct (append_ndjson_line_durable h path (nd_encode e) io) as [h1 r1] eqn:E1.
  pose proof (log_step _ _ _ _ _ _ _ _ Hl E1) as Hl1. destruct r1 as [[]|x|]; cbn [map_err] in H; rewrite ?Hs in H;
    injection H as <- <-; cbn [is_ok fst snd] in *; (split; [split; cbn [fst snd]|split; [done|done]]).
  - by rewrite map_app.
  - unfold folded in *. rewrite ofold_app, Hf. cbn [obind ofold]. by rewrite Hs.
  - done.
  - done.
  - done.
  - done.
Qed.

Lemma read_lines_any path io h h' ls : read_lines path io h = (h', Ok ls) -> read_lines path read_ok h = (h', Ok ls).
Proof.
  unfold read_lines, sbind, smap_err, read_stable_prefix. destruct (h_files h !! path) as [node|]; [|done].
  destruct io as [[] [] []]; cbn [rd_open rd_truncate rd_sync read_ok negb];
    destruct (bool_decide (stable_jsonl_prefix_len (fn_bytes node) < length (fn_bytes node))%nat); cbn [andb]; try done;
    try (intros [= _ ?]; discriminate).
Qed.

(** A restart after a crash, inside an append or between two, reads the
    confirmed events and at most one that was being written. *)
Lemma store_restart_reads path h s events attempted inflight : store_state path (h, s) events attempted ->
  exists events' h', read_lines path read_ok (restart (crash_at h path (prod_map nd_encode id <$> inflight))) =
      (h', Ok (map nd_encode events')) /\ file_bytes h' path = ndjson_bytes (map nd_encode events') /\
    (events' = events \/ exists e, events' = events ++ [e] /\ (e ∈ attempted \/ fst <$> inflight = Some e)).
Proof.
  intros [Hl _]. cbn [fst] in Hl. assert (Htext : forall l : list E, Forall text_line (map nd_encode l))
    by (intros l; apply Forall_map, Forall_forall; intros x _; apply nd_text_line).
  destruct (crash_at_tail h path _ _ (prod_map nd_encode id <$> inflight) Hl) as (ls & tail & Ht & Hb & Hc); [done| |].
  { destruct inflight as [[e k]|]; [|done]. cbn. apply nd_text_line. }
  assert (Hls : exists events', ls = map nd_encode events' /\
    (events' = events \/ exists e, events' = events ++ [e] /\ (e ∈ attempted \/ fst <$> inflight = Some e))).
  { destruct Hc as [->|(line & -> & _ & Hin)]; [exists events; auto|]. apply elem_of_app in Hin as [Hin|Hin].
    - destruct inflight as [[e k]|]; cbn in Hin; [|by apply elem_of_nil in Hin]. apply list_elem_of_singleton in Hin as ->.
      exists (events ++ [e]). rewrite map_app. split; [done|right]. exists e. auto.
    - apply (list_elem_of_fmap nd_encode) in Hin as (e & -> & He). exists (events ++ [e]). rewrite map_app. split; [done|right].
      exists e. auto. }
  destruct Hls as (events' & -> & Hor). exists events'.
  destruct (read_log (restart (crash_at h path (prod_map nd_encode id <$> inflight))) path (map nd_encode events') tail)
    as (h2 & raw & Hread & Hlines & Hfile & _); [done|done|exact Hb|].
  exists h2. split_and!; [|done|exact Hor]. unfold read_lines, sbind, smap_err. rewrite Hread. cbn [map_err]. unfold sret.
  do 2 f_equal. rewrite <- Hlines. by destruct raw.
Qed.

Lemma store_restart_state path h s events attempted inflight io h' s' :
  store_state path (h, s) events attempted ->
  store_recover path io (restart (crash_at h path (prod_map nd_encode id <$> inflight))) = (h', Ok s') ->
  exists events', store_state path (h', s') events' [] /\
    (events' = events \/ exists e, events' = events ++ [e] /\ (e ∈ attempted \/ fst <$> inflight = Some e)).
Proof.
  intros Hs H. unfold store_recover, sbind, slift, sret in H. destruct (read_lines path io _) as [h1 [lines| |]] eqn:Er; try discriminate H.
  destruct (ofold replay_line _ lines) as [st| |] eqn:Ef; try discriminate H. injection H as <- <-. apply read_lines_any in Er.
  destruct (store_restart_reads path h s events attempted inflight Hs) as (events' & h2 & Hr & Hb & Hor).
  rewrite Hr in Er. injection Er as <- <-. exists events'. split; [|exact Hor]. split; [by left|]. by apply replay_lines in Ef.
Qed.

(** The recovery succeeds when what it reads folds. *)
Lemma store_restart_ok path h s events attempted inflight : store_state path (h, s) events attempted ->
  (forall events', is_ok (ofold es_apply es_init events') = true) ->
  exists h' s', store_recover path read_ok (restart (crash_at h path (prod_map nd_encode id <$> inflight))) = (h', Ok s').
Proof.
  intros Hs Hfold. destruct (store_restart_reads path h s events attempted inflight Hs) as (events' & h2 & Hr & _ & _).
  destruct (is_ok_Ok _ (Hfold events')) as [s' Hs']. destruct (replay_lines_ok events' 0 es_init s' Hs') as [k Hk].
  exists h2, s'. unfold store_recover, sbind, slift, sret. by rewrite Hr, Hk.
Qed.
End Replays.

(** ** A nonce is spent once *)

Section NonceOnce.
Context {X : Externals} {NN : Ndjson NonceEvent} {LN : NdjsonLaws NonceEvent (fun _ => True)}.

Definition burned (r : outcome StoreError bool) : bool := match r with Ok b => b | _ => false end.

Definition burn_pair (e : NonceEvent) : string * string := let 'Burn pk nonce := e in (pk, nonce).

(** A history of one nonce ledger: burns with any answer of the file system,
    and restarts after crashes at any point. [accepted] are the pairs whose burn
    succeeded, [tried] those that were presented. *)
Inductive nonce_run (path : string) : Host * FileNonceLedger -> list (string * string) -> list (string * string) -> Prop :=
| nonce_start h : file_bytes h path = [] -> nonce_run path (h, es_init) [] []
| nonce_burn st accepted tried pk nonce io st' r : nonce_run path st accepted tried -> is_hex32_text pk = true ->
    append_burn path pk nonce io st = (st', r) ->
    nonce_run path st' (if burned r then (pk, nonce) :: accepted else accepted) ((pk, nonce) :: tried)
| nonce_restart h l accepted tried inflight io h' l' : nonce_run path (h, l) accepted tried ->
    from_option (fun c => let 'Burn pk _ := c.1 in is_hex32_text pk = true) True inflight ->
    nonce_recover path io (restart (crash_at h path (prod_map nd_encode id <$> inflight))) = (h', Ok l') ->
    nonce_run path (h', l') accepted (option_list ((fun c => burn_pair c.1) <$> inflight) ++ tried).

Definition burn_key (e : NonceEvent) : string := let 'Burn pk nonce := e in nonce_key pk nonce.

Lemma nonce_fold events : folded events (mkNonceLedger (list_to_set (map burn_key events))).
Proof.
  unfold folded. induction events as [|[pk n] events IH] using rev_ind; [done|]. rewrite ofold_app, IH. cbn [obind ofold es_apply nonce_store].
  unfold nonce_apply. cbn [nl_seen]. do 2 f_equal. rewrite map_app, list_to_set_app_L. cbn. set_solver.
Qed.

Lemma string_app_inj a b c d : String.length a = String.length b -> a +:+ c = b +:+ d -> a = b /\ c = d.
Proof.
  revert b. induction a as [|x a IH]; intros [|y b] Hl H; cbn in Hl; try discriminate Hl; [done|].
  injection H as -> H. injection Hl as Hl. destruct (IH b Hl H) as [-> ->]. done.
Qed.

Lemma hex32_text_length s : is_hex32_text s = true -> String.length s = 64%nat.
Proof.
  unfold is_hex32_text, hex32_from_hex, hex_n_from_hex. destruct (Nat.eqb_spec (String.length s) (2 * 32)) as [->|]; [done|discriminate].
Qed.

Lemma nonce_key_inj pk n pk' n' : is_hex32_text pk = true -> is_hex32_text pk' = true ->
  nonce_key pk n = nonce_key pk' n' -> (pk, n) = (pk', n').
Proof.
  intros H1%hex32_text_length H2%hex32_text_length H. apply string_app_inj in H as [-> H]; [|congruence]. injection H as H. f_equal. exact H.
Qed.

Definition hex_event (e : NonceEvent) : Prop := let 'Burn pk _ := e in is_hex32_text pk = true.

Record nonce_inv (path : string) (st : Host * FileNonceLedger) (accepted tried : list (string * string))
    (events attempted : list NonceEvent) : Prop := {
  ni_state : store_state path st events attempted;
  ni_hex : Forall hex_event (events ++ attempted);
  ni_nodup : NoDup accepted;
  ni_accepted : forall p, p ∈ accepted -> p ∈ map burn_pair events;
  ni_tried : forall p, p ∈ map burn_pair (events ++ attempted) -> p ∈ tried
}.

Lemma nonce_seen path st accepted tried events attempted pk nonce : nonce_inv path st accepted tried events attempted ->
  nonce_contains st.2 pk nonce = true <-> nonce_key pk nonce ∈ map burn_key events.
Proof.
  intros [[_ Hf] _ _ _ _]. pose proof (nonce_fold events) as Hf'. unfold folded in *. rewrite Hf in Hf'. injection Hf' as ->.
  unfold nonce_contains. cbn [nl_seen]. by rewrite bool_decide_eq_true, elem_of_list_to_set.
Qed.

Lemma nonce_burn_inv path st accepted tried events attempted pk nonce io st' r :
  nonce_inv path st accepted tried events attempted -> is_hex32_text pk = true -> append_burn path pk nonce io st = (st', r) ->
  exists events' attempted', nonce_inv path st' (if burned r then (pk, nonce) :: accepted else accepted) ((pk, nonce) :: tried)
    events' attempted'.
Proof.
  intros Hinv Hpk H. pose proof Hinv as [Hs Hh Hnd Hacc Htr]. unfold append_burn, sbind, sget in H.
  destruct (nonce_contains st.2 pk nonce) eqn:Ec.
  { injection H as <- <-. exists events, attempted. split; try done. intros p Hp. right. by apply Htr. }
  destruct (store_append path (Burn pk nonce) io st) as [st1 r1] eqn:E1.
  destruct (store_append_state path st events attempted (Burn pk nonce) io st1 r1 Hs eq_refl E1) as (Hs1 & _ & _).
  assert (Hst : st' = st1 /\ burned r = is_ok r1) by (by destruct r1 as [[]| |]; injection H as <- <-).
  destruct Hst as [-> ->]. exists (if is_ok r1 then events ++ [Burn pk nonce] else events), (Burn pk nonce :: attempted).
  assert (Hin : forall e, e ∈ (if is_ok r1 then events ++ [Burn pk nonce] else events) ++ Burn pk nonce :: attempted ->
    e = Burn pk nonce \/ e ∈ events ++ attempted) by (destruct (is_ok r1); set_solver).
  split; [done| | | |].
  - apply Forall_forall. intros e He. destruct (Hin e He) as [->|He']; [done|]. by eapply Forall_forall in Hh.
  - destruct (is_ok r1); [|done]. constructor; [|done]. intros Hold. apply Hacc in Hold.
    apply (list_elem_of_fmap burn_pair) in Hold as ([pk' n'] & [= <- <-] & Hold).
    assert (nonce_contains st.2 pk nonce = true) as Hc; [|congruence]. apply (nonce_seen _ _ _ _ _ _ _ _ Hinv).
    apply (list_elem_of_fmap burn_key). by exists (Burn pk nonce).
  - destruct (is_ok r1); [|done]. intros p Hp. rewrite map_app. apply elem_of_app. apply elem_of_cons in Hp as [->|Hp]; [right; by left|].
    left. by apply Hacc.
  - intros p Hp. apply (list_elem_of_fmap burn_pair) in Hp as (e & -> & He). destruct (Hin e He) as [->|He']; [by left|].
    right. apply Htr, (list_elem_of_fmap burn_pair). by exists e.
Qed.

Lemma nonce_run_inv path st accepted tried : nonce_run path st accepted tried ->
  exists events attempted, nonce_inv path st accepted tried events attempted.
Proof.
  induction 1 as [h Hb|st accepted tried pk nonce io st' r _ IH Hpk H|h l accepted tried inflight io h' l' _ IH Hin H].
  - exists [], []. split; try constructor; [by left|done|..]; intros p Hp; by apply elem_of_nil in Hp.
  - destruct IH as (events & attempted & IH). by eapply nonce_burn_inv.
  - destruct IH as (events & attempted & [Hs Hh Hnd Hacc Htr]).
    destruct (store_restart_state path h l events attempted inflight io h' l' Hs H) as (events' & Hs' & Hor).
    assert (Hnew : forall e, e ∈ events' -> e ∈ events ++ attempted \/ fst <$> inflight = Some e).
    { intros e He. destruct Hor as [->|(x & -> & Hor)]; [set_solver|]. apply elem_of_app in He as [He|He]; [set_solver|].
      apply list_elem_of_singleton in He as ->. set_solver. }
    exists events', []. split; [done| |done| |]; rewrite ?app_nil_r.
    + apply Forall_forall. intros e He. destruct (Hnew e He) as [He'|He']; [by eapply Forall_forall in Hh|].
      destruct inflight as [[x k]|]; [|done]. by injection He' as ->.
    + intros p Hp. apply Hacc in Hp. destruct Hor as [->|(e & -> & _)]; [done|]. rewrite map_app. set_solver.
    + intros p Hp. apply (list_elem_of_fmap burn_pair) in Hp as (e & -> & He). apply elem_of_app. destruct (Hnew e He) as [He'|He'].
      * right. apply Htr, (list_elem_of_fmap burn_pair). by exists e.
      * left. destruct inflight as [[x k]|]; [|done]. injection He' as ->. by left.
Qed.

(** C18: A nonce is spent exactly once, also across crashes. In any history of
    burns, file failures and restarts no pair is accepted twice, an accepted
    pair is refused from then on, and only a pair that was really presented is
    refused; and a restart after a crash inside an append always recovers. *)
Theorem nonce_spent_once path st accepted tried : nonce_run path st accepted tried ->
  NoDup accepted /\
  (forall pk nonce, (pk, nonce) ∈ accepted -> nonce_contains st.2 pk nonce = true) /\
  (forall pk nonce, is_hex32_text pk = true -> nonce_contains st.2 pk nonce = true -> (pk, nonce) ∈ tried) /\
  (forall inflight, exists h' l', nonce_recover path read_ok (restart (crash_at st.1 path (prod_map nd_encode id <$> inflight))) = (h', Ok l') /\
     forall pk nonce, (pk, nonce) ∈ accepted -> nonce_contains l' pk nonce = true).
Proof.
  intros (events & attempted & Hinv)%nonce_run_inv. pose proof Hinv as [Hs Hh Hnd Hacc Htr].
  assert (Hkey : forall pk nonce evs, (pk, nonce) ∈ map burn_pair evs -> nonce_key pk nonce ∈ map burn_key evs).
  { intros pk nonce evs Hp. apply (list_elem_of_fmap burn_pair) in Hp as ([pk' n'] & [= <- <-] & Hp).
    apply (list_elem_of_fmap burn_key). by exists (Burn pk nonce). }
  split_and!; [done| | |].
  - intros pk nonce Hp. apply (nonce_seen _ _ _ _ _ _ _ _ Hinv). by apply Hkey, Hacc.
  - intros pk nonce Hpk Hc. apply (nonce_seen _ _ _ _ _ _ _ _ Hinv) in Hc. apply (list_elem_of_fmap burn_key) in Hc as ([pk' n'] & Hk & He).
    cbn [burn_key] in Hk. apply nonce_key_inj in Hk as [= -> ->]; [|done|].
    + apply Htr, (list_elem_of_fmap burn_pair). exists (Burn pk' n'). split; [done|]. set_solver.
    + apply (proj1 (Forall_forall _ _) Hh (Burn pk' n')). set_solver.
  - intros inflight. destruct st as [h l]. destruct (store_restart_ok path h l events attempted inflight Hs) as (h' & l' & Hr).
    { intros evs. pose proof (nonce_fold evs) as Hf. unfold folded in Hf. by rewrite Hf. }
    exists h', l'. split; [exact Hr|]. intros pk nonce Hp.
    destruct (store_restart_state path h l events attempted inflight read_ok h' l' Hs Hr) as (events' & [_ Hf] & Hor).
    pose proof (nonce_fold events') as Hf'. unfold folded in *. cbn [snd] in Hf. rewrite Hf in Hf'. injection Hf' as ->.
    unfold nonce_contains. apply bool_decide_eq_true_2, elem_of_list_to_set, Hkey. apply Hacc in Hp.
    destruct Hor as [->|(e & -> & _)]; [done|]. rewrite map_app. set_solver.
Qed.
End NonceOnce.

(** ** Witness *)

From stdpp Require Import countable.
From S2P Require Import Concrete ConcreteLines.

#[export] Instance nonce_event_eq_decision : EqDecision NonceEvent.
Proof. solve_decision. Defined.

#[export] Instance nonce_event_countable : Countable NonceEvent.
Proof. refine (inj_countable' (fun e => let 'Burn p n := e in (p, n)) (fun '(p, n) => Burn p n) _). by intros []. Defined.

Module NonceDemo.
Definition pk : string := repeat_char "a" 64.
Definition host : Host := mkHost ∅ 0 no_fence.
Definition first : (Host * FileNonceLedger) * outcome StoreError bool := append_burn "nonces" pk "n-1" append_ok (host, es_init).
End NonceDemo.

Lemma nonce_spent_once_witness : nonce_contains NonceDemo.first.1.2 NonceDemo.pk "n-1" = true.
Proof.
  assert (Hok : NonceDemo.first.2 = Ok true) by (vm_compute; reflexivity).
  assert (Hrun : nonce_run "nonces" NonceDemo.first.1 [(NonceDemo.pk, "n-1")] [(NonceDemo.pk, "n-1")]).
  { refine (nonce_burn "nonces" (NonceDemo.host, es_init) [] [] NonceDemo.pk "n-1" append_ok NonceDemo.first.1 (Ok true) _ eq_refl _).
    - by apply nonce_start.
    - rewrite <- Hok. apply surjective_pairing. }
  destruct (nonce_spent_once "nonces" NonceDemo.first.1 _ _ Hrun) as (_ & H & _). apply H. by left.
Defined.
