(* ===== verification/Receipts.v ===== *)
(** * Receipt commitments (boole-core/src/receipt.rs, boole-node/src/receipt_store.rs)

    A receipt names itself by the hash of its fields. The store keeps the
    receipts of its file by that name: every line is validated on the way in and
    on the way back. *)

From S2P Require Import Prelude Json Externals Hash Durability BountyLedger Stores EventStores.

Record ReceiptCommitmentInput := mkReceiptInput {
  rci_agent_pk : string;
  rci_family_id : string;
  rci_verifier_id : string;
  rci_verifier_hash_version : string;
  rci_artifact_hash : string;
  rci_request_hash : string;
  rci_result : string;
  rci_fee_charged : string;
  rci_reward_recipient : string
}.

Record ReceiptCommitment := mkReceipt {
  rc_receipt_id : string;
  rc_agent_pk : string;
  rc_family_id : string;
  rc_verifier_id : string;
  rc_verifier_hash_version : string;
  rc_artifact_hash : string;
  rc_request_hash : string;
  rc_result : string;
  rc_fee_charged : string;
  rc_reward_recipient : string;
  rc_x402_version : option string
}.

Inductive ReceiptError := ReceiptHex (field : string) | ReceiptEmpty (field : string) | ReceiptIdMismatch.

Section Receipt.
Context {X : Externals}.

(** The document [compute_id] hashes, in insertion order. *)
Definition receipt_preimage (r : ReceiptCommitment) : Value :=
  VObject ([("agentPk", VString (rc_agent_pk r)); ("familyId", VString (rc_family_id r)); ("verifierId", VString (rc_verifier_id r));
            ("verifierHashVersion", VString (rc_verifier_hash_version r)); ("artifactHash", VString (rc_artifact_hash r));
            ("requestHash", VString (rc_request_hash r)); ("result", VString (rc_result r));
            ("feeCharged", VString (rc_fee_charged r)); ("rewardRecipient", VString (rc_reward_recipient r))]
           ++ match rc_x402_version r with Some v => [("x402Version", VString v)] | None => [] end).

Definition compute_id (r : ReceiptCommitment) : string := hex_encode (sha256 (canonicalize (receipt_preimage r))).

Definition with_receipt_id (r : ReceiptCommitment) (id : string) : ReceiptCommitment :=
  mkReceipt id (rc_agent_pk r) (rc_family_id r) (rc_verifier_id r) (rc_verifier_hash_version r) (rc_artifact_hash r)
    (rc_request_hash r) (rc_result r) (rc_fee_charged r) (rc_reward_recipient r) (rc_x402_version r).

Definition receipt_hex32 (field value : string) : outcome ReceiptError unit :=
  ensure (is_ok (hex32_from_hex value)) (ReceiptHex field).

Definition receipt_non_empty (field value : string) : outcome ReceiptError unit :=
  ensure (negb (str_is_empty value)) (ReceiptEmpty field).

Definition receipt_new (i : ReceiptCommitmentInput) : outcome ReceiptError ReceiptCommitment :=
  do* receipt_hex32 "agentPk" (rci_agent_pk i);
  do* receipt_non_empty "familyId" (rci_family_id i);
  do* receipt_non_empty "verifierId" (rci_verifier_id i);
  do* receipt_non_empty "verifierHashVersion" (rci_verifier_hash_version i);
  do* receipt_hex32 "artifactHash" (rci_artifact_hash i);
  do* receipt_hex32 "requestHash" (rci_request_hash i);
  do* receipt_non_empty "result" (rci_result i);
  do* receipt_non_empty "feeCharged" (rci_fee_charged i);
  do* receipt_hex32 "rewardRecipient" (rci_reward_recipient i);
  let r := mkReceipt "" (rci_agent_pk i) (rci_family_id i) (rci_verifier_id i) (rci_verifier_hash_version i)
             (rci_artifact_hash i) (rci_request_hash i) (rci_result i) (rci_fee_charged i) (rci_reward_recipient i) None in
  Ok (with_receipt_id r (compute_id r)).

Definition validate_receipt (r : ReceiptCommitment) : outcome ReceiptError unit :=
  do* receipt_hex32 "receiptId" (rc_receipt_id r);
  do* receipt_hex32 "agentPk" (rc_agent_pk r);
  do* receipt_hex32 "artifactHash" (rc_artifact_hash r);
  do* receipt_hex32 "requestHash" (rc_request_hash r);
  do* receipt_hex32 "rewardRecipient" (rc_reward_recipient r);
  ensure (String.eqb (rc_receipt_id r) (compute_id r)) ReceiptIdMismatch.
End Receipt.

(** ** The store *)

Record FileReceiptStore := mkReceiptStore { rs_receipts : gmap string ReceiptCommitment }.

Section ReceiptStore.
Context {X : Externals} {NRC : Ndjson ReceiptCommitment}.

Definition receipt_apply (store : FileReceiptStore) (r : ReceiptCommitment) : outcome StoreError FileReceiptStore :=
  do* map_err (fun _ => InvalidReceipt) (validate_receipt r);
  Ok (mkReceiptStore (<[rc_receipt_id r := r]> (rs_receipts store))).

#[export] Instance receipt_store : EventStore FileReceiptStore ReceiptCommitment :=
  {| es_init := mkReceiptStore ∅; es_apply := receipt_apply |}.

Definition receipt_recover (path : string) (io : ReadIo) : stm Host StoreError FileReceiptStore := store_recover path io.

Definition receipt_append (path : string) (r : ReceiptCommitment) (io : AppendIo) : stm Host StoreError unit :=
  do! slift (map_err (fun _ => InvalidReceipt) (validate_receipt r));
  append_line path r io.

Definition receipt_get (store : FileReceiptStore) (id : string) : option ReceiptCommitment := rs_receipts store !! id.
End ReceiptStore.
