(* ===== verification/HttpRateLimit.v ===== *)
(** * The HTTP rate limiter (boole-node/src/local_node.rs, [HttpRateLimiter])

    One bucket of request times per source address, a bounded number of
    buckets. The theorem: whatever the requests, no window of the configured
    length sees more admissions of one source than the quota, and a source below
    its quota is turned away only when the table of sources is full. *)

From S2P Require Import Prelude.

Definition MAX_ACTIVE_HTTP_RATE_SOURCE_IPS : N := 4096.

(** Source addresses by their text; the configuration and the table. *)
Record HttpRateLimiter := mkHttpRateLimiter {
  hr_quota : N;
  hr_window_ms : N;
  hr_state : gmap string (list N)
}.

Definition http_rate_limiter_new (quota window_ms : N) : HttpRateLimiter := mkHttpRateLimiter quota window_ms ∅.

Definition set_buckets (rl : HttpRateLimiter) (st : gmap string (list N)) : HttpRateLimiter :=
  mkHttpRateLimiter (hr_quota rl) (hr_window_ms rl) st.

(** [while bucket.front().is_some_and(|ts| *ts < cutoff) { bucket.pop_front(); }]. *)
Fixpoint drop_stale (cutoff : N) (bucket : list N) : list N :=
  match bucket with
  | ts :: rest => if ts <? cutoff then drop_stale cutoff rest else bucket
  | [] => []
  end.

(** The global sweep of a full table. *)
Definition sweep (cutoff : N) (st : gmap string (list N)) : gmap string (list N) :=
  filter (fun entry => entry.2 <> []) (drop_stale cutoff <$> st).

Definition http_admit (rl : HttpRateLimiter) (ip : string) (now_ms : N) : HttpRateLimiter * bool :=
  let cutoff := now_ms - hr_window_ms rl in
  let full (st : gmap string (list N)) := MAX_ACTIVE_HTTP_RATE_SOURCE_IPS <=? N.of_nat (size st) in
  let at_cap := negb (bool_decide (is_Some (hr_state rl !! ip))) && full (hr_state rl) in
  let st := if at_cap then sweep cutoff (hr_state rl) else hr_state rl in
  if at_cap && full st then (set_buckets rl st, false)
  else
    let bucket := drop_stale cutoff (default [] (st !! ip)) in
    if hr_quota rl <=? len bucket then (set_buckets rl (<[ip := bucket]> st), false)
    else (set_buckets rl (<[ip := bucket ++ [now_ms]]> st), true).

(** A history of requests: the limiter, the time of the last one, and the
    admitted requests. The clock does not run backwards. *)
Inductive http_run (quota window : N) : HttpRateLimiter -> N -> list (string * N) -> Prop :=
| http_start : http_run quota window (http_rate_limiter_new quota window) 0 []
| http_request rl last admitted ip now rl' ok : http_run quota window rl last admitted -> last <= now ->
    http_admit rl ip now = (rl', ok) ->
    http_run quota window rl' now (if ok then admitted ++ [(ip, now)] else admitted).

(** The admission times of one source, and those in a window that ends at [t]. *)
Definition times_of (ip : string) (admitted : list (string * N)) : list N :=
  base.omap (fun '(a, t) => if String.eqb a ip then Some t else None) admitted.

Definition recent (since : N) (times : list N) : list N := List.filter (fun t => since <=? t) times.

Definition in_window (window t : N) (times : list N) : list N := List.filter (fun x => (t - window <=? x) && (x <=? t)) times.

(** ** Lemmas *)

Lemma recent_recent c d l : c <= d -> recent d (recent c l) = recent d l.
Proof.
  intros Hcd. unfold recent. induction l as [|x l IH]; [done|]. cbn [List.filter]. destruct (c <=? x) eqn:E1; cbn [List.filter].
  - by destruct (d <=? x); rewrite IH.
  - destruct (d <=? x) eqn:E2; [|exact IH]. apply N.leb_le in E2. apply N.leb_gt in E1. lia.
Qed.

Lemma recent_app c l k : recent c (l ++ k) = recent c l ++ recent c k.
Proof. apply List.filter_app. Qed.

Lemma recent_sorted c l : Sorted.StronglySorted N.le l -> Sorted.StronglySorted N.le (recent c l).
Proof.
  induction 1 as [|x l H IH Hx]; [constructor|]. unfold recent. cbn [List.filter]. destruct (c <=? x); [|exact IH].
  constructor; [exact IH|]. apply Forall_forall. intros y [Hy _]%list_elem_of_In%List.filter_In.
  by apply (proj1 (Forall_forall _ _) Hx), list_elem_of_In.
Qed.

Lemma drop_stale_recent c l : Sorted.StronglySorted N.le l -> drop_stale c l = recent c l.
Proof.
  induction 1 as [|x l H IH Hx]; [done|]. unfold recent. cbn [drop_stale List.filter].
  destruct (x <? c) eqn:E; [apply N.ltb_lt in E|apply N.ltb_ge in E].
  - by rewrite (proj2 (N.leb_gt c x)) by done.
  - rewrite (proj2 (N.leb_le c x)) by done. f_equal. symmetry. apply List.forallb_filter_id, List.forallb_forall.
    intros y Hy%list_elem_of_In. apply N.leb_le. pose proof (proj1 (Forall_forall _ _) Hx y Hy). lia.
Qed.

Lemma sorted_snoc l x : Sorted.StronglySorted N.le l -> Forall (fun y => y <= x) l -> Sorted.StronglySorted N.le (l ++ [x]).
Proof.
  induction 1 as [|y l H IH Hy]; intros Hl; [constructor; [constructor|done]|]. apply Forall_cons in Hl as [Hyx Hl]. cbn [app].
  constructor; [by apply IH|]. apply Forall_app. by split; [|constructor].
Qed.

Lemma sweep_lookup c st ip : default [] (sweep c st !! ip) = drop_stale c (default [] (st !! ip)).
Proof.
  unfold sweep. destruct (filter _ _ !! ip) as [b|] eqn:E; cbn [default from_option].
  - apply map_lookup_filter_Some in E as [E _]. rewrite lookup_fmap in E. destruct (st !! ip); [|done]. cbn in *. congruence.
  - apply map_lookup_filter_None in E as [E|E].
    + rewrite lookup_fmap in E. by destruct (st !! ip).
    + rewrite lookup_fmap in E. destruct (st !! ip) as [b|]; [|done]. cbn in *. specialize (E _ eq_refl).
      destruct (drop_stale c b); [done|]. by destruct E.
Qed.

(** ** The invariant *)

(** Up to the window's start, a bucket holds the admission times of its source. *)
Record http_ok (window : N) (rl : HttpRateLimiter) (last : N) (admitted : list (string * N)) : Prop := {
  ho_size : N.of_nat (size (hr_state rl)) <= MAX_ACTIVE_HTTP_RATE_SOURCE_IPS;
  ho_sorted ip : Sorted.StronglySorted N.le (default [] (hr_state rl !! ip));
  ho_recent ip c : last - window <= c -> recent c (default [] (hr_state rl !! ip)) = recent c (times_of ip admitted);
  ho_past : Forall (fun e => e.2 <= last) admitted
}.

(** What a request meets: the table after the sweep, and the bucket. *)
Definition swept (rl : HttpRateLimiter) (ip : string) (now : N) : gmap string (list N) :=
  if negb (bool_decide (is_Some (hr_state rl !! ip))) && (MAX_ACTIVE_HTTP_RATE_SOURCE_IPS <=? N.of_nat (size (hr_state rl)))
  then sweep (now - hr_window_ms rl) (hr_state rl) else hr_state rl.

(** A new source finds the table full, even after the sweep. *)
Definition table_full (rl : HttpRateLimiter) (ip : string) (now : N) : bool :=
  negb (bool_decide (is_Some (hr_state rl !! ip))) && (MAX_ACTIVE_HTTP_RATE_SOURCE_IPS <=? N.of_nat (size (hr_state rl)))
  && (MAX_ACTIVE_HTTP_RATE_SOURCE_IPS <=? N.of_nat (size (swept rl ip now))).

Lemma sweep_size c st : (size (sweep c st) <= size st)%nat.
Proof. unfold sweep. etransitivity; [apply map_subseteq_size, map_filter_subseteq|]. by rewrite map_size_fmap. Qed.

Lemma swept_ok rl last admitted ip now : http_ok (hr_window_ms rl) rl last admitted -> last <= now ->
  http_ok (hr_window_ms rl) (set_buckets rl (swept rl ip now)) now admitted.
Proof.
  intros [H1 H2 H3 H4] Hle. assert (Hpast : Forall (fun e => e.2 <= now) admitted).
  { eapply Forall_impl; [exact H4|]. cbn. lia. }
  unfold swept. destruct (_ && _) eqn:E; [|split; cbn; try done; intros; apply H3; lia].
  split; cbn [set_buckets hr_state]; [|intros a|intros a c Hc|done].
  - pose proof (sweep_size (now - hr_window_ms rl) (hr_state rl)). lia.
  - rewrite sweep_lookup, drop_stale_recent by done. by apply recent_sorted.
  - rewrite sweep_lookup, drop_stale_recent, recent_recent by done. apply H3. lia.
Qed.

(** The bucket of the source, after pruning, is what was admitted in the window. *)
Lemma bucket_recent rl last admitted ip now : http_ok (hr_window_ms rl) rl last admitted -> last <= now ->
  drop_stale (now - hr_window_ms rl) (default [] (swept rl ip now !! ip)) = recent (now - hr_window_ms rl) (times_of ip admitted).
Proof.
  intros H Hle. destruct (swept_ok rl last admitted ip now H Hle) as [_ H2 H3 _]. cbn [set_buckets hr_state] in *.
  rewrite drop_stale_recent by apply H2. by apply H3.
Qed.

(** Admission, in terms of what was admitted before. *)
Lemma http_admit_spec rl last admitted ip now : http_ok (hr_window_ms rl) rl last admitted -> last <= now ->
  let bucket := recent (now - hr_window_ms rl) (times_of ip admitted) in
  http_admit rl ip now =
    if table_full rl ip now then (set_buckets rl (swept rl ip now), false)
    else if hr_quota rl <=? len bucket then (set_buckets rl (<[ip := bucket]> (swept rl ip now)), false)
    else (set_buckets rl (<[ip := bucket ++ [now]]> (swept rl ip now)), true).
Proof. intros H Hle. cbn zeta. rewrite <- (bucket_recent rl last admitted ip now H Hle). reflexivity. Qed.

Lemma times_of_snoc ip a t admitted :
  times_of ip (admitted ++ [(a, t)]) = times_of ip admitted ++ (if String.eqb a ip then [t] else []).
Proof. unfold times_of. rewrite omap_app. cbn. by destruct (String.eqb a ip). Qed.

Lemma times_past ip last admitted : Forall (fun e => e.2 <= last) admitted -> Forall (fun t => t <= last) (times_of ip admitted).
Proof.
  induction 1 as [|[a t] l Ht _ IH]; [constructor|]. unfold times_of in *. cbn. destruct (String.eqb a ip); [|exact IH].
  by constructor.
Qed.

Lemma insert_room rl ip now : N.of_nat (size (swept rl ip now)) <= MAX_ACTIVE_HTTP_RATE_SOURCE_IPS -> table_full rl ip now = false ->
  forall b, N.of_nat (size (<[ip := b]> (swept rl ip now))) <= MAX_ACTIVE_HTTP_RATE_SOURCE_IPS.
Proof.
  intros Hs Hf b. rewrite map_size_insert. destruct (swept rl ip now !! ip) eqn:E; [done|]. unfold table_full in Hf.
  unfold swept in *. destruct (negb _) eqn:En; cbn [andb] in *.
  - destruct (MAX_ACTIVE_HTTP_RATE_SOURCE_IPS <=? N.of_nat (size (hr_state rl))) eqn:Ef; cbn [andb] in *.
    + apply N.leb_gt in Hf. lia.
    + apply N.leb_gt in Ef. lia.
  - apply negb_false_iff, bool_decide_eq_true in En as [x Hx]. congruence.
Qed.

Lemma bucket_ok rl last admitted ip now : http_ok (hr_window_ms rl) rl last admitted -> last <= now ->
  table_full rl ip now = false ->
  forall (ok : bool), let bucket := recent (now - hr_window_ms rl) (times_of ip admitted) in
  http_ok (hr_window_ms rl) (set_buckets rl (<[ip := if ok then bucket ++ [now] else bucket]> (swept rl ip now))) now
    (if ok then admitted ++ [(ip, now)] else admitted).
Proof.
  intros H Hle Hf ok bucket. destruct (swept_ok rl last admitted ip now H Hle) as [H1 H2 H3 H4]. cbn [set_buckets hr_state] in *.
  assert (Hsort : Sorted.StronglySorted N.le bucket).
  { unfold bucket. rewrite <- (H3 ip _ (N.le_refl _)). apply recent_sorted, H2. }
  split; cbn [set_buckets hr_state].
  - by apply insert_room.
  - intros a. destruct (decide (a = ip)) as [-> |Hne]; [|rewrite lookup_insert_ne by done; apply H2].
    rewrite lookup_insert_eq. cbn [default from_option id]. destruct ok; [|done]. apply sorted_snoc; [done|].
    apply Forall_forall. intros x [Hx _]%list_elem_of_In%List.filter_In.
    by apply (proj1 (Forall_forall _ _) (times_past ip now admitted H4)), list_elem_of_In.
  - intros a c Hc. destruct (decide (a = ip)) as [-> |Hne].
    + rewrite lookup_insert_eq. cbn [default from_option id]. destruct ok.
      * rewrite times_of_snoc, String.eqb_refl, !recent_app. by unfold bucket; rewrite recent_recent.
      * by unfold bucket; rewrite recent_recent.
    + rewrite lookup_insert_ne, H3 by done. destruct ok; [|done]. rewrite times_of_snoc.
      destruct (String.eqb_spec ip a) as [-> |]; [done|]. by rewrite app_nil_r.
  - destruct ok; [|done]. apply Forall_app. split; [done|]. by constructor.
Qed.

Lemma admit_ok rl last admitted ip now rl' ok : http_ok (hr_window_ms rl) rl last admitted -> last <= now ->
  http_admit rl ip now = (rl', ok) ->
  http_ok (hr_window_ms rl) rl' now (if ok then admitted ++ [(ip, now)] else admitted) /\
  hr_quota rl' = hr_quota rl /\ hr_window_ms rl' = hr_window_ms rl /\
  ok = negb (table_full rl ip now) && (len (recent (now - hr_window_ms rl) (times_of ip admitted)) <? hr_quota rl).
Proof.
  intros H Hle. rewrite (http_admit_spec rl last admitted ip now H Hle). destruct (table_full rl ip now) eqn:Ef.
  - intros [= <- <-]. split_and!; [|done..]. by apply (swept_ok rl last admitted).
  - pose proof (bucket_ok rl last admitted ip now H Hle Ef) as Hb. destruct (hr_quota rl <=? _) eqn:Eq; intros [= <- <-].
    + split_and!; [exact (Hb false)|done..|]. symmetry. apply N.leb_le in Eq. by apply N.ltb_ge.
    + split_and!; [exact (Hb true)|done..|]. symmetry. apply N.leb_gt in Eq. by apply N.ltb_lt.
Qed.

Lemma run_ok quota window rl last admitted : http_run quota window rl last admitted ->
  http_ok window rl last admitted /\ hr_quota rl = quota /\ hr_window_ms rl = window.
Proof.
  induction 1 as [|rl last admitted ip now rl' ok Hr [IH [Hq Hw]] Hle E].
  - split; [|done]. split; cbn; [by rewrite map_size_empty|intros ip; rewrite lookup_empty; constructor| |constructor].
    intros ip c _. by rewrite lookup_empty.
  - rewrite <- Hw in IH. destruct (admit_ok rl last admitted ip now rl' ok IH Hle E) as (H1 & H2 & H3 & _).
    rewrite Hw in *. split_and!; congruence.
Qed.

(** A window sees at most what was admitted since its start. *)
Lemma in_window_recent window t l : len (in_window window t l) <= len (recent (t - window) l).
Proof.
  unfold in_window, recent, len. induction l as [|x l IH]; [done|]. cbn [List.filter]. destruct (t - window <=? x); cbn [andb].
  - destruct (x <=? t); cbn [length]; lia.
  - exact IH.
Qed.

Lemma recent_mono c d l : c <= d -> len (recent d l) <= len (recent c l).
Proof.
  intros Hcd. unfold recent, len. induction l as [|x l IH]; [done|]. cbn [List.filter].
  destruct (d <=? x) eqn:E1, (c <=? x) eqn:E2; cbn [length]; try lia. apply N.leb_le in E1. apply N.leb_gt in E2. lia.
Qed.

Lemma in_window_past window t l now : t < now -> in_window window t (l ++ [now]) = in_window window t l.
Proof.
  intros Ht. unfold in_window. rewrite List.filter_app. cbn [List.filter]. rewrite (proj2 (N.leb_gt now t)) by done.
  by rewrite andb_false_r, app_nil_r.
Qed.

(** C33: The rate limiter holds what it promises. In any history of requests
    whose clock does not run backwards, every window of the configured length
    has at most [quota] admissions of one source, the table keeps at most 4096
    sources, and the next request is admitted exactly when its source has fewer
    than [quota] admissions in the window that ends now and the table is not
    full of other active sources. *)
Theorem http_quota_holds quota window rl last admitted : http_run quota window rl last admitted ->
  (forall ip t, len (in_window window t (times_of ip admitted)) <= quota) /\
  N.of_nat (size (hr_state rl)) <= MAX_ACTIVE_HTTP_RATE_SOURCE_IPS /\
  (forall ip now, last <= now ->
     (http_admit rl ip now).2 = negb (table_full rl ip now) && (len (recent (now - window) (times_of ip admitted)) <? quota)).
Proof.
  intros Hr. split; [|destruct (run_ok _ _ _ _ _ Hr) as (H1 & H2 & H3); split; [apply H1|]].
  - induction Hr as [|rl last admitted ip now rl' ok Hr IH Hle E]; [intros; apply N.le_0_l|]. destruct ok; [|exact IH]. intros a t.
    rewrite times_of_snoc. destruct (String.eqb ip a) eqn:Ea; [|rewrite app_nil_r; apply IH]. apply String.eqb_eq in Ea as <-.
    destruct (N.lt_ge_cases t now) as [Hlt|Hge]; [rewrite in_window_past by done; apply IH|].
    destruct (run_ok _ _ _ _ _ Hr) as (H1 & H2 & H3). rewrite <- H3 in H1.
    destruct (admit_ok rl last admitted ip now rl' true H1 Hle E) as (_ & _ & _ & Hok). symmetry in Hok.
    apply andb_true_iff in Hok as [_ Hlen%N.ltb_lt]. rewrite H2, H3 in Hlen.
    pose proof (in_window_recent window t (times_of ip admitted ++ [now])) as Hw. rewrite recent_app in Hw.
    pose proof (recent_mono (now - window) (t - window) (times_of ip admitted)) as Hm. unfold len in *. rewrite length_app in Hw.
    assert (length (recent (t - window) [now]) <= 1)%nat by (unfold recent; cbn; destruct (_ <=? _); cbn; lia). lia.
  - intros ip now Hle. rewrite <- H3 in H1. destruct (http_admit rl ip now) as [rl' ok] eqn:E.
    destruct (admit_ok rl last admitted ip now rl' ok H1 Hle E) as (_ & _ & _ & ->). by rewrite H2, H3.
Qed.

(** Two requests fit a quota of two, the third in the window does not, and a
    later one does. *)
Module HttpDemo.
Definition source : string := "10.0.0.1".
Definition first : HttpRateLimiter * bool := http_admit (http_rate_limiter_new 2 1000) source 100.
Definition second : HttpRateLimiter * bool := http_admit first.1 source 200.
Definition third : HttpRateLimiter * bool := http_admit second.1 source 300.

(** An admission by its verdict alone. *)
Lemma admits rl now ok : (http_admit rl source now).2 = ok -> http_admit rl source now = ((http_admit rl source now).1, ok).
Proof. intros <-. apply surjective_pairing. Qed.
End HttpDemo.

Lemma http_quota_holds_witness :
  (HttpDemo.first.2, HttpDemo.second.2, HttpDemo.third.2) = (true, true, false) /\
  (http_admit HttpDemo.third.1 HttpDemo.source 1200).2 = true /\
  len (in_window 1000 1050 [100; 200]) <= 2.
Proof.
  split_and!; [vm_compute; reflexivity|vm_compute; reflexivity|].
  refine (proj1 (http_quota_holds 2 1000 HttpDemo.third.1 300 [(HttpDemo.source, 100); (HttpDemo.source, 200)] _) HttpDemo.source 1050).
  apply (http_request 2 1000 HttpDemo.second.1 200 [(HttpDemo.source, 100); (HttpDemo.source, 200)] HttpDemo.source 300 HttpDemo.third.1 false);
    [|lia|apply HttpDemo.admits; vm_compute; reflexivity].
  apply (http_request 2 1000 HttpDemo.first.1 100 [(HttpDemo.source, 100)] HttpDemo.source 200 HttpDemo.second.1 true);
    [|lia|apply HttpDemo.admits; vm_compute; reflexivity].
  apply (http_request 2 1000 (http_rate_limiter_new 2 1000) 0 [] HttpDemo.source 100 HttpDemo.first.1 true);
    [apply http_start|lia|apply HttpDemo.admits; vm_compute; reflexivity].
Defined.
