(* ===== verification/P2pWire.v ===== *)
(** * The peer wire format (boole-p2p/src/lib.rs)

    Frames are JSON values, one per line, over a byte stream. A reader sees the
    stream in pieces of any size; it never buffers a line past its cap, and the
    variant with a deadline stops a peer that sends byte by byte. Printing and
    parsing of a frame is [serde_json]'s (class [Ndjson]); the clock and the
    socket are arguments, and setting a socket option is taken to succeed. *)

From S2P Require Import Prelude Json Durability.

Definition PROTOCOL_VERSION : N := 4.
Definition MAX_FRAME_BYTES : N := 16 * 1024 * 1024.
Definition MAX_PACKAGE_PAYLOAD_BYTES : N := 8 * 1024 * 1024.
Definition GET_BLOCKS_RANGE_CAP : N := 256.

Record HeadSummary := mkHeadSummary { hs_height : N; hs_c : string }.

Inductive AuthorizationPolicy := LegacyUnscopedV1 | NetworkScopedV1.

Inductive Frame :=
| Hello (protocol_version consensus_rule_version : N) (authorization_policy : AuthorizationPolicy)
    (network_id genesis_hash effective_family_manifest_root : string) (head : HeadSummary)
| ShareAnnounce (submission : Value)
| BlockAnnounce (height : N) (c : string)
| GetBlocks (from to : N)
| Blocks (blocks : list Value)
| GetPackage (root : string)
| Package (root : string) (canonical_bytes : option (list byte)).

Inductive FrameError :=
| FrameTooLarge (seen : N)
| FrameBudgetExceeded (cap seen : N)
| ReceiveDeadlineExceeded
| SendDeadlineExceeded
| Malformed
| RangeTooWide (from to : N)
| InvalidPackageRoot (root : string)
| InvalidFamilyManifestRoot (root : string)
| PackagePayloadTooLarge (size : N)
| ConnectionClosed
| FrameIo.

Definition is_lowercase_hex32 (value : string) : bool :=
  (str_len value =? 64) && str_all (fun b => is_ascii_digit b || in_range 97 102 b) value.

(** [to - from] is a checked subtraction of [u64]s behind the first test. *)
Definition frame_validate (f : Frame) : outcome FrameError unit :=
  do* match f with
      | Hello _ _ _ _ _ root _ => ensure (is_lowercase_hex32 root) (InvalidFamilyManifestRoot root)
      | _ => Ok tt
      end;
  do* match f with
      | GetBlocks from to => ensure (negb ((to <? from) || (GET_BLOCKS_RANGE_CAP <=? to - from))) (RangeTooWide from to)
      | _ => Ok tt
      end;
  do* match f with
      | GetPackage root | Package root _ => ensure (is_lowercase_hex32 root) (InvalidPackageRoot root)
      | _ => Ok tt
      end;
  match f with
  | Package _ (Some bytes) => ensure (len bytes <=? MAX_PACKAGE_PAYLOAD_BYTES) (PackagePayloadTooLarge (len bytes))
  | _ => Ok tt
  end.

(** ** Reading lines *)

(** What reads of the socket give, one after the other; [Data] is not empty and
    the end of the list is the end of the stream. *)
Inductive Arrival := Data (bytes : list byte) | TimedOut | Fault.

(** [iter().position(..)] of the newline. *)
Fixpoint newline_at (bytes : list byte) : option nat :=
  match bytes with
  | [] => None
  | b :: rest => if Byte.eqb b newline then Some 0%nat else S <$> newline_at rest
  end.

(** [BufReader::consume]: what is left of a piece stays first. *)
Definition consume (n : nat) (bytes : list byte) (rest : list Arrival) : list Arrival :=
  match drop n bytes with [] => rest | piece => Data piece :: rest end.

(** The stream ended. *)
Definition at_end (line : list byte) : FrameError := if bool_decide (line = []) then ConnectionClosed else Malformed.

Fixpoint read_line_capped (cap : N) (line : list byte) (input : list Arrival) : list Arrival * outcome FrameError (list byte) :=
  match input with
  | [] => ([], Err (at_end line))
  | TimedOut :: rest | Fault :: rest => (rest, Err FrameIo)
  | Data available :: rest =>
      match newline_at available with
      | Some at_ =>
          let seen := len line + N.of_nat at_ + 1 in
          if cap <? seen then (input, Err (FrameTooLarge seen))
          else (consume (at_ + 1) available rest, Ok (line ++ take at_ available))
      | None =>
          let seen := len line + len available + 1 in
          if cap <? seen then (input, Err (FrameTooLarge seen))
          else read_line_capped cap (line ++ available) rest
      end
  end.

(** With a deadline: [clock i] is the time before and after the [i]-th read. *)
Fixpoint read_line_capped_until (clock : nat -> N * N) (cap deadline : N) (i : nat) (line : list byte) (input : list Arrival)
    : list Arrival * outcome FrameError (list byte) :=
  if deadline <=? (clock i).1 then (input, Err ReceiveDeadlineExceeded)
  else
    let late := deadline <=? (clock i).2 in
    match input with
    | [] => ([], Err (if late then ReceiveDeadlineExceeded else at_end line))
    | TimedOut :: rest => (rest, Err (if late then ReceiveDeadlineExceeded else FrameIo))
    | Fault :: rest => (rest, Err FrameIo)
    | Data available :: rest =>
        if late then (input, Err ReceiveDeadlineExceeded)
        else match newline_at available with
             | Some at_ =>
                 let seen := len line + N.of_nat at_ + 1 in
                 if cap <? seen then (input, Err (FrameTooLarge seen))
                 else (consume (at_ + 1) available rest, Ok (line ++ take at_ available))
             | None =>
                 let seen := len line + len available + 1 in
                 if cap <? seen then (input, Err (FrameTooLarge seen))
                 else read_line_capped_until clock cap deadline (S i) (line ++ available) rest
             end
    end.

(** ** Frames *)

(** What one write of the socket answers. *)
Inductive WriteAnswer := Wrote (count : N) | WriteTimedOut | WriteInterrupted | WriteFault.

Section Wire.
Context {NF : Ndjson Frame}.

Definition encode_frame (f : Frame) : outcome FrameError (list byte) :=
  do* frame_validate f;
  let encoded := nd_encode f ++ [newline] in
  do* ensure (len encoded <=? MAX_FRAME_BYTES) (FrameTooLarge (len encoded));
  Ok encoded.

Definition decode_counted_frame (line : list byte) : outcome FrameError (Frame * N) :=
  let wire_bytes := len line + 1 in
  let* f := ok_or (nd_decode line) Malformed in
  do* frame_validate f;
  Ok (f, wire_bytes).

Definition recv_frame_counted (input : list Arrival) : list Arrival * outcome FrameError (Frame * N) :=
  let '(input', r) := read_line_capped MAX_FRAME_BYTES [] input in
  (input', let* line := r in decode_counted_frame line).

Definition recv_frame_counted_until (clock : nat -> N * N) (remaining_wire_bytes deadline : N) (input : list Arrival)
    : list Arrival * outcome FrameError (Frame * N) :=
  let cap := N.min remaining_wire_bytes MAX_FRAME_BYTES in
  if cap =? 0 then (input, Err (FrameBudgetExceeded cap 0))
  else
    let '(input', r) := read_line_capped_until clock cap deadline 0 [] input in
    (input', let* line := map_err (fun e => match e with
                                            | FrameTooLarge seen => if cap <? MAX_FRAME_BYTES then FrameBudgetExceeded cap seen else e
                                            | _ => e
                                            end) r in
             decode_counted_frame line).

(** The loop of [send_frame_until]: what reached the stream, and the verdict.
    [clock i] is the time before the [i]-th write; the answers end where the
    deadline passes. *)
Fixpoint write_until (clock : nat -> N) (deadline : N) (i : nat) (sent rest : list byte) (answers : list WriteAnswer)
    : list byte * outcome FrameError unit :=
  match rest, answers with
  | [], _ => (sent, Ok tt)
  | _, [] => (sent, Err SendDeadlineExceeded)
  | _, answer :: answers' =>
      if deadline <=? clock i then (sent, Err SendDeadlineExceeded)
      else match answer with
           | Wrote count =>
               if count =? 0 then (sent, Err FrameIo)
               else write_until clock deadline (S i) (sent ++ take (N.to_nat count) rest) (drop (N.to_nat count) rest) answers'
           | WriteTimedOut => (sent, Err SendDeadlineExceeded)
           | WriteInterrupted => write_until clock deadline (S i) sent rest answers'
           | WriteFault => (sent, Err FrameIo)
           end
  end.

Definition send_frame_until (clock : nat -> N) (deadline : N) (f : Frame) (answers : list WriteAnswer)
    : list byte * outcome FrameError unit :=
  match encode_frame f with
  | Ok encoded => write_until clock deadline 0 [] encoded answers
  | Err e => ([], Err e)
  | Panic => ([], Panic)
  end.

(** [send_frame]: [write_all] and [flush] succeed, or fail after some bytes. *)
Definition send_frame (failed_after : option N) (f : Frame) : list byte * outcome FrameError unit :=
  match encode_frame f with
  | Ok encoded =>
      match failed_after with
      | None => (encoded, Ok tt)
      | Some count => (take (N.to_nat count) encoded, Err FrameIo)
      end
  | Err e => ([], Err e)
  | Panic => ([], Panic)
  end.

(** A peer that receives until the first error. *)
Fixpoint recv_all (fuel : nat) (input : list Arrival) : list (Frame * N) * option FrameError :=
  match fuel with
  | O => ([], None)
  | S fuel' =>
      match recv_frame_counted input with
      | (input', Ok f) => let '(fs, e) := recv_all fuel' input' in (f :: fs, e)
      | (_, Err e) => ([], Some e)
      | (_, Panic) => ([], None)
      end
  end.

End Wire.

(** ** Pieces of a stream *)

Definition arrival_bytes (a : Arrival) : list byte := match a with Data bs => bs | _ => [] end.
Definition stream (input : list Arrival) : list byte := concat (map arrival_bytes input).

(** Only data, in pieces that are not empty. *)
Definition delivered (input : list Arrival) : Prop := Forall (fun a => exists b bs, a = Data (b :: bs)) input.

Lemma newline_at_split bs : match newline_at bs with
  | Some i => newline ∉ take i bs /\ bs = take i bs ++ newline :: drop (i + 1) bs
  | None => newline ∉ bs
  end.
Proof.
  induction bs as [|b bs IH]; cbn [newline_at]; [set_solver|]. destruct (Byte.eqb b newline) eqn:E.
  - apply Byte.byte_dec_bl in E as ->. split; [set_solver|done].
  - assert (b <> newline) by (intros ->; by rewrite byte_eqb_refl in E).
    destruct (newline_at bs) as [i|]; cbn [fmap option_fmap option_map]; [|set_solver]. destruct IH as [H1 H2]. cbn [take app].
    split; [set_solver|]. cbn [Nat.add drop]. by rewrite <- H2.
Qed.

Lemma consume_stream n bs rest : delivered rest -> delivered (consume n bs rest) /\ stream (consume n bs rest) = drop n bs ++ stream rest.
Proof. intros H. unfold consume. destruct (drop n bs) as [|b l]; [done|]. split; [|done]. constructor; [by eexists _, _|done]. Qed.

(** The first newline decides where a line ends. *)
Lemma line_unique a b (l m : list byte) : newline ∉ a -> newline ∉ b -> a ++ newline :: l = b ++ newline :: m -> a = b /\ l = m.
Proof.
  revert b. induction a as [|x a IH]; intros [|y b] Ha Hb H; cbn [app] in H; simplify_eq; [done|set_solver..|].
  destruct (IH b) as [-> ->]; [set_solver|set_solver|done|done].
Qed.

(** A line that fits is read whole, however the stream is cut. *)
Lemma read_line_delivered cap input : forall line l rest, delivered input -> stream input = l ++ newline :: rest -> newline ∉ l ->
  len line + len l + 1 <= cap ->
  exists input', read_line_capped cap line input = (input', Ok (line ++ l)) /\ delivered input' /\ stream input' = rest.
Proof.
  induction input as [|a input IH]; intros line l rest Hd Hs Hl Hcap; [by destruct l|].
  apply Forall_cons in Hd as [(b & bs & ->) Hd]. cbn [read_line_capped]. pose proof (newline_at_split (b :: bs)) as Hn.
  change (stream (Data (b :: bs) :: input)) with ((b :: bs) ++ stream input) in Hs.
  destruct (newline_at (b :: bs)) as [i|].
  - destruct Hn as [Hn1 Hn2]. rewrite Hn2, <- app_assoc in Hs. cbn [app] in Hs. apply line_unique in Hs as [Hs1 Hs2]; [|done..].
    assert (Hi : length l = i).
    { rewrite <- Hs1, length_take, Nat.min_l; [done|]. apply (f_equal length) in Hn2. rewrite length_app, length_take in Hn2.
      cbn [length] in *. lia. }
    rewrite (proj2 (N.ltb_ge _ _)) by (unfold len in *; lia).
    destruct (consume_stream (i + 1) (b :: bs) input Hd) as [H1 H2]. eexists. split_and!; [by rewrite Hs1|done|].
    by rewrite H2, Hs2.
  - assert (Hpre : exists l', l = (b :: bs) ++ l' /\ stream input = l' ++ newline :: rest).
    { clear -Hs Hn. revert l Hs. induction (b :: bs) as [|x xs IHx]; intros l Hs; [by exists l|]. cbn [app] in Hs.
      destruct l as [|y l]; cbn [app] in Hs; simplify_eq; [set_solver|]. destruct (IHx ltac:(set_solver) l) as (l' & -> & H); [done|].
      by exists l'. }
    destruct Hpre as (l' & -> & Hs'). unfold len in *. rewrite length_app in Hcap.
    rewrite (proj2 (N.ltb_ge _ _)) by lia.
    destruct (IH (line ++ b :: bs) l' rest Hd Hs') as (input' & H1 & H2 & H3); [set_solver|rewrite length_app; lia|].
    exists input'. by rewrite H1, <- app_assoc.
Qed.

(** ** Frames over a stream *)

Section WireFacts.
Context {NF : Ndjson Frame}.

Lemma encode_frame_Ok f bytes : encode_frame f = Ok bytes ->
  frame_validate f = Ok tt /\ bytes = nd_encode f ++ [newline] /\ len (nd_encode f) + 1 <= MAX_FRAME_BYTES.
Proof.
  unfold encode_frame. intros H. destruct (frame_validate f) as [[]| |]; try discriminate H. cbn [obind] in H.
  destruct (len (nd_encode f ++ [newline]) <=? MAX_FRAME_BYTES) eqn:E; try discriminate H. injection H as <-.
  apply N.leb_le in E. unfold len in *. rewrite length_app in E. cbn [length] in E. split_and!; [done|done|lia].
Qed.

Lemma decode_counted_Ok line f n : decode_counted_frame line = Ok (f, n) -> frame_validate f = Ok tt /\ n = len line + 1.
Proof.
  unfold decode_counted_frame. destruct (nd_decode line) as [g|]; [|done]. cbn [ok_or obind].
  destruct (frame_validate g) as [[]| |] eqn:E; [|done..]. cbn [obind]. by intros [= <- <-].
Qed.

(** ** Budgets and deadlines *)

(** A line that was read with a budget: its size, and where it came from. *)
Lemma read_line_until_Ok clock cap deadline input : forall i line input' l,
  read_line_capped_until clock cap deadline i line input = (input', Ok l) ->
  exists l', l = line ++ l' /\ newline ∉ l' /\ len l + 1 <= cap /\ stream input = l' ++ newline :: stream input' /\
    read_line_capped cap line input = (input', Ok l).
Proof.
  induction input as [|a input IH]; intros i line input' l; cbn [read_line_capped_until];
    (destruct (deadline <=? (clock i).1); [discriminate|]); destruct (deadline <=? (clock i).2); try (by destruct a); try done.
  destruct a as [bs| |]; try discriminate. cbn [read_line_capped]. pose proof (newline_at_split bs) as Hn.
  destruct (newline_at bs) as [k|].
  - destruct Hn as [Hn1 Hn2]. destruct (cap <? _) eqn:Ec; [discriminate|]. apply N.ltb_ge in Ec. intros [= <- <-].
    exists (take k bs). split_and!; [done|done| |..|done].
    + unfold len in *. rewrite length_app, length_take. lia.
    + unfold consume. change (stream (Data bs :: input)) with (bs ++ stream input). rewrite Hn2 at 1. rewrite <- app_assoc.
      cbn [app]. by destruct (drop (k + 1) bs).
  - destruct (cap <? _); [discriminate|]. intros H. apply IH in H as (l' & -> & Hnl & Hlen & Hs & Hr). exists (bs ++ l').
    split_and!; [by rewrite app_assoc|set_solver|done| |done].
    change (stream (Data bs :: input)) with (bs ++ stream input). by rewrite Hs, <- app_assoc.
Qed.

Lemma read_line_until_in_time clock cap deadline input : forall i line input' l,
  read_line_capped_until clock cap deadline i line input = (input', Ok l) -> (clock i).1 < deadline /\ (clock i).2 < deadline.
Proof.
  destruct input as [|a input]; intros i line input' l; cbn [read_line_capped_until];
    (destruct (deadline <=? (clock i).1) eqn:E1; [discriminate|]); destruct (deadline <=? (clock i).2) eqn:E2;
    try (by destruct a); try done; apply N.leb_gt in E1; apply N.leb_gt in E2; done.
Qed.

(** What a receive takes off the stream. *)
Lemma received_bytes clock budget deadline input input' f n :
  recv_frame_counted_until clock budget deadline input = (input', Ok (f, n)) -> len (stream input) = n + len (stream input').
Proof.
  unfold recv_frame_counted_until. destruct (_ =? 0); [discriminate|].
  destruct (read_line_capped_until _ _ _ _ _ _) as [input1 [line|e|]] eqn:E; [|discriminate..]. cbn [map_err obind].
  intros [= <- Hd]. apply read_line_until_Ok in E as (l' & -> & _ & _ & -> & _). apply decode_counted_Ok in Hd as [_ ->].
  unfold len. rewrite length_app. cbn [length app]. lia.
Qed.

Lemma receive_positive clock budget deadline input input' f n :
  recv_frame_counted_until clock budget deadline input = (input', Ok (f, n)) -> 0 < n.
Proof.
  unfold recv_frame_counted_until. destruct (_ =? 0); [discriminate|].
  destruct (read_line_capped_until _ _ _ _ _ _) as [input1 [line|e|]]; [|discriminate..]. cbn [map_err obind].
  intros [= <- Hd]. apply decode_counted_Ok in Hd as [_ ->]. lia.
Qed.

(** A read never gives bytes back. *)
Lemma read_until_shrinks clock cap deadline input : forall i line,
  len (stream (read_line_capped_until clock cap deadline i line input).1) <= len (stream input).
Proof.
  induction input as [|a input IH]; intros i line; cbn [read_line_capped_until]; (destruct (deadline <=? (clock i).1); [done|]);
    destruct (deadline <=? (clock i).2); try done; destruct a as [bs| |]; try done.
  change (stream (Data bs :: input)) with (bs ++ stream input). destruct (newline_at bs) as [k|].
  - destruct (cap <? _); [done|]. cbn [fst]. unfold consume. pose proof (length_drop bs (k + 1)) as Hd. unfold len.
    destruct (drop (k + 1) bs) as [|b l]; [rewrite length_app; lia|].
    change (stream (Data (b :: l) :: input)) with ((b :: l) ++ stream input). rewrite !length_app, Hd. lia.
  - destruct (cap <? _); [done|]. etrans; [apply IH|]. unfold len. rewrite length_app. lia.
Qed.

Lemma recv_until_shrinks clock budget deadline input :
  len (stream (recv_frame_counted_until clock budget deadline input).1) <= len (stream input).
Proof.
  unfold recv_frame_counted_until. destruct (_ =? 0); [done|].
  pose proof (read_until_shrinks clock (N.min budget MAX_FRAME_BYTES) deadline input 0 []) as H.
  by destruct (read_line_capped_until _ _ _ _ _ _).
Qed.

(** A received frame respects the caller's bounds. When a receive with a
    budget and a deadline gives a frame, the frame satisfies the wire contract,
    its line was cut out of the stream at the first newline, its size is what
    was consumed and is within both the budget and the protocol's cap, and the
    receive without a deadline gives the same; and an exhausted budget reads
    nothing. *)
Theorem receive_within_budget clock budget deadline input input' f n :
  recv_frame_counted_until clock budget deadline input = (input', Ok (f, n)) ->
  frame_validate f = Ok tt /\ n <= budget /\ n <= MAX_FRAME_BYTES /\ (clock 0%nat).1 < deadline /\
  (exists line, newline ∉ line /\ stream input = line ++ newline :: stream input' /\ n = len line + 1 /\
     decode_counted_frame line = Ok (f, n)) /\
  (budget < MAX_FRAME_BYTES -> (read_line_capped budget [] input).1 = input').
Proof.
  unfold recv_frame_counted_until. destruct (_ =? 0); [discriminate|].
  destruct (read_line_capped_until _ _ _ _ _ _) as [input1 [line|e|]] eqn:E; [|discriminate..]. cbn [map_err obind].
  intros [= <- Hd]. destruct (read_line_until_in_time _ _ _ _ _ _ _ _ E) as [Ht _].
  apply read_line_until_Ok in E as (l' & -> & Hnl & Hlen & Hs & Hr). cbn [app] in *. destruct (decode_counted_Ok _ _ _ Hd) as [Hv ->].
  split_and!; [done|lia|lia|done|by exists l'|]. intros Hb. rewrite N.min_l in Hr by lia. by rewrite Hr.
Qed.

(** What [send_frame_until] leaves on the stream. *)
Lemma write_until_prefix clock deadline answers : forall i sent rest out r,
  write_until clock deadline i sent rest answers = (out, r) ->
  exists k, out = sent ++ take k rest /\ (r = Ok tt -> out = sent ++ rest) /\ r <> Panic.
Proof.
  induction answers as [|a answers IH]; intros i sent rest out r; destruct rest as [|b rest]; cbn [write_until];
    try (intros [= <- <-]; exists 0%nat; rewrite ?app_nil_r; done).
  destruct (deadline <=? clock i); [intros [= <- <-]; exists 0%nat; by rewrite app_nil_r|]. destruct a as [count| | |].
  - destruct (count =? 0); [intros [= <- <-]; exists 0%nat; by rewrite app_nil_r|]. intros H.
    apply IH in H as (k & -> & Hok & Hp). exists (N.to_nat count + k)%nat. split_and!; [|intros Hr|done].
    + by rewrite <- app_assoc, take_take_drop.
    + rewrite (Hok Hr), <- app_assoc. by rewrite take_drop.
  - intros [= <- <-]. exists 0%nat. by rewrite app_nil_r.
  - apply IH.
  - intros [= <- <-]. exists 0%nat. by rewrite app_nil_r.
Qed.

(** ** Round trips *)

Context (plain : Frame -> Prop) {LF : NdjsonLaws Frame plain}.

(** The wire bytes of a frame. *)
Definition wire (f : Frame) : list byte := nd_encode f ++ [newline].

Lemma recv_first f input rest : is_ok (encode_frame f) = true -> plain f -> delivered input ->
  stream input = wire f ++ rest ->
  exists input', recv_frame_counted input = (input', Ok (f, len (wire f))) /\ delivered input' /\ stream input' = rest.
Proof.
  intros Hok Hp Hd Hs. destruct (is_ok_Ok _ Hok) as [bytes Hb]. apply encode_frame_Ok in Hb as (Hv & -> & Hlen).
  unfold wire in Hs. rewrite <- app_assoc in Hs.
  destruct (read_line_delivered MAX_FRAME_BYTES input [] (nd_encode f) rest Hd Hs) as (input' & H1 & H2 & H3).
  { apply nd_encode_no_newline. }
  { unfold len in *. cbn [length]. lia. }
  exists input'. split_and!; [|done|done]. unfold recv_frame_counted. rewrite H1. cbn [app obind]. unfold decode_counted_frame.
  rewrite nd_decode_encode by done. cbn [ok_or obind]. rewrite Hv. cbn [obind]. unfold wire, len. rewrite length_app.
  cbn [length]. do 3 f_equal. lia.
Qed.

(** C38: What is sent is what is received. Any sequence of frames that the
    encoder accepts, written one after the other and delivered in pieces of any
    size, is received as exactly these frames in this order, each with the
    number of bytes it took on the wire, and then the end of the stream. *)
Theorem frames_received fs input : Forall (fun f => is_ok (encode_frame f) = true /\ plain f) fs -> delivered input ->
  stream input = concat (map wire fs) ->
  recv_all (S (length fs)) input = (map (fun f => (f, len (wire f))) fs, Some ConnectionClosed).
Proof.
  intros Hfs. revert input. induction Hfs as [|f fs [Hok Hp] _ IH]; intros input Hd Hs.
  - destruct Hd as [|a input (b & bs & ->) _]; [done|]. discriminate Hs.
  - cbn [map concat] in Hs. destruct (recv_first f input _ Hok Hp Hd Hs) as (input' & H1 & H2 & H3).
    cbn [length]. remember (S (length fs)) as n. cbn [recv_all]. rewrite H1, (IH input' H2 H3). done.
Qed.

End WireFacts.

(** ** Two requests, one byte at a time *)

From S2P Require Import ConcreteLines.

Module WireDemo.
#[export] Instance frame_lines : Ndjson Frame := {
  nd_encode f := match f with GetBlocks from to => nd_encode (from, to) | _ => [x32] end;
  nd_decode l := (fun range => GetBlocks range.1 range.2) <$> nd_decode l
}.

Definition is_request (f : Frame) : Prop := match f with GetBlocks _ _ => True | _ => False end.

#[export] Instance frame_lines_laws : NdjsonLaws Frame is_request.
Proof.
  pose proof (countable_ndjson_laws (fun _ : N * N => True)) as L.
  split; intros f; (destruct f as [? ? ? ? ? ? ?|?|? ?|from to|?|?|? ?]; cbn [is_request nd_encode nd_decode frame_lines]; try done).
  - intros _. by rewrite (nd_decode_encode (plain := fun _ => True)).
  - apply (nd_encode_nonempty (plain := fun _ => True)).
  - set_solver.
  - set_solver.
  - set_solver.
  - apply (nd_encode_no_newline (plain := fun _ => True)).
  - set_solver.
  - set_solver.
  - set_solver.
  - apply (nd_encode_no_return (plain := fun _ => True)).
  - apply (nd_encode_utf8 (plain := fun _ => True)).
Qed.

Definition requests : list Frame := [GetBlocks 3 5; GetBlocks 0 255].
Definition trickle (bytes : list byte) : list Arrival := map (fun b => Data [b]) bytes.

Lemma trickle_delivered bytes : delivered (trickle bytes).
Proof. induction bytes; constructor; [by eexists _, _|done]. Qed.

Lemma trickle_stream bytes : stream (trickle bytes) = bytes.
Proof. induction bytes as [|b bytes IH]; [done|]. cbn. by f_equal. Qed.

Definition arrivals : list Arrival := trickle (concat (map wire requests)).
Definition clock (i : nat) : N * N := (N.of_nat i, N.of_nat i).
End WireDemo.
Import WireDemo.

Lemma frames_received_witness : recv_all 3 WireDemo.arrivals =
  (map (fun f => (f, len (wire f))) WireDemo.requests, Some ConnectionClosed).
Proof.
  apply (frames_received WireDemo.is_request WireDemo.requests WireDemo.arrivals).
  - repeat constructor.
  - apply WireDemo.trickle_delivered.
  - apply WireDemo.trickle_stream.
Defined.

Lemma receive_within_budget_witness :
  exists n, (recv_frame_counted_until WireDemo.clock 64 1000 WireDemo.arrivals).2 = Ok (GetBlocks 3 5, n) /\ n <= 64.
Proof.
  destruct (recv_frame_counted_until WireDemo.clock 64 1000 WireDemo.arrivals) as [input' [[f n]| |]] eqn:E;
    [|vm_compute in E; discriminate E..].
  exists n. destruct (receive_within_budget WireDemo.clock 64 1000 WireDemo.arrivals input' f n E) as (_ & Hn & _).
  split; [|exact Hn]. vm_compute in E. injection E as _ <- <-. reflexivity.
Defined.
