(* ===== verification/P2pLifecycle.v ===== *)
(** * Shutting down peer work (boole-node/src/p2p_lifecycle.rs)

    One stop flag, a gate that mutations pass, and a registry of sockets, used by
    any number of threads. Each atomic access of the code is a step: loads and
    stores of the flag, and acquiring and releasing the two locks. The gate is a
    readers-writer lock whose readers are mutations and whose writer is [stop];
    the registry is behind a mutex. *)

From S2P Require Import Prelude.

(** Where a thread is. *)
Inductive Pc :=
| Idle                  (* outside *)
| AtGate                (* [begin_mutation]: read guard taken, flag not yet read *)
| Mutating              (* [begin_mutation] gave a permit *)
| Registering (id : N)  (* [register]: mutex taken, flag read as unset *)
| Requested             (* [request_stop]: flag stored *)
| Closed                (* [request_stop] returned: sockets shut, waiters woken *)
| Barred                (* [stop]: write guard taken *)
| Stopped.              (* [stop] returned *)

#[export] Instance Pc_eq_dec : EqDecision Pc.
Proof. solve_decision. Defined.

(** The flag, the registered sockets (whether each is open), the threads. *)
Record P2pLifecycle := mkLifecycle {
  lc_stopped : bool;
  lc_next_socket_id : N;
  lc_sockets : gmap N bool;
  lc_threads : list Pc
}.

Definition lifecycle_new (threads : nat) : P2pLifecycle := mkLifecycle false 1 ∅ (replicate threads Idle).

Definition move (l : P2pLifecycle) (t : nat) (pc : Pc) : P2pLifecycle :=
  mkLifecycle (lc_stopped l) (lc_next_socket_id l) (lc_sockets l) (<[t := pc]> (lc_threads l)).

(** The locks, by who holds them. *)
Definition reads_gate (pc : Pc) : bool := match pc with AtGate | Mutating => true | _ => false end.
Definition holds_gate (pc : Pc) : bool := match pc with AtGate | Mutating | Barred => true | _ => false end.
Definition holds_registry (pc : Pc) : bool := match pc with Registering _ => true | _ => false end.
Definition nobody (holds : Pc -> bool) (l : P2pLifecycle) : Prop := Forall (fun pc => holds pc = false) (lc_threads l).

Inductive lifecycle_step : P2pLifecycle -> P2pLifecycle -> Prop :=
| enter_gate l t : lc_threads l !! t = Some Idle -> nobody (fun pc => bool_decide (pc = Barred)) l -> lifecycle_step l (move l t AtGate)
| gate_refused l t : lc_threads l !! t = Some AtGate -> lc_stopped l = true -> lifecycle_step l (move l t Idle)
| gate_passed l t : lc_threads l !! t = Some AtGate -> lc_stopped l = false -> lifecycle_step l (move l t Mutating)
| drop_permit l t : lc_threads l !! t = Some Mutating -> lifecycle_step l (move l t Idle)
| register_lock l t : lc_threads l !! t = Some Idle -> nobody holds_registry l -> lc_stopped l = false ->
    lifecycle_step l (mkLifecycle false ((lc_next_socket_id l + 1) mod 2 ^ 64) (lc_sockets l) (<[t := Registering (lc_next_socket_id l)]> (lc_threads l)))
| register_insert l t id : lc_threads l !! t = Some (Registering id) ->
    lifecycle_step l (mkLifecycle (lc_stopped l) (lc_next_socket_id l) (<[id := true]> (lc_sockets l)) (<[t := Idle]> (lc_threads l)))
| drop_lease l id : nobody holds_registry l ->
    lifecycle_step l (mkLifecycle (lc_stopped l) (lc_next_socket_id l) (delete id (lc_sockets l)) (lc_threads l))
| request_store l t : lc_threads l !! t = Some Idle ->
    lifecycle_step l (mkLifecycle true (lc_next_socket_id l) (lc_sockets l) (<[t := Requested]> (lc_threads l)))
| request_close l t : lc_threads l !! t = Some Requested -> nobody holds_registry l ->
    lifecycle_step l (mkLifecycle (lc_stopped l) (lc_next_socket_id l) ((fun _ => false) <$> lc_sockets l) (<[t := Closed]> (lc_threads l)))
| stop_barrier l t : lc_threads l !! t = Some Closed -> nobody holds_gate l -> lifecycle_step l (move l t Barred)
| stop_return l t : lc_threads l !! t = Some Barred -> lifecycle_step l (move l t Stopped).

Definition reachable_lifecycle (threads : nat) (l : P2pLifecycle) : Prop := rtc lifecycle_step (lifecycle_new threads) l.

(** ** The invariant *)

(** How far a shutdown got. *)
Definition past_store (pc : Pc) : bool := match pc with Requested | Closed | Barred | Stopped => true | _ => false end.
Definition past_close (pc : Pc) : bool := match pc with Closed | Barred | Stopped => true | _ => false end.
Definition past_barrier (pc : Pc) : bool := match pc with Barred | Stopped => true | _ => false end.

Record lifecycle_ok (l : P2pLifecycle) : Prop := {
  lk_flag t pc : lc_threads l !! t = Some pc -> past_store pc = true -> lc_stopped l = true;
  lk_sockets t pc : lc_threads l !! t = Some pc -> past_close pc = true ->
    nobody holds_registry l /\ forall id open, lc_sockets l !! id = Some open -> open = false;
  lk_permits t pc : lc_threads l !! t = Some pc -> past_barrier pc = true -> nobody (fun pc => bool_decide (pc = Mutating)) l;
  lk_writer t u : lc_threads l !! t = Some Barred -> lc_threads l !! u = Some Barred -> t = u
}.

(** A thread after another one moved. *)
Lemma moved (ths : list Pc) t pc u pcu : <[t := pc]> ths !! u = Some pcu -> (u = t /\ pcu = pc) \/ ths !! u = Some pcu.
Proof. intros H. apply list_lookup_insert_Some in H as [(-> & -> & _)|[_ H]]; [by left|by right]. Qed.

Lemma nobody_lookup holds l : nobody holds l <-> forall t pc, lc_threads l !! t = Some pc -> holds pc = false.
Proof. apply Forall_lookup. Qed.

(** The thread that moved, or another one. *)
Ltac threads H := cbn [lc_threads lc_stopped lc_sockets move] in *; try (apply moved in H as [[-> ->]|H]).

Lemma flag_kept l l' : lifecycle_step l l' -> lifecycle_ok l -> forall t pc, lc_threads l' !! t = Some pc -> past_store pc = true ->
  lc_stopped l' = true.
Proof.
  intros Hstep [I1 _ _ _] t pc H Hp. destruct Hstep; threads H; try discriminate; try done; try (by eapply I1); try (by eapply (I1 _ Closed));
    try (by eapply (I1 _ Requested)); try (by eapply (I1 _ Barred)).
  pose proof (I1 _ _ H Hp). congruence.
Qed.

Lemma sockets_kept l l' : lifecycle_step l l' -> lifecycle_ok l -> forall t pc, lc_threads l' !! t = Some pc -> past_close pc = true ->
  nobody holds_registry l' /\ forall id open, lc_sockets l' !! id = Some open -> open = false.
Proof.
  intros Hstep [I1 I2 _ _] t pc H Hp. unfold nobody in *.
  destruct Hstep as [l u Hu Hn|l u Hu Hs|l u Hu Hs|l u Hu|l u Hu Hn Hs|l u id Hu|l id Hn|l u Hu|l u Hu Hn|l u Hu Hn|l u Hu]; threads H;
    try discriminate Hp.
  - destruct (I2 t pc H Hp). split; [by apply Forall_insert|done].
  - destruct (I2 t pc H Hp). split; [by apply Forall_insert|done].
  - destruct (I2 t pc H Hp). split; [by apply Forall_insert|done].
  - destruct (I2 t pc H Hp). split; [by apply Forall_insert|done].
  - rewrite (I1 t pc H) in Hs; [done|by destruct pc].
  - destruct (I2 t pc H Hp) as [Hn _]. rewrite Forall_lookup in Hn. by specialize (Hn u _ Hu).
  - destruct (I2 t pc H Hp) as [? Hs]. split; [done|]. intros id' open Ho. apply lookup_delete_Some in Ho as [_ Ho]. by apply (Hs id').
  - destruct (I2 t pc H Hp). split; [by apply Forall_insert|done].
  - split; [by apply Forall_insert|]. intros id open Ho. by apply lookup_fmap_Some in Ho as (x & <- & _).
  - split; [by apply Forall_insert|]. intros id open Ho. by apply lookup_fmap_Some in Ho as (x & <- & _).
  - destruct (I2 u _ Hu eq_refl). split; [by apply Forall_insert|done].
  - destruct (I2 t pc H Hp). split; [by apply Forall_insert|done].
  - destruct (I2 u _ Hu eq_refl). split; [by apply Forall_insert|done].
  - destruct (I2 t pc H Hp). split; [by apply Forall_insert|done].
Qed.

Lemma permits_kept l l' : lifecycle_step l l' -> lifecycle_ok l -> forall t pc, lc_threads l' !! t = Some pc -> past_barrier pc = true ->
  nobody (fun pc => bool_decide (pc = Mutating)) l'.
Proof.
  intros Hstep [I1 _ I3 _] t pc H Hp. unfold nobody in *.
  destruct Hstep as [l u Hu Hn|l u Hu Hs|l u Hu Hs|l u Hu|l u Hu Hn Hs|l u id Hu|l id Hn|l u Hu|l u Hu Hn|l u Hu Hn|l u Hu]; threads H;
    try discriminate Hp; try (apply Forall_insert; [by eapply I3|done]); try (by eapply I3).
  - rewrite (I1 t pc H) in Hs; [done|by destruct pc].
  - apply Forall_insert; [|done]. eapply Forall_impl; [exact Hn|]. intros [] Hh; try done; discriminate Hh.
Qed.

Lemma writer_kept l l' : lifecycle_step l l' -> lifecycle_ok l -> forall t u, lc_threads l' !! t = Some Barred -> lc_threads l' !! u = Some Barred ->
  t = u.
Proof.
  intros Hstep [_ _ _ I4] t u Ht Hu. destruct Hstep; cbn [lc_threads move] in *; try (apply moved in Ht as [[-> E1]|Ht]; [try discriminate E1|]);
    try (apply moved in Hu as [[-> E2]|Hu]; [try discriminate E2|]); try (by apply I4); try done.
  - rewrite nobody_lookup in *. match goal with Hn : forall t pc, _ -> holds_gate pc = false |- _ => by specialize (Hn _ _ Hu) end.
  - rewrite nobody_lookup in *. match goal with Hn : forall t pc, _ -> holds_gate pc = false |- _ => by specialize (Hn _ _ Ht) end.
Qed.

Lemma lifecycle_step_ok l l' : lifecycle_step l l' -> lifecycle_ok l -> lifecycle_ok l'.
Proof.
  intros Hs Hl. split; [by apply (flag_kept l)|by apply (sockets_kept l)|by apply (permits_kept l)|by apply (writer_kept l)].
Qed.

Lemma lifecycle_steps_ok l l' : rtc lifecycle_step l l' -> lifecycle_ok l -> lifecycle_ok l'.
Proof. induction 1; [done|]. intros Hl. by apply IHrtc, (lifecycle_step_ok x). Qed.

Lemma lifecycle_new_ok n : lifecycle_ok (lifecycle_new n).
Proof.
  split; cbn; intros t; [intros pc H Hp|intros pc H Hp|intros pc H Hp|intros u H _];
    apply lookup_replicate_1 in H as [E _]; subst; discriminate.
Qed.

(** Stopping is irrevocable. *)
Lemma stopped_step l l' t : lifecycle_step l l' -> lc_threads l !! t = Some Stopped -> lc_threads l' !! t = Some Stopped.
Proof.
  intros Hs Ht. destruct Hs; cbn [lc_threads move]; try done;
    (rewrite list_lookup_insert_ne; [done|intros ->; congruence]).
Qed.

Definition holds_lock (pc : Pc) : bool := holds_gate pc || holds_registry pc.

(** The number of threads inside a lock. *)
Definition holders (l : P2pLifecycle) : nat := length (List.filter holds_lock (lc_threads l)).

Lemma holders_insert (ths : list Pc) t pc pc' : ths !! t = Some pc -> holds_lock pc = true -> holds_lock pc' = false ->
  (length (List.filter holds_lock (<[t := pc']> ths)) < length (List.filter holds_lock ths))%nat.
Proof.
  revert t. induction ths as [|x ths IH]; intros [|t] Ht Hp Hp'; try discriminate Ht.
  - injection Ht as ->. change (<[0%nat := pc']> (pc :: ths)) with (pc' :: ths). cbn [List.filter]. rewrite Hp, Hp'. cbn [length]. lia.
  - change (<[S t := pc']> (x :: ths)) with (x :: <[t := pc']> ths). specialize (IH t Ht Hp Hp'). cbn [List.filter].
    destruct (holds_lock x); cbn [length]; lia.
Qed.

(** A thread inside a lock can leave it, without changing the flag. *)
Lemma leave_lock l t pc : lc_stopped l = true -> lc_threads l !! t = Some pc -> holds_lock pc = true ->
  exists l' pc', lifecycle_step l l' /\ lc_stopped l' = true /\ holds_lock pc' = false /\ lc_threads l' = <[t := pc']> (lc_threads l).
Proof.
  intros Hs Ht Hp. destruct pc as [| | |id| | | |]; try discriminate Hp.
  - exists (move l t Idle), Idle. split_and!; [by apply gate_refused|done|done|done].
  - exists (move l t Idle), Idle. split_and!; [by apply drop_permit|done|done|done].
  - eexists _, Idle. split_and!; [by apply (register_insert l t id)|done|done|done].
  - exists (move l t Stopped), Stopped. split_and!; [by apply stop_return|done|done|done].
Qed.

(** Once the flag is set, every thread can leave its lock. *)
Lemma locks_drain : forall n l, (holders l < n)%nat -> lc_stopped l = true -> exists l', rtc lifecycle_step l l' /\ lc_stopped l' = true /\
  nobody holds_lock l' /\ forall t pc, lc_threads l !! t = Some pc -> holds_lock pc = false -> lc_threads l' !! t = Some pc.
Proof.
  induction n as [|n IH]; intros l Hn Hs; [lia|].
  destruct (decide (Forall (fun pc => holds_lock pc = false) (lc_threads l))) as [Hf|Hf].
  { exists l. by split_and!; [apply rtc_refl|..]. }
  apply not_Forall_Exists in Hf; [|intros ?; apply _]. apply Exists_exists in Hf as (pc & Hin & Hp).
  apply list_elem_of_lookup in Hin as [t Ht]. apply not_false_is_true in Hp.
  destruct (leave_lock l t pc Hs Ht Hp) as (l1 & pc1 & H1 & Hs1 & Hp1 & Hths).
  destruct (IH l1) as (l' & H2 & Hs' & Hn' & Hk); [|done|].
  { unfold holders. rewrite Hths. pose proof (holders_insert _ _ _ _ Ht Hp Hp1). unfold holders in Hn. lia. }
  exists l'. split_and!; [by eapply rtc_l|done|done|]. intros u pcu Hu Hpu. apply Hk; [|done]. rewrite Hths.
  rewrite list_lookup_insert_ne; [done|]. intros ->. congruence.
Qed.

(** C36: Stopping is final. When [stop] has returned to some thread, then from
    that moment on, under every schedule, no mutation is in progress or begins,
    and every registered socket is shut down. *)
Theorem stop_is_final threads l l' t : reachable_lifecycle threads l -> lc_threads l !! t = Some Stopped -> rtc lifecycle_step l l' ->
  lc_stopped l' = true /\ (forall u, lc_threads l' !! u <> Some Mutating) /\
  (forall u id, lc_threads l' !! u <> Some (Registering id)) /\ (forall id open, lc_sockets l' !! id = Some open -> open = false).
Proof.
  intros Hr Ht Hs. assert (Hl : lifecycle_ok l) by (eapply lifecycle_steps_ok; [exact Hr|apply lifecycle_new_ok]).
  assert (Ht' : lc_threads l' !! t = Some Stopped) by (clear Hl Hr; induction Hs; [done|]; by eapply IHHs, stopped_step).
  apply (lifecycle_steps_ok l l' Hs) in Hl as [I1 I2 I3 _]. destruct (I2 t _ Ht' eq_refl) as [Hreg Hsock].
  pose proof (I3 t _ Ht' eq_refl) as Hmut. rewrite nobody_lookup in Hreg, Hmut.
  split_and!; [by apply (I1 t Stopped)| | |done].
  - intros u Hu. by specialize (Hmut u _ Hu).
  - intros u id Hu. by specialize (Hreg u _ Hu).
Qed.

(** C37: Stopping can always finish. From every reachable state in which a thread
    has called [stop], whatever the other threads are doing, a schedule lets it
    return: nothing in the gate or the registry can block it for good. *)
Theorem stop_can_return threads l t pc : reachable_lifecycle threads l -> lc_threads l !! t = Some pc -> past_store pc = true ->
  exists l', rtc lifecycle_step l l' /\ lc_threads l' !! t = Some Stopped.
Proof.
  intros Hr Ht Hp. assert (Hl : lifecycle_ok l) by (eapply lifecycle_steps_ok; [exact Hr|apply lifecycle_new_ok]).
  pose proof (lk_flag _ Hl t pc Ht Hp) as Hs.
  assert (Hlen : forall (ths : list Pc) pcx pcy, ths !! t = Some pcx -> <[t := pcy]> ths !! t = Some pcy)
    by (intros ths pcx pcy H; apply list_lookup_insert_eq; by eapply lookup_lt_Some).
  assert (Hbar : forall m, nobody holds_lock m -> lc_threads m !! t = Some Closed -> exists l', rtc lifecycle_step m l' /\ lc_threads l' !! t = Some Stopped).
  { intros m Hn Hm. exists (move (move m t Barred) t Stopped). split; [|cbn; by eapply Hlen, Hlen].
    eapply rtc_l; [apply stop_barrier; [done|]|apply rtc_once, stop_return; by eapply Hlen].
    eapply Forall_impl; [exact Hn|]. intros x. unfold holds_lock. by destruct (holds_gate x). }
  destruct (locks_drain _ l (Nat.lt_succ_diag_r _) Hs) as (m & Hm & _ & Hn & Hk).
  destruct pc; try discriminate Hp.
  - specialize (Hk t _ Ht eq_refl).
    set (m1 := mkLifecycle (lc_stopped m) (lc_next_socket_id m) ((fun _ => false) <$> lc_sockets m) (<[t := Closed]> (lc_threads m))).
    destruct (Hbar m1) as (l' & H1 & H2); [by apply Forall_insert|by eapply Hlen|]. exists l'. split; [|done].
    etrans; [exact Hm|]. eapply rtc_l; [|exact H1]. apply request_close; [done|]. eapply Forall_impl; [exact Hn|].
    intros x. unfold holds_lock. destruct (holds_gate x); [done|]. done.
  - destruct (Hbar m Hn (Hk t _ Ht eq_refl)) as (l' & H1 & H2). exists l'. split; [by etrans|done].
  - exists (move l t Stopped). split; [by apply rtc_once, stop_return|by eapply Hlen].
  - exists l. split; [apply rtc_refl|done].
Qed.

(** ** Witnesses *)

Module LifecycleDemo.
Definition start : P2pLifecycle := lifecycle_new 2.
Definition gate : P2pLifecycle := move start 0 AtGate.
Definition asked : P2pLifecycle := mkLifecycle true 1 ∅ [AtGate; Requested].
Definition closed : P2pLifecycle := mkLifecycle true 1 ((fun _ => false) <$> (∅ : gmap N bool)) [AtGate; Closed].
Definition refused : P2pLifecycle := mkLifecycle true 1 ((fun _ => false) <$> (∅ : gmap N bool)) [Idle; Closed].
Definition barred : P2pLifecycle := mkLifecycle true 1 ((fun _ => false) <$> (∅ : gmap N bool)) [Idle; Barred].
Definition stopped : P2pLifecycle := mkLifecycle true 1 ((fun _ => false) <$> (∅ : gmap N bool)) [Idle; Stopped].

(** A mutation arrives at the gate, the other thread stops, the mutation is refused. *)
Lemma asked_reachable : reachable_lifecycle 2 asked.
Proof.
  eapply rtc_l; [apply (enter_gate start 0%nat); [reflexivity|repeat constructor]|].
  apply rtc_once. exact (request_store gate 1%nat eq_refl).
Qed.

Lemma stopped_reachable : reachable_lifecycle 2 stopped.
Proof.
  unfold reachable_lifecycle. etrans; [exact asked_reachable|].
  eapply rtc_l; [apply (request_close asked 1%nat); [reflexivity|repeat constructor]|].
  eapply rtc_l; [exact (gate_refused closed 0%nat eq_refl eq_refl)|].
  eapply rtc_l; [apply (stop_barrier refused 1%nat); [reflexivity|repeat constructor]|].
  apply rtc_once. exact (stop_return barred 1%nat eq_refl).
Qed.
End LifecycleDemo.

Lemma stop_is_final_witness : lc_threads LifecycleDemo.stopped !! 0%nat <> Some Mutating.
Proof.
  destruct (stop_is_final 2 LifecycleDemo.stopped LifecycleDemo.stopped 1 LifecycleDemo.stopped_reachable eq_refl (rtc_refl _ _)) as (_ & H & _).
  apply H.
Defined.

Lemma stop_can_return_witness : exists l', rtc lifecycle_step LifecycleDemo.asked l' /\ lc_threads l' !! 1%nat = Some Stopped.
Proof. exact (stop_can_return 2 LifecycleDemo.asked 1 Requested LifecycleDemo.asked_reachable eq_refl eq_refl). Defined.
