(* ===== verification/LenBound.v ===== *)
(** * The base-lane problem family (boole-core/src/family_v1_lenbound.rs)

    A seed selects a chain of list operations and the theorem that the chain
    does not lengthen its input; the module renders the theorem and a proof of
    it. The meaning of an operation is that of the Lean definitions the rendered
    module imports (lean/checker/Boole/Family/V0Helpers.lean). *)

From S2P Require Import Prelude Externals.

Inductive Pred :=
| Even
| Odd
| LtK (k : Z)
| GtK (k : Z)
| EqK (k : Z)
| ModK (k r : Z).

Inductive Op :=
| FilterP (p : Pred)
| MapAdd (k : Z)
| MapMul (k : Z)
| Dedup
| SortAsc.

Record V1Instance := mkInstance { i_d : N; i_chain : list Op }.

(** ** Reading the seed *)

Record Cursor := mkCursor { c_buf : list byte; c_pos : nat }.

Definition cursor_new (buf : list byte) : Cursor := mkCursor buf 0.

Definition read_nat (c : Cursor) (mod_n : N) : N * Cursor :=
  match c_buf c !! (c_pos c mod length (c_buf c))%nat with
  | Some b => if mod_n =? 0 then (0, c) else (Byte.to_N b mod mod_n, mkCursor (c_buf c) (S (c_pos c)))
  | None => (0, c)
  end.

Definition choose_int (c : Cursor) (range_n : N) : Z * Cursor :=
  let '(n, c) := read_nat c (range_n * 2 + 1) in ((Z.of_N n - Z.of_N range_n)%Z, c).

Definition gen_pred (c : Cursor) : Pred * Cursor :=
  let '(tag, c) := read_nat c 6 in
  match tag with
  | 0 => (Even, c)
  | 1 => (Odd, c)
  | 2 => let '(k, c) := choose_int c 9 in (LtK k, c)
  | 3 => let '(k, c) := choose_int c 9 in (GtK k, c)
  | 4 => let '(k, c) := choose_int c 9 in (EqK k, c)
  | _ =>
      let '(k_raw, c) := read_nat c 5 in
      let '(r, c) := read_nat c 6 in
      (ModK (Z.of_N k_raw + 2) (Z.of_N r), c)
  end.

Definition gen_length_reducing_op (c : Cursor) : Op * Cursor :=
  let '(tag, c) := read_nat c 2 in
  match tag with
  | 0 => let '(p, c) := gen_pred c in (FilterP p, c)
  | _ => (Dedup, c)
  end.

Definition gen_context_op (c : Cursor) : Op * Cursor :=
  let '(tag, c) := read_nat c 3 in
  match tag with
  | 0 => let '(k, c) := choose_int c 9 in (MapAdd k, c)
  | 1 => let '(k, c) := read_nat c 5 in (MapMul (Z.of_N k + 1), c)
  | _ => (SortAsc, c)
  end.

(** One turn of the loop; the last arm is [unreachable!()]. *)
Definition gen_op (reducer_index context_index i : N) (c : Cursor) : outcome Empty_set (Op * Cursor) :=
  if i =? reducer_index then Ok (gen_length_reducing_op c)
  else if i =? context_index then Ok (gen_context_op c)
  else
    let '(tag, c) := read_nat c 5 in
    match tag with
    | 0 => Ok (gen_length_reducing_op c)
    | 1 | 2 | 3 | 4 => Ok (gen_context_op c)
    | _ => Panic
    end.

Definition gen_step (reducer_index context_index : N) (st : list Op * Cursor) (i : nat)
    : outcome Empty_set (list Op * Cursor) :=
  let* r := gen_op reducer_index context_index (N.of_nat i) st.2 in
  Ok (st.1 ++ [r.1], r.2).

Definition generate_v1_lenbound (seed : list byte) : outcome Empty_set V1Instance :=
  let '(d_raw, c) := read_nat (cursor_new seed) 6 in
  let chain_len := d_raw mod 5 + 2 in
  let '(reducer_index, c) := read_nat c chain_len in
  let '(context_index, c) :=
    if chain_len =? 1 then (0, c)
    else let '(r, c) := read_nat c (chain_len - 1) in ((reducer_index + 1 + r) mod chain_len, c) in
  let* st := ofold (gen_step reducer_index context_index) ([], c) (seq 0 (N.to_nat chain_len)) in
  Ok (mkInstance d_raw st.1).

Definition generate_from_hex {X : Externals} (seed_hex : string) : option (outcome Empty_set V1Instance) :=
  generate_v1_lenbound <$> hex_decode seed_hex.

(** ** Rendering *)

(** The decimal text of an [i64]. *)
Definition z_decimal (z : Z) : string :=
  if (z <? 0)%Z then "-" +:+ to_decimal (Z.to_N (- z)) else to_decimal (Z.to_N z).

Definition render_int (k : Z) : string := "(" +:+ z_decimal k +:+ " : Int)".

Definition render_pred_to_bool (p : Pred) : string :=
  match p with
  | Even => "(fun x : Int => x % 2 == 0)"
  | Odd => "(fun x : Int => x % 2 != 0)"
  | LtK k => "(fun x : Int => decide (x < " +:+ render_int k +:+ "))"
  | GtK k => "(fun x : Int => decide (" +:+ render_int k +:+ " < x))"
  | EqK k => "(fun x : Int => x == " +:+ render_int k +:+ ")"
  | ModK k r => "(fun x : Int => x % " +:+ render_int k +:+ " == " +:+ render_int r +:+ ")"
  end.

Definition render_op_apply (op : Op) (inner : string) : string :=
  match op with
  | FilterP p => "(filterByPred " +:+ render_pred_to_bool p +:+ " " +:+ inner +:+ ")"
  | MapAdd k => "(mapAdd " +:+ render_int k +:+ " " +:+ inner +:+ ")"
  | MapMul k => "(mapMul " +:+ render_int k +:+ " " +:+ inner +:+ ")"
  | Dedup => "(dedup " +:+ inner +:+ ")"
  | SortAsc => "(sortAsc " +:+ inner +:+ ")"
  end.

Definition render_chain_expr (chain : list Op) (var : string) : string :=
  fold_left (fun expr op => render_op_apply op expr) chain var.

Definition theorem_rhs (inst : V1Instance) : string :=
  "(" +:+ render_chain_expr (i_chain inst) "xs" +:+ ").length ≤ xs.length".

Definition render_step_lemma_le (op : Op) (input_expr : string) : string :=
  match op with
  | FilterP p => "Boole.Family.V0Helpers.length_filterByPred_le " +:+ render_pred_to_bool p +:+ " " +:+ input_expr
  | MapAdd k => "Nat.le_of_eq (Boole.Family.V0Helpers.length_mapAdd " +:+ render_int k +:+ " " +:+ input_expr +:+ ")"
  | MapMul k => "Nat.le_of_eq (Boole.Family.V0Helpers.length_mapMul " +:+ render_int k +:+ " " +:+ input_expr +:+ ")"
  | Dedup => "Boole.Family.V0Helpers.length_dedup_le " +:+ input_expr
  | SortAsc => "Nat.le_of_eq (Boole.Family.V0Helpers.length_sortAsc " +:+ input_expr +:+ ")"
  end.

(** The running expressions, the last one being the whole chain. *)
Definition chain_exprs (chain : list Op) : list string :=
  fold_left (fun exprs op => exprs ++ [render_op_apply op (default "" (last exprs))]) chain ["xs"].

(** The two lines of one step of the [calc] block. *)
Definition calc_step (chain : list Op) (exprs : list string) (idx : nat) : list string :=
  match chain !! idx, exprs !! idx, exprs !! S idx with
  | Some op, Some input_expr, Some output_expr =>
      let prefix := if Nat.eqb idx (length chain - 1) then "    (" +:+ output_expr +:+ ").length" else "    _" in
      [prefix +:+ " ≤ (" +:+ input_expr +:+ ").length := by"; "      exact " +:+ render_step_lemma_le op input_expr]
  | _, _, _ => []
  end.

Definition render_canonical_proof (inst : V1Instance) : string :=
  let chain := i_chain inst in
  let exprs := chain_exprs chain in
  String.concat (String (ascii_of_N 10) "")
    (["by"; "  intro xs"; "  calc"] ++ flat_map (calc_step chain exprs) (rev (seq 0 (length chain)))).

Definition VERIFY_NAMESPACE : string := "BooleVerifyMod".
Definition VERIFY_THEOREM : string := "instance_thm".

Definition lean_module (inst : V1Instance) (proof_term : string) : string :=
  String.concat (String (ascii_of_N 10) "")
    ["import Boole.Family.V0Helpers"; ""; "namespace " +:+ VERIFY_NAMESPACE; ""; "open Boole.Family.V0Helpers"; "";
     "theorem " +:+ VERIFY_THEOREM +:+ " : ∀ (xs : List Int),"; "    " +:+ theorem_rhs inst +:+ " :="; proof_term; "";
     "end " +:+ VERIFY_NAMESPACE; ""].

Definition render_text (inst : V1Instance) : string :=
  "theorem " +:+ VERIFY_THEOREM +:+ " : ∀ (xs : List Int), " +:+ theorem_rhs inst.

(** ** What the rendered operations mean (V0Helpers.lean) *)

Definition pred_holds (p : Pred) (x : Z) : bool :=
  match p with
  | Even => (x mod 2 =? 0)%Z
  | Odd => negb (x mod 2 =? 0)%Z
  | LtK k => (x <? k)%Z
  | GtK k => (k <? x)%Z
  | EqK k => (x =? k)%Z
  | ModK k r => (x mod k =? r)%Z
  end.

(** [List.eraseDups]: the first occurrences, in order. *)
Fixpoint erase_dups_loop (l seen : list Z) : list Z :=
  match l with
  | [] => rev seen
  | x :: l' => if existsb (Z.eqb x) seen then erase_dups_loop l' seen else erase_dups_loop l' (x :: seen)
  end.

Definition run_op (op : Op) (xs : list Z) : list Z :=
  match op with
  | FilterP p => List.filter (pred_holds p) xs
  | MapAdd k => map (fun x => x + k)%Z xs
  | MapMul k => map (fun x => x * k)%Z xs
  | Dedup => erase_dups_loop xs []
  | SortAsc => sort_by Z.compare xs
  end.

Definition run_chain (chain : list Op) (xs : list Z) : list Z := fold_left (fun acc op => run_op op acc) chain xs.

(** ** The generated instances *)

Definition is_reducer (op : Op) : bool := match op with FilterP _ | Dedup => true | _ => false end.

(** The parameters stay in the ranges of the generator. *)
Definition op_bounded (op : Op) : Prop :=
  match op with
  | FilterP (LtK k | GtK k | EqK k) => (-9 <= k <= 9)%Z
  | FilterP (ModK k r) => (2 <= k <= 6 /\ 0 <= r <= 5)%Z
  | MapAdd k => (-9 <= k <= 9)%Z
  | MapMul k => (1 <= k <= 5)%Z
  | _ => True
  end.

Lemma read_nat_bound c n : n <> 0 -> (read_nat c n).1 < n.
Proof.
  intros Hn. unfold read_nat. destruct (_ !! _) as [b|]; [|cbn; lia].
  destruct (N.eqb_spec n 0) as [|_]; [done|]. cbn [fst]. by apply N.mod_lt.
Qed.

Lemma choose_int_bound c n : (- Z.of_N n <= (choose_int c n).1 <= Z.of_N n)%Z.
Proof.
  unfold choose_int. pose proof (read_nat_bound c (n * 2 + 1) ltac:(lia)). destruct (read_nat _ _) as [v c']. cbn [fst] in *. lia.
Qed.

Lemma reducing_op_bounded c : is_reducer (gen_length_reducing_op c).1 = true /\ op_bounded (gen_length_reducing_op c).1.
Proof.
  unfold gen_length_reducing_op, gen_pred. destruct (read_nat c 2) as [[|t] c1]; [|done].
  destruct (read_nat c1 6) as [tag c2]. pose proof (choose_int_bound c2 9) as Hk.
  destruct (choose_int c2 9) as [k c3]. pose proof (read_nat_bound c2 5 ltac:(lia)) as Hk5.
  destruct (read_nat c2 5) as [k5 c4]. pose proof (read_nat_bound c4 6 ltac:(lia)) as Hr. destruct (read_nat c4 6) as [r c5].
  cbn [fst] in *. destruct tag as [|[[[]|[]|]|[[]|[]|]|]]; cbn; split; trivial; lia.
Qed.

Lemma context_op_bounded c : is_reducer (gen_context_op c).1 = false /\ op_bounded (gen_context_op c).1.
Proof.
  unfold gen_context_op. destruct (read_nat c 3) as [tag c1]. pose proof (choose_int_bound c1 9) as Hk.
  destruct (choose_int c1 9) as [k c2]. pose proof (read_nat_bound c1 5 ltac:(lia)) as Hk5. destruct (read_nat c1 5) as [k5 c3].
  cbn [fst] in *. destruct tag as [|[]]; cbn; split; trivial; lia.
Qed.

Lemma gen_op_ok ri ci i c : exists op c', gen_op ri ci i c = Ok (op, c') /\ op_bounded op /\
  (i = ri -> is_reducer op = true) /\ (i = ci -> i <> ri -> is_reducer op = false).
Proof.
  unfold gen_op. pose proof (reducing_op_bounded c) as [R1 R2]. pose proof (context_op_bounded c) as [C1 C2].
  destruct (N.eqb_spec i ri) as [->|Hi]; [destruct (gen_length_reducing_op c) as [op c']; exists op, c'; by split_and!|].
  destruct (N.eqb_spec i ci) as [->|Hc]; [destruct (gen_context_op c) as [op c']; exists op, c'; by split_and!|].
  pose proof (read_nat_bound c 5 ltac:(lia)) as Hb. destruct (read_nat c 5) as [tag c1]. cbn [fst] in Hb.
  pose proof (reducing_op_bounded c1) as [R1' R2']. pose proof (context_op_bounded c1) as [C1' C2'].
  destruct (gen_length_reducing_op c1) as [op1 c2], (gen_context_op c1) as [op2 c3].
  assert (tag = 0 \/ tag = 1 \/ tag = 2 \/ tag = 3 \/ tag = 4) as [-> |Ht] by lia; [exists op1, c2; by split_and!|].
  exists op2, c3. destruct Ht as [-> |[-> |[-> | ->]]]; by split_and!.
Qed.

Lemma gen_chain_ok ri ci k : forall c, exists ops c',
  ofold (gen_step ri ci) ([], c) (seq 0 k) = Ok (ops, c') /\ length ops = k /\ Forall op_bounded ops /\
  (forall i op, ops !! i = Some op -> (N.of_nat i = ri -> is_reducer op = true) /\
     (N.of_nat i = ci -> ci <> ri -> is_reducer op = false)).
Proof.
  intros c. induction k as [|k (ops & c1 & Hf & Hl & Hb & Hi)]; [exists [], c; by split_and!|].
  rewrite seq_S, ofold_app, Hf. cbn [obind ofold plus]. unfold gen_step. cbn [fst snd].
  destruct (gen_op_ok ri ci (N.of_nat k) c1) as (op & c2 & -> & Hop & Hr & Hc). cbn [obind fst snd].
  exists (ops ++ [op]), c2. split_and!; [done|rewrite length_app, Hl; cbn; lia|apply Forall_app; by repeat constructor|].
  intros i op' Hlook. apply lookup_snoc_Some in Hlook as [[_ Hlook]|[-> ->]]; [by apply Hi|].
  rewrite Hl in *. split; [exact Hr|]. intros H1 H2. apply Hc; congruence.
Qed.

Lemma other_index a r n : a < n -> r < n - 1 -> (a + 1 + r) mod n < n /\ (a + 1 + r) mod n <> a.
Proof.
  intros Ha Hr. split; [apply N.mod_lt; lia|]. destruct (N.lt_ge_cases (a + 1 + r) n) as [Hlt|Hge].
  - rewrite N.mod_small; lia.
  - replace (a + 1 + r) with (a + 1 + r - n + 1 * n) by lia. rewrite N.Div0.mod_add, N.mod_small; lia.
Qed.

(** ** The theorems are true *)

Lemma erase_dups_length l : forall seen, (length (erase_dups_loop l seen) <= length l + length seen)%nat.
Proof.
  induction l as [|x l IH]; intros seen; cbn [erase_dups_loop length]; [rewrite length_rev; lia|].
  destruct (existsb _ _); [specialize (IH seen)|specialize (IH (x :: seen)); cbn [length] in IH]; lia.
Qed.

Lemma run_op_length op xs : (length (run_op op xs) <= length xs)%nat.
Proof.
  destruct op as [p|k|k| |]; cbn [run_op].
  - induction xs as [|x xs IH]; cbn; [lia|]. destruct (pred_holds p x); cbn; lia.
  - by rewrite length_map.
  - by rewrite length_map.
  - pose proof (erase_dups_length xs []). cbn in *. lia.
  - by rewrite sort_by_length.
Qed.

Lemma run_chain_length chain : forall xs, (length (run_chain chain xs) <= length xs)%nat.
Proof.
  induction chain as [|op chain IH]; intros xs; [done|]. change (run_chain (op :: chain) xs) with (run_chain chain (run_op op xs)).
  specialize (IH (run_op op xs)). pose proof (run_op_length op xs). lia.
Qed.

Lemma generate_ok seed : exists inst, generate_v1_lenbound seed = Ok inst /\
  (2 <= length (i_chain inst) <= 6)%nat /\ Exists (fun op => is_reducer op = true) (i_chain inst) /\
  Exists (fun op => is_reducer op = false) (i_chain inst) /\ Forall op_bounded (i_chain inst).
Proof.
  unfold generate_v1_lenbound. destruct (read_nat _ 6) as [d c0] eqn:E0.
  pose proof (N.mod_lt d 5 ltac:(done)) as Hd. clear E0. revert Hd. generalize (d mod 5). intros m Hd.
  assert (Hn : 2 <= m + 2 <= 6) by lia. revert Hn. generalize (m + 2). clear m Hd. intros n Hn.
  pose proof (read_nat_bound c0 n ltac:(lia)) as Hri. destruct (read_nat c0 n) as [ri c1]. cbn [fst] in Hri.
  destruct (N.eqb_spec n 1) as [|_]; [lia|].
  pose proof (read_nat_bound c1 (n - 1) ltac:(lia)) as Hr. destruct (read_nat c1 (n - 1)) as [r c2]. cbn [fst] in Hr.
  destruct (other_index ri r n Hri Hr) as [Hci Hne]. set (ci := (ri + 1 + r) mod n) in *.
  destruct (gen_chain_ok ri ci (N.to_nat n) c2) as (ops & c3 & Hf & Hl & Hb & Hi). rewrite Hf. cbn [obind fst].
  eexists. split; [done|]. cbn [i_chain]. rewrite Hl. split_and!; [lia|lia| | |done].
  - destruct (lookup_lt_is_Some_2 ops (N.to_nat ri)) as [op Hop]; [lia|].
    apply Exists_exists. exists op. split; [by eapply list_elem_of_lookup_2|]. by apply (Hi _ _ Hop), N2Nat.id.
  - destruct (lookup_lt_is_Some_2 ops (N.to_nat ci)) as [op Hop]; [lia|].
    apply Exists_exists. exists op. split; [by eapply list_elem_of_lookup_2|]. apply (Hi _ _ Hop); [apply N2Nat.id|done].
Qed.


(** ** The rendered proof *)

Lemma render_chain_snoc chain op var : render_chain_expr (chain ++ [op]) var = render_op_apply op (render_chain_expr chain var).
Proof. unfold render_chain_expr. by rewrite fold_left_app. Qed.

Lemma run_chain_snoc chain op xs : run_chain (chain ++ [op]) xs = run_op op (run_chain chain xs).
Proof. unfold run_chain. by rewrite fold_left_app. Qed.

Lemma chain_exprs_spec chain : chain_exprs chain = map (fun i => render_chain_expr (take i chain) "xs") (seq 0 (S (length chain))).
Proof.
  induction chain as [|op chain IH] using rev_ind; [done|]. unfold chain_exprs. rewrite fold_left_app. cbn [fold_left].
  fold (chain_exprs chain). rewrite IH, length_app. cbn [length]. rewrite Nat.add_1_r, (seq_S (S (length chain))), map_app.
  f_equal.
  - apply map_ext_in. intros i Hi%in_seq. rewrite take_app_le by lia. done.
  - rewrite (seq_S (length chain)), map_app. change (map ?f [?x]) with [f x]. rewrite last_snoc. cbn [default from_option plus map].
    unfold id. rewrite take_ge, <- render_chain_snoc, take_ge by (rewrite ?length_app; cbn; lia). done.
Qed.

Lemma chain_exprs_lookup chain i : (i <= length chain)%nat ->
  chain_exprs chain !! i = Some (render_chain_expr (take i chain) "xs").
Proof.
  intros Hi. rewrite chain_exprs_spec, list_lookup_fmap, lookup_seq_lt by lia. done.
Qed.

(** The rendered proof is a chain of true inequalities from the
    theorem's left side down to [xs]. Each step of the [calc] block names the
    expression below it, applies the lemma of its operation to that very
    expression, and states an inequality that holds; the first step starts at
    the expression of the theorem. *)
Theorem canonical_proof_calc inst idx op : i_chain inst !! idx = Some op ->
  let expr k := render_chain_expr (take k (i_chain inst)) "xs" in
  calc_step (i_chain inst) (chain_exprs (i_chain inst)) idx =
    [(if Nat.eqb idx (length (i_chain inst) - 1) then "    (" +:+ expr (length (i_chain inst)) +:+ ").length" else "    _")
       +:+ " ≤ (" +:+ expr idx +:+ ").length := by";
     "      exact " +:+ render_step_lemma_le op (expr idx)] /\
  expr (S idx) = render_op_apply op (expr idx) /\ expr 0%nat = "xs" /\
  theorem_rhs inst = "(" +:+ expr (length (i_chain inst)) +:+ ").length ≤ xs.length" /\
  (forall xs, length (run_chain (take (S idx) (i_chain inst)) xs) <= length (run_chain (take idx (i_chain inst)) xs))%nat.
Proof.
  intros Hop. cbv zeta. pose proof (lookup_lt_Some _ _ _ Hop) as Hlt. split_and!.
  - unfold calc_step. rewrite Hop, !chain_exprs_lookup by lia.
    destruct (Nat.eqb_spec idx (length (i_chain inst) - 1)) as [->|]; [|done]. by replace (S (length (i_chain inst) - 1)) with (length (i_chain inst)) by lia.
  - by rewrite (take_S_r _ _ _ Hop), render_chain_snoc.
  - done.
  - unfold theorem_rhs. by rewrite take_ge by lia.
  - intros xs. rewrite (take_S_r _ _ _ Hop), run_chain_snoc. apply run_op_length.
Qed.

Lemma canonical_proof_calc_witness :
  let inst := mkInstance 0 [Dedup; MapAdd 3] in
  calc_step (i_chain inst) (chain_exprs (i_chain inst)) 1 =
    ["    ((mapAdd (3 : Int) (dedup xs))).length ≤ ((dedup xs)).length := by";
     "      exact Nat.le_of_eq (Boole.Family.V0Helpers.length_mapAdd (3 : Int) (dedup xs))"].
Proof. exact (proj1 (canonical_proof_calc (mkInstance 0 [Dedup; MapAdd 3]) 1 (MapAdd 3) eq_refl)). Defined.
