(* ===== verification/SubmitGate.v ===== *)
(** * The session gate of a submission (boole-node/src: local_node.rs, http_error.rs)

    What a submit request must prove before it reaches admission: a registered
    session, its fixed reward recipient, a signature of the session key over
    exactly the submitted body, a fee within the session's limit and a fresh
    nonce. The request is the parsed JSON value; [None] is a body that does not
    parse. *)

From S2P Require Import Prelude Json Externals Hash SignedEnvelope Block ShareAuthorization BlockBuilder Admission Stores EventStores Runtime.

(** ** Errors *)

Inductive HttpError :=
| HttpMissingField (field : string)
| HttpMalformedPk
| HttpUnauthenticatedSubmit
| HttpCanonicalStateInconsistent (phase : string)
| HttpWriteAuthorityLost (reason : string)
| HttpSessionRegistryDisabled
| HttpSessionUnknown (session_pk : string)
| HttpSessionRevoked (session_pk : string)
| HttpSessionDenied (session_pk : string) (detail : SessionError)
| HttpRewardRecipientMismatch (expected actual : string)
| HttpWorkPkMismatch (expected actual : string)
| HttpNonceReplayed (session_pk nonce : string)
| HttpBadEnvelope
| HttpSignatureInvalid
| HttpCrossNetworkRejected (expected got : string)
| HttpNetworkScopeRequired (expected : string)
| HttpBadPayload (field : string)
| HttpSemanticVerifierBusy
| HttpSemanticVerifierUnavailable (code : string)
| HttpInternal
| HttpUnexpectedField (field : string)
| HttpBadHex (field : string)
| HttpSessionNotFound (session_pk : string)
| HttpUnauthorizedSigner
| HttpReceiptStoreDisabled
| HttpBountyNotFound (id : string)
| HttpBadProofHash
| HttpProofHashMismatch (expected got : string)
| HttpBadProver
| HttpNoVerifier (kind : string)
| HttpEnvelopeExpired (valid_before now : N)
| HttpSignedNonceReplayed (signer_pk nonce : string)
| HttpBountyAlreadyExists (id : string)
| HttpBadStatusValue (value : string)
| HttpBountyIdMismatch (url_id payload_id : string)
| HttpInvalidStatusTransition
| HttpBountyTerminal (status : string)
| HttpVerifierError
| HttpBadRequest
| HttpTicketObservationUnavailable.

Definition http_status (e : HttpError) : N :=
  match e with
  | HttpMissingField _ | HttpMalformedPk | HttpSessionRegistryDisabled | HttpBadEnvelope | HttpBadPayload _
  | HttpUnexpectedField _ | HttpBadHex _ | HttpReceiptStoreDisabled | HttpBadProofHash | HttpProofHashMismatch _ _
  | HttpBadProver | HttpBadStatusValue _ | HttpBountyIdMismatch _ _ | HttpInvalidStatusTransition | HttpBadRequest => 400
  | HttpUnauthenticatedSubmit | HttpSignatureInvalid | HttpEnvelopeExpired _ _ => 401
  | HttpSessionRevoked _ | HttpSessionDenied _ _ | HttpRewardRecipientMismatch _ _ | HttpWorkPkMismatch _ _
  | HttpCrossNetworkRejected _ _ | HttpNetworkScopeRequired _ | HttpUnauthorizedSigner => 403
  | HttpSessionUnknown _ | HttpSessionNotFound _ | HttpBountyNotFound _ => 404
  | HttpNonceReplayed _ _ | HttpSignedNonceReplayed _ _ | HttpBountyAlreadyExists _ | HttpBountyTerminal _ => 409
  | HttpInternal => 500
  | HttpNoVerifier _ => 501
  | HttpVerifierError => 502
  | HttpCanonicalStateInconsistent _ | HttpWriteAuthorityLost _ | HttpSemanticVerifierBusy
  | HttpSemanticVerifierUnavailable _ | HttpTicketObservationUnavailable => 503
  end.

(** ** Bodies *)

(** [Map::insert] on a key that is present. *)
Fixpoint assoc_replace {A} (key : string) (a : A) (m : list (string * A)) : list (string * A) :=
  match m with
  | [] => []
  | (k, v) :: m' => if String.eqb k key then (k, a) :: m' else (k, v) :: assoc_replace key a m'
  end.

Definition get_str (m : list (string * Value)) (field : string) : option string :=
  match assoc field m with Some v => as_str v | None => None end.

Definition get_object (m : list (string * Value)) (field : string) : option (list (string * Value)) :=
  match assoc field m with Some (VObject o) => Some o | _ => None end.

Definition normalize_pow_field (body : list (string * Value)) (field : string) : list (string * Value) :=
  match get_str body field with
  | Some value =>
      if (str_len value <? 64) && (str_len value mod 2 =? 0) && str_all is_ascii_hexdigit value
      then assoc_replace field (VString (pad_zeros 64 value)) body
      else body
  | None => body
  end.

Definition normalize_pow_fields (body : list (string * Value)) : list (string * Value) :=
  fold_left normalize_pow_field ["n"; "j"; "nonceS"] body.

Record CheckedSubmitSession := mkCheckedSession {
  ck_submitted_by : string;
  ck_nonce : string;
  ck_reward_recipient : string;
  ck_request_hash : string;
  ck_route : string;
  ck_signed_work : ShareWorkAuthorization
}.

Record VerifiedSubmitWork := mkVerifiedWork {
  vw_request_hash : string;
  vw_route : string;
  vw_signed_work : ShareWorkAuthorization
}.

Record ParsedSubmitSession := mkParsedSession {
  pss_submitted_by : string;
  pss_reward_recipient : string;
  pss_nonce : string;
  pss_envelope : list (string * Value);
  pss_session : list (string * Value)
}.

Record EnvelopeNetworkPolicy := mkNetworkPolicy { np_expected : string; np_require_scope : bool }.

Definition parse_envelope_network_id (envelope : list (string * Value)) (policy : EnvelopeNetworkPolicy)
    : outcome HttpError (option string) :=
  match assoc "network_id" envelope with
  | None => if np_require_scope policy then Err (HttpNetworkScopeRequired (np_expected policy)) else Ok None
  | Some field =>
      let* nid := ok_or (as_str field) HttpBadEnvelope in
      do* ensure (String.eqb nid (np_expected policy)) (HttpCrossNetworkRejected (np_expected policy) nid);
      Ok (Some nid)
  end.

Section SubmitGate.
Context {X : Externals}.

Definition proof_canon_hash (body : list (string * Value)) : string :=
  let bytes_hex := default "" (get_str body "bytes") in
  let package := default [] (hex_decode bytes_hex) in
  hex_encode (sha256 package).

Definition selected_share_evidence_from_body (body : list (string * Value)) (signed_work : option ShareWorkAuthorization)
    : outcome AdmissionDecision SelectedShareEvidence :=
  let* submission := parse_submission_body body in
  Ok (mkSelectedShareEvidence (su_pk_hex submission) (su_n_hex submission) (su_j_hex submission) (su_c_hex submission)
        (hex_encode (sha256 (su_package_bytes submission))) (hex_encode (su_package_bytes submission))
        (su_seed_hex submission) signed_work).

(** The two [expect]s of [submit_session_gate] read what is kept here. *)
Definition parse_submit_session_envelope (body : option Value) : outcome HttpError (option ParsedSubmitSession) :=
  match body with
  | Some (VObject envelope) =>
      match get_object envelope "session" with
      | None => Ok None
      | Some session =>
          let* submitted_by := ok_or (get_str session "submittedBy") (HttpMissingField "session.submittedBy") in
          let* reward_recipient := ok_or (get_str session "rewardRecipient") (HttpMissingField "session.rewardRecipient") in
          let* nonce := ok_or (get_str session "nonce") (HttpMissingField "session.nonce") in
          do* ensure (is_ok (hex32_from_hex submitted_by)) HttpMalformedPk;
          Ok (Some (mkParsedSession submitted_by reward_recipient nonce envelope session))
      end
  | _ => Ok None
  end.

(** The field of a signed payload that must be a string. *)
Definition signed_string (payload : list (string * Value)) (field : string) : outcome HttpError string :=
  ok_or (get_str payload field) (HttpMissingField ("session.signedWork.payload." +:+ field)).

Definition verify_signed_submit_work (body_value : option Value) (session_obj : list (string * Value))
    (submitted_by nonce reward_recipient : string) (session : SessionState) (network_policy : EnvelopeNetworkPolicy)
    : outcome HttpError VerifiedSubmitWork :=
  let* work_body := ok_or body_value (HttpMissingField "body") in
  let* signed_work := ok_or (assoc "signedWork" session_obj) (HttpMissingField "session.signedWork") in
  let* signed_obj := ok_or (match signed_work with VObject o => Some o | _ => None end) HttpBadEnvelope in
  let* schema := ok_or (get_str signed_obj "schema") (HttpMissingField "session.signedWork.schema") in
  do* ensure (String.eqb schema SIGNED_ENVELOPE_SCHEMA) HttpBadEnvelope;
  let* payload := ok_or (assoc "payload" signed_obj) (HttpMissingField "session.signedWork.payload") in
  let* pk := ok_or (get_str signed_obj "pk") (HttpMissingField "session.signedWork.pk") in
  let* signature := ok_or (get_str signed_obj "signature") (HttpMissingField "session.signedWork.signature") in
  do* ensure (String.eqb pk submitted_by) (HttpBadPayload "session.signedWork.pk");
  let* signed_network_id := parse_envelope_network_id signed_obj network_policy in
  let* valid := map_err (fun _ => HttpBadEnvelope)
    (verify_signature_with_network pk signature payload signed_network_id) in
  do* ensure valid HttpSignatureInvalid;
  let* payload_obj := ok_or (match payload with VObject o => Some o | _ => None end)
    (HttpBadPayload "session.signedWork.payload") in
  let* payload_schema := signed_string payload_obj "schema" in
  do* ensure (String.eqb payload_schema SIGNER_WORK_V2_SCHEMA) (HttpBadPayload "session.signedWork.payload.schema");
  let* signed_reward_recipient := signed_string payload_obj "rewardRecipient" in
  do* ensure (String.eqb signed_reward_recipient reward_recipient)
        (HttpBadPayload "session.signedWork.payload.rewardRecipient");
  let* route := signed_string payload_obj "route" in
  do* ensure (String.eqb route "/submit") (HttpBadPayload "session.signedWork.payload.route");
  let* signed_nonce := signed_string payload_obj "nonce" in
  do* ensure (String.eqb signed_nonce nonce) (HttpBadPayload "session.signedWork.payload.nonce");
  let* work_payload := ok_or (assoc "workPayload" payload_obj)
    (HttpMissingField "session.signedWork.payload.workPayload") in
  do* ensure (bool_decide (work_payload = work_body)) (HttpBadPayload "session.signedWork.payload.workPayload");
  let* work_pk := ok_or (match value_get work_payload "pk" with Some v => as_str v | None => None end)
    (HttpMissingField "session.signedWork.payload.workPayload.pk") in
  do* ensure (String.eqb work_pk submitted_by) (HttpWorkPkMismatch submitted_by work_pk);
  do* (match work_body with
       | VObject body_obj => ensure (bool_decide (normalize_pow_fields body_obj = body_obj))
                               (HttpBadPayload "session.signedWork.payload.workPayload")
       | _ => Ok tt
       end);
  let* request_hash := signed_string payload_obj "requestHash" in
  do* ensure (String.eqb request_hash (canonical_payload_hash_hex work_payload))
        (HttpBadPayload "session.signedWork.payload.requestHash");
  let* fee_text := signed_string payload_obj "fee" in
  let* fee := ok_or (parse_uint u128_max fee_text) (HttpBadPayload "session.signedWork.payload.fee") in
  let* max_fee := ok_or (parse_uint u128_max (se_max_fee_per_request session)) (HttpBadPayload "session.maxFeePerRequest") in
  do* ensure (fee <=? max_fee) (HttpBadPayload "session.signedWork.payload.fee");
  Ok (mkVerifiedWork request_hash route (mkShareWorkAuthorization schema payload pk signature signed_network_id)).

Definition submit_session_gate (nonce_path : option string) (store : option FileSessionStore)
    (nonces : option FileNonceLedger) (height : N) (policy : EnvelopeNetworkPolicy) (body : option Value)
    : outcome HttpError (option CheckedSubmitSession) :=
  let* parsed := parse_submit_session_envelope body in
  match parsed with
  | None => Ok None
  | Some parsed =>
      let submitted_by := pss_submitted_by parsed in
      do* ok_or nonce_path HttpSessionRegistryDisabled;
      let* store := ok_or store HttpSessionRegistryDisabled in
      let* session := ok_or (ss_sessions store !! submitted_by) (HttpSessionUnknown submitted_by) in
      do* ensure (negb (se_revoked session)) (HttpSessionRevoked submitted_by);
      do* map_err (HttpSessionDenied submitted_by) (validate_at_height session height);
      do* ensure (String.eqb (se_fixed_reward_recipient session) (pss_reward_recipient parsed))
            (HttpRewardRecipientMismatch (se_fixed_reward_recipient session) (pss_reward_recipient parsed));
      let* verified := verify_signed_submit_work (assoc "body" (pss_envelope parsed)) (pss_session parsed) submitted_by
        (pss_nonce parsed) (pss_reward_recipient parsed) session policy in
      let* ledger := ok_or nonces HttpSessionRegistryDisabled in
      do* ensure (negb (nonce_contains ledger submitted_by (pss_nonce parsed)))
            (HttpNonceReplayed submitted_by (pss_nonce parsed));
      Ok (Some (mkCheckedSession submitted_by (pss_nonce parsed) (pss_reward_recipient parsed)
                  (vw_request_hash verified) (vw_route verified) (vw_signed_work verified)))
  end.

End SubmitGate.

(** ** What the gate establishes *)

Section GateFacts.
Context {X : Externals}.

Lemma string_field_get body field text : string_field body field = Ok text -> get_str body field = Some text.
Proof.
  unfold string_field, get_str. destruct (assoc field body) as [v|]; [|done]. cbn [ok_or obind].
  destruct (as_str v); [by intros [= ->]|done].
Qed.

(** The fields of a parsed submission are the texts of its body. *)
Lemma parse_submission_fields body s : parse_submission_body body = Ok s ->
  get_str body "pk" = Some (su_pk_hex s) /\ get_str body "n" = Some (su_n_hex s) /\ get_str body "j" = Some (su_j_hex s) /\
  get_str body "c" = Some (su_c_hex s) /\
  exists text, get_str body "bytes" = Some text /\ hex_decode text = Some (su_package_bytes s).
Proof.
  unfold parse_submission_body. intros H. destruct (ofold _ tt _); try discriminate H. cbn [obind] in H.
  repeat match type of H with
  | obind (string_field ?b ?f) _ = _ => destruct (string_field b f) eqn:?; try discriminate H; cbn [obind] in H
  | obind (hex32_field ?f ?v) _ = _ => destruct (hex32_field f v); try discriminate H; cbn [obind] in H
  end.
  destruct (hex_decode _) eqn:?; try discriminate H. cbn [ok_or obind] in H.
  destruct (assoc "seedHex" body); [destruct (string_field body "seedHex"); try discriminate H|]; cbn [obind] in H; injection H as <-;
  cbn [su_pk_hex su_n_hex su_j_hex su_c_hex su_package_bytes]; split_and!; eauto using string_field_get.
Qed.

(** The request carries an envelope of the session key over this body, this
    recipient and this nonce. *)
Record work_signed (policy : EnvelopeNetworkPolicy) (session : SessionState) (submitted_by nonce reward_recipient : string)
    (body payload : list (string * Value)) (auth : ShareWorkAuthorization) : Prop := {
  ws_canonical : normalize_pow_fields body = body;
  ws_schema : swa_schema auth = SIGNED_ENVELOPE_SCHEMA;
  ws_payload : swa_payload auth = VObject payload;
  ws_pk : swa_pk auth = submitted_by;
  ws_network : match swa_network_id auth with
               | Some id => id = np_expected policy
               | None => np_require_scope policy = false
               end;
  ws_signature : verify_signature_with_network submitted_by (swa_signature auth) (VObject payload) (swa_network_id auth) = Ok true;
  ws_work_schema : get_str payload "schema" = Some SIGNER_WORK_V2_SCHEMA;
  ws_reward : get_str payload "rewardRecipient" = Some reward_recipient;
  ws_route : get_str payload "route" = Some SIGNER_WORK_ROUTE;
  ws_nonce : get_str payload "nonce" = Some nonce;
  ws_work : assoc "workPayload" payload = Some (VObject body);
  ws_hash : get_str payload "requestHash" = Some (canonical_payload_hash_hex (VObject body));
  ws_body_pk : get_str body "pk" = Some submitted_by;
  ws_fee : exists fee max, match get_str payload "fee" with Some t => parse_uint u128_max t | None => None end = Some fee /\
    parse_uint u128_max (se_max_fee_per_request session) = Some max /\ fee <= max
}.

Lemma network_id_Ok envelope policy nid : parse_envelope_network_id envelope policy = Ok nid ->
  match nid with Some id => id = np_expected policy | None => np_require_scope policy = false end.
Proof.
  unfold parse_envelope_network_id. destruct (assoc _ _) as [v|]; intros H; run_inv H; injection H as <-; [|done].
  by apply String.eqb_eq.
Qed.

Lemma signed_string_Ok payload field text : signed_string payload field = Ok text -> get_str payload field = Some text.
Proof. unfold signed_string. destruct (get_str payload field); [by intros [= ->]|done]. Qed.

Lemma verify_signed_work_Ok body_value session_obj submitted_by nonce reward_recipient session policy vw :
  verify_signed_submit_work body_value session_obj submitted_by nonce reward_recipient session policy = Ok vw ->
  exists body payload, body_value = Some (VObject body) /\ vw_route vw = "/submit" /\
    vw_request_hash vw = canonical_payload_hash_hex (VObject body) /\
    work_signed policy session submitted_by nonce reward_recipient body payload (vw_signed_work vw).
Proof.
  unfold verify_signed_submit_work. intros H. run_inv H; breflect; subst;
    repeat match goal with E : signed_string _ _ = Ok _ |- _ => apply signed_string_Ok in E end;
    try match goal with E : match value_get _ "pk" with _ => _ end = Some _ |- _ => discriminate E end.
  injection H as <-. destruct a3 as [| | | | |payload]; try discriminate. injection E10 as <-.
  exists m, payload. cbn [vw_route vw_request_hash vw_signed_work]. split_and!; try done.
  apply network_id_Ok in E.
  split; try done. exists a15, a16. by rewrite E23.
Qed.

(** What a session that passed the gate stands for. *)
Lemma submit_session_gate_Ok nonce_path store nonces height policy body s :
  submit_session_gate nonce_path store nonces height policy body = Ok (Some s) ->
  exists envelope work payload sessions session ledger, body = Some (VObject envelope) /\
    store = Some sessions /\ nonces = Some ledger /\
    ss_sessions sessions !! ck_submitted_by s = Some session /\ se_revoked session = false /\
    validate_at_height session height = Ok tt /\ ck_reward_recipient s = se_fixed_reward_recipient session /\
    nonce_contains ledger (ck_submitted_by s) (ck_nonce s) = false /\
    is_ok (hex32_from_hex (ck_submitted_by s)) = true /\ get_object envelope "body" = Some work /\
    work_signed policy session (ck_submitted_by s) (ck_nonce s) (ck_reward_recipient s) work payload (ck_signed_work s).
Proof.
  unfold submit_session_gate. intros H. destruct (parse_submit_session_envelope body) as [[p|]| |] eqn:Ep; try discriminate H.
  cbn [obind] in H. destruct nonce_path as [np|]; [|discriminate H]. destruct store as [sessions|]; [|discriminate H].
  cbn [ok_or obind] in H. destruct (ss_sessions sessions !! _) as [session|] eqn:Es; [|discriminate H]. cbn [ok_or obind] in H.
  destruct (se_revoked session) eqn:Er; [discriminate H|]. cbn [negb ensure obind] in H.
  destruct (validate_at_height session height) as [[]| |] eqn:Ev; try discriminate H. cbn [map_err obind] in H.
  destruct (String.eqb_spec (se_fixed_reward_recipient session) (pss_reward_recipient p)) as [Ef|]; [|discriminate H].
  cbn [ensure obind] in H. destruct (verify_signed_submit_work _ _ _ _ _ _ _) as [vw| |] eqn:Ew; try discriminate H.
  cbn [obind] in H. destruct nonces as [ledger|]; [|discriminate H]. cbn [ok_or obind] in H.
  destruct (nonce_contains _ _ _) eqn:En; [discriminate H|]. injection H as <-.
  apply verify_signed_work_Ok in Ew as (work & payload & Hb & _ & _ & Hw).
  unfold parse_submit_session_envelope in Ep. destruct body as [[| | | | |envelope]|]; try discriminate Ep.
  destruct (get_object envelope "session") as [so|]; [|discriminate Ep]. run_inv Ep. injection Ep as <-.
  cbn [pss_submitted_by pss_reward_recipient pss_nonce pss_envelope pss_session] in *.
  exists envelope, work, payload, sessions, session, ledger. unfold get_object. rewrite Hb.
  cbn [ck_submitted_by ck_nonce ck_reward_recipient ck_signed_work]. by split_and!.
Qed.

(** The envelope passes the verification that peers and replays run, as soon as
    the body parses. *)
Lemma signed_work_verifies policy session submitted_by nonce reward_recipient body payload auth sub :
  work_signed policy session submitted_by nonce reward_recipient body payload auth ->
  is_ok (hex32_from_hex reward_recipient) = true -> parse_submission_body body = Ok sub ->
  verify_share_work_authorization auth =
    Ok (mkVerifiedShareAuthorization submitted_by reward_recipient (su_pk_hex sub) (su_n_hex sub) (su_j_hex sub) (su_c_hex sub)
          (hex_encode (su_package_bytes sub)) (swa_network_id auth)) /\ su_pk_hex sub = submitted_by.
Proof.
  intros [] Hr Hp. apply parse_submission_fields in Hp as (Hpk & Hn & Hj & Hc & text & Htext & Hbytes).
  assert (Hsub : su_pk_hex sub = submitted_by) by congruence. split; [|done].
  apply is_ok_Ok in Hr as [bytes Hbytes32]. unfold verify_share_work_authorization, payload_str, work_payload_str, SIGNER_WORK_ROUTE in *.
  unfold get_str in *. rewrite ws_schema0, ws_payload0. cbn [value_get is_object]. rewrite String.eqb_refl. cbn [ensure obind].
  rewrite ws_work_schema0, ws_route0, ws_work0. cbn [ok_or obind ensure is_object]. rewrite !String.eqb_refl. cbn [ensure obind].
  rewrite ws_hash0. cbn [ok_or obind]. rewrite String.eqb_refl. cbn [ensure obind]. rewrite ws_reward0. cbn [ok_or obind].
  rewrite Hbytes32, ws_pk0, ws_signature0. cbn [map_err obind ensure value_get]. rewrite Htext. cbn [ok_or obind]. rewrite Hbytes. cbn [ok_or obind].
  rewrite Hpk, Hn, Hj, Hc. cbn [ok_or obind]. by rewrite Hsub.
Qed.

Lemma session_recipient_hex session height : validate_at_height session height = Ok tt ->
  is_ok (hex32_from_hex (se_fixed_reward_recipient session)) = true.
Proof.
  unfold validate_at_height, validate_hex32. intros H. run_inv H; breflect; done.
Qed.

End GateFacts.

(** ** Witness *)

From S2P Require Import Concrete.

Module GateDemo.
Definition key : SigningKeyV2 := from_dev_id "agent".
Definition pk : string := pk_hex key.
Definition recipient : string := repeat_char "d" 64.
Definition session : SessionState :=
  mkSession pk (repeat_char "b" 64) (repeat_char "c" 64) recipient (repeat_char "e" 64) "12" 0 100 false (repeat_char "e" 64).
Definition store : FileSessionStore := mkSessionStore {[pk := session]}.
Definition body : list (string * Value) := assoc_replace "pk" (VString pk) AdmissionDemo.body.
Definition payload : Value :=
  VObject [("schema", VString SIGNER_WORK_V2_SCHEMA); ("rewardRecipient", VString recipient); ("route", VString "/submit");
           ("nonce", VString "n-1"); ("workPayload", VObject body);
           ("requestHash", VString (canonical_payload_hash_hex (VObject body))); ("fee", VString "1")].
Definition signed : SignedEnvelope := sign_for_network key payload (Some "net").
Definition envelope : list (string * Value) :=
  [("session", VObject [("submittedBy", VString pk); ("rewardRecipient", VString recipient); ("nonce", VString "n-1");
      ("signedWork", VObject [("schema", VString (env_schema signed)); ("payload", payload); ("pk", VString (env_pk signed));
                              ("signature", VString (env_signature signed)); ("network_id", VString "net")])]);
   ("body", VObject body)].
Definition policy : EnvelopeNetworkPolicy := mkNetworkPolicy "net" true.
Definition gate : outcome HttpError (option CheckedSubmitSession) :=
  submit_session_gate (Some "nonces") (Some store) (Some es_init) 7 policy (Some (VObject envelope)).
Definition sub : outcome AdmissionDecision ParsedSubmission := parse_submission_body (normalize_pow_fields body).
End GateDemo.

