(* ===== verification/ShareVerifier.v ===== *)
(** * Lean re-verification of shares (boole-node/src: block_verifier.rs,
    checkpoint.rs)

    The one entry that re-derives a share's Lean source from its seed, compares
    the package it commits to, and runs the pinned checker; the folds over a
    block and a chain; and the checkpoint that records how far a node has
    verified. The checker process is a parameter: what it answers for a module
    under a budget. *)

From S2P Require Import Prelude Json Externals Hash Block Validator LenBound Durability.

(** ** One share *)

Inductive LeanVerdict := LeanAccepted | LeanReject | LeanUnavailable.

Inductive ShareEvidenceVerdict :=
| NotLeanBound
| SourceRederiveFailed
| CanonMismatch
| LeanSkipped
| LeanRan (v : LeanVerdict).

Inductive BlockReverifyOutcome := Verified | DeterministicReject | RetryableUnavailable.

(** The checker directory and process: the hash of the directory, whether the
    private input file can be made, and the artifact hash and verdict of a run;
    [None] is a failure to launch. *)
Record Checker := mkChecker {
  ck_dir_hash : option string;
  ck_input_ready : bool;
  ck_check_file : string -> N -> N -> option (string * LeanVerdict)
}.

Definition run_pinned_checker (ck : Checker) (module_text expected_checker_artifact_hash : string)
    (max_heartbeats max_rec_depth : N) : LeanVerdict :=
  match ck_dir_hash ck with
  | None => LeanUnavailable
  | Some actual =>
      if negb (String.eqb actual expected_checker_artifact_hash) then LeanUnavailable
      else if negb (ck_input_ready ck) then LeanUnavailable
      else match ck_check_file ck module_text max_heartbeats max_rec_depth with
           | Some (observed, verdict) =>
               if negb (String.eqb observed expected_checker_artifact_hash) then LeanUnavailable else verdict
           | None => LeanUnavailable
           end
  end.

Section Verify.
Context {X : Externals} (ck : Checker) (checker_artifact_hash verifier_hash : string) (max_heartbeats max_rec_depth : N).

Definition verify_lean_bound_share_evidence (run_lean : bool) (share : SelectedShareEvidence)
    : outcome Empty_set ShareEvidenceVerdict :=
  if str_is_empty (ev_seed_hex share) then Ok NotLeanBound
  else match generate_from_hex (ev_seed_hex share) with
       | None => Ok SourceRederiveFailed
       | Some generated =>
           let* inst := generated in
           let lean_source := render_canonical_proof inst in
           let recomputed_hex := hex_encode (lean_bound_canon_package verifier_hash checker_artifact_hash lean_source) in
           if negb (String.eqb recomputed_hex (ev_proof_package share)) then Ok CanonMismatch
           else if negb run_lean then Ok LeanSkipped
           else Ok (LeanRan (run_pinned_checker ck (lean_module inst lean_source) checker_artifact_hash
                               max_heartbeats max_rec_depth))
       end.

Definition reverify_share_evidence (share : SelectedShareEvidence) : outcome Empty_set BlockReverifyOutcome :=
  let* verdict := verify_lean_bound_share_evidence true share in
  Ok (match verdict with
      | NotLeanBound | LeanSkipped | LeanRan LeanAccepted => Verified
      | SourceRederiveFailed | CanonMismatch | LeanRan LeanReject => DeterministicReject
      | LeanRan LeanUnavailable => RetryableUnavailable
      end).

(** The loop both folds share: a reject ends it, the first unavailable part is
    remembered. *)
Fixpoint reverify_all {A} (reverify : A -> outcome Empty_set BlockReverifyOutcome) (retryable : bool) (l : list A)
    : outcome Empty_set BlockReverifyOutcome :=
  match l with
  | [] => Ok (if retryable then RetryableUnavailable else Verified)
  | a :: l' =>
      let* o := reverify a in
      match o with
      | Verified => reverify_all reverify retryable l'
      | DeterministicReject => Ok DeterministicReject
      | RetryableUnavailable => reverify_all reverify true l'
      end
  end.

Definition reverify_block_selected_shares (block : PersistedBlock) : outcome Empty_set BlockReverifyOutcome :=
  reverify_all reverify_share_evidence false (b_selected_share_evidence block).

Definition reverify_candidate_chain_selected_shares (blocks : list PersistedBlock) : outcome Empty_set BlockReverifyOutcome :=
  reverify_all reverify_block_selected_shares false blocks.

End Verify.

(** ** The verified-prefix checkpoint *)

Record VerifiedPrefixCheckpoint := mkCheckpoint {
  vp_genesis_spec_hash : string;
  vp_height : N;
  vp_block_hash : string;
  vp_checker_artifact_hash : string;
  vp_max_heartbeats : N;
  vp_max_rec_depth : N
}.

Record CheckpointIdentity := mkCheckpointIdentity {
  ci_genesis_spec_hash : string;
  ci_checker_artifact_hash : string;
  ci_max_heartbeats : N;
  ci_max_rec_depth : N
}.

Definition identity_matches (cp : VerifiedPrefixCheckpoint) (id : CheckpointIdentity) : bool :=
  String.eqb (vp_genesis_spec_hash cp) (ci_genesis_spec_hash id)
  && String.eqb (vp_checker_artifact_hash cp) (ci_checker_artifact_hash id)
  && (vp_max_heartbeats cp =? ci_max_heartbeats id)
  && (vp_max_rec_depth cp =? ci_max_rec_depth id).

Definition build_verified_checkpoint (genesis_spec_hash : string) (checker_artifact_hash : option string)
    (max_heartbeats max_rec_depth height : N) (block_hash : string) : option VerifiedPrefixCheckpoint :=
  match checker_artifact_hash with
  | Some hash => Some (mkCheckpoint genesis_spec_hash height block_hash hash max_heartbeats max_rec_depth)
  | None => None
  end.

Definition checkpoint_survives_boot (cp : VerifiedPrefixCheckpoint) (id : CheckpointIdentity)
    (block_hash_at_height : option string) : bool :=
  identity_matches cp id && bool_decide (block_hash_at_height = Some (vp_block_hash cp)).

Definition checkpoint_survives_reorg (cp : VerifiedPrefixCheckpoint) (block_hash_at_height : option string) : bool :=
  bool_decide (block_hash_at_height = Some (vp_block_hash cp)).

Inductive CheckpointSkipDecision := SkipReverify | RunReverify | DivergedDiscardThenReverify.

#[export] Instance skip_decision_eq_decision : EqDecision CheckpointSkipDecision.
Proof. solve_decision. Defined.

Definition checkpoint_skip_decision (checkpoint : option VerifiedPrefixCheckpoint) (block_height : N) (block_c : string)
    : CheckpointSkipDecision :=
  match checkpoint with
  | None => RunReverify
  | Some cp =>
      let new_height := block_height + 1 in
      if u64_max <? new_height then RunReverify
      else if new_height <? vp_height cp then RunReverify
      else if new_height =? vp_height cp then
        if String.eqb block_c (vp_block_hash cp) then SkipReverify else DivergedDiscardThenReverify
      else RunReverify
  end.

(** ** The checkpoint file *)

(** One white space character at the front, in UTF-8. *)
Definition skip_space (l : list byte) : option (list byte) :=
  match l with
  | b :: l1 =>
      if byte_between 9 13 b || Byte.eqb b x20 then Some l1
      else match b, l1 with
           | xc2, c :: l2 => if Byte.eqb c x85 || Byte.eqb c xa0 then Some l2 else None
           | xe1, x9a :: x80 :: l3 => Some l3
           | xe2, x80 :: c :: l3 =>
               if byte_between 128 138 c || Byte.eqb c xa8 || Byte.eqb c xa9 || Byte.eqb c xaf then Some l3 else None
           | xe2, x81 :: x9f :: l3 => Some l3
           | xe3, x80 :: x80 :: l3 => Some l3
           | _, _ => None
           end
  | [] => None
  end.

(** The same at the end, on the reversed text. *)
Definition skip_space_rev (l : list byte) : option (list byte) :=
  match l with
  | b :: l1 =>
      if byte_between 9 13 b || Byte.eqb b x20 then Some l1
      else match l1 with
           | c :: l2 =>
               if Byte.eqb c xc2 then if Byte.eqb b x85 || Byte.eqb b xa0 then Some l2 else None
               else match l2 with
                    | d :: l3 => match skip_space [d; c; b] with Some [] => Some l3 | _ => None end
                    | [] => None
                    end
           | [] => None
           end
  | [] => None
  end.

Fixpoint trim_with (skip : list byte -> option (list byte)) (fuel : nat) (l : list byte) : list byte :=
  match fuel with
  | O => l
  | S fuel' => match skip l with Some l' => trim_with skip fuel' l' | None => l end
  end.

(** [str::trim]. *)
Definition str_trim (l : list byte) : list byte :=
  let l := trim_with skip_space (length l) l in rev (trim_with skip_space_rev (length l) (rev l)).

(** [fs::remove_file], where a missing file counts as removed. *)
Definition remove_file (h : Host) (path : string) (ok : bool) : Host * outcome IoError unit :=
  match h_files h !! path with
  | None => (h, Ok tt)
  | Some _ => if ok then (mkHost (delete path (h_files h)) (h_next_ino h) (h_fence h), Ok tt) else (h, Err IoFailed)
  end.

Section CheckpointFile.
Context {NC : Ndjson VerifiedPrefixCheckpoint}.

Definition write_checkpoint (path : string) (cp : VerifiedPrefixCheckpoint) (io : RewriteIo) (h : Host)
    : Host * outcome IoError unit :=
  write_ndjson_lines_atomic h path [nd_encode cp] io.

(** The first line of the file; anything unusable is absent. *)
Definition read_checkpoint (path : string) (io : ReadIo) : stm Host IoError (option VerifiedPrefixCheckpoint) :=
  let! raw := fun h => read_stable_prefix h path io in
  match raw with
  | None => sret None
  | Some raw =>
      let line := str_trim (match str_lines raw with line :: _ => line | [] => [] end) in
      sret (if bool_decide (line = []) then None else nd_decode line)
  end.

Definition validate_or_discard_checkpoint_at_boot (path : string) (identity : option CheckpointIdentity)
    (block_hash_at_height : option string) (io : ReadIo) (removed : bool)
    : stm Host IoError (option VerifiedPrefixCheckpoint) :=
  let! found := read_checkpoint path io in
  match found with
  | None => sret None
  | Some cp =>
      let survives :=
        match identity with Some id => checkpoint_survives_boot cp id block_hash_at_height | None => false end in
      if survives then sret (Some cp)
      else do! (fun h => remove_file h path removed); sret None
  end.
End CheckpointFile.

(** ** What a verdict means *)

Section VerdictMeaning.
Context {X : Externals} (ck : Checker) (checker_artifact_hash verifier_hash : string) (max_heartbeats max_rec_depth : N).

Definition share_verdict : SelectedShareEvidence -> outcome Empty_set BlockReverifyOutcome :=
  reverify_share_evidence ck checker_artifact_hash verifier_hash max_heartbeats max_rec_depth.

(** The instance of a seed, and the package that commits to its proof. *)
Definition seed_instance (share : SelectedShareEvidence) (inst : V1Instance) : Prop :=
  exists seed, hex_decode (ev_seed_hex share) = Some seed /\ generate_v1_lenbound seed = Ok inst.

Definition committed_package (inst : V1Instance) : string :=
  hex_encode (lean_bound_canon_package verifier_hash checker_artifact_hash (render_canonical_proof inst)).

(** The pinned checker, and nothing else, judged the module of the instance. *)
Definition checker_says (inst : V1Instance) (v : LeanVerdict) : Prop :=
  ck_dir_hash ck = Some checker_artifact_hash /\ ck_input_ready ck = true /\
  ck_check_file ck (lean_module inst (render_canonical_proof inst)) max_heartbeats max_rec_depth =
    Some (checker_artifact_hash, v).

Definition share_passes (share : SelectedShareEvidence) : Prop :=
  ev_seed_hex share = "" \/
  exists inst, seed_instance share inst /\ ev_proof_package share = committed_package inst /\ checker_says inst LeanAccepted.

Definition share_refuted (share : SelectedShareEvidence) : Prop :=
  ev_seed_hex share <> "" /\
  (hex_decode (ev_seed_hex share) = None \/
   exists inst, seed_instance share inst /\
     (ev_proof_package share <> committed_package inst \/ checker_says inst LeanReject)).

Lemma pinned_checker_says inst v : v <> LeanUnavailable ->
  run_pinned_checker ck (lean_module inst (render_canonical_proof inst)) checker_artifact_hash max_heartbeats max_rec_depth = v <->
  checker_says inst v.
Proof.
  intros Hv. unfold run_pinned_checker, checker_says. destruct (ck_dir_hash ck) as [hash|]; [|split; [congruence|by intros []]].
  destruct (String.eqb_spec hash checker_artifact_hash) as [->|Hne]; cbn [negb]; [|split; [congruence|by intros [[= ->] _]]].
  destruct (ck_input_ready ck); cbn [negb]; [|split; [congruence|by intros (_ & ? & _)]].
  destruct (ck_check_file _ _ _ _) as [[obs w]|]; [|split; [congruence|by intros (_ & _ & ?)]].
  destruct (String.eqb_spec obs checker_artifact_hash) as [->|Hne]; cbn [negb]; [|split; [congruence|by intros (_ & _ & [= -> _])]].
  split; [by intros ->|by intros (_ & _ & [= ->])].
Qed.

Lemma share_verdict_spec share : exists o, share_verdict share = Ok o /\ (o = Verified <-> share_passes share) /\
  (o = DeterministicReject <-> share_refuted share).
Proof.
  unfold share_verdict, reverify_share_evidence, verify_lean_bound_share_evidence, share_passes, share_refuted.
  destruct (str_is_empty (ev_seed_hex share)) eqn:Ee; cbn [obind].
  { assert (Hs : ev_seed_hex share = "") by (by destruct (ev_seed_hex share)). rewrite Hs.
    exists Verified. split_and!; [done|split; [by left|done]|split; [discriminate|by intros []]]. }
  assert (Hs : ev_seed_hex share <> "") by (by intros E; rewrite E in Ee). unfold generate_from_hex, seed_instance.
  destruct (hex_decode (ev_seed_hex share)) as [seed|]; cbn [fmap option_fmap option_map obind].
  2: { exists DeterministicReject. split_and!; [done|split; [discriminate|by intros [?|(? & (? & ? & _) & _)]]|].
       split; [intros _; split; [done|by left]|done]. }
  destruct (generate_ok seed) as (inst & Hg & _). rewrite Hg. cbn [obind].
  assert (Hinst : forall i, (exists seed', Some seed = Some seed' /\ generate_v1_lenbound seed' = Ok i) -> i = inst)
    by (intros i (seed' & [= <-] & Hi); congruence).
  fold (committed_package inst). destruct (String.eqb_spec (committed_package inst) (ev_proof_package share)) as [Hp|Hp]; cbn [negb obind].
  2: { exists DeterministicReject. split_and!; [done|split; [discriminate|]|split; [intros _|done]].
       - intros [?|(i & Hi & ? & _)]; [done|]. apply Hinst in Hi as ->. congruence.
       - split; [done|right]. exists inst. split; [by exists seed|left; congruence]. }
  pose proof (pinned_checker_says inst) as Hsays.
  destruct (run_pinned_checker _ _ _ _ _) eqn:Ev; eexists; (split; [done|]); split; split; try discriminate; intros H.
  all: try (destruct H as [?|(i & Hi & Hpk & Hck)]; [done|]; apply Hinst in Hi as ->; apply Hsays in Hck; congruence).
  all: try (match type of H with _ /\ _ => destruct H as [_ [?|(i & Hi & [Hpk|Hck])]] end;
            [done|apply Hinst in Hi as ->; congruence|]; apply Hinst in Hi as ->; apply Hsays in Hck; congruence).
  - right. exists inst. split_and!; [by exists seed|done|by apply Hsays].
  - split; [done|right]. exists inst. split; [by exists seed|right; by apply Hsays].
Qed.


(** The shared loop, over parts that each have a verdict. *)
Lemma reverify_all_spec {A} (reverify : A -> outcome Empty_set BlockReverifyOutcome) l : forall retryable,
  (forall a, a ∈ l -> exists o, reverify a = Ok o) ->
  exists o, reverify_all reverify retryable l = Ok o /\
    (o = Verified <-> retryable = false /\ Forall (fun a => reverify a = Ok Verified) l) /\
    (o = DeterministicReject <-> Exists (fun a => reverify a = Ok DeterministicReject) l).
Proof.
  induction l as [|a l IH]; intros retryable Hl; cbn [reverify_all].
  { eexists. split; [done|]. rewrite Exists_nil. destruct retryable; split; split; try done. by intros []. }
  assert (Hl' : forall x, x ∈ l -> exists o, reverify x = Ok o) by (intros x Hx; apply Hl; by right).
  destruct (Hl a) as [o Ho]; [by left|]. rewrite Ho. cbn [obind]. destruct o.
  - destruct (IH retryable Hl') as (o & H1 & H2 & H3). exists o. split; [done|].
    rewrite Forall_cons, Exists_cons, Ho, H2, H3. naive_solver.
  - exists DeterministicReject. split; [done|]. rewrite Forall_cons, Exists_cons, Ho. naive_solver.
  - destruct (IH true Hl') as (o & H1 & H2 & H3). exists o. split; [done|].
    rewrite Forall_cons, Exists_cons, Ho, H2, H3. naive_solver.
Qed.

Definition block_verdict : PersistedBlock -> outcome Empty_set BlockReverifyOutcome :=
  reverify_block_selected_shares ck checker_artifact_hash verifier_hash max_heartbeats max_rec_depth.

Lemma block_verdict_spec b : exists o, block_verdict b = Ok o /\
  (o = Verified <-> Forall share_passes (b_selected_share_evidence b)) /\
  (o = DeterministicReject <-> Exists share_refuted (b_selected_share_evidence b)).
Proof.
  destruct (reverify_all_spec share_verdict (b_selected_share_evidence b) false) as (o & Ho & Hv & Hr).
  { intros e _. destruct (share_verdict_spec e) as (o & H & _). by exists o. }
  exists o. split; [exact Ho|]. rewrite Hv, Hr, !Forall_forall, !Exists_exists. split; split.
  - intros [_ H] e He. destruct (share_verdict_spec e) as (o' & H1 & H2 & _). apply H2. rewrite (H e He) in H1. congruence.
  - intros H. split; [done|]. intros e He. destruct (share_verdict_spec e) as (o' & H1 & H2 & _). rewrite H1. f_equal. by apply H2, H.
  - intros (e & He & H). exists e. split; [done|]. destruct (share_verdict_spec e) as (o' & H1 & _ & H2). apply H2. congruence.
  - intros (e & He & H). exists e. split; [done|]. destruct (share_verdict_spec e) as (o' & H1 & _ & H2). rewrite H1. f_equal. by apply H2.
Qed.

(** C17: The Lean verdict on a chain is exact. It is a verdict for every
    chain; it is "verified" exactly when every share either has no seed or
    commits to the package of its seed and was accepted by the pinned checker,
    and a reject exactly when some share is provably wrong, whatever other
    shares are unavailable. *)
Theorem chain_verdict_exact blocks : exists o,
  reverify_candidate_chain_selected_shares ck checker_artifact_hash verifier_hash max_heartbeats max_rec_depth blocks = Ok o /\
  (o = Verified <-> forall b e, b ∈ blocks -> e ∈ b_selected_share_evidence b -> share_passes e) /\
  (o = DeterministicReject <-> exists b e, b ∈ blocks /\ e ∈ b_selected_share_evidence b /\ share_refuted e).
Proof.
  destruct (reverify_all_spec block_verdict blocks false) as (o & Ho & Hv & Hr).
  { intros b _. destruct (block_verdict_spec b) as (o & H & _). by exists o. }
  exists o. split; [exact Ho|]. rewrite Hv, Hr, Forall_forall, Exists_exists. split; split.
  - intros [_ H] b e Hb. destruct (block_verdict_spec b) as (o' & H1 & H2 & _). rewrite (H b Hb) in H1. injection H1 as <-.
    revert e. by apply Forall_forall, H2.
  - intros H. split; [done|]. intros b Hb. destruct (block_verdict_spec b) as (o' & H1 & H2 & _). rewrite H1. f_equal.
    apply H2, Forall_forall. intros e He. by apply (H b e).
  - intros (b & Hb & H). destruct (block_verdict_spec b) as (o' & H1 & _ & H2). rewrite H in H1. injection H1 as <-.
    destruct H2 as [H2 _]. apply Exists_exists in H2 as (e & He & Hw); [|done]. by exists b, e.
  - intros (b & e & Hb & He & H). exists b. split; [done|]. destruct (block_verdict_spec b) as (o' & H1 & _ & H2). rewrite H1. f_equal.
    apply H2, Exists_exists. by exists e.
Qed.
End VerdictMeaning.
