(* ===== verification/LocalNode.v ===== *)
(** * The served node: state, block and chain ingress (boole-node/src/local_node.rs)

    The state behind the node's lock and the handlers that change it. A handler
    that runs the Lean checker is two operations: [prepare] under the lock,
    which captures the checker's inputs and takes the only verifier permit, and
    [finish] under the lock again, which gets the checker's verdict, validates
    anew and commits. What happens in between is arbitrary.

    What the system answers (clock, lock files, reads and writes) is an argument
    of each operation. Log output and metrics are left out. *)

From S2P Require Import Prelude Json Externals Hash Block BlockBuilder Difficulty Config ShareAuthorization FamilyManifest Bounty.
From S2P Require Import ReplayEvidence Replay SharePool RateLimiter Admission Durability BountyLedger Stores Runtime EventStores Receipts P2pWire.
From S2P Require Import Validator SubmitGate ShareVerifier.

(** ** State *)

(** The fields that are set at boot and never assigned again. *)
Record LocalNodeFields := mkFields {
  lf_genesis_c : string;
  lf_genesis_spec_hash : string;
  lf_block_path : string;
  lf_checkpoint_path : string;
  lf_bounty_event_ledger_path : option string;
  lf_family_manifest_registry : FamilyManifestRegistry;
  lf_operator_signer_pks : list string;
  lf_session_registry_path : option string;
  lf_submit_nonce_ledger_path : option string;
  lf_signed_nonce_ledger_path : option string;
  lf_receipt_commitment_ledger_path : option string;
  lf_proof_dedup_ledger_path : option string;
  lf_submit_receipt_ledger_path : option string;
  lf_lean_checker_dir : option string;
  lf_network_id : string;
  lf_require_network_scoped_envelopes : bool;
  lf_allow_anonymous_submit : bool;
  lf_p2p_egress : bool;            (* peers are configured *)
  lf_ledger_lock_paths : list string
}.



Inductive EgressEvent :=
| EgressShare (body : list (string * Value)) (canon_tag ts : N) (signed_work : option ShareWorkAuthorization) (head : HeadSummary)
| EgressBlock (block : PersistedBlock) (head : HeadSummary).

(** The mutable fields, the file system, and what was handed to the egress
    thread so far. *)
Record LocalNodeState := mkLocalNode {
  ls_node : Node;
  ls_verified_prefix_checkpoint : option VerifiedPrefixCheckpoint;
  ls_bounty_registry : BountyRegistry;
  ls_bounty_side_pool : BountySidePool;
  ls_session_store : option FileSessionStore;
  ls_nonce_ledger : option FileNonceLedger;
  ls_signed_nonce_ledger : option FileSignedNonceLedger;
  ls_proof_dedup_ledger : option FileProofDedupLedger;
  ls_receipt_store : option FileReceiptStore;
  ls_verifier_busy : bool;
  ls_egress : list EgressEvent
}.

Definition ls_runtime (s : LocalNodeState) : RuntimeAdmissionState := no_runtime (ls_node s).
Definition ls_host (s : LocalNodeState) : Host := no_host (ls_node s).

Definition set_node (s : LocalNodeState) (n : Node) : LocalNodeState :=
  mkLocalNode n (ls_verified_prefix_checkpoint s) (ls_bounty_registry s) (ls_bounty_side_pool s) (ls_session_store s)
    (ls_nonce_ledger s) (ls_signed_nonce_ledger s) (ls_proof_dedup_ledger s) (ls_receipt_store s) (ls_verifier_busy s) (ls_egress s).
Definition set_checkpoint (s : LocalNodeState) (cp : option VerifiedPrefixCheckpoint) : LocalNodeState :=
  mkLocalNode (ls_node s) cp (ls_bounty_registry s) (ls_bounty_side_pool s) (ls_session_store s)
    (ls_nonce_ledger s) (ls_signed_nonce_ledger s) (ls_proof_dedup_ledger s) (ls_receipt_store s) (ls_verifier_busy s) (ls_egress s).
Definition set_registry (s : LocalNodeState) (r : BountyRegistry) : LocalNodeState :=
  mkLocalNode (ls_node s) (ls_verified_prefix_checkpoint s) r (ls_bounty_side_pool s) (ls_session_store s)
    (ls_nonce_ledger s) (ls_signed_nonce_ledger s) (ls_proof_dedup_ledger s) (ls_receipt_store s) (ls_verifier_busy s) (ls_egress s).
Definition set_side_pool (s : LocalNodeState) (p : BountySidePool) : LocalNodeState :=
  mkLocalNode (ls_node s) (ls_verified_prefix_checkpoint s) (ls_bounty_registry s) p (ls_session_store s)
    (ls_nonce_ledger s) (ls_signed_nonce_ledger s) (ls_proof_dedup_ledger s) (ls_receipt_store s) (ls_verifier_busy s) (ls_egress s).
Definition set_sessions (s : LocalNodeState) (st : option FileSessionStore) : LocalNodeState :=
  mkLocalNode (ls_node s) (ls_verified_prefix_checkpoint s) (ls_bounty_registry s) (ls_bounty_side_pool s) st
    (ls_nonce_ledger s) (ls_signed_nonce_ledger s) (ls_proof_dedup_ledger s) (ls_receipt_store s) (ls_verifier_busy s) (ls_egress s).
Definition set_nonce_ledger (s : LocalNodeState) (l : option FileNonceLedger) : LocalNodeState :=
  mkLocalNode (ls_node s) (ls_verified_prefix_checkpoint s) (ls_bounty_registry s) (ls_bounty_side_pool s) (ls_session_store s)
    l (ls_signed_nonce_ledger s) (ls_proof_dedup_ledger s) (ls_receipt_store s) (ls_verifier_busy s) (ls_egress s).
Definition set_signed_nonces (s : LocalNodeState) (l : option FileSignedNonceLedger) : LocalNodeState :=
  mkLocalNode (ls_node s) (ls_verified_prefix_checkpoint s) (ls_bounty_registry s) (ls_bounty_side_pool s) (ls_session_store s)
    (ls_nonce_ledger s) l (ls_proof_dedup_ledger s) (ls_receipt_store s) (ls_verifier_busy s) (ls_egress s).
Definition set_proof_dedup (s : LocalNodeState) (l : option FileProofDedupLedger) : LocalNodeState :=
  mkLocalNode (ls_node s) (ls_verified_prefix_checkpoint s) (ls_bounty_registry s) (ls_bounty_side_pool s) (ls_session_store s)
    (ls_nonce_ledger s) (ls_signed_nonce_ledger s) l (ls_receipt_store s) (ls_verifier_busy s) (ls_egress s).
Definition set_receipts (s : LocalNodeState) (l : option FileReceiptStore) : LocalNodeState :=
  mkLocalNode (ls_node s) (ls_verified_prefix_checkpoint s) (ls_bounty_registry s) (ls_bounty_side_pool s) (ls_session_store s)
    (ls_nonce_ledger s) (ls_signed_nonce_ledger s) (ls_proof_dedup_ledger s) l (ls_verifier_busy s) (ls_egress s).
Definition set_busy (s : LocalNodeState) (b : bool) : LocalNodeState :=
  mkLocalNode (ls_node s) (ls_verified_prefix_checkpoint s) (ls_bounty_registry s) (ls_bounty_side_pool s) (ls_session_store s)
    (ls_nonce_ledger s) (ls_signed_nonce_ledger s) (ls_proof_dedup_ledger s) (ls_receipt_store s) b (ls_egress s).
Definition push_egress (s : LocalNodeState) (e : EgressEvent) : LocalNodeState :=
  mkLocalNode (ls_node s) (ls_verified_prefix_checkpoint s) (ls_bounty_registry s) (ls_bounty_side_pool s) (ls_session_store s)
    (ls_nonce_ledger s) (ls_signed_nonce_ledger s) (ls_proof_dedup_ledger s) (ls_receipt_store s) (ls_verifier_busy s) (ls_egress s ++ [e]).

(** Errors that the handlers only log or turn into an internal error. *)
Inductive NodeError :=
| NodeRuntime (e : RuntimeError)
| NodeStore (e : StoreError)
| NodeIo (e : IoError)
| NodeHttp (e : HttpError)
| NodeBody
| NodeBounty
| NodeSettlement (e : SettlementError)
| NodeReplay (e : ReplayError)
| RewardNotCredited.

(** What the system answers while the lock is held: the clock, whether the
    lock files are still ours, whether a ledger path can be read. *)
Record Env := mkEnv {
  en_now_ms : N;
  en_state_dir_lock : bool;
  en_ledger_lock : bool;
  en_readable : string -> bool
}.

(** ** Running the parts *)

Definition on_node {E F A} (wrap : E -> F) (m : stm Node E A) : stm LocalNodeState F A := fun s =>
  let '(n, r) := m (ls_node s) in (set_node s n, map_err wrap r).

Definition on_host {E F A} (wrap : E -> F) (m : stm Host E A) : stm LocalNodeState F A := fun s =>
  let '(h, r) := m (ls_host s) in (set_node s (mkNode (ls_runtime s) h), map_err wrap r).

(** [if let Err(err) = ..]: an error becomes a value, a panic does not. *)
Definition scatch {S E F A} (m : stm S E A) : stm S F (E + A) := fun s =>
  match m s with
  | (s', Ok a) => (s', Ok (inr a))
  | (s', Err e) => (s', Ok (inl e))
  | (s', Panic) => (s', Panic)
  end.

(** A publish phase of the runtime. *)
Definition begin_publish (phase : CanonicalPublishPhase) : stm LocalNodeState NodeError unit :=
  on_node NodeRuntime (begin_canonical_publish phase).
Definition finish_publish : stm LocalNodeState NodeError unit := on_node NodeRuntime finish_canonical_publish.

(** Elements with their positions, to give each write its own answer. *)
Definition numbered {A} (l : list A) : list (nat * A) := imap pair l.

(** ** Verifier jobs *)

Definition BASE_LANE_VERIFIER_PROFILE : string := "v1-lenbound".

Record IngestedBlockReverifyJob := mkBlockJob {
  bj_block : PersistedBlock; bj_checker_dir : string; bj_pinned : string; bj_verifier_hash : string
}.

Record CandidateChainReverifyJob := mkChainJob {
  cj_candidate : list PersistedBlock; cj_checker_dir : string; cj_pinned : string; cj_verifier_hash : string
}.

Record ShareAdmissionReverifyJob := mkShareJob {
  sj_share : SelectedShareEvidence; sj_checker_dir : string; sj_pinned : string; sj_verifier_hash : string
}.

Inductive ShareAdmissionReverifyOutcome := ShareVerified | ShareDeterministicReject | ShareRetryableUnavailable.

(** ** Outcomes *)

Inductive IngressBlockOutcome := BlockIngested | BlockIgnored | BlockRejected | BlockDeferred.

Inductive IngressBlockPrepareOutcome :=
| BlockImmediate (o : IngressBlockOutcome)
| BlockReady (block : PersistedBlock) (skip_decision : CheckpointSkipDecision)
| BlockReverify (block : PersistedBlock) (job : IngestedBlockReverifyJob).

Inductive CandidateChainOutcome := ChainReorged (new_head_height : N) | ChainKeptCurrent | ChainRejected | ChainDeferred.

Inductive CandidateChainPrepareOutcome :=
| ChainImmediate (o : CandidateChainOutcome)
| ChainReady (candidate : list PersistedBlock)
| ChainReverify (candidate : list PersistedBlock) (job : CandidateChainReverifyJob).

(** [checkpoint.height - 1] indexes the block that completes the checkpoint. *)
Definition hash_at_checkpoint (cp : VerifiedPrefixCheckpoint) (blocks : list PersistedBlock) : option string :=
  match checked_sub (vp_height cp) 1 with
  | Some index => b_c <$> blocks !! N.to_nat index
  | None => None
  end.

(** What the file system answers while a block or a chain is committed. *)
Record BlockIo := mkBlockIo {
  bi_publish : PublishIo;
  bi_inspect : ReadIo;
  bi_bounty : nat -> AppendIo;
  bi_dedup : nat -> AppendIo;
  bi_remove_checkpoint : bool;
  bi_checkpoint : RewriteIo
}.

Record ChainIo := mkChainIo {
  ch_reorg : ReorgIo;
  ch_inspect : ReadIo;
  ch_dedup : RewriteIo;
  ch_bounty_read : ReadIo;
  ch_bounty_write : RewriteIo;
  ch_remove_checkpoint : bool
}.

(** ** Bounty state from the event log *)

Definition as_bool (v : Value) : option bool := match v with VBool b => Some b | _ => None end.

Definition event_bool (event : Value) (key : string) : option bool :=
  match value_get event key with Some v => as_bool v | None => None end.

Definition event_u64 (event : Value) (key : string) : option N :=
  match value_get event key with Some v => as_u64 v | None => None end.

(** The share a [share_promoted] row names. *)
Definition promoted_key (event : Value) : outcome NodeError (string * string * string) :=
  let* family_id := ok_or (event_string event "familyId") NodeBounty in
  let* bounty_id := ok_or (event_string event "bountyId") NodeBounty in
  let* proof_hash := ok_or (event_string event "proofHash") NodeBounty in
  Ok (family_id, bounty_id, proof_hash).

Definition collect_promoted (promoted : gset (string * string * string)) (event : Value)
    : outcome NodeError (gset (string * string * string)) :=
  if negb (bool_decide (event_string event "kind" = Some "share_promoted")) then Ok promoted
  else let* key := promoted_key event in Ok ({[key]} ∪ promoted).

(** One turn of the second loop: an accepted proof that no block carries. *)
Definition reinsert_proof (promoted : gset (string * string * string)) (registry : BountyRegistry) (event : Value)
    : stm BountySidePool NodeError unit :=
  if negb (bool_decide (event_string event "kind" = Some "proof")) then sret tt
  else if negb (default false (event_bool event "accepted")) then sret tt
  else
    let! bounty_id := slift (ok_or (event_string event "workId") NodeBounty) in
    let! proof_hash := slift (ok_or (event_string event "proofHash") NodeBounty) in
    let! prover := slift (ok_or (event_string event "solverPk") NodeBounty) in
    let! ts := slift (ok_or (event_u64 event "ts") NodeBounty) in
    match br_bounties registry !! bounty_id with
    | None => sret tt
    | Some bounty =>
        if bool_decide ((bo_domain bounty, bounty_id, proof_hash) ∈ promoted) then sret tt
        else smodify (fun pool => side_pool_insert pool (mkBountyShare bounty_id proof_hash prover (bo_domain bounty) ts
                                                         (default 0 (parse_uint u128_max (bo_reward bounty)))))
    end.

Definition rebuild_bounty_side_pool (registry : BountyRegistry) (events : list Value) : stm BountySidePool NodeError unit :=
  let! promoted := slift (ofold collect_promoted ∅ events) in
  sfor (reinsert_proof promoted registry) events.

Section LocalNode.
Context {X : Externals}.
Context {NB : Ndjson PersistedBlock} {NR : Ndjson PersistedRewardEvent} {NV : Ndjson Value} {ND : Ndjson ProofDedupEvent}.
Context {NC : Ndjson VerifiedPrefixCheckpoint}.

(** [serde_json::from_value] at the block type. *)
Context (block_of_value : Value -> option PersistedBlock).
Context (cfg : LocalNodeFields).

(** ** Reading the state *)

Definition current_head (s : LocalNodeState) : string := default (lf_genesis_c cfg) (rt_current_c (ls_runtime s)).

Definition head_summary (s : LocalNodeState) : HeadSummary :=
  mkHeadSummary (len (rt_block_cache (ls_runtime s))) (current_head s).

Definition write_authority_failure (env : Env) (s : LocalNodeState) : option string :=
  if negb (en_state_dir_lock env) then Some "state_dir_lock_lost"
  else if negb (en_ledger_lock env) then Some "ledger_lock_lost"
  else if any_indeterminate_write (ls_host s) (lf_ledger_lock_paths cfg) (en_readable env)
  then Some "storage_write_indeterminate"
  else None.

(** The genesis and the network scope every block is checked against. *)
Definition node_genesis (s : LocalNodeState) : GenesisSpec :=
  genesis_spec (rt_config (ls_runtime s)) (lf_network_id cfg) (lf_genesis_c cfg).

Definition node_scope : option string :=
  if lf_require_network_scoped_envelopes cfg then Some (lf_network_id cfg) else None.

(** The checker the network pins. *)
Definition checker_pin : option string :=
  match network_genesis_preset (lf_network_id cfg) with
  | Some preset => gp_checker_artifact_hash (gs_params preset)
  | None => None
  end.

(** Both the pin and a checker directory. *)
Definition pinned_checker : option (string * string) :=
  match checker_pin, lf_lean_checker_dir cfg with
  | Some pinned, Some dir => Some (dir, pinned)
  | _, _ => None
  end.

Definition base_lane_verifier_hash : string := lean_bound_verifier_hash BASE_LANE_VERIFIER_PROFILE.

Definition ingested_block_reverify_job (block : PersistedBlock) : option IngestedBlockReverifyJob :=
  (fun '(dir, pinned) => mkBlockJob block dir pinned base_lane_verifier_hash) <$> pinned_checker.

Definition run_ingested_block_reverify (ck : Checker) (job : IngestedBlockReverifyJob) : outcome Empty_set BlockReverifyOutcome :=
  reverify_block_selected_shares ck (bj_pinned job) (bj_verifier_hash job) BASE_LANE_MAX_HEARTBEATS BASE_LANE_MAX_REC_DEPTH
    (bj_block job).

Definition candidate_chain_reverify_job (s : LocalNodeState) (candidate : list PersistedBlock)
    : option CandidateChainReverifyJob :=
  match checker_pin with
  | None => None
  | Some pinned =>
      let reverify_from :=
        match ls_verified_prefix_checkpoint s with
        | Some cp => if checkpoint_survives_reorg cp (hash_at_checkpoint cp candidate) then N.to_nat (vp_height cp) else 0%nat
        | None => 0%nat
        end in
      if bool_decide (length candidate < reverify_from)%nat then None
      else match drop reverify_from candidate with
           | [] => None
           | suffix => (fun dir => mkChainJob suffix dir pinned base_lane_verifier_hash) <$> lf_lean_checker_dir cfg
           end
  end.

Definition run_candidate_chain_reverify (ck : Checker) (job : CandidateChainReverifyJob) : outcome Empty_set BlockReverifyOutcome :=
  reverify_candidate_chain_selected_shares ck (cj_pinned job) (cj_verifier_hash job) BASE_LANE_MAX_HEARTBEATS
    BASE_LANE_MAX_REC_DEPTH (cj_candidate job).

Definition admitted_share_reverify_is_configured : bool :=
  bool_decide (is_Some (lf_lean_checker_dir cfg)) && bool_decide (is_Some checker_pin).

Definition admitted_share_reverify_job (share : SelectedShareEvidence) : option ShareAdmissionReverifyJob :=
  (fun '(dir, pinned) => mkShareJob share dir pinned base_lane_verifier_hash) <$> pinned_checker.

Definition run_admitted_share_reverify (ck : Checker) (job : ShareAdmissionReverifyJob)
    : outcome Empty_set ShareAdmissionReverifyOutcome :=
  let* o := reverify_share_evidence ck (sj_pinned job) (sj_verifier_hash job) BASE_LANE_MAX_HEARTBEATS BASE_LANE_MAX_REC_DEPTH
    (sj_share job) in
  Ok (match o with
      | Verified => ShareVerified
      | DeterministicReject => ShareDeterministicReject
      | RetryableUnavailable => ShareRetryableUnavailable
      end).

(** ** Shared tails *)

Definition append_block_bounty_events (block : PersistedBlock) (io : nat -> AppendIo) : stm LocalNodeState NodeError unit :=
  match lf_bounty_event_ledger_path cfg with
  | None => sret tt
  | Some path =>
      let! s := sget in
      let! rows := slift (map_err NodeRuntime (derive_bounty_events block (rt_family_registry (ls_runtime s)))) in
      sfor (fun '(i, event) => on_host NodeStore (bounty_append path event (io i))) (numbered (rows.1 ++ rows.2))
  end.

(** [if let (Some(path), Some(ledger)) = .. { ledger.append_credit(..) }]. *)
Definition append_proof_credit (canon_hash : string) (io : AppendIo) : stm LocalNodeState NodeError unit := fun s =>
  match lf_proof_dedup_ledger_path cfg, ls_proof_dedup_ledger s with
  | Some path, Some ledger =>
      let '((h, ledger'), r) := append_credit path canon_hash io (ls_host s, ledger) in
      (set_proof_dedup (set_node s (mkNode (ls_runtime s) h)) (Some ledger'), map_err NodeStore (omap (fun _ => tt) r))
  | _, _ => (s, Ok tt)
  end.

(** The checkpoint is dropped from memory; the file's removal may fail. *)
Definition discard_checkpoint (removed : bool) : stm LocalNodeState NodeError unit := fun s =>
  let '(h, _) := remove_file (ls_host s) (lf_checkpoint_path cfg) removed in
  (set_node (set_checkpoint s None) (mkNode (ls_runtime s) h), Ok tt).

(** Only the file advances; a write failure is logged. *)
Definition advance_verified_checkpoint (block : PersistedBlock) (io : RewriteIo) : stm LocalNodeState NodeError unit := fun s =>
  match build_verified_checkpoint (lf_genesis_spec_hash cfg) checker_pin BASE_LANE_MAX_HEARTBEATS BASE_LANE_MAX_REC_DEPTH
          (len (rt_block_cache (ls_runtime s))) (b_c block) with
  | None => (s, Ok tt)
  | Some cp => let '(h, _) := write_checkpoint (lf_checkpoint_path cfg) cp io (ls_host s) in
               (set_node s (mkNode (ls_runtime s) h), Ok tt)
  end.

(** ** One announced block *)

Definition validate_announced_block (env : Env) (s : LocalNodeState) (block : PersistedBlock)
    : outcome IngressBlockOutcome CheckpointSkipDecision :=
  let r := ls_runtime s in
  do* map_err (fun _ => BlockDeferred) (ensure_canonical_state_healthy r);
  do* ensure ((b_height block =? len (rt_block_cache r)) && String.eqb (b_prev_c block) (current_head s)) BlockIgnored;
  do* map_err (fun _ => BlockRejected) (check_block_ts_future_drift (b_ts block) (en_now_ms env));
  do* map_err (fun _ => BlockRejected)
        (replay_blocks_with_genesis_and_registry_for_authorization_network (rt_block_cache r ++ [block]) (node_genesis s)
           (rt_family_registry r) node_scope);
  Ok (checkpoint_skip_decision (ls_verified_prefix_checkpoint s) (b_height block) (b_c block)).

Definition prepare_announced_block (env : Env) (block_value : Value) : stm LocalNodeState NodeError IngressBlockPrepareOutcome :=
  fun s =>
    if bool_decide (is_Some (write_authority_failure env s)) then (s, Ok (BlockImmediate BlockDeferred))
    else match block_of_value block_value with
         | None => (s, Ok (BlockImmediate BlockRejected))
         | Some block =>
             match validate_announced_block env s block with
             | Panic => (s, Panic)
             | Err o => (s, Ok (BlockImmediate o))
             | Ok SkipReverify => (s, Ok (BlockReady block SkipReverify))
             | Ok skip =>
                 match ingested_block_reverify_job block with
                 | None => (s, Ok (BlockReady block skip))
                 | Some job =>
                     if ls_verifier_busy s then (s, Ok (BlockImmediate BlockDeferred))
                     else (set_busy s true, Ok (BlockReverify block job))
                 end
             end
         end.

(** The block file is read again after a failed publish. *)
Definition block_is_durable (s : LocalNodeState) (block : PersistedBlock) (io : ReadIo) : bool :=
  bool_decide (is_Some (rt_canonical_state_failure (ls_runtime s))) &&
  match block_store_inspect (ls_host s) (lf_block_path cfg) io with
  | Ok blocks => bool_decide (last blocks = Some block)
  | _ => false
  end.

Definition commit_announced_block (env : Env) (io : BlockIo) (block : PersistedBlock) (skip_decision : CheckpointSkipDecision)
    (was_lean_reverified : bool) : stm LocalNodeState NodeError IngressBlockOutcome :=
  let! s := sget in
  if bool_decide (is_Some (write_authority_failure env s)) then sret BlockDeferred
  else
    do! (if bool_decide (skip_decision = DivergedDiscardThenReverify) then discard_checkpoint (bi_remove_checkpoint io) else sret tt);
    let lean_reverified := if bool_decide (skip_decision = SkipReverify) then false else was_lean_reverified in
    let! ingested := scatch (on_node NodeRuntime (ingest_external_block (lf_block_path cfg) block (bi_publish io))) in
    match ingested with
    | inl _ =>
        let! s := sget in
        sret (if block_is_durable s block (bi_inspect io) then BlockIngested else BlockDeferred)
    | inr _ =>
        do! begin_publish BountyProjection;
        let! rows := scatch (append_block_bounty_events block (bi_bounty io)) in
        match rows with
        | inl _ => sret BlockIngested
        | inr _ =>
            do! begin_publish ProofDedup;
            let! credits := scatch (sfor (fun '(i, evidence) => append_proof_credit (ev_canon_hash evidence) (bi_dedup io i))
                                      (numbered (b_selected_share_evidence block))) in
            match credits with
            | inl _ => sret BlockIngested
            | inr _ =>
                do! finish_publish;
                do! (if lean_reverified then advance_verified_checkpoint block (bi_checkpoint io) else sret tt);
                sret BlockIngested
            end
        end
    end.

(** The permit is released when the handler returns. *)
Definition release_permit {A} (m : stm LocalNodeState NodeError A) : stm LocalNodeState NodeError A := fun s =>
  let '(s', r) := m s in (set_busy s' false, r).

Definition finish_announced_block_reverify (env : Env) (io : BlockIo) (block : PersistedBlock) (outcome : BlockReverifyOutcome)
    : stm LocalNodeState NodeError IngressBlockOutcome :=
  match outcome with
  | DeterministicReject => sret BlockRejected
  | RetryableUnavailable => sret BlockDeferred
  | Verified =>
      let! s := sget in
      match validate_announced_block env s block with
      | Panic => slift Panic
      | Err o => sret o
      | Ok skip_decision => commit_announced_block env io block skip_decision true
      end
  end.

(** The first lock phase of [ingest_announced_block_shared]: the path without a
    checker commits under the same guard. *)
Definition ingest_block_phase1 (env : Env) (io : BlockIo) (block_value : Value)
    : stm LocalNodeState NodeError (IngressBlockOutcome + PersistedBlock * IngestedBlockReverifyJob) :=
  let! prepared := prepare_announced_block env block_value in
  match prepared with
  | BlockImmediate o => sret (inl o)
  | BlockReady block skip => let! o := commit_announced_block env io block skip false in sret (inl o)
  | BlockReverify block job => sret (inr (block, job))
  end.

(** A worker that panicked counts as unavailable. *)
Definition worker_outcome (o : outcome Empty_set BlockReverifyOutcome) : BlockReverifyOutcome :=
  match o with Ok o => o | _ => RetryableUnavailable end.

Definition ingest_block_phase2 (env : Env) (io : BlockIo) (ck : Checker) (block : PersistedBlock) (job : IngestedBlockReverifyJob)
    : stm LocalNodeState NodeError IngressBlockOutcome :=
  release_permit (finish_announced_block_reverify env io block (worker_outcome (run_ingested_block_reverify ck job))).


(** ** A competing chain *)

Definition rebuild_proof_dedup_mirror_after_reorg (adopted : list PersistedBlock) (io : RewriteIo)
    : stm LocalNodeState NodeError unit := fun s =>
  match lf_proof_dedup_ledger_path cfg with
  | None => (s, Ok tt)
  | Some path =>
      let canon_hashes := map ev_canon_hash (flat_map b_selected_share_evidence adopted) in
      let '(h, r) := rebuild_from_credits path canon_hashes io (ls_host s) in
      let s := set_node s (mkNode (ls_runtime s) h) in
      (match r with Ok ledger => set_proof_dedup s (Some ledger) | _ => s end, map_err NodeStore (omap (fun _ => tt) r))
  end.

(** The side pool is emptied before it is rebuilt. *)
Definition rebuild_bounty_state_after_reorg (adopted : list PersistedBlock) (read_io : ReadIo) (write_io : RewriteIo)
    : stm LocalNodeState NodeError unit :=
  match lf_bounty_event_ledger_path cfg with
  | None => sret tt
  | Some path =>
      let! existing := on_host NodeStore (bounty_recover path read_io) in
      let! s := sget in
      let! rebuilt := slift (map_err NodeRuntime
        (rebuild_bounty_ledger_rows existing adopted (rt_family_registry (ls_runtime s)))) in
      do! on_host NodeStore (bounty_rewrite_atomic path rebuilt write_io);
      fun s =>
        let '(pool, r) := rebuild_bounty_side_pool (ls_bounty_registry s) rebuilt side_pool_new in (set_side_pool s pool, r)
  end.

(** The blocks of the announced values, or [None] when one does not parse. *)
Definition parse_candidate (values : list Value) : option (list PersistedBlock) :=
  fold_right (fun v rest => match block_of_value v, rest with Some b, Some bs => Some (b :: bs) | _, _ => None end) (Some []) values.

Definition prepare_candidate_chain (env : Env) (values : list Value) : stm LocalNodeState NodeError CandidateChainPrepareOutcome :=
  fun s =>
    if bool_decide (is_Some (write_authority_failure env s)) then (s, Ok (ChainImmediate ChainDeferred))
    else if negb (is_ok (ensure_canonical_state_healthy (ls_runtime s))) then (s, Ok (ChainImmediate ChainDeferred))
    else match parse_candidate values with
         | None => (s, Ok (ChainImmediate ChainRejected))
         | Some candidate =>
             match preflight_reorg_candidate (ls_runtime s) candidate (node_genesis s) (en_now_ms env) with
             | Panic => (s, Panic)
             | Err _ => (s, Ok (ChainImmediate ChainRejected))
             | Ok KeptCurrent => (s, Ok (ChainImmediate ChainKeptCurrent))
             | Ok (Reorged _) =>
                 match candidate_chain_reverify_job s candidate with
                 | None => (s, Ok (ChainReady candidate))
                 | Some job =>
                     if ls_verifier_busy s then (s, Ok (ChainImmediate ChainDeferred))
                     else (set_busy s true, Ok (ChainReverify candidate job))
                 end
             end
         end.

(** The checkpoint no longer lies on the adopted chain. *)
Definition checkpoint_invalidated (s : LocalNodeState) (candidate : list PersistedBlock) : bool :=
  match ls_verified_prefix_checkpoint s with
  | Some cp => negb (checkpoint_survives_reorg cp (hash_at_checkpoint cp candidate))
  | None => false
  end.

(** What the peer is told after a failed reorg. *)
Definition failed_reorg_outcome (s : LocalNodeState) (candidate : list PersistedBlock) (io : ReadIo) : CandidateChainOutcome :=
  let publish_failed := bool_decide (is_Some (rt_canonical_state_failure (ls_runtime s))) in
  let candidate_is_durable :=
    publish_failed && match block_store_inspect (ls_host s) (lf_block_path cfg) io with
                      | Ok blocks => bool_decide (blocks = candidate)
                      | _ => false
                      end in
  if candidate_is_durable then ChainReorged (match last candidate with Some b => b_height b | None => 0 end)
  else if publish_failed then ChainDeferred
  else ChainRejected.

Definition commit_candidate_chain (env : Env) (io : ChainIo) (candidate : list PersistedBlock)
    : stm LocalNodeState NodeError CandidateChainOutcome :=
  let! s := sget in
  if bool_decide (is_Some (write_authority_failure env s)) then sret ChainDeferred
  else if negb (is_ok (ensure_canonical_state_healthy (ls_runtime s))) then sret ChainDeferred
  else
    let! result := scatch (on_node NodeRuntime
      (reorg_to_heavier_chain (lf_block_path cfg) candidate (node_genesis s) (en_now_ms env) (ch_reorg io))) in
    match result with
    | inl _ => let! s := sget in sret (failed_reorg_outcome s candidate (ch_inspect io))
    | inr KeptCurrent => sret ChainKeptCurrent
    | inr (Reorged new_head_height) =>
        do! begin_publish ProofDedup;
        let! mirror := scatch (rebuild_proof_dedup_mirror_after_reorg candidate (ch_dedup io)) in
        match mirror with
        | inl _ => sret (ChainReorged new_head_height)
        | inr _ =>
            do! begin_publish BountyProjection;
            let! bounty := scatch (rebuild_bounty_state_after_reorg candidate (ch_bounty_read io) (ch_bounty_write io)) in
            match bounty with
            | inl _ => sret (ChainReorged new_head_height)
            | inr _ =>
                do! finish_publish;
                let! s := sget in
                do! (if checkpoint_invalidated s candidate then discard_checkpoint (ch_remove_checkpoint io) else sret tt);
                sret (ChainReorged new_head_height)
            end
        end
    end.

Definition finish_candidate_chain_reverify (env : Env) (io : ChainIo) (candidate : list PersistedBlock)
    (outcome : BlockReverifyOutcome) : stm LocalNodeState NodeError CandidateChainOutcome :=
  match outcome with
  | DeterministicReject => sret ChainRejected
  | RetryableUnavailable => sret ChainDeferred
  | Verified => commit_candidate_chain env io candidate
  end.

Definition ingest_chain_phase1 (env : Env) (io : ChainIo) (values : list Value)
    : stm LocalNodeState NodeError (CandidateChainOutcome + list PersistedBlock * CandidateChainReverifyJob) :=
  let! prepared := prepare_candidate_chain env values in
  match prepared with
  | ChainImmediate o => sret (inl o)
  | ChainReady candidate => let! o := commit_candidate_chain env io candidate in sret (inl o)
  | ChainReverify candidate job => sret (inr (candidate, job))
  end.

Definition ingest_chain_phase2 (env : Env) (io : ChainIo) (ck : Checker) (candidate : list PersistedBlock)
    (job : CandidateChainReverifyJob) : stm LocalNodeState NodeError CandidateChainOutcome :=
  release_permit (finish_candidate_chain_reverify env io candidate (worker_outcome (run_candidate_chain_reverify ck job))).

End LocalNode.
