(* ===== verification/LocalSubmit.v ===== *)
(** * The served node: submissions (boole-node/src/local_node.rs)

    A share arrives over HTTP with its session, or from a peer. Both go through
    the runtime's admission; on a node with a pinned checker the admitted share
    is taken out of the candidates, the checker runs without the lock, and the
    share comes back only after a second round of checks. Each lock phase of a
    handler is one operation; a phase reads the clock once. *)

From S2P Require Import Prelude Json Externals Hash Block BlockBuilder Difficulty Config ShareAuthorization FamilyManifest Bounty.
From S2P Require Import ReplayEvidence Replay SharePool RateLimiter Admission Durability BountyLedger Stores Runtime EventStores Receipts P2pWire.
From S2P Require Import Validator SubmitGate ShareVerifier LocalNode.

Definition u8_max : N := 255.
Definition i64_max : N := 2 ^ 63 - 1.

Record PreparedSubmitCommit := mkPrepared {
  pr_body : list (string * Value);
  pr_canon_tag : N;
  pr_ts_raw : N;
  pr_admitted_at : Z;
  pr_share_hash : string;
  pr_proof_canon_hash : string;
  pr_chain_anchor : string;
  pr_peer_ip : string;
  pr_reserved_candidate : option CandidateShare
}.

(** The bodies of the 200 responses. *)
Inductive SubmitReply :=
| ReplyCanonTagOutOfRange (canon_tag : N)
| ReplyTsOutOfRange (ts : N)
| ReplyNotAdmitted (decision : AdmissionDecision) (c : string)
| ReplyRefused (code c : string)
| ReplyShareOnly (share_hash : string) (height : N) (c : string)
| ReplyBlock (share_hash : string) (block : PersistedBlock) (height : N) (c : string) (replay_matches_runtime : bool)
    (dropped_stale_shares : N) (receipt : option Value).

Inductive SubmitPrepareOutcome :=
| SubmitImmediate (reply : SubmitReply)
| SubmitRetryableUnavailable (code : string)
| SubmitCommit (prepared : PreparedSubmitCommit)
| SubmitReverify (prepared : PreparedSubmitCommit) (job : ShareAdmissionReverifyJob).

Inductive SubmitResponse := RespReply (reply : SubmitReply) | RespError (e : HttpError).

(** A handler ends, or waits for the checker. *)
Inductive SubmitPhase := SubmitDone (r : SubmitResponse) | SubmitPending (prepared : PreparedSubmitCommit) (job : ShareAdmissionReverifyJob).

Record SubmitIo := mkSubmitIo {
  si_nonce : AppendIo;
  si_publish : PublishIo;
  si_dedup : AppendIo;
  si_bounty : nat -> AppendIo;
  si_receipt : AppendIo;
  si_inspect : ReadIo
}.

Inductive IngressShareOutcome := ShareAdmitted | ShareRejected (code : string) | ShareDeferred (code : string).

Record PreparedIngressShare := mkIngressShare {
  is_reserved_candidate : CandidateShare;
  is_reverify_job : ShareAdmissionReverifyJob;
  is_proof_canon_hash : string;
  is_admitted_at : Z;
  is_peer_ip : string
}.

Inductive IngressSharePrepareOutcome :=
| ShareImmediate (o : IngressShareOutcome)
| ShareReverify (prepared : PreparedIngressShare).

Section LocalSubmit.
Context {X : Externals}.
Context {NB : Ndjson PersistedBlock} {NR : Ndjson PersistedRewardEvent} {NV : Ndjson Value} {ND : Ndjson ProofDedupEvent}.
Context {NN : Ndjson NonceEvent}.

(** [serde_json::from_value] at the authorization type. *)
Context (authorization_of_value : Value -> option ShareWorkAuthorization).
Context (cfg : LocalNodeFields).

(** ** Parts *)

Definition proof_credited (s : LocalNodeState) (canon_hash : string) : bool :=
  match ls_proof_dedup_ledger s with Some ledger => dedup_contains ledger canon_hash | None => false end.

Definition quarantine (share_hash : string) : stm LocalNodeState NodeError bool :=
  on_node NodeRuntime (quarantine_candidate share_hash).

Definition release_reservation (candidate : CandidateShare) (admitted_at : Z) (peer_ip : string) : stm LocalNodeState NodeError bool :=
  on_node NodeRuntime (rt_release_semantic_reservation candidate admitted_at peer_ip).

Definition announce_admitted_share (body : list (string * Value)) (canon_tag ts : N) (signed_work : option ShareWorkAuthorization)
    : stm LocalNodeState NodeError unit := fun s =>
  (if lf_p2p_egress cfg then push_egress s (EgressShare body canon_tag ts signed_work (head_summary cfg s)) else s, Ok tt).

Definition announce_committed_block (block : PersistedBlock) : stm LocalNodeState NodeError unit := fun s =>
  (if lf_p2p_egress cfg then push_egress s (EgressBlock block (head_summary cfg s)) else s, Ok tt).

Definition burn_submit_nonce (session : CheckedSubmitSession) (io : AppendIo) : stm LocalNodeState NodeError unit := fun s =>
  match lf_submit_nonce_ledger_path cfg, ls_nonce_ledger s with
  | Some path, Some ledger =>
      let '((h, ledger'), r) := append_burn path (ck_submitted_by session) (ck_nonce session) io (ls_host s, ledger) in
      (set_nonce_ledger (set_node s (mkNode (ls_runtime s) h)) (Some ledger'),
       match r with
       | Ok true => Ok tt
       | Ok false => Err (NodeHttp (HttpNonceReplayed (ck_submitted_by session) (ck_nonce session)))
       | Err _ => Err (NodeHttp HttpInternal)
       | Panic => Panic
       end)
  | _, _ => (s, Err (NodeHttp HttpSessionRegistryDisabled))
  end.

Definition compute_replay_matches_runtime (s : LocalNodeState) (io : ReadIo) : bool :=
  match block_store_inspect (ls_host s) (lf_block_path cfg) io with
  | Ok [] => (len (rt_block_cache (ls_runtime s)) =? 0) && bool_decide (is_Some (rt_current_c (ls_runtime s)))
  | Ok blocks =>
      match replay_under_boot_contract (ls_runtime s) blocks with
      | Ok replay => (rr_height replay =? len (rt_block_cache (ls_runtime s)))
                     && bool_decide (Some (rr_latest_c replay) = rt_current_c (ls_runtime s))
      | _ => false
      end
  | _ => false
  end.

Definition submit_receipt_json (session : CheckedSubmitSession) (block : PersistedBlock) (share_hash : string)
    : outcome NodeError Value :=
  let* credits := map_err NodeReplay (compute_block_reward_credits block) in
  let* credit := ok_or (List.find (fun c => String.eqb (pc_pk c) (ck_reward_recipient session)) credits) RewardNotCredited in
  Ok (VObject [("accepted", VBool true); ("blockC", VString (b_c block)); ("blockHeight", VNumber (PosInt (b_height block)));
               ("nonce", VString (ck_nonce session)); ("proposerPk", VString (b_proposer_pk block));
               ("requestHash", VString (ck_request_hash session)); ("rewardAmount", VString (pc_amount credit));
               ("rewardRecipient", VString (ck_reward_recipient session)); ("route", VString (ck_route session));
               ("schema", VString "boole.submit.receipt.v1"); ("sessionPk", VString (ck_submitted_by session));
               ("shareHash", VString share_hash); ("submittedBy", VString (ck_submitted_by session))]).

(** The share body of an envelope: its [body] object, or the envelope itself. *)
Definition share_body (envelope : list (string * Value)) : list (string * Value) :=
  normalize_pow_fields (default envelope (get_object envelope "body")).

Definition envelope_u64 (envelope : list (string * Value)) (field : string) : option N :=
  match assoc field envelope with Some v => as_u64 v | None => None end.

(** ** HTTP submissions *)

Definition submit_prepare (env : Env) (body : option Value) (peer_ip : string) (session : option CheckedSubmitSession)
    : stm LocalNodeState NodeError SubmitPrepareOutcome :=
  let! submit_body := slift (ok_or (match body with Some (VObject m) => Some m | _ => None end) NodeBody) in
  let canon_tag := default 0 (envelope_u64 submit_body "canonTag") in
  if u8_max <? canon_tag then sret (SubmitImmediate (ReplyCanonTagOutOfRange canon_tag))
  else
    let ts_raw := default (en_now_ms env) (envelope_u64 submit_body "ts") in
    if i64_max <? ts_raw then sret (SubmitImmediate (ReplyTsOutOfRange ts_raw))
    else
      let admitted_at := Z.of_N (en_now_ms env) in
      let body := share_body submit_body in
      let signed_work := ck_signed_work <$> session in
      do! on_node NodeRuntime (observe_ticket_from_body body);
      let! decision := on_node NodeRuntime
        (admit_body_with_submitter_context admitted_at peer_ip body canon_tag (ck_reward_recipient <$> session) signed_work) in
      let! s := sget in
      match decision with
      | DRejected _ _ _ => sret (SubmitImmediate (ReplyNotAdmitted decision (current_head cfg s)))
      | DAccepted hash =>
          let share_hash := to_hex hash in
          let canon_hash := proof_canon_hash body in
          if proof_credited s canon_hash then
            do! quarantine share_hash;
            sret (SubmitImmediate (ReplyRefused "duplicate_proof" (current_head cfg s)))
          else match selected_share_evidence_from_body body signed_work with
               | Panic => slift Panic
               | Err decision =>
                   do! quarantine share_hash;
                   sret (SubmitImmediate (ReplyNotAdmitted decision (current_head cfg s)))
               | Ok evidence =>
                   let prepared := mkPrepared body canon_tag ts_raw admitted_at share_hash canon_hash (ev_c evidence) peer_ip in
                   match admitted_share_reverify_job cfg evidence with
                   | None => sret (SubmitCommit (prepared None))
                   | Some job =>
                       let! reserved := on_node NodeRuntime (take_candidate_for_reverify share_hash admitted_at peer_ip) in
                       match reserved with
                       | None => sret (SubmitRetryableUnavailable "lean_reverify_reservation_failed")
                       | Some candidate => sret (SubmitReverify (prepared (Some candidate)) job)
                       end
                   end
               end
      end.

Definition submit_finalize (env : Env) (io : SubmitIo) (prepared : PreparedSubmitCommit) (session : option CheckedSubmitSession)
    : stm LocalNodeState NodeError SubmitReply :=
  do! announce_admitted_share (pr_body prepared) (pr_canon_tag prepared) (pr_ts_raw prepared) (ck_signed_work <$> session);
  do! match session with Some session => burn_submit_nonce session (si_nonce io) | None => sret tt end;
  let accepted_tags := {[pr_canon_tag prepared]} in
  let! s := sget in
  let! selection := slift (map_err NodeRuntime (build_block_selection_for_current_c (ls_runtime s) accepted_tags)) in
  match selection with
  | NoProposer _ _ _ =>
      sret (ReplyShareOnly (pr_share_hash prepared) (len (rt_block_cache (ls_runtime s))) (current_head cfg s))
  | Built _ =>
      do! slift (map_err NodeRuntime (check_block_ts_future_drift (pr_ts_raw prepared) (en_now_ms env)));
      let! promoted := slift (map_err NodeSettlement
        (select_promoted_bounty_selection (ls_bounty_side_pool s) (lf_family_manifest_registry cfg)
           (len (rt_block_cache (ls_runtime s))) (lf_operator_signer_pks cfg))) in
      let! committed := on_node NodeRuntime
        (commit_next_block_for_current_c_with_promoted (lf_block_path cfg) (pr_ts_raw prepared) accepted_tags
           (ps_shares promoted) (si_publish io)) in
      let block := cb_block committed in
      do! begin_publish ProofDedup;
      do! append_proof_credit cfg (pr_proof_canon_hash prepared) (si_dedup io);
      do! begin_publish BountyProjection;
      do! append_block_bounty_events cfg block (si_bounty io);
      do! smodify (fun s => set_side_pool s (remove_promoted (ls_bounty_side_pool s) (ps_shares promoted)).1);
      do! finish_publish;
      do! announce_committed_block block;
      let! s := sget in
      let! receipt := match session with
                      | Some session => slift (omap Some (submit_receipt_json session block (pr_share_hash prepared)))
                      | None => sret None
                      end in
      do! match lf_submit_receipt_ledger_path cfg, receipt with
          | Some path, Some receipt => on_host NodeStore (append_line path receipt (si_receipt io))
          | _, _ => sret tt
          end;
      let! s' := sget in
      sret (ReplyBlock (pr_share_hash prepared) block (b_height block + 1) (current_head cfg s)
              (compute_replay_matches_runtime s' (si_inspect io)) (cb_dropped_stale_shares committed) receipt)
  end.

Definition submit_internal_error_response (s : LocalNodeState) : SubmitResponse :=
  match rt_canonical_state_failure (ls_runtime s) with
  | Some phase => RespError (HttpCanonicalStateInconsistent (phase_code phase))
  | None => RespError HttpInternal
  end.

Definition session_gate (s : LocalNodeState) (body : option Value) : outcome HttpError (option CheckedSubmitSession) :=
  submit_session_gate (lf_submit_nonce_ledger_path cfg) (ls_session_store s) (ls_nonce_ledger s)
    (len (rt_block_cache (ls_runtime s))) (mkNetworkPolicy (lf_network_id cfg) (lf_require_network_scoped_envelopes cfg)) body.

(** What every write phase checks first. *)
Definition write_refused (env : Env) (s : LocalNodeState) : option HttpError :=
  match write_authority_failure cfg env s with
  | Some reason => Some (HttpWriteAuthorityLost reason)
  | None => match rt_canonical_state_failure (ls_runtime s) with
            | Some phase => Some (HttpCanonicalStateInconsistent (phase_code phase))
            | None => None
            end
  end.

(** The first lock phase of [submit_handler]. Without a checker job the share is
    finalized under the same guard, with the answers [env'] and [io]. *)
Definition submit_phase1 (env env' : Env) (io : SubmitIo) (body : option Value) (peer_ip : string)
    : stm LocalNodeState NodeError SubmitPhase :=
  let done (r : SubmitResponse) := sret (SubmitDone r) in
  let! s := sget in
  match write_refused env s with
  | Some e => done (RespError e)
  | None =>
      match session_gate s body with
      | Panic => slift Panic
      | Err e => done (RespError e)
      | Ok session =>
          if bool_decide (session = None) && negb (lf_allow_anonymous_submit cfg) then done (RespError HttpUnauthenticatedSubmit)
          else if admitted_share_reverify_is_configured cfg && ls_verifier_busy s then done (RespError HttpSemanticVerifierBusy)
          else
            let! outcome := scatch (submit_prepare env body peer_ip session) in
            match outcome with
            | inl _ => let! s := sget in done (submit_internal_error_response s)
            | inr (SubmitImmediate reply) => done (RespReply reply)
            | inr (SubmitRetryableUnavailable code) => done (RespError (HttpSemanticVerifierUnavailable code))
            | inr (SubmitCommit prepared) =>
                let! result := scatch (submit_finalize env' io prepared session) in
                match result with
                | inr reply => done (RespReply reply)
                | inl _ => let! s := sget in done (submit_internal_error_response s)
                end
            | inr (SubmitReverify prepared job) =>
                if admitted_share_reverify_is_configured cfg
                then do! smodify (fun s => set_busy s true); sret (SubmitPending prepared job)
                else slift Panic
            end
      end
  end.

(** [SemanticReservationCleanup::release_now]. *)
Definition release_now (prepared : PreparedSubmitCommit) : stm LocalNodeState NodeError unit :=
  match pr_reserved_candidate prepared with
  | Some candidate => do! release_reservation candidate (pr_admitted_at prepared) (pr_peer_ip prepared); sret tt
  | None => sret tt
  end.

(** The last lock phase; [None] is a checker task that was lost or panicked. *)
Definition submit_finish (env : Env) (io : SubmitIo) (body : option Value) (prepared : PreparedSubmitCommit)
    (reverify : option ShareAdmissionReverifyOutcome) : stm LocalNodeState NodeError SubmitResponse :=
  let unavailable := RespError (HttpSemanticVerifierUnavailable "lean_reverify_unavailable") in
  let! s := sget in
  match reverify with
  | None =>
      match write_authority_failure cfg env s with
      | Some reason => sret (RespError (HttpWriteAuthorityLost reason))
      | None => do! release_now prepared; sret unavailable
      end
  | Some verdict =>
      match write_refused env s with
      | Some e => sret (RespError e)
      | None =>
          match verdict with
          | ShareDeterministicReject => sret (RespReply (ReplyRefused "lean_reverify_reject" (current_head cfg s)))
          | ShareRetryableUnavailable => do! release_now prepared; sret unavailable
          | ShareVerified =>
              if negb (String.eqb (current_head cfg s) (pr_chain_anchor prepared))
              then sret (RespReply (ReplyRefused "stale_c" (current_head cfg s)))
              else if proof_credited s (pr_proof_canon_hash prepared)
              then sret (RespReply (ReplyRefused "duplicate_proof" (current_head cfg s)))
              else match session_gate s body with
                   | Panic => slift Panic
                   | Err e => sret (RespError e)
                   | Ok session =>
                       match pr_reserved_candidate prepared with
                       | None => sret (RespError HttpInternal)
                       | Some candidate =>
                           let! restored := on_node NodeRuntime (restore_reverified_candidate candidate) in
                           if negb restored then
                             do! release_now prepared;
                             sret (RespError (HttpSemanticVerifierUnavailable "lean_reverify_restore_failed"))
                           else
                             let! result := scatch (submit_finalize env io prepared session) in
                             match result with
                             | inr reply => sret (RespReply reply)
                             | inl _ =>
                                 do! quarantine (pr_share_hash prepared);
                                 let! s := sget in sret (submit_internal_error_response s)
                             end
                       end
                   end
          end
      end
  end.

Definition submit_phase3 (env : Env) (io : SubmitIo) (ck : Checker) (body : option Value) (prepared : PreparedSubmitCommit)
    (job : ShareAdmissionReverifyJob) : stm LocalNodeState NodeError SubmitResponse :=
  release_permit (submit_finish env io body prepared
    (match run_admitted_share_reverify ck job with Ok o => Some o | _ => None end)).

(** The request was dropped while the checker ran: only the permit comes back. *)
Definition submit_cancelled : stm LocalNodeState NodeError unit := release_permit (sret tt).


(** ** Shares from peers *)

(** The relayed authorization describes the relayed body. *)
Definition identity_holds (v : VerifiedShareAuthorization) (body : list (string * Value)) : bool :=
  let field f := default "" (get_str body f) in
  String.eqb (va_signer_pk v) (va_work_pk v) && String.eqb (va_work_pk v) (field "pk") && String.eqb (va_work_n v) (field "n")
  && String.eqb (va_work_j v) (field "j") && String.eqb (va_work_c v) (field "c") && String.eqb (va_work_bytes_hex v) (field "bytes").

(** The authorization of an envelope, and the reward key it names. *)
Definition relayed_authorization (envelope : list (string * Value)) (body : list (string * Value))
    : outcome string (option ShareWorkAuthorization * option string) :=
  let* signed_work := match assoc "signedWork" envelope with
                      | Some raw => omap Some (ok_or (authorization_of_value raw) "invalid_share_authorization")
                      | None => Ok None
                      end in
  let* verified := map_err (fun _ => match signed_work with
                                     | None => "missing_share_authorization"
                                     | Some _ => "invalid_share_authorization"
                                     end)
    (verify_share_work_authorization_for_network signed_work (node_scope cfg)) in
  match verified with
  | None => Ok (signed_work, None)
  | Some v =>
      do* ensure (identity_holds v body) "invalid_share_authorization";
      Ok (signed_work, Some (va_reward_recipient v))
  end.

Definition ingress_prepare_share (env : Env) (submission : Value) (peer_ip : string)
    : stm LocalNodeState NodeError IngressSharePrepareOutcome :=
  let rejected code := sret (ShareImmediate (ShareRejected code)) in
  let! s := sget in
  match write_authority_failure cfg env s with
  | Some code => sret (ShareImmediate (ShareDeferred code))
  | None =>
      if negb (is_ok (ensure_canonical_state_healthy (ls_runtime s))) then rejected "canonical_state_inconsistent"
      else match submission with
           | VObject envelope =>
               let canon_tag := default 0 (envelope_u64 envelope "canonTag") in
               if u8_max <? canon_tag then rejected "canon_tag_out_of_range"
               else if i64_max <? default (en_now_ms env) (envelope_u64 envelope "ts") then rejected "ts_out_of_range"
               else
                 let admitted_at := Z.of_N (en_now_ms env) in
                 let body := share_body envelope in
                 match relayed_authorization envelope body with
                 | Panic => slift Panic
                 | Err code => rejected code
                 | Ok (signed_work, reward_pk) =>
                     let configured := admitted_share_reverify_is_configured cfg in
                     if configured && ls_verifier_busy s then sret (ShareImmediate (ShareDeferred "lean_reverify_busy"))
                     else
                       let! observed := scatch (on_node NodeRuntime (observe_ticket_from_body body)) in
                       match observed with
                       | inl _ => rejected "ticket_observe_failed"
                       | inr _ =>
                           let! decision := on_node NodeRuntime
                             (admit_body_with_submitter_context admitted_at peer_ip body canon_tag reward_pk signed_work) in
                           match decision with
                           | DRejected _ _ _ => rejected (default "rejected" (reject_code decision))
                           | DAccepted hash =>
                               let share_hash := to_hex hash in
                               let canon_hash := proof_canon_hash body in
                               let! s := sget in
                               if proof_credited s canon_hash then do! quarantine share_hash; rejected "duplicate_proof"
                               else if negb configured then sret (ShareImmediate ShareAdmitted)
                               else match selected_share_evidence_from_body body signed_work with
                                    | Panic => slift Panic
                                    | Err _ => do! quarantine share_hash; rejected "malformed_submission"
                                    | Ok evidence =>
                                        let! reserved := on_node NodeRuntime
                                          (take_candidate_for_reverify share_hash admitted_at peer_ip) in
                                        match reserved with
                                        | None => sret (ShareImmediate (ShareDeferred "lean_reverify_reservation_failed"))
                                        | Some candidate =>
                                            match admitted_share_reverify_job cfg evidence with
                                            | None =>
                                                do! release_reservation candidate admitted_at peer_ip;
                                                sret (ShareImmediate (ShareDeferred "lean_reverify_unavailable"))
                                            | Some job =>
                                                do! smodify (fun s => set_busy s true);
                                                sret (ShareReverify (mkIngressShare candidate job canon_hash admitted_at peer_ip))
                                            end
                                        end
                                    end
                           end
                       end
                 end
           | _ => rejected "malformed_submission"
           end
  end.

Definition ingress_finalize_share (env : Env) (prepared : PreparedIngressShare) (reverify : ShareAdmissionReverifyOutcome)
    : stm LocalNodeState NodeError IngressShareOutcome :=
  let candidate := is_reserved_candidate prepared in
  let release code :=
    do! release_reservation candidate (is_admitted_at prepared) (is_peer_ip prepared); sret (ShareDeferred code) in
  let! s := sget in
  match write_authority_failure cfg env s with
  | Some code => sret (ShareDeferred code)
  | None =>
      match reverify with
      | ShareDeterministicReject => sret (ShareRejected "lean_reverify_reject")
      | ShareRetryableUnavailable => release "lean_reverify_unavailable"
      | ShareVerified =>
          if negb (is_ok (ensure_canonical_state_healthy (ls_runtime s))) then release "canonical_state_inconsistent"
          else if proof_credited s (is_proof_canon_hash prepared) then sret (ShareRejected "duplicate_proof")
          else
            let! restored := on_node NodeRuntime (restore_reverified_candidate candidate) in
            if negb restored then release "lean_reverify_restore_failed" else sret ShareAdmitted
      end
  end.

(** The second lock phase of [ingress_admit_share_shared]; a worker that
    panicked counts as unavailable. *)
Definition ingress_share_phase2 (env : Env) (ck : Checker) (prepared : PreparedIngressShare)
    : stm LocalNodeState NodeError IngressShareOutcome :=
  release_permit (ingress_finalize_share env prepared
    (match run_admitted_share_reverify ck (is_reverify_job prepared) with Ok o => o | _ => ShareRetryableUnavailable end)).

End LocalSubmit.
