(* ===== verification/PeerSync.v ===== *)
(** * Peer connections (boole-node/src/p2p_ingress.rs, p2p_egress.rs)

    Both ends of a connection between two nodes: the handshake, the outbound
    sync round that catches up with a peer or fetches a competing chain, the
    inbound handler that serves blocks and takes announcements, and the
    announcements themselves.

    A connection runs beside the rest of the node. Between any two of its steps
    the clock moves, the node may be told to stop, and other threads may take
    the lock and change the state: [Moment] is what holds at one step, and a run
    is given one moment per step. The peer is the bytes it sends, in any pieces.
    Loops run on fuel; the theorems say how much is enough. Counters and log
    lines are left out. *)

From S2P Require Import Prelude Json Externals Hash Block BlockBuilder Difficulty Config ShareAuthorization FamilyManifest Bounty.
From S2P Require Import ReplayEvidence Replay SharePool RateLimiter Admission Durability BountyLedger Stores Runtime EventStores Receipts.
From S2P Require Import HttpRateLimit P2pWire Validator SubmitGate ShareVerifier LocalNode LocalSubmit.

(** ** Identity of a network *)

Record P2pIdentity := mkIdentity {
  id_network_id : string;
  id_authorization_policy : AuthorizationPolicy;
  id_genesis_hash : string;
  id_effective_family_manifest_root : string
}.

#[export] Instance AuthorizationPolicy_eq_dec : EqDecision AuthorizationPolicy.
Proof. solve_decision. Defined.
#[export] Instance HeadSummary_eq_dec : EqDecision HeadSummary.
Proof. solve_decision. Defined.

Definition hello (id : P2pIdentity) (head : HeadSummary) : Frame :=
  Hello PROTOCOL_VERSION CONSENSUS_RULE_VERSION (id_authorization_policy id) (id_network_id id) (id_genesis_hash id)
    (id_effective_family_manifest_root id) head.

Definition identity_matches (id : P2pIdentity) (f : Frame) : bool :=
  match f with
  | Hello protocol rules policy network genesis root _ =>
      (protocol =? PROTOCOL_VERSION) && (rules =? CONSENSUS_RULE_VERSION)
      && bool_decide (policy = id_authorization_policy id) && String.eqb network (id_network_id id)
      && String.eqb genesis (id_genesis_hash id) && String.eqb root (id_effective_family_manifest_root id)
  | _ => false
  end.

(** ** Readiness *)

(** The head last seen at each bootstrap peer; addresses by their text. *)
Definition P2pBootstrapReadiness := gmap string (option HeadSummary).

Definition readiness_new (peers : list string) : outcome string P2pBootstrapReadiness :=
  let* m := ofold (fun (m : P2pBootstrapReadiness) peer =>
    do* ensure (negb (bool_decide (is_Some (m !! peer)))) "duplicate bootstrap peer endpoint"; Ok (<[peer := None]> m)) ∅ peers in
  do* ensure (negb (bool_decide (m = ∅))) "bootstrap head-sync readiness requires at least one peer";
  Ok m.

Definition observe_exact (r : P2pBootstrapReadiness) (peer : string) (head : HeadSummary) : P2pBootstrapReadiness :=
  match r !! peer with Some _ => <[peer := Some head]> r | None => r end.

Definition readiness_clear (r : P2pBootstrapReadiness) (peer : string) : P2pBootstrapReadiness :=
  match r !! peer with Some _ => <[peer := None]> r | None => r end.

Definition matches_live_head (r : P2pBootstrapReadiness) (live_head : HeadSummary) : bool :=
  negb (bool_decide (r = ∅)) && forallb (fun entry => bool_decide (entry.2 = Some live_head)) (map_to_list r).

(** ** The budget of a sync round *)

Definition MAX_SYNC_BLOCKS_PER_PEER_ROUND : N := 4096.
Definition MAX_SYNC_WIRE_BYTES_PER_PEER_ROUND : N := MAX_FRAME_BYTES * 4.
Definition MAX_SYNC_RESPONSES_PER_PEER_ROUND : N := 64.
(** In milliseconds, like every duration here. *)
Definition MAX_SYNC_PEER_ROUND_DURATION : N := 30 * 1000.
Definition INGRESS_IO_TIMEOUT : N := 10 * 1000.
Definition EGRESS_CONNECTION_TIMEOUT : N := 10 * 1000.

Inductive SyncBudgetError :=
| ResponseOverReturn (requested returned : N)
| BlockLimit (attempted limit : N)
| WireByteLimit (attempted limit : N)
| ResponseLimit (attempted limit : N)
| DeadlineExceeded.

Record SyncBudget := mkBudget {
  sb_block_limit : N;
  sb_wire_byte_limit : N;
  sb_response_limit : N;
  sb_deadline : N;
  sb_used_blocks : N;
  sb_used_wire_bytes : N;
  sb_used_responses : N
}.

(** [saturating_add] of [u64] and [usize]. *)
Definition saturating_add (a b : N) : N := N.min u64_max (a + b).

Definition budget_new (block_limit wire_byte_limit response_limit deadline : N) : SyncBudget :=
  mkBudget block_limit wire_byte_limit response_limit deadline 0 0 0.

Definition for_peer_round (now : N) : SyncBudget :=
  budget_new MAX_SYNC_BLOCKS_PER_PEER_ROUND MAX_SYNC_WIRE_BYTES_PER_PEER_ROUND MAX_SYNC_RESPONSES_PER_PEER_ROUND
    (now + MAX_SYNC_PEER_ROUND_DURATION).

Definition charge_response (b : SyncBudget) (requested returned wire_bytes : N) : outcome SyncBudgetError SyncBudget :=
  do* ensure (returned <=? requested) (ResponseOverReturn requested returned);
  let attempted_blocks := saturating_add (sb_used_blocks b) returned in
  do* ensure (attempted_blocks <=? sb_block_limit b) (BlockLimit attempted_blocks (sb_block_limit b));
  let attempted_wire_bytes := saturating_add (sb_used_wire_bytes b) wire_bytes in
  do* ensure (attempted_wire_bytes <=? sb_wire_byte_limit b) (WireByteLimit attempted_wire_bytes (sb_wire_byte_limit b));
  let attempted_responses := saturating_add (sb_used_responses b) 1 in
  do* ensure (attempted_responses <=? sb_response_limit b) (ResponseLimit attempted_responses (sb_response_limit b));
  Ok (mkBudget (sb_block_limit b) (sb_wire_byte_limit b) (sb_response_limit b) (sb_deadline b)
        attempted_blocks attempted_wire_bytes attempted_responses).

Definition ensure_before_receive (b : SyncBudget) (now : N) : outcome SyncBudgetError unit :=
  do* ensure (now <? sb_deadline b) DeadlineExceeded;
  do* ensure (sb_used_blocks b <? sb_block_limit b) (BlockLimit (saturating_add (sb_used_blocks b) 1) (sb_block_limit b));
  do* ensure (sb_used_responses b <? sb_response_limit b)
    (ResponseLimit (saturating_add (sb_used_responses b) 1) (sb_response_limit b));
  ensure (sb_used_wire_bytes b <? sb_wire_byte_limit b)
    (WireByteLimit (saturating_add (sb_used_wire_bytes b) 1) (sb_wire_byte_limit b)).

Definition ensure_before_mutation (b : SyncBudget) (now : N) : outcome SyncBudgetError unit :=
  ensure (now <? sb_deadline b) DeadlineExceeded.

(** [saturating_sub] is subtraction of naturals. *)
Definition remaining_blocks (b : SyncBudget) : N := sb_block_limit b - sb_used_blocks b.
Definition remaining_wire_bytes (b : SyncBudget) : N := sb_wire_byte_limit b - sb_used_wire_bytes b.

(** [OutOfFuel] is the model's own: it marks a run that was given too little
    fuel, and [sync_round_terminates] shows that it does not happen. *)
Inductive SyncRoundError := SyncPeer (e : FrameError) | SyncOverBudget (e : SyncBudgetError) | OutOfFuel.

Definition charged (r : outcome SyncBudgetError SyncBudget) : outcome SyncRoundError SyncBudget :=
  map_err (fun e => match e with ResponseOverReturn _ _ => SyncPeer Malformed | _ => SyncOverBudget e end) r.

(** ** Moments and the state of a connection *)

(** What the package store answers to a read of one root. *)
Inductive StoreRead := StoreBytes (bytes : list byte) | StoreMissing | StoreFault.

Record Moment := mkMoment {
  mo_others : LocalNodeState -> LocalNodeState;   (* what other threads did to the state *)
  mo_now : N;                                     (* [Instant::now()] *)
  mo_now_ms : N;                                  (* the wall clock *)
  mo_stopped : bool;                              (* [lifecycle.is_stopped()] *)
  mo_socket : bool;                               (* the socket calls succeed *)
  mo_write_failed_after : option N;               (* [write_all] and [flush] *)
  mo_writes : list WriteAnswer;
  mo_write_clock : nat -> N;
  mo_read_clock : nat -> N * N;
  mo_env : Env;
  mo_block_io : BlockIo;
  mo_chain_io : ChainIo;
  mo_checker : Checker;
  mo_store : string -> StoreRead
}.

(** The node, the readiness it keeps, the rate limiter of the listener, and
    this connection: its budget, what the peer will send, what was sent to it,
    and the number of steps taken. *)
Record Peering := mkPeering {
  pe_node : LocalNodeState;
  pe_readiness : option P2pBootstrapReadiness;
  pe_limiter : option HttpRateLimiter;
  pe_budget : SyncBudget;
  pe_input : list Arrival;
  pe_sent : list byte;
  pe_tick : nat
}.

Definition set_pe_node (p : Peering) (s : LocalNodeState) : Peering :=
  mkPeering s (pe_readiness p) (pe_limiter p) (pe_budget p) (pe_input p) (pe_sent p) (pe_tick p).
Definition set_pe_readiness (p : Peering) (r : option P2pBootstrapReadiness) : Peering :=
  mkPeering (pe_node p) r (pe_limiter p) (pe_budget p) (pe_input p) (pe_sent p) (pe_tick p).
Definition set_pe_limiter (p : Peering) (l : option HttpRateLimiter) : Peering :=
  mkPeering (pe_node p) (pe_readiness p) l (pe_budget p) (pe_input p) (pe_sent p) (pe_tick p).
Definition set_pe_budget (p : Peering) (b : SyncBudget) : Peering :=
  mkPeering (pe_node p) (pe_readiness p) (pe_limiter p) b (pe_input p) (pe_sent p) (pe_tick p).
Definition set_pe_input (p : Peering) (input : list Arrival) : Peering :=
  mkPeering (pe_node p) (pe_readiness p) (pe_limiter p) (pe_budget p) input (pe_sent p) (pe_tick p).
Definition push_sent (p : Peering) (bytes : list byte) : Peering :=
  mkPeering (pe_node p) (pe_readiness p) (pe_limiter p) (pe_budget p) (pe_input p) (pe_sent p ++ bytes) (pe_tick p).

(** An operation on the node inside a connection. The handlers turn their own
    failures into outcomes, so no error comes out of them. *)
Definition on_pe_node {E A} (m : stm LocalNodeState NodeError A) : stm Peering E A := fun p =>
  let '(s, r) := m (pe_node p) in
  (set_pe_node p s, match r with Ok a => Ok a | _ => Panic end).

(** [recv_frame_counted] consumes the stream. *)
Definition on_input {E A} (f : list Arrival -> list Arrival * outcome E A) : stm Peering E A := fun p =>
  let '(input, r) := f (pe_input p) in (set_pe_input p input, r).

Definition on_output {E A} (w : list byte * outcome E A) : stm Peering E A := fun p => (push_sent p w.1, w.2).

(** ** Serving blocks *)

(** [byte_bounded_blocks_page]; [wire_len] is the size of the frame so far and
    [first] tells that the page is still empty. A checked addition that overflows
    breaks the loop, as does a size past the cap. *)
Fixpoint blocks_page `{Ndjson Value} (wire_len : N) (first : bool) (blocks : list Value) : list Value :=
  match blocks with
  | [] => []
  | block :: rest =>
      let next_len := wire_len + len (nd_encode block) + (if first then 0 else 1) in
      if MAX_FRAME_BYTES <? next_len then [] else block :: blocks_page next_len false rest
  end.

Definition byte_bounded_blocks_page `{Ndjson Value} `{Ndjson Frame} (blocks : list Value) : list Value :=
  blocks_page (len (nd_encode (Blocks [])) + 1) true blocks.

(** [blocks[from..=end]] panics when the range is inverted. *)
Definition slice_inclusive {E A} (l : list A) (from to : N) : outcome E (list A) :=
  if (to + 1 <? from) || (len l <=? to) then Panic
  else Ok (take (N.to_nat (to + 1 - from)) (drop (N.to_nat from) l)).

Section Peers.
Context {X : Externals}.
Context {NB : Ndjson PersistedBlock} {NR : Ndjson PersistedRewardEvent} {NV : Ndjson Value} {ND : Ndjson ProofDedupEvent}.
Context {NC : Ndjson VerifiedPrefixCheckpoint} {NN : Ndjson NonceEvent} {NF : Ndjson Frame}.

(** [serde_json::to_value] and [from_value] at the types of blocks and authorizations. *)
Context (value_of_block : PersistedBlock -> Value) (block_of_value : Value -> option PersistedBlock).
Context (authorization_of_value : Value -> option ShareWorkAuthorization).
Context (cfg : LocalNodeFields) (identity : P2pIdentity).

(** The moments of a run, one per step. *)
Context (moments : nat -> Moment).

Definition blocks_range_values {E} (s : LocalNodeState) (from to : N) : outcome E (list Value) :=
  let blocks := rt_block_cache (ls_runtime s) in
  let count := len blocks in
  if count <=? from then Ok []
  else let* page := slice_inclusive blocks from (N.min to (count - 1)) in Ok (map value_of_block page).

(** The next moment: other threads may have run since the last one. *)
Definition tick {E} : stm Peering E Moment := fun p =>
  let m := moments (pe_tick p) in
  (mkPeering (mo_others m (pe_node p)) (pe_readiness p) (pe_limiter p) (pe_budget p) (pe_input p) (pe_sent p) (S (pe_tick p)), Ok m).

Definition live_head {E} : stm Peering E HeadSummary := let! p := sget in sret (head_summary cfg (pe_node p)).

Definition send_until (deadline : N) (f : Frame) : stm Peering FrameError unit :=
  let! m := tick in on_output (send_frame_until (mo_write_clock m) deadline f (mo_writes m)).

Definition send (f : Frame) : stm Peering FrameError unit :=
  let! m := tick in on_output (send_frame (mo_write_failed_after m) f).

Definition recv_until (remaining_wire_bytes deadline : N) : stm Peering FrameError (Frame * N) :=
  let! m := tick in on_input (recv_frame_counted_until (mo_read_clock m) remaining_wire_bytes deadline).

(** ** Lock phases of the shared handlers *)

Definition ingest_announced_block_shared {E} (block_value : Value) : stm Peering E IngressBlockOutcome :=
  let! m := tick in
  let! r := on_pe_node (ingest_block_phase1 block_of_value cfg (mo_env m) (mo_block_io m) block_value) in
  match r with
  | inl o => sret o
  | inr (block, job) =>
      let! m := tick in
      on_pe_node (ingest_block_phase2 cfg (mo_env m) (mo_block_io m) (mo_checker m) block job)
  end.

Definition ingest_candidate_chain_shared {E} (values : list Value) : stm Peering E CandidateChainOutcome :=
  let! m := tick in
  let! r := on_pe_node (ingest_chain_phase1 block_of_value cfg (mo_env m) (mo_chain_io m) values) in
  match r with
  | inl o => sret o
  | inr (candidate, job) =>
      let! m := tick in
      on_pe_node (ingest_chain_phase2 cfg (mo_env m) (mo_chain_io m) (mo_checker m) candidate job)
  end.

Definition ingress_admit_share_shared {E} (submission : Value) (peer_ip : string) : stm Peering E IngressShareOutcome :=
  let! m := tick in
  let! r := on_pe_node (ingress_prepare_share authorization_of_value cfg (mo_env m) submission peer_ip) in
  match r with
  | ShareImmediate o => sret o
  | ShareReverify prepared =>
      let! m := tick in
      on_pe_node (ingress_share_phase2 cfg (mo_env m) (mo_checker m) prepared)
  end.

(** ** The handshake of the dialing side *)

Record ValidatedConn := mkConn { vc_peer_head : HeadSummary; vc_peer_hello_wire_bytes : N; vc_deadline : N }.

(** [open_validated_conn_with_limits]; each socket call that fails is an I/O error. *)
Definition open_validated_conn (remaining deadline : N) (head : HeadSummary) : stm Peering FrameError ValidatedConn :=
  let! m := tick in
  do! slift (ensure (negb (mo_stopped m)) FrameIo);
  let! m := tick in
  do! slift (ensure (mo_now m <? deadline) ReceiveDeadlineExceeded);
  do! slift (ensure (mo_socket m) FrameIo);
  let! m := tick in
  do! slift (ensure (mo_now m <? deadline) ReceiveDeadlineExceeded);
  do! slift (ensure (mo_socket m) FrameIo);
  do! send_until deadline (hello identity head);
  let! (reply, wire_bytes) := recv_until remaining deadline in
  do! slift (ensure (identity_matches identity reply) Malformed);
  match reply with
  | Hello _ _ _ _ _ _ peer_head => sret (mkConn peer_head wire_bytes deadline)
  | _ => slift (Err Malformed)
  end.

(** ** The sync round *)

Definition charge_sync_response (requested returned wire_bytes : N) : stm Peering SyncRoundError unit := fun p =>
  match charged (charge_response (pe_budget p) requested returned wire_bytes) with
  | Ok b => (set_pe_budget p b, Ok tt)
  | Err e => (p, Err e)
  | Panic => (p, Panic)
  end.

(** A check of the budget against the clock. *)
Definition check_budget (f : SyncBudget -> N -> outcome SyncBudgetError unit) : stm Peering SyncRoundError unit :=
  let! m := tick in
  let! p := sget in
  slift (map_err SyncOverBudget (f (pe_budget p) (mo_now m))).

Definition recv_error (b : SyncBudget) (e : FrameError) : SyncRoundError :=
  match e with
  | FrameBudgetExceeded _ seen => SyncOverBudget (WireByteLimit (saturating_add (sb_used_wire_bytes b) seen) (sb_wire_byte_limit b))
  | ReceiveDeadlineExceeded => SyncOverBudget DeadlineExceeded
  | _ => SyncPeer e
  end.

Definition recv_sync_frame : stm Peering SyncRoundError (Frame * N) :=
  do! check_budget ensure_before_receive;
  let! p := sget in
  smap_err (recv_error (pe_budget p)) (recv_until (remaining_wire_bytes (pe_budget p)) (sb_deadline (pe_budget p))).

(** One request for blocks [from..=to] and its reply, charged. *)
Definition pull_blocks (from to requested : N) : stm Peering SyncRoundError (list Value) :=
  do! check_budget ensure_before_receive;
  do! smap_err SyncPeer (send (GetBlocks from to));
  let! (reply, wire_bytes) := recv_sync_frame in
  match reply with
  | Blocks blocks => do! charge_sync_response requested (len blocks) wire_bytes; sret blocks
  | _ => slift (Err (SyncPeer Malformed))
  end.

(** The loop of [fetch_block_range]. *)
Fixpoint fetch_block_range (fuel : nat) (next upto : N) (collected : list Value) : stm Peering SyncRoundError (list Value) :=
  if upto <=? next then sret collected
  else match fuel with
  | O => slift (Err OutOfFuel)
  | S fuel' =>
      let! m := tick in
      do! slift (ensure (negb (mo_stopped m)) (SyncPeer FrameIo));
      do! check_budget ensure_before_receive;
      let! p := sget in
      let requested := N.min (N.min (upto - next) GET_BLOCKS_RANGE_CAP) (remaining_blocks (pe_budget p)) in
      let! blocks := pull_blocks next (next + requested - 1) requested in
      if bool_decide (blocks = []) then sret collected
      else fetch_block_range fuel' (next + len blocks) upto (collected ++ blocks)
  end.

(** [block.get("c").and_then(Value::as_str)]. *)
Definition block_c (block : Value) : option string := value_get block "c" ≫= as_str.

Definition validate_complete_candidate (candidate : list Value) (peer_head : HeadSummary) : outcome FrameError unit :=
  let candidate_tip := last candidate ≫= block_c in
  ensure ((len candidate =? hs_height peer_head) && bool_decide (candidate_tip = Some (hs_c peer_head))) Malformed.

(** [begin_mutation] between two looks at the deadline; [None] when the node stops. *)
Definition mutation_permit : stm Peering SyncRoundError bool :=
  do! check_budget ensure_before_mutation;
  let! m := tick in
  if mo_stopped m then sret false
  else do! check_budget ensure_before_mutation; sret true.

Definition reorg_from_peer (fuel : nat) (peer_head : HeadSummary) : stm Peering SyncRoundError unit :=
  let! p := sget in
  let b := pe_budget p in
  do! slift (ensure (hs_height peer_head <=? remaining_blocks b)
               (SyncOverBudget (BlockLimit (saturating_add (sb_used_blocks b) (hs_height peer_head)) (sb_block_limit b))));
  let! candidate := fetch_block_range fuel 0 (hs_height peer_head) [] in
  if bool_decide (candidate = []) then sret tt
  else
    do! slift (map_err SyncPeer (validate_complete_candidate candidate peer_head));
    let! permit := mutation_permit in
    if negb permit then sret tt
    else
      let! o := ingest_candidate_chain_shared candidate in
      match o with
      | ChainReorged _ | ChainKeptCurrent | ChainDeferred => sret tt
      | ChainRejected => slift (Err (SyncPeer Malformed))
      end.

(** The blocks of one page; [true] when the round goes on. *)
Fixpoint ingest_page (fuel : nat) (peer_head : HeadSummary) (blocks : list Value) : stm Peering SyncRoundError bool :=
  match blocks with
  | [] => sret true
  | block_value :: rest =>
      let! permit := mutation_permit in
      if negb permit then sret false
      else
        let! o := ingest_announced_block_shared block_value in
        match o with
        | BlockIngested => ingest_page fuel peer_head rest
        | BlockIgnored => do! reorg_from_peer fuel peer_head; sret false
        | BlockRejected => slift (Err (SyncPeer Malformed))
        | BlockDeferred => sret false
        end
  end.

(** The loop of [sync_with_peer]. *)
Fixpoint sync_pages (fuel : nat) (peer_head : HeadSummary) (first_probe : bool) : stm Peering SyncRoundError unit :=
  match fuel with
  | O => slift (Err OutOfFuel)
  | S fuel' =>
      let! m := tick in
      if mo_stopped m then sret tt
      else
        let! head := live_head in
        if bool_decide (head = peer_head) then sret tt
        else if hs_height peer_head <=? hs_height head then reorg_from_peer fuel' peer_head
        else
          do! check_budget ensure_before_receive;
          let! p := sget in
          let room := N.min (N.min (hs_height peer_head - hs_height head) GET_BLOCKS_RANGE_CAP) (remaining_blocks (pe_budget p)) in
          let requested := if first_probe then N.min room 1 else room in
          if requested =? 0 then sret tt
          else
            let! blocks := pull_blocks (hs_height head) (hs_height head + requested - 1) requested in
            if bool_decide (blocks = []) then sret tt
            else
              let! go_on := ingest_page fuel' peer_head blocks in
              if go_on then sync_pages fuel' peer_head false else sret tt
  end.

Definition clear_bootstrap_observation_if_mismatched (peer : string) (advertised_head : HeadSummary) : stm Peering SyncRoundError unit :=
  do! tick;
  let! head := live_head in
  if bool_decide (advertised_head = head) then sret tt
  else smodify (fun p => set_pe_readiness p ((fun r => readiness_clear r peer) <$> pe_readiness p)).

Definition open_error (b : SyncBudget) (e : FrameError) : SyncRoundError :=
  match e with
  | FrameBudgetExceeded _ seen => SyncOverBudget (WireByteLimit seen (sb_wire_byte_limit b))
  | ReceiveDeadlineExceeded => SyncOverBudget DeadlineExceeded
  | _ => SyncPeer e
  end.

Definition sync_with_peer (fuel : nat) (peer : string) : stm Peering SyncRoundError HeadSummary :=
  do! tick;
  let! my_head := live_head in
  let! m := tick in
  let budget := for_peer_round (mo_now m) in
  do! smodify (fun p => set_pe_budget p budget);
  do! check_budget ensure_before_receive;
  let! conn := smap_err (open_error budget) (open_validated_conn (remaining_wire_bytes budget) (sb_deadline budget) my_head) in
  do! charge_sync_response 0 0 (vc_peer_hello_wire_bytes conn);
  do! clear_bootstrap_observation_if_mismatched peer (vc_peer_head conn);
  do! sync_pages fuel (vc_peer_head conn) true;
  sret (vc_peer_head conn).

Definition record_bootstrap_observation (peer : string) (advertised_head : option HeadSummary) : stm Peering SyncRoundError unit :=
  do! tick;
  let! head := live_head in
  smodify (fun p => set_pe_readiness p ((fun r =>
    match advertised_head with
    | Some advertised => if bool_decide (advertised = head) then observe_exact r peer advertised else readiness_clear r peer
    | None => readiness_clear r peer
    end) <$> pe_readiness p)).

(** One peer of one pass of [sync_loop]. *)
Definition sync_peer (fuel : nat) (peer : string) : stm Peering SyncRoundError unit :=
  let! r := scatch (sync_with_peer fuel peer) in
  record_bootstrap_observation peer (match r with inr head => Some head | inl _ => None end).

(** ** The inbound connection *)

(** Why a connection ended, as the counters tell; [ServeOutOfFuel] is the
    model's own. *)
Inductive ServeEnd := SilentDrop | MalformedFrameDrop | RateLimitedDrop | HelloMismatchDrop | ServeOutOfFuel.

Definition recv_drop (e : FrameError) : ServeEnd :=
  match e with ConnectionClosed | FrameIo => SilentDrop | _ => MalformedFrameDrop end.

Definition recv_frame_limited (peer_ip : string) (deadline : N) : stm Peering ServeEnd Frame :=
  let! (frame, _) := smap_err recv_drop (recv_until MAX_FRAME_BYTES deadline) in
  let! m := tick in
  let! p := sget in
  match pe_limiter p with
  | None => sret frame
  | Some limiter =>
      let '(limiter', admitted) := http_admit limiter peer_ip (mo_now_ms m) in
      do! smodify (fun p => set_pe_limiter p (Some limiter'));
      do! slift (ensure admitted RateLimitedDrop);
      sret frame
  end.

(** A write that fails ends the connection. *)
Definition reply (deadline : N) (f : Frame) : stm Peering ServeEnd unit := smap_err (fun _ => SilentDrop) (send_until deadline f).

(** [lifecycle.begin_mutation()]. *)
Definition begin_mutation : stm Peering ServeEnd unit := let! m := tick in slift (ensure (negb (mo_stopped m)) SilentDrop).

(** [PackageServingConfig::read_authorized] under an optional configuration. *)
Definition read_authorized (served_package_roots : option (gset string)) (store : string -> StoreRead) (root : string) : option (list byte) :=
  match served_package_roots with
  | Some roots => if bool_decide (root ∈ roots) then match store root with StoreBytes bytes => Some bytes | _ => None end else None
  | None => None
  end.

(** The block that was announced, pulled on the same connection. *)
Definition pull_announced (peer_ip : string) (deadline height : N) (c : string) : stm Peering ServeEnd Value :=
  do! reply deadline (GetBlocks height height);
  let! f := recv_frame_limited peer_ip deadline in
  match f with
  | Blocks (block_value :: _) =>
      do! slift (ensure (bool_decide (block_c block_value = Some c)) MalformedFrameDrop);
      sret block_value
  | _ => slift (Err MalformedFrameDrop)
  end.

(** One frame of the loop of [handle_connection]. *)
Definition serve_frame (served_package_roots : option (gset string)) (peer_ip : string) (deadline : N) (f : Frame)
    : stm Peering ServeEnd unit :=
  match f with
  | ShareAnnounce submission =>
      do! begin_mutation;
      do! ingress_admit_share_shared submission peer_ip;
      sret tt
  | BlockAnnounce height c =>
      do! tick;
      let! head := live_head in
      if negb (height =? hs_height head) then sret tt
      else
        let! block_value := pull_announced peer_ip deadline height c in
        do! begin_mutation;
        do! ingest_announced_block_shared block_value;
        sret tt
  | GetBlocks from to =>
      do! tick;
      let! p := sget in
      let! blocks := slift (blocks_range_values (pe_node p) from to) in
      reply deadline (Blocks (byte_bounded_blocks_page blocks))
  | GetPackage root =>
      let! m := tick in
      reply deadline (Package root (read_authorized served_package_roots (mo_store m) root))
  | _ => sret tt
  end.

Fixpoint serve_frames (served_package_roots : option (gset string)) (peer_ip : string) (deadline : N) (fuel : nat)
    : stm Peering ServeEnd unit :=
  match fuel with
  | O => slift (Err ServeOutOfFuel)
  | S fuel' =>
      let! m := tick in
      if mo_stopped m then sret tt
      else
        let! f := recv_frame_limited peer_ip deadline in
        do! serve_frame served_package_roots peer_ip deadline f;
        serve_frames served_package_roots peer_ip deadline fuel'
  end.

Definition handle_connection (served_package_roots : option (gset string)) (peer_ip : string) (fuel : nat) : stm Peering ServeEnd unit :=
  let! m := tick in
  do! slift (ensure (mo_socket m && negb (mo_stopped m)) SilentDrop);
  let connection_deadline := mo_now m + INGRESS_IO_TIMEOUT in
  let! f := recv_frame_limited peer_ip connection_deadline in
  do! slift (match f with
             | Hello _ _ _ _ _ _ _ => ensure (identity_matches identity f) HelloMismatchDrop
             | _ => Err MalformedFrameDrop
             end);
  do! tick;
  let! head := live_head in
  do! reply connection_deadline (hello identity head);
  serve_frames served_package_roots peer_ip connection_deadline fuel.

(** ** Announcements *)

Definition gossip_conn (head : HeadSummary) : stm Peering FrameError ValidatedConn :=
  let! m := tick in open_validated_conn MAX_FRAME_BYTES (mo_now m + EGRESS_CONNECTION_TIMEOUT) head.

Definition announce_share_to_peer (submission : Value) (head : HeadSummary) : stm Peering FrameError unit :=
  let! conn := gossip_conn head in
  send_until (vc_deadline conn) (ShareAnnounce submission).

Definition announce_block_to_peer (height : N) (c : string) (block : Value) (head : HeadSummary) : stm Peering FrameError unit :=
  let! conn := gossip_conn head in
  do! send_until (vc_deadline conn) (BlockAnnounce height c);
  let! r := scatch (recv_until MAX_FRAME_BYTES (vc_deadline conn)) in
  match r with
  | inr (GetBlocks from to, _) =>
      if (from <=? height) && (height <=? to) then send_until (vc_deadline conn) (Blocks [block]) else sret tt
  | inr _ => slift (Err Malformed)
  | inl ConnectionClosed | inl FrameIo => sret tt
  | inl e => slift (Err e)
  end.

End Peers.
