(* ===== verification/LocalBoot.v ===== *)
(** * The served node: start (boole-node/src/local_node.rs, [LocalNodeState::from_config])

    From a configuration to the state behind the lock: the network's compiled-in
    genesis is enforced, the runtime boots from the block file, and the stores
    beside it are recovered or rebuilt. Path resolution, lock files, the state
    directory, the checker's toolchain and the parsing of the scenario files are
    answers of the system. *)

From S2P Require Import Prelude Json Externals Hash Block BlockBuilder Difficulty Config ShareAuthorization FamilyManifest Bounty.
From S2P Require Import ReplayEvidence Replay SharePool RateLimiter Admission Durability BountyLedger Stores Runtime EventStores Receipts P2pWire.
From S2P Require Import Validator SubmitGate ShareVerifier LocalNode LocalSubmit.

Definition DEFAULT_NETWORK_ID : string := "boole-mvp".
Definition NATIVE_TESTNET_NETWORK_ID : string := "boole-native-testnet-1".

(** The configuration with its files read: the scenario (calibration report,
    retarget policy, genesis anchor after the override), the family manifests
    and the bounty catalog. *)
Record LocalNodeConfig := mkLocalConfig {
  lc_network_id : option string;
  lc_allow_anonymous_submit : bool;
  lc_report : CalibrationReport;
  lc_difficulty_retarget : option DifficultyRetargetPolicy;
  lc_genesis_c : string;
  lc_family_manifests : FamilyManifestRegistry;
  lc_bounties : list Bounty;
  lc_block_path : string;
  lc_checkpoint_path : string;
  lc_reward_ledger_path : option string;
  lc_bounty_event_ledger_path : option string;
  lc_session_registry_path : option string;
  lc_submit_nonce_ledger_path : option string;
  lc_signed_nonce_ledger_path : option string;
  lc_receipt_commitment_ledger_path : option string;
  lc_proof_dedup_ledger_path : option string;
  lc_submit_receipt_ledger_path : option string;
  lc_operator_signer_pks : list string;
  lc_lean_checker_dir : option string;
  lc_peers : bool;
  lc_owned_paths : list string
}.

Inductive BootError :=
| NativeNetwork
| AnonymousOnAuthorized
| LocksNotAcquired
| BootConfig (e : ConfigError)
| BootRetarget (e : DifficultyError)
| CheckerToolchain
| GenesisDiverged
| AdmissionFloor
| BootRuntime (e : RuntimeError)
| BootStore (e : StoreError)
| BootCatalog (e : RegistryError)
| BootAudit
| BootSidePool.

Record LocalBootIo := mkLocalBootIo {
  lb_locks : bool;                 (* paths resolve, roles are disjoint, locks are taken *)
  lb_toolchain : bool;             (* the configured checker is the pinned release *)
  lb_recover : ReadIo;
  lb_runtime : BootIo;
  lb_checkpoint_read : ReadIo;
  lb_checkpoint : ReadIo;
  lb_checkpoint_removed : bool;
  lb_bounty : ReadIo;
  lb_sessions : ReadIo;
  lb_nonces : ReadIo;
  lb_signed_nonces : ReadIo;
  lb_receipts : ReadIo;
  lb_dedup : RewriteIo
}.

(** ** The bounty registry from the event log *)

Definition replay_proof_event (registry : BountyRegistry) (event : Value) : outcome BootError BountyRegistry :=
  let* work_id := ok_or (event_string event "workId") BootAudit in
  let* proof_hash := ok_or (event_string event "proofHash") BootAudit in
  let* solver_pk := ok_or (event_string event "solverPk") BootAudit in
  let* accepted := ok_or (event_bool event "accepted") BootAudit in
  let* ts := ok_or (event_u64 event "ts") BootAudit in
  omap fst (map_err (fun _ => BootAudit)
    (submit_proof registry (mkSubmitProofInput work_id proof_hash solver_pk accepted ts))).

(** A transition the registry refuses is skipped. *)
Definition replay_status_change_event (registry : BountyRegistry) (event : Value) : outcome BootError BountyRegistry :=
  let* work_id := ok_or (event_string event "workId") BootAudit in
  let* new_status := ok_or (event_string event "newStatus") BootAudit in
  let* ts := ok_or (event_u64 event "ts") BootAudit in
  match update_status registry (mkUpdateStatusInput work_id new_status ts) with
  | Ok (registry', _) => Ok registry'
  | Err _ => Ok registry
  | Panic => Panic
  end.

(** An id the catalog already has is skipped. *)
Definition replay_create_event (registry : BountyRegistry) (event : Value) : outcome BootError BountyRegistry :=
  let* bounty := ok_or (value_get event "bounty") BootAudit in
  do* ok_or (event_string bounty "id") BootAudit;
  let* bounty := ok_or (bounty_of_value bounty) BootAudit in
  match apply_event registry (CreateEvent bounty) with
  | Ok registry' => Ok registry'
  | Err BountyExists => Ok registry
  | Err _ => Err BootAudit
  | Panic => Panic
  end.

Definition replay_bounty_audit_event (registry : BountyRegistry) (event : Value) : outcome BootError BountyRegistry :=
  match event_string event "kind" with
  | Some kind =>
      if String.eqb kind "proof" then replay_proof_event registry event
      else if String.eqb kind "create" then replay_create_event registry event
      else if String.eqb kind "status_change" then replay_status_change_event registry event
      else Ok registry
  | None => Ok registry
  end.

(** The catalog seeds the registry, in its order. *)
Definition seed_bounty_registry (bounties : list Bounty) : outcome BootError BountyRegistry :=
  ofold (fun registry bounty => map_err BootCatalog (apply_event registry (CreateEvent bounty))) bounty_registry_new bounties.

Section LocalBoot.
Context {X : Externals}.
Context {NB : Ndjson PersistedBlock} {NR : Ndjson PersistedRewardEvent} {NV : Ndjson Value} {ND : Ndjson ProofDedupEvent}.
Context {NC : Ndjson VerifiedPrefixCheckpoint} {NS : Ndjson SessionEvent} {NN : Ndjson NonceEvent}.
Context {NSN : Ndjson SignedNonceEvent} {NRC : Ndjson ReceiptCommitment}.

Definition lc_node_network_id (c : LocalNodeConfig) : string := default DEFAULT_NETWORK_ID (lc_network_id c).

Definition runtime_config (c : LocalNodeConfig) : outcome BootError RuntimeConfig :=
  let* policy := map_err BootConfig (calibration_policy (lc_report c)) in
  let config := mkRuntimeConfig policy 60000 None Disabled in
  match lc_difficulty_retarget c with
  | Some retarget => map_err BootRetarget (with_difficulty_retarget config retarget)
  | None => Ok config
  end.

(** A compiled-in network name binds the node to its preset. *)
Definition enforce_preset (c : LocalNodeConfig) (config : RuntimeConfig) (toolchain : bool) : outcome BootError unit :=
  let network_id := lc_node_network_id c in
  match network_genesis_preset network_id with
  | None => Ok tt
  | Some preset =>
      do* ensure (negb (bool_decide (is_Some (gp_checker_artifact_hash (gs_params preset)))
                        && bool_decide (is_Some (lc_lean_checker_dir c))) || toolchain) CheckerToolchain;
      do* ensure (String.eqb (to_hex (spec_hash (genesis_spec config network_id (lc_genesis_c c)))) (to_hex (spec_hash preset)))
            GenesisDiverged;
      ensure (cp_min_share_score_multiplier_nanos (rc_policy config) =? MIN_SHARE_SCORE_MULTIPLIER_NANOS) AdmissionFloor
  end.

Definition fields_of (c : LocalNodeConfig) (config : RuntimeConfig) : LocalNodeFields :=
  let network_id := lc_node_network_id c in
  mkFields (lc_genesis_c c) (to_hex (spec_hash (genesis_spec config network_id (lc_genesis_c c)))) (lc_block_path c)
    (lc_checkpoint_path c) (lc_bounty_event_ledger_path c) (lc_family_manifests c) (lc_operator_signer_pks c)
    (lc_session_registry_path c) (lc_submit_nonce_ledger_path c) (lc_signed_nonce_ledger_path c)
    (lc_receipt_commitment_ledger_path c) (lc_proof_dedup_ledger_path c) (lc_submit_receipt_ledger_path c) (lc_lean_checker_dir c)
    network_id (bool_decide (is_Some (lc_network_id c))) (lc_allow_anonymous_submit c) (lc_peers c) (lc_owned_paths c).

(** The checkpoint that survives; every failure means none. *)
Definition boot_checkpoint (cfg : LocalNodeFields) (blocks : list PersistedBlock) (io : LocalBootIo)
    : stm Host BootError (option VerifiedPrefixCheckpoint) := fun h =>
  let identity := (fun hash => mkCheckpointIdentity (lf_genesis_spec_hash cfg) hash BASE_LANE_MAX_HEARTBEATS
                                 BASE_LANE_MAX_REC_DEPTH) <$> checker_pin cfg in
  let '(h1, found) := read_checkpoint (lf_checkpoint_path cfg) (lb_checkpoint_read io) h in
  let block_hash_at_height := match found with Ok (Some cp) => hash_at_checkpoint cp blocks | _ => None end in
  let '(h2, r) := validate_or_discard_checkpoint_at_boot (lf_checkpoint_path cfg) identity block_hash_at_height
                    (lb_checkpoint io) (lb_checkpoint_removed io) h1 in
  (h2, match r with Ok cp => Ok cp | Err _ => Ok None | Panic => Panic end).

(** A store that is opened when its path is configured. *)
Definition open_store {A} (path : option string) (recover : string -> stm Host StoreError A) : stm Host BootError (option A) :=
  match path with
  | Some path => let! a := smap_err BootStore (recover path) in sret (Some a)
  | None => sret None
  end.

Definition boot_bounties (c : LocalNodeConfig) (io : LocalBootIo) : stm Host BootError (BountyRegistry * BountySidePool) :=
  let! registry := slift (seed_bounty_registry (lc_bounties c)) in
  match lc_bounty_event_ledger_path c with
  | None => sret (registry, side_pool_new)
  | Some path =>
      let! events := smap_err BootStore (bounty_recover path (lb_bounty io)) in
      let! registry := slift (ofold replay_bounty_audit_event registry events) in
      let '(pool, r) := rebuild_bounty_side_pool registry events side_pool_new in
      do! slift (map_err (fun _ => BootSidePool) r);
      sret (registry, pool)
  end.

Definition from_config (c : LocalNodeConfig) (io : LocalBootIo) : stm Host BootError (LocalNodeFields * LocalNodeState) :=
  do! slift (ensure (negb (bool_decide (lc_network_id c = Some NATIVE_TESTNET_NETWORK_ID))) NativeNetwork);
  do! slift (ensure (negb (lc_allow_anonymous_submit c && bool_decide (lc_network_id c = Some AUTHORIZATION_REQUIRED_NETWORK_ID)))
               AnonymousOnAuthorized);
  do! slift (ensure (lb_locks io) LocksNotAcquired);
  let! config := slift (runtime_config c) in
  do! slift (enforce_preset c config (lb_toolchain io));
  let cfg := fields_of c config in
  let! recovered := smap_err BootStore (block_store_recover (lc_block_path c) (lb_recover io)) in
  let genesis := genesis_spec config (lc_node_network_id c) (lc_genesis_c c) in
  let! runtime := smap_err BootRuntime
    (boot_from_store_with_genesis_and_authorization_network config (lc_block_path c) (lc_reward_ledger_path c)
       (lc_bounty_event_ledger_path c) (lc_family_manifests c) genesis (node_scope cfg) (lb_runtime io)) in
  let runtime := if bool_decide (recovered = []) then set_current_c runtime (lc_genesis_c c) else runtime in
  let runtime := match rt_current_c runtime with Some _ => runtime | None => set_current_c runtime (lc_genesis_c c) end in
  let! checkpoint := boot_checkpoint cfg (rt_block_cache runtime) io in
  let! bounties := boot_bounties c io in
  let! sessions := open_store (lc_session_registry_path c) (fun path => session_recover path (lb_sessions io)) in
  let! nonces := open_store (lc_submit_nonce_ledger_path c) (fun path => nonce_recover path (lb_nonces io)) in
  let! signed := open_store (lc_signed_nonce_ledger_path c) (fun path => signed_nonce_recover path (lb_signed_nonces io)) in
  let! dedup := open_store (lc_proof_dedup_ledger_path c) (fun path =>
    rebuild_from_credits path (map ev_canon_hash (flat_map b_selected_share_evidence (rt_block_cache runtime))) (lb_dedup io)) in
  let! receipts := open_store (lc_receipt_commitment_ledger_path c) (fun path => receipt_recover path (lb_receipts io)) in
  let! h := sget in
  sret (cfg, mkLocalNode (mkNode runtime h) checkpoint bounties.1 bounties.2 sessions nonces signed dedup receipts false []).
End LocalBoot.
