(* ===== verification/LocalRoutes.v ===== *)
(** * The served node: signed routes (boole-node/src/local_node.rs)

    The routes that change sessions, receipts, bounties and tickets. Each takes
    a [boole.signed.v1] envelope: signature, schema, freshness and a nonce of
    the signer are checked, then who may do it, then the nonce is burned, and
    only then the ledger is written and memory follows. A request is the parsed
    JSON value; [None] is a body that does not parse. *)

From S2P Require Import Prelude Json Externals Hash SignedEnvelope Block BlockBuilder Difficulty Config ShareAuthorization.
From S2P Require Import FamilyManifest Bounty ReplayEvidence Replay SharePool RateLimiter Admission Durability BountyLedger Stores.
From S2P Require Import Runtime EventStores Receipts Validator SubmitGate ShareVerifier LocalNode LocalSubmit.

Definition VALID_BEFORE_LEEWAY_SECS : N := 60.
Definition VALID_BEFORE_MAX_TTL_SECS : N := 300.

Definition SESSIONS_REGISTER_PAYLOAD_SCHEMA : string := "boole.sessions.register.v1".
Definition SESSIONS_REVOKE_PAYLOAD_SCHEMA : string := "boole.sessions.revoke.v1".
Definition BOUNTY_PROOF_PAYLOAD_SCHEMA : string := "boole.bounty.proof.v1".
Definition RECEIPTS_POST_PAYLOAD_SCHEMA : string := "boole.receipts.commit.v1".
Definition ANNOUNCE_PAYLOAD_SCHEMA : string := "boole.bounty.announce.v1".
Definition STATUS_PAYLOAD_SCHEMA : string := "boole.bounty.status.v1".
Definition TICKET_BODY_FIELDS : list string := ["c"; "pk"; "n"].
Definition BOUNTY_PROOF_HASH_DOMAIN : list byte := as_bytes "boole.bounty.proof.v1" ++ [x00].

Definition saturating_add (max a b : N) : N := N.min max (a + b).

(** ** Bounty verifiers (boole-core/src/bounty_proof_verifier.rs) *)

Record VerifyOutcome := mkVerifyOutcome { vo_accepted : bool; vo_evidence : list (string * Value) }.

(** The trait: the entry point the route calls, and the bytes it judges. *)
Record BountyProofVerifier := mkProofVerifier {
  pv_effective_artifact : Bounty -> Value -> outcome string (list byte);
  pv_verify_artifact : Bounty -> Value -> list byte -> outcome string VerifyOutcome
}.

(** What the file system answers while a route runs. *)
Record RouteIo := mkRouteIo { ri_nonce : AppendIo; ri_ledger : AppendIo }.

Record PreparedProofToVerify := mkPreparedProof {
  pp_bounty : Bounty;
  pp_proof_hash : string;
  pp_envelope_hash : string;
  pp_artifact : list byte;
  pp_prover : string;
  pp_envelope : Value;
  pp_verifier : BountyProofVerifier;
  pp_signer_pk : string;
  pp_nonce : string
}.

(** The body of a proof response. *)
Record ProofReply := mkProofReply {
  py_accepted : bool; py_duplicate : bool; py_proof_hash : string; py_envelope_hash : string; py_bounty : Bounty
}.

Inductive PreparedProof := ProofDuplicate (reply : ProofReply) | RunVerifier (prepared : PreparedProofToVerify).

Record TicketReply := mkTicketReply { tk_hash_hex : string; tk_valid : bool }.

Section LocalRoutes.
Context {X : Externals}.
Context {NV : Ndjson Value} {NSN : Ndjson SignedNonceEvent} {NS : Ndjson SessionEvent} {NRC : Ndjson ReceiptCommitment}.

(** [serde_json::from_value] at the session and receipt types. *)
Context (session_of_value : Value -> option SessionState) (receipt_of_value : Value -> option ReceiptCommitment).
Context (cfg : LocalNodeFields) (bounty_verifiers : gmap string BountyProofVerifier).

Definition bounty_proof_hash_hex (artifact : list byte) : string := hex_encode (sha256 (BOUNTY_PROOF_HASH_DOMAIN ++ artifact)).

(** A verifier that only implements [verify]. *)
Definition envelope_verifier (verify : Bounty -> Value -> outcome string bool) : BountyProofVerifier :=
  mkProofVerifier (fun _ envelope => Ok (canonicalize envelope))
    (fun bounty envelope _ => let* accepted := verify bounty envelope in Ok (mkVerifyOutcome accepted [])).

(** ** Gates *)

Definition payload_u64 (payload : list (string * Value)) (field : string) : option N :=
  match assoc field payload with Some v => as_u64 v | None => None end.

Definition required_payload_string (payload : list (string * Value)) (field : string) : outcome HttpError string :=
  ok_or (get_str payload field) (HttpBadPayload field).

Definition check_payload_valid_before (env : Env) (payload : list (string * Value)) : outcome HttpError unit :=
  let* valid_before := ok_or (payload_u64 payload "validBefore") (HttpBadPayload "validBefore") in
  let now := en_now_ms env / 1000 in
  do* ensure (negb (saturating_add u64_max valid_before VALID_BEFORE_LEEWAY_SECS <? now)) (HttpEnvelopeExpired valid_before now);
  let max_valid_before :=
    saturating_add u64_max (saturating_add u64_max now VALID_BEFORE_MAX_TTL_SECS) VALID_BEFORE_LEEWAY_SECS in
  ensure (negb (max_valid_before <? valid_before)) (HttpBadPayload "validBefore").

Definition check_payload_nonce (payload : list (string * Value)) : outcome HttpError string :=
  let* nonce := ok_or (get_str payload "nonce") (HttpBadPayload "nonce") in
  do* ensure (negb (str_is_empty nonce)) (HttpBadPayload "nonce");
  Ok nonce.

Definition check_signed_envelope_nonce_not_replayed (s : LocalNodeState) (signer_pk nonce : string) : outcome HttpError unit :=
  match ls_signed_nonce_ledger s with
  | None => Ok tt
  | Some ledger => ensure (negb (signed_nonce_contains ledger signer_pk nonce)) (HttpSignedNonceReplayed signer_pk nonce)
  end.

Definition burn_signed_envelope_nonce (signer_pk nonce : string) (io : AppendIo) : stm LocalNodeState HttpError unit := fun s =>
  match lf_signed_nonce_ledger_path cfg, ls_signed_nonce_ledger s with
  | None, _ => (s, Ok tt)
  | Some _, None => (s, Err HttpInternal)
  | Some path, Some ledger =>
      let '((h, ledger'), r) := signed_append_burn path signer_pk nonce io (ls_host s, ledger) in
      (set_signed_nonces (set_node s (mkNode (ls_runtime s) h)) (Some ledger'),
       match r with
       | Ok true => Ok tt
       | Ok false => Err (HttpSignedNonceReplayed signer_pk nonce)
       | Err _ => Err HttpInternal
       | Panic => Panic
       end)
  end.

Definition envelope_network_policy : EnvelopeNetworkPolicy :=
  mkNetworkPolicy (lf_network_id cfg) (lf_require_network_scoped_envelopes cfg).

(** The prefix every signed route repeats: the envelope, its signature and the
    schema of its payload. The signer and the payload. *)
Definition signed_payload (body : option Value) (payload_schema : string) : outcome HttpError (string * list (string * Value)) :=
  let* envelope := ok_or body HttpBadEnvelope in
  let* envelope_obj := ok_or (match envelope with VObject m => Some m | _ => None end) HttpBadEnvelope in
  let* schema := ok_or (get_str envelope_obj "schema") HttpBadEnvelope in
  do* ensure (String.eqb schema SIGNED_ENVELOPE_SCHEMA) HttpBadEnvelope;
  let* pk := ok_or (get_str envelope_obj "pk") HttpBadEnvelope in
  let* signature := ok_or (get_str envelope_obj "signature") HttpBadEnvelope in
  let* payload := ok_or (assoc "payload" envelope_obj) HttpBadEnvelope in
  do* ensure (is_hex32_text pk) HttpBadEnvelope;
  do* ensure (is_ok (hex64_from_hex signature)) HttpBadEnvelope;
  let* network_id := parse_envelope_network_id envelope_obj envelope_network_policy in
  let* valid := map_err (fun _ => HttpBadEnvelope) (verify_signature_with_network pk signature payload network_id) in
  do* ensure valid HttpSignatureInvalid;
  let* payload_obj := ok_or (match payload with VObject m => Some m | _ => None end) (HttpBadPayload "payload") in
  let* schema := ok_or (get_str payload_obj "schema") (HttpBadPayload "schema") in
  do* ensure (String.eqb schema payload_schema) (HttpBadPayload "schema");
  Ok (pk, payload_obj).

(** Freshness: the time window and an unburned nonce. *)
Definition fresh_nonce (env : Env) (s : LocalNodeState) (pk : string) (payload : list (string * Value)) : outcome HttpError string :=
  do* check_payload_valid_before env payload;
  let* nonce := check_payload_nonce payload in
  do* check_signed_envelope_nonce_not_replayed s pk nonce;
  Ok nonce.

(** An empty allowlist leaves the route open. *)
Definition operator_allowed (pk : string) : bool :=
  bool_decide (lf_operator_signer_pks cfg = []) || existsb (String.eqb pk) (lf_operator_signer_pks cfg).

(** The write handlers start by asking whether this process may write. *)
Definition write_guarded {A} (env : Env) (m : stm LocalNodeState HttpError A) : stm LocalNodeState HttpError A :=
  let! s := sget in
  match write_authority_failure cfg env s with
  | Some reason => slift (Err (HttpWriteAuthorityLost reason))
  | None => m
  end.

(** ** Sessions *)

(** A store that is written, with its file. *)
Definition on_sessions (path : string) (store : FileSessionStore) (m : stm (Host * FileSessionStore) StoreError unit)
    : stm LocalNodeState HttpError unit := fun s =>
  let '((h, store'), r) := m (ls_host s, store) in
  (set_sessions (set_node s (mkNode (ls_runtime s) h)) (Some store'), map_err (fun _ => HttpBadRequest) r).

(** The session of the store, after a change. *)
Definition stored_session (session_pk : string) : stm LocalNodeState HttpError SessionState :=
  let! s := sget in
  slift (ok_or (match ls_session_store s with Some store => ss_sessions store !! session_pk | None => None end) HttpInternal).

Definition session_register_json (env : Env) (io : RouteIo) (body : option Value) : stm LocalNodeState HttpError SessionState :=
  let! s := sget in
  match lf_session_registry_path cfg, ls_session_store s with
  | Some path, Some store =>
      let! signed := slift (signed_payload body SESSIONS_REGISTER_PAYLOAD_SCHEMA) in
      let '(pk, payload) := signed in
      let! nonce := slift (fresh_nonce env s pk payload) in
      let! session_value := slift (ok_or (assoc "session" payload) (HttpMissingField "session")) in
      let! session := slift (ok_or (session_of_value session_value) (HttpBadPayload "session")) in
      let! current_height := slift (ok_or (payload_u64 payload "currentHeight") (HttpMissingField "currentHeight")) in
      do! slift (ensure (String.eqb pk (se_owner_pk session)) HttpUnauthorizedSigner);
      do! burn_signed_envelope_nonce pk nonce (ri_nonce io);
      do! on_sessions path store (append_register path session current_height (ri_ledger io));
      stored_session (se_session_pk session)
  | _, _ => slift (Err HttpSessionRegistryDisabled)
  end.

Definition session_get_json (s : LocalNodeState) (session_pk : string) : outcome HttpError SessionState :=
  do* ensure (is_hex32_text session_pk) HttpMalformedPk;
  let* store := ok_or (ls_session_store s) HttpSessionRegistryDisabled in
  ok_or (ss_sessions store !! session_pk) (HttpSessionNotFound session_pk).

Definition session_revoke_json (env : Env) (io : RouteIo) (session_pk : string) (body : option Value)
    : stm LocalNodeState HttpError SessionState :=
  do! slift (ensure (is_hex32_text session_pk) HttpMalformedPk);
  let! s := sget in
  match lf_session_registry_path cfg, ls_session_store s with
  | Some path, Some store =>
      let! signed := slift (signed_payload body SESSIONS_REVOKE_PAYLOAD_SCHEMA) in
      let '(pk, payload) := signed in
      let! nonce := slift (fresh_nonce env s pk payload) in
      let! payload_session_pk := slift (required_payload_string payload "sessionPk") in
      do! slift (ensure (String.eqb payload_session_pk session_pk) (HttpBadPayload "sessionPk"));
      let! height := slift (ok_or (payload_u64 payload "height") (HttpBadPayload "height")) in
      let! session := slift (ok_or (ss_sessions store !! session_pk) (HttpSessionNotFound session_pk)) in
      do! slift (ensure (String.eqb (se_owner_pk session) pk) HttpUnauthorizedSigner);
      do! burn_signed_envelope_nonce pk nonce (ri_nonce io);
      do! on_sessions path store (append_revoke path session_pk height (ri_ledger io));
      stored_session session_pk
  | _, _ => slift (Err HttpSessionRegistryDisabled)
  end.

(** ** Receipts *)

Definition receipt_post_json (env : Env) (io : RouteIo) (body : option Value) : stm LocalNodeState HttpError ReceiptCommitment :=
  let! s := sget in
  let! signed := slift (signed_payload body RECEIPTS_POST_PAYLOAD_SCHEMA) in
  let '(pk, payload) := signed in
  let! nonce := slift (fresh_nonce env s pk payload) in
  let! receipt_value := slift (ok_or (assoc "receiptCommitment" payload) (HttpBadPayload "receiptCommitment")) in
  let! receipt := slift (ok_or (receipt_of_value receipt_value) (HttpBadPayload "receiptCommitment")) in
  do! burn_signed_envelope_nonce pk nonce (ri_nonce io);
  let! s := sget in
  match lf_receipt_commitment_ledger_path cfg, ls_receipt_store s with
  | Some path, Some store =>
      do! on_host (fun _ => HttpBadRequest) (receipt_append path receipt (ri_ledger io));
      let! store' := slift (map_err (fun _ => HttpBadRequest) (receipt_apply store receipt)) in
      do! smodify (fun s => set_receipts s (Some store'));
      sret receipt
  | _, _ => slift (Err HttpReceiptStoreDisabled)
  end.

(** ** Bounties *)

(** The audit log is written when its path is configured. *)
Definition append_audit (event : Value) (io : AppendIo) : stm LocalNodeState HttpError unit :=
  match lf_bounty_event_ledger_path cfg with
  | Some path => on_host (fun _ => HttpInternal) (bounty_append path event io)
  | None => sret tt
  end.

Definition create_event (bounty : Bounty) (input : CreateBountyInput) (pk : string) : Value :=
  VObject [("announcerPk", VString pk); ("bounty", bounty_value bounty); ("kind", VString "create");
           ("problemHash", VString (ci_problem_hash input)); ("schemaVersion", VNumber (PosInt 1));
           ("ts", VNumber (PosInt (ci_ts input))); ("verifierKind", VString (ci_verifier_kind input));
           ("workId", VString (ci_id input))].

(** The bounty an announcement describes. *)
Definition announced_bounty (payload : list (string * Value)) : outcome HttpError CreateBountyInput :=
  let* id := required_payload_string payload "id" in
  let* domain := required_payload_string payload "domain" in
  let* problem_hash := required_payload_string payload "problemHash" in
  let* verifier := ok_or (get_object payload "verifier") (HttpBadPayload "verifier") in
  let* verifier_kind := ok_or (get_str verifier "kind") (HttpBadPayload "verifier.kind") in
  let* reward_str := required_payload_string payload "reward" in
  let* reward := ok_or (parse_uint u128_max reward_str) (HttpBadPayload "reward") in
  let* deadline := ok_or (payload_u64 payload "deadline") (HttpBadPayload "deadline") in
  let* ts := ok_or (payload_u64 payload "ts") (HttpBadPayload "ts") in
  Ok (mkCreateBountyInput id domain problem_hash verifier_kind (default [] (get_object verifier "metadata")) reward deadline ts).

Definition bounty_announce_json (env : Env) (io : RouteIo) (body : option Value) : stm LocalNodeState HttpError Bounty :=
  let! s := sget in
  let! signed := slift (signed_payload body ANNOUNCE_PAYLOAD_SCHEMA) in
  let '(pk, payload) := signed in
  let! nonce := slift (fresh_nonce env s pk payload) in
  let! input := slift (announced_bounty payload) in
  do! slift (ensure (operator_allowed pk) HttpUnauthorizedSigner);
  do! burn_signed_envelope_nonce pk nonce (ri_nonce io);
  let! bounty := slift (map_err (fun e => match e with
                                          | BountyExists => HttpBountyAlreadyExists (ci_id input)
                                          | _ => HttpBadPayload "create"
                                          end) (preview_create (ls_bounty_registry s) input)) in
  do! append_audit (create_event bounty input pk) (ri_ledger io);
  let! created := slift (map_err (fun _ => HttpInternal) (registry_create (ls_bounty_registry s) input)) in
  do! smodify (fun s => set_registry s created.1);
  sret bounty.

Definition status_event (existing : Bounty) (input : UpdateStatusInput) (pk : string) (reason : option string) : Value :=
  let event := [("announcerPk", VString pk); ("kind", VString "status_change"); ("newStatus", VString (ui_status input));
                ("prevStatus", VString (bo_status existing)); ("problemHash", VString (bo_problem_hash existing));
                ("schemaVersion", VNumber (PosInt 1)); ("ts", VNumber (PosInt (ui_ts input)));
                ("verifierKind", VString (bv_kind (bo_verifier existing))); ("workId", VString (ui_id input))] in
  VObject (match reason with Some text => map_insert "reason" (VString text) event | None => event end).

Definition bounty_status_json (env : Env) (io : RouteIo) (url_id : string) (body : option Value)
    : stm LocalNodeState HttpError Bounty :=
  let! s := sget in
  let! signed := slift (signed_payload body STATUS_PAYLOAD_SCHEMA) in
  let '(pk, payload) := signed in
  let! nonce := slift (fresh_nonce env s pk payload) in
  let! payload_id := slift (required_payload_string payload "id") in
  do! slift (ensure (String.eqb payload_id url_id) (HttpBountyIdMismatch url_id payload_id));
  let! new_status := slift (required_payload_string payload "newStatus") in
  do! slift (ensure (is_status new_status) (HttpBadStatusValue new_status));
  let! ts := slift (ok_or (payload_u64 payload "ts") (HttpBadPayload "ts")) in
  let reason := get_str payload "reason" in
  let! existing := slift (ok_or (br_bounties (ls_bounty_registry s) !! url_id) (HttpBountyNotFound url_id)) in
  do! slift (ensure (operator_allowed pk) HttpUnauthorizedSigner);
  do! burn_signed_envelope_nonce pk nonce (ri_nonce io);
  let input := mkUpdateStatusInput url_id new_status ts in
  let! updated := slift (map_err (fun e => match e with
                                           | TerminalStatus => HttpBountyTerminal (bo_status existing)
                                           | UnknownBounty => HttpBountyNotFound url_id
                                           | _ => HttpInvalidStatusTransition
                                           end) (preview_update_status (ls_bounty_registry s) input)) in
  do! append_audit (status_event existing input pk reason) (ri_ledger io);
  let! changed := slift (map_err (fun _ => HttpInternal) (update_status (ls_bounty_registry s) input)) in
  do! smodify (fun s => set_registry s changed.1);
  sret updated.

(** ** Bounty proofs *)

(** Under the read lock: what to verify, or the answer that is already known. *)
Definition bounty_proof_prepare (env : Env) (s : LocalNodeState) (id : string) (body : option Value)
    : outcome HttpError PreparedProof :=
  let* bounty := ok_or (br_bounties (ls_bounty_registry s) !! id) (HttpBountyNotFound id) in
  let* signed := signed_payload body BOUNTY_PROOF_PAYLOAD_SCHEMA in
  let '(pk, payload) := signed in
  do* check_payload_valid_before env payload;
  let* nonce := check_payload_nonce payload in
  let* payload_bounty_id := required_payload_string payload "bountyId" in
  do* ensure (String.eqb payload_bounty_id id) (HttpBadPayload "bountyId");
  let* envelope_hash := ok_or (get_str payload "proofHash") HttpBadProofHash in
  do* ensure (is_hex32_text envelope_hash) HttpBadProofHash;
  let* prover := ok_or (get_str payload "prover") HttpBadProver in
  do* ensure (is_hex32_text prover) HttpBadProver;
  do* ensure (String.eqb prover pk) (HttpBadPayload "prover");
  let envelope := default VNull (assoc "envelope" payload) in
  let expected := canonical_payload_hash_hex envelope in
  do* ensure (String.eqb envelope_hash expected) (HttpProofHashMismatch expected envelope_hash);
  let* verifier := ok_or (bounty_verifiers !! bv_kind (bo_verifier bounty)) (HttpNoVerifier (bv_kind (bo_verifier bounty))) in
  let* artifact := map_err (fun _ => HttpBadPayload "envelope") (pv_effective_artifact verifier bounty envelope) in
  let proof_hash := bounty_proof_hash_hex artifact in
  match has_proof (ls_bounty_registry s) id proof_hash with
  | Some accepted => Ok (ProofDuplicate (mkProofReply accepted true proof_hash envelope_hash bounty))
  | None =>
      do* check_signed_envelope_nonce_not_replayed s pk nonce;
      do* ensure (String.eqb (bo_status bounty) "open") (HttpBountyTerminal (bo_status bounty));
      Ok (RunVerifier (mkPreparedProof bounty proof_hash envelope_hash artifact prover envelope verifier pk nonce))
  end.

(** The audit row of a proof. Only Lean bounties carry what is needed to run
    the checker again. *)
Definition proof_event (prepared : PreparedProofToVerify) (id : string) (outcome : VerifyOutcome) (now_ms : N) : Value :=
  let bounty := pp_bounty prepared in
  let event := [("accepted", VBool (vo_accepted outcome));
                ("credit", VString (if vo_accepted outcome then bo_reward bounty else "0"));
                ("envelopeHash", VString (pp_envelope_hash prepared)); ("kind", VString "proof");
                ("problemHash", VString (bo_problem_hash bounty)); ("proofHash", VString (pp_proof_hash prepared));
                ("reward", VString (bo_reward bounty)); ("schemaVersion", VNumber (PosInt 1));
                ("solverPk", VString (pp_prover prepared)); ("ts", VNumber (PosInt now_ms));
                ("verifierKind", VString (bv_kind (bo_verifier bounty))); ("workId", VString id)] in
  if negb (String.eqb (bv_kind (bo_verifier bounty)) "lean") then VObject event
  else
    let put name (text : option string) m := match text with Some t => map_insert name (VString t) m | None => m end in
    let event := put "leanSource" (event_string (pp_envelope prepared) "leanSource") event in
    let event := put "effectiveArtifact"
      (if utf8_valid (pp_artifact prepared) then Some (String.string_of_list_byte (pp_artifact prepared)) else None) event in
    let event := put "verifierHash" (get_str (bv_metadata (bo_verifier bounty)) "verifierHash") event in
    VObject (fold_left or_insert (vo_evidence outcome) event).

Definition bounty_proof_finalize (env : Env) (io : RouteIo) (id : string) (prepared : PreparedProofToVerify)
    (outcome : VerifyOutcome) : stm LocalNodeState HttpError ProofReply :=
  let now_ms := en_now_ms env in
  do! burn_signed_envelope_nonce (pp_signer_pk prepared) (pp_nonce prepared) (ri_nonce io);
  let input := mkSubmitProofInput id (pp_proof_hash prepared) (pp_prover prepared) (vo_accepted outcome) now_ms in
  let! s := sget in
  let! preview := slift (map_err (fun _ => HttpInternal) (preview_submit_proof (ls_bounty_registry s) input)) in
  do! (if sr_duplicate preview then sret tt else append_audit (proof_event prepared id outcome now_ms) (ri_ledger io));
  let! submitted := slift (map_err (fun _ => HttpInternal) (submit_proof (ls_bounty_registry s) input)) in
  let '(registry, result) := submitted in
  do! smodify (fun s => set_registry s registry);
  do! (if sr_accepted result && negb (sr_duplicate result)
       then smodify (fun s => set_side_pool s (side_pool_insert (ls_bounty_side_pool s)
              (mkBountyShare id (pp_proof_hash prepared) (pp_prover prepared) (bo_domain (pp_bounty prepared)) now_ms
                 (default 0 (parse_uint u128_max (bo_reward (pp_bounty prepared)))))))
       else sret tt);
  sret (mkProofReply (sr_accepted result) (sr_duplicate result) (pp_proof_hash prepared) (pp_envelope_hash prepared)
          (sr_bounty result)).

(** The last phase of [bounty_proof_handler], with the verifier's answer; a
    verifier task that panicked is an error. *)
Definition bounty_proof_finish (env : Env) (io : RouteIo) (id : string) (prepared : PreparedProofToVerify)
    (verdict : outcome string VerifyOutcome) : stm LocalNodeState HttpError ProofReply :=
  match verdict with
  | Ok outcome => write_guarded env (bounty_proof_finalize env io id prepared outcome)
  | _ => slift (Err HttpVerifierError)
  end.

(** ** Tickets *)

Definition required_string (body : list (string * Value)) (field : string) : outcome HttpError string :=
  ok_or (get_str body field) (HttpMissingField field).

Definition hex32_or (field value : string) : outcome HttpError Hex32 := map_err (fun _ => HttpBadHex field) (hex32_from_hex value).

Definition ticket_json (body : option Value) : stm LocalNodeState HttpError TicketReply :=
  let! ticket_body := slift (ok_or (match body with Some (VObject m) => Some m | _ => None end) HttpBadRequest) in
  do! slift (ofold (fun _ key => ensure (existsb (String.eqb key) TICKET_BODY_FIELDS) (HttpUnexpectedField key)) tt ticket_body.*1);
  let! c_str := slift (required_string ticket_body "c") in
  let! pk_str := slift (required_string ticket_body "pk") in
  let! n_str := slift (required_string ticket_body "n") in
  let! c := slift (hex32_or "c" c_str) in
  let! pk := slift (hex32_or "pk" pk_str) in
  let! n := slift (hex32_or "n" n_str) in
  let! newly_observed := on_node (fun _ => HttpBadRequest) (observe_ticket_from_body ticket_body) in
  let! s := sget in
  do! slift (ensure (newly_observed || has_observed_ticket (rt_rate_limiter (ls_runtime s)) pk_str c_str n_str)
               HttpTicketObservationUnavailable);
  let result := ticket c pk n (t_ticket (cp_thresholds (rc_policy (rt_config (ls_runtime s))))) in
  sret (mkTicketReply (to_hex (tr_hash_bytes result)) (tr_valid result)).

(** ** The handlers *)

Definition session_register_handler (env : Env) (io : RouteIo) (body : option Value) : stm LocalNodeState HttpError SessionState :=
  write_guarded env (session_register_json env io body).
Definition session_revoke_handler (env : Env) (io : RouteIo) (session_pk : string) (body : option Value)
    : stm LocalNodeState HttpError SessionState :=
  write_guarded env (session_revoke_json env io session_pk body).
Definition receipt_post_handler (env : Env) (io : RouteIo) (body : option Value) : stm LocalNodeState HttpError ReceiptCommitment :=
  write_guarded env (receipt_post_json env io body).
Definition bounty_announce_handler (env : Env) (io : RouteIo) (body : option Value) : stm LocalNodeState HttpError Bounty :=
  write_guarded env (bounty_announce_json env io body).
Definition bounty_status_handler (env : Env) (io : RouteIo) (id : string) (body : option Value) : stm LocalNodeState HttpError Bounty :=
  write_guarded env (bounty_status_json env io id body).
Definition ticket_handler (env : Env) (body : option Value) : stm LocalNodeState HttpError TicketReply :=
  write_guarded env (ticket_json body).

End LocalRoutes.
