(* ===== verification/ConcreteStores.v ===== *)
(** * A sample node

    Codes for the values the node stores, which give them line formats, and the
    genesis, registry and blocks of a small network. Used by
    the witnesses alone; nothing here models code. *)

From stdpp Require Import countable.
From S2P Require Import Prelude Json Externals Hash Block BlockBuilder Config FamilyManifest Replay Durability Stores Runtime RuntimeFacts Concrete ConcreteLines.

(** ** The stored values are countable *)

Fixpoint value_tree (v : Value) : gen_tree (bool + (N + Z + N) + string) :=
  match v with
  | VNull => GenNode 0 []
  | VBool b => GenLeaf (inl (inl b))
  | VNumber (PosInt n) => GenLeaf (inl (inr (inl (inl n))))
  | VNumber (NegInt z) => GenLeaf (inl (inr (inl (inr z))))
  | VNumber (Float n) => GenLeaf (inl (inr (inr n)))
  | VString s => GenLeaf (inr s)
  | VArray l => GenNode 1 (map value_tree l)
  | VObject m => GenNode 2 (map (fun e => GenNode 3 [GenLeaf (inr e.1); value_tree e.2]) m)
  end.

Fixpoint tree_value (t : gen_tree (bool + (N + Z + N) + string)) : Value :=
  match t with
  | GenLeaf (inl (inl b)) => VBool b
  | GenLeaf (inl (inr (inl (inl n)))) => VNumber (PosInt n)
  | GenLeaf (inl (inr (inl (inr z)))) => VNumber (NegInt z)
  | GenLeaf (inl (inr (inr n))) => VNumber (Float n)
  | GenLeaf (inr s) => VString s
  | GenNode 1 ts => VArray (map tree_value ts)
  | GenNode 2 ts => VObject (map (fun t =>
      match t with GenNode _ [GenLeaf (inr k); t'] => (k, tree_value t') | _ => (EmptyString, VNull) end) ts)
  | GenNode _ _ => VNull
  end.

Fixpoint tree_value_tree (v : Value) : tree_value (value_tree v) = v.
Proof.
  destruct v as [| |[]| |l|m]; [reflexivity..| |]; cbn [value_tree tree_value]; apply f_equal.
  - induction l as [|v l IH]; [done|]. cbn [map]. by rewrite tree_value_tree, IH.
  - induction m as [|[k v] m IH]; [done|]. cbn [map fst snd]. by rewrite tree_value_tree, IH.
Qed.

#[export] Instance value_countable : Countable Value := inj_countable' value_tree tree_value tree_value_tree.

#[export] Instance authorization_countable : Countable ShareWorkAuthorization.
Proof.
  refine (inj_countable' (fun s => (swa_schema s, swa_payload s, swa_pk s, swa_signature s, swa_network_id s)) (fun '(a, b, c, d, e) => mkShareWorkAuthorization a b c d e) _). by intros [].
Defined.

#[export] Instance promoted_share_countable : Countable PromotedBountyShare.
Proof.
  refine (inj_countable' (fun s => (pbs_family_id s, pbs_bounty_id s, pbs_proof_hash s, pbs_prover s, pbs_reward s))
    (fun '(f, b, h, p, r) => mkPromotedBountyShare f b h p r) _). by intros [].
Defined.

#[export] Instance share_evidence_countable : Countable SelectedShareEvidence.
Proof.
  refine (inj_countable' (fun e => (ev_pk e, ev_n e, ev_j e, ev_c e, ev_canon_hash e, ev_proof_package e, ev_seed_hex e, ev_signed_work e))
    (fun '(a, b, c, d, e, f, g, h) => mkSelectedShareEvidence a b c d e f g h) _). by intros [].
Defined.

#[export] Instance persisted_block_countable : Countable PersistedBlock.
Proof.
  refine (inj_countable' (fun b =>
      (b_height b, b_prev_c b, b_c b, b_proposer_pk b, b_selected_share_hashes b, b_selected_share_pks b, b_selected_share_reward_pks b,
       (b_proposer_reward_pk b, b_selected_share_evidence b, b_min_share_score b, b_min_share_score_multiplier_nanos b,
        b_kmax_applied b, b_difficulty_epoch b, b_t_block b),
       (b_t_share b, b_difficulty_weight b, b_dropped_below_min_score b, b_dropped_kernel_reject b, b_truncated_by_kmax b, b_ts b,
        b_promoted_bounty_shares b)))
    (fun '(a, b, c, d, e, f, g, (h, i, j, k, l, m, n), (o, p, q, r, s, t, u)) =>
      mkPersistedBlock a b c d e f g h i j k l m n o p q r s t u) _). by intros [].
Defined.

#[export] Instance persisted_credit_countable : Countable PersistedCredit.
Proof. refine (inj_countable' (fun c => (pc_pk c, pc_amount c)) (fun '(p, a) => mkPersistedCredit p a) _). by intros []. Defined.

#[export] Instance reward_event_countable : Countable PersistedRewardEvent.
Proof.
  refine (inj_countable' (fun e => (re_height e, re_c e, re_credits e)) (fun '(h, c, l) => mkPersistedRewardEvent h c l) _). by intros [].
Defined.

(** ** A small network *)

Module NodeDemo.
Definition spec : GenesisSpec :=
  mkGenesisSpec LEGACY_UNNAMED_FALLBACK_NETWORK_ID
    (mkGenesisParams 1 ReplayDemo.target ReplayDemo.target 4 None false None None) (mkGenesisInitialState ReplayDemo.zeros).
Definition policy : CalibrationPolicy :=
  mkCalibrationPolicy (mkCalibrationThresholds (2 ^ 256 - 1) (2 ^ 256 - 1) (2 ^ 256 - 1) (2 ^ 256 - 1)) 4 2 8 16384 1024 2 10 1000000000.
Definition config : RuntimeConfig := mkRuntimeConfig policy 60000 None Disabled.
Definition registry : FamilyManifestRegistry := ManifestDemo.registry.
Definition host : Host := mkHost ∅ 0 no_fence.

(** A strictly valid block whose promoted share has no bounty id. *)
Definition unnamed_draft (c : string) : PersistedBlock :=
  mkPersistedBlock 0 ReplayDemo.zeros c ReplayDemo.ones [ReplayDemo.hash] [ReplayDemo.ones] [] "" [ReplayDemo.evidence] "1"
    MIN_SHARE_SCORE_MULTIPLIER_NANOS 1 0 ReplayDemo.target ReplayDemo.target "1" 0 0 0 1000
    [mkPromotedBountyShare "fam" "" ReplayDemo.ones ReplayDemo.zeros "3"].
Definition unnamed_block : PersistedBlock := unnamed_draft (to_hex (block_hash (unnamed_draft ""))).
Definition host_with (bytes : list byte) : Host := mkHost {["blocks" := mkFileNode 0 bytes]} 1 no_fence.
Definition unnamed_host : Host := host_with (log_of [unnamed_block]).
End NodeDemo.

Lemma host_with_bytes bytes : file_bytes (NodeDemo.host_with bytes) "blocks" = bytes.
Proof. unfold file_bytes, NodeDemo.host_with. cbn [h_files]. by rewrite lookup_singleton_eq. Qed.
