(* ===== verification/RuntimeTheorems.v ===== *)
(** * What the node promises about its chain

    A node that boots under a genesis keeps one invariant over every operation
    and every failure of its files: either memory and files agree on a chain
    that replays, or the process refuses all further changes and the files
    still hold such a chain. A reboot then always succeeds. *)

From S2P Require Import Prelude Json Externals Hash Block BlockBuilder Difficulty Config ShareAuthorization.
From S2P Require Import FamilyManifest Bounty ReplayEvidence Replay SharePool RateLimiter Admission Durability BountyLedger Stores Runtime.
From S2P Require Import RuntimeFacts.

Section Node.
Context {X : Externals}.
Context {NB : Ndjson PersistedBlock} {LB : NdjsonLaws PersistedBlock (fun _ => True)}.
Context {NR : Ndjson PersistedRewardEvent} {NV : Ndjson Value} {LV : NdjsonLaws Value json_plain}.

(** The arguments of a boot. *)
Context (config : RuntimeConfig) (block_path : string) (reward_path bounty_path : option string).
Context (registry : FamilyManifestRegistry) (spec : GenesisSpec) (auth : option string).

(** The replay every chain of the node goes through. *)
Definition contract (blocks : list PersistedBlock) : outcome ReplayError ReplayResult :=
  replay_blocks_with_genesis_and_registry_for_authorization_network blocks spec registry auth.

Definition boot (io : BootIo) : stm Host RuntimeError RuntimeAdmissionState :=
  boot_from_store_inner config block_path reward_path bounty_path registry (Some spec) auth io.

Record paths_distinct : Prop := {
  pt_reward : reward_path <> Some block_path;
  pt_bounty : bounty_path <> Some block_path;
  pt_ledgers : forall p, reward_path = Some p -> bounty_path <> Some p
}.

(** The chain names its bounties, where the node keeps bounty rows. *)
Definition chain_named (blocks : list PersistedBlock) : Prop := bounty_path <> None -> Forall block_named blocks.

(** The block file holds a chain that replays, and perhaps a torn line. *)
Definition recoverable (h : Host) : Prop :=
  exists chain tail, newline ∉ tail /\ file_bytes h block_path = log_of chain ++ tail /\ is_ok (contract chain) = true /\
    chain_named chain.

(** What stays fixed after a boot. *)
Record configured (r : RuntimeAdmissionState) : Prop := {
  cf_config : rt_config r = config;
  cf_registry : rt_family_registry r = registry;
  cf_genesis : rt_boot_genesis r = Some spec;
  cf_auth : rt_authorization_network_id r = auth;
  cf_reward : rt_reward_ledger_path r = reward_path
}.

(** Memory and files agree on [chain]. *)
Record healthy (n : Node) (chain : list PersistedBlock) (res : ReplayResult) : Prop := {
  he_failure : rt_canonical_state_failure (no_runtime n) = None;
  he_cache : rt_block_cache (no_runtime n) = chain;
  he_replay : contract chain = Ok res;
  he_head : rt_current_c (no_runtime n) = Some (rr_latest_c res);
  he_ledger : match reward_path with
              | None => True
              | Some _ => exists evs, rt_reward_ledger (no_runtime n) = Some (mkFileRewardLedger evs (rr_balances res)) /\
                  reward_events chain registry = Ok evs
              end;
  he_file : file_bytes (no_host n) block_path = log_of chain;
  he_named : chain_named chain
}.

Record node_ok (n : Node) : Prop := {
  no_configured : configured (no_runtime n);
  no_healthy : rt_canonical_state_failure (no_runtime n) = None -> exists chain res, healthy n chain res;
  no_recoverable : recoverable (no_host n)
}.

Lemma healthy_recoverable n chain res : healthy n chain res -> recoverable (no_host n).
Proof.
  intros H. exists chain, []. rewrite app_nil_r, (he_file _ _ _ H), (he_replay _ _ _ H).
  split_and!; [set_solver|done|done|apply H].
Qed.

(** ** Replaying a longer chain *)

Lemma contract_rules blocks res : contract blocks = Ok res ->
  replay_blocks_with_rules blocks Strict (gi_genesis_c (gs_initial_state spec)) (Some (gs_params spec)) auth registry = Ok res.
Proof.
  unfold contract, replay_blocks_with_genesis_and_registry_for_authorization_network. intros H.
  destruct (match auth with Some id => _ | None => _ end) as [[]| |]; try discriminate H.
  cbn [obind] in H. destruct (match gp_retarget _ with Some policy => _ | None => _ end) as [[]| |]; try discriminate H.
  cbn [obind] in H. by destruct (validate_static_t_share _ _) as [[]| |].
Qed.

Lemma contract_events blocks res : contract blocks = Ok res ->
  exists evs, reward_events blocks registry = Ok evs /\
    sfor reward_apply evs reward_ledger_new = (mkFileRewardLedger evs (rr_balances res), Ok tt).
Proof.
  intros H%contract_rules. apply replay_rules_fold in H as (st & Hst & _ & _ & -> & _).
  destruct (chain_rewards _ _ _ _ blocks _ _ [] Hst) as (evs & H1 & _ & H3). by exists evs.
Qed.

(** The last block of a chain that replays moves head and ledger. *)
Lemma contract_snoc chain b res res' : contract chain = Ok res -> contract (chain ++ [b]) = Ok res' ->
  rr_latest_c res' = b_c b /\ exists event, derive_reward_event b registry = Ok event /\
    (forall evs, reward_apply event (mkFileRewardLedger evs (rr_balances res)) =
       (mkFileRewardLedger (evs ++ [event]) (rr_balances res'), Ok tt)) /\
    (forall evs, reward_events chain registry = Ok evs -> reward_events (chain ++ [b]) registry = Ok (evs ++ [event])).
Proof.
  intros H%contract_rules H'%contract_rules. apply replay_rules_fold in H as (st & Hst & _ & _ & -> & _).
  apply replay_rules_fold in H' as (st' & Hst' & _ & -> & -> & _). rewrite ofold_app, Hst in Hst'. cbn [obind ofold] in Hst'.
  destruct (replay_step _ _ _ _ st b) as [st1| |] eqn:E; try discriminate Hst'. injection Hst' as <-. split.
  - destruct st as [h s]. by apply replay_step_Ok in E as (cs & bounty & bal1 & _ & _ & _ & _ & _ & _ & _ & _ & Hl).
  - destruct (reward_step _ _ _ _ _ _ _ E) as (event & He & _ & _ & Ha). exists event. split_and!; [done|exact Ha|].
    intros evs Hevs. unfold reward_events in *. rewrite ofold_app, Hevs. cbn [obind ofold]. by rewrite He.
Qed.

Lemma chain_named_snoc chain b : chain_named chain -> (bounty_path <> None -> block_named b) -> chain_named (chain ++ [b]).
Proof. intros H1 H2 Hp. apply Forall_app. split; [by apply H1|]. constructor; [by apply H2|done]. Qed.

(** ** Publishing a block *)

(** The files the runtime leaves alone. *)
Definition untouched (h h' : Host) : Prop :=
  forall p, p <> block_path -> reward_path <> Some p -> h_files h' !! p = h_files h !! p.

Lemma untouched_trans h1 h2 h3 : untouched h1 h2 -> untouched h2 h3 -> untouched h1 h3.
Proof. intros A B p H1 H2. by rewrite B, A. Qed.

(** The effects of an append of the stores. *)
Lemma append_line_frame {A} `{!Ndjson A} path (a : A) io h h' r : append_line path a io h = (h', r) ->
  r <> Panic /\ forall p, p <> path -> h_files h' !! p = h_files h !! p.
Proof.
  unfold append_line, smap_err. destruct (append_ndjson_line_durable _ _ _ _) as [h1 r1] eqn:E. intros [= <- <-].
  split; [|by apply (append_durable_effect _ _ _ _ _ _ E)].
  unfold append_ndjson_line_durable, append_ndjson_transaction in E. by repeat case_match; simplify_eq.
Qed.

Lemma append_line_log {A} `{!Ndjson A} `{!NdjsonLaws A plain} path (a : A) io h h' r l : append_line path a io h = (h', r) ->
  file_bytes h path = log_of l ->
  (r = Ok tt -> file_bytes h' path = log_of (l ++ [a])) /\
  exists l' tail, newline ∉ tail /\ file_bytes h' path = log_of l' ++ tail /\ (l' = l \/ l' = l ++ [a]).
Proof.
  unfold append_line, smap_err. destruct (append_ndjson_line_durable _ _ _ _) as [h1 r1] eqn:E. intros [= <- <-] Hl.
  pose proof (append_durable_effect _ _ _ _ _ _ E) as [Hw Hf _ _]. destruct (is_ok r1) eqn:Hok.
  - destruct (Hw eq_refl) as [Hb _]. rewrite Hl, <- log_of_snoc in Hb. split; [done|].
    exists (l ++ [a]), []. rewrite app_nil_r. split_and!; [set_solver|done|by right].
  - split; [by destruct r1|]. destruct (Hf eq_refl) as (k & Hk & _).
    destruct (torn_log (map nd_encode l) (nd_encode a) k) as (ls & tail & Ht & He & Hor); [apply nd_encode_no_newline|].
    rewrite Hk, Hl. unfold log_of at 1. rewrite He.
    destruct Hor as [->| ->]; [exists l|exists (l ++ [a])]; exists tail; (split_and!; [done| |auto]); [done|].
    unfold log_of. by rewrite map_app.
Qed.

(** The last step of a publication, in memory. *)
Definition published (r : RuntimeAdmissionState) (b : PersistedBlock) : RuntimeAdmissionState :=
  let r' := (apply_block_unchecked r b).1 in set_failure (set_block_cache r' (rt_block_cache r' ++ [b])) None.

Lemma published_fields r b : let r' := published r b in
  rt_config r' = rt_config r /\ rt_family_registry r' = rt_family_registry r /\ rt_boot_genesis r' = rt_boot_genesis r /\
  rt_authorization_network_id r' = rt_authorization_network_id r /\ rt_reward_ledger_path r' = rt_reward_ledger_path r /\
  rt_reward_ledger r' = rt_reward_ledger r /\ rt_current_c r' = Some (b_c b) /\ rt_block_cache r' = rt_block_cache r ++ [b] /\
  rt_canonical_state_failure r' = None.
Proof. unfold published, apply_block_unchecked. destruct (prune_to_height _ _) as [p d]. by split_and!. Qed.

(** The body of a publication, with the derived event at hand. *)
Lemma publish_run n b io event : rt_family_registry (no_runtime n) = registry -> derive_reward_event b registry = Ok event ->
  publish_block block_path b io n =
  match append_line block_path b (pu_block io) (no_host n) with
  | (h1, Ok _) =>
      match rt_reward_ledger_path (no_runtime n), rt_reward_ledger (no_runtime n) with
      | Some path, Some ledger =>
          match append_line path event (pu_reward io) h1 with
          | (h2, Ok _) =>
              match reward_apply event ledger with
              | (l', Ok _) =>
                  let r := set_reward_ledger (set_failure (no_runtime n) (Some BlockReward)) (Some path) (Some l') in
                  (mkNode (published r b) h2, Ok (apply_block_unchecked r b).2)
              | (l', Err e) =>
                  (mkNode (set_reward_ledger (set_failure (no_runtime n) (Some BlockReward)) (Some path) (Some l')) h2,
                   Err (RuntimeStore e))
              | (l', Panic) =>
                  (mkNode (set_reward_ledger (set_failure (no_runtime n) (Some BlockReward)) (Some path) (Some l')) h2, Panic)
              end
          | (h2, Err e) => (mkNode (set_failure (no_runtime n) (Some BlockReward)) h2, Err (RuntimeStore e))
          | (h2, Panic) => (mkNode (set_failure (no_runtime n) (Some BlockReward)) h2, Panic)
          end
      | _, _ =>
          let r := set_failure (no_runtime n) (Some BlockReward) in
          (mkNode (published r b) h1, Ok (apply_block_unchecked r b).2)
      end
  | (h1, Err e) => (mkNode (set_failure (no_runtime n) (Some BlockReward)) h1, Err (RuntimeStore e))
  | (h1, Panic) => (mkNode (set_failure (no_runtime n) (Some BlockReward)) h1, Panic)
  end.
Proof.
  intros Hreg He. destruct n as [r h]. cbn [no_runtime no_host] in *. unfold publish_block, sbind, get_runtime, slift. cbn [no_runtime].
  rewrite Hreg, He. unfold begin_canonical_publish, on_runtime, on_store, on_ledger, finish_canonical_publish, put_runtime, sret, block_store_append, reward_append, published.
  destruct (rt_reward_ledger_path r) as [path|] eqn:Hp; cbn [omap obind no_runtime no_host].
  - destruct (append_line block_path b _ h) as [h1 [[]| |]]; cbn [map_err]; [|done..].
    destruct (rt_reward_ledger r) as [ledger|]; cbn [no_runtime no_host].
    + destruct (append_line path event _ h1) as [h2 [[]| |]]; cbn [map_err no_runtime no_host]; [|done..]. cbn [set_failure rt_reward_ledger_path]. rewrite Hp.
      destruct (reward_apply event ledger) as [l' [[]| |]]; cbn [map_err no_runtime]; [|done..].
      by destruct (apply_block_unchecked _ b).
    + by destruct (apply_block_unchecked _ b).
  - destruct (append_line block_path b _ h) as [h1 [[]| |]]; cbn [map_err no_runtime no_host]; [|done..].
    by destruct (apply_block_unchecked _ b).
Qed.

Lemma publish_outcome n chain res b res' io n' r : configured (no_runtime n) -> healthy n chain res ->
  reward_path <> Some block_path -> contract (chain ++ [b]) = Ok res' -> (bounty_path <> None -> block_named b) ->
  publish_block block_path b io n = (n', r) ->
  configured (no_runtime n') /\ recoverable (no_host n') /\ untouched (no_host n) (no_host n') /\
  match r with
  | Ok _ => healthy n' (chain ++ [b]) res'
  | Err _ => rt_canonical_state_failure (no_runtime n') = Some BlockReward
  | Panic => False
  end.
Proof.
  intros Hc Hh Hpath Hb Hnamed. destruct Hc as [C1 C2 C3 C4 C5].
  destruct (contract_snoc _ _ _ _ (he_replay _ _ _ Hh) Hb) as (Hlatest & event & He & Happly & Hevs).
  pose proof (chain_named_snoc _ _ (he_named _ _ _ Hh) Hnamed) as Hnamed'.
  assert (Hpoison : configured (set_failure (no_runtime n) (Some BlockReward))) by done.
  rewrite (publish_run n b io event C2 He). rewrite C5. destruct (append_line block_path b _ _) as [h1 r1] eqn:E1.
  destruct (append_line_frame _ _ _ _ _ _ E1) as [Hp1 Hf1].
  destruct (append_line_log _ _ _ _ _ _ _ E1 (he_file _ _ _ Hh)) as (Hok1 & l' & tail & Ht & Hl' & Hor).
  assert (Hrec1 : recoverable h1).
  { exists l', tail. split_and!; [done|done| |]; destruct Hor as [->| ->];
      [by rewrite (he_replay _ _ _ Hh)|by rewrite Hb|apply Hh|done]. }
  assert (Hun1 : untouched (no_host n) h1) by (intros p Hp _; by apply Hf1).
  destruct r1 as [[]| |]; [|intros [= <- <-]; split_and!; done|done]. specialize (Hok1 eq_refl).
  pose proof (he_ledger _ _ _ Hh) as Hled. destruct reward_path as [path|] eqn:Erp.
  - destruct Hled as (evs & -> & Hevs0). destruct (append_line path event _ h1) as [h2 r2] eqn:E2.
    destruct (append_line_frame _ _ _ _ _ _ E2) as [Hp2 Hf2].
    assert (Hfile : file_bytes h2 block_path = file_bytes h1 block_path).
    { unfold file_bytes. rewrite Hf2; [done|]. congruence. }
    assert (Hrec2 : recoverable h2) by (destruct Hrec1 as (c & t & ? & Hft & ?); exists c, t; rewrite Hfile; auto).
    assert (Hun2 : untouched (no_host n) h2).
    { intros p Hp Hr. rewrite Hf2, Hf1; [done|done|congruence]. }
    destruct r2 as [[]| |]; [|intros [= <- <-]; split_and!; done|done]. rewrite Happly. intros [= <- <-]. cbn [no_runtime no_host].
    destruct (published_fields (set_reward_ledger (set_failure (no_runtime n) (Some BlockReward)) (Some path)
      (Some (mkFileRewardLedger (evs ++ [event]) (rr_balances res')))) b) as (F1 & F2 & F3 & F4 & F5 & F6 & F7 & F8 & F9).
    split_and!; [split; cbn [no_runtime]; rewrite ?F1, ?F2, ?F3, ?F4, ?F5, ?Erp; done|done|done|]. split; cbn [no_runtime no_host]; rewrite ?F7, ?Hlatest; try done.
    + rewrite F8. cbn. by rewrite (he_cache _ _ _ Hh).
    + rewrite Erp. rewrite F6. exists (evs ++ [event]). split; [done|]. by apply Hevs.
    + by rewrite Hfile.
  - intros [= <- <-]. cbn [no_runtime no_host].
    destruct (published_fields (set_failure (no_runtime n) (Some BlockReward)) b) as (F1 & F2 & F3 & F4 & F5 & F6 & F7 & F8 & F9).
    split_and!; [split; cbn [no_runtime]; rewrite ?F1, ?F2, ?F3, ?F4, ?F5, ?Erp; done|done|done|]. split; cbn [no_runtime no_host]; rewrite ?F7, ?Hlatest; try done.
    + rewrite F8. cbn. by rewrite (he_cache _ _ _ Hh).
    + by rewrite Erp.
Qed.

(** ** Every operation keeps the invariant *)

(** The outcome of an operation: the invariant, and the files it leaves alone. *)
Definition kept (n n' : Node) : Prop := node_ok n' /\ untouched (no_host n) (no_host n').

Lemma kept_refl n : node_ok n -> kept n n.
Proof. done. Qed.

Lemma published_kept n chain res b res' io n' r : node_ok n -> healthy n chain res -> reward_path <> Some block_path ->
  contract (chain ++ [b]) = Ok res' -> (bounty_path <> None -> block_named b) ->
  publish_block block_path b io n = (n', r) -> kept n n'.
Proof.
  intros Hn Hh Hp Hb Hnm E. destruct (publish_outcome _ _ _ _ _ _ _ _ (no_configured _ Hn) Hh Hp Hb Hnm E) as (Hc & Hr & Hu & Hres).
  split; [|done]. split; [done| |done]. destruct r as [d|e|]; [intros _; by exists (chain ++ [b]), res'| |done].
  rewrite Hres. discriminate.
Qed.

Lemma produced_promoted r height ts tags cfg promoted b :
  produce_block_for_current_c_with_config r height ts tags cfg promoted = Ok b -> b_promoted_bounty_shares b = promoted.
Proof.
  unfold produce_block_for_current_c_with_config. intros H. destruct (rt_current_c r) as [c|]; [|discriminate H]. cbn [ok_or obind] in H.
  destruct (build_block_selection_for_network _ _ _ _ _ _ _) as [[s|]| |] eqn:E; try discriminate H. cbn [map_err obind] in H.
  destruct (bs_selected s !! _); [|discriminate H]. injection H as <-. cbn [seal b_promoted_bounty_shares].
  unfold build_block_selection_for_network in E. destruct (normalize_hex256 _); try discriminate E. cbn [obind] in E.
  destruct (ofold _ _ _) as [[d l]| |]; try discriminate E. cbn [obind] in E.
  destruct (select_qualifying_proposer _ _) as [[[w|] k]| |]; try discriminate E. cbn [obind] in E. by injection E as <-.
Qed.

Lemma commit_kept n height ts tags promoted io n' r : node_ok n -> reward_path <> Some block_path ->
  (bounty_path <> None -> Forall named promoted) ->
  commit_using_cache block_path height ts tags promoted io n = (n', r) -> kept n n'.
Proof.
  intros Hn Hp Hnm. pose proof Hn as [Hc Hhealthy Hrec]. pose proof (kept_refl n Hn) as Hsame.
  unfold commit_using_cache, sbind, get_runtime, slift, sret, ensure_canonical_state_healthy.
  destruct (rt_canonical_state_failure (no_runtime n)) as [ph|] eqn:Ef; [by intros [= <- <-]|].
  destruct (block_builder_config_for_height _ _) as [cfg| |]; [|by intros [= <- <-]..].
  destruct (produce_block_for_current_c_with_config _ _ _ _ _ _) as [b| |] eqn:Eb; [|by intros [= <- <-]..].
  destruct (check_block_applicable _ b) as [[]| |]; [|by intros [= <- <-]..]. destruct (Hhealthy eq_refl) as (chain & res & Hh).
  rewrite (cf_genesis _ Hc), (he_cache _ _ _ Hh), (cf_registry _ Hc), (cf_auth _ Hc). fold (contract (chain ++ [b])).
  destruct (contract (chain ++ [b])) as [res'| |] eqn:Er; cbn [map_err omap obind]; [|by intros [= <- <-]..].
  destruct (publish_block block_path b io n) as [n1 r1] eqn:E1. intros H. assert (n' = n1) as -> by (destruct r1; by injection H).
  apply (published_kept n chain res b res' io n1 r1); try done. intros Hb. unfold block_named.
  rewrite (produced_promoted _ _ _ _ _ _ _ Eb). by apply Hnm.
Qed.

Lemma ingest_kept n b io n' r : node_ok n -> reward_path <> Some block_path -> (bounty_path <> None -> block_named b) ->
  is_ok (contract (rt_block_cache (no_runtime n) ++ [b])) = true ->
  ingest_external_block block_path b io n = (n', r) -> kept n n'.
Proof.
  intros Hn Hp Hnm Hok. pose proof (kept_refl n Hn) as Hsame. destruct (is_ok_Ok _ Hok) as [res' Hres'].
  unfold ingest_external_block, sbind, get_runtime, slift, ensure_canonical_state_healthy.
  destruct (rt_canonical_state_failure (no_runtime n)) as [ph|] eqn:Ef; [by intros [= <- <-]|].
  destruct (check_block_applicable _ b) as [[]| |]; [|by intros [= <- <-]..]. destruct (no_healthy _ Hn Ef) as (chain & res & Hh).
  rewrite (he_cache _ _ _ Hh) in Hres'. by apply (published_kept n chain res b res').
Qed.

(** ** Replacing the chain *)

Lemma evaluate_sound r candidate now head replay kept_current : configured r ->
  evaluate_candidate r candidate spec now = Ok (head, replay, kept_current) ->
  contract candidate = Ok replay /\ last candidate = Some head /\ rt_canonical_state_failure r = None /\
  keeps_current r candidate (block_hash head) = Ok kept_current.
Proof.
  intros Hc. unfold evaluate_candidate, ensure_canonical_state_healthy. intros H.
  destruct (rt_canonical_state_failure r); [discriminate H|]. cbn [obind] in H.
  destruct (last candidate) as [hd|]; [|discriminate H]. cbn [ok_or obind] in H.
  destruct (check_block_ts_future_drift _ _) as [[]| |]; try discriminate H. cbn [obind] in H.
  assert (Hid : reorg_network_id r spec = auth).
  { unfold reorg_network_id. rewrite (cf_auth _ Hc), (cf_genesis _ Hc). by destruct auth. }
  rewrite (cf_registry _ Hc), Hid in H. fold (contract candidate) in H.
  destruct (contract candidate) as [rep| |]; try discriminate H. cbn [map_err obind head_block_hash] in H.
  destruct (keeps_current _ _ _) as [k| |] eqn:Ek; try discriminate H. cbn [obind] in H. injection H as <- <- <-. by split_and!.
Qed.

Lemma reward_events_extend blocks : forall acc evs,
  ofold (fun events block => let* event := derive_reward_event block registry in Ok (events ++ [event])) acc blocks = Ok evs ->
  exists more, evs = acc ++ more.
Proof.
  induction blocks as [|b blocks IH]; intros acc evs H; [injection H as <-; exists []; by rewrite app_nil_r|].
  cbn [ofold] in H. destruct (derive_reward_event b registry) as [e| |]; try discriminate H. cbn [obind] in H.
  destruct (IH _ _ H) as [more ->]. exists (e :: more). by rewrite <- app_assoc.
Qed.

Lemma rebuild_fold blocks : forall evs0 evs l l',
  ofold (fun events block => let* event := derive_reward_event block registry in Ok (events ++ [event])) evs0 blocks = Ok (evs0 ++ evs) ->
  sfor reward_apply evs l = (l', Ok tt) ->
  ofold (fun st block =>
    let '(ledger, events) := st in
    let* event := derive_reward_event block registry in
    let '(ledger', applied) := reward_apply event ledger in
    do* map_err RuntimeStore applied;
    Ok (ledger', events ++ [event])) (l, evs0) blocks = Ok (l', evs0 ++ evs).
Proof.
  induction blocks as [|b blocks IH]; intros evs0 evs l l' H Hs.
  { cbn in H |- *. injection H as H. rewrite <- (app_nil_r evs0) in H at 1. apply app_inv_head in H as <-. cbn in Hs.
    injection Hs as <-. by rewrite app_nil_r. }
  cbn [ofold] in H |- *. destruct (derive_reward_event b registry) as [e| |]; try discriminate H. cbn [obind] in H |- *.
  destruct (reward_events_extend _ _ _ H) as [more Hm]. rewrite <- app_assoc in Hm. apply app_inv_head in Hm as ->.
  cbn [app sfor] in Hs. unfold sbind in Hs. destruct (reward_apply e l) as [l1 [[]| |]]; try discriminate Hs.
  cbn [map_err obind]. change (e :: more) with ([e] ++ more) in H |- *. rewrite app_assoc in H |- *. by apply IH.
Qed.

Lemma rebuild_rewards_ok r candidate replay : configured r -> contract candidate = Ok replay ->
  match reward_path with
  | None => rebuild_rewards r candidate = Ok None
  | Some _ => exists evs, reward_events candidate registry = Ok evs /\
      rebuild_rewards r candidate = Ok (Some (mkFileRewardLedger evs (rr_balances replay), evs))
  end.
Proof.
  intros Hc Hr. unfold rebuild_rewards. rewrite (cf_reward _ Hc), (cf_registry _ Hc). destruct reward_path; [|done].
  destruct (contract_events _ _ Hr) as (evs & H1 & H2). exists evs. split; [done|].
  by rewrite (rebuild_fold candidate [] evs _ _ H1 H2).
Qed.

Lemma rewrite_lines_effect {A} `{!Ndjson A} path (l : list A) io h h' r : rewrite_lines path l io h = (h', r) ->
  r <> Panic /\ (r = Ok tt -> file_bytes h' path = log_of l) /\
  (file_bytes h' path = file_bytes h path \/ file_bytes h' path = log_of l) /\
  forall p, p <> path -> h_files h' !! p = h_files h !! p.
Proof.
  unfold rewrite_lines, smap_err. destruct (write_ndjson_lines_atomic _ _ _ _) as [h1 r1] eqn:E. intros [= <- <-].
  pose proof (rewrite_effect _ _ _ _ _ _ E) as (Hor & _ & Hok & Hf).
  assert (r1 <> Panic) by (unfold write_ndjson_lines_atomic in E; by repeat case_match; simplify_eq).
  split_and!; [by destruct r1| |by destruct Hor as [[-> _]|]; auto|done]. destruct r1; [auto|done..].
Qed.

(** The memory of a node that adopted [candidate]. *)
Definition adopted (r : RuntimeAdmissionState) (candidate : list PersistedBlock) (head : PersistedBlock) (latest : string)
    : RuntimeAdmissionState :=
  let r := set_current_c (set_block_cache r candidate) latest in
  let r := set_pool r (prune_to_height (rt_pool r) (b_c head)).1 in
  set_candidates r (List.filter (fun s => String.eqb (cs_c s) (b_c head)) (rt_candidates r)).

Lemma reorg_kept n candidate now io n' r : node_ok n -> reward_path <> Some block_path -> chain_named candidate ->
  reorg_to_heavier_chain block_path candidate spec now io n = (n', r) -> kept n n'.
Proof.
  intros Hn Hp Hnm. pose proof (no_configured _ Hn) as Hc. pose proof (kept_refl n Hn) as Hsame.
  unfold reorg_to_heavier_chain, sbind at 1, get_runtime, sbind at 1, slift.
  destruct (evaluate_candidate _ _ _ _) as [[[head replay] kc]| |] eqn:Ev; [|by intros [= <- <-]..].
  destruct (evaluate_sound _ _ _ _ _ _ Hc Ev) as (Hr & Hlast & Hf & _). destruct kc; [by intros [= <- <-]|].
  destruct (no_healthy _ Hn Hf) as (chain & res & Hh).
  pose proof (rebuild_rewards_ok _ _ _ Hc Hr) as Hreb. rewrite (cf_reward _ Hc).
  unfold sbind, begin_canonical_publish, on_runtime, on_store, finish_canonical_publish, sret. cbn [no_runtime no_host].
  assert (Hpoison : forall h ph, recoverable h -> untouched (no_host n) h ->
    kept n (mkNode (set_failure (no_runtime n) (Some ph)) h)).
  { intros h ph Hrec Hu. split; [|done]. split; [|done|done]. by destruct Hc. }
  destruct (rewrite_lines block_path candidate _ _) as [h1 r1] eqn:E1.
  destruct (rewrite_lines_effect _ _ _ _ _ _ E1) as (Hp1 & Hok1 & Hor1 & Hf1).
  assert (Hu1 : untouched (no_host n) h1) by (intros p Hpp _; by apply Hf1).
  assert (Hrec1 : recoverable h1).
  { destruct Hor1 as [Hor1|Hor1]; [|exists candidate, []; rewrite app_nil_r, Hor1, Hr; split_and!; [set_solver|done..]].
    destruct (no_recoverable _ Hn) as (c & t & ? & Hft & ?). exists c, t. by rewrite Hor1. }
  assert (Hdone : forall h ledger, file_bytes h block_path = log_of candidate -> untouched (no_host n) h ->
    match reward_path with
    | None => True
    | Some _ => exists evs, ledger = Some (mkFileRewardLedger evs (rr_balances replay)) /\ reward_events candidate registry = Ok evs
    end ->
    kept n (mkNode (set_failure (adopted (set_reward_ledger (set_failure (no_runtime n) (Some ReorgReward)) reward_path ledger)
      candidate head (rr_latest_c replay)) None) h)).
  { intros h ledger Hb Hu Hl. split; [|done]. split; [by destruct Hc| |].
    - intros _. exists candidate, replay. by split.
    - exists candidate, []. cbn [no_host]. rewrite app_nil_r, Hb, Hr. split_and!; [set_solver|done..]. }
  destruct reward_path as [path|] eqn:Erp.
  - destruct Hreb as (evs & Hevs & ->). destruct r1 as [[]| |]; cbn [map_err no_runtime no_host]; [|intros [= <- <-]; by apply Hpoison|done].
    destruct (rewrite_lines path evs (ro_rewards io) h1) as [h2 r2] eqn:E2.
    destruct (rewrite_lines_effect _ _ _ _ _ _ E2) as (Hp2 & _ & _ & Hf2).
    assert (Hfile : file_bytes h2 block_path = file_bytes h1 block_path) by (unfold file_bytes; rewrite Hf2; [done|congruence]).
    assert (Hu2 : untouched (no_host n) h2) by (intros p Hpp Hpr; rewrite Hf2, Hf1; [done|done|congruence]).
    destruct r2 as [[]| |]; cbn [map_err no_runtime no_host set_failure rt_reward_ledger_path]; [| |done].
    + rewrite (cf_reward _ Hc), Erp. intros [= <- <-]. apply Hdone; [by rewrite Hfile, Hok1|done|]. by exists evs.
    + intros [= <- <-]. apply Hpoison; [|done]. destruct Hrec1 as (c & t & ? & Hft & ?). exists c, t. by rewrite Hfile.
  - rewrite Hreb. destruct r1 as [[]| |]; cbn [map_err no_runtime no_host]; [|intros [= <- <-]; by apply Hpoison|done].
    intros [= <- <-].
    specialize (Hdone h1 (rt_reward_ledger (no_runtime n)) (Hok1 eq_refl) Hu1 I). rewrite <- (cf_reward _ Hc) in Erp.
    unfold set_reward_ledger in Hdone. cbn in Hdone. rewrite <- Erp in Hdone. exact Hdone.
Qed.

(** ** Admission and reservations leave the chain alone *)

Definition same_chain (r r' : RuntimeAdmissionState) : Prop :=
  rt_config r' = rt_config r /\ rt_current_c r' = rt_current_c r /\ rt_block_cache r' = rt_block_cache r /\
  rt_reward_ledger_path r' = rt_reward_ledger_path r /\ rt_reward_ledger r' = rt_reward_ledger r /\
  rt_family_registry r' = rt_family_registry r /\ rt_boot_genesis r' = rt_boot_genesis r /\
  rt_authorization_network_id r' = rt_authorization_network_id r /\
  rt_canonical_state_failure r' = rt_canonical_state_failure r.

(** An operation on memory that leaves the chain alone. *)
Definition memory_only {A} (op : stm Node RuntimeError A) : Prop :=
  forall n n' r, op n = (n', r) -> no_host n' = no_host n /\ same_chain (no_runtime n) (no_runtime n').

Lemma memory_kept {A} (op : stm Node RuntimeError A) n n' r : memory_only op -> node_ok n -> op n = (n', r) -> kept n n'.
Proof.
  intros Hop Hn E. destruct (Hop _ _ _ E) as (Hh & H1 & H2 & H3 & H4 & H5 & H6 & H7 & H8 & H9). destruct n' as [r' h'].
  cbn [no_runtime no_host] in *. subst h'. split; [|done]. destruct Hn as [[C1 C2 C3 C4 C5] Hhe Hrec]. split; cbn [no_runtime no_host].
  - split; congruence.
  - rewrite H9. intros Hf. destruct (Hhe Hf) as (chain & res & [A1 A2 A3 A4 A5 A6 A7]). exists chain, res.
    split; cbn [no_runtime no_host]; rewrite ?H2, ?H3, ?H5, ?H9; done.
  - done.
Qed.

Ltac memory_op :=
  intros [r h] n' res; unfold sbind, get_runtime, put_runtime, slift, sret; cbn [no_runtime no_host];
  repeat case_match; intros; simplify_eq; cbn; split_and!; try done; by split_and!.

Lemma observe_memory body : memory_only (observe_ticket_from_body body).
Proof. unfold observe_ticket_from_body. memory_op. Qed.

Lemma admit_memory now ip body tag reward_pk signed : memory_only (admit_body_with_submitter_context now ip body tag reward_pk signed).
Proof. unfold admit_body_with_submitter_context. memory_op. Qed.

Lemma quarantine_memory share_hash : memory_only (quarantine_candidate share_hash).
Proof. unfold quarantine_candidate. memory_op. Qed.

Lemma take_memory share_hash admitted_at ip : memory_only (take_candidate_for_reverify share_hash admitted_at ip).
Proof. unfold take_candidate_for_reverify. memory_op. Qed.

Lemma restore_memory s : memory_only (restore_reverified_candidate s).
Proof. unfold restore_reverified_candidate. memory_op. Qed.

Lemma release_memory s admitted_at ip : memory_only (rt_release_semantic_reservation s admitted_at ip).
Proof. unfold rt_release_semantic_reservation. memory_op. Qed.

(** ** Histories of a node *)

(** Every operation, with every answer of the file system. The caller of
    [ingest_external_block] has replayed the extended chain. *)
Inductive node_step (n n' : Node) : Prop :=
| step_observe body r : observe_ticket_from_body body n = (n', r) -> node_step n n'
| step_admit now ip body tag reward_pk signed r :
    admit_body_with_submitter_context now ip body tag reward_pk signed n = (n', r) -> node_step n n'
| step_quarantine share_hash r : quarantine_candidate share_hash n = (n', r) -> node_step n n'
| step_take share_hash admitted_at ip r : take_candidate_for_reverify share_hash admitted_at ip n = (n', r) -> node_step n n'
| step_restore s r : restore_reverified_candidate s n = (n', r) -> node_step n n'
| step_release s admitted_at ip r : rt_release_semantic_reservation s admitted_at ip n = (n', r) -> node_step n n'
| step_commit ts tags promoted io r : (bounty_path <> None -> Forall named promoted) ->
    commit_next_block_for_current_c_with_promoted block_path ts tags promoted io n = (n', r) -> node_step n n'
| step_ingest b io r : (bounty_path <> None -> block_named b) ->
    is_ok (contract (rt_block_cache (no_runtime n) ++ [b])) = true ->
    ingest_external_block block_path b io n = (n', r) -> node_step n n'
| step_reorg candidate now io r : chain_named candidate ->
    reorg_to_heavier_chain block_path candidate spec now io n = (n', r) -> node_step n n'.

Lemma step_kept n n' : reward_path <> Some block_path -> node_ok n -> node_step n n' -> kept n n'.
Proof.
  intros Hp Hn Hs. destruct Hs as [? ? E|? ? ? ? ? ? ? E|? ? E|? ? ? ? E|? ? E|? ? ? ? E|? ? ? ? ? Hnm E|? ? ? Hnm Hok E|? ? ? ? Hnm E].
  - by apply (memory_kept _ _ _ _ (observe_memory _) Hn E).
  - by apply (memory_kept _ _ _ _ (admit_memory _ _ _ _ _ _) Hn E).
  - by apply (memory_kept _ _ _ _ (quarantine_memory _) Hn E).
  - by apply (memory_kept _ _ _ _ (take_memory _ _ _) Hn E).
  - by apply (memory_kept _ _ _ _ (restore_memory _) Hn E).
  - by apply (memory_kept _ _ _ _ (release_memory _ _ _) Hn E).
  - unfold commit_next_block_for_current_c_with_promoted, sbind, get_runtime in E. by eapply commit_kept.
  - by eapply ingest_kept.
  - by eapply reorg_kept.
Qed.

Lemma steps_kept n n' : reward_path <> Some block_path -> node_ok n -> rtc node_step n n' -> kept n n'.
Proof.
  intros Hp Hn Hs. induction Hs as [n|n n1 n2 H1 _ IH]; [by apply kept_refl|].
  destruct (step_kept n n1 Hp Hn H1) as [Hn1 Hu1]. destruct (IH Hn1) as [Hn2 Hu2]. split; [done|]. by eapply untouched_trans.
Qed.

(** ** Boot *)

(** The bounty rows a boot starts from. *)
Definition bounty_rows_ok (h : Host) : Prop := forall p, bounty_path = Some p -> exists rows, bounty_log h p rows.

Definition fresh_runtime : RuntimeAdmissionState :=
  mkRuntime config (rt_rate_limiter (runtime_new config)) (rt_pool (runtime_new config)) None [] [] None None registry
    (Some spec) auth None.

Lemma boot_bounty_step h chain res : h_fence h = no_fence -> bounty_rows_ok h -> contract chain = Ok res -> chain_named chain ->
  exists h', boot_bounty bounty_path chain registry boot_io_ok h = (h', Ok tt) /\ h_fence h' = no_fence /\
    (forall p, bounty_path <> Some p -> h_files h' !! p = h_files h !! p) /\
    forall p, bounty_path = Some p -> projected h' p (rr_bounty_credit_by_family res).
Proof.
  intros Hf Hrows Hc Hnm. destruct bounty_path as [p|] eqn:Ep; [|exists h; by split_and!].
  destruct (Hrows p Ep) as [rows Hlog]. apply contract_rules in Hc. apply replay_rules_fold in Hc as (st & Hst & _ & _ & _ & ->).
  destruct (chain_rows _ _ _ _ chain _ _ (List.filter route_owned rows) Hst) as (new & H1 & H2 & H3); [by apply Hnm; rewrite Ep|].
  destruct (boot_bounty_ok h p rows chain registry new (rs_bounty st.2) Hf Hlog H1 H2 H3) as (h' & Hb & [Ho1 Ho2] & Hp).
  exists h'. split_and!; [done|congruence| |by intros q [= <-]]. intros q Hq. apply Ho2. congruence.
Qed.

Lemma boot_reward_step h chain res : h_fence h = no_fence -> contract chain = Ok res ->
  (forall p, bounty_path = Some p -> projected h p (rr_bounty_credit_by_family res)) -> paths_distinct ->
  forall p, reward_path = Some p -> exists h1 h2 evs, reward_events chain registry = Ok evs /\
    boot_reward p chain registry boot_io_ok h = (h1, Ok (mkFileRewardLedger evs (rr_balances res))) /\
    verify_ledger_matches_replay (mkFileRewardLedger evs (rr_balances res)) (rr_balances res) bounty_path
      (rr_bounty_credit_by_family res) read_ok h1 = (h2, Ok tt) /\
    h_fence h2 = no_fence /\ bounty_rows_ok h2 /\
    forall q, q <> p -> bounty_path <> Some q -> h_files h2 !! q = h_files h !! q.
Proof.
  intros Hf Hc Hproj Hpaths p Ep. destruct (contract_events _ _ Hc) as (evs & Hevs & Happ).
  destruct (boot_reward_ok h p chain registry evs _ Hf Hevs Happ eq_refl) as (h1 & Hb & [Ho1 Ho2]).
  assert (Hproj1 : forall q, bounty_path = Some q -> projected h1 q (rr_bounty_credit_by_family res)).
  { intros q Eq. assert (q <> p) by (intros ->; by eapply (pt_ledgers Hpaths)).
    destruct (Hproj q Eq) as [(rows & [Hg Hlog] & Hsum) Habs]. split; [|by rewrite Ho2].
    exists rows. split; [|done]. split; [done|]. unfold file_bytes in *. by rewrite Ho2. }
  destruct (verify_ok h1 bounty_path (mkFileRewardLedger evs (rr_balances res)) _ Hproj1) as (h2 & Hv & Hv1 & Hv2).
  exists h1, h2, evs. split_and!; [done|done|exact Hv|..].
  - destruct bounty_path as [q|] eqn:Eq; [|rewrite (Hv2 eq_refl); congruence]. destruct (Hv1 q eq_refl) as [[? _] _]. congruence.
  - intros q Eq. by apply Hv1.
  - intros q Hq Hqb. destruct bounty_path as [q'|] eqn:Eq; [|rewrite (Hv2 eq_refl); by apply Ho2].
    destruct (Hv1 q' eq_refl) as [[_ Hfr] _]. rewrite Hfr by congruence. by apply Ho2.
Qed.

Lemma boot_ok h chain tail res : paths_distinct -> h_fence h = no_fence -> check_manifest_root (Some spec) registry = Ok tt ->
  newline ∉ tail -> file_bytes h block_path = log_of chain ++ tail -> contract chain = Ok res -> chain_named chain ->
  bounty_rows_ok h ->
  exists h' r, boot boot_io_ok h = (h', Ok r) /\ configured r /\ healthy (mkNode r h') chain res /\ bounty_rows_ok h'.
Proof.
  intros Hpaths Hf Hroot Ht Hb Hc Hnm Hrows.
  pose proof (contract_rules _ _ Hc) as Hrules. apply replay_rules_fold in Hrules as (st & _ & Hst & _).
  destruct (recover_linked h block_path chain tail _ Ht Hb (replayed_linked _ _ _ _ _ _ _ Hst)) as (h1 & Hr1 & Hb1 & [Hf1 Ho1]).
  assert (Hrows1 : bounty_rows_ok h1).
  { intros p Ep. destruct (Hrows p Ep) as (rows & Hg & Hl). exists rows. split; [done|]. unfold file_bytes in *.
    rewrite Ho1; [done|]. intros ->. by apply (pt_bounty Hpaths). }
  destruct (boot_bounty_step h1 chain res) as (h2 & Hr2 & Hf2 & Ho2 & Hproj); [congruence|done|done|done|].
  assert (Hb2 : file_bytes h2 block_path = log_of chain).
  { unfold file_bytes in *. rewrite Ho2; [done|]. apply (pt_bounty Hpaths). }
  unfold boot, boot_from_store_inner, sbind, slift, smap_err. rewrite Hroot.
  change (bi_blocks boot_io_ok) with read_ok. change (bi_verify boot_io_ok) with read_ok. rewrite Hr1. cbn [map_err].
  change (replay_under_boot_contract _ chain) with (contract chain). rewrite Hc. cbn [map_err]. rewrite Hr2.
  destruct reward_path as [p|] eqn:Ep.
  - destruct (boot_reward_step h2 chain res Hf2 Hc Hproj Hpaths p Ep) as (h3 & h4 & evs & Hevs & Hr3 & Hr4 & Hf4 & Hrows4 & Ho4).
    rewrite Hr3, Hr4. cbn [map_err]. unfold sret. eexists _, _. split; [done|]. split_and!; [by split| |done].
    split; try done; cbn [no_host].
    + rewrite Ep. by exists evs.
    + unfold file_bytes in *. rewrite Ho4; [done| |apply (pt_bounty Hpaths)]. intros Heq. apply (pt_reward Hpaths). congruence.
  - unfold sret. eexists _, _. split; [done|]. split_and!; [by split| |].
    + split; try done. by rewrite Ep.
    + intros q Eq. destruct (Hproj q Eq) as [(rows & Hl & _) _]. by exists rows.
Qed.

Lemma booted_ok h r chain res : configured r -> healthy (mkNode r h) chain res -> node_ok (mkNode r h).
Proof. intros Hc Hh. split; [done|intros _; by exists chain, res|by eapply healthy_recoverable]. Qed.

Lemma boot_deterministic h chain tail res h' r : paths_distinct -> h_fence h = no_fence ->
  check_manifest_root (Some spec) registry = Ok tt -> newline ∉ tail -> file_bytes h block_path = log_of chain ++ tail ->
  contract chain = Ok res -> chain_named chain -> bounty_rows_ok h -> boot boot_io_ok h = (h', Ok r) ->
  node_ok (mkNode r h') /\ bounty_rows_ok h'.
Proof.
  intros Hp Hf Hroot Ht Hb Hc Hnm Hrows Hboot.
  destruct (boot_ok h chain tail res Hp Hf Hroot Ht Hb Hc Hnm Hrows) as (h1 & r1 & Hboot1 & Hcf & Hh & Hrows1).
  rewrite Hboot in Hboot1. injection Hboot1 as <- <-. split; [by eapply booted_ok|done].
Qed.

Lemma history_ok h0 h r n : paths_distinct -> check_manifest_root (Some spec) registry = Ok tt -> h_fence h0 = no_fence ->
  recoverable h0 -> bounty_rows_ok h0 -> boot boot_io_ok h0 = (h, Ok r) -> rtc node_step (mkNode r h) n ->
  node_ok n /\ bounty_rows_ok (no_host n).
Proof.
  intros Hp Hroot Hf (chain & tail & Ht & Hb & Hok & Hnm) Hrows Hboot Hsteps. destruct (is_ok_Ok _ Hok) as [res Hres].
  destruct (boot_deterministic _ _ _ _ _ _ Hp Hf Hroot Ht Hb Hres Hnm Hrows Hboot) as [Hn Hrows1].
  destruct (steps_kept _ _ (pt_reward Hp) Hn Hsteps) as [Hn' Hu]. split; [done|]. intros p Ep.
  destruct (Hrows1 p Ep) as (rows & Hg & Hl). exists rows. split; [done|]. unfold file_bytes in *. rewrite Hu; [done| |].
  - intros ->. by apply (pt_bounty Hp).
  - intros Er. by apply (pt_ledgers Hp p Er).
Qed.



(** ** Fork choice of a running node *)

(** The candidate beats the current chain: it is heavier, or as heavy with a
    smaller head hash. *)
Definition beats (candidate current : list PersistedBlock) : Prop :=
  match last current with
  | None => True
  | Some head => exists head' w w', last candidate = Some head' /\
      cumulative_difficulty_weight current = Ok w /\ cumulative_difficulty_weight candidate = Ok w' /\
      (w < w' \/ w' = w /\ rlt (block_hash head') (block_hash head) = true)
  end.

Lemma keeps_current_beats r candidate head : last candidate = Some head ->
  keeps_current r candidate (block_hash head) = Ok false -> beats candidate (rt_block_cache r).
Proof.
  intros Hl. unfold keeps_current, beats. destruct (last (rt_block_cache r)) as [cur|] eqn:Ec; [|done].
  cbn [head_block_hash map_err obind]. case_bool_decide as Hne; [discriminate|]. unfold choose_canonical_head. cbn [ofold].
  unfold choose_step at 1. rewrite Ec. cbn [ok_or obind head_block_hash].
  destruct (cumulative_difficulty_weight (rt_block_cache r)) as [w| |]; try discriminate. cbn [obind].
  unfold choose_step. rewrite Hl. cbn [ok_or obind head_block_hash].
  destruct (cumulative_difficulty_weight candidate) as [w'| |]; try discriminate. cbn [obind].
  destruct (_ || _) eqn:Ew; cbn [fmap option_fmap option_map ok_or map_err obind snd]; intros H.
  - exists head, w, w'. split_and!; try done. apply orb_true_iff in Ew as [Ew|Ew]; breflect; [by left|right; by breflect].
  - injection H as H. apply negb_false_iff, bool_decide_eq_true in H. congruence.
Qed.

Lemma reorg_result n candidate now io n' o : reorg_to_heavier_chain block_path candidate spec now io n = (n', Ok o) ->
  (o = KeptCurrent /\ n' = n) \/
  exists head replay, evaluate_candidate (no_runtime n) candidate spec now = Ok (head, replay, false) /\
    o = Reorged (b_height head) /\ rt_canonical_state_failure (no_runtime n') = None /\ rt_block_cache (no_runtime n') = candidate.
Proof.
  unfold reorg_to_heavier_chain, sbind, get_runtime, slift, sret, begin_canonical_publish, on_runtime, on_store, finish_canonical_publish.
  destruct (evaluate_candidate _ _ _ _) as [[[head replay] [|]]| |]; try (intros [= <- <-]; by left); try discriminate.
  intros H. right. exists head, replay. split; [done|].
  destruct (rebuild_rewards _ _) as [rb| |]; try discriminate H. cbn [no_runtime no_host] in H.
  destruct (rewrite_lines block_path _ _ _) as [h1 [[]| |]]; cbn [map_err] in H; try discriminate H.
  destruct (rt_reward_ledger_path (no_runtime n)) as [p|]; [destruct rb as [[l evs]|]|]; cbn [no_runtime no_host] in H.
  - destruct (rewrite_lines p _ _ _) as [h2 [[]| |]]; cbn [map_err] in H; try discriminate H. by injection H as <- <-.
  - by injection H as <- <-.
  - by injection H as <- <-.
Qed.


(** ** Bounties without an id *)

Lemma bounty_rewrite_valid path rows io h h' : bounty_rewrite_atomic path rows io h = (h', Ok tt) ->
  Forall (fun e => validate_bounty_ledger_event e = Ok tt) rows.
Proof.
  unfold bounty_rewrite_atomic, sbind, slift. destruct (ofold _ _ rows) as [[]| |] eqn:E; try discriminate. intros _. revert E.
  induction rows as [|e rows IH]; intros E; [constructor|]. cbn [ofold] in E.
  destruct (validate_bounty_ledger_event e) as [[]| |] eqn:Ev; try discriminate E. cbn [map_err obind] in E. constructor; [done|by apply IH].
Qed.

Lemma bounty_recover_valid path io h h' rows : bounty_recover path io h = (h', Ok rows) ->
  Forall (fun e => validate_bounty_ledger_event e = Ok tt) rows.
Proof.
  unfold bounty_recover, sbind, slift. destruct (read_lines path io h) as [h1 [lines| |]]; try discriminate. intros [= _ H].
  destruct (ofold _ _ lines) as [[i evs]| |] eqn:E; try discriminate H. injection H as <-. revert E.
  assert (H0 : Forall (fun e => validate_bounty_ledger_event e = Ok tt) ([] : list Value)) by constructor. revert H0.
  generalize 0%nat ([] : list Value). induction lines as [|line lines IH]; intros k acc H0 E; [by injection E as <- <-|].
  cbn [ofold] in E. unfold check_event_line at 1 in E. destruct (nd_decode line) as [e|]; [|discriminate E]. cbn [ok_or obind] in E.
  destruct (validate_bounty_ledger_event e) as [[]| |] eqn:Ev; try discriminate E. cbn [map_err obind] in E.
  apply (IH (S k) (acc ++ [e])); [|done]. apply Forall_app. split; [done|]. by constructor.
Qed.

Lemma rebuilt_rows blocks : forall rows0 rows,
  ofold (fun rows block => let* events := derive_bounty_events block registry in Ok (rows ++ events.1 ++ events.2)) rows0 blocks = Ok rows ->
  forall b s, b ∈ blocks -> s ∈ b_promoted_bounty_shares b -> share_row b s ∈ rows.
Proof.
  induction blocks as [|b0 blocks IH]; intros rows0 rows H b s Hb Hs; [by apply elem_of_nil in Hb|].
  cbn [ofold] in H. destruct (derive_bounty_events b0 registry) as [ev| |] eqn:E; try discriminate H. cbn [obind] in H.
  apply elem_of_cons in Hb as [->|Hb]; [|by eapply IH].
  unfold derive_bounty_events in E. destruct (derive_bounty_settlement _ _ _); try discriminate E. cbn [map_err obind] in E. injection E as <-.
  cbn [fst snd] in H. assert (Hin : share_row b0 s ∈ rows0 ++ map (credit_row b0) a ++ map (share_row b0) (b_promoted_bounty_shares b0)).
  { rewrite !elem_of_app, (list_elem_of_fmap (share_row b0)). right; right. by exists s. }
  revert Hin H. generalize (rows0 ++ map (credit_row b0) a ++ map (share_row b0) (b_promoted_bounty_shares b0)). clear -registry.
  induction blocks as [|b1 blocks IH]; intros acc Hin H; [by injection H as <-|]. cbn [ofold] in H.
  destruct (derive_bounty_events b1 registry) as [ev| |]; try discriminate H. cbn [obind] in H. apply (IH _ (proj2 (elem_of_app _ _ _) (or_introl Hin)) H).
Qed.

Lemma boot_bounty_valid p blocks io h h' : boot_bounty (Some p) blocks registry io h = (h', Ok tt) ->
  forall b s, b ∈ blocks -> s ∈ b_promoted_bounty_shares b -> validate_bounty_ledger_event (share_row b s) = Ok tt.
Proof.
  unfold boot_bounty, sbind at 1, sget, sbind at 1. intros H b s Hb Hs.
  match type of H with context [let (_, _) := ?t in _] => destruct t as [h1 [present| |]] eqn:Ep end; try discriminate H.
  unfold sbind, slift in H. destruct (rebuild_bounty_ledger_rows present blocks registry) as [rebuilt| |] eqn:Er; try discriminate H.
  pose proof (rebuilt_rows _ _ _ Er b s Hb Hs) as Hin.
  assert (Hv : Forall (fun e => validate_bounty_ledger_event e = Ok tt) rebuilt); [|by eapply Forall_forall in Hv].
  destruct (bool_decide (present = rebuilt)) eqn:Heq.
  - apply bool_decide_eq_true in Heq as <-. destruct (bool_decide (is_Some (h_files h !! p))); [|injection Ep as _ <-; constructor].
    unfold smap_err in Ep. destruct (bounty_recover p _ h) as [h2 r2] eqn:E2. injection Ep as <- Hr. destruct r2; try discriminate Hr.
    injection Hr as ->. by eapply bounty_recover_valid.
  - unfold smap_err in H. destruct (bounty_rewrite_atomic p rebuilt _ h1) as [h2 r2] eqn:E2. injection H as <- Hr. destruct r2 as [[]| |]; try discriminate Hr.
    by eapply bounty_rewrite_valid.
Qed.


Lemma share_row_named b s : validate_bounty_ledger_event (share_row b s) = Ok tt -> pbs_bounty_id s <> "".
Proof.
  intros H Hid. unfold share_row in H. rewrite Hid in H. cbv [validate_bounty_ledger_event] in H. cbn in H.
  run_inv H.
Qed.

(** C32: A chain the replay accepts can stop a node from starting. The replay
    does not look at the bounty id of a promoted share, the rows of the bounty
    log must have one: once the block file holds a promoted share with an empty
    id, no start with a bounty log succeeds, even if every file operation does. *)
Theorem unnamed_bounty_never_boots p chain res b s h h' r : bounty_path = Some p -> file_bytes h block_path = log_of chain ->
  contract chain = Ok res -> b ∈ chain -> s ∈ b_promoted_bounty_shares b -> pbs_bounty_id s = "" ->
  boot boot_io_ok h <> (h', Ok r).
Proof.
  intros Ep Hb Hc Hin Hs Hid H.
  pose proof (contract_rules _ _ Hc) as Hrules. apply replay_rules_fold in Hrules as (st & _ & Hst & _).
  destruct (recover_linked h block_path chain [] _ ltac:(set_solver) ltac:(by rewrite app_nil_r) (replayed_linked _ _ _ _ _ _ _ Hst)) as (h1 & Hr1 & _).
  revert H. unfold boot, boot_from_store_inner, sbind, slift, smap_err. destruct (check_manifest_root _ _) as [[]| |]; try discriminate.
  change (bi_blocks boot_io_ok) with read_ok. rewrite Hr1. cbn [map_err].
  change (replay_under_boot_contract _ chain) with (contract chain). rewrite Hc. cbn [map_err].
  destruct (boot_bounty bounty_path chain registry boot_io_ok h1) as [h2 [[]| |]] eqn:E; try discriminate.
  rewrite Ep in E. by destruct (share_row_named _ _ (boot_bounty_valid _ _ _ _ _ E b s Hin Hs)).
Qed.
End Node.

(** ** Witnesses *)

From S2P Require Import Concrete ConcreteLines ConcreteStores.

Module NodeRun.
Import NodeDemo.
Definition start : stm Host RuntimeError RuntimeAdmissionState :=
  boot config "blocks" (Some "rewards") (Some "bounties") registry spec None boot_io_ok.
Definition ok : Node -> list PersistedBlock -> ReplayResult -> Prop :=
  healthy "blocks" (Some "rewards") (Some "bounties") registry spec None.
Definition step : Node -> Node -> Prop := node_step "blocks" (Some "bounties") registry spec None.
(** The block is written, the reward event is torn. *)
Definition io : PublishIo := mkPublishIo append_ok DurabilityDemo.torn.
Definition next (n : Node) : Node := (ingest_external_block "blocks" ReplayDemo.block io n).1.
End NodeRun.

Lemma demo_paths : paths_distinct "blocks" (Some "rewards") (Some "bounties").
Proof. split; try discriminate. intros p [= <-]. discriminate. Qed.

Lemma demo_recoverable : recoverable "blocks" (Some "bounties") NodeDemo.registry NodeDemo.spec None NodeDemo.host.
Proof. exists [], []. split_and!; [set_solver|reflexivity|reflexivity|intros _; constructor]. Qed.

Lemma demo_rows : bounty_rows_ok (Some "bounties") NodeDemo.host.
Proof. intros p _. exists []. split; [constructor|]. exists []. split; [set_solver|reflexivity]. Qed.

Lemma demo_boot : exists h r res, NodeRun.start NodeDemo.host = (h, Ok r) /\ NodeRun.ok (mkNode r h) [] res.
Proof.
  assert (Hok : is_ok (contract NodeDemo.registry NodeDemo.spec None []) = true) by reflexivity.
  destruct (is_ok_Ok _ Hok) as [res Hres].
  destruct (boot_ok NodeDemo.config "blocks" (Some "rewards") (Some "bounties") NodeDemo.registry NodeDemo.spec None
    NodeDemo.host [] [] res demo_paths) as (h & r & Hb & _ & Hh & _);
    [reflexivity|reflexivity|set_solver|reflexivity|exact Hres|intros _; constructor|exact demo_rows|].
  by exists h, r, res.
Qed.

Lemma demo_step h r res : NodeRun.ok (mkNode r h) [] res -> rtc NodeRun.step (mkNode r h) (NodeRun.next (mkNode r h)).
Proof.
  intros Hh. apply rtc_once. eapply (step_ingest _ _ _ _ _ _ _ ReplayDemo.block NodeRun.io).
  - intros _. repeat constructor; discriminate.
  - rewrite (he_cache _ _ _ _ _ _ _ _ _ Hh). vm_compute. reflexivity.
  - apply surjective_pairing.
Qed.



Lemma unnamed_bounty_never_boots_witness : is_ok (NodeRun.start NodeDemo.unnamed_host).2 = false.
Proof.
  assert (Hok : is_ok (contract NodeDemo.registry NodeDemo.spec None [NodeDemo.unnamed_block]) = true) by (vm_compute; reflexivity).
  destruct (is_ok_Ok _ Hok) as [res Hres].
  destruct (NodeRun.start NodeDemo.unnamed_host) as [h' [r| |]] eqn:E; [exfalso|reflexivity|reflexivity].
  revert E. apply (unnamed_bounty_never_boots NodeDemo.config "blocks" (Some "rewards") (Some "bounties") NodeDemo.registry NodeDemo.spec None
    "bounties" [NodeDemo.unnamed_block] res NodeDemo.unnamed_block (mkPromotedBountyShare "fam" "" ReplayDemo.ones ReplayDemo.zeros "3")).
  - reflexivity.
  - apply host_with_bytes.
  - exact Hres.
  - by left.
  - by left.
  - reflexivity.
Defined.

Module ReorgRun.
Definition fresh : RuntimeAdmissionState := runtime_new NodeDemo.config.
Definition node : Node :=
  mkNode (mkRuntime NodeDemo.config (rt_rate_limiter fresh) (rt_pool fresh) (Some ReplayDemo.zeros) [] [] None None
    NodeDemo.registry (Some NodeDemo.spec) None None) NodeDemo.host.
Definition run : Node * outcome RuntimeError ReorgOutcome :=
  reorg_to_heavier_chain "blocks" [ReplayDemo.block] NodeDemo.spec 1000 (mkReorgIo rewrite_ok rewrite_ok) node.
End ReorgRun.

Lemma reorg_demo_ok : node_ok NodeDemo.config "blocks" None None NodeDemo.registry NodeDemo.spec None ReorgRun.node.
Proof.
  assert (Hok : is_ok (contract NodeDemo.registry NodeDemo.spec None []) = true) by reflexivity.
  split; [by split| |].
  - intros _. destruct (is_ok_Ok _ Hok) as [res Hres]. exists [], res. split; try reflexivity; [exact Hres|by vm_compute in Hres; injection Hres as <-|intros _; constructor].
  - exists [], []. split_and!; [set_solver|reflexivity|exact Hok|intros _; constructor].
Qed.

