(* ===== verification/Production.v ===== *)
(** * What stops a node from producing blocks

    A commit replays the produced block under the genesis contract before it
    writes anything. What the builder selects and what the replay accepts are
    not the same set: on a network whose genesis requires seed-bound shares the
    builder still selects a share without a seed, and a promoted bounty share
    that the chain already paid is still promoted. Such a commit is refused and
    changes nothing, so it is refused again as long as the share stays. *)

From S2P Require Import Prelude Json Externals Hash Block BlockBuilder Difficulty Config ShareAuthorization.
From S2P Require Import FamilyManifest Bounty ReplayEvidence Replay SharePool RateLimiter Admission Durability BountyLedger Stores Runtime.
From S2P Require Import RuntimeFacts RuntimeTheorems.

Section Production.
Context {X : Externals} {NB : Ndjson PersistedBlock} {NR : Ndjson PersistedRewardEvent}.

(** The promoted shares do not influence the selection. *)
Lemma selection_promoted head shares cfg tags credited promoted promoted' network sel :
  build_block_selection_for_network head shares cfg tags credited promoted network = Ok (Built sel) ->
  exists sel', build_block_selection_for_network head shares cfg tags credited promoted' network = Ok (Built sel') /\
    bs_selected sel' = bs_selected sel.
Proof.
  unfold build_block_selection_for_network. intros H. destruct (normalize_hex256 _) as [t| |]; try discriminate H. cbn [obind] in *.
  destruct (ofold _ _ _) as [[d l]| |]; try discriminate H. cbn [obind] in *.
  destruct (select_qualifying_proposer _ _) as [[[w|] k]| |]; try discriminate H. cbn [obind] in *. injection H as <-.
  by eexists.
Qed.

(** The evidence of a produced block is that of the selected shares. *)
Lemma produced_evidence r height ts tags cfg promoted b :
  produce_block_for_current_c_with_config r height ts tags cfg promoted = Ok b ->
  exists c sel, rt_current_c r = Some c /\
    build_block_selection_for_network c (candidate_shares_for_current_c r) cfg tags (credited_canon_hashes r) promoted
      (rt_authorization_network_id r) = Ok (Built sel) /\
    b_selected_share_evidence b = map evidence_of (bs_selected sel).
Proof.
  unfold produce_block_for_current_c_with_config. intros H. destruct (rt_current_c r) as [c|]; [|discriminate H]. cbn [ok_or obind] in H.
  destruct (build_block_selection_for_network _ _ _ _ _ _ _) as [[s|]| |] eqn:E; try discriminate H. cbn [map_err obind] in H.
  destruct (bs_selected s !! _); [|discriminate H]. injection H as <-. by exists c, s.
Qed.

(** A commit either changes nothing and reports no block, or its block replays
    on top of the cached chain. *)
Lemma commit_refused_or_replays path height ts tags promoted io spec n :
  rt_boot_genesis (no_runtime n) = Some spec ->
  let r := no_runtime n in
  let out := commit_using_cache path height ts tags promoted io n in
  (out.1 = n /\ is_ok out.2 = false) \/
  exists cfg b, block_builder_config_for_height r (rt_block_cache r) = Ok cfg /\
    produce_block_for_current_c_with_config r height ts tags cfg promoted = Ok b /\
    is_ok (contract (rt_family_registry r) spec (rt_authorization_network_id r) (rt_block_cache r ++ [b])) = true.
Proof.
  intros Hg. cbn zeta. unfold commit_using_cache, sbind, get_runtime, slift, sret. rewrite Hg.
  destruct (ensure_canonical_state_healthy _) as [[]| |]; [|by left..].
  destruct (block_builder_config_for_height _ _) as [cfg| |]; [|by left..].
  destruct (produce_block_for_current_c_with_config _ _ _ _ _ _) as [b| |] eqn:Eb; [|by left..].
  destruct (check_block_applicable _ b) as [[]| |]; [|by left..].
  fold (contract (rt_family_registry (no_runtime n)) spec (rt_authorization_network_id (no_runtime n))
          (rt_block_cache (no_runtime n) ++ [b])).
  destruct (contract _ _ _ _) as [res| |] eqn:Er; [|by left..]. right. exists cfg, b. by rewrite Er.
Qed.

(** The replay of a chain that ends in [b]: the genesis rules hold of [b] and
    no bounty is paid twice. *)
Lemma contract_last registry spec auth chain b : is_ok (contract registry spec auth (chain ++ [b])) = true ->
  check_genesis_rules (gs_params spec) b = Ok tt /\ NoDup (chain_bounty_proofs (chain ++ [b])).
Proof.
  intros [res Hres]%is_ok_Ok. apply contract_rules, replay_with_rules_Ok in Hres as (_ & st & Hr & _).
  split; [|apply (rp_bounty_proofs _ _ _ _ _ _ _ Hr)].
  apply (bv_genesis _ _ _ _ _ _ _ _ (rp_blocks _ _ _ _ _ _ _ Hr (length chain) b (list_lookup_middle _ _ _ _ eq_refl))). done.
Qed.

(** C34: On a node whose genesis requires seed-bound shares, while the builder's
    selection at the current head contains a share without a seed, no commit
    produces a block: every one is refused and leaves the node as it was. *)
Theorem seedless_share_stalls_production path ts tags promoted io spec sel s n :
  rt_boot_genesis (no_runtime n) = Some spec -> gp_seed_binding_required (gs_params spec) = true ->
  build_block_selection_for_current_c (no_runtime n) tags = Ok (Built sel) -> s ∈ bs_selected sel -> cs_seed_hex s = "" ->
  let out := commit_next_block_for_current_c_with_promoted path ts tags promoted io n in
  out.1 = n /\ is_ok out.2 = false.
Proof.
  intros Hg Hseed Hsel Hs Hempty. cbn zeta. unfold commit_next_block_for_current_c_with_promoted, sbind, get_runtime.
  destruct (commit_refused_or_replays path (len (rt_block_cache (no_runtime n))) ts tags promoted io spec n Hg) as [H|(cfg & b & Hcfg & Hb & Hr)];
    [exact H|]. exfalso.
  apply produced_evidence in Hb as (c & sel' & Hc & Hb & Hev). unfold build_block_selection_for_current_c in Hsel.
  rewrite Hc, Hcfg in Hsel. cbn [ok_or obind] in Hsel.
  destruct (selection_promoted _ _ _ _ _ _ [] _ _ Hb) as (sel2 & H2 & Heq). rewrite H2 in Hsel. injection Hsel as <-.
  apply contract_last in Hr as [Hrules _]. unfold check_genesis_rules in Hrules. rewrite Hseed in Hrules.
  destruct (ensure _ KMaxExceeded) as [[]| |]; try discriminate Hrules. cbn [obind] in Hrules.
  destruct (forallb _ _) eqn:Ef; [|discriminate Hrules]. rewrite Hev, forallb_forall in Ef. rewrite Heq in Hs.
  specialize (Ef (evidence_of s)). rewrite <- list_elem_of_In in Ef.
  specialize (Ef ltac:(by apply list_elem_of_fmap_2)). cbn [evidence_of ev_seed_hex] in Ef. by rewrite Hempty in Ef.
Qed.

(** C40: A commit that promotes a bounty proof which a block of the chain already
    carries is refused and leaves the node as it was. *)
Theorem spent_promotion_stalls_production path ts tags promoted io spec s n :
  rt_boot_genesis (no_runtime n) = Some spec -> s ∈ promoted ->
  bounty_identity s ∈ chain_bounty_proofs (rt_block_cache (no_runtime n)) ->
  let out := commit_next_block_for_current_c_with_promoted path ts tags promoted io n in
  out.1 = n /\ is_ok out.2 = false.
Proof.
  intros Hg Hs Hspent. cbn zeta. unfold commit_next_block_for_current_c_with_promoted, sbind, get_runtime.
  destruct (commit_refused_or_replays path (len (rt_block_cache (no_runtime n))) ts tags promoted io spec n Hg) as [H|(cfg & b & Hcfg & Hb & Hr)];
    [exact H|]. exfalso.
  apply contract_last in Hr as [_ Hnd]. unfold chain_bounty_proofs in *. rewrite flat_map_snoc in Hnd.
  apply NoDup_app in Hnd as (_ & Hdis & _). apply (Hdis _ Hspent). rewrite (produced_promoted _ _ _ _ _ _ _ Hb).
  by apply (list_elem_of_fmap_2 bounty_identity).
Qed.

End Production.

(** ** Witnesses *)

From S2P Require Import Concrete ConcreteLines ConcreteStores.

(** A node of a network that requires seeds, after a share without one was
    admitted through the ordinary path. *)
Module SeedDemo.
Definition spec : GenesisSpec :=
  mkGenesisSpec LEGACY_UNNAMED_FALLBACK_NETWORK_ID
    (mkGenesisParams 1 ReplayDemo.target ReplayDemo.target 4 None true None None) (mkGenesisInitialState ReplayDemo.zeros).
Definition fresh : RuntimeAdmissionState := set_current_c (runtime_new NodeDemo.config) ReplayDemo.zeros.
Definition start : Node :=
  mkNode (mkRuntime NodeDemo.config (rt_rate_limiter fresh) (rt_pool fresh) (rt_current_c fresh) [] [] None None
    NodeDemo.registry (Some spec) None None) NodeDemo.host.
Definition ticket : list (string * Value) := [("c", VString ReplayDemo.zeros); ("pk", VString ReplayDemo.zeros); ("n", VString ReplayDemo.zeros)].
Definition admitted : Node * outcome RuntimeError AdmissionDecision :=
  admit_body 1000000 "127.0.0.1" AdmissionDemo.body (observe_ticket_from_body ticket start).1.
Definition selected : list CandidateShare :=
  match build_block_selection_for_current_c (no_runtime admitted.1) {[0]} with Ok (Built sel) => bs_selected sel | _ => [] end.
Definition io : PublishIo := mkPublishIo append_ok append_ok.
Definition commit : Node * outcome RuntimeError RuntimeCommittedBlock :=
  commit_next_block_for_current_c_with_promoted "blocks" 1000 {[0]} [] io admitted.1.
End SeedDemo.

Lemma seedless_share_stalls_production_witness : SeedDemo.commit.1 = SeedDemo.admitted.1 /\ is_ok SeedDemo.commit.2 = false.
Proof.
  assert (Hsel : existsb (fun s => str_is_empty (cs_seed_hex s)) SeedDemo.selected = true) by (vm_compute; reflexivity).
  unfold SeedDemo.selected in Hsel. destruct (build_block_selection_for_current_c _ _) as [[sel|]| |] eqn:E; try discriminate Hsel.
  apply existsb_exists in Hsel as (s & Hs & Hempty). apply list_elem_of_In in Hs.
  assert (He : cs_seed_hex s = "") by (by destruct (cs_seed_hex s)).
  assert (Hg : rt_boot_genesis (no_runtime SeedDemo.admitted.1) = Some SeedDemo.spec) by (vm_compute; reflexivity).
  exact (seedless_share_stalls_production "blocks" 1000 {[0]} [] SeedDemo.io SeedDemo.spec sel s SeedDemo.admitted.1
    Hg eq_refl E Hs He).
Defined.

(** A node whose chain already pays the bounty proof that is promoted again. *)
Module SpentDemo.
Definition node : Node :=
  mkNode (mkRuntime NodeDemo.config (rt_rate_limiter SeedDemo.fresh) (rt_pool SeedDemo.fresh) (Some (b_c ReplayDemo.block)) []
    [ReplayDemo.block] None None NodeDemo.registry (Some NodeDemo.spec) None None) NodeDemo.host.
Definition commit : Node * outcome RuntimeError RuntimeCommittedBlock :=
  commit_next_block_for_current_c_with_promoted "blocks" 2000 {[0]} [ReplayDemo.row] SeedDemo.io node.
End SpentDemo.

Lemma spent_promotion_stalls_production_witness : SpentDemo.commit.1 = SpentDemo.node /\ is_ok SpentDemo.commit.2 = false.
Proof.
  apply (spent_promotion_stalls_production "blocks" 2000 {[0]} [ReplayDemo.row] SeedDemo.io NodeDemo.spec ReplayDemo.row SpentDemo.node);
    [reflexivity|by left|]. by left.
Defined.
