(* ===== verification/LocalNodeFacts.v ===== *)
(** * The served node keeps its chain

    Every lock phase of the handlers preserves the invariant of the runtime
    (RuntimeTheorems.v): memory and block file agree on a chain that replays, or
    the process refuses changes and the file still holds such a chain. *)

From S2P Require Import Prelude Hoare Json Externals Hash Block BlockBuilder Difficulty Config ShareAuthorization FamilyManifest Bounty.
From S2P Require Import ReplayEvidence Replay SharePool RateLimiter Admission Durability BountyLedger Stores Runtime EventStores.
From S2P Require Import Receipts Validator SubmitGate ShareVerifier LocalNode LocalSubmit LocalRoutes RuntimeFacts RuntimeTheorems.

(** A triple with one condition is an invariant. *)
Ltac as_keeps := match goal with |- triple ?P ?m _ => change (keeps P m) end.

(** ** Files an operation leaves alone *)

(** An operation on the file system that changes at most one file. *)
Definition writes_only {E A} (path : string) (m : stm Host E A) : Prop :=
  forall h p, p <> path -> h_files (m h).1 !! p = h_files h !! p.

Lemma writes_only_bytes {E A} path (m : stm Host E A) h p : writes_only path m -> p <> path ->
  file_bytes (m h).1 p = file_bytes h p.
Proof. intros Hm Hp. unfold file_bytes. by rewrite Hm. Qed.

Lemma append_line_writes {A} `{!Ndjson A} path (a : A) io : writes_only path (append_line path a io).
Proof. intros h p Hp. destruct (append_line path a io h) as [h' r] eqn:E. by apply (append_line_frame _ _ _ _ _ _ E). Qed.

Lemma rewrite_lines_writes {A} `{!Ndjson A} path (l : list A) io : writes_only path (rewrite_lines path l io).
Proof. intros h p Hp. destruct (rewrite_lines path l io h) as [h' r] eqn:E. by apply (rewrite_lines_effect _ _ _ _ _ _ E). Qed.

Lemma read_lines_writes path io : writes_only path (read_lines path io).
Proof. intros h p Hp. destruct (read_lines path io h) as [h' r] eqn:E. by apply (read_lines_only _ _ _ _ _ E). Qed.

Lemma writes_only_bind {E A B} path (m : stm Host E A) (f : A -> stm Host E B) :
  writes_only path m -> (forall a, writes_only path (f a)) -> writes_only path (sbind m f).
Proof.
  intros Hm Hf h p Hp. unfold sbind. specialize (Hm h p Hp). destruct (m h) as [h1 [a|e|]]; cbn in *; [|done|done].
  by rewrite Hf.
Qed.

Lemma writes_only_lift {E A} path (o : outcome E A) : writes_only path (slift o).
Proof. by intros h p _. Qed.

Lemma bounty_append_writes `{!Ndjson Value} path event io : writes_only path (bounty_append path event io).
Proof. apply writes_only_bind; [apply writes_only_lift|intros _; apply append_line_writes]. Qed.

Lemma bounty_recover_writes `{!Ndjson Value} path io : writes_only path (bounty_recover path io).
Proof. apply writes_only_bind; [apply read_lines_writes|intros ?; apply writes_only_lift]. Qed.

Lemma bounty_rewrite_writes `{!Ndjson Value} path rows io : writes_only path (bounty_rewrite_atomic path rows io).
Proof. apply writes_only_bind; [apply writes_only_lift|intros _; apply rewrite_lines_writes]. Qed.

Lemma rebuild_credits_writes `{!Ndjson ProofDedupEvent} path hashes io : writes_only path (rebuild_from_credits path hashes io).
Proof.
  unfold rebuild_from_credits. destruct (fold_left _ _ _) as [seen lines].
  apply writes_only_bind; [apply rewrite_lines_writes|intros []; by intros h p _].
Qed.

Lemma append_credit_writes `{!Ndjson ProofDedupEvent} path hash io h l p : p <> path ->
  h_files (append_credit path hash io (h, l)).1.1 !! p = h_files h !! p.
Proof.
  intros Hp. unfold append_credit. destruct (dedup_contains l hash); [done|].
  pose proof (append_line_writes path (DedupCredit hash) io h p Hp) as H. by destruct (append_line _ _ _ _) as [h' [[]| |]].
Qed.

Lemma append_burn_writes `{!Ndjson NonceEvent} path pk nonce io h l p : p <> path ->
  h_files (append_burn path pk nonce io (h, l)).1.1 !! p = h_files h !! p.
Proof.
  intros Hp. unfold append_burn, sbind, sget, sret, store_append. cbn [fst snd]. destruct (nonce_contains l pk nonce); [done|].
  pose proof (append_line_writes path (Burn pk nonce) io h p Hp) as H. by destruct (append_line _ _ _ _) as [h' [[]| |]].
Qed.

Lemma store_append_writes {S E} `{!EventStore S E} `{!Ndjson E} path (e : E) io h (s : S) p : p <> path ->
  h_files (store_append path e io (h, s)).1.1 !! p = h_files h !! p.
Proof.
  intros Hp. unfold store_append. pose proof (append_line_writes path e io h p Hp) as H.
  destruct (append_line _ _ _ _) as [h' [[]| |]]; [|done|done]. by destruct (es_apply s e).
Qed.

Lemma signed_burn_writes `{!Ndjson SignedNonceEvent} path pk nonce io h l p : p <> path ->
  h_files (signed_append_burn path pk nonce io (h, l)).1.1 !! p = h_files h !! p.
Proof.
  intros Hp. unfold signed_append_burn, sbind, sget, sret. cbn [fst snd]. destruct (signed_nonce_contains l pk nonce); [done|].
  pose proof (store_append_writes path (SignedBurn pk nonce) io h l p Hp) as H. by destruct (store_append _ _ _ _) as [[] [| |]].
Qed.

Lemma remove_file_writes h path ok p : p <> path -> h_files (remove_file h path ok).1 !! p = h_files h !! p.
Proof.
  intros Hp. unfold remove_file. destruct (h_files h !! path); [|done]. destruct ok; [|done]. cbn. by apply lookup_delete_ne.
Qed.

Lemma write_checkpoint_writes `{!Ndjson VerifiedPrefixCheckpoint} path cp io h p : p <> path ->
  h_files (write_checkpoint path cp io h).1 !! p = h_files h !! p.
Proof.
  intros Hp. unfold write_checkpoint. destruct (write_ndjson_lines_atomic _ _ _ _) as [h' r] eqn:E.
  by apply (rewrite_effect _ _ _ _ _ _ E).
Qed.

#[export] Hint Resolve append_line_writes bounty_append_writes bounty_recover_writes bounty_rewrite_writes rebuild_credits_writes
  append_credit_writes append_burn_writes remove_file_writes write_checkpoint_writes : boole.

(** ** The invariant through a projection *)

Section Chain.
Context {X : Externals}.
Context {NB : Ndjson PersistedBlock} {LB : NdjsonLaws PersistedBlock (fun _ => True)}.
Context {NR : Ndjson PersistedRewardEvent} {NV : Ndjson Value} {LV : NdjsonLaws Value json_plain} {ND : Ndjson ProofDedupEvent}.
Context {NC : Ndjson VerifiedPrefixCheckpoint} {NN : Ndjson NonceEvent}.
Context (block_of_value : Value -> option PersistedBlock) (authorization_of_value : Value -> option ShareWorkAuthorization).
Context (cfg : LocalNodeFields) (config : RuntimeConfig) (reward_path : option string) (registry : FamilyManifestRegistry).

Definition genesis : GenesisSpec := genesis_spec config (lf_network_id cfg) (lf_genesis_c cfg).

(** The replay contract of the node. *)
Definition node_contract : list PersistedBlock -> outcome ReplayError ReplayResult := contract registry genesis (node_scope cfg).

Definition chain_ok : Node -> Prop :=
  node_ok config (lf_block_path cfg) reward_path (lf_bounty_event_ledger_path cfg) registry genesis (node_scope cfg).

Definition chain_healthy : Node -> list PersistedBlock -> ReplayResult -> Prop :=
  healthy (lf_block_path cfg) reward_path (lf_bounty_event_ledger_path cfg) registry genesis (node_scope cfg).

Definition node_configured : RuntimeAdmissionState -> Prop := configured config reward_path registry genesis (node_scope cfg).

(** Memory and file agree, but for the flag that marks an unfinished publish. *)
Definition healed (n : Node) : Node := mkNode (set_failure (no_runtime n) None) (no_host n).

Definition projecting (n : Node) : Prop := node_configured (no_runtime n) /\ exists chain res, chain_healthy (healed n) chain res.

(** The block file is nobody else's, as the role gate of the boot ensures. *)
Record roles_distinct : Prop := {
  rd_reward : reward_path <> Some (lf_block_path cfg);
  rd_bounty : lf_bounty_event_ledger_path cfg <> Some (lf_block_path cfg);
  rd_checkpoint : lf_checkpoint_path cfg <> lf_block_path cfg;
  rd_dedup : lf_proof_dedup_ledger_path cfg <> Some (lf_block_path cfg);
  rd_nonce : lf_submit_nonce_ledger_path cfg <> Some (lf_block_path cfg);
  rd_receipt : lf_submit_receipt_ledger_path cfg <> Some (lf_block_path cfg);
  rd_sessions : lf_session_registry_path cfg <> Some (lf_block_path cfg);
  rd_signed : lf_signed_nonce_ledger_path cfg <> Some (lf_block_path cfg);
  rd_commitments : lf_receipt_commitment_ledger_path cfg <> Some (lf_block_path cfg)
}.

Lemma healthy_bytes r h h' chain res : file_bytes h' (lf_block_path cfg) = file_bytes h (lf_block_path cfg) ->
  chain_healthy (mkNode r h) chain res -> chain_healthy (mkNode r h') chain res.
Proof. intros Hb []. split; try done. cbn [no_host] in *. by rewrite Hb. Qed.

Lemma projecting_ok n : projecting n -> chain_ok n.
Proof.
  intros [Hc (chain & res & Hh)]. split; [done| |].
  - intros Hf. exists chain, res. destruct n as [r h]. cbn [no_runtime] in Hf. destruct r; cbn in *; by subst.
  - exact (healthy_recoverable _ _ _ _ _ _ _ _ _ Hh).
Qed.

Lemma ok_projecting n : chain_ok n -> rt_canonical_state_failure (no_runtime n) = None -> projecting n.
Proof.
  intros Hn Hf. split; [apply Hn|]. destruct (no_healthy _ _ _ _ _ _ _ _ Hn Hf) as (chain & res & Hh). exists chain, res.
  destruct n as [[] h]. cbn in *. by subst.
Qed.

Lemma projecting_failure n f : projecting n -> projecting (mkNode (set_failure (no_runtime n) f) (no_host n)).
Proof. intros [Hc Hh]. split; [by destruct Hc|exact Hh]. Qed.

Lemma projecting_host n h : file_bytes h (lf_block_path cfg) = file_bytes (no_host n) (lf_block_path cfg) ->
  projecting n -> projecting (mkNode (no_runtime n) h).
Proof. intros Hb [Hc (chain & res & Hh)]. split; [done|]. exists chain, res. by eapply healthy_bytes. Qed.

Lemma chain_ok_host n h : file_bytes h (lf_block_path cfg) = file_bytes (no_host n) (lf_block_path cfg) ->
  chain_ok n -> chain_ok (mkNode (no_runtime n) h).
Proof.
  intros Hb [Hc Hh Hr]. split; [done| |].
  - intros Hf. destruct (Hh Hf) as (chain & res & Hhe). exists chain, res. destruct n. by eapply healthy_bytes.
  - destruct Hr as (chain & tail & H1 & H2 & H3). exists chain, tail. cbn [no_host]. by rewrite Hb.
Qed.

(** The two invariants, on the state of the served node. *)
Definition state_ok (s : LocalNodeState) : Prop := chain_ok (ls_node s).
Definition state_projecting (s : LocalNodeState) : Prop := projecting (ls_node s).

Lemma on_node_keeps {E F A} (P : Node -> Prop) (wrap : E -> F) (m : stm Node E A) : keeps P m -> keeps (fun s => P (ls_node s)) (on_node wrap m).
Proof. intros Hm s Hs. unfold on_node. specialize (Hm _ Hs). by destruct (m (ls_node s)). Qed.

Lemma on_host_keeps {E F A} path (wrap : E -> F) (m : stm Host E A) : writes_only path m -> path <> lf_block_path cfg ->
  keeps state_projecting (on_host wrap m) /\ keeps state_ok (on_host wrap m).
Proof.
  intros Hm Hp. split; intros s Hs; unfold on_host; pose proof (writes_only_bytes path m (ls_host s) (lf_block_path cfg) Hm) as Hb;
    destruct (m (ls_host s)) as [h r]; [apply projecting_host|apply chain_ok_host]; try done; apply Hb; congruence.
Qed.

Lemma memory_keeps {F A} (wrap : RuntimeError -> F) (op : stm Node RuntimeError A) : memory_only op -> keeps state_ok (on_node wrap op).
Proof.
  intros Hop. apply on_node_keeps. intros n Hn. destruct (op n) as [n' r] eqn:E.
  exact (proj1 (memory_kept _ _ _ _ _ _ _ op n n' r Hop Hn E)).
Qed.

Lemma publish_keeps phase : keeps state_projecting (begin_publish phase).
Proof. intros s Hs. by apply (projecting_failure (ls_node s)). Qed.

Lemma finish_keeps : keeps state_projecting finish_publish.
Proof. intros s Hs. by apply (projecting_failure (ls_node s)). Qed.

(** Catching an error keeps what the operation keeps. *)
Lemma keeps_catch {S E F A} (P : S -> Prop) (m : stm S E A) : keeps P m -> keeps (E:=F) P (scatch m).
Proof. intros Hm s Hs. specialize (Hm s Hs). unfold scatch. by destruct (m s) as [s' [a|e|]]. Qed.

Lemma triple_catch {S E F A} (P : S -> Prop) (m : stm S E A) Q :
  triple P m Q -> triple (E:=F) P (scatch m) (fun r s => match r with
    | Ok (inr a) => Q (Ok a) s | Ok (inl e) => Q (Err e) s | Err _ => False | Panic => Q Panic s end).
Proof. intros Hm s Hs. specialize (Hm s Hs). unfold scatch. by destruct (m s) as [s' [a|e|]]. Qed.

(** ** The parts of a commit *)

Context (Hroles : roles_distinct).

Lemma set_host_bytes s h : file_bytes h (lf_block_path cfg) = file_bytes (ls_host s) (lf_block_path cfg) ->
  (state_ok s -> chain_ok (mkNode (ls_runtime s) h)) /\ (state_projecting s -> projecting (mkNode (ls_runtime s) h)).
Proof. intros Hb. split; [by apply chain_ok_host|by apply projecting_host]. Qed.

Lemma files_bytes h h' (p : string) : (forall q, q = p -> h_files h' !! q = h_files h !! q) -> file_bytes h' p = file_bytes h p.
Proof. intros H. unfold file_bytes. by rewrite H. Qed.

Lemma append_events_keeps block io : keeps state_projecting (append_block_bounty_events cfg block io).
Proof.
  unfold append_block_bounty_events. pose proof (rd_bounty Hroles) as Hb.
  destruct (lf_bounty_event_ledger_path cfg) as [path|]; [|apply keeps_ret]. keeps_tac.
  apply (on_host_keeps path); [apply bounty_append_writes|congruence].
Qed.

Lemma proof_credit_keeps hash io : keeps state_projecting (append_proof_credit cfg hash io).
Proof.
  intros s Hs. unfold append_proof_credit. pose proof (rd_dedup Hroles) as Hb.
  destruct (lf_proof_dedup_ledger_path cfg) as [path|]; [|done]. destruct (ls_proof_dedup_ledger s) as [l|]; [|done].
  pose proof (append_credit_writes path hash io (ls_host s) l (lf_block_path cfg)) as Hw.
  destruct (append_credit _ _ _ _) as [[h l'] r]. apply (set_host_bytes s h); [|done].
  apply files_bytes. intros q ->. apply Hw. congruence.
Qed.

Lemma discard_keeps removed : keeps state_ok (discard_checkpoint cfg removed) /\ keeps state_projecting (discard_checkpoint cfg removed).
Proof.
  split; intros s Hs; unfold discard_checkpoint;
    pose proof (remove_file_writes (ls_host s) (lf_checkpoint_path cfg) removed (lf_block_path cfg)) as Hw;
    destruct (remove_file _ _ _) as [h r]; apply (set_host_bytes s h); try done;
    apply files_bytes; intros q ->; apply Hw; apply not_eq_sym, Hroles.
Qed.

Lemma advance_keeps block io : keeps state_projecting (advance_verified_checkpoint cfg block io).
Proof.
  intros s Hs. unfold advance_verified_checkpoint. destruct (build_verified_checkpoint _ _ _ _ _ _) as [cp|]; [|done].
  pose proof (write_checkpoint_writes (lf_checkpoint_path cfg) cp io (ls_host s) (lf_block_path cfg)) as Hw.
  destruct (write_checkpoint _ _ _ _) as [h r]. apply (set_host_bytes s h); [|done].
  apply files_bytes. intros q ->. apply Hw, not_eq_sym, Hroles.
Qed.

Lemma rebuild_mirror_keeps adopted io : keeps state_projecting (rebuild_proof_dedup_mirror_after_reorg cfg adopted io).
Proof.
  intros s Hs. unfold rebuild_proof_dedup_mirror_after_reorg. pose proof (rd_dedup Hroles) as Hb.
  destruct (lf_proof_dedup_ledger_path cfg) as [path|]; [|done].
  pose proof (rebuild_credits_writes path (map ev_canon_hash (flat_map b_selected_share_evidence adopted)) io (ls_host s) (lf_block_path cfg)) as Hw.
  destruct (rebuild_from_credits _ _ _ _) as [h r]. destruct (set_host_bytes s h) as [_ Hp];
    [apply files_bytes; intros q ->; apply Hw; congruence|]. specialize (Hp Hs). by destruct r.
Qed.

Lemma rebuild_bounty_keeps adopted rio wio : keeps state_projecting (rebuild_bounty_state_after_reorg cfg adopted rio wio).
Proof.
  unfold rebuild_bounty_state_after_reorg. pose proof (rd_bounty Hroles) as Hb.
  destruct (lf_bounty_event_ledger_path cfg) as [path|]; [|apply keeps_ret]. keeps_tac.
  - apply (on_host_keeps path); [apply bounty_recover_writes|congruence].
  - apply (on_host_keeps path); [apply bounty_rewrite_writes|congruence].
  - intros s Hs. by destruct (rebuild_bounty_side_pool _ _ _).
Qed.

#[local] Hint Resolve append_events_keeps proof_credit_keeps advance_keeps publish_keeps finish_keeps keeps_catch rebuild_mirror_keeps
  rebuild_bounty_keeps : keeps.

(** A finished publish leaves no mark. *)
Lemma publish_finished path b io n n' d : publish_block path b io n = (n', Ok d) -> rt_canonical_state_failure (no_runtime n') = None.
Proof.
  unfold publish_block. intros H. do 6 (apply sbind_Ok in H as (? & ? & _ & H)). destruct (apply_block_unchecked _ _).
  do 2 (apply sbind_Ok in H as (? & ? & ? & H)). injection H as -> _.
  match goal with F : finish_canonical_publish _ = _ |- _ => by injection F as <- _ end.
Qed.


(** ** Publishing operations *)

(** Blocks name their bounties, where the node keeps bounty rows. *)
Definition named_where_kept (b : PersistedBlock) : Prop := lf_bounty_event_ledger_path cfg <> None -> block_named b.

(** The chain of the node with the block replays. *)
Definition extends (b : PersistedBlock) (s : LocalNodeState) : Prop :=
  is_ok (node_contract (rt_block_cache (ls_runtime s) ++ [b])) = true.

(** After a publishing operation. *)
Definition published_state {A} (r : outcome NodeError A) (s : LocalNodeState) : Prop :=
  match r with Ok _ => state_projecting s | _ => state_ok s end.

Lemma published_weaken {A} (r : outcome NodeError A) s : published_state r s -> state_ok s.
Proof. destruct r; [apply projecting_ok|done|done]. Qed.

Lemma validated_extends env s b skip : state_ok s -> validate_announced_block cfg env s b = Ok skip ->
  extends b s /\ rt_canonical_state_failure (ls_runtime s) = None.
Proof.
  intros [[C1 C2 _ _ _] _ _]. unfold validate_announced_block, ensure_canonical_state_healthy, node_genesis, extends. intros H.
  change (no_runtime (ls_node s)) with (ls_runtime s) in *.
  destruct (rt_canonical_state_failure (ls_runtime s)); [discriminate H|]. cbn [map_err obind] in H.
  destruct (_ && _); [|discriminate H]. cbn [ensure obind] in H.
  destruct (check_block_ts_future_drift _ _) as [[]| |]; try discriminate H. cbn [map_err obind] in H.
  rewrite C1, C2 in H. unfold node_contract, contract, genesis.
  by destruct (replay_blocks_with_genesis_and_registry_for_authorization_network _ _ _ _).
Qed.

Lemma ingest_triple b io : named_where_kept b ->
  triple (fun s => state_ok s /\ extends b s) (on_node NodeRuntime (ingest_external_block (lf_block_path cfg) b io)) published_state.
Proof.
  intros Hnm s [Hs Hext]. unfold on_node. destruct (ingest_external_block _ _ _ _) as [n' r] eqn:E.
  pose proof (proj1 (ingest_kept _ _ _ _ _ _ _ (ls_node s) b io n' r Hs (rd_reward Hroles) Hnm Hext E)) as Hok.
  destruct r as [d| |]; [|exact Hok|exact Hok]. apply ok_projecting; [exact Hok|].
  unfold ingest_external_block in E. do 3 (apply sbind_Ok in E as (? & ? & _ & E)). by apply publish_finished in E.
Qed.

Lemma commit_triple ts tags promoted io : (lf_bounty_event_ledger_path cfg <> None -> Forall named promoted) ->
  triple state_ok (on_node NodeRuntime (commit_next_block_for_current_c_with_promoted (lf_block_path cfg) ts tags promoted io))
    published_state.
Proof.
  intros Hnm s Hs. unfold on_node. destruct (commit_next_block_for_current_c_with_promoted _ _ _ _ _ _) as [n' r] eqn:E.
  unfold commit_next_block_for_current_c_with_promoted, sbind at 1, get_runtime in E.
  pose proof (proj1 (commit_kept _ _ _ _ _ _ _ (ls_node s) _ ts tags promoted io n' r Hs (rd_reward Hroles) Hnm E)) as Hok.
  destruct r as [c| |]; [|exact Hok|exact Hok]. apply ok_projecting; [exact Hok|].
  unfold commit_using_cache in E. do 7 (apply sbind_Ok in E as (? & ? & ? & E)). injection E as <- _.
  by match goal with P : publish_block _ _ _ _ = (_, Ok _) |- _ => apply publish_finished in P end.
Qed.

Lemma reorg_finished path candidate g now io n n' h : reorg_to_heavier_chain path candidate g now io n = (n', Ok (Reorged h)) ->
  rt_canonical_state_failure (no_runtime n') = None.
Proof.
  unfold reorg_to_heavier_chain. intros H. apply sbind_Ok in H as (? & ? & _ & H). apply sbind_Ok in H as (? & [[hd rep] kept] & _ & H).
  destruct kept; [discriminate H|]. do 5 (apply sbind_Ok in H as (? & ? & _ & H)). apply sbind_Ok in H as (n5 & ? & F & H).
  injection H as -> _. unfold finish_canonical_publish, on_runtime in F. by injection F as <- _.
Qed.

(** After a reorg: a kept chain is as it was, an adopted one waits for its projections. *)
Definition reorged_state (r : outcome NodeError ReorgOutcome) (s : LocalNodeState) : Prop :=
  match r with Ok (Reorged _) => state_projecting s | _ => state_ok s end.

Lemma reorg_triple candidate now io : (lf_bounty_event_ledger_path cfg <> None -> Forall block_named candidate) ->
  triple state_ok (on_node NodeRuntime (reorg_to_heavier_chain (lf_block_path cfg) candidate genesis now io)) reorged_state.
Proof.
  intros Hnm s Hs. unfold on_node. destruct (reorg_to_heavier_chain _ _ _ _ _ _) as [n' r] eqn:E.
  pose proof (proj1 (reorg_kept _ _ _ _ _ _ _ (ls_node s) candidate now io n' r Hs (rd_reward Hroles) Hnm E)) as Hok.
  destruct r as [[h|]| |]; try exact Hok. apply ok_projecting; [exact Hok|]. by apply reorg_finished in E.
Qed.

(** ** Block ingress *)

Lemma commit_announced_triple env io b skip lean : named_where_kept b ->
  triple (fun s => state_ok s /\ extends b s) (commit_announced_block cfg env io b skip lean) (fun _ => state_ok).
Proof.
  intros Hnm. unfold commit_announced_block. apply triple_get. intros s0.
  destruct (bool_decide _); [intros s [[Hs _] _]; exact Hs|].
  apply (triple_bind _ _ _ (fun _ s => state_ok s /\ extends b s)); [|intros []|by intros s e []|by intros s []].
  { intros s [[Hs He] _]. destruct (bool_decide _); [|done]. split; [by apply discard_keeps|].
    unfold discard_checkpoint, extends, ls_runtime. destruct (remove_file _ _ _). exact He. }
  set (lean' := if bool_decide _ then _ else _). clearbody lean'.
  eapply triple_bind; [apply triple_catch, (ingest_triple b (bi_publish io) Hnm)| |done|by intros s Hs].
  intros [e|d]; [by intros s Hs|].
  apply (triple_conseq _ state_projecting _ _ (fun _ => state_projecting)); [|done|intros r s; apply projecting_ok].
  as_keeps. keeps_tac; apply keeps_catch; keeps_tac.
Qed.

Lemma set_busy_ok s b : state_ok s -> state_ok (set_busy s b).
Proof. done. Qed.

Lemma release_permit_keeps {A} (m : stm LocalNodeState NodeError A) : keeps state_ok m -> keeps state_ok (release_permit m).
Proof. intros Hm s Hs. unfold release_permit. specialize (Hm s Hs). by destruct (m s). Qed.

Lemma finish_block_keeps env io b o : named_where_kept b -> keeps state_ok (finish_announced_block_reverify cfg env io b o).
Proof.
  intros Hnm. unfold finish_announced_block_reverify. destruct o; [|apply keeps_ret|apply keeps_ret]. apply triple_get. intros s0.
  destruct (validate_announced_block cfg env s0 b) as [skip|o|] eqn:E; [|by intros s [Hs _]..].
  apply (triple_conseq _ (fun s => state_ok s /\ extends b s) _ _ (fun _ => state_ok)); [by apply commit_announced_triple| |done].
  intros s [Hs ->]. split; [done|]. by apply (validated_extends env s0 b skip).
Qed.

(** What [prepare_announced_block] hands on is valid in the same state. *)
Lemma prepare_block_result env v s s' o : state_ok s -> prepare_announced_block block_of_value cfg env v s = (s', o) ->
  state_ok s' /\ (forall b skip, o = Ok (BlockReady b skip) -> extends b s' /\ block_of_value v = Some b) /\
  (forall b job, o = Ok (BlockReverify b job) -> block_of_value v = Some b).
Proof.
  intros Hs. unfold prepare_announced_block. destruct (bool_decide _); [intros [= <- <-]; by split_and!|].
  destruct (block_of_value v) as [b|]; [|intros [= <- <-]; by split_and!].
  destruct (validate_announced_block cfg env s b) as [skip|e|] eqn:E; [|intros [= <- <-]; by split_and!..].
  destruct (validated_extends env s b skip Hs E) as [Hext _].
  assert (Hready : forall d, (s, Ok (BlockReady b d)) = (s', o) -> state_ok s' /\
    (forall b' skip', o = Ok (BlockReady b' skip') -> extends b' s' /\ Some b = Some b') /\
    (forall b' job, o = Ok (BlockReverify b' job) -> Some b = Some b')).
  { intros d [= <- <-]. split_and!; [done|by intros b' skip' [= <- <-]|done]. }
  destruct skip; [by apply Hready| |]; (destruct (ingested_block_reverify_job cfg b) as [job|]; [|by apply Hready]);
    (destruct (ls_verifier_busy s); intros [= <- <-]; split_and!; try done; by intros b' job' [= <- _]).
Qed.

Lemma block_phase1_keeps env io v : (forall b, block_of_value v = Some b -> named_where_kept b) ->
  keeps state_ok (ingest_block_phase1 block_of_value cfg env io v).
Proof.
  intros Hnm s Hs. unfold ingest_block_phase1, sbind at 1. destruct (prepare_announced_block _ _ _ _ s) as [s1 o] eqn:E.
  destruct (prepare_block_result env v s s1 o Hs E) as (Hs1 & Hready & _). destruct o as [[o|b skip|b job]|e|]; [done| |done|done|done].
  destruct (Hready b skip eq_refl) as [Hext Hv]. unfold sbind.
  pose proof (commit_announced_triple env io b skip false (Hnm b Hv) s1 (conj Hs1 Hext)) as H.
  by destruct (commit_announced_block _ _ _ _ _ _ s1) as [s2 [r|e|]].
Qed.

Lemma block_phase2_keeps env io ck b job : named_where_kept b -> keeps state_ok (ingest_block_phase2 cfg env io ck b job).
Proof. intros Hnm. by apply release_permit_keeps, finish_block_keeps. Qed.

(** ** Chain ingress *)

Definition chain_named_where_kept (candidate : list PersistedBlock) : Prop :=
  lf_bounty_event_ledger_path cfg <> None -> Forall block_named candidate.

Lemma commit_candidate_keeps env io candidate : chain_named_where_kept candidate ->
  keeps state_ok (commit_candidate_chain cfg env io candidate).
Proof.
  intros Hnm. unfold commit_candidate_chain. apply triple_get. intros s0.
  destruct (bool_decide _); [by intros s [Hs _]|]. destruct (negb _); [by intros s [Hs _]|].
  assert (Hreorg : triple (fun s => state_ok s /\ s = s0) (on_node NodeRuntime
    (reorg_to_heavier_chain (lf_block_path cfg) candidate (node_genesis cfg s0) (en_now_ms env) (ch_reorg io))) reorged_state).
  { intros s [Hs ->]. unfold node_genesis, ls_runtime. rewrite (cf_config _ _ _ _ _ _ (no_configured _ _ _ _ _ _ _ _ Hs)).
    by apply (reorg_triple candidate (en_now_ms env) (ch_reorg io) Hnm). }
  eapply triple_bind; [exact (triple_catch _ _ _ Hreorg)|intros [e|[h|]]|done|by intros s Hs].
  - by intros s Hs.
  - apply (triple_conseq _ state_projecting _ _ (fun _ => state_projecting)); [|done|intros r s; apply projecting_ok].
    as_keeps. keeps_tac; try (apply keeps_catch; keeps_tac). apply discard_keeps.
  - by intros s Hs.
Qed.

Lemma chain_phase1_keeps env io vs : (forall c, parse_candidate block_of_value vs = Some c -> chain_named_where_kept c) ->
  keeps state_ok (ingest_chain_phase1 block_of_value cfg env io vs).
Proof.
  intros Hnm. unfold ingest_chain_phase1.
  apply (triple_bind _ _ _ (fun r s => state_ok s /\ forall c, r = Ok (ChainReady c) -> parse_candidate block_of_value vs = Some c));
    [|intros [o|c|c job]|by intros s e []|by intros s []].
  - intros s Hs. unfold prepare_candidate_chain. destruct (bool_decide _); [done|]. destruct (negb _); [done|].
    destruct (parse_candidate block_of_value vs) as [c|]; [|done].
    destruct (preflight_reorg_candidate _ _ _ _) as [[h|]| |]; [|done..].
    destruct (candidate_chain_reverify_job _ _ _); [destruct (ls_verifier_busy s); done|]. split; [done|]. by intros c' [= <-].
  - by intros s [Hs _].
  - intros s [Hs Hc]. unfold sbind. pose proof (commit_candidate_keeps env io c (Hnm c (Hc c eq_refl)) s Hs) as H.
    by destruct (commit_candidate_chain _ _ _ _ s) as [s2 [r|e|]].
  - by intros s [Hs _].
Qed.

Lemma chain_phase2_keeps env io ck candidate job : chain_named_where_kept candidate ->
  keeps state_ok (ingest_chain_phase2 cfg env io ck candidate job).
Proof.
  intros Hnm. apply release_permit_keeps. unfold finish_candidate_chain_reverify.
  destruct (worker_outcome _); [by apply commit_candidate_keeps|apply keeps_ret..].
Qed.

(** ** Shares *)

Lemma quarantine_keeps h : keeps state_ok (quarantine h).
Proof. apply memory_keeps, quarantine_memory. Qed.

Lemma release_keeps c at_ ip : keeps state_ok (release_reservation c at_ ip).
Proof. apply memory_keeps, release_memory. Qed.

Lemma observe_keeps {F} (wrap : RuntimeError -> F) body : keeps state_ok (on_node wrap (observe_ticket_from_body body)).
Proof. apply memory_keeps, observe_memory. Qed.

Lemma admit_keeps {F} (wrap : RuntimeError -> F) now ip body tag pk signed :
  keeps state_ok (on_node wrap (admit_body_with_submitter_context now ip body tag pk signed)).
Proof. apply memory_keeps, admit_memory. Qed.

Lemma take_keeps {F} (wrap : RuntimeError -> F) h at_ ip : keeps state_ok (on_node wrap (take_candidate_for_reverify h at_ ip)).
Proof. apply memory_keeps, take_memory. Qed.

Lemma restore_keeps {F} (wrap : RuntimeError -> F) c : keeps state_ok (on_node wrap (restore_reverified_candidate c)).
Proof. apply memory_keeps, restore_memory. Qed.

Lemma busy_keeps {E} b : keeps (E:=E) state_ok (smodify (fun s => set_busy s b)).
Proof. by apply keeps_modify. Qed.

#[local] Hint Resolve quarantine_keeps release_keeps observe_keeps admit_keeps take_keeps restore_keeps busy_keeps : keeps.

Lemma share_phase1_keeps env submission ip : keeps state_ok (ingress_prepare_share authorization_of_value cfg env submission ip).
Proof. unfold ingress_prepare_share. keeps_tac. Qed.

Lemma share_phase2_keeps env ck prepared : keeps state_ok (ingress_share_phase2 cfg env ck prepared).
Proof. apply release_permit_keeps. unfold ingress_finalize_share. keeps_tac. Qed.

(** ** Submissions *)

Lemma submit_prepare_keeps env body ip session : keeps state_ok (submit_prepare cfg env body ip session).
Proof. unfold submit_prepare. keeps_tac. Qed.

Lemma burn_keeps session io : keeps state_ok (burn_submit_nonce cfg session io).
Proof.
  intros s Hs. unfold burn_submit_nonce. pose proof (rd_nonce Hroles) as Hb.
  destruct (lf_submit_nonce_ledger_path cfg) as [path|]; [|done]. destruct (ls_nonce_ledger s) as [l|]; [|done].
  pose proof (append_burn_writes path (ck_submitted_by session) (ck_nonce session) io (ls_host s) l (lf_block_path cfg)) as Hw.
  destruct (append_burn _ _ _ _ _) as [[h l'] r]. apply (set_host_bytes s h); [|done].
  apply files_bytes. intros q ->. apply Hw. congruence.
Qed.

(** The rows that would be promoted name their bounties, where the node keeps rows. *)
Definition promoted_named (pool : BountySidePool) : Prop := forall height sel,
  select_promoted_bounty_selection pool (lf_family_manifest_registry cfg) height (lf_operator_signer_pks cfg) = Ok sel ->
  lf_bounty_event_ledger_path cfg <> None -> Forall named (ps_shares sel).

(** An operation on memory outside the runtime. *)
Lemma announce_share_keeps body tag ts signed : keeps state_ok (announce_admitted_share cfg body tag ts signed).
Proof. intros s Hs. unfold announce_admitted_share. by destruct (lf_p2p_egress cfg). Qed.

Lemma announce_block_keeps b : keeps state_projecting (announce_committed_block cfg b).
Proof. intros s Hs. unfold announce_committed_block. by destruct (lf_p2p_egress cfg). Qed.

Lemma receipt_keeps (receipt : option Value) io : keeps state_projecting (match lf_submit_receipt_ledger_path cfg, receipt with
  | Some path, Some receipt => on_host NodeStore (append_line path receipt io)
  | _, _ => sret tt
  end).
Proof.
  pose proof (rd_receipt Hroles) as Hb. destruct (lf_submit_receipt_ledger_path cfg) as [path|]; [|apply keeps_ret].
  destruct receipt; [|apply keeps_ret]. apply (on_host_keeps path); [apply append_line_writes|congruence].
Qed.

#[local] Hint Resolve burn_keeps announce_share_keeps announce_block_keeps receipt_keeps : keeps.

Lemma submit_finalize_triple env io prepared session :
  triple (fun s => state_ok s /\ promoted_named (ls_bounty_side_pool s)) (submit_finalize cfg env io prepared session) (fun _ => state_ok).
Proof.
  assert (Hpool : forall m : stm LocalNodeState NodeError unit, keeps state_ok m -> (forall s, ls_bounty_side_pool (m s).1 = ls_bounty_side_pool s) ->
    triple (fun s => state_ok s /\ promoted_named (ls_bounty_side_pool s)) m (fun _ s => state_ok s /\ promoted_named (ls_bounty_side_pool s))).
  { intros m Hm Hp s [Hs Hn]. split; [by apply Hm|by rewrite Hp]. }
  unfold submit_finalize. eapply triple_bind; [apply Hpool; [eauto with keeps|]|intros []|by intros s e []|by intros s []].
  { intros s. unfold announce_admitted_share. by destruct (lf_p2p_egress cfg). }
  eapply triple_bind; [apply Hpool; [keeps_tac|]|intros []|by intros s e []|by intros s []].
  { intros s. destruct session as [session|]; [|done]. unfold burn_submit_nonce.
    destruct (lf_submit_nonce_ledger_path cfg), (ls_nonce_ledger s); try done. by destruct (append_burn _ _ _ _ _) as [[] ?]. }
  apply triple_get. intros s0. set (P := fun s => _ /\ s = s0).
  assert (HP : forall s, P s -> state_ok s) by (by intros s [[Hs _] _]).
  assert (Hlift : forall A (o : outcome NodeError A), triple P (slift o) (fun r s => P s /\ r = o)) by (intros A o s Hs; done).
  eapply triple_bind; [apply Hlift|intros selection|intros s e [Hs _]; by apply HP|intros s [Hs _]; by apply HP].
  destruct selection as [b|]; [|intros s [Hs _]; by apply HP].
  eapply (triple_bind _ _ _ (fun r s => P s)); [intros s [Hs _]; exact Hs|intros []|intros s e Hs; by apply HP|intros s Hs; by apply HP].
  eapply triple_bind; [apply Hlift|intros promoted|intros s e [Hs _]; by apply HP|intros s [Hs _]; by apply HP].
  eapply (triple_bind _ _ _ published_state).
  { intros s [[[Hs Hn] ->] Ho]. apply (commit_triple _ _ (ps_shares promoted)); [|done]. apply (Hn (len (rt_block_cache (ls_runtime s0)))).
    by destruct (select_promoted_bounty_selection _ _ _ _); [injection Ho as ->|discriminate Ho..]. }
  2: done. 2: done.
  intros committed. apply (triple_conseq _ state_projecting _ _ (fun _ => state_projecting)); [|done|intros r s; apply projecting_ok].
  as_keeps. keeps_tac; by apply keeps_modify.
Qed.

Lemma release_now_keeps prepared : keeps state_ok (release_now prepared).
Proof. unfold release_now. keeps_tac. Qed.

#[local] Hint Resolve submit_prepare_keeps release_now_keeps : keeps.

Section Submissions.
Context (Hpromoted : forall pool, promoted_named pool).

Lemma submit_finalize_keeps env io prepared session : keeps state_ok (submit_finalize cfg env io prepared session).
Proof. eapply triple_conseq; [apply submit_finalize_triple|by intros s Hs|done]. Qed.

#[local] Hint Resolve submit_finalize_keeps keeps_catch : keeps.

Lemma submit_phase1_keeps env env' io body ip : keeps state_ok (submit_phase1 cfg env env' io body ip).
Proof. unfold submit_phase1. keeps_tac. Qed.

Lemma submit_phase3_keeps env io ck body prepared job :
  keeps state_ok (submit_phase3 cfg env io ck body prepared job).
Proof. apply release_permit_keeps. unfold submit_finish. keeps_tac. Qed.

End Submissions.

(** ** Signed routes *)

Section Routes.
Context {NSN : Ndjson SignedNonceEvent} {NS : Ndjson SessionEvent} {NRC : Ndjson ReceiptCommitment}.
Context (session_of_value : Value -> option SessionState) (receipt_of_value : Value -> option ReceiptCommitment).

Lemma signed_nonce_keeps pk nonce io : keeps state_ok (burn_signed_envelope_nonce cfg pk nonce io).
Proof.
  intros s Hs. unfold burn_signed_envelope_nonce. pose proof (rd_signed Hroles) as Hb.
  destruct (lf_signed_nonce_ledger_path cfg) as [path|]; [|done]. destruct (ls_signed_nonce_ledger s) as [l|]; [|done].
  pose proof (signed_burn_writes path pk nonce io (ls_host s) l (lf_block_path cfg)) as Hw.
  destruct (signed_append_burn _ _ _ _ _) as [[h l'] r]. apply (set_host_bytes s h); [|done].
  apply files_bytes. intros q ->. apply Hw. congruence.
Qed.

Lemma on_sessions_keeps path store m : lf_session_registry_path cfg = Some path ->
  (forall h p, p <> path -> h_files (m (h, store)).1.1 !! p = h_files h !! p) -> keeps state_ok (on_sessions path store m).
Proof.
  intros Hp Hm s Hs. unfold on_sessions. pose proof (rd_sessions Hroles) as Hb. specialize (Hm (ls_host s) (lf_block_path cfg)).
  destruct (m (ls_host s, store)) as [[h l'] r]. apply (set_host_bytes s h); [|done].
  apply files_bytes. intros q ->. apply Hm. congruence.
Qed.

Lemma register_writes path session height io h store p : p <> path ->
  h_files (append_register path session height io (h, store)).1.1 !! p = h_files h !! p.
Proof.
  intros Hp. unfold append_register, sbind, sget, slift. cbn [fst snd]. destruct (ensure _ _); [|done..].
  destruct (map_err _ _); [|done..]. by apply store_append_writes.
Qed.

Lemma revoke_writes path pk height io h store p : p <> path ->
  h_files (append_revoke path pk height io (h, store)).1.1 !! p = h_files h !! p.
Proof.
  intros Hp. unfold append_revoke, sbind, sget, slift. cbn [fst snd]. destruct (ensure _ _); [|done..]. by apply store_append_writes.
Qed.

Lemma audit_keeps event io : keeps state_ok (append_audit cfg event io).
Proof.
  unfold append_audit. pose proof (rd_bounty Hroles) as Hb. destruct (lf_bounty_event_ledger_path cfg) as [path|]; [|apply keeps_ret].
  apply (on_host_keeps path); [apply bounty_append_writes|congruence].
Qed.

Lemma set_registry_keeps {E} r : keeps (E:=E) state_ok (smodify (fun s => set_registry s r)).
Proof. by apply keeps_modify. Qed.

Lemma insert_share_keeps {E} share :
  keeps (E:=E) state_ok (smodify (fun s => set_side_pool s (side_pool_insert (ls_bounty_side_pool s) share))).
Proof. by apply keeps_modify. Qed.

Lemma set_receipts_keeps {E} r : keeps (E:=E) state_ok (smodify (fun s => set_receipts s r)).
Proof. by apply keeps_modify. Qed.

#[local] Hint Resolve signed_nonce_keeps audit_keeps set_registry_keeps insert_share_keeps set_receipts_keeps : keeps.

Lemma guarded_keeps {A} env (m : stm LocalNodeState HttpError A) : keeps state_ok m -> keeps state_ok (write_guarded cfg env m).
Proof. intros Hm. unfold write_guarded. keeps_tac. Qed.

Lemma session_register_keeps env io body : keeps state_ok (session_register_handler session_of_value cfg env io body).
Proof.
  apply guarded_keeps. unfold session_register_json. apply keeps_bind; [apply keeps_get|intros s].
  destruct (lf_session_registry_path cfg) as [path|] eqn:E; [|apply keeps_lift].
  destruct (ls_session_store s) as [store|]; [|apply keeps_lift].
  assert (Hw : forall session height, keeps state_ok (on_sessions path store (append_register path session height (ri_ledger io)))).
  { intros session height. apply on_sessions_keeps; [done|intros h p; apply register_writes]. }
  unfold stored_session. keeps_tac.
Qed.

Lemma session_revoke_keeps env io pk body : keeps state_ok (session_revoke_handler cfg env io pk body).
Proof.
  apply guarded_keeps. unfold session_revoke_json. apply keeps_bind; [apply keeps_lift|intros _].
  apply keeps_bind; [apply keeps_get|intros s].
  destruct (lf_session_registry_path cfg) as [path|] eqn:E; [|apply keeps_lift].
  destruct (ls_session_store s) as [store|]; [|apply keeps_lift].
  assert (Hw : forall height, keeps state_ok (on_sessions path store (append_revoke path pk height (ri_ledger io)))).
  { intros height. apply on_sessions_keeps; [done|intros h p; apply revoke_writes]. }
  unfold stored_session. keeps_tac.
Qed.

Lemma receipt_post_keeps env io body : keeps state_ok (receipt_post_handler receipt_of_value cfg env io body).
Proof.
  apply guarded_keeps. unfold receipt_post_json. pose proof (rd_commitments Hroles) as Hb.
  destruct (lf_receipt_commitment_ledger_path cfg) as [path|]; keeps_tac.
  apply (on_host_keeps path); [|congruence]. apply writes_only_bind; [apply writes_only_lift|intros _; apply append_line_writes].
Qed.

Lemma bounty_announce_keeps env io body : keeps state_ok (bounty_announce_handler cfg env io body).
Proof. apply guarded_keeps. unfold bounty_announce_json. keeps_tac. Qed.

Lemma bounty_status_keeps env io id body : keeps state_ok (bounty_status_handler cfg env io id body).
Proof. apply guarded_keeps. unfold bounty_status_json. keeps_tac. Qed.

Lemma bounty_proof_keeps env io id prepared verdict : keeps state_ok (bounty_proof_finish cfg env io id prepared verdict).
Proof. unfold bounty_proof_finish. destruct verdict; [|apply keeps_lift..]. apply guarded_keeps. unfold bounty_proof_finalize. keeps_tac. Qed.

Lemma ticket_keeps env body : keeps state_ok (ticket_handler cfg env body).
Proof. apply guarded_keeps. unfold ticket_json. keeps_tac. Qed.

End Routes.

End Chain.
