(* ===== verification/ServedNode.v ===== *)
(** * The served node as a transition system

    Every way the state behind the lock changes is one step: a lock phase of a
    handler of blocks, chains, gossiped shares, submissions or signed routes, with
    any request, any answers of the system and any interleaving. Between the two
    phases of a handler that runs the Lean checker its job is outstanding. *)

From S2P Require Import Prelude Hoare Json Externals Hash Block BlockBuilder Difficulty Config ShareAuthorization FamilyManifest Bounty.
From S2P Require Import ReplayEvidence Replay SharePool RateLimiter Admission Durability BountyLedger Stores Runtime EventStores Receipts.
From S2P Require Import P2pWire Validator SubmitGate ShareVerifier LocalNode LocalSubmit LocalRoutes RuntimeFacts RuntimeTheorems LocalNodeFacts.

(** ** Steps *)

(** A checker run that was started and has not come back. *)
Inductive Job :=
| BlockJob (block : PersistedBlock) (job : IngestedBlockReverifyJob)
| ChainJob (candidate : list PersistedBlock) (job : CandidateChainReverifyJob)
| ShareJob (prepared : PreparedIngressShare)
| SubmitJob (body : option Value) (prepared : PreparedSubmitCommit) (job : ShareAdmissionReverifyJob).

Record Served := mkServed { sv_state : LocalNodeState; sv_jobs : list Job }.

Section Served.
Context {X : Externals}.
Context {NB : Ndjson PersistedBlock} {NR : Ndjson PersistedRewardEvent} {NV : Ndjson Value} {ND : Ndjson ProofDedupEvent}.
Context {NC : Ndjson VerifiedPrefixCheckpoint} {NN : Ndjson NonceEvent}.
Context {NSN : Ndjson SignedNonceEvent} {NS : Ndjson SessionEvent} {NRC : Ndjson ReceiptCommitment}.
Context (block_of_value : Value -> option PersistedBlock) (authorization_of_value : Value -> option ShareWorkAuthorization).
Context (session_of_value : Value -> option SessionState) (receipt_of_value : Value -> option ReceiptCommitment).
Context (cfg : LocalNodeFields).

(** A signed route or a ticket, under the write lock. *)
Inductive route : (LocalNodeState -> LocalNodeState) -> Prop :=
| route_register env io body : route (fun s => (session_register_handler session_of_value cfg env io body s).1)
| route_revoke env io pk body : route (fun s => (session_revoke_handler cfg env io pk body s).1)
| route_receipt env io body : route (fun s => (receipt_post_handler receipt_of_value cfg env io body s).1)
| route_announce env io body : route (fun s => (bounty_announce_handler cfg env io body s).1)
| route_status env io id body : route (fun s => (bounty_status_handler cfg env io id body s).1)
| route_proof env io id prepared verdict : route (fun s => (bounty_proof_finish cfg env io id prepared verdict s).1)
| route_ticket env body : route (fun s => (ticket_handler cfg env body s).1).

(** The job a first phase leaves behind. *)
Definition block_started (r : outcome NodeError (IngressBlockOutcome + PersistedBlock * IngestedBlockReverifyJob)) : list Job :=
  match r with Ok (inr (block, job)) => [BlockJob block job] | _ => [] end.
Definition chain_started (r : outcome NodeError (CandidateChainOutcome + list PersistedBlock * CandidateChainReverifyJob)) : list Job :=
  match r with Ok (inr (candidate, job)) => [ChainJob candidate job] | _ => [] end.
Definition share_started (r : outcome NodeError IngressSharePrepareOutcome) : list Job :=
  match r with Ok (ShareReverify prepared) => [ShareJob prepared] | _ => [] end.
Definition submit_started (body : option Value) (r : outcome NodeError SubmitPhase) : list Job :=
  match r with Ok (SubmitPending prepared job) => [SubmitJob body prepared job] | _ => [] end.

Inductive served_step : Served -> Served -> Prop :=
| start_block env io v s s' r jobs : ingest_block_phase1 block_of_value cfg env io v s = (s', r) ->
    served_step (mkServed s jobs) (mkServed s' (block_started r ++ jobs))
| finish_block env io ck block job s s' r jobs1 jobs2 : ingest_block_phase2 cfg env io ck block job s = (s', r) ->
    served_step (mkServed s (jobs1 ++ BlockJob block job :: jobs2)) (mkServed s' (jobs1 ++ jobs2))
| start_chain env io vs s s' r jobs : ingest_chain_phase1 block_of_value cfg env io vs s = (s', r) ->
    served_step (mkServed s jobs) (mkServed s' (chain_started r ++ jobs))
| finish_chain env io ck candidate job s s' r jobs1 jobs2 : ingest_chain_phase2 cfg env io ck candidate job s = (s', r) ->
    served_step (mkServed s (jobs1 ++ ChainJob candidate job :: jobs2)) (mkServed s' (jobs1 ++ jobs2))
| start_share env submission ip s s' r jobs : ingress_prepare_share authorization_of_value cfg env submission ip s = (s', r) ->
    served_step (mkServed s jobs) (mkServed s' (share_started r ++ jobs))
| finish_share env ck prepared s s' r jobs1 jobs2 : ingress_share_phase2 cfg env ck prepared s = (s', r) ->
    served_step (mkServed s (jobs1 ++ ShareJob prepared :: jobs2)) (mkServed s' (jobs1 ++ jobs2))
| start_submit env env' io body ip s s' r jobs : submit_phase1 cfg env env' io body ip s = (s', r) ->
    served_step (mkServed s jobs) (mkServed s' (submit_started body r ++ jobs))
| finish_submit env io ck body prepared job s s' r jobs1 jobs2 : submit_phase3 cfg env io ck body prepared job s = (s', r) ->
    served_step (mkServed s (jobs1 ++ SubmitJob body prepared job :: jobs2)) (mkServed s' (jobs1 ++ jobs2))
| cancel_submit body prepared job s jobs1 jobs2 :
    served_step (mkServed s (jobs1 ++ SubmitJob body prepared job :: jobs2)) (mkServed (submit_cancelled s).1 (jobs1 ++ jobs2))
| run_route f s jobs : route f -> served_step (mkServed s jobs) (mkServed (f s) jobs).

(** ** The permit *)

(** A first phase takes the permit exactly when it leaves a job. *)
Definition takes_permit {A} (started : outcome NodeError A -> list Job) (m : stm LocalNodeState NodeError A) : Prop := forall s,
  match started (m s).2 with
  | [] => ls_verifier_busy (m s).1 = ls_verifier_busy s
  | [_] => ls_verifier_busy s = false /\ ls_verifier_busy (m s).1 = true
  | _ => False
  end.

Definition permit_at (b : bool) (s : LocalNodeState) : Prop := ls_verifier_busy s = b.

Lemma on_node_permit {E F A} b (wrap : E -> F) (m : stm Node E A) : keeps (permit_at b) (on_node wrap m).
Proof. intros s Hs. unfold on_node. by destruct (m (ls_node s)). Qed.

Lemma on_host_permit {E F A} b (wrap : E -> F) (m : stm Host E A) : keeps (permit_at b) (on_host wrap m).
Proof. intros s Hs. unfold on_host. by destruct (m (ls_host s)). Qed.

(** Steps that are functions of the state: no branch assigns the flag. *)
Ltac permit_tac := let s := fresh in let Hs := fresh in intros s Hs;
  repeat match goal with
         | |- context [match ?x with _ => _ end] => destruct x
         | |- context [let '_ := ?x in _] => destruct x
         end; exact Hs.

Lemma proof_credit_permit b hash io : keeps (permit_at b) (append_proof_credit cfg hash io).
Proof. unfold append_proof_credit. permit_tac. Qed.

Lemma discard_permit b removed : keeps (permit_at b) (discard_checkpoint cfg removed).
Proof. unfold discard_checkpoint. permit_tac. Qed.

Lemma advance_permit b block io : keeps (permit_at b) (advance_verified_checkpoint cfg block io).
Proof. unfold advance_verified_checkpoint. permit_tac. Qed.

Lemma mirror_permit b adopted io : keeps (permit_at b) (rebuild_proof_dedup_mirror_after_reorg cfg adopted io).
Proof. unfold rebuild_proof_dedup_mirror_after_reorg. permit_tac. Qed.

Lemma burn_permit b session io : keeps (permit_at b) (burn_submit_nonce cfg session io).
Proof. unfold burn_submit_nonce. permit_tac. Qed.

Lemma announce_permit b body tag ts signed : keeps (permit_at b) (announce_admitted_share cfg body tag ts signed).
Proof. unfold announce_admitted_share. permit_tac. Qed.

Lemma announce_block_permit b block : keeps (permit_at b) (announce_committed_block cfg block).
Proof. unfold announce_committed_block. permit_tac. Qed.

Lemma signed_permit b pk nonce io : keeps (permit_at b) (burn_signed_envelope_nonce cfg pk nonce io).
Proof. unfold burn_signed_envelope_nonce. permit_tac. Qed.

Lemma sessions_permit b path store m : keeps (permit_at b) (on_sessions path store m).
Proof. unfold on_sessions. permit_tac. Qed.

Lemma modify_permit {E} b f : (forall s, ls_verifier_busy (f s) = ls_verifier_busy s) -> keeps (E:=E) (permit_at b) (smodify f).
Proof. intros Hf. apply keeps_modify. intros s. unfold permit_at. by rewrite Hf. Qed.

#[local] Hint Resolve on_node_permit on_host_permit proof_credit_permit discard_permit advance_permit mirror_permit burn_permit
  announce_permit announce_block_permit signed_permit sessions_permit keeps_catch : keeps.
#[local] Hint Extern 2 (keeps (permit_at _) (smodify _)) => by apply modify_permit : keeps.

Lemma bounty_state_permit b adopted rio wio : keeps (permit_at b) (rebuild_bounty_state_after_reorg cfg adopted rio wio).
Proof.
  unfold rebuild_bounty_state_after_reorg. destruct (lf_bounty_event_ledger_path cfg); keeps_tac. permit_tac.
Qed.

Lemma events_permit b block io : keeps (permit_at b) (append_block_bounty_events cfg block io).
Proof. unfold append_block_bounty_events. keeps_tac. Qed.

#[local] Hint Resolve bounty_state_permit events_permit : keeps.

Lemma commit_block_permit b env io block skip lean : keeps (permit_at b) (commit_announced_block cfg env io block skip lean).
Proof. unfold commit_announced_block, begin_publish, finish_publish. keeps_tac; apply keeps_catch; keeps_tac. Qed.

Lemma commit_chain_permit b env io candidate : keeps (permit_at b) (commit_candidate_chain cfg env io candidate).
Proof. unfold commit_candidate_chain, begin_publish, finish_publish. keeps_tac; apply keeps_catch; keeps_tac. Qed.

Lemma finalize_permit b env io prepared session : keeps (permit_at b) (submit_finalize cfg env io prepared session).
Proof. unfold submit_finalize, begin_publish, finish_publish. keeps_tac. Qed.

Lemma prepare_permit b env body ip session : keeps (permit_at b) (submit_prepare cfg env body ip session).
Proof. unfold submit_prepare, quarantine. keeps_tac. Qed.

Lemma route_permit b f s : route f -> permit_at b s -> permit_at b (f s).
Proof.
  intros Hr. revert s. assert (Hk : forall A (m : stm LocalNodeState HttpError A), keeps (permit_at b) m -> forall s, permit_at b s -> permit_at b (m s).1)
    by (intros A m Hm s Hs; by apply Hm).
  destruct Hr; apply Hk; unfold session_register_handler, session_revoke_handler, receipt_post_handler, bounty_announce_handler,
    bounty_status_handler, bounty_proof_finish, ticket_handler, write_guarded, session_register_json, session_revoke_json,
    receipt_post_json, bounty_announce_json, bounty_status_json, bounty_proof_finalize, ticket_json, append_audit, stored_session; keeps_tac.
Qed.

#[local] Hint Resolve commit_block_permit commit_chain_permit finalize_permit prepare_permit : keeps.

(** A run that keeps the flag, as a fact about it. *)
Lemma permit_kept {E A} (m : stm LocalNodeState E A) s : (forall b, keeps (permit_at b) m) -> ls_verifier_busy (m s).1 = ls_verifier_busy s.
Proof. intros Hm. by apply Hm. Qed.

Lemma block_takes_permit env io v : takes_permit block_started (ingest_block_phase1 block_of_value cfg env io v).
Proof.
  intros s. unfold ingest_block_phase1, sbind at 1 3 5, prepare_announced_block.
  destruct (bool_decide _); [done|]. destruct (block_of_value v) as [b|]; [|done].
  destruct (validate_announced_block cfg env s b) as [skip|o|]; [|done..].
  assert (Hready : forall d, let m := (let! o := commit_announced_block cfg env io b d false in sret (inl o)) in
    match block_started (m s).2 with [] => ls_verifier_busy (m s).1 = ls_verifier_busy s | [_] => ls_verifier_busy s = false /\ ls_verifier_busy (m s).1 = true | _ => False end).
  { intros d m. assert (Hm : ls_verifier_busy (m s).1 = ls_verifier_busy s) by (apply permit_kept; intros ?; apply keeps_bind; [apply commit_block_permit|intros ?; apply keeps_ret]).
    unfold m, sbind in *. by destruct (commit_announced_block _ _ _ _ _ _ s) as [s1 [o|e|]]. }
  destruct skip; [apply Hready| |]; (destruct (ingested_block_reverify_job cfg b) as [job|]; [|apply Hready]);
    destruct (ls_verifier_busy s) eqn:E; cbn; by rewrite ?E.
Qed.

Lemma chain_takes_permit env io vs : takes_permit chain_started (ingest_chain_phase1 block_of_value cfg env io vs).
Proof.
  intros s. unfold ingest_chain_phase1, sbind at 1 3 5, prepare_candidate_chain.
  destruct (bool_decide _); [done|]. destruct (negb _); [done|]. destruct (parse_candidate block_of_value vs) as [c|]; [|done].
  destruct (preflight_reorg_candidate _ _ _ _) as [[h|]| |]; [|done..].
  destruct (candidate_chain_reverify_job _ _ _); [destruct (ls_verifier_busy s) eqn:E; cbn; by rewrite ?E|].
  set (m := let! o := commit_candidate_chain cfg env io c in sret (inl o)).
  assert (Hm : ls_verifier_busy (m s).1 = ls_verifier_busy s) by (apply permit_kept; intros ?; apply keeps_bind; [apply commit_chain_permit|intros ?; apply keeps_ret]).
  unfold m, sbind in *. by destruct (commit_candidate_chain _ _ _ _ s) as [s1 [o|e|]].
Qed.

(** The same as a triple, for the longer handlers. *)
Definition permit_post {A} (started : outcome NodeError A -> list Job) (b : bool) (r : outcome NodeError A) (s : LocalNodeState) : Prop :=
  match started r with
  | [] => ls_verifier_busy s = b
  | [_] => b = false /\ ls_verifier_busy s = true
  | _ => False
  end.

Section Triples.
Context {A : Type} (started : outcome NodeError A -> list Job).
Context (Herr : forall e, started (Err e) = []) (Hpanic : started Panic = []).

Lemma permit_step {B} b (m : stm LocalNodeState NodeError B) (f : B -> stm LocalNodeState NodeError A) : keeps (permit_at b) m ->
  (forall a, triple (permit_at b) (f a) (permit_post started b)) -> triple (permit_at b) (sbind m f) (permit_post started b).
Proof.
  intros Hm Hf. apply (triple_bind _ _ _ _ _ Hm); [done| |].
  - intros s e Hs. unfold permit_post. by rewrite Herr.
  - intros s Hs. unfold permit_post. by rewrite Hpanic.
Qed.

Lemma permit_get b (f : LocalNodeState -> stm LocalNodeState NodeError A) :
  (forall s0, ls_verifier_busy s0 = b -> triple (permit_at b) (f s0) (permit_post started b)) ->
  triple (permit_at b) (sbind sget f) (permit_post started b).
Proof. intros Hf s Hs. by apply (Hf s). Qed.

Lemma permit_lift b (o : outcome NodeError A) : started o = [] -> triple (permit_at b) (slift o) (permit_post started b).
Proof. intros Ho s Hs. unfold permit_post, slift. cbn [fst snd]. by rewrite Ho. Qed.

Lemma permit_start a j : started (Ok a) = [j] ->
  triple (permit_at false) (do! smodify (fun s => set_busy s true); sret a) (permit_post started false).
Proof. intros Ha s Hs. unfold permit_post, sbind, smodify, sret. cbn [fst snd]. by rewrite Ha. Qed.

End Triples.

Lemma takes_permit_triple {A} (started : outcome NodeError A -> list Job) m :
  (forall b, triple (permit_at b) m (permit_post started b)) -> takes_permit started m.
Proof. intros Hm s. exact (Hm _ s eq_refl). Qed.

Lemma permit_ret {A} (started : outcome NodeError A -> list Job) b a : started (Ok a) = [] ->
  triple (permit_at b) (sret a) (permit_post started b).
Proof. apply (permit_lift started b (Ok a)). Qed.

(** One step through a handler. *)
Ltac handler_step started :=
  lazymatch goal with
  | |- triple _ (sret _) _ => apply (permit_ret started); reflexivity
  | |- triple _ (slift _) _ => apply (permit_lift started); reflexivity
  | |- triple _ (do! smodify (fun s => set_busy s true); _) _ => fail
  | |- triple _ (sbind sget _) _ => apply (permit_get started); intros ? ?
  | |- triple _ (sbind _ _) _ => apply (permit_step started); [reflexivity|reflexivity|solve [eauto with keeps]|intros ?]
  | |- triple _ (match ?x with _ => _ end) _ => destruct x eqn:?
  end.

(** The job starts where the gate on the permit was passed. *)
Ltac start_step started :=
  destruct (admitted_share_reverify_is_configured cfg); [|discriminate]; cbn [andb negb] in *;
  match goal with |- triple (permit_at ?b) _ _ => replace b with false by congruence end;
  eapply (permit_start started); reflexivity.

Lemma share_takes_permit env submission ip : takes_permit share_started (ingress_prepare_share authorization_of_value cfg env submission ip).
Proof.
  apply takes_permit_triple. intros b. unfold ingress_prepare_share, quarantine, release_reservation.
  repeat handler_step share_started. start_step share_started.
Qed.

Lemma submit_takes_permit env env' io body ip : takes_permit (submit_started body) (submit_phase1 cfg env env' io body ip).
Proof.
  apply takes_permit_triple. intros b. unfold submit_phase1. repeat handler_step (submit_started body). start_step (submit_started body).
Qed.

(** ** The system *)

(** A job is outstanding exactly while the permit is taken, and there is one permit. *)
Definition permit_exact (sv : Served) : Prop :=
  match sv_jobs sv with
  | [] => ls_verifier_busy (sv_state sv) = false
  | [_] => ls_verifier_busy (sv_state sv) = true
  | _ => False
  end.

Lemma started_exact {A} (started : outcome NodeError A -> list Job) m s s' r jobs : takes_permit started m -> m s = (s', r) ->
  permit_exact (mkServed s jobs) -> permit_exact (mkServed s' (started r ++ jobs)).
Proof.
  intros Hm E. specialize (Hm s). rewrite E in Hm. cbn [fst snd] in Hm. unfold permit_exact. cbn [sv_jobs sv_state].
  destruct (started r) as [|j [|]]; [|destruct Hm as [H1 H2]|done]; cbn [app].
  - destruct jobs as [|j' [|]]; congruence.
  - destruct jobs as [|j' [|]]; [done|congruence|done].
Qed.

Lemma finished_exact {A} (m : stm LocalNodeState NodeError A) s s' r j jobs1 jobs2 : release_permit m s = (s', r) ->
  permit_exact (mkServed s (jobs1 ++ j :: jobs2)) -> permit_exact (mkServed s' (jobs1 ++ jobs2)).
Proof.
  unfold release_permit. destruct (m s) as [s1 r1]. intros [= <- _]. unfold permit_exact. cbn [sv_jobs sv_state].
  destruct jobs1 as [|j1 jobs1]; cbn [app]; [by destruct jobs2|]. by destruct jobs1.
Qed.

Lemma step_exact sv sv' : served_step sv sv' -> permit_exact sv -> permit_exact sv'.
Proof.
  intros [env io v s s' r jobs E|env io ck block job s s' r jobs1 jobs2 E|env io vs s s' r jobs E|env io ck c job s s' r jobs1 jobs2 E
         |env sub ip s s' r jobs E|env ck p s s' r jobs1 jobs2 E|env env' io body ip s s' r jobs E|env io ck body p job s s' r jobs1 jobs2 E
         |body p job s jobs1 jobs2|f s jobs Hr].
  - by apply (started_exact _ _ _ _ _ _ (block_takes_permit env io v)).
  - by apply (finished_exact _ _ _ _ _ _ _ E).
  - by apply (started_exact _ _ _ _ _ _ (chain_takes_permit env io vs)).
  - by apply (finished_exact _ _ _ _ _ _ _ E).
  - by apply (started_exact _ _ _ _ _ _ (share_takes_permit env sub ip)).
  - by apply (finished_exact _ _ _ _ _ _ _ E).
  - by apply (started_exact _ _ _ _ _ _ (submit_takes_permit env env' io body ip)).
  - by apply (finished_exact _ _ _ _ _ _ _ E).
  - by apply (finished_exact (sret tt) s _ (Ok tt)).
  - unfold permit_exact. cbn [sv_jobs sv_state]. by rewrite (route_permit (ls_verifier_busy s) f s Hr eq_refl).
Qed.

(** ** The chain *)

Context {LB : NdjsonLaws PersistedBlock (fun _ => True)} {LV : NdjsonLaws Value json_plain}.
Context (config : RuntimeConfig) (reward_path : option string) (registry : FamilyManifestRegistry).
Context (Hroles : roles_distinct cfg reward_path).
(** Where the node keeps bounty rows, blocks and promotions name their bounties. *)
Context (Hblocks : forall v b, block_of_value v = Some b -> named_where_kept cfg b).
Context (Hpromoted : forall pool, promoted_named cfg pool).

Definition job_named (j : Job) : Prop :=
  match j with
  | BlockJob b _ => named_where_kept cfg b
  | ChainJob c _ => chain_named_where_kept cfg c
  | _ => True
  end.

(** The invariant of the system. *)
Record served_ok (sv : Served) : Prop := {
  so_state : state_ok cfg config reward_path registry (sv_state sv);
  so_jobs : Forall job_named (sv_jobs sv);
  so_permit : permit_exact sv
}.

Lemma parsed_named vs c : parse_candidate block_of_value vs = Some c -> chain_named_where_kept cfg c.
Proof.
  unfold parse_candidate. intros H Hpath. apply mapM_Some_1 in H. clear -H Hblocks Hpath.
  induction H as [|v b vs c Hv H IH]; constructor; [by apply (Hblocks v)|done].
Qed.

Lemma block_job_named env io v s s' r : state_ok cfg config reward_path registry s ->
  ingest_block_phase1 block_of_value cfg env io v s = (s', r) -> Forall job_named (block_started r).
Proof.
  intros Hs. unfold ingest_block_phase1, sbind at 1. destruct (prepare_announced_block _ _ _ _ s) as [s1 o] eqn:E.
  destruct (prepare_block_result _ _ _ _ _ env v s s1 o Hs E) as (_ & _ & Hj). destruct o as [[o|b skip|b job]|e|].
  - by intros [= <- <-].
  - unfold sbind. destruct (commit_announced_block _ _ _ _ _ _ s1) as [s2 [x|e|]]; by intros [= <- <-].
  - intros [= <- <-]. repeat constructor. by apply (Hblocks v), (Hj b job).
  - by intros [= <- <-].
  - by intros [= <- <-].
Qed.

Lemma chain_job_named env io vs s s' r :
  ingest_chain_phase1 block_of_value cfg env io vs s = (s', r) -> Forall job_named (chain_started r).
Proof.
  unfold ingest_chain_phase1, sbind at 1, prepare_candidate_chain.
  destruct (bool_decide _); [by intros [= <- <-]|]. destruct (negb _); [by intros [= <- <-]|].
  destruct (parse_candidate block_of_value vs) as [c|] eqn:Ep; [|by intros [= <- <-]].
  destruct (preflight_reorg_candidate _ _ _ _) as [[h|]| |]; [|by intros [= <- <-]..].
  destruct (candidate_chain_reverify_job _ _ _) as [job|].
  - destruct (ls_verifier_busy s); intros [= <- <-]; [done|]. repeat constructor. by apply (parsed_named vs).
  - unfold sbind. destruct (commit_candidate_chain _ _ _ _ s) as [s2 [x|e|]]; by intros [= <- <-].
Qed.

Lemma route_ok f s : route f -> state_ok cfg config reward_path registry s -> state_ok cfg config reward_path registry (f s).
Proof.
  intros Hr. revert s. destruct Hr; intros s Hs;
    [by apply session_register_keeps|by apply session_revoke_keeps|by apply receipt_post_keeps|by apply bounty_announce_keeps
    |by apply bounty_status_keeps|by apply bounty_proof_keeps|by apply ticket_keeps].
Qed.

Lemma keeps_run {E A} P (m : stm LocalNodeState E A) s s' r : keeps P m -> m s = (s', r) -> P s -> P s'.
Proof. intros Hm E' Hs. specialize (Hm s Hs). by rewrite E' in Hm. Qed.

Lemma step_ok sv sv' : served_step sv sv' -> served_ok sv -> served_ok sv'.
Proof.
  intros Hstep [Hs Hj Hp]. pose proof (step_exact sv sv' Hstep Hp) as Hp'. split; [| |done]; clear Hp Hp'.
  - destruct Hstep as [env io v s s' r jobs E|env io ck block job s s' r jobs1 jobs2 E|env io vs s s' r jobs E
      |env io ck c job s s' r jobs1 jobs2 E|env sub ip s s' r jobs E|env ck p s s' r jobs1 jobs2 E|env env' io body ip s s' r jobs E
      |env io ck body p job s s' r jobs1 jobs2 E|body p job s jobs1 jobs2|f s jobs Hr]; cbn [sv_state sv_jobs] in *;
      try (apply Forall_app in Hj as [_ Hj]; apply Forall_cons in Hj as [Hj _]).
    + exact (keeps_run _ _ _ _ _ (block_phase1_keeps _ _ _ _ _ Hroles env io v (fun b => Hblocks v b)) E Hs).
    + exact (keeps_run _ _ _ _ _ (block_phase2_keeps _ _ _ _ Hroles env io ck block job Hj) E Hs).
    + exact (keeps_run _ _ _ _ _ (chain_phase1_keeps _ _ _ _ _ Hroles env io vs (fun c => parsed_named vs c)) E Hs).
    + exact (keeps_run _ _ _ _ _ (chain_phase2_keeps _ _ _ _ Hroles env io ck c job Hj) E Hs).
    + exact (keeps_run _ _ _ _ _ (share_phase1_keeps _ _ _ _ _ env sub ip) E Hs).
    + exact (keeps_run _ _ _ _ _ (share_phase2_keeps _ _ _ _ env ck p) E Hs).
    + exact (keeps_run _ _ _ _ _ (submit_phase1_keeps _ _ _ _ Hroles Hpromoted env env' io body ip) E Hs).
    + exact (keeps_run _ _ _ _ _ (submit_phase3_keeps _ _ _ _ Hroles Hpromoted env io ck body p job) E Hs).
    + exact Hs.
    + by apply route_ok.
  - destruct Hstep; cbn [sv_state sv_jobs] in *; try (apply Forall_app in Hj as [Hj1 Hj]; apply Forall_cons in Hj as [_ Hj2];
      by apply Forall_app); [| | | |done]; (apply Forall_app; split; [|done]).
    + by eapply block_job_named.
    + by eapply chain_job_named.
    + unfold share_started. destruct r as [[]| |]; repeat constructor.
    + unfold submit_started. destruct r as [[]| |]; repeat constructor.
Qed.

Lemma steps_ok sv sv' : rtc served_step sv sv' -> served_ok sv -> served_ok sv'.
Proof. induction 1 as [|sv sv1 sv2 H1 _ IH]; [done|]. intros H. by apply IH, (step_ok sv). Qed.


End Served.

(** ** Witness *)

From S2P Require Import Concrete ConcreteLines ConcreteStores.

Module ServedDemo.
#[export] Instance checkpoint_lines : Ndjson VerifiedPrefixCheckpoint := { nd_encode _ := [x31]; nd_decode _ := None }.
#[export] Instance session_lines : Ndjson SessionEvent := { nd_encode _ := [x31]; nd_decode _ := None }.
#[export] Instance receipt_lines : Ndjson ReceiptCommitment := { nd_encode _ := [x31]; nd_decode _ := None }.
#[export] Instance dedup_lines : Ndjson ProofDedupEvent := { nd_encode _ := [x31]; nd_decode _ := None }.
#[export] Instance nonce_lines : Ndjson NonceEvent := { nd_encode _ := [x31]; nd_decode _ := None }.
#[export] Instance signed_lines : Ndjson SignedNonceEvent := { nd_encode _ := [x31]; nd_decode _ := None }.

(** A node without optional ledgers, checker or peers. *)
Definition cfg : LocalNodeFields :=
  mkFields ReplayDemo.zeros "" "blocks" "checkpoint" None NodeDemo.registry [] None None None None None None None LEGACY_UNNAMED_FALLBACK_NETWORK_ID false true false ["blocks"].
Definition spec : GenesisSpec := genesis_spec NodeDemo.config LEGACY_UNNAMED_FALLBACK_NETWORK_ID ReplayDemo.zeros.
Definition fresh : RuntimeAdmissionState := runtime_new NodeDemo.config.
Definition node : Node :=
  mkNode (mkRuntime NodeDemo.config (rt_rate_limiter fresh) (rt_pool fresh) (Some ReplayDemo.zeros) [] [] None None
    NodeDemo.registry (Some spec) None None) NodeDemo.host.
Definition start : LocalNodeState := mkLocalNode node None bounty_registry_new side_pool_new None None None None None false [].

Definition env : Env := mkEnv 1000 true true (fun _ => true).
Definition io : BlockIo := mkBlockIo (mkPublishIo append_ok append_ok) read_ok (fun _ => append_ok) (fun _ => append_ok) true rewrite_ok.
Definition parse (v : Value) : option PersistedBlock := match v with VNull => Some ReplayDemo.block | _ => None end.
Definition announced : LocalNodeState * outcome NodeError (IngressBlockOutcome + PersistedBlock * IngestedBlockReverifyJob) :=
  ingest_block_phase1 parse cfg env io VNull start.
Definition ticketed : LocalNodeState := (ticket_handler cfg env (Some VNull) announced.1).1.
End ServedDemo.
Import ServedDemo.

Lemma demo_roles : roles_distinct ServedDemo.cfg None.
Proof. by split. Qed.

Lemma demo_state_ok : state_ok ServedDemo.cfg NodeDemo.config None NodeDemo.registry ServedDemo.start.
Proof.
  assert (Hok : is_ok (node_contract ServedDemo.cfg NodeDemo.config NodeDemo.registry []) = true) by reflexivity.
  split; [by split| |].
  - intros _. destruct (is_ok_Ok _ Hok) as [res Hres]. exists [], res.
    split; try reflexivity; [exact Hres|by vm_compute in Hres; injection Hres as <-|intros _; constructor].
  - exists [], []. split_and!; [set_solver|reflexivity|exact Hok|intros _; constructor].
Qed.

Lemma demo_started : rtc (served_step ServedDemo.parse (fun _ => None) (fun _ => None) (fun _ => None) ServedDemo.cfg)
  (mkServed ServedDemo.start []) (mkServed ServedDemo.ticketed (block_started ServedDemo.announced.2 ++ [])).
Proof.
  eapply rtc_l; [apply (start_block _ _ _ _ _ ServedDemo.env ServedDemo.io VNull); apply surjective_pairing|].
  apply rtc_once. apply (run_route _ _ _ _ _ (fun s => (ticket_handler ServedDemo.cfg ServedDemo.env (Some VNull) s).1)). constructor.
Qed.

