(* ===== verification/PeerFacts.v ===== *)
(** * What a peer can and cannot do to a node

    Theorems on the connections of PeerSync.v, for every behaviour of the peer
    (its bytes, in any pieces), of the clock and of the other threads: a sync
    round ends within its budget, requests are served without a panic and fit
    the wire, and no connection breaks the invariant of the chain. *)

From S2P Require Import Prelude Hoare Json Externals Hash Block BlockBuilder Difficulty Config ShareAuthorization FamilyManifest Bounty.
From S2P Require Import ReplayEvidence Replay SharePool RateLimiter Admission Durability BountyLedger Stores Runtime EventStores Receipts.
From S2P Require Import HttpRateLimit P2pWire Validator SubmitGate ShareVerifier LocalNode LocalSubmit PeerSync.
From S2P Require Import RuntimeFacts RuntimeTheorems LocalNodeFacts ServedNode.

(** ** Budgets *)

(** The limits are those of a round and nothing was charged past them. *)
Record within_round (b : SyncBudget) : Prop := {
  wr_block_limit : sb_block_limit b = MAX_SYNC_BLOCKS_PER_PEER_ROUND;
  wr_wire_limit : sb_wire_byte_limit b = MAX_SYNC_WIRE_BYTES_PER_PEER_ROUND;
  wr_response_limit : sb_response_limit b = MAX_SYNC_RESPONSES_PER_PEER_ROUND;
  wr_blocks : sb_used_blocks b <= MAX_SYNC_BLOCKS_PER_PEER_ROUND;
  wr_wire : sb_used_wire_bytes b <= MAX_SYNC_WIRE_BYTES_PER_PEER_ROUND;
  wr_responses : sb_used_responses b <= MAX_SYNC_RESPONSES_PER_PEER_ROUND
}.

Lemma for_peer_round_within now : within_round (for_peer_round now).
Proof. by split. Qed.

Lemma saturating_within a b limit : limit < u64_max -> saturating_add a b <= limit -> saturating_add a b = a + b.
Proof. unfold saturating_add. lia. Qed.

(** What a charge does. *)
Lemma charge_response_Ok b requested returned wire b' : within_round b -> charge_response b requested returned wire = Ok b' ->
  within_round b' /\ sb_deadline b' = sb_deadline b /\ returned <= requested /\ sb_used_blocks b' = sb_used_blocks b + returned /\
  sb_used_wire_bytes b' = sb_used_wire_bytes b + wire /\ sb_used_responses b' = sb_used_responses b + 1.
Proof.
  intros [L1 L2 L3 _ _ _]. unfold charge_response. rewrite L1, L2, L3. intros H.
  repeat match type of H with context [ensure (?x <=? ?y) _] =>
    let E := fresh "E" in destruct (x <=? y) eqn:E; [|discriminate H]; apply N.leb_le in E end.
  injection H as <-. cbn [sb_block_limit sb_wire_byte_limit sb_response_limit sb_used_blocks sb_used_wire_bytes sb_used_responses sb_deadline].
  pose proof (saturating_within _ _ _ (eq_refl : MAX_SYNC_BLOCKS_PER_PEER_ROUND < u64_max) E0).
  pose proof (saturating_within _ _ _ (eq_refl : MAX_SYNC_WIRE_BYTES_PER_PEER_ROUND < u64_max) E1).
  pose proof (saturating_within _ _ _ (eq_refl : MAX_SYNC_RESPONSES_PER_PEER_ROUND < u64_max) E2). by split_and!.
Qed.

(** ** Steps of a round *)

(** Within the round's limits, at least [n] responses charged, and every byte
    of the stream (of [total] bytes) consumed so far is charged. *)
Record budgeted (total n : N) (p : Peering) : Prop := {
  bu_within : within_round (pe_budget p);
  bu_responses : n <= sb_used_responses (pe_budget p);
  bu_bytes : len (stream (pe_input p)) + sb_used_wire_bytes (pe_budget p) = total
}.

(** A step ended with fuel left and within the limits. *)
Definition round_result {A} (Q : A -> Peering -> Prop) (r : outcome SyncRoundError A) (p : Peering) : Prop :=
  r <> Err OutOfFuel /\ within_round (pe_budget p) /\ forall a, r = Ok a -> Q a p.

Lemma round_bind {A B} (P : Peering -> Prop) (m : stm Peering SyncRoundError A) (f : A -> stm Peering SyncRoundError B) R Q :
  triple P m (round_result R) -> (forall a, triple (R a) (f a) (round_result Q)) -> triple P (sbind m f) (round_result Q).
Proof.
  intros Hm Hf. apply (triple_bind _ _ _ (round_result R) _ Hm).
  - intros a p (_ & _ & HR). by apply Hf, HR.
  - intros p e (H1 & H2 & _). split_and!; [congruence|done|done].
  - intros p (_ & H2 & _). by split_and!.
Qed.

Lemma budgeted_weaken total n m p : m <= n -> budgeted total n p -> budgeted total m p.
Proof. intros Hm []. split; [done|lia|done]. Qed.

(** A step that reads nothing from the peer and charges nothing. *)
Definition quiet {A} (m : stm Peering SyncRoundError A) : Prop := forall p,
  pe_budget (m p).1 = pe_budget p /\ pe_input (m p).1 = pe_input p /\ (m p).2 <> Err OutOfFuel.

Lemma quiet_bind {A B} (m : stm Peering SyncRoundError A) (f : A -> stm Peering SyncRoundError B) :
  quiet m -> (forall a, quiet (f a)) -> quiet (sbind m f).
Proof.
  intros Hm Hf p. specialize (Hm p). unfold sbind. destruct (m p) as [p1 [a|e|]]; cbn [fst snd] in *; [|naive_solver..].
  destruct Hm as (<- & <- & _). apply Hf.
Qed.

Lemma quiet_step {A} total n (m : stm Peering SyncRoundError A) : quiet m ->
  triple (budgeted total n) m (round_result (fun _ => budgeted total n)).
Proof.
  intros Hm p Hp. destruct (Hm p) as (H1 & H2 & H3). destruct Hp as [P1 P2 P3].
  split_and!; [done|by rewrite H1|]. intros a _. split; [by rewrite H1|by rewrite H1|by rewrite H1, H2].
Qed.

Lemma quiet_ret {A} (a : A) : quiet (sret a).
Proof. done. Qed.

Lemma quiet_ensure b e : e <> OutOfFuel -> quiet (slift (ensure b e)).
Proof. intros He p. destruct b; split_and!; try done. cbn. congruence. Qed.

Lemma quiet_map {E A} (f : E -> SyncRoundError) (o : outcome E A) : (forall e, f e <> OutOfFuel) -> quiet (slift (map_err f o)).
Proof. intros Hf p. destruct o; split_and!; try done. cbn. naive_solver. Qed.

Lemma quiet_get : quiet sget.
Proof. done. Qed.

Lemma quiet_node {A} (m : stm LocalNodeState NodeError A) : quiet (on_pe_node m).
Proof. intros p. unfold on_pe_node. destruct (m (pe_node p)) as [s [a|e|]]; by split_and!. Qed.

Create HintDb quiet.
#[export] Hint Resolve quiet_ret quiet_get quiet_node : quiet.

(** Binds and case distinctions are split, the steps are found in the database. *)
Ltac quiet_step_tac :=
  first
    [ solve [eauto with quiet]
    | apply quiet_bind; [|intros ?]
    | match goal with |- quiet (match ?x with _ => _ end) => destruct x end
    | match goal with |- quiet (let '_ := ?x in _) => destruct x end ].
Ltac quiet_tac := repeat quiet_step_tac.

Section Rounds.
Context {X : Externals}.
Context {NB : Ndjson PersistedBlock} {NR : Ndjson PersistedRewardEvent} {NV : Ndjson Value} {ND : Ndjson ProofDedupEvent}.
Context {NC : Ndjson VerifiedPrefixCheckpoint} {NN : Ndjson NonceEvent} {NF : Ndjson Frame}.
Context (block_of_value : Value -> option PersistedBlock).
Context (cfg : LocalNodeFields) (identity : P2pIdentity) (moments : nat -> Moment).

Lemma quiet_tick : quiet (tick moments).
Proof. done. Qed.

Lemma quiet_check f : quiet (check_budget moments f).
Proof. unfold check_budget. apply quiet_bind; [apply quiet_tick|intros m]. apply quiet_bind; [done|intros p]. by apply quiet_map. Qed.

Lemma quiet_send f : quiet (smap_err SyncPeer (send moments f)).
Proof.
  intros p. unfold smap_err, send, sbind, tick, on_output. cbn [fst snd].
  destruct (send_frame _ _) as [bytes [a|e|]]; split_and!; try done; cbn; congruence.
Qed.

#[local] Hint Resolve quiet_tick quiet_check quiet_send : quiet.

Lemma quiet_permit : quiet (mutation_permit moments).
Proof. unfold mutation_permit. quiet_tac. Qed.

Lemma quiet_block v : quiet (ingest_announced_block_shared block_of_value cfg moments v).
Proof. unfold ingest_announced_block_shared. quiet_tac. Qed.

Lemma quiet_chain vs : quiet (ingest_candidate_chain_shared block_of_value cfg moments vs).
Proof. unfold ingest_candidate_chain_shared. quiet_tac. Qed.

Lemma quiet_head : quiet (live_head cfg).
Proof. unfold live_head. quiet_tac. Qed.

#[local] Hint Resolve quiet_permit quiet_block quiet_chain quiet_head : quiet.

(** What a received frame consumed, before it is charged. *)
Lemma recv_step total n : triple (budgeted total n) (recv_sync_frame moments) (fun r p => r <> Err OutOfFuel /\
  within_round (pe_budget p) /\ forall f wire, r = Ok (f, wire) ->
    n <= sb_used_responses (pe_budget p) /\ len (stream (pe_input p)) + wire + sb_used_wire_bytes (pe_budget p) = total).
Proof.
  unfold recv_sync_frame. apply (triple_bind _ _ _ (round_result (fun _ => budgeted total n))); [apply quiet_step; eauto with quiet|..].
  - intros [] p (_ & _ & Hp). destruct (Hp tt eq_refl) as [Hw Hn Hb]. unfold sbind, sget. cbn [fst snd].
    unfold smap_err, recv_until, sbind, tick, on_input. cbn [fst snd pe_input pe_budget].
    destruct (recv_frame_counted_until _ _ _ _) as [input r] eqn:E. destruct r as [[f wire]|e|]; cbn [fst snd map_err set_pe_input pe_budget pe_input].
    + split_and!; [done|done|]. intros f' wire' [= <- <-]. split; [done|]. apply received_bytes in E. lia.
    + split_and!; [destruct e; cbn; congruence|done|done].
    + by split_and!.
  - intros p e (H1 & H2 & _). split_and!; [congruence|done|done].
  - intros p (_ & H2 & _). by split_and!.
Qed.

(** A pull that gives blocks was charged. *)
Lemma pull_step total n from to requested : triple (budgeted total n) (pull_blocks moments from to requested)
  (round_result (fun bs p => budgeted total (n + 1) p /\ len bs <= requested)).
Proof.
  unfold pull_blocks. do 2 (eapply round_bind; [apply quiet_step; eauto with quiet|intros []]).
  eapply triple_bind; [apply recv_step|..].
  - intros [f wire] p (_ & Hw & Hp). destruct (Hp f wire eq_refl) as [Hn Hb].
    destruct f as [| | | |bs| |]; try (split_and!; cbn; [congruence|done|done]).
    unfold sbind, charge_sync_response. destruct (charge_response _ _ _ _) as [b|e|] eqn:E; cbn [charged map_err fst snd set_pe_budget pe_budget].
    + destruct (charge_response_Ok _ _ _ _ _ Hw E) as (W & _ & R & _ & B & C). split_and!; [done|done|]. intros bs' [= <-].
      split; [|done]. split; cbn [fst sret set_pe_budget pe_budget pe_input]; [done|lia|lia].
    + split_and!; [destruct e; cbn; congruence|done|done].
    + by split_and!.
  - intros p e (H1 & H2 & _). split_and!; [congruence|done|done].
  - intros p (_ & H2 & _). by split_and!.
Qed.

Lemma out_step {A} total n (e : SyncRoundError) : e <> OutOfFuel ->
  triple (budgeted total n) (slift (A:=A) (Err e)) (round_result (fun _ => budgeted total n)).
Proof. intros He p []. split_and!; [cbn; congruence|done|done]. Qed.

Lemma ret_step {A} total n m (a : A) : m <= n -> triple (budgeted total n) (sret a) (round_result (fun _ => budgeted total m)).
Proof. intros Hm p Hp. split_and!; [done|by destruct Hp|]. intros ? _. by eapply budgeted_weaken. Qed.

(** The range loop ends: each turn charges a response. *)
Lemma fetch_step total upto : forall fuel n next collected, MAX_SYNC_RESPONSES_PER_PEER_ROUND < N.of_nat fuel + n ->
  triple (budgeted total n) (fetch_block_range moments fuel next upto collected) (round_result (fun _ => budgeted total n)).
Proof.
  induction fuel as [|fuel IH]; intros n next collected Hf; cbn [fetch_block_range]; (destruct (upto <=? next); [by apply ret_step|]).
  { intros p [Hw Hn _]. pose proof (wr_responses _ Hw). lia. }
  eapply round_bind; [apply quiet_step; eauto with quiet|intros m].
  eapply round_bind; [apply quiet_step, quiet_ensure; done|intros []].
  eapply round_bind; [apply quiet_step; eauto with quiet|intros []].
  eapply round_bind; [apply quiet_step; eauto with quiet|intros q].
  eapply round_bind; [apply pull_step|intros bs].
  intros p [Hp _]. destruct (bool_decide (bs = [])); [apply (ret_step total (n + 1)); [lia|done]|].
  destruct (IH (n + 1) (next + len bs) (collected ++ bs) ltac:(lia) p Hp) as (H1 & H2 & H3). split_and!; [done|done|].
  intros a Ha. apply (budgeted_weaken total (n + 1)); [lia|by apply (H3 a)].
Qed.

Lemma reorg_step total fuel n peer_head : MAX_SYNC_RESPONSES_PER_PEER_ROUND < N.of_nat fuel + n ->
  triple (budgeted total n) (reorg_from_peer block_of_value cfg moments fuel peer_head) (round_result (fun _ => budgeted total n)).
Proof.
  intros Hf. unfold reorg_from_peer. eapply round_bind; [apply quiet_step, quiet_get|intros q].
  eapply round_bind; [by apply quiet_step, quiet_ensure|intros []].
  eapply round_bind; [by apply fetch_step|intros candidate]. destruct (bool_decide _); [by apply ret_step|].
  eapply round_bind; [by apply quiet_step, quiet_map|intros []].
  eapply round_bind; [apply quiet_step; eauto with quiet|intros permit]. destruct (negb permit); [by apply ret_step|].
  eapply round_bind; [apply quiet_step; eauto with quiet|intros o]. destruct o; [by apply ret_step..|by apply out_step|by apply ret_step].
Qed.

Lemma page_step total fuel n peer_head : MAX_SYNC_RESPONSES_PER_PEER_ROUND < N.of_nat fuel + n -> forall blocks,
  triple (budgeted total n) (ingest_page block_of_value cfg moments fuel peer_head blocks) (round_result (fun _ => budgeted total n)).
Proof.
  intros Hf. induction blocks as [|v blocks IH]; cbn [ingest_page]; [by apply ret_step|].
  eapply round_bind; [apply quiet_step; eauto with quiet|intros permit]. destruct (negb permit); [by apply ret_step|].
  eapply round_bind; [apply quiet_step; eauto with quiet|intros o]. destruct o; [done| |by apply out_step|by apply ret_step].
  eapply round_bind; [by apply reorg_step|intros []; by apply ret_step].
Qed.

Lemma pages_step total peer_head : forall fuel n first, MAX_SYNC_RESPONSES_PER_PEER_ROUND + 1 < N.of_nat fuel + n ->
  triple (budgeted total n) (sync_pages block_of_value cfg moments fuel peer_head first) (round_result (fun _ => budgeted total n)).
Proof.
  induction fuel as [|fuel IH]; intros n first Hf; cbn [sync_pages].
  { intros p [Hw Hn _]. pose proof (wr_responses _ Hw). lia. }
  eapply round_bind; [apply quiet_step; eauto with quiet|intros m]. destruct (mo_stopped m); [by apply ret_step|].
  eapply round_bind; [apply quiet_step; eauto with quiet|intros head]. destruct (bool_decide _); [by apply ret_step|].
  destruct (_ <=? _); [apply reorg_step; lia|].
  eapply round_bind; [apply quiet_step; eauto with quiet|intros []].
  eapply round_bind; [apply quiet_step; eauto with quiet|intros q]. destruct (_ =? 0); [by apply ret_step|].
  eapply round_bind; [apply pull_step|intros bs]. intros p [Hp _].
  destruct (bool_decide (bs = [])); [apply (ret_step total (n + 1)); [lia|done]|].
  revert p Hp. eapply round_bind; [apply page_step; lia|intros go_on]. destruct go_on; [|apply ret_step; lia].
  intros p Hp. destruct (IH (n + 1) false ltac:(lia) p Hp) as (H1 & H2 & H3). split_and!; [done|done|].
  intros a Ha. apply (budgeted_weaken total (n + 1)); [lia|by apply (H3 a)].
Qed.

(** The handshake charges nothing, and gives the size of the peer's hello. *)
Lemma open_step b input remaining deadline head :
  triple (fun p => pe_budget p = b /\ pe_input p = input) (open_validated_conn identity moments remaining deadline head)
    (fun r p => pe_budget p = b /\ forall c, r = Ok c -> len (stream input) = vc_peer_hello_wire_bytes c + len (stream (pe_input p))).
Proof.
  set (P := fun p => pe_budget p = b /\ pe_input p = input).
  assert (Hq : forall A (m : stm Peering FrameError A) (f : A -> stm Peering FrameError ValidatedConn) Q, keeps P m ->
    (forall a, triple P (f a) (fun r p => pe_budget p = b /\ Q r p)) -> (forall e p, Q (Err e) p) -> (forall p, Q Panic p) ->
    triple P (sbind m f) (fun r p => pe_budget p = b /\ Q r p)).
  { intros A m f Q Hm Hf He Hp. apply (triple_bind _ _ _ _ _ Hm); [done|by intros p e [H _]|by intros p [H _]]. }
  assert (Ht : keeps P (tick moments (E:=FrameError))) by (intros p Hp; exact Hp).
  unfold open_validated_conn. do 2 (apply Hq; [done|intros ?|done|done]; apply Hq; [apply keeps_lift|intros []|done|done]).
  apply Hq; [apply keeps_lift|intros []|done|done]. apply Hq; [done|intros ?|done|done].
  do 2 (apply Hq; [apply keeps_lift|intros []|done|done]).
  apply Hq; [|intros []|done|done].
  { intros p Hp. unfold send_until, sbind, tick, on_output. by destruct (send_frame_until _ _ _ _). }
  intros p [Hb Hi]. unfold recv_until, on_input, sbind, tick. cbn [fst snd pe_input pe_budget]. rewrite Hi.
  destruct (recv_frame_counted_until _ _ _ _) as [input' [[f wire]|e|]] eqn:E; [|done..]. apply received_bytes in E.
  destruct (identity_matches identity f); [|done]. cbn. destruct f; split_and!; try done. by intros c [= <-].
Qed.

Lemma quiet_clear peer head : quiet (clear_bootstrap_observation_if_mismatched cfg moments peer head).
Proof. unfold clear_bootstrap_observation_if_mismatched. quiet_tac. by intros p. Qed.

(** The round after its budget is set. *)
Lemma round_tail fuel peer my_head budget input : (65 <= fuel)%nat -> within_round budget -> sb_used_wire_bytes budget = 0 ->
  triple (fun q => pe_budget q = budget /\ pe_input q = input)
    (do! check_budget moments ensure_before_receive;
     let! conn := smap_err (open_error budget)
       (open_validated_conn identity moments (remaining_wire_bytes budget) (sb_deadline budget) my_head) in
     do! charge_sync_response 0 0 (vc_peer_hello_wire_bytes conn);
     do! clear_bootstrap_observation_if_mismatched cfg moments peer (vc_peer_head conn);
     do! sync_pages block_of_value cfg moments fuel (vc_peer_head conn) true;
     sret (vc_peer_head conn))
    (round_result (fun _ => budgeted (len (stream input)) 1)).
Proof.
  intros Hfuel Hw H0.
  apply (round_bind _ _ _ (fun _ q => pe_budget q = budget /\ pe_input q = input)); [|intros []].
  { intros q [Hb Hi]. destruct (quiet_check ensure_before_receive q) as (Q1 & Q2 & Q3).
    split_and!; [done|by rewrite Q1, Hb|]. intros _ _. by rewrite Q1, Q2. }
  apply (round_bind _ _ _ (fun c q => pe_budget q = budget /\ len (stream input) = vc_peer_hello_wire_bytes c + len (stream (pe_input q)))).
  { intros q Hq. pose proof (open_step _ _ (remaining_wire_bytes budget) (sb_deadline budget) my_head q Hq) as [O1 O2].
    unfold smap_err. destruct (open_validated_conn _ _ _ _ _ q) as [q' [c|e|]]; cbn [fst snd map_err] in *; subst budget.
    - split_and!; [done|done|]. intros c' [= <-]. split; [done|by apply O2].
    - split_and!; [destruct e; cbn; congruence|done|done].
    - by split_and!. }
  intros c. apply (round_bind _ _ _ (fun _ => budgeted (len (stream input)) 1)).
  { intros q [Hb Hs]. unfold charge_sync_response. rewrite Hb. destruct (charge_response _ _ _ _) as [b|e|] eqn:E;
      cbn [charged map_err fst snd]; [|split_and!; [destruct e; cbn; congruence|by rewrite Hb|done]|by rewrite <- Hb in Hw; split_and!].
    destruct (charge_response_Ok _ _ _ _ _ Hw E) as (W & _ & _ & _ & B & C). split_and!; [done|done|]. intros ? _.
    split; cbn [set_pe_budget pe_budget pe_input]; [done|lia|lia]. }
  intros []. eapply round_bind; [apply quiet_step, quiet_clear|intros []].
  eapply round_bind; [apply pages_step; unfold MAX_SYNC_RESPONSES_PER_PEER_ROUND; lia|intros []]. by apply ret_step.
Qed.


End Rounds.

(** ** A connection ends *)

Section Ends.
Context {X : Externals}.
Context {NB : Ndjson PersistedBlock} {NR : Ndjson PersistedRewardEvent} {NV : Ndjson Value} {ND : Ndjson ProofDedupEvent}.
Context {NC : Ndjson VerifiedPrefixCheckpoint} {NN : Ndjson NonceEvent} {NF : Ndjson Frame}.
Context (value_of_block : PersistedBlock -> Value) (block_of_value : Value -> option PersistedBlock).
Context (authorization_of_value : Value -> option ShareWorkAuthorization).
Context (cfg : LocalNodeFields) (identity : P2pIdentity) (moments : nat -> Moment).

(** At most [n] bytes are left, and fuel was not what ended the step. *)
Definition left_at_most (n : N) (p : Peering) : Prop := len (stream (pe_input p)) <= n.
Definition ends {A} (m : stm Peering ServeEnd A) : Prop := forall n,
  triple (left_at_most n) m (fun r p => left_at_most n p /\ r <> Err ServeOutOfFuel).

Lemma ends_bind {A B} (m : stm Peering ServeEnd A) (f : A -> stm Peering ServeEnd B) : ends m -> (forall a, ends (f a)) -> ends (sbind m f).
Proof.
  intros Hm Hf n. apply (triple_bind _ _ _ _ _ (Hm n)); [|intros p e [H1 H2]; split; [done|congruence]|by intros p [H1 _]].
  intros a p [Hp _]. by apply Hf.
Qed.

Lemma ends_ret {A} (a : A) : ends (sret a).
Proof. by intros n p Hp. Qed.

Lemma ends_lift {A} (o : outcome ServeEnd A) : o <> Err ServeOutOfFuel -> ends (slift o).
Proof. by intros Ho n p Hp. Qed.

Lemma ends_tick : ends (tick moments).
Proof. by intros n p Hp. Qed.

Lemma ends_get : ends sget.
Proof. by intros n p Hp. Qed.

Lemma ends_node {A} (m : stm LocalNodeState NodeError A) : ends (on_pe_node m).
Proof. intros n p Hp. unfold on_pe_node. by destruct (m (pe_node p)) as [s [a|e|]]. Qed.

Lemma ends_reply deadline f : ends (reply moments deadline f).
Proof.
  intros n p Hp. unfold reply, smap_err, send_until, sbind, tick, on_output. cbn [fst snd].
  destruct (send_frame_until _ _ _ _) as [bytes [a|e|]]; by split.
Qed.

(** A received frame takes at least one byte. *)
Lemma recv_limited_end ip deadline n : triple (left_at_most n) (recv_frame_limited moments ip deadline)
  (fun r p => left_at_most n p /\ r <> Err ServeOutOfFuel /\ forall f, r = Ok f -> left_at_most (n - 1) p /\ 0 < n).
Proof.
  intros p Hp. unfold recv_frame_limited, smap_err, recv_until, sbind, tick, on_input, sget. cbn [fst snd pe_input].
  pose proof (recv_until_shrinks (mo_read_clock (moments (pe_tick p))) MAX_FRAME_BYTES deadline (pe_input p)) as Hs.
  destruct (recv_frame_counted_until _ _ _ _) as [input [[f wire]|e|]] eqn:E; cbn [fst snd map_err] in *.
  - pose proof (received_bytes _ _ _ _ _ _ _ E) as Hb. pose proof (receive_positive _ _ _ _ _ _ _ E) as Hw.
    assert (H1 : len (stream input) <= n) by (unfold left_at_most in Hp; lia).
    assert (H2 : len (stream input) <= n - 1 /\ 0 < n) by (unfold left_at_most in Hp; lia).
    cbn [set_pe_input pe_limiter]. destruct (pe_limiter p) as [l|]; [|by split_and!].
    destruct (http_admit l ip _) as [l' []]; by split_and!.
  - assert (H1 : len (stream input) <= n) by (unfold left_at_most in Hp; lia). split_and!; [done|destruct e; cbn; congruence|done].
  - assert (H1 : len (stream input) <= n) by (unfold left_at_most in Hp; lia). by split_and!.
Qed.

Lemma ends_recv ip deadline : ends (recv_frame_limited moments ip deadline).
Proof. intros n. eapply triple_conseq; [apply recv_limited_end|done|]. by intros r p (H1 & H2 & _). Qed.

#[local] Hint Resolve ends_ret ends_tick ends_get ends_node ends_reply ends_recv : keeps.

Ltac ends_step :=
  first
    [ match goal with |- ends (sbind _ _) => apply ends_bind; [|intros ?] end
    | solve [eauto with keeps]
    | match goal with |- ends (match ?x with _ => _ end) => destruct x end
    | apply ends_lift; discriminate
    | apply ends_lift; repeat case_match; discriminate ].

Lemma ends_begin : ends (begin_mutation moments).
Proof. unfold begin_mutation. repeat ends_step. destruct (negb _); by apply ends_lift. Qed.

Lemma ends_block v : ends (ingest_announced_block_shared block_of_value cfg moments v).
Proof. unfold ingest_announced_block_shared. repeat ends_step. Qed.

Lemma ends_share v ip : ends (ingress_admit_share_shared authorization_of_value cfg moments v ip).
Proof. unfold ingress_admit_share_shared. repeat ends_step. Qed.

Lemma ends_head : ends (live_head cfg).
Proof. unfold live_head. repeat ends_step. Qed.

#[local] Hint Resolve ends_begin ends_block ends_share ends_head : keeps.

Lemma ends_pull ip deadline height c : ends (pull_announced moments ip deadline height c).
Proof. unfold pull_announced. repeat ends_step. destruct (bool_decide _); by apply ends_lift. Qed.

#[local] Hint Resolve ends_pull : keeps.

Lemma ends_serve roots ip deadline f :
  ends (serve_frame value_of_block block_of_value authorization_of_value cfg moments roots ip deadline f).
Proof.
  unfold serve_frame. repeat ends_step. apply ends_lift. unfold blocks_range_values, slice_inclusive.
  by repeat case_match.
Qed.

Lemma serve_frames_end roots ip deadline : forall fuel n, n < N.of_nat fuel ->
  triple (left_at_most n) (serve_frames value_of_block block_of_value authorization_of_value cfg moments roots ip deadline fuel)
    (fun r _ => r <> Err ServeOutOfFuel).
Proof.
  induction fuel as [|fuel IH]; intros n Hn; [lia|]. cbn [serve_frames].
  eapply triple_bind; [apply ends_tick|intros m|intros p e [_ H]; congruence|done]. destruct (mo_stopped m); [by intros p _|].
  eapply triple_bind; [intros p [Hp _]; exact (recv_limited_end ip deadline n p Hp)|intros f|intros p e (_ & H & _); congruence|done].
  intros p (_ & _ & Hf). destruct (Hf f eq_refl) as [Hp Hpos].
  assert (Hrest : triple (left_at_most (n - 1)) (do! serve_frame value_of_block block_of_value authorization_of_value cfg moments roots ip
    deadline f; serve_frames value_of_block block_of_value authorization_of_value cfg moments roots ip deadline fuel)
    (fun r _ => r <> Err ServeOutOfFuel)); [|by apply Hrest].
  eapply triple_bind; [apply ends_serve|intros []|intros q e [_ H]; congruence|done]. intros q [Hq _]. by apply (IH (n - 1)); [lia|].
Qed.

(** A turn of the loop per byte the peer sends is enough. *)
Lemma connection_ends roots ip fuel p : len (stream (pe_input p)) < N.of_nat fuel ->
  (handle_connection value_of_block block_of_value authorization_of_value cfg identity moments roots ip fuel p).2 <> Err ServeOutOfFuel.
Proof.
  intros Hfuel. set (n := len (stream (pe_input p))) in *.
  assert (Hrun : triple (left_at_most n) (handle_connection value_of_block block_of_value authorization_of_value cfg identity moments roots ip fuel)
    (fun r _ => r <> Err ServeOutOfFuel)); [|by apply Hrun; unfold left_at_most, n].
  assert (Hb : forall A (m : stm Peering ServeEnd A) (f : A -> stm Peering ServeEnd unit), ends m ->
    (forall a, triple (left_at_most n) (f a) (fun r _ => r <> Err ServeOutOfFuel)) ->
    triple (left_at_most n) (sbind m f) (fun r _ => r <> Err ServeOutOfFuel)).
  { intros A m f Hm Hf. eapply triple_bind; [apply Hm|intros a q [Hq _]; by apply Hf|intros q e [_ H]; congruence|done]. }
  unfold handle_connection. apply Hb; [apply ends_tick|intros m]. apply Hb; [|intros []].
  { destruct (_ && _); by apply ends_lift. }
  apply Hb; [apply ends_recv|intros f]. apply Hb; [|intros []].
  { apply ends_lift. destruct f; try discriminate. by destruct (identity_matches _ _). }
  apply Hb; [apply ends_tick|intros ?]. apply Hb; [apply ends_head|intros head]. apply Hb; [apply ends_reply|intros []].
  by apply serve_frames_end.
Qed.

End Ends.

(** ** The chain under any peer *)

Section PeerSafety.
Context {X : Externals}.
Context {NB : Ndjson PersistedBlock} {LB : NdjsonLaws PersistedBlock (fun _ => True)}.
Context {NR : Ndjson PersistedRewardEvent} {NV : Ndjson Value} {LV : NdjsonLaws Value json_plain} {ND : Ndjson ProofDedupEvent}.
Context {NC : Ndjson VerifiedPrefixCheckpoint} {NN : Ndjson NonceEvent} {NF : Ndjson Frame}.
Context (value_of_block : PersistedBlock -> Value) (block_of_value : Value -> option PersistedBlock).
Context (authorization_of_value : Value -> option ShareWorkAuthorization).
Context (cfg : LocalNodeFields) (identity : P2pIdentity) (moments : nat -> Moment).
Context (config : RuntimeConfig) (reward_path : option string) (registry : FamilyManifestRegistry).
Context (Hroles : roles_distinct cfg reward_path).
Context (Hblocks : forall v b, block_of_value v = Some b -> named_where_kept cfg b).

Definition node_state_ok (s : LocalNodeState) : Prop := state_ok cfg config reward_path registry s.
Definition peering_ok (p : Peering) : Prop := node_state_ok (pe_node p).

(** Other threads keep the invariant of the chain. *)
Context (Hothers : forall i s, node_state_ok s -> node_state_ok (mo_others (moments i) s)).

Lemma tick_ok {E} : keeps (E:=E) peering_ok (tick moments).
Proof. intros p Hp. by apply Hothers. Qed.

Lemma node_op_ok {E A} (m : stm LocalNodeState NodeError A) : keeps node_state_ok m -> keeps (E:=E) peering_ok (on_pe_node m).
Proof. intros Hm p Hp. specialize (Hm _ Hp). unfold on_pe_node. by destruct (m (pe_node p)). Qed.

Lemma input_ok {E A} (f : list Arrival -> list Arrival * outcome E A) : keeps peering_ok (on_input f).
Proof. intros p Hp. unfold on_input. by destruct (f (pe_input p)). Qed.

Lemma output_ok {E A} (w : list byte * outcome E A) : keeps peering_ok (on_output w).
Proof. by intros p Hp. Qed.

Lemma map_err_ok {E F A} (f : E -> F) (m : stm Peering E A) : keeps peering_ok m -> keeps peering_ok (smap_err f m).
Proof. intros Hm p Hp. specialize (Hm p Hp). unfold smap_err. by destruct (m p). Qed.

Lemma charge_ok requested returned wire : keeps peering_ok (charge_sync_response requested returned wire).
Proof. intros p Hp. unfold charge_sync_response. by destruct (charged _). Qed.

Lemma modify_ok {E} f : (forall p, pe_node (f p) = pe_node p) -> keeps (E:=E) peering_ok (smodify f).
Proof. intros Hf. apply keeps_modify. intros p. unfold peering_ok. by rewrite Hf. Qed.

#[local] Hint Resolve tick_ok input_ok output_ok charge_ok map_err_ok : keeps.
#[local] Hint Extern 2 (keeps peering_ok (smodify _)) => by apply modify_ok : keeps.

(** A first phase whose job names its bounties, then the second. *)
Lemma two_phases_ok {E A B} (first : stm LocalNodeState NodeError A) (jobs : outcome NodeError A -> list Job) (next : A -> stm Peering E B) :
  keeps node_state_ok first -> (forall s s' r, node_state_ok s -> first s = (s', r) -> Forall (job_named cfg) (jobs r)) ->
  (forall a, Forall (job_named cfg) (jobs (Ok a)) -> keeps peering_ok (next a)) ->
  keeps peering_ok (let! r := on_pe_node first in next r).
Proof.
  intros Hf Hj Hn p Hp. pose proof (Hf (pe_node p) Hp) as Hf'. unfold sbind, on_pe_node.
  destruct (first (pe_node p)) as [s' [a|e|]] eqn:E1; [|done..]. cbn [fst snd]. apply Hn; [|done]. by apply (Hj _ _ _ Hp E1).
Qed.

Lemma block_shared_ok {E} v : keeps (E:=E) peering_ok (ingest_announced_block_shared block_of_value cfg moments v).
Proof.
  apply keeps_bind; [apply tick_ok|intros m]. apply (two_phases_ok _ block_started).
  - apply block_phase1_keeps; [done|by apply Hblocks].
  - intros s s' r Hs E1. by apply (block_job_named block_of_value cfg config reward_path registry Hblocks _ _ _ _ _ _ Hs E1).
  - intros [o|[b job]] Hj; [apply keeps_ret|]. apply Forall_inv in Hj. apply keeps_bind; [apply tick_ok|intros m'].
    by apply node_op_ok, block_phase2_keeps.
Qed.

Lemma chain_shared_ok {E} vs : keeps (E:=E) peering_ok (ingest_candidate_chain_shared block_of_value cfg moments vs).
Proof.
  apply keeps_bind; [apply tick_ok|intros m]. apply (two_phases_ok _ chain_started).
  - apply chain_phase1_keeps; [done|]. intros c. by apply parsed_named.
  - intros s s' r _ E1. by apply (chain_job_named block_of_value cfg Hblocks _ _ _ _ _ _ E1).
  - intros [o|[c job]] Hj; [apply keeps_ret|]. apply Forall_inv in Hj. apply keeps_bind; [apply tick_ok|intros m'].
    by apply node_op_ok, chain_phase2_keeps.
Qed.

Lemma share_shared_ok {E} v ip : keeps (E:=E) peering_ok (ingress_admit_share_shared authorization_of_value cfg moments v ip).
Proof.
  apply keeps_bind; [apply tick_ok|intros m]. apply keeps_bind; [apply node_op_ok, share_phase1_keeps|].
  intros [o|prepared]; [apply keeps_ret|]. apply keeps_bind; [apply tick_ok|intros m']. apply node_op_ok, share_phase2_keeps.
Qed.

#[local] Hint Resolve block_shared_ok chain_shared_ok share_shared_ok : keeps.

Lemma check_ok f : keeps peering_ok (check_budget moments f).
Proof. unfold check_budget. keeps_tac. Qed.

Lemma recv_ok remaining deadline : keeps peering_ok (recv_until moments remaining deadline).
Proof. unfold recv_until. keeps_tac. Qed.

Lemma send_until_ok deadline f : keeps peering_ok (send_until moments deadline f).
Proof. unfold send_until. keeps_tac. Qed.

Lemma send_ok f : keeps peering_ok (send moments f).
Proof. unfold send. keeps_tac. Qed.

Lemma head_ok {E} : keeps (E:=E) peering_ok (live_head cfg).
Proof. unfold live_head. keeps_tac. Qed.

#[local] Hint Resolve check_ok recv_ok send_until_ok send_ok head_ok : keeps.

Lemma open_ok remaining deadline head : keeps peering_ok (open_validated_conn identity moments remaining deadline head).
Proof. unfold open_validated_conn. keeps_tac. Qed.

Lemma pull_ok from to requested : keeps peering_ok (pull_blocks moments from to requested).
Proof. unfold pull_blocks, recv_sync_frame. keeps_tac. Qed.

Lemma permit_ok : keeps peering_ok (mutation_permit moments).
Proof. unfold mutation_permit. keeps_tac. Qed.

#[local] Hint Resolve open_ok pull_ok permit_ok : keeps.

Lemma fetch_ok upto : forall fuel next collected, keeps peering_ok (fetch_block_range moments fuel next upto collected).
Proof. induction fuel as [|fuel IH]; intros next collected; cbn [fetch_block_range]; keeps_tac. Qed.

#[local] Hint Resolve fetch_ok : keeps.

Lemma reorg_ok fuel peer_head : keeps peering_ok (reorg_from_peer block_of_value cfg moments fuel peer_head).
Proof. unfold reorg_from_peer. keeps_tac. Qed.

#[local] Hint Resolve reorg_ok : keeps.

Lemma page_ok fuel peer_head blocks : keeps peering_ok (ingest_page block_of_value cfg moments fuel peer_head blocks).
Proof. induction blocks as [|v blocks IH]; cbn [ingest_page]; keeps_tac. Qed.

#[local] Hint Resolve page_ok : keeps.

Lemma pages_ok peer_head : forall fuel first, keeps peering_ok (sync_pages block_of_value cfg moments fuel peer_head first).
Proof. induction fuel as [|fuel IH]; intros first; cbn [sync_pages]; keeps_tac. Qed.

#[local] Hint Resolve pages_ok : keeps.

Lemma sync_ok fuel peer : keeps peering_ok (sync_with_peer block_of_value cfg identity moments fuel peer).
Proof. unfold sync_with_peer, clear_bootstrap_observation_if_mismatched. keeps_tac. Qed.

Lemma recv_limited_ok ip deadline : keeps peering_ok (recv_frame_limited moments ip deadline).
Proof. unfold recv_frame_limited. keeps_tac. Qed.

#[local] Hint Resolve recv_limited_ok : keeps.

Lemma serve_frame_ok roots ip deadline f :
  keeps peering_ok (serve_frame value_of_block block_of_value authorization_of_value cfg moments roots ip deadline f).
Proof. unfold serve_frame, begin_mutation, pull_announced, reply. keeps_tac. Qed.

#[local] Hint Resolve serve_frame_ok : keeps.

Lemma serve_frames_ok roots ip deadline fuel :
  keeps peering_ok (serve_frames value_of_block block_of_value authorization_of_value cfg moments roots ip deadline fuel).
Proof. induction fuel as [|fuel IH]; cbn [serve_frames]; keeps_tac. Qed.

#[local] Hint Resolve serve_frames_ok : keeps.

Lemma connection_ok roots ip fuel :
  keeps peering_ok (handle_connection value_of_block block_of_value authorization_of_value cfg identity moments roots ip fuel).
Proof. unfold handle_connection, reply. keeps_tac. Qed.


End PeerSafety.

(** ** Serving requests *)

(** serde_json prints [{"type":"blocks","blocks":[..]}] without spaces, with the
    blocks between commas. *)
Class BlocksLayout (NV : Ndjson Value) (NF : Ndjson Frame) : Prop := {
  bl_empty : len (nd_encode (Blocks [])) = 29;
  bl_one v : len (nd_encode (Blocks [v])) = 29 + len (nd_encode v);
  bl_more v w vs : len (nd_encode (Blocks (v :: w :: vs))) = len (nd_encode v) + 1 + len (nd_encode (Blocks (w :: vs)))
}.

Section Serving.
Context {NV : Ndjson Value} {NF : Ndjson Frame} {LF : BlocksLayout NV NF}.
Context (value_of_block : PersistedBlock -> Value).

(** Bytes of the blocks of a page, each with its separator. *)
Definition page_size (first : bool) (vs : list Value) : N :=
  fold_right (fun v n => len (nd_encode v) + 1 + n) 0 vs - (if first then N.min 1 (len vs) else 0).

Ltac size_tac := unfold page_size; cbn [fold_right app]; unfold len in *; cbn [length] in *; lia.

Lemma blocks_size vs : len (nd_encode (Blocks vs)) = 29 + page_size true vs.
Proof.
  induction vs as [|v [|w vs] IH]; [rewrite bl_empty; size_tac|rewrite bl_one; size_tac|].
  rewrite bl_more, IH. size_tac.
Qed.

(** The page is the longest prefix that fits. *)
Lemma blocks_page_longest : forall vs wire first, wire <= MAX_FRAME_BYTES -> exists rest, vs = blocks_page wire first vs ++ rest /\
  wire + page_size first (blocks_page wire first vs) <= MAX_FRAME_BYTES /\
  (forall v rest', rest = v :: rest' -> MAX_FRAME_BYTES < wire + page_size first (blocks_page wire first vs ++ [v])).
Proof.
  induction vs as [|v vs IH]; intros wire first Hw; cbn [blocks_page].
  { exists []. split_and!; [done|destruct first; size_tac|done]. }
  destruct (MAX_FRAME_BYTES <? _) eqn:E.
  - apply N.ltb_lt in E. exists (v :: vs). split_and!; [done|destruct first; size_tac|].
    intros v' rest' [= <- <-]. destruct first; size_tac.
  - apply N.ltb_ge in E. destruct (IH _ false E) as (rest & H1 & H2 & H3). exists rest.
    assert (Hsz : forall l, wire + page_size first (v :: l) = wire + len (nd_encode v) + (if first then 0 else 1) + page_size false l)
      by (intros l; destruct first; size_tac).
    split_and!; [cbn [app]; by f_equal|by rewrite Hsz|]. intros v' rest' Hr. cbn [app]. rewrite Hsz. by apply (H3 v' rest').
Qed.

(** What is served: the requested slice of the cache. *)
Lemma range_values {E} s from to : from <= to -> blocks_range_values (E:=E) value_of_block s from to =
  Ok (map value_of_block (take (N.to_nat (to + 1 - from)) (drop (N.to_nat from) (rt_block_cache (ls_runtime s))))).
Proof.
  intros Hft. unfold blocks_range_values. set (cache := rt_block_cache (ls_runtime s)). destruct (len cache <=? from) eqn:E1.
  - apply N.leb_le in E1. rewrite drop_ge by (unfold len in E1; lia). by rewrite take_nil.
  - apply N.leb_gt in E1. unfold slice_inclusive. rewrite (proj2 (orb_false_iff _ _)); [|split; [apply N.ltb_ge|apply N.leb_gt]; lia].
    cbn [obind]. destruct (decide (to <= len cache - 1)) as [Hto|Hto]; [by rewrite N.min_l|].
    rewrite N.min_r by lia. by rewrite !take_ge by (rewrite length_drop; unfold len in *; lia).
Qed.

Lemma slice_lookup (l : list PersistedBlock) from to i v :
  map value_of_block (take (N.to_nat (to + 1 - from)) (drop (N.to_nat from) l)) !! i = Some v <->
  exists b, l !! (N.to_nat from + i)%nat = Some b /\ v = value_of_block b /\ from + N.of_nat i <= to.
Proof.
  rewrite list_lookup_fmap. destruct (decide (i < N.to_nat (to + 1 - from))%nat) as [Hi|Hi].
  - rewrite lookup_take_lt by done. rewrite lookup_drop.
    destruct (l !! (N.to_nat from + i)%nat) as [b|]; cbn; [|split; [done|by intros (b & ? & _)]].
    split; [intros [= <-]; exists b; split_and!; [done|done|lia]|by intros (b' & [= <-] & -> & _)].
  - rewrite lookup_take_ge by lia. cbn. split; [done|]. intros (b & _ & _ & Hle). lia.
Qed.

Lemma encode_blocks vs : encode_frame (Blocks vs) =
  if 30 + page_size true vs <=? MAX_FRAME_BYTES then Ok (nd_encode (Blocks vs) ++ [newline])
  else Err (FrameTooLarge (len (nd_encode (Blocks vs) ++ [newline]))).
Proof.
  unfold encode_frame. cbn [frame_validate obind].
  assert (Hl : len (nd_encode (Blocks vs) ++ [newline]) = 30 + page_size true vs).
  { pose proof (blocks_size vs) as Hz. unfold len in *. rewrite length_app. cbn [length]. lia. }
  rewrite Hl. by destruct (_ <=? _).
Qed.

(** C39: Every admissible request is served. A [GetBlocks] that passed the wire
    contract is answered without a panic by a page of the requested heights, in
    order and from the first one, that the chain has; the reply fits the frame
    cap, so it can be sent; and the page is cut short only where one more block
    would not fit. *)
Theorem get_blocks_served s from to : frame_validate (GetBlocks from to) = Ok tt ->
  exists vs page rest, blocks_range_values (E:=ServeEnd) value_of_block s from to = Ok vs /\ byte_bounded_blocks_page vs = page /\
    vs = page ++ rest /\ len vs <= GET_BLOCKS_RANGE_CAP /\
    (forall i v, vs !! i = Some v <-> exists b, rt_block_cache (ls_runtime s) !! (N.to_nat from + i)%nat = Some b /\
       v = value_of_block b /\ from + N.of_nat i <= to) /\
    (exists bytes, encode_frame (Blocks page) = Ok bytes /\ len bytes <= MAX_FRAME_BYTES) /\
    (forall v rest', rest = v :: rest' -> is_ok (encode_frame (Blocks (page ++ [v]))) = false).
Proof.
  intros Hv. assert (Hft : from <= to /\ to - from < GET_BLOCKS_RANGE_CAP).
  { unfold frame_validate in Hv. cbn [obind] in Hv. destruct ((to <? from) || _) eqn:E; [discriminate Hv|].
    apply orb_false_iff in E as [E1 E2]. by apply N.ltb_ge in E1; apply N.leb_gt in E2. }
  set (bs := take (N.to_nat (to + 1 - from)) (drop (N.to_nat from) (rt_block_cache (ls_runtime s)))). set (vs := map value_of_block bs).
  destruct (blocks_page_longest vs 30 true) as (rest & H1 & H2 & H3); [done|].
  assert (Hpage : byte_bounded_blocks_page vs = blocks_page 30 true vs) by (unfold byte_bounded_blocks_page; by rewrite bl_empty).
  exists vs, (blocks_page 30 true vs), rest. split_and!; [apply range_values, Hft|exact Hpage|exact H1|..].
  - unfold vs, bs, len. rewrite length_map, length_take. lia.
  - intros i v. apply slice_lookup.
  - rewrite encode_blocks, (proj2 (N.leb_le _ _) H2). eexists. split; [done|].
    pose proof (blocks_size (blocks_page 30 true vs)) as Hz. unfold len in *. rewrite length_app. cbn [length]. lia.
  - intros v rest' Hrest. by rewrite encode_blocks, (proj2 (N.leb_gt _ _) (H3 v rest' Hrest)).
Qed.

End Serving.

(** ** Witnesses *)

From S2P Require Import Concrete ConcreteLines ConcreteStores.
Import ServedDemo.

Module PeerDemo.
(** Frames of the sizes serde_json gives them: the head of a [Blocks] frame is
    27 bytes, its end is two. *)
Fixpoint joined (vs : list Value) : list byte :=
  match vs with
  | [] => []
  | [v] => nd_encode v
  | v :: rest => nd_encode v ++ [x2c] ++ joined rest
  end.

#[export] Instance frame_text : Ndjson Frame := {
  nd_encode f := match f with Blocks vs => List.repeat x61 27 ++ joined vs ++ [x5d; x7d] | _ => [x31] end;
  nd_decode _ := None
}.

#[export] Instance frame_layout : BlocksLayout countable_ndjson frame_text.
Proof.
  split; cbn [nd_encode frame_text].
  - reflexivity.
  - intros v. unfold len. rewrite !length_app, repeat_length. cbn [length joined]. lia.
  - intros v w vs. unfold len. rewrite !length_app, repeat_length. change (joined (v :: w :: vs)) with (nd_encode v ++ [x2c] ++ joined (w :: vs)).
    rewrite !length_app. cbn [length]. lia.
Qed.

Definition identity : P2pIdentity := mkIdentity "demo" LegacyUnscopedV1 "" "".
Definition chain_io : ChainIo := mkChainIo (mkReorgIo rewrite_ok rewrite_ok) read_ok rewrite_ok read_ok rewrite_ok true.
Definition moment : Moment :=
  mkMoment (fun s => s) 0 0 false true None [Wrote 100] (fun _ => 0) (fun _ => (0, 0)) ServedDemo.env ServedDemo.io chain_io
    (mkChecker None false (fun _ _ _ => None)) (fun _ => StoreMissing).
Definition peering : Peering :=
  mkPeering ServedDemo.start None None (budget_new 0 0 0 0) [Data [x61; newline]] [] 0.
Definition round : Peering * outcome SyncRoundError HeadSummary :=
  sync_with_peer ServedDemo.parse ServedDemo.cfg identity (fun _ => moment) 65 "peer" peering.
Definition connection : Peering * outcome ServeEnd unit :=
  handle_connection (fun _ => VNull) ServedDemo.parse (fun _ => None) ServedDemo.cfg identity (fun _ => moment) None "peer" 65 peering.
(** A node that holds one block. *)
Definition holder : LocalNodeState :=
  mkLocalNode (mkNode (mkRuntime NodeDemo.config (rt_rate_limiter ServedDemo.fresh) (rt_pool ServedDemo.fresh) None [] [ReplayDemo.block]
    None None NodeDemo.registry None None None) NodeDemo.host) None bounty_registry_new side_pool_new None None None None None false [].
End PeerDemo.
Import PeerDemo.



Lemma get_blocks_served_witness : exists bytes,
  blocks_range_values (E:=ServeEnd) (fun _ => VNull) PeerDemo.holder 0 5 = Ok [VNull] /\ encode_frame (Blocks [VNull]) = Ok bytes.
Proof.
  destruct (get_blocks_served (fun _ => VNull) PeerDemo.holder 0 5 eq_refl) as (vs & page & rest & H1 & H2 & _ & _ & _ & (bytes & H3 & _) & _).
  assert (Hv : vs = [VNull]) by (injection H1 as <-; reflexivity). subst vs.
  assert (Hp : page = [VNull]) by (rewrite <- H2; vm_compute; reflexivity). subst page. by exists bytes.
Defined.
