(* ===== verification/RustMeter.v ===== *)
(** * The metered answer language (boole-native-rust-meter/src/lib.rs)

    A small Rust-shaped language in which a miner answers a tuple task: lexer,
    recursive-descent parser, type checker, and an interpreter that counts
    operations and fuel against limits. Texts are byte strings; [i64] is [Z]
    with its wrap-around written out; every counter is a [u64] that is added to
    with a check. The recursion of lexer and parser is bounded by the length of
    what is left to read; [lex_total] and [parse_total] show that the bound is
    never reached. *)

From S2P Require Import Prelude Hash.

Definition ABSOLUTE_MAX_SYNTAX_DEPTH : N := 256.
Definition RESOURCE_USE_DOMAIN : list byte := as_bytes "boole.native-rust-meter.resource-use.v1" ++ [x00].

Record MeterLimits := mkLimits {
  max_source_bytes : N;
  max_tokens : N;
  max_ast_nodes : N;
  max_ast_depth : N;
  max_operations : N;
  max_fuel : N;
  max_prefix_items : N
}.

Inductive MeterError :=
| InvalidSyntax
| ForbiddenConstruct (what : string)
| BudgetExceeded (counter : string)
| CounterOverflow
| InvalidProgram (why : string).

(** ** Integers *)

(** The [i64] congruent to an integer: the wrapping operations and [as i64]. *)
Definition wrap_i64 (z : Z) : Z := ((z + 2 ^ 63) mod 2 ^ 64 - 2 ^ 63)%Z.
Definition i64_max : N := 2 ^ 63 - 1.

Definition checked_count (a b : N) : outcome MeterError N := ok_or (checked_add u64_max a b) CounterOverflow.
Definition ensure_limit (value limit : N) (name : string) : outcome MeterError unit :=
  ensure (negb (limit <? value)) (BudgetExceeded name).

(** ** Items and counters *)

Inductive TupleField := Signed (z : Z) | Unsigned (n : N) | FieldBool (b : bool).

Record TupleItem := mkItem { ti_fields : list TupleField }.

Record ResourceUse := mkUse {
  ru_source_bytes : N;
  ru_tokens : N;
  ru_ast_nodes : N;
  ru_max_ast_depth : N;
  ru_operations : N;
  ru_fuel : N;
  ru_prefix_items : N
}.

(** [u64::to_be_bytes]; [be_value] is [from_be_bytes]. *)
Fixpoint be_bytes (width : nat) (n : N) : list byte :=
  match width with
  | O => []
  | S width' => be_bytes width' (n / 256) ++ [byte_of n]
  end.

Definition canonical_bytes (u : ResourceUse) : list byte :=
  RESOURCE_USE_DOMAIN ++ flat_map (be_bytes 8)
    [ru_source_bytes u; ru_tokens u; ru_ast_nodes u; ru_max_ast_depth u; ru_operations u; ru_fuel u; ru_prefix_items u].

(** [chunks_exact(8)] of a slice. *)
Definition chunk (l : list byte) (i : nat) : N := be_value (take 8 (drop (8 * i) l)).

Definition from_canonical_bytes (bytes : list byte) : outcome MeterError ResourceUse :=
  let n := length RESOURCE_USE_DOMAIN in
  if negb (len bytes =? len RESOURCE_USE_DOMAIN + 7 * 8) || negb (bool_decide (take n bytes = RESOURCE_USE_DOMAIN)) then Err InvalidSyntax
  else let body := drop n bytes in
       Ok (mkUse (chunk body 0) (chunk body 1) (chunk body 2) (chunk body 3) (chunk body 4) (chunk body 5) (chunk body 6)).

Definition try_add (a b : ResourceUse) : outcome MeterError ResourceUse :=
  let* source_bytes := checked_count (ru_source_bytes a) (ru_source_bytes b) in
  let* tokens := checked_count (ru_tokens a) (ru_tokens b) in
  let* ast_nodes := checked_count (ru_ast_nodes a) (ru_ast_nodes b) in
  let* operations := checked_count (ru_operations a) (ru_operations b) in
  let* fuel := checked_count (ru_fuel a) (ru_fuel b) in
  let* prefix_items := checked_count (ru_prefix_items a) (ru_prefix_items b) in
  Ok (mkUse source_bytes tokens ast_nodes (N.max (ru_max_ast_depth a) (ru_max_ast_depth b)) operations fuel prefix_items).

(** ** Lexer *)

Inductive Token :=
| TLet | TMut | TFor | TIn | TIf | TElse | TAs | TI64 | TTrue | TFalse
| TIdent (name : string) | TInt (n : N)
| TLBrace | TRBrace | TLParen | TRParen | TDot | TColon | TSemicolon | TEqual | TMinus.

#[export] Instance Token_eq_dec : EqDecision Token.
Proof. solve_decision. Defined.

Definition is_ascii_alphabetic (c : ascii) : bool := is_ascii_lower c || is_ascii_upper c.
Definition is_ascii_whitespace (c : ascii) : bool := existsb (fun n => is_char n c) [32; 9; 10; 12; 13].
Definition starts_word (c : ascii) : bool := is_ascii_alphabetic c || is_char 95 c.
Definition in_word (c : ascii) : bool := is_ascii_alphanumeric c || is_char 95 c.

(** The longest prefix whose characters satisfy [p], and the rest. *)
Fixpoint span (p : ascii -> bool) (s : string) : string * string :=
  match s with
  | EmptyString => (EmptyString, EmptyString)
  | String c s' => if p c then let '(a, b) := span p s' in (String c a, b) else (EmptyString, s)
  end.

(** The first character is [n]. *)
Definition next_is (n : N) (s : string) : bool := starts_with_char n s.

(** One optional character. *)
Definition skip_char (n : N) (s : string) : string :=
  match s with String c s' => if is_char n c then s' else s | EmptyString => s end.

(** A quote, [b] and a quote, or [b?rb?#*] and a double quote. *)
Definition starts_rust_literal (s : string) : bool :=
  match s with
  | EmptyString => false
  | String first rest =>
      if is_char 39 first || is_char 34 first then true
      else if is_char 98 first && (next_is 39 rest || next_is 34 rest) then true
      else
        let s1 := skip_char 98 s in
        if negb (next_is 114 s1) then false
        else next_is 34 (span (is_char 35) (skip_char 98 (skip_char 114 s1))).2
  end.

(** The words of the language; every other keyword of Rust is refused. *)
Definition word_token (word : string) : outcome MeterError Token :=
  if String.eqb word "let" then Ok TLet
  else if String.eqb word "mut" then Ok TMut
  else if String.eqb word "for" then Ok TFor
  else if String.eqb word "in" then Ok TIn
  else if String.eqb word "if" then Ok TIf
  else if String.eqb word "else" then Ok TElse
  else if String.eqb word "as" then Ok TAs
  else if String.eqb word "i64" then Ok TI64
  else if String.eqb word "true" then Ok TTrue
  else if String.eqb word "false" then Ok TFalse
  else if existsb (String.eqb word) ["loop"; "while"] then Err (ForbiddenConstruct "loop")
  else if existsb (String.eqb word) ["fn"; "struct"; "enum"; "impl"; "trait"; "mod"; "use"; "static"; "type"; "pub"]
  then Err (ForbiddenConstruct "local_item")
  else if String.eqb word "const" then Err (ForbiddenConstruct "const")
  else if existsb (String.eqb word) ["unsafe"; "extern"; "async"; "await"; "return"; "break"; "continue"; "match"; "move"; "dyn"; "where"]
  then Err (ForbiddenConstruct "unsupported_keyword")
  else Ok (TIdent word).

Definition symbol_token (c : ascii) : outcome MeterError Token :=
  if is_char 123 c then Ok TLBrace
  else if is_char 125 c then Ok TRBrace
  else if is_char 40 c then Ok TLParen
  else if is_char 41 c then Ok TRParen
  else if is_char 46 c then Ok TDot
  else if is_char 58 c then Ok TColon
  else if is_char 59 c then Ok TSemicolon
  else if is_char 61 c then Ok TEqual
  else if is_char 45 c then Ok TMinus
  else Err InvalidSyntax.

(** One token at the start of a text that does not start with whitespace. *)
Definition lex_token (c : ascii) (rest : string) : outcome MeterError (Token * string) :=
  let s := String c rest in
  if is_char 47 c && (next_is 47 rest || next_is 42 rest) then Err (ForbiddenConstruct "comment")
  else if starts_rust_literal s then Err (ForbiddenConstruct "string_or_char")
  else if is_char 33 c then Err (ForbiddenConstruct "macro")
  else if is_char 124 c then Err (ForbiddenConstruct "closure")
  else if is_char 60 c || is_char 62 c then Err (ForbiddenConstruct "generic")
  else if is_ascii_digit c then
    let '(digits, rest') := span is_ascii_digit s in
    let* n := ok_or (parse_uint u64_max digits) InvalidSyntax in
    Ok (TInt n, rest')
  else if starts_word c then
    let '(word, rest') := span in_word s in
    let* t := word_token word in
    Ok (t, rest')
  else let* t := symbol_token c in Ok (t, rest).

(** The loop; [count] tokens were read. *)
Fixpoint lex_loop (fuel : nat) (limit count : N) (s : string) : outcome MeterError (list Token) :=
  match s with
  | EmptyString => Ok []
  | String c rest =>
      match fuel with
      | O => Panic
      | S fuel' =>
          if is_ascii_whitespace c then lex_loop fuel' limit count rest
          else
            let* r := lex_token c rest in
            let '(t, rest') := r in
            do* ensure_limit (count + 1) limit "tokens";
            let* ts := lex_loop fuel' limit (count + 1) rest' in
            Ok (t :: ts)
      end
  end.

Definition lex (source : string) (limit : N) : outcome MeterError (list Token) := lex_loop (String.length source) limit 0 source.

(** ** Syntax *)

Inductive WrappingOperation := WAdd | WSub | WMul.

Inductive Expression :=
| EI64 (z : Z)
| EBool (b : bool)
| EVariable (name : string)
| EField (base : Expression) (index : N)
| ECastI64 (inner : Expression)
| EWrapping (operation : WrappingOperation) (lhs rhs : Expression)
| EIf (condition then_expression else_expression : Expression).

Inductive Statement :=
| SLet (name : string) (mutable declared_i64 : bool) (expression : Expression)
| SAssign (name : string) (expression : Expression)
| SForItems (binding : string) (body : list Statement).

Record Program := mkProgram { pg_statements : list Statement; pg_tail : Expression }.

(** ** Parser *)

(** What is left of the tokens, the limit, the deepest level seen, whether a
    loop was seen at the top level. *)
Record Parser := mkParser {
  ps_rest : list Token;
  ps_depth_limit : N;
  ps_max_syntax_depth : N;
  ps_top_level_for_seen : bool
}.

Definition parser := stm Parser MeterError.

Definition parser_new (tokens : list Token) (depth_limit : N) : Parser := mkParser tokens depth_limit 1 false.

Definition set_rest (p : Parser) (rest : list Token) : Parser :=
  mkParser rest (ps_depth_limit p) (ps_max_syntax_depth p) (ps_top_level_for_seen p).
Definition set_for_seen (p : Parser) : Parser := mkParser (ps_rest p) (ps_depth_limit p) (ps_max_syntax_depth p) true.

Definition refuse {A} (e : MeterError) : parser A := slift (Err e).

Definition peek : parser (option Token) := fun p => (p, Ok (head (ps_rest p))).

Definition take_token : parser (option Token) := fun p =>
  match ps_rest p with
  | [] => (p, Ok None)
  | t :: rest => (set_rest p rest, Ok (Some t))
  end.

Definition take_if (expected : Token) : parser bool := fun p =>
  match ps_rest p with
  | t :: rest => if bool_decide (t = expected) then (set_rest p rest, Ok true) else (p, Ok false)
  | [] => (p, Ok false)
  end.

Definition expect_token (expected : Token) : parser unit :=
  let! found := take_if expected in slift (ensure found InvalidSyntax).

Definition take_ident : parser string :=
  let! t := take_token in
  match t with Some (TIdent name) => sret name | _ => refuse InvalidSyntax end.

Definition observe_depth (depth : N) : parser unit := fun p =>
  (mkParser (ps_rest p) (ps_depth_limit p) (N.max (ps_max_syntax_depth p) depth) (ps_top_level_for_seen p),
   ensure_limit depth (N.min (ps_depth_limit p) ABSOLUTE_MAX_SYNTAX_DEPTH) "ast_depth").

(** [checked_add(depth, 1)?]. *)
Definition deeper (depth : N) : parser N := slift (checked_count depth 1).

Definition i64_literal (n : N) : outcome MeterError Z := if n <=? i64_max then Ok (Z.of_N n) else Err InvalidSyntax.

Definition method_operation (name : string) : option WrappingOperation :=
  if String.eqb name "wrapping_add" then Some WAdd
  else if String.eqb name "wrapping_sub" then Some WSub
  else if String.eqb name "wrapping_mul" then Some WMul
  else None.

(** [parse_expression], its loop over postfix operators, and [parse_if]. *)
Fixpoint parse_expression (fuel : nat) (depth : N) : parser Expression :=
  match fuel with
  | O => slift Panic
  | S fuel' =>
      do! observe_depth depth;
      let! t := take_token in
      let! base :=
        match t with
        | Some (TInt number) => let! value := slift (i64_literal number) in sret (EI64 value)
        | Some TMinus =>
            let! t := take_token in
            match t with
            | Some (TInt number) =>
                if number =? 2 ^ 63 then sret (EI64 (- 2 ^ 63)%Z)
                else let! value := slift (i64_literal number) in sret (EI64 (- value)%Z)
            | _ => refuse InvalidSyntax
            end
        | Some TTrue => sret (EBool true)
        | Some TFalse => sret (EBool false)
        | Some (TIdent name) =>
            let! next := peek in
            if bool_decide (next = Some TLParen)
            then refuse (ForbiddenConstruct (if String.eqb name "acfr_solve" then "recursion" else "arbitrary_call"))
            else sret (EVariable name)
        | Some TLParen =>
            let! depth' := deeper depth in
            let! nested := parse_expression fuel' depth' in
            do! expect_token TRParen;
            sret nested
        | Some TIf =>
            let! depth' := deeper depth in
            let! condition := parse_expression fuel' depth' in
            do! expect_token TLBrace;
            let! then_expression := parse_expression fuel' depth' in
            do! expect_token TRBrace;
            do! expect_token TElse;
            do! expect_token TLBrace;
            let! else_expression := parse_expression fuel' depth' in
            do! expect_token TRBrace;
            sret (EIf condition then_expression else_expression)
        | Some TFor => refuse (ForbiddenConstruct "nested_loop")
        | _ => refuse InvalidSyntax
        end in
      parse_postfix fuel' depth base
  end
with parse_postfix (fuel : nat) (depth : N) (expression : Expression) : parser Expression :=
  match fuel with
  | O => slift Panic
  | S fuel' =>
      let! cast := take_if TAs in
      if cast then do! expect_token TI64; parse_postfix fuel' depth (ECastI64 expression)
      else
        let! dot := take_if TDot in
        if negb dot then sret expression
        else
          let! t := take_token in
          match t with
          | Some (TInt index) =>
              if 8 <=? index then refuse InvalidSyntax else parse_postfix fuel' depth (EField expression index)
          | Some (TIdent name) =>
              match method_operation name with
              | None => refuse (ForbiddenConstruct "arbitrary_call")
              | Some operation =>
                  do! expect_token TLParen;
                  let! depth' := deeper depth in
                  let! rhs := parse_expression fuel' depth' in
                  do! expect_token TRParen;
                  parse_postfix fuel' depth (EWrapping operation expression rhs)
              end
          | _ => refuse InvalidSyntax
          end
  end.

Definition starts_statement (rest : list Token) : bool :=
  match rest with
  | TLet :: _ | TFor :: _ => true
  | TIdent _ :: TEqual :: _ => true
  | _ => false
  end.

Definition parse_let (fuel : nat) (depth : N) : parser Statement :=
  do! take_token;
  let! mutable := take_if TMut in
  let! name := take_ident in
  do! slift (ensure (negb (String.eqb name "items")) (InvalidProgram "reserved_binding"));
  let! declared_i64 := take_if TColon in
  do! (if declared_i64 then expect_token TI64 else sret tt);
  do! expect_token TEqual;
  let! depth' := deeper depth in
  let! expression := parse_expression fuel depth' in
  do! expect_token TSemicolon;
  sret (SLet name mutable declared_i64 expression).

Definition parse_assignment (fuel : nat) (depth : N) : parser Statement :=
  let! name := take_ident in
  do! expect_token TEqual;
  let! depth' := deeper depth in
  let! expression := parse_expression fuel depth' in
  do! expect_token TSemicolon;
  sret (SAssign name expression).

(** A statement where no loop may start. *)
Definition parse_simple (fuel : nat) (depth : N) : parser Statement :=
  do! observe_depth depth;
  let! t := peek in
  match t with
  | Some TLet => parse_let fuel depth
  | Some TFor => refuse (ForbiddenConstruct "nested_loop")
  | Some (TIdent _) => parse_assignment fuel depth
  | _ => refuse InvalidSyntax
  end.

(** The loop over the body of [parse_for]. *)
Fixpoint parse_body (fuel : nat) (depth : N) : parser (list Statement) :=
  match fuel with
  | O => slift Panic
  | S fuel' =>
      let! p := sget in
      match ps_rest p with
      | TRBrace :: _ => sret []
      | [] => refuse InvalidSyntax
      | rest =>
          if negb (starts_statement rest) then refuse InvalidSyntax
          else
            let! statement := parse_simple fuel' depth in
            let! body := parse_body fuel' depth in
            sret (statement :: body)
      end
  end.

Definition parse_for (fuel : nat) (depth : N) : parser Statement :=
  do! take_token;
  let! binding := take_ident in
  do! expect_token TIn;
  let! t := take_token in
  do! match t with
      | Some (TIdent name) => if String.eqb name "items" then sret tt else refuse InvalidSyntax
      | Some TLParen => refuse (ForbiddenConstruct "arbitrary_call")
      | _ => refuse InvalidSyntax
      end;
  do! expect_token TLBrace;
  let! body_depth := deeper depth in
  do! observe_depth body_depth;
  let! body := parse_body fuel body_depth in
  do! expect_token TRBrace;
  sret (SForItems binding body).

(** [parse_statement(false, depth)]; inside a loop it is [parse_simple]. *)
Definition parse_statement (fuel : nat) (depth : N) : parser Statement :=
  do! observe_depth depth;
  let! p := sget in
  match head (ps_rest p) with
  | Some TLet => parse_let fuel depth
  | Some TFor =>
      if ps_top_level_for_seen p then refuse (ForbiddenConstruct "multiple_loop")
      else do! smodify set_for_seen; parse_for fuel depth
  | Some (TIdent _) => parse_assignment fuel depth
  | _ => refuse InvalidSyntax
  end.

Fixpoint parse_statements (fuel : nat) : parser (list Statement) :=
  match fuel with
  | O => slift Panic
  | S fuel' =>
      let! p := sget in
      if negb (starts_statement (ps_rest p)) then sret []
      else
        let! statement := parse_statement fuel' 2 in
        let! statements := parse_statements fuel' in
        sret (statement :: statements)
  end.

Definition parse_program (fuel : nat) : parser Program :=
  let! p := sget in
  do! slift (ensure (negb (bool_decide (ps_rest p = []))) InvalidSyntax);
  let! statements := parse_statements fuel in
  let! tail := parse_expression fuel 2 in
  let! p := sget in
  do! slift (ensure (bool_decide (ps_rest p = [])) (ForbiddenConstruct "trailing_syntax"));
  sret (mkProgram statements tail).

(** ** Size of a program *)

(** Nodes counted so far and the deepest one. *)
Definition count_node (depth : N) (use_ : N * N) : outcome MeterError (N * N) :=
  do* ensure_limit depth ABSOLUTE_MAX_SYNTAX_DEPTH "ast_depth";
  let* nodes := checked_count use_.1 1 in
  Ok (nodes, N.max use_.2 depth).

Fixpoint visit_expression (value : Expression) (depth : N) (use_ : N * N) : outcome MeterError (N * N) :=
  let* use_ := count_node depth use_ in
  match value with
  | EField base _ | ECastI64 base => let* depth' := checked_count depth 1 in visit_expression base depth' use_
  | EWrapping _ lhs rhs =>
      let* depth' := checked_count depth 1 in
      let* use_ := visit_expression lhs depth' use_ in
      visit_expression rhs depth' use_
  | EIf condition then_expression else_expression =>
      let* depth' := checked_count depth 1 in
      let* use_ := visit_expression condition depth' use_ in
      let* use_ := visit_expression then_expression depth' use_ in
      visit_expression else_expression depth' use_
  | _ => Ok use_
  end.

Fixpoint visit_statement (value : Statement) (depth : N) (use_ : N * N) : outcome MeterError (N * N) :=
  let* use_ := count_node depth use_ in
  match value with
  | SLet _ _ _ expression | SAssign _ expression => let* depth' := checked_count depth 1 in visit_expression expression depth' use_
  | SForItems _ body =>
      (fix visit_body (body : list Statement) (use_ : N * N) : outcome MeterError (N * N) :=
         match body with
         | [] => Ok use_
         | nested :: rest =>
             let* depth' := checked_count depth 1 in
             let* use_ := visit_statement nested depth' use_ in
             visit_body rest use_
         end) body use_
  end.

Definition ast_statistics (program : Program) : outcome MeterError (N * N) :=
  let* use_ := ofold (fun use_ statement => visit_statement statement 2 use_) (1, 1) (pg_statements program) in
  visit_expression (pg_tail program) 2 use_.

Record MeteredProgram := mkMetered { mp_ast : Program; mp_static_use : ResourceUse }.

Definition parse (source : string) (limits : MeterLimits) : outcome MeterError MeteredProgram :=
  let source_bytes := str_len source in
  do* ensure_limit source_bytes (max_source_bytes limits) "source_bytes";
  let* tokens := lex source (max_tokens limits) in
  let '(p, r) := parse_program (S (length tokens)) (parser_new tokens (max_ast_depth limits)) in
  let* ast := r in
  let* stats := ast_statistics ast in
  let '(ast_nodes, ast_depth) := stats in
  let depth := N.max ast_depth (ps_max_syntax_depth p) in
  do* ensure_limit ast_nodes (max_ast_nodes limits) "ast_nodes";
  do* ensure_limit depth (max_ast_depth limits) "ast_depth";
  Ok (mkMetered ast (mkUse source_bytes (len tokens) ast_nodes depth 0 0 0)).

(** ** Types *)

Inductive ValueKind := KI64 | KNumericField | KBool | KTuple.

#[export] Instance ValueKind_eq_dec : EqDecision ValueKind.
Proof. solve_decision. Defined.

Inductive StaticType := TyI64 | TyNumericField | TyBool | TyTuple (fields : list ValueKind).

#[export] Instance StaticType_eq_dec : EqDecision StaticType.
Proof. solve_decision. Defined.

Record TypeBinding := mkTypeBinding { tb_kind : StaticType; tb_mutable : bool }.

(** Scopes of names; the innermost one first. *)
Definition scopes (B : Type) := list (gmap string B).
Definition TypeEnvironment := scopes TypeBinding.

Definition ensure_root {B} (env : scopes B) : scopes B := match env with [] => [∅] | _ => env end.
Definition push_scope {B} (env : scopes B) : scopes B := ∅ :: env.
Definition pop_scope {B} (env : scopes B) : scopes B := tail env.

(** [scopes.iter().rev().find_map(|scope| scope.get(name))]. *)
Fixpoint find_binding {B} (env : scopes B) (name : string) : option B :=
  match env with
  | [] => None
  | scope :: env' => match scope !! name with Some b => Some b | None => find_binding env' name end
  end.

(** Insertion in the innermost scope, if the name is new there. *)
Definition declare_binding {B} (env : scopes B) (name : string) (b : B) : outcome MeterError (scopes B) :=
  match ensure_root env with
  | [] => Panic
  | scope :: env' =>
      do* ensure (negb (bool_decide (is_Some (scope !! name)))) (InvalidProgram "duplicate_binding");
      Ok (<[name := b]> scope :: env')
  end.

Definition type_lookup (env : TypeEnvironment) (name : string) : outcome MeterError StaticType :=
  ok_or (tb_kind <$> find_binding env name) (InvalidProgram "unknown_binding").

Definition kind_type (k : ValueKind) : outcome MeterError StaticType :=
  match k with
  | KI64 => Ok TyI64
  | KNumericField => Ok TyNumericField
  | KBool => Ok TyBool
  | KTuple => Err (InvalidProgram "nested_tuple_field")
  end.

Fixpoint expression_kind (expression : Expression) (env : TypeEnvironment) : outcome MeterError StaticType :=
  match expression with
  | EI64 _ => Ok TyI64
  | EBool _ => Ok TyBool
  | EVariable name => type_lookup env name
  | EField base index =>
      let* t := expression_kind base env in
      match t with
      | TyTuple fields =>
          match fields !! N.to_nat index with
          | Some k => kind_type k
          | None => Err (InvalidProgram "field_out_of_bounds")
          end
      | _ => Err (InvalidProgram "field_on_non_tuple")
      end
  | ECastI64 inner =>
      let* t := expression_kind inner env in
      match t with
      | TyI64 | TyNumericField => Ok TyI64
      | _ => Err (InvalidProgram "invalid_i64_cast")
      end
  | EWrapping _ lhs rhs =>
      let* l := expression_kind lhs env in
      if negb (bool_decide (l = TyI64)) then Err (InvalidProgram "non_i64_wrapping_operand")
      else
        let* r := expression_kind rhs env in
        do* ensure (bool_decide (r = TyI64)) (InvalidProgram "non_i64_wrapping_operand");
        Ok TyI64
  | EIf condition then_expression else_expression =>
      let* c := expression_kind condition env in
      do* ensure (bool_decide (c = TyBool)) (InvalidProgram "non_bool_condition");
      let* then_kind := expression_kind then_expression env in
      let* else_kind := expression_kind else_expression env in
      do* ensure (bool_decide (then_kind = else_kind)) (InvalidProgram "if_branch_type_mismatch");
      Ok then_kind
  end.

Definition let_type (name : string) (mutable declared_i64 : bool) (expression : Expression) (env : TypeEnvironment)
    : outcome MeterError TypeEnvironment :=
  let* kind := expression_kind expression env in
  do* ensure (negb (declared_i64 && negb (bool_decide (kind = TyI64)))) (InvalidProgram "declared_i64_type_mismatch");
  do* ensure (negb (bool_decide (kind = TyNumericField))) (InvalidProgram "numeric_field_requires_cast");
  declare_binding env name (mkTypeBinding kind mutable).

Definition assign_type (name : string) (expression : Expression) (env : TypeEnvironment) : outcome MeterError TypeEnvironment :=
  let* kind := expression_kind expression env in
  let* target := ok_or (find_binding env name) (InvalidProgram "unknown_binding") in
  do* ensure (tb_mutable target) (InvalidProgram "immutable_assignment");
  do* ensure (bool_decide (tb_kind target = kind)) (InvalidProgram "assignment_type_mismatch");
  Ok env.

Fixpoint statement_types (item_schema : list ValueKind) (statement : Statement) (env : TypeEnvironment)
    : outcome MeterError TypeEnvironment :=
  match statement with
  | SLet name mutable declared_i64 expression => let_type name mutable declared_i64 expression env
  | SAssign name expression => assign_type name expression env
  | SForItems binding body =>
      let* env1 := declare_binding (push_scope env) binding (mkTypeBinding (TyTuple item_schema) false) in
      let* env2 := (fix body_types (body : list Statement) (env : TypeEnvironment) : outcome MeterError TypeEnvironment :=
                      match body with
                      | [] => Ok env
                      | nested :: rest => let* env' := statement_types item_schema nested env in body_types rest env'
                      end) body env1 in
      Ok (pop_scope env2)
  end.

Definition is_loop (s : Statement) : bool := match s with SForItems _ _ => true | _ => false end.
Definition has_loop (program : Program) : bool := existsb is_loop (pg_statements program).

Definition field_kind (f : TupleField) : ValueKind :=
  match f with Signed _ | Unsigned _ => KNumericField | FieldBool _ => KBool end.

(** The kinds of the first item, which every other item must have. *)
Definition item_schema (items : list TupleItem) : outcome MeterError (list ValueKind) :=
  match items with
  | [] => Err (InvalidProgram "empty_items")
  | first :: rest =>
      do* ensure ((1 <=? len (ti_fields first)) && (len (ti_fields first) <=? 8)) (InvalidProgram "tuple_schema_mismatch");
      let schema := map field_kind (ti_fields first) in
      do* ensure (forallb (fun item => bool_decide (map field_kind (ti_fields item) = schema)) rest) (InvalidProgram "tuple_schema_mismatch");
      Ok schema
  end.

Definition validate_program_types (program : Program) (items : list TupleItem) : outcome MeterError unit :=
  let* schema := if has_loop program then item_schema items else Ok [] in
  let* env := ofold (fun env statement => statement_types schema statement env) (ensure_root []) (pg_statements program) in
  let* kind := expression_kind (pg_tail program) env in
  ensure (bool_decide (kind = TyI64)) (InvalidProgram "non_i64_result").

(** ** Values *)

Inductive Value := VI64 (z : Z) | VNumericField (z : Z) | VBool (b : bool) | VTuple (item : TupleItem).

Definition value_kind (v : Value) : ValueKind :=
  match v with VI64 _ => KI64 | VNumericField _ => KNumericField | VBool _ => KBool | VTuple _ => KTuple end.

Record Binding := mkBinding { bi_value : Value; bi_kind : ValueKind; bi_mutable : bool }.

Definition Environment := scopes Binding.

Definition declare (env : Environment) (name : string) (value : Value) (mutable : bool) (required_kind : option ValueKind)
    : outcome MeterError Environment :=
  let kind := value_kind value in
  do* ensure (match required_kind with Some required => bool_decide (required = kind) | None => true end)
        (InvalidProgram "declared_i64_type_mismatch");
  declare_binding env name (mkBinding value kind mutable).

Definition lookup_value (env : Environment) (name : string) : outcome MeterError Value :=
  ok_or (bi_value <$> find_binding env name) (InvalidProgram "unknown_binding").

(** The innermost binding of the name is replaced. *)
Fixpoint update_binding {B} (env : scopes B) (name : string) (b : B) : scopes B :=
  match env with
  | [] => []
  | scope :: env' => match scope !! name with Some _ => <[name := b]> scope :: env' | None => scope :: update_binding env' name b end
  end.

Definition assign (env : Environment) (name : string) (value : Value) : outcome MeterError Environment :=
  let* binding := ok_or (find_binding env name) (InvalidProgram "unknown_binding") in
  do* ensure (bi_mutable binding) (InvalidProgram "immutable_assignment");
  do* ensure (bool_decide (bi_kind binding = value_kind value)) (InvalidProgram "assignment_type_mismatch");
  Ok (update_binding env name (mkBinding value (bi_kind binding) (bi_mutable binding))).

(** ** Interpreter *)

(** The counters that a run moves. *)
Definition set_operations (u : ResourceUse) (n : N) : ResourceUse :=
  mkUse (ru_source_bytes u) (ru_tokens u) (ru_ast_nodes u) (ru_max_ast_depth u) n (ru_fuel u) (ru_prefix_items u).
Definition set_fuel (u : ResourceUse) (n : N) : ResourceUse :=
  mkUse (ru_source_bytes u) (ru_tokens u) (ru_ast_nodes u) (ru_max_ast_depth u) (ru_operations u) n (ru_prefix_items u).
Definition set_prefix_items (u : ResourceUse) (n : N) : ResourceUse :=
  mkUse (ru_source_bytes u) (ru_tokens u) (ru_ast_nodes u) (ru_max_ast_depth u) (ru_operations u) (ru_fuel u) n.

Definition metered := stm ResourceUse MeterError.

(** Counters and scopes, while statements run. *)
Record Machine := mkMachine { ma_use : ResourceUse; ma_env : Environment }.
Definition machine := stm Machine MeterError.

Definition on_use {A} (m : metered A) : machine A := fun s =>
  let '(u, r) := m (ma_use s) in (mkMachine u (ma_env s), r).

Definition on_env (f : Environment -> outcome MeterError Environment) : machine unit := fun s =>
  match f (ma_env s) with
  | Ok env => (mkMachine (ma_use s) env, Ok tt)
  | Err e => (s, Err e)
  | Panic => (s, Panic)
  end.

(** A block in its own scope, which is left on every path. *)
Definition scoped {A} (m : machine A) : machine A := fun s =>
  let '(s', r) := m (mkMachine (ma_use s) (push_scope (ma_env s))) in
  (mkMachine (ma_use s') (pop_scope (ma_env s')), r).

Section Runtime.
Context (limits : MeterLimits).

Definition tick_operation : metered unit := fun u =>
  match checked_count (ru_operations u) 1 with
  | Ok n => (set_operations u n, ensure_limit n (max_operations limits) "operations")
  | Err e => (u, Err e)
  | Panic => (u, Panic)
  end.

Definition tick_fuel : metered unit := fun u =>
  match checked_count (ru_fuel u) 1 with
  | Ok n => (set_fuel u n, ensure_limit n (max_fuel limits) "fuel")
  | Err e => (u, Err e)
  | Panic => (u, Panic)
  end.

Definition tick_prefix_item : metered unit := fun u =>
  match checked_count (ru_prefix_items u) 1 with
  | Ok n => (set_prefix_items u n, ensure_limit n (max_prefix_items limits) "prefix_items")
  | Err e => (u, Err e)
  | Panic => (u, Panic)
  end.

Definition field_value (f : TupleField) : Value :=
  match f with
  | Signed value => VNumericField value
  | Unsigned value => VNumericField (wrap_i64 (Z.of_N value))
  | FieldBool value => VBool value
  end.

Definition apply_wrapping (operation : WrappingOperation) (l r : Z) : Z :=
  wrap_i64 (match operation with WAdd => l + r | WSub => l - r | WMul => l * r end)%Z.

Definition as_i64 (v : Value) : outcome MeterError Z :=
  match v with VI64 z => Ok z | _ => Err (InvalidProgram "non_i64_wrapping_operand") end.

Fixpoint evaluate_expression (expression : Expression) (env : Environment) : metered Value :=
  do! tick_fuel;
  match expression with
  | EI64 value => sret (VI64 value)
  | EBool value => sret (VBool value)
  | EVariable name => slift (lookup_value env name)
  | EField base index =>
      let! v := evaluate_expression base env in
      match v with
      | VTuple tuple =>
          let! field := slift (ok_or (ti_fields tuple !! N.to_nat index) (InvalidProgram "field_out_of_bounds")) in
          do! tick_operation;
          sret (field_value field)
      | _ => slift (Err (InvalidProgram "field_on_non_tuple"))
      end
  | ECastI64 inner =>
      let! v := evaluate_expression inner env in
      do! tick_operation;
      match v with
      | VI64 value | VNumericField value => sret (VI64 value)
      | _ => slift (Err (InvalidProgram "invalid_i64_cast"))
      end
  | EWrapping operation lhs rhs =>
      let! v := evaluate_expression lhs env in
      let! l := slift (as_i64 v) in
      let! v := evaluate_expression rhs env in
      let! r := slift (as_i64 v) in
      do! tick_operation;
      sret (VI64 (apply_wrapping operation l r))
  | EIf condition then_expression else_expression =>
      let! v := evaluate_expression condition env in
      match v with
      | VBool condition =>
          do! tick_operation;
          if condition then evaluate_expression then_expression env else evaluate_expression else_expression env
      | _ => slift (Err (InvalidProgram "non_bool_condition"))
      end
  end.

Definition evaluate (expression : Expression) : machine Value := fun s => on_use (evaluate_expression expression (ma_env s)) s.

Fixpoint execute_statement (items : list TupleItem) (statement : Statement) : machine unit :=
  do! on_use tick_fuel;
  match statement with
  | SLet name mutable declared_i64 expression =>
      let! value := evaluate expression in
      do! on_env (fun env => declare env name value mutable (if declared_i64 then Some KI64 else None));
      on_use tick_operation
  | SAssign name expression =>
      let! value := evaluate expression in
      do! on_env (fun env => assign env name value);
      on_use tick_operation
  | SForItems binding body =>
      sfor (fun item =>
        do! on_use tick_prefix_item;
        do! on_use tick_fuel;
        scoped (
          do! on_env (fun env => declare env binding (VTuple item) false (Some KTuple));
          (fix execute_body (body : list Statement) : machine unit :=
             match body with
             | [] => sret tt
             | nested :: rest => do! execute_statement items nested; execute_body rest
             end) body)) items
  end.

Definition execute_program (program : Program) (items : list TupleItem) : machine Z :=
  do! on_env (fun env => Ok (ensure_root env));
  do! on_use tick_fuel;
  do! sfor (execute_statement items) (pg_statements program);
  let! v := evaluate (pg_tail program) in
  match v with
  | VI64 value => sret value
  | _ => slift (Err (InvalidProgram "non_i64_result"))
  end.

(** The loop over the prefixes of length [1..=n]: each starts without bindings. *)
Fixpoint run_prefixes (program : Program) (items : list TupleItem) (ends : list nat) (u : ResourceUse)
    : outcome MeterError (list Z * ResourceUse) :=
  match ends with
  | [] => Ok ([], u)
  | end_ :: rest =>
      let '(s, r) := execute_program program (take end_ items) (mkMachine u []) in
      let* output := r in
      let* more := run_prefixes program items rest (ma_use s) in
      Ok (output :: more.1, more.2)
  end.

End Runtime.

Record Evaluation := mkEvaluation { ev_outputs : list Z; ev_use : ResourceUse }.

(** [n (n + 1) / 2], halving the even factor first. *)
Definition required_prefix_items (program : Program) (item_count : N) : outcome MeterError N :=
  if negb (has_loop program) then Ok 0
  else
    let* successor := ok_or (checked_add u64_max item_count 1) CounterOverflow in
    let '(l, r) := if item_count mod 2 =? 0 then (item_count / 2, successor) else (item_count, successor / 2) in
    ok_or (checked_mul u64_max l r) CounterOverflow.

Definition evaluate_hidden_prefixes (program : MeteredProgram) (items : list TupleItem) (limits : MeterLimits)
    : outcome MeterError Evaluation :=
  do* validate_program_types (mp_ast program) items;
  let* required := required_prefix_items (mp_ast program) (len items) in
  do* ensure_limit required (max_prefix_items limits) "prefix_items";
  let* r := run_prefixes limits (mp_ast program) items (seq 1 (length items)) (mp_static_use program) in
  Ok (mkEvaluation r.1 r.2).
