(* ===== verification/RustMeterFacts.v ===== *)
(** * The metered language: types, meters, syntax

    A reference semantics without limits, whose runs come with their cost; that
    the interpreter computes it and stops exactly where a counter would pass its
    limit; that accepted programs never go wrong; that the parser always answers
    and reads back every program that is written out. *)

From S2P Require Import Prelude Hash RustMeter.

(** ** Costs *)

Record Cost := mkCost { co_operations : N; co_fuel : N; co_prefix_items : N }.

Definition cost_zero : Cost := mkCost 0 0 0.
Definition cost_add (a b : Cost) : Cost :=
  mkCost (co_operations a + co_operations b) (co_fuel a + co_fuel b) (co_prefix_items a + co_prefix_items b).
Definition one_operation : Cost := mkCost 1 0 0.
Definition one_fuel : Cost := mkCost 0 1 0.
Definition one_item : Cost := mkCost 0 0 1.

Definition charge (u : ResourceUse) (c : Cost) : ResourceUse :=
  mkUse (ru_source_bytes u) (ru_tokens u) (ru_ast_nodes u) (ru_max_ast_depth u) (ru_operations u + co_operations c)
    (ru_fuel u + co_fuel c) (ru_prefix_items u + co_prefix_items c).

(** Results with their cost. *)
Definition costed (A : Type) := outcome MeterError (A * Cost).
Definition cret {A} (a : A) : costed A := Ok (a, cost_zero).
Definition clift {A} (o : outcome MeterError A) : costed A := let* a := o in Ok (a, cost_zero).
Definition ctick (c : Cost) : costed unit := Ok (tt, c).
Definition cbind {A B} (m : costed A) (f : A -> costed B) : costed B :=
  let* r := m in let* r' := f r.1 in Ok (r'.1, cost_add r.2 r'.2).

Notation "'let$' x ':=' m 'in' k" := (cbind m (fun x => k))
  (at level 200, x pattern, m at level 200, k at level 200) : rust_scope.
Notation "'do$' m ';' k" := (cbind m (fun _ => k)) (at level 200, m at level 200, k at level 200) : rust_scope.

(** ** Reference semantics *)

Fixpoint eval (expression : Expression) (env : Environment) : costed Value :=
  do$ ctick one_fuel;
  match expression with
  | EI64 z => cret (VI64 z)
  | EBool b => cret (VBool b)
  | EVariable name => clift (lookup_value env name)
  | EField base index =>
      let$ v := eval base env in
      match v with
      | VTuple item =>
          let$ field := clift (ok_or (ti_fields item !! N.to_nat index) (InvalidProgram "field_out_of_bounds")) in
          do$ ctick one_operation;
          cret (field_value field)
      | _ => Err (InvalidProgram "field_on_non_tuple")
      end
  | ECastI64 inner =>
      let$ v := eval inner env in
      do$ ctick one_operation;
      match v with
      | VI64 z | VNumericField z => cret (VI64 z)
      | _ => Err (InvalidProgram "invalid_i64_cast")
      end
  | EWrapping operation lhs rhs =>
      let$ v := eval lhs env in
      let$ l := clift (as_i64 v) in
      let$ v := eval rhs env in
      let$ r := clift (as_i64 v) in
      do$ ctick one_operation;
      cret (VI64 (apply_wrapping operation l r))
  | EIf condition then_expression else_expression =>
      let$ v := eval condition env in
      match v with
      | VBool b => do$ ctick one_operation; if b then eval then_expression env else eval else_expression env
      | _ => Err (InvalidProgram "non_bool_condition")
      end
  end.

(** A loop that threads the scopes. *)
Definition cfold {A} (f : A -> Environment -> costed Environment) : list A -> Environment -> costed Environment :=
  fix go (l : list A) (env : Environment) : costed Environment :=
    match l with
    | [] => cret env
    | a :: l' => let$ env' := f a env in go l' env'
    end.

Fixpoint exec (items : list TupleItem) (statement : Statement) (env : Environment) : costed Environment :=
  do$ ctick one_fuel;
  match statement with
  | SLet name mutable declared_i64 expression =>
      let$ value := eval expression env in
      let$ env' := clift (declare env name value mutable (if declared_i64 then Some KI64 else None)) in
      do$ ctick one_operation;
      cret env'
  | SAssign name expression =>
      let$ value := eval expression env in
      let$ env' := clift (assign env name value) in
      do$ ctick one_operation;
      cret env'
  | SForItems binding body =>
      cfold (fun item env =>
        do$ ctick one_item;
        do$ ctick one_fuel;
        let$ env2 :=
          (let$ env1 := clift (declare (push_scope env) binding (VTuple item) false (Some KTuple)) in
           cfold (fun nested env => exec items nested env) body env1) in
        cret (pop_scope env2)) items env
  end.

Definition run (program : Program) (items : list TupleItem) : costed Z :=
  do$ ctick one_fuel;
  let$ env := cfold (exec items) (pg_statements program) (ensure_root []) in
  let$ v := eval (pg_tail program) env in
  match v with
  | VI64 z => cret z
  | _ => Err (InvalidProgram "non_i64_result")
  end.

(** The outputs on the prefixes of the items. *)
Fixpoint runs (program : Program) (items : list TupleItem) (ends : list nat) : costed (list Z) :=
  match ends with
  | [] => cret []
  | end_ :: rest =>
      let$ output := run program (take end_ items) in
      let$ more := runs program items rest in
      cret (output :: more)
  end.

(** ** The meters *)

Definition within (limits : MeterLimits) (u : ResourceUse) : Prop :=
  ru_operations u <= max_operations limits /\ ru_fuel u <= max_fuel limits /\ ru_prefix_items u <= max_prefix_items limits.

(** The limits are [u64]s. *)
Definition limits_u64 (limits : MeterLimits) : Prop :=
  max_operations limits <= u64_max /\ max_fuel limits <= u64_max /\ max_prefix_items limits <= u64_max.

Definition is_budget (e : MeterError) : Prop := match e with BudgetExceeded _ | CounterOverflow => True | _ => False end.

Lemma charge_charge u a b : charge (charge u a) b = charge u (cost_add a b).
Proof. unfold charge, cost_add. cbn. f_equal; lia. Qed.

Lemma charge_zero u : charge u cost_zero = u.
Proof. destruct u. unfold charge. cbn. by rewrite !N.add_0_r. Qed.

Lemma within_charge limits u a b : within limits (charge u (cost_add a b)) -> within limits (charge u a).
Proof. unfold within, charge, cost_add. cbn. lia. Qed.

(** [m] started with counters [u] beside [t] follows a costed result: it gives the
    same value and adds the cost, unless that passes a limit, and then it stops. *)
Section Follows.
Context {S T : Type} (mk : ResourceUse -> T -> S) (limits : MeterLimits).

Definition follows {A B} (Q : B -> A -> T -> Prop) (m : stm S MeterError A) (t : T) (r : costed B) : Prop := forall u, within limits u ->
  match r with
  | Ok (b, c) => (within limits (charge u c) /\ exists a t', m (mk u t) = (mk (charge u c) t', Ok a) /\ Q b a t') \/
                 (~ within limits (charge u c) /\ exists s e, m (mk u t) = (s, Err e) /\ is_budget e)
  | Err e => exists s e', m (mk u t) = (s, Err e') /\ (e' = e \/ is_budget e')
  | Panic => True
  end.

Lemma follows_bind {A A' B B'} (Q : B -> A -> T -> Prop) (Q' : B' -> A' -> T -> Prop) m f t (r : costed B) (g : B -> costed B') :
  follows Q m t r -> (forall b a t', Q b a t' -> follows Q' (f a) t' (g b)) -> follows Q' (sbind m f) t (cbind r g).
Proof.
  intros Hm Hf u Hu. specialize (Hm u Hu). unfold sbind, cbind. destruct r as [[b c]|e|]; cbn [obind fst snd]; [|destruct Hm as (s & e' & -> & He); by exists s, e'|done].
  destruct Hm as [(Hw & a & t' & -> & HQ)|(Hw & s & e & -> & He)].
  - specialize (Hf b a t' HQ _ Hw). destruct (g b) as [[b' c']|e|]; cbn [obind fst snd]; [|done|done]. by rewrite charge_charge in Hf.
  - destruct (g b) as [[b' c']|e'|]; cbn [obind fst snd]; [right| |done].
    + split; [|by exists s, e]. intros Hw'. by eapply Hw, within_charge.
    + exists s, e. split; [done|by right].
Qed.

Lemma follows_ret {A B} (Q : B -> A -> T -> Prop) t a b : Q b a t -> follows Q (sret a) t (cret b).
Proof. intros HQ u Hu. left. rewrite charge_zero. split; [done|]. by exists a, t. Qed.

Lemma follows_err {A B} (Q : B -> A -> T -> Prop) t e : follows Q (slift (Err e)) t (Err e).
Proof. intros u Hu. exists (mk u t), e. split; [done|by left]. Qed.

Lemma follows_lift {A} (Q : A -> A -> T -> Prop) t (o : outcome MeterError A) : (forall a, o = Ok a -> Q a a t) -> follows Q (slift o) t (clift o).
Proof. destruct o as [a|e|]; intros HQ; [apply follows_ret; by apply HQ|apply follows_err|done]. Qed.

Lemma follows_weaken {A B} (Q Q' : B -> A -> T -> Prop) m t r : follows Q m t r -> (forall b a t', Q b a t' -> Q' b a t') -> follows Q' m t r.
Proof.
  intros Hm HQ u Hu. specialize (Hm u Hu). destruct r as [[b c]|e|]; [|done|done].
  destruct Hm as [(Hw & a & t' & H & Hq)|H]; [left|by right]. split; [done|]. exists a, t'. split; [done|by apply HQ].
Qed.

End Follows.

(** Induction through the bodies of loops. *)
Fixpoint Statement_nested_ind (P : Statement -> Prop) (Hlet : forall x m d e, P (SLet x m d e)) (Hassign : forall x e, P (SAssign x e))
    (Hfor : forall x body, Forall P body -> P (SForItems x body)) (s : Statement) : P s :=
  match s with
  | SLet x m d e => Hlet x m d e
  | SAssign x e => Hassign x e
  | SForItems x body =>
      Hfor x body ((fix all (l : list Statement) : Forall P l :=
        match l with
        | [] => Forall_nil_2 P
        | s' :: l' => Forall_cons_2 P s' l' (Statement_nested_ind P Hlet Hassign Hfor s') (all l')
        end) body)
  end.

(** An expression runs on the counters alone; a statement also moves the scopes. *)
Definition on_counters (u : ResourceUse) (_ : unit) : ResourceUse := u.
Definition same {A T} (b a : A) (_ : T) : Prop := a = b.
Definition same_in {A} (env : Environment) (b a : A) (env' : Environment) : Prop := a = b /\ env' = env.
Definition moved (b : Environment) (_ : unit) (env' : Environment) : Prop := env' = b.

Section Meters.
Context (limits : MeterLimits) (Hlimits : limits_u64 limits).

(** A counter that is moved by one. *)
Lemma tick_follows (get : ResourceUse -> N) (set : ResourceUse -> N -> ResourceUse) limit name c : limit <= u64_max ->
  (forall u, charge u c = set u (get u + 1)) -> (forall u, within limits u -> within limits (charge u c) <-> get u + 1 <= limit) ->
  follows on_counters limits same (fun u =>
    match checked_count (get u) 1 with
    | Ok n => (set u n, ensure_limit n limit name)
    | Err e => (u, Err e)
    | Panic => (u, Panic)
    end) tt (ctick c).
Proof.
  intros Hl Hset Hw u Hu. unfold on_counters. cbn [ctick]. rewrite Hw by done. unfold checked_count, checked_add, ensure_limit.
  destruct (get u + 1 <=? u64_max) eqn:E1; cbn [ok_or]; [|apply N.leb_gt in E1; right; split; [lia|by eexists _, _]].
  destruct (limit <? get u + 1) eqn:E2; [apply N.ltb_lt in E2; right; split; [lia|by eexists _, _]|].
  apply N.ltb_ge in E2. left. split; [done|]. exists tt, tt. by rewrite Hset.
Qed.

Ltac tick_tac := intros u; unfold within, charge, set_operations, set_fuel, set_prefix_items; cbn; rewrite ?N.add_0_r; lia || done.

Lemma operation_follows : follows on_counters limits same (tick_operation limits) tt (ctick one_operation).
Proof. apply tick_follows; [apply Hlimits|tick_tac..]. Qed.

Lemma fuel_follows : follows on_counters limits same (tick_fuel limits) tt (ctick one_fuel).
Proof. apply tick_follows; [apply Hlimits|tick_tac..]. Qed.

Lemma item_follows : follows on_counters limits same (tick_prefix_item limits) tt (ctick one_item).
Proof. apply tick_follows; [apply Hlimits|tick_tac..]. Qed.

Lemma lift_follows {A} (o : outcome MeterError A) : follows on_counters limits same (slift o) tt (clift o).
Proof. by apply follows_lift. Qed.

Lemma ret_follows {A} (a : A) : follows on_counters limits same (sret a) tt (cret a).
Proof. by apply follows_ret. Qed.

Ltac follow_leaf := first [apply operation_follows|apply fuel_follows|apply ret_follows|apply follows_err|apply lift_follows|eassumption].
Ltac follow_with tac := eapply follows_bind; [tac|let H := fresh in intros ? ? [] H; cbv beta in H; unfold same in H; subst].
Ltac follow_case := match goal with |- follows _ _ _ (match ?v with _ => _ end) _ _ => destruct v end.
Ltac follow_tac := repeat first [follow_leaf|follow_with follow_leaf|follow_case].

Lemma eval_follows env e : follows on_counters limits same (evaluate_expression limits e env) tt (eval e env).
Proof. induction e; cbn [evaluate_expression eval]; follow_tac. Qed.

(** *** Statements *)

Lemma on_use_follows {A} (m : metered A) env r : follows on_counters limits same m tt r -> follows mkMachine limits (same_in env) (on_use m) env r.
Proof.
  intros Hm u Hu. specialize (Hm u Hu). unfold on_use, on_counters in *. cbn [ma_use ma_env]. destruct r as [[b c]|e|]; [| |done].
  - destruct Hm as [(Hw & a & [] & -> & ->)|(Hw & s & e & -> & He)]; [left|right]; (split; [done|]); by eexists _, _.
  - destruct Hm as (s & e' & -> & He). by eexists _, _.
Qed.

Lemma on_env_follows f env : follows mkMachine limits moved (on_env f) env (clift (f env)).
Proof.
  intros u Hu. unfold on_env, clift. cbn [ma_use ma_env]. destruct (f env) as [env'|e|]; cbn [obind]; [|eexists _, _; split; [done|by left]|done].
  left. rewrite charge_zero. split; [done|]. by exists tt, env'.
Qed.

Lemma scoped_follows m env r : follows mkMachine limits moved m (push_scope env) r ->
  follows mkMachine limits moved (scoped m) env (let$ env' := r in cret (pop_scope env')).
Proof.
  intros Hm u Hu. specialize (Hm u Hu). unfold scoped, cbind. cbn [ma_use ma_env]. destruct r as [[b c]|e|]; cbn; [| |done].
  - destruct Hm as [(Hw & [] & env' & -> & ->)|(Hw & s & e & -> & He)]; rewrite <- charge_charge, charge_zero; [left|right]; (split; [done|]).
    + by exists tt, (pop_scope b).
    + by eexists _, _.
  - destruct Hm as (s & e' & -> & He). by eexists _, _.
Qed.

Lemma for_follows {A} (f : A -> machine unit) (g : A -> Environment -> costed Environment) l env :
  (forall a env, a ∈ l -> follows mkMachine limits moved (f a) env (g a env)) -> follows mkMachine limits moved (sfor f l) env (cfold g l env).
Proof.
  revert env. induction l as [|a l IH]; intros env Hf; cbn [sfor cfold]; [by apply follows_ret|].
  eapply follows_bind; [apply Hf; constructor|]. intros env' [] ? ->. apply IH. intros a' env'' Ha. apply Hf. by constructor.
Qed.

Lemma evaluate_follows e env : follows mkMachine limits (same_in env) (evaluate limits e) env (eval e env).
Proof. exact (on_use_follows _ env _ (eval_follows env e)). Qed.

Ltac use_tac := first [apply evaluate_follows|apply on_use_follows; first [apply fuel_follows|apply operation_follows|apply item_follows]
  |apply on_env_follows].
Ltac use_with := eapply follows_bind; [use_tac|first [intros ? ? ? [-> ->]|intros ? [] ? ->]].

Lemma charged_follows (m : machine unit) env c : follows mkMachine limits (same_in env) m env (ctick c) ->
  follows mkMachine limits moved m env (do$ ctick c; cret env).
Proof.
  intros Hm u Hu. specialize (Hm u Hu). cbn in *. rewrite <- charge_charge, charge_zero.
  destruct Hm as [(Hw & [] & env' & -> & [_ ->])|H]; [left|by right]. split; [done|]. by exists tt, env.
Qed.

Lemma body_sfor items body : (fix execute_body (body : list Statement) : machine unit :=
    match body with [] => sret tt | nested :: rest => do! execute_statement limits items nested; execute_body rest end) body =
  sfor (execute_statement limits items) body.
Proof. induction body as [|s body IH]; [done|]. cbn [sfor]. by rewrite <- IH. Qed.

Lemma exec_follows items st : forall env, follows mkMachine limits moved (execute_statement limits items st) env (exec items st env).
Proof.
  induction st as [x m d e|x e|x body IH] using Statement_nested_ind; intros env; cbn [execute_statement exec]; use_with.
  1,2: use_with; use_with; apply charged_follows; use_tac.
  apply for_follows. intros item env' _. use_with. use_with. rewrite body_sfor. apply scoped_follows. use_with.
  apply for_follows. intros nested env''. rewrite Forall_forall in IH. intros Hn. by apply IH.
Qed.

Lemma run_follows program items : follows mkMachine limits (fun b a _ => a = b) (execute_program limits program items) [] (run program items).
Proof.
  intros u Hu. unfold execute_program, run. unfold sbind at 1, on_env at 1. cbn [ma_env ma_use]. revert u Hu.
  change (follows mkMachine limits (fun b a _ => a = b) (do! on_use (tick_fuel limits); do! sfor (execute_statement limits items) (pg_statements program);
    let! v := evaluate limits (pg_tail program) in match v with VI64 value => sret value | _ => slift (Err (InvalidProgram "non_i64_result")) end)
    (ensure_root []) (run program items)).
  unfold run. use_with. eapply follows_bind; [apply for_follows; intros st env _; apply exec_follows|]. intros env [] ? ->.
  eapply follows_bind; [use_tac|]. intros v ? ? [-> ->]. destruct v; try apply follows_err. by apply follows_ret.
Qed.

(** The prefixes: the outputs and the cost of the reference, or the limit that it
    passes. *)
Lemma runs_follow program items ends u : within limits u ->
  match runs program items ends with
  | Ok (outputs, c) => (within limits (charge u c) /\ run_prefixes limits program items ends u = Ok (outputs, charge u c)) \/
                       (~ within limits (charge u c) /\ exists e, run_prefixes limits program items ends u = Err e /\ is_budget e)
  | Err e => exists e', run_prefixes limits program items ends u = Err e' /\ (e' = e \/ is_budget e')
  | Panic => True
  end.
Proof.
  revert u. induction ends as [|n ends IH]; intros u Hu; cbn [runs run_prefixes]; [left; by rewrite charge_zero|].
  pose proof (run_follows program (take n items) u Hu) as H. unfold cbind. destruct (run program (take n items)) as [[z c]|e|]; cbn [obind fst snd]; [| |done].
  2:{ destruct H as (s & e' & -> & He). by exists e'. }
  destruct H as [(Hw & z' & env & -> & ->)|(Hw & s & e & -> & He)]; cbn [obind ma_use].
  - specialize (IH _ Hw). destruct (runs program items ends) as [[zs c']|e|]; cbn; [| |done].
    + rewrite <- !charge_charge, charge_zero. destruct IH as [[Hw' ->]|(Hw' & e & -> & He)]; [by left|right]. split; [done|]. by exists e.
    + destruct IH as (e' & -> & He). by exists e'.
  - destruct (runs program items ends) as [[zs c']|e'|]; cbn; [right| |done].
    + split; [|by exists e]. intros Hw'. by eapply Hw, within_charge.
    + exists e. split; [done|by right].
Qed.

End Meters.

(** ** Type soundness *)

Definition in_i64 (z : Z) : Prop := (- 2 ^ 63 <= z < 2 ^ 63)%Z.

Definition field_ok (f : TupleField) : Prop :=
  match f with Signed z => in_i64 z | Unsigned n => n <= u64_max | FieldBool _ => True end.
Definition item_ok (item : TupleItem) : Prop := Forall field_ok (ti_fields item).

(** A value is of a type, and an [i64] where it is a number. *)
Definition has_type (v : Value) (t : StaticType) : Prop :=
  match v, t with
  | VI64 z, TyI64 | VNumericField z, TyNumericField => in_i64 z
  | VBool _, TyBool => True
  | VTuple item, TyTuple fields => item_ok item /\ map field_kind (ti_fields item) = fields
  | _, _ => False
  end.

Definition binding_ok (t : TypeBinding) (b : Binding) : Prop :=
  has_type (bi_value b) (tb_kind t) /\ bi_kind b = value_kind (bi_value b) /\ bi_mutable b = tb_mutable t.

Definition scope_ok (ts : gmap string TypeBinding) (vs : gmap string Binding) : Prop := forall name, option_Forall2 binding_ok (ts !! name) (vs !! name).
Definition env_ok : TypeEnvironment -> Environment -> Prop := Forall2 scope_ok.

(** The literals are [i64]s, as the parser makes them. *)
Fixpoint literals_ok (e : Expression) : Prop :=
  match e with
  | EI64 z => in_i64 z
  | EBool _ | EVariable _ => True
  | EField e _ | ECastI64 e => literals_ok e
  | EWrapping _ l r => literals_ok l /\ literals_ok r
  | EIf c t e => literals_ok c /\ literals_ok t /\ literals_ok e
  end.

Fixpoint statement_literals (s : Statement) : Prop :=
  match s with
  | SLet _ _ _ e | SAssign _ e => literals_ok e
  | SForItems _ body => (fix all (l : list Statement) : Prop := match l with [] => True | s :: l' => statement_literals s /\ all l' end) body
  end.

Lemma body_literals body : (fix all (l : list Statement) : Prop := match l with [] => True | s :: l' => statement_literals s /\ all l' end) body <->
  Forall statement_literals body.
Proof. induction body as [|s body IH]; [done|]. by rewrite Forall_cons, IH. Qed.

Lemma wrap_i64_range z : in_i64 (wrap_i64 z).
Proof. unfold in_i64, wrap_i64. pose proof (Z.mod_pos_bound (z + 2 ^ 63) (2 ^ 64) eq_refl). lia. Qed.

Lemma find_binding_ok ts vs name t : env_ok ts vs -> find_binding ts name = Some t -> exists b, find_binding vs name = Some b /\ binding_ok t b.
Proof.
  induction 1 as [|sc vc ts vs Hsc H IH]; cbn [find_binding]; [done|]. destruct (Hsc name) as [t' b Hb|]; [|by auto].
  intros [= ->]. by exists b.
Qed.

Lemma has_type_kind v w t : has_type v t -> has_type w t -> value_kind v = value_kind w.
Proof. destruct v, w, t; done. Qed.

Lemma field_value_type f t : field_ok f -> kind_type (field_kind f) = Ok t -> has_type (field_value f) t.
Proof. destruct f; cbn; intros ? [= <-]; cbn; auto using wrap_i64_range. Qed.

Lemma kind_of_field fields (index : nat) k : map field_kind fields !! index = Some k -> exists f, fields !! index = Some f /\ k = field_kind f.
Proof. intros H. apply list_lookup_fmap_Some in H as (f & -> & Hf). by exists f. Qed.

(** A costed result that is reached and satisfies [P]. *)
Definition yields {A} (P : A -> Prop) (r : costed A) : Prop := match r with Ok (a, _) => P a | _ => False end.

Lemma yields_bind {A B} (P : A -> Prop) (Q : B -> Prop) (r : costed A) (f : A -> costed B) :
  yields P r -> (forall a, P a -> yields Q (f a)) -> yields Q (cbind r f).
Proof.
  unfold yields, cbind. destruct r as [[a c]|e|]; cbn; [|done|done]. intros Ha Hf. specialize (Hf a Ha).
  by destruct (f a) as [[b c']|e|].
Qed.

Lemma yields_tick {A} (Q : A -> Prop) c (r : costed A) : yields Q r -> yields Q (do$ ctick c; r).
Proof. intros H. by apply (yields_bind (fun _ => True)). Qed.

Lemma yields_ret {A} (P : A -> Prop) a : P a -> yields P (cret a).
Proof. done. Qed.

Lemma yields_lift {A B} (Q : B -> Prop) (o : outcome MeterError A) a (f : A -> costed B) : o = Ok a -> yields Q (f a) -> yields Q (let$ x := clift o in f x).
Proof. intros -> H. by apply (yields_bind (fun x => x = a)); [|intros ? ->]. Qed.

Lemma eval_sound ts vs e : forall t, env_ok ts vs -> literals_ok e -> expression_kind e ts = Ok t -> yields (fun v => has_type v t) (eval e vs).
Proof.
  intros t Henv. revert t. induction e as [z|b|name|e IH i|e IH|op e1 IH1 e2 IH2|e1 IH1 e2 IH2 e3 IH3]; cbn [expression_kind literals_ok eval];
    intros t Hlit Ht; apply yields_tick.
  - by injection Ht as <-.
  - by injection Ht as <-.
  - unfold type_lookup in Ht. destruct (find_binding ts name) as [tb|] eqn:E; [|done]. injection Ht as <-.
    destruct (find_binding_ok _ _ _ _ Henv E) as (b & Hb & Htype & _). unfold lookup_value. by rewrite Hb.
  - destruct (expression_kind e ts) as [[| | |fields]|?|] eqn:Ee; try done. cbn [obind] in Ht. eapply yields_bind; [by apply IH|].
    intros [| | |item] Hv; try done. destruct Hv as [Hitem <-].
    destruct (map field_kind (ti_fields item) !! N.to_nat i) as [k|] eqn:Ek; [|done]. apply kind_of_field in Ek as (f & Hf & ->).
    rewrite Hf. eapply yields_lift; [done|].
    apply yields_tick, yields_ret, field_value_type; [|done]. eapply Forall_lookup_1; [exact Hitem|exact Hf].
  - destruct (expression_kind e ts) as [t'|?|] eqn:Ee; try done. cbn [obind] in Ht. eapply yields_bind; [by apply IH|]. intros v Hv. apply yields_tick.
    destruct t', v; by simplify_eq.
  - destruct Hlit. run_inv Ht. injection Ht as <-. breflect. subst. eapply yields_bind; [by apply IH1|]. intros [] Hv; try done.
    eapply yields_lift; [done|]. eapply yields_bind; [by apply IH2|]. intros [] Hw; try done. eapply yields_lift; [done|].
    apply yields_tick, yields_ret. apply wrap_i64_range.
  - destruct Hlit as (?&?&?). run_inv Ht. injection Ht as <-. breflect. subst. eapply yields_bind; [by apply IH1|]. intros [] Hv; try done. apply yields_tick.
    destruct b; auto.
Qed.

Lemma declare_sound sc ts vs name t m v req ts' : env_ok (sc :: ts) vs -> declare_binding (sc :: ts) name (mkTypeBinding t m) = Ok ts' ->
  has_type v t -> match req with Some k => k = value_kind v | None => True end ->
  exists vs', declare vs name v m req = Ok vs' /\ env_ok ts' vs'.
Proof.
  intros (vc & vs0 & Hsc & Hts & ->)%Forall2_cons_inv_l Hd Hv Hreq. unfold declare, declare_binding in *. cbn [ensure_root] in *. run_inv Hd. injection Hd as <-.
  exists (<[name := mkBinding v (value_kind v) m]> vc :: vs0). rewrite negb_true_iff, bool_decide_eq_false in E0.
  split.
  - replace (bool_decide (is_Some (vc !! name))) with false.
    + destruct req as [k|]; [|done]. by rewrite bool_decide_true.
    + symmetry. apply bool_decide_eq_false. destruct (Hsc name); [contradict E0; by eauto|by intros [? [=]]].
  - constructor; [|done]. intros x. destruct (decide (x = name)) as [->|Hx]; [|rewrite !lookup_insert_ne by done; apply Hsc].
    rewrite !lookup_insert_eq. by constructor.
Qed.

Lemma update_binding_ok ts vs name t b : env_ok ts vs -> find_binding ts name = Some t -> binding_ok t b -> env_ok ts (update_binding vs name b).
Proof.
  intros H Ht Hb. induction H as [|sc vc ts vs Hsc H IH]; cbn [find_binding update_binding] in *; [constructor|].
  pose proof (Hsc name) as Hname. destruct (sc !! name) as [t'|] eqn:E; destruct (vc !! name) as [b'|]; inversion Hname; constructor; try done; [|by apply IH].
  injection Ht as ->. intros z. destruct (decide (z = name)) as [->|Hz]; [|rewrite lookup_insert_ne by done; apply Hsc].
  rewrite E, lookup_insert_eq. by constructor.
Qed.

Lemma assign_sound ts vs name t tb v : env_ok ts vs -> find_binding ts name = Some tb -> tb_mutable tb = true -> tb_kind tb = t -> has_type v t ->
  exists vs', assign vs name v = Ok vs' /\ env_ok ts vs'.
Proof.
  intros H Hf Hm <- Hv. destruct (find_binding_ok _ _ _ _ H Hf) as (b & Hb & Hbt & Hbk & Hbm). unfold assign. rewrite Hb. cbn [ok_or obind].
  rewrite Hbm, Hm, Hbk, bool_decide_true by by eapply has_type_kind. cbn [ensure obind]. eexists. split; [done|].
  eapply update_binding_ok; [done..|]. split; [done|]. split; [by eapply has_type_kind|by cbn].
Qed.

Lemma body_types_ofold schema body env : (fix body_types (body : list Statement) (env : TypeEnvironment) : outcome MeterError TypeEnvironment :=
    match body with
    | [] => Ok env
    | nested :: rest => let* env' := statement_types schema nested env in body_types rest env'
    end) body env = ofold (fun env st => statement_types schema st env) env body.
Proof. revert env. induction body as [|st body IH]; intros env; cbn [ofold]; [done|]. destruct (statement_types schema st env); cbn; auto. Qed.

(** A statement declares in the innermost scope only. *)
Lemma declare_shape {B} (sc : gmap string B) ts name b ts' : declare_binding (sc :: ts) name b = Ok ts' -> exists sc', ts' = sc' :: ts.
Proof. unfold declare_binding. cbn [ensure_root]. intros H. run_inv H. injection H as <-. eauto. Qed.

Lemma ofold_shape schema body sc ts ts' : Forall (fun st => forall sc ts', statement_types schema st (sc :: ts) = Ok ts' -> exists sc', ts' = sc' :: ts) body ->
  ofold (fun env st => statement_types schema st env) (sc :: ts) body = Ok ts' -> exists sc', ts' = sc' :: ts.
Proof.
  intros Hbody. revert sc. induction Hbody as [|st body Hst Hbody IH]; cbn [ofold]; intros sc; [intros [= <-]; by eauto|].
  intros (ts1 & H1 & H2)%obind_Ok. apply Hst in H1 as (sc1 & ->). by eapply IH.
Qed.

Lemma types_shape schema st : forall sc ts ts', statement_types schema st (sc :: ts) = Ok ts' -> exists sc', ts' = sc' :: ts.
Proof.
  induction st as [x m d e|x e|x body IH] using Statement_nested_ind; intros sc ts ts'; cbn [statement_types].
  - unfold let_type. intros H. run_inv H. by eapply declare_shape.
  - unfold assign_type. intros H. run_inv H. injection H as <-. eauto.
  - intros (ts1 & H1 & (ts2 & H2 & [= <-])%obind_Ok)%obind_Ok. rewrite body_types_ofold in H2. apply declare_shape in H1 as (sc1 & ->).
    apply ofold_shape in H2 as (sc2 & ->); [by exists sc|]. eapply Forall_impl; [exact IH|]. cbn. intros st Hst sc0 ts0. apply Hst.
Qed.

Lemma cfold_yields {A} (P : Environment -> Prop) (f : A -> Environment -> costed Environment) l env :
  P env -> (forall a env, a ∈ l -> P env -> yields P (f a env)) -> yields P (cfold f l env).
Proof.
  revert env. induction l as [|a l IH]; intros env HP Hf; cbn [cfold]; [done|].
  eapply yields_bind; [apply Hf; [constructor|done]|]. intros env' HP'. apply IH; [done|]. intros b env'' Hb. apply Hf. by constructor.
Qed.

(** The items of a prefix have the kinds that the checker took from the first. *)
Definition conforms (schema : list ValueKind) (item : TupleItem) : Prop := item_ok item /\ map field_kind (ti_fields item) = schema.

Section Sound.
Context (schema : list ValueKind) (items : list TupleItem).

Definition sound (st : Statement) : Prop := forall sc ts vs ts', (is_loop st = true -> Forall (conforms schema) items) -> statement_literals st ->
  env_ok (sc :: ts) vs -> statement_types schema st (sc :: ts) = Ok ts' -> yields (env_ok ts') (exec items st vs).

Lemma body_sound body : (forall st, st ∈ body -> is_loop st = true -> Forall (conforms schema) items) -> Forall statement_literals body -> Forall sound body ->
  forall sc ts vs ts', env_ok (sc :: ts) vs -> ofold (fun env st => statement_types schema st env) (sc :: ts) body = Ok ts' ->
  yields (env_ok ts') (cfold (exec items) body vs).
Proof.
  intros Hloop Hlit Hs. revert Hloop. induction Hs as [|st body Hst Hs IH]; intros Hloop sc ts vs ts' Hok; cbn [ofold cfold]; [by intros [= <-]|].
  intros (ts1 & H1 & H2)%obind_Ok. inversion Hlit; subst. destruct (types_shape _ _ _ _ _ H1) as (sc1 & ->).
  eapply yields_bind; [eapply Hst; [by apply Hloop; constructor|done..]|]. intros vs1 Hok1.
  eapply IH; [done| |done..]. intros st' Hin. apply Hloop. by constructor.
Qed.

Lemma exec_sound st : sound st.
Proof.
  induction st as [x m d e|x e|x body IH] using Statement_nested_ind; intros sc ts vs ts' Hloop Hlit Hok Ht; cbn [statement_types statement_literals exec] in *;
    apply yields_tick.
  - unfold let_type in Ht. apply obind_Ok in Ht as (t & Ht & Hd). apply obind_Ok in Hd as ([] & Hi & Hd). apply obind_Ok in Hd as ([] & Hn & Hd).
    eapply yields_bind; [by eapply eval_sound|]. intros v Hv. destruct (declare_sound _ _ _ _ _ _ v (if d then Some KI64 else None) _ Hok Hd Hv) as (vs' & Hvs & Hok').
    { destruct d; [|done]. destruct (decide (t = TyI64)) as [->|Hne]; [by destruct v|]. by rewrite (bool_decide_false _ Hne) in Hi. }
    eapply yields_lift; [exact Hvs|]. by apply yields_tick.
  - unfold assign_type in Ht. apply obind_Ok in Ht as (t & Ht & Hd). run_inv Hd. injection Hd as <-. breflect.
    eapply yields_bind; [by eapply eval_sound|]. intros v Hv. edestruct assign_sound as (vs' & Hvs & Hok'); [exact Hok|done|done|done|exact Hv|].
    eapply yields_lift; [exact Hvs|]. by apply yields_tick.
  - apply obind_Ok in Ht as (ts1 & H1 & Ht). apply obind_Ok in Ht as (ts2 & H2 & [= <-]). rewrite body_types_ofold in H2.
    destruct (declare_shape _ _ _ _ _ H1) as (sc1 & ->). assert (exists sc2, ts2 = sc2 :: sc :: ts) as (sc2 & ->).
    { eapply ofold_shape; [|exact H2]. apply Forall_forall. intros st _ sc0 ts0. apply types_shape. }
    cbn [pop_scope tail]. rewrite body_literals in Hlit. specialize (Hloop eq_refl).
    apply cfold_yields; [done|]. intros item env Hitem Henv. do 2 apply yields_tick.
    eapply (yields_bind (env_ok (sc2 :: sc :: ts))).
    + pose proof (proj1 (Forall_forall _ _) Hloop item Hitem) as Hc. destruct (declare_sound ∅ (sc :: ts) (push_scope env) x (TyTuple schema) false (VTuple item) (Some KTuple) _
        ltac:(by constructor; [intros z; rewrite !lookup_empty; constructor|]) H1 Hc eq_refl) as (vs1 & Hvs & Hok1).
      eapply yields_lift; [exact Hvs|]. eapply body_sound; [|done..|exact H2]. done.
    + intros env' (vc & vs' & _ & Hvs & ->)%Forall2_cons_inv_l. done.
Qed.

End Sound.

Definition program_literals (program : Program) : Prop := Forall statement_literals (pg_statements program) /\ literals_ok (pg_tail program).

Lemma schema_conforms items schema : Forall item_ok items -> item_schema items = Ok schema -> Forall (conforms schema) items.
Proof.
  destruct items as [|first rest]; [done|]. intros Hok%Forall_cons H. cbn [item_schema] in H. run_inv H. injection H as <-. destruct Hok as [Hfirst Hrest].
  constructor; [done|]. rewrite forallb_forall in E1. apply Forall_forall. intros item Hitem. split; [by apply (proj1 (Forall_forall _ _) Hrest)|].
  specialize (E1 item ltac:(by apply list_elem_of_In)). by apply bool_decide_eq_true in E1.
Qed.

Lemma run_sound program items n : Forall item_ok items -> program_literals program -> validate_program_types program items = Ok tt ->
  yields in_i64 (run program (take n items)).
Proof.
  intros Hitems [Hlits Hlit] Hv. unfold validate_program_types in Hv. apply obind_Ok in Hv as (schema & Hs & Hv).
  apply obind_Ok in Hv as (ts & Hts & Hv). apply obind_Ok in Hv as (t & Ht & Hv). run_inv Hv. breflect. subst.
  apply yields_tick. eapply yields_bind; [eapply body_sound; [| |apply Forall_forall; intros st _; by apply exec_sound| |exact Hts]|]; [|done| |].
  - intros st Hin Hl. apply Forall_take. unfold has_loop in Hs. destruct (existsb is_loop (pg_statements program)) eqn:E; [by eapply schema_conforms|].
    rewrite <- not_true_iff_false in E. contradict E. apply existsb_exists. exists st. by rewrite <- list_elem_of_In.
  - constructor; [|constructor]. intros z. rewrite !lookup_empty. constructor.
  - intros vs Hok. eapply yields_bind; [by eapply eval_sound|]. by intros [].
Qed.

Lemma runs_sound program items ends : Forall item_ok items -> program_literals program -> validate_program_types program items = Ok tt ->
  yields (fun outputs => length outputs = length ends /\ Forall in_i64 outputs) (runs program items ends).
Proof.
  intros Hi Hl Hv. induction ends as [|n ends IH]; cbn [runs]; [by split|].
  eapply yields_bind; [by apply run_sound|]. intros z Hz. eapply yields_bind; [exact IH|]. intros zs [Hlen Hzs]. split; [by cbn; f_equal|by constructor].
Qed.

(** ** Items visited *)

(** No loop inside a loop. *)
Definition flat (st : Statement) : Prop := match st with SForItems _ body => Forall (fun nested => is_loop nested = false) body | _ => True end.
Definition single_loop (program : Program) : Prop :=
  Forall flat (pg_statements program) /\ (length (List.filter is_loop (pg_statements program)) <= 1)%nat.

Definition visits {A} (n : N) (r : costed A) : Prop := match r with Ok (_, c) => co_prefix_items c = n | _ => True end.

Lemma visits_bind {A B} n m (r : costed A) (f : A -> costed B) : visits n r -> (forall a, visits m (f a)) -> visits (n + m) (cbind r f).
Proof.
  unfold visits, cbind. destruct r as [[a c]|e|]; cbn; [|done|done]. intros <- Hf. specialize (Hf a).
  destruct (f a) as [[b c']|e|]; cbn; [by rewrite Hf|done|done].
Qed.

Lemma visits_bind0 {A B} n (r : costed A) (f : A -> costed B) : visits 0 r -> (forall a, visits n (f a)) -> visits n (cbind r f).
Proof. apply (visits_bind 0 n). Qed.

Lemma visits_lift {A} (o : outcome MeterError A) : visits 0 (clift o).
Proof. by destruct o. Qed.

Ltac visits_tac := repeat first [done|apply visits_lift|apply visits_bind0; [|intros]|eassumption|match goal with |- visits _ (match ?v with _ => _ end) => destruct v end].

Lemma eval_visits e env : visits 0 (eval e env).
Proof. induction e; cbn [eval]; visits_tac. Qed.

Lemma cfold_visits {A} n (f : A -> Environment -> costed Environment) l env : (forall a env, a ∈ l -> visits n (f a env)) ->
  visits (n * len l) (cfold f l env).
Proof.
  revert env. induction l as [|a l IH]; intros env Hf; cbn [cfold]; [by rewrite N.mul_0_r|].
  replace (n * len (a :: l)) with (n + n * len l) by (unfold len; cbn [length]; lia).
  apply visits_bind; [apply Hf; constructor|]. intros env'. apply IH. intros b env'' Hb. apply Hf. by constructor.
Qed.

Lemma exec_simple_visits items st env : is_loop st = false -> visits 0 (exec items st env).
Proof. destruct st; [| |done]; intros _; cbn [exec]; visits_tac; apply eval_visits. Qed.

Lemma exec_visits items st env : flat st -> visits (if is_loop st then len items else 0) (exec items st env).
Proof.
  destruct st as [| |x body]; [by intros _; apply exec_simple_visits..|]. cbn [is_loop flat exec]. intros Hbody. apply visits_bind0; [done|intros _].
  replace (len items) with (1 * len items) by lia. apply cfold_visits. intros item env' _. apply (visits_bind 1 0); [done|intros _].
  visits_tac. apply (cfold_visits 0). intros st env'' Hst. apply exec_simple_visits. by rewrite Forall_forall in Hbody; apply Hbody.
Qed.

Lemma statements_visits items l env : Forall flat l -> visits (len items * len (List.filter is_loop l)) (cfold (exec items) l env).
Proof.
  intros Hflat. revert env. induction Hflat as [|st l Hst Hl IH]; intros env; cbn [cfold List.filter]; [by rewrite N.mul_0_r|].
  pose proof (exec_visits items st env Hst) as Hv. destruct (is_loop st); [|by apply visits_bind0].
  replace (len items * _) with (len items + len items * len (List.filter is_loop l)) by (unfold len; cbn [length]; lia).
  by apply visits_bind.
Qed.

Lemma loop_count program : single_loop program -> len (List.filter is_loop (pg_statements program)) = if has_loop program then 1 else 0.
Proof.
  intros [_ H]. unfold has_loop, len. induction (pg_statements program) as [|st l IH]; cbn [List.filter existsb length] in *; [done|].
  destruct (is_loop st); cbn [length orb] in *; [|by apply IH]. destruct (List.filter is_loop l); cbn in *; lia.
Qed.

Lemma run_visits program items : single_loop program -> visits (if has_loop program then len items else 0) (run program items).
Proof.
  intros H. unfold run. apply visits_bind0; [done|intros _]. replace (if has_loop program then len items else 0) with
    (len items * len (List.filter is_loop (pg_statements program)) + 0) by (rewrite loop_count by done; destruct (has_loop program); lia).
  apply visits_bind; [apply statements_visits, H|]. intros env. apply visits_bind0; [apply eval_visits|]. by intros [].
Qed.

(** [start + (start + 1) + ...], [n] terms. *)
Definition prefix_total (start n : nat) : N := fold_right (fun i total => N.of_nat i + total) 0 (seq start n).

Lemma prefix_total_closed n : 2 * prefix_total 1 n = N.of_nat n * (N.of_nat n + 1).
Proof.
  unfold prefix_total. induction n as [|n IH]; [done|]. rewrite seq_S, fold_right_app. cbn [fold_right].
  assert (Hfold : forall l a, fold_right (fun i total => N.of_nat i + total) a l = fold_right (fun i total => N.of_nat i + total) 0 l + a).
  { clear. intros l a. induction l as [|i l IH]; cbn [fold_right]; lia. }
  rewrite Hfold. lia.
Qed.

Lemma runs_visits program items start n : single_loop program -> (start + n <= S (length items))%nat ->
  visits (if has_loop program then prefix_total start n else 0) (runs program items (seq start n)).
Proof.
  intros Hp. revert start. induction n as [|n IH]; intros start Hn; cbn [seq runs]; [by destruct (has_loop program)|].
  replace (if has_loop program then prefix_total start (S n) else 0) with
    ((if has_loop program then len (take start items) else 0) + (if has_loop program then prefix_total (S start) n else 0)).
  - apply visits_bind; [by apply run_visits|]. intros z. rewrite <- (N.add_0_r (if has_loop program then prefix_total (S start) n else 0)).
    apply visits_bind; [apply IH; lia|done].
  - unfold prefix_total, len. rewrite length_take_le by lia. cbn [seq fold_right]. by destruct (has_loop program).
Qed.

(** The items are counted ahead: [n (n + 1) / 2] in [u64], or an overflow. *)
Lemma required_exact program n :
  required_prefix_items program (N.of_nat n) =
  let total := if has_loop program then prefix_total 1 n else 0 in
  if negb (has_loop program) || ((N.of_nat n + 1 <=? u64_max) && (total <=? u64_max)) then Ok total else Err CounterOverflow.
Proof.
  unfold required_prefix_items. destruct (has_loop program); cbn [negb orb]; [|done]. unfold checked_add, checked_mul.
  destruct (N.of_nat n + 1 <=? u64_max); cbn [ok_or obind andb]; [|done]. pose proof (prefix_total_closed n) as H. set (k := N.of_nat n) in *.
  pose proof (N.div_mod k 2 ltac:(done)). pose proof (N.mod_lt k 2 ltac:(done)). pose proof (N.div_mod (k + 1) 2 ltac:(done)). pose proof (N.mod_lt (k + 1) 2 ltac:(done)).
  destruct (k mod 2 =? 0) eqn:E; [apply N.eqb_eq in E|apply N.eqb_neq in E].
  - replace (k / 2 * (k + 1)) with (prefix_total 1 n); [by destruct (_ <=? _)|]. apply (N.mul_cancel_l _ _ 2); [done|]. rewrite H, N.mul_assoc. f_equal. lia.
  - replace (k * ((k + 1) / 2)) with (prefix_total 1 n); [by destruct (_ <=? _)|]. apply (N.mul_cancel_l _ _ 2); [done|]. rewrite H, (N.mul_comm 2), <- N.mul_assoc.
    f_equal. revert H0 H1 H2 H3 E. generalize (k / 2) (k mod 2) ((k + 1) / 2) ((k + 1) mod 2). lia.
Qed.

(** ** The parser answers *)

(** From at most [bound] tokens, [m] gives an error or a value with [P] after
    reading at least [least] tokens, and the loop flag stays. *)
Definition consumes {A} (bound least : nat) (P : A -> Prop) (m : parser A) : Prop := forall p, (length (ps_rest p) <= bound)%nat ->
  match m p with
  | (p', Ok a) => (length (ps_rest p') + least <= length (ps_rest p))%nat /\ ps_top_level_for_seen p' = ps_top_level_for_seen p /\ P a
  | (_, Err _) => True
  | (_, Panic) => False
  end.

Section Consumes.
Context {A B : Type}.
Implicit Types (P : A -> Prop) (Q : B -> Prop).

Lemma consumes_bind bound k l P Q m (f : A -> parser B) : consumes bound k P m -> (forall a, P a -> (k <= bound)%nat -> consumes (bound - k) l Q (f a)) ->
  consumes bound (k + l) Q (sbind m f).
Proof.
  intros Hm Hf p Hp. specialize (Hm p Hp). unfold sbind. destruct (m p) as [p1 [a|e|]]; [|done|done]. destruct Hm as (Hlen & Hseen & Ha).
  specialize (Hf a Ha ltac:(lia) p1 ltac:(lia)). destruct (f a p1) as [p2 [b|e|]]; [|done|done]. destruct Hf as (Hlen' & Hseen' & Hb).
  split; [lia|]. by rewrite Hseen', Hseen.
Qed.

Lemma consumes_weaken bound k l P P' (m : parser A) : consumes bound k P m -> (l <= k)%nat -> (forall a, P a -> P' a) -> consumes bound l P' m.
Proof.
  intros Hm Hl HP p Hp. specialize (Hm p Hp). destruct (m p) as [p' [a|e|]]; [|done|done]. destruct Hm as (? & ? & ?). split; [lia|]. auto.
Qed.

Lemma consumes_ret bound P a : P a -> consumes bound 0 P (sret a).
Proof. intros Ha p Hp. cbn. split; [lia|done]. Qed.

Lemma consumes_refuse bound k P e : consumes bound k P (refuse e).
Proof. done. Qed.

Lemma consumes_take bound k Q (f : option Token -> parser B) : (forall bound, consumes bound k Q (f None)) ->
  (forall t, (1 <= bound)%nat -> consumes (bound - 1) (k - 1) Q (f (Some t))) -> consumes bound k Q (let! t := take_token in f t).
Proof.
  intros HN HS p Hp. unfold sbind, take_token. destruct (ps_rest p) as [|t rest] eqn:E; [rewrite <- E; apply (HN bound p); rewrite E; cbn; lia|].
  cbn [length] in *. specialize (HS t ltac:(lia) (set_rest p rest)). cbn [set_rest ps_rest ps_top_level_for_seen] in HS. specialize (HS ltac:(lia)).
  destruct (f (Some t) (set_rest p rest)) as [p' [b|e|]]; [|done|done]. destruct HS as (? & ? & ?). split; [lia|done].
Qed.

Lemma consumes_take_if bound k t Q (f : bool -> parser B) : ((1 <= bound)%nat -> consumes (bound - 1) (k - 1) Q (f true)) -> consumes bound k Q (f false) ->
  consumes bound k Q (let! found := take_if t in f found).
Proof.
  intros HT HF p Hp. specialize (HF p Hp). unfold sbind, take_if. destruct (ps_rest p) as [|t' rest] eqn:E; [done|]. case_bool_decide; [|done].
  cbn [length] in *. specialize (HT ltac:(lia) (set_rest p rest)). cbn [set_rest ps_rest ps_top_level_for_seen] in HT. specialize (HT ltac:(lia)).
  destruct (f true (set_rest p rest)) as [p' [b|e|]]; [|done|done]. destruct HT as (? & ? & ?). split; [lia|done].
Qed.

Lemma consumes_get bound k Q (f : Parser -> parser B) : (forall p, consumes bound k Q (f p)) -> consumes bound k Q (let! p := sget in f p).
Proof. intros Hf p Hp. apply (Hf p p Hp). Qed.

End Consumes.

Lemma consumes_lift {A} bound (P : A -> Prop) o : match o with Ok a => P a | Err _ => True | Panic => False end -> consumes bound 0 P (slift o).
Proof. intros Ho p Hp. cbn. destruct o; [split; [lia|done]|done|done]. Qed.

Lemma expect_consumes bound t : consumes bound 1 (fun _ => True) (expect_token t).
Proof. apply consumes_take_if; [intros _; by apply consumes_lift|done]. Qed.

Lemma ident_consumes bound : consumes bound 1 (fun _ => True) take_ident.
Proof. apply consumes_take; [done|]. intros [] _; try done. by apply consumes_ret. Qed.

Lemma token_consumes bound : consumes bound 0 (fun _ => True) take_token.
Proof. intros p Hp. unfold take_token. destruct (ps_rest p) as [|t rest] eqn:E; cbn [set_rest ps_rest]; rewrite ?E; cbn [length]; (split; [lia|done]). Qed.

Lemma peek_consumes bound : consumes bound 0 (fun _ => True) peek.
Proof. intros p Hp. cbn. split; [lia|done]. Qed.

Lemma depth_consumes bound d : consumes bound 0 (fun _ => True) (observe_depth d).
Proof. intros p Hp. unfold observe_depth, ensure_limit. destruct (negb _); cbn; [split; [lia|done]|done]. Qed.

Lemma deeper_consumes bound d : consumes bound 0 (fun _ => True) (deeper d).
Proof. apply consumes_lift. unfold checked_count. by destruct (checked_add _ _ _). Qed.

Lemma if_consumes bound t : consumes bound 0 (fun _ => True) (take_if t).
Proof.
  intros p Hp. unfold take_if. destruct (ps_rest p) as [|t' rest] eqn:E; [rewrite E; split; [cbn; lia|done]|].
  case_bool_decide; cbn [set_rest ps_rest]; rewrite ?E; cbn [length]; (split; [lia|done]).
Qed.

Lemma consumes_seq {A B} bound k l (P : A -> Prop) (Q : B -> Prop) m (f : A -> parser B) : consumes bound k P m ->
  (forall a, P a -> (k <= bound)%nat -> consumes (bound - k) (l - k) Q (f a)) -> consumes bound l Q (sbind m f).
Proof. intros Hm Hf. eapply consumes_weaken; [by eapply consumes_bind| |done]. lia. Qed.

Create HintDb consumes.
#[export] Hint Resolve expect_consumes ident_consumes peek_consumes depth_consumes deeper_consumes : consumes.

Ltac consume_leaf :=
  lazymatch goal with
  | |- consumes _ _ _ (refuse _) => apply consumes_refuse
  | |- consumes _ _ ?P (sret _) => apply (consumes_weaken _ 0 _ P P); [apply consumes_ret|lia|done]
  | |- _ => eapply consumes_weaken; [solve [eauto with consumes]|lia|done]
  end.
Ltac consume_step := first
  [ consume_leaf
  | match goal with
    | |- consumes _ _ _ (sbind take_token _) => apply consumes_take; [done|intros ? ?]
    | |- consumes _ _ _ (sbind (take_if _) _) => apply consumes_take_if; [intros ?|]
    | |- consumes _ _ _ (sbind sget _) => apply consumes_get; intros ?
    | |- consumes _ _ _ (sbind _ _) => eapply consumes_seq; [solve [eauto with consumes]|intros ? ? ?; cbv beta in *]
    | |- consumes _ _ _ (match ?v with _ => _ end) => destruct v
    end ].

Lemma literal_consumes bound n : consumes bound 0 (fun z => in_i64 z /\ in_i64 (- z)) (slift (i64_literal n)).
Proof. apply consumes_lift. unfold i64_literal. destruct (n <=? i64_max) eqn:E; [|done]. apply N.leb_le in E. unfold in_i64, i64_max in *. lia. Qed.
#[export] Hint Resolve literal_consumes : consumes.
Lemma ensure_consumes bound b e : consumes bound 0 (fun _ => True) (slift (ensure b e)).
Proof. apply consumes_lift. by destruct b. Qed.
Lemma unit_consumes bound : consumes bound 0 (fun _ => True) (sret tt).
Proof. by apply consumes_ret. Qed.
#[export] Hint Resolve ensure_consumes unit_consumes : consumes.
#[export] Hint Extern 2 (_ < _)%nat => lia : consumes.
#[export] Hint Extern 2 (_ <= _)%nat => lia : consumes.
#[export] Hint Extern 2 (literals_ok _) => (cbn; tauto) : consumes.

Lemma expression_consumes fuel :
  (forall depth bound, (bound < fuel)%nat -> consumes bound 1 literals_ok (parse_expression fuel depth)) /\
  (forall depth bound e, (bound < fuel)%nat -> literals_ok e -> consumes bound 0 literals_ok (parse_postfix fuel depth e)).
Proof.
  induction fuel as [|fuel [IHe IHp]]; [split; intros; lia|]. split.
  - intros depth bound Hb. cbn [parse_expression]. consume_step. consume_step.
    eapply (consumes_seq _ 0 _ literals_ok); [|intros e He _; repeat consume_step]. repeat consume_step; try easy.
  - intros depth bound e Hb He. cbn [parse_postfix]. repeat consume_step; try easy.
Qed.

Lemma parse_expression_consumes fuel depth bound : (bound < fuel)%nat -> consumes bound 1 literals_ok (parse_expression fuel depth).
Proof. apply expression_consumes. Qed.
#[export] Hint Resolve parse_expression_consumes : consumes.

(** A statement that is no loop, with its literals. *)
Definition simple_ok (st : Statement) : Prop := is_loop st = false /\ statement_literals st.

Lemma parse_let_consumes fuel depth bound : (bound <= fuel)%nat -> consumes bound 1 simple_ok (parse_let fuel depth).
Proof.
  intros Hb. unfold parse_let. eapply consumes_seq; [apply token_consumes|intros _ _ _]. repeat consume_step; easy.
Qed.

Lemma parse_assignment_consumes fuel depth bound : (bound <= fuel)%nat -> consumes bound 1 simple_ok (parse_assignment fuel depth).
Proof. intros Hb. unfold parse_assignment. repeat consume_step; easy. Qed.
#[export] Hint Resolve parse_let_consumes parse_assignment_consumes : consumes.

Lemma parse_simple_consumes fuel depth bound : (bound <= fuel)%nat -> consumes bound 1 simple_ok (parse_simple fuel depth).
Proof. intros Hb. unfold parse_simple. repeat consume_step. Qed.
#[export] Hint Resolve parse_simple_consumes : consumes.

Lemma parse_body_consumes fuel : forall depth bound, (bound < fuel)%nat -> consumes bound 0 (Forall simple_ok) (parse_body fuel depth).
Proof.
  induction fuel as [|fuel IH]; [lia|]. intros depth bound Hb. cbn [parse_body]. repeat consume_step; by constructor.
Qed.
#[export] Hint Resolve parse_body_consumes : consumes.

Definition statement_ok (st : Statement) : Prop := flat st /\ statement_literals st.

Lemma parse_for_consumes fuel depth bound : (bound <= fuel)%nat -> consumes bound 1 (fun st => is_loop st = true /\ statement_ok st) (parse_for fuel depth).
Proof.
  intros Hb. unfold parse_for. eapply consumes_seq; [apply token_consumes|intros _ _ _]. do 3 consume_step.
  eapply (consumes_seq _ 0 _ (fun _ => True)); [by repeat consume_step|intros _ _ _].
  repeat consume_step. split; [done|]. split; cbn [flat statement_literals]; [|rewrite body_literals].
  all: eapply Forall_impl; [eassumption|]; by intros ? [].
Qed.
#[export] Hint Resolve parse_for_consumes : consumes.

(** A statement at the top level: a loop only when none was seen. *)
Lemma parse_statement_reads fuel depth p : (length (ps_rest p) <= fuel)%nat ->
  match parse_statement fuel depth p with
  | (p', Ok st) => (length (ps_rest p') < length (ps_rest p))%nat /\ statement_ok st /\
                   ps_top_level_for_seen p' = ps_top_level_for_seen p || is_loop st /\ ps_top_level_for_seen p && is_loop st = false
  | (_, Err _) => True
  | (_, Panic) => False
  end.
Proof.
  intros Hp. unfold parse_statement, observe_depth, sbind at 1. destruct (ensure_limit _ _ _) as [[]|e|] eqn:E;
    [|done|by unfold ensure_limit in E; destruct (negb _)].
  unfold sbind at 1, sget. cbn [ps_rest ps_top_level_for_seen]. set (q := mkParser _ _ _ _).
  assert (Hsimple : forall (m : parser Statement), consumes fuel 1 simple_ok m -> match m q with
    | (p', Ok st) => (length (ps_rest p') < length (ps_rest p))%nat /\ statement_ok st /\
                     ps_top_level_for_seen p' = ps_top_level_for_seen p || is_loop st /\ ps_top_level_for_seen p && is_loop st = false
    | (_, Err _) => True
    | (_, Panic) => False
    end).
  { intros m Hm. specialize (Hm q Hp). destruct (m q) as [p' [st|e|]]; [|done|done]. destruct Hm as (Hlen & Hseen & Hloop & Hlit). cbn in Hlen, Hseen.
    rewrite Hloop, orb_false_r, andb_false_r. split; [lia|]. split; [|done]. split; [by destruct st|done]. }
  destruct (head (ps_rest p)) as [[]|]; try done; [by apply Hsimple, parse_let_consumes| |by apply Hsimple, parse_assignment_consumes].
  destruct (ps_top_level_for_seen p) eqn:Eseen; [done|]. unfold sbind, smodify. pose proof (parse_for_consumes fuel depth fuel (le_n _) (set_for_seen q) Hp) as H.
  destruct (parse_for fuel depth (set_for_seen q)) as [p' [st|e|]]; [|done|done]. destruct H as (Hlen & Hseen & Hloop & Hst). cbn in Hlen, Hseen.
  rewrite Hloop, Hseen. split; [lia|]. by split.
Qed.

Lemma parse_statements_reads fuel : forall p, (length (ps_rest p) < fuel)%nat ->
  match parse_statements fuel p with
  | (p', Ok l) => (length (ps_rest p') <= length (ps_rest p))%nat /\ Forall statement_ok l /\
                  (length (List.filter is_loop l) + (if ps_top_level_for_seen p then 1 else 0) <= 1)%nat
  | (_, Err _) => True
  | (_, Panic) => False
  end.
Proof.
  induction fuel as [|fuel IH]; [lia|]. intros p Hp. cbn [parse_statements]. unfold sbind at 1, sget. destruct (negb _); [cbn; by destruct (ps_top_level_for_seen p); eauto with lia|].
  unfold sbind at 1. pose proof (parse_statement_reads fuel 2 p ltac:(lia)) as H. destruct (parse_statement fuel 2 p) as [p1 [st|e|]]; [|done|done].
  destruct H as (Hlen & Hst & Hseen & Hloop). unfold sbind. specialize (IH p1 ltac:(lia)). destruct (parse_statements fuel p1) as [p2 [l|e|]]; [|done|done].
  destruct IH as (Hlen' & Hl & Hcount). rewrite Hseen in Hcount. cbn. split; [lia|]. split; [by constructor|].
  destruct (is_loop st), (ps_top_level_for_seen p); cbn in *; try done; lia.
Qed.

(** Reading never runs out of fuel; what is read has at most one loop, not nested. *)
Lemma parse_program_reads p : match parse_program (S (length (ps_rest p))) p with
  | (_, Ok program) => program_literals program /\ single_loop program
  | (_, Err _) => True
  | (_, Panic) => False
  end.
Proof.
  unfold parse_program. set (fuel := S _). unfold sbind at 1, sget at 1. unfold sbind at 1, slift at 1. destruct (negb _); cbn [ensure]; [|done].
  unfold sbind at 1. pose proof (parse_statements_reads fuel p ltac:(lia)) as H. destruct (parse_statements fuel p) as [p1 [l|e|]]; [|done|done].
  destruct H as (Hlen & Hl & Hcount). unfold sbind at 1. pose proof (parse_expression_consumes fuel 2 (length (ps_rest p)) ltac:(lia) p1 Hlen) as H.
  destruct (parse_expression fuel 2 p1) as [p2 [e|e|]]; [|done|done]. destruct H as (_ & _ & He). unfold sbind, sget, slift. destruct (bool_decide (ps_rest p2 = [])); cbn [ensure]; [|done].
  split; (split; [eapply Forall_impl; [exact Hl|by intros ? []]|]); [done|]. cbn. lia.
Qed.

(** ** Reading a text *)

Lemma span_length p s : (String.length (span p s).2 <= String.length s)%nat.
Proof. induction s as [|c s IH]; cbn [span]; [done|]. destruct (p c); [|done]. destruct (span p s) as [a b]. cbn in *. lia. Qed.

Lemma span_first p c s : p c = true -> (String.length (span p (String c s)).2 <= String.length s)%nat.
Proof. intros Hc. cbn [span]. rewrite Hc. pose proof (span_length p s). destruct (span p s). done. Qed.

Lemma word_token_total w : word_token w <> Panic.
Proof. unfold word_token. repeat (destruct (_ : bool); [done|]). done. Qed.

Lemma symbol_token_total c : symbol_token c <> Panic.
Proof. unfold symbol_token. repeat (destruct (_ : bool); [done|]). done. Qed.

Lemma lex_token_reads c rest : match lex_token c rest with
  | Ok (_, rest') => (String.length rest' <= String.length rest)%nat
  | Err _ => True
  | Panic => False
  end.
Proof.
  unfold lex_token. do 5 (destruct (_ : bool); [done|]). destruct (is_ascii_digit c) eqn:Ed.
  { pose proof (span_first _ _ rest Ed) as H. destruct (span is_ascii_digit (String c rest)) as [digits rest']. by destruct (parse_uint _ _). }
  destruct (starts_word c) eqn:Ew.
  - assert (Hw : in_word c = true). { unfold starts_word, in_word, is_ascii_alphabetic, is_ascii_alphanumeric in *.
      destruct (is_ascii_lower c), (is_ascii_upper c), (is_char 95 c); rewrite ?orb_true_r in *; done. }
    pose proof (span_first _ _ rest Hw) as H. destruct (span in_word (String c rest)) as [word rest']. pose proof (word_token_total word).
    by destruct (word_token word).
  - pose proof (symbol_token_total c). destruct (symbol_token c); cbn; done || lia.
Qed.

Lemma lex_loop_total fuel : forall limit count s, (String.length s <= fuel)%nat -> lex_loop fuel limit count s <> Panic.
Proof.
  induction fuel as [|fuel IH]; intros limit count [|c s] Hs; cbn [lex_loop]; try done; cbn in Hs; [lia|].
  destruct (is_ascii_whitespace c); [apply IH; lia|]. pose proof (lex_token_reads c s) as H. destruct (lex_token c s) as [[t rest]|e|]; [|done|done]. cbn [obind].
  unfold ensure_limit. destruct (negb _); cbn [ensure obind]; [|done]. specialize (IH limit (count + 1) rest ltac:(lia)). by destruct (lex_loop _ _ _ _).
Qed.

Lemma lex_total source limit : lex source limit <> Panic.
Proof. by apply lex_loop_total. Qed.

Lemma count_node_total depth u : count_node depth u <> Panic.
Proof. unfold count_node, ensure_limit, checked_count. total_tac. Qed.
#[export] Hint Resolve count_node_total : total.

Lemma visit_expression_total e : forall depth u, visit_expression e depth u <> Panic.
Proof. induction e; intros depth u; cbn [visit_expression]; unfold checked_count; total_tac. Qed.
#[export] Hint Resolve visit_expression_total : total.

Lemma visit_statement_total st : forall depth u, visit_statement st depth u <> Panic.
Proof.
  induction st as [x m d e|x e|x body IH] using Statement_nested_ind; intros depth u; cbn [visit_statement]; unfold checked_count; [total_tac..|].
  apply total_bind; [total_tac|intros u' _]. clear u. revert u'. induction IH as [|st body Hst Hbody IH]; intros u; [done|]. total_tac.
Qed.

Lemma ast_statistics_total program : ast_statistics program <> Panic.
Proof.
  unfold ast_statistics. apply total_bind; [|total_tac]. apply (ofold_no_panic (fun _ => True)); [|done]. intros u st _ _. split; [apply visit_statement_total|done].
Qed.

(** What an accepted text gives: literals in [i64], at most one loop, and run-time
    counters that start from zero. *)
Lemma parse_facts source limits : match parse source limits with
  | Ok program => program_literals (mp_ast program) /\ single_loop (mp_ast program) /\
                  within limits (mp_static_use program) /\ ru_prefix_items (mp_static_use program) = 0
  | Err _ => True
  | Panic => False
  end.
Proof.
  unfold parse, ensure_limit. destruct (negb _); cbn [ensure obind]; [|done]. pose proof (lex_total source (max_tokens limits)) as Hlex.
  destruct (lex source (max_tokens limits)) as [tokens|e|]; [|done|done]. cbn [obind].
  pose proof (parse_program_reads (parser_new tokens (max_ast_depth limits))) as Hp. cbn [parser_new ps_rest] in Hp.
  destruct (parse_program _ _) as [p [ast|e|]]; [|done|done]. cbn [obind]. pose proof (ast_statistics_total ast) as Hs.
  destruct (ast_statistics ast) as [[nodes depth]|e|]; [|done|done]. cbn [obind]. do 2 (destruct (negb _); cbn [ensure obind]; [|done]).
  destruct Hp. split; [done|]. split; [done|]. split; [|done]. unfold within. cbn. lia.
Qed.

Lemma parse_total source limits : parse source limits <> Panic.
Proof. pose proof (parse_facts source limits) as H. by destruct (parse source limits). Qed.

(** ** Metering *)

(** The check that is made ahead refuses exactly the totals over the limit. *)
Lemma required_check program n limits : limits_u64 limits ->
  let total := if has_loop program then prefix_total 1 n else 0 in
  let check_ := let* required := required_prefix_items program (N.of_nat n) in ensure_limit required (max_prefix_items limits) "prefix_items" in
  (total <= max_prefix_items limits /\ check_ = Ok tt) \/ (max_prefix_items limits < total /\ exists e, check_ = Err e /\ is_budget e).
Proof.
  intros (_ & _ & Hl) total check_. unfold check_. rewrite required_exact. fold total. cbv zeta.
  assert (Hn : total <= max_prefix_items limits -> negb (has_loop program) || ((N.of_nat n + 1 <=? u64_max) && (total <=? u64_max)) = true).
  { intros Ht. unfold total in *. destruct (has_loop program); [|done]. cbn [negb orb]. pose proof (prefix_total_closed n). rewrite andb_true_iff, !N.leb_le. split; [|lia].
    destruct (N.le_gt_cases (N.of_nat n + 1) u64_max) as [|Hgt]; [done|]. change u64_max with 18446744073709551615 in *. nia. }
  unfold ensure_limit. destruct (N.le_gt_cases total (max_prefix_items limits)) as [Hle|Hgt].
  - left. split; [done|]. rewrite (Hn Hle). cbn [obind]. by rewrite (proj2 (N.ltb_ge _ _) Hle).
  - right. split; [done|]. destruct (_ || _); cbn [obind]; [|by eexists]. rewrite (proj2 (N.ltb_lt _ _) Hgt). by eexists.
Qed.

Lemma evaluate_follows_runs source limits program items : limits_u64 limits -> Forall item_ok items -> parse source limits = Ok program ->
  validate_program_types (mp_ast program) items = Ok tt ->
  exists outputs c, runs (mp_ast program) items (seq 1 (length items)) = Ok (outputs, c) /\ length outputs = length items /\ Forall in_i64 outputs /\
    let use_ := charge (mp_static_use program) c in
    (within limits use_ /\ evaluate_hidden_prefixes program items limits = Ok (mkEvaluation outputs use_)) \/
    (~ within limits use_ /\ exists e, evaluate_hidden_prefixes program items limits = Err e /\ is_budget e).
Proof.
  intros Hl Hitems Hparse Hv. pose proof (parse_facts source limits) as H. rewrite Hparse in H. destruct H as (Hlit & Hloop & Hw & Hzero).
  pose proof (runs_sound _ _ (seq 1 (length items)) Hitems Hlit Hv) as Hs. pose proof (runs_follow limits Hl (mp_ast program) items (seq 1 (length items)) _ Hw) as Hr.
  pose proof (runs_visits (mp_ast program) items 1 (length items) Hloop (le_n _)) as Hc. pose proof (required_check (mp_ast program) (length items) limits Hl) as Hq.
  cbv zeta in Hq. set (total := if has_loop (mp_ast program) then _ else _) in *.
  destruct (runs _ _ _) as [[zs c]|e|]; [|done|done]. cbn in Hc. destruct Hs as [Hlen Hz]. rewrite length_seq in Hlen. exists zs, c. repeat (split; [done|]).
  assert (Heval : evaluate_hidden_prefixes program items limits =
    do* (let* required := required_prefix_items (mp_ast program) (N.of_nat (length items)) in ensure_limit required (max_prefix_items limits) "prefix_items");
    let* r := run_prefixes limits (mp_ast program) items (seq 1 (length items)) (mp_static_use program) in Ok (mkEvaluation r.1 r.2)).
  { unfold evaluate_hidden_prefixes. rewrite Hv. cbn [obind]. by destruct (required_prefix_items _ _). }
  rewrite Heval. destruct Hq as [[_ ->]|(Hgt & e & -> & He)]; cbn [obind].
  - destruct Hr as [[Hr ->]|(Hr & e & -> & He)]; [by left|right]. split; [done|]. by exists e.
  - right. split; [|by exists e]. unfold within, charge. cbn. lia.
Qed.

(** C0: on a text that the parser accepts, evaluation succeeds exactly when the type
    checker accepts and the cost of the reference semantics stays within the limits,
    and then it gives the outputs and the cost of the reference semantics. Neither
    the early stop inside an expression nor the count of visited items that is made
    ahead refuses anything else. *)
Theorem metering_exact source limits program items outputs use_ :
  limits_u64 limits -> Forall item_ok items -> parse source limits = Ok program ->
  evaluate_hidden_prefixes program items limits = Ok (mkEvaluation outputs use_) <->
  validate_program_types (mp_ast program) items = Ok tt /\
  exists c, runs (mp_ast program) items (seq 1 (length items)) = Ok (outputs, c) /\
    use_ = charge (mp_static_use program) c /\ within limits use_.
Proof.
  intros Hl Hitems Hparse. destruct (validate_program_types (mp_ast program) items) as [[]|e|] eqn:Ev.
  2,3: unfold evaluate_hidden_prefixes; rewrite Ev; split; [done|by intros [? _]].
  destruct (evaluate_follows_runs _ _ _ _ Hl Hitems Hparse Ev) as (zs & c & Hr & _ & _ & H). rewrite Hr. cbv zeta in H.
  destruct H as [[Hw ->]|(Hw & e & -> & _)]; (split; [|intros (_ & c' & [= <- <-] & -> & Hw')]).
  - intros [= <- <-]. split; [done|]. by exists c.
  - done.
  - done.
  - done.
Qed.

(** C0: a program that the type checker accepts never goes wrong: on every list of
    items with well-formed fields it gives one [i64] for each prefix, or stops at a
    limit of the meter; no type, name or field error is left, and no abort. *)
Theorem well_typed_never_stuck source limits program items :
  limits_u64 limits -> Forall item_ok items -> parse source limits = Ok program ->
  validate_program_types (mp_ast program) items = Ok tt ->
  match evaluate_hidden_prefixes program items limits with
  | Ok evaluation => length (ev_outputs evaluation) = length items /\ Forall in_i64 (ev_outputs evaluation)
  | Err e => is_budget e
  | Panic => False
  end.
Proof.
  intros Hl Hitems Hparse Hv. destruct (evaluate_follows_runs _ _ _ _ Hl Hitems Hparse Hv) as (zs & c & _ & Hlen & Hz & H). cbv zeta in H.
  by destruct H as [[_ ->]|(_ & e & -> & He)].
Qed.

(** ** An answer *)

Module MeterDemo.

Definition source : string := "let mut acc: i64 = 0; for x in items { acc = acc.wrapping_add(x.0 as i64); } acc".
Definition limits : MeterLimits := mkLimits 200 60 40 10 100 200 10.
Definition items : list TupleItem := [mkItem [Unsigned 5]; mkItem [Unsigned 7]].

Definition body : list Statement := [SAssign "acc" (EWrapping WAdd (EVariable "acc") (ECastI64 (EField (EVariable "x") 0)))].
Definition ast : Program := mkProgram [SLet "acc" true true (EI64 0); SForItems "x" body] (EVariable "acc").
Definition program : MeteredProgram := mkMetered ast (mkUse 80 28 11 7 0 0 0).

Lemma parsed : parse source limits = Ok program.
Proof. by vm_compute. Qed.

Lemma checked : validate_program_types ast items = Ok tt.
Proof. by vm_compute. Qed.

Lemma ran : runs ast items [1; 2]%nat = Ok ([5; 12]%Z, mkCost 14 31 3).
Proof. by vm_compute. Qed.

Lemma limits_ok : limits_u64 limits.
Proof. by vm_compute. Qed.

Lemma items_ok : Forall item_ok items.
Proof. repeat constructor; by vm_compute. Qed.

End MeterDemo.

Lemma metering_exact_witness :
  evaluate_hidden_prefixes MeterDemo.program MeterDemo.items MeterDemo.limits = Ok (mkEvaluation [5; 12]%Z (mkUse 80 28 11 7 14 31 3)).
Proof.
  apply (metering_exact MeterDemo.source MeterDemo.limits MeterDemo.program MeterDemo.items _ _ MeterDemo.limits_ok MeterDemo.items_ok MeterDemo.parsed).
  split; [exact MeterDemo.checked|]. exists (mkCost 14 31 3). split; [exact MeterDemo.ran|]. split; [done|]. by vm_compute.
Defined.

Lemma well_typed_never_stuck_witness :
  match evaluate_hidden_prefixes MeterDemo.program MeterDemo.items MeterDemo.limits with
  | Ok evaluation => length (ev_outputs evaluation) = length MeterDemo.items /\ Forall in_i64 (ev_outputs evaluation)
  | Err e => is_budget e
  | Panic => False
  end.
Proof.
  exact (well_typed_never_stuck MeterDemo.source MeterDemo.limits MeterDemo.program MeterDemo.items MeterDemo.limits_ok MeterDemo.items_ok
    MeterDemo.parsed MeterDemo.checked).
Defined.
